(* ===== verification/_CoqProject ===== *)
-Q . S2P
Prelude.v
YamlData.v
YamlReader.v
YamlChars.v
YamlScanner.v
YamlParser.v
YamlEvents.v
YamlRefinement.v
YamlDirectives.v
YamlFrame.v
YamlLevels.v
YamlUtf8.v
YamlBuffer.v
YamlCursor.v
YamlText.v
YamlQuoted.v
YamlSafe.v
YamlTotal.v
YamlDelivery.v
YamlStarted.v
YamlDocument.v
YamlLoader.v
YamlCompose.v
YamlString.v
YamlStringSpec.v
YamlWriter.v
YamlWriterSpec.v
YamlEmitWrite.v
YamlEmitText.v
YamlEmitSafe.v
YamlQuoteWrite.v
YamlQuoteTrip.v
YamlEmitter.v
YamlEmitAnalysis.v
YamlEventMake.v
YamlEmitGrammar.v
YamlEmitStream.v
YamlDumper.v
YamlDumpSpec.v
YamlDumpEvents.v
YamlDumpCompose.v
YamlDumpStream.v
Sha256.v
Sha256Spec.v
Sha256Total.v
Sha1.v
Sha1Spec.v
Bit64.v
Bit64Codec.v
AppYaml.v
AppYamlSafe.v
SharedData.v
Database.v
Sprintf.v
SqlText.v
SqlRead.v
SqlStore.v
LibraryContext.v
LibraryStore.v
LibraryTrust.v
