(* ===== verification/Prelude.v ===== *)
(** * Verification of the native core of retroconfig

    retroconfig is a Flutter application over a native plugin
    ([plugins/glib], called glib below).  Its catalogue of libraries is read
    from YAML bodies, each of which carries a token: the signature, by a key
    of the application, of the previous token and of the address of the
    library.  This development models the code that a body passes through,
    from octets to the rows of the database, and proves what makes it correct.

    ** The program and the files

    Paths are below [src/plugins/glib]; LY is [thirdparties/libyaml] and APP
    is [src/application].

    - libyaml.  Octets are decoded by the reader ([LY/src/reader.c],
      [YamlReader]), looked at through character macros
      ([LY/src/yaml_private.h], [YamlChars]), turned into tokens by the scanner
      ([LY/src/scanner.c], [YamlScanner]), into events by the parser
      ([LY/src/parser.c], [YamlParser]) and into documents by the loader
      ([LY/src/loader.c], [YamlLoader]) over the interface of documents
      ([LY/src/api.c], [YamlDocument]).  The types and the object
      [yaml_parser_t] are in [YamlData] ([LY/include/yaml.h]); its fields are
      grouped as in its declaration (error, reader, scanner, parser).
    - The way back: the dumper ([LY/src/dumper.c], [YamlDumper]) turns a
      document into events, an application makes them with the initialisers of
      [LY/src/api.c] ([YamlEventMake]); the emitter ([LY/src/emitter.c]) queues
      them, analyses them and writes them, its state machine in [YamlEmitter],
      its writing routines in [YamlEmitWrite], over a cursor in a string
      ([YamlString], the macros of [LY/src/yaml_private.h]); the writer
      ([LY/src/writer.c], [YamlWriter], with the object [yaml_emitter_t] and
      its settings) recodes the text and passes it to a handler.
    - The application reads a body with its own class [gs::yaml]
      ([APP/utils/YAML.cpp], [AppYaml]), a recursive descent over events.
    - Tokens are text: [thirdparties/bit64/bit64.cpp] and [APP/utils/Bit64.cpp]
      ([Bit64]).  They are hashed with [thirdparties/sha256/sha256.c]
      ([Sha256]); the other hash of the plugin is [thirdparties/sha1/sha1.c]
      ([Sha1]).
    - [APP/main/LibraryContext.cpp] puts these together ([LibraryContext]):
      [parseLibrary] calls [yaml::parse], [isMatch] (bit64, SHA-256,
      secp256k1), and keeps objects, an array of references to them
      ([_Array::remove] of [src/gcore/core/IMP.cpp]) and the rows of a table
      ([APP/utils/database/Model.h], [SQLite.cpp]).
    - Statements for the database go through a queue
      ([APP/utils/database/Model.cpp], [Database]).  Their text is made from
      queries and objects by [APP/utils/database/SQLite.cpp] ([SqlText], with
      [Sprintf] for numbers and the buffers they are written through); the
      objects themselves, [Model.h] and the classes of [APP/models] that are
      kept in tables are in [SqlStore].
    - [APP/utils/SharedData.cpp] resolves paths ([SharedData]).

    The components meet at interfaces that are type classes: [TokenSource] and
    [TokenSourceLaws] (what the parser needs from a scanner; the scanner is one
    instance, a queue of tokens another), [EventSink] (what takes the events of
    the dumper; the emitter, or a list), [Collects] (what a write handler
    promises; the handler for strings is an instance), [Secp256k1] (the calls
    of the signature library; any functions), [LibraryTable] and [LibraryTableLaws]
    (insertion, update and deletion of rows), [LibrarySequence] (the numbers
    that AUTOINCREMENT gives to rows), [Engine] (the execution of a statement by
    the queue; [SQLite_engine] is the instance of [SQLite.cpp]),
    [Sqlite3] and [Sqlite3Laws] (the calls of sqlite3, and what it promises for
    statements of known meaning).

    ** The model

    A routine on a mutable object is a function from the object to an
    [outcome]: [Ret], [Err] (the C convention of returning 0, with the reason
    in the object), [Crash] (undefined behaviour: a NULL dereference, a read or
    write outside a buffer, a pop of an empty stack, a lock of a mutex that the
    thread holds) or [Timeout] (the fuel of a loop is exhausted).  [wp F m Q E]
    is the weakest precondition of [m]; [strict] allows neither [Crash] nor
    [Timeout], so that a theorem with [strict] shows that the code returns.
    Octets and words are integers [Z] with their width written out; strings are
    lists of octets; stacks carry their capacity and fail as
    [yaml_stack_extend] does.  Whether [char] is signed, what uninitialised
    memory holds and what the clock says are parameters.

    ** The theorems

    - C1, C4 ([YamlEvents], [YamlRefinement], [YamlDirectives]):
      [yaml_parser_parse] refines a grammar of event streams given as a
      push-down automaton, for every token source; it needs at most eight calls
      per token; errors are final.  The directives in force in a document are
      those that the tokens of its source declare and the defaults, tags resolve
      by them, and a directive is refused exactly when it is inadmissible.
    - C2 ([YamlText], [YamlQuoted], [YamlQuoteWrite], [YamlQuoteTrip]): what the
      emitter writes for a text in double quotes the scanner reads back as this
      text.  [YamlText] specifies the reader as a list of characters in front of
      the cursor, [YamlQuoted] is the relation between a quoted text and its
      value that both sides are shown against.
    - C3, C17, C18 ([SqlRead], [SqlStore]): every statement reads, in a grammar
      of the part of SQL that is used, as the query or the object it was made
      for, whatever the texts are, when names are no keywords of SQL; which
      numbers overrun their buffers, of 256 characters in queries and of 20 and
      10 in statements on objects; and
      [KeyValue], through statements, queue and engine, is a map.  Further: the
      queries of [CollectionData], and that a query keeps results that are out
      of date.
    - C5-C6 ([YamlFrame], [YamlLevels], [YamlCursor], [YamlSafe],
      [YamlTotal], [YamlStarted]): the scanner terminates on every input, never
      reads outside its buffer, keeps its invariant, and delivers a balanced
      stream of tokens; scanner and parser together terminate on every input.
      [YamlLevels] also gives the exact effect of indentation and simple keys.
    - C7, C14 ([YamlStringSpec], [YamlEmitText], [YamlEmitSafe],
      [YamlEmitAnalysis], [YamlEmitGrammar], [YamlEmitStream]): the emitter
      never crashes and always returns; it accepts exactly the runs of the
      grammar of C1 with acceptable anchors, tags and directives, and what it
      writes for a complete stream, in any encoding, the reader decodes.
    - C8-C9, C28 ([YamlDumpSpec], [YamlDumpEvents], [YamlDumpCompose],
      [YamlDumpStream]): the dumper emits the events of a reference walk of the
      graph of nodes; [yaml_parser_load], given events that differ from those
      of [yaml_emitter_dump] in nothing but marks, flags that a document does not
      keep and standard tags left out, gives the graph back; and dumping documents through the
      emitter and the writer gives a text that the reader decodes.
    - C10-C12 ([YamlUtf8], [YamlBuffer], [YamlDelivery]): the decoders accept
      exactly the canonical encodings, the reader delivers exactly the text that
      its input encodes, and stays within its buffers.
    - C13, C15-C16, C40 ([AppYaml], [AppYamlSafe]): [yaml::parse] returns the
      value of nested mappings of scalars; it does not terminate on sequences
      and after errors, but never leaves its buffers whatever the octets are;
      [YAML::parse] always yields null.
    - C19-C24 ([YamlDocument], [YamlLoader], [YamlCompose]): the interface of
      documents keeps them well formed and adds exactly the node, item or pair
      it is given; the loader never trips an assertion, computes exactly a
      recursive reference definition of composition, and returns an empty
      document only at the end of the stream.
    - C25-C26, C29 ([Sha256Spec], [Sha256Total], [Sha1Spec]): the code computes
      the functions of FIPS 180-4, with their constants, however the message is
      cut into chunks; [SHA1Update] overruns its buffer on a chunk of nearly
      2^32 octets.
    - C27 ([Bit64Codec]): decoding inverts encoding, with a NUL too many
      in the strings; further, the sizes computed in single precision are right
      for short texts and wrong for long ones, and octets above 127 are read
      outside the table.
    - C30 ([YamlEventMake]), C31 ([YamlWriterSpec]): events are made with exactly
      the data given, or refused; the writer recodes most characters beyond the
      basic plane to octets that are not UTF-16.
    - C32-C35 ([LibraryStore], [LibraryTrust]): [isMatch] decides exactly
      whether a token is a signature; the context implements an abstract shelf
      of entries and keeps the table in agreement with it, as long as
      identifiers are below 10^9 and times fit their buffers; tokens form a
      chain of signatures whatever is called; what [removeLibrary] does at each
      position.
    - C36-C38 ([Database]): statements take effect once and in order, a timer
      is pending as long as the queue is not empty; a statement issued from a
      callback deadlocks.
    - C39 ([SharedData]): [calculatePath] adds a single name below its base,
      cuts one character too many for [..], and never returns when its argument
      has a separator.

    ** Fuel

    Loops of the scanner have [scan_fuel], a bound computed from the octets
    that are left; the theorems on totality show that it suffices.  The parser
    is run with eight calls per token, the scanner delivers at most eight
    tokens per octet and six more, and the client loops of C5 and C22 run
    within sixty-four calls per octet and forty-nine more.  The loops of
    SHA-256, SHA-1 and bit64 have the number of octets, or of bits, they are
    given.  The readers of [SqlRead] have the number of words that are left.
    [yaml::parse] has no bound of its own, since it may run for ever: its fuel
    is a parameter, and a body that parses does so with more fuel than events.
    The loop of [yaml_emitter_emit] has the length of its queue, the loops over
    a string the number of its octets, the recursion of the dumper one more than
    the number of nodes; C7, C8 and C28 show that these suffice.

    ** What is not modelled

    - Allocation is assumed to succeed, except where libyaml limits the size of
      a stack; freeing is not modelled.  File input and output and custom read
      handlers are left out.  The line and column of the emitter and the counts
      of the dumper are unbounded integers.
    - The theorems on the emitter are about the calls up to the first that
      fails: the object does not remember an error, and nothing is shown of
      calls behind it.
    - The round trip of scalars from the emitter to the scanner is shown for
      the double-quoted style, the one that can hold every text; for the other
      four styles it is shown that what is written can be decoded.
    - secp256k1 and sqlite3 are interfaces.  The laws for sqlite3 are about
      searching a text in a column, inserting a row and updating a row by its
      identifier; nothing is assumed of other conditions, of orders and limits.
      They hold for a database that could be opened.  The calls of [begin] and
      [end] around the statements of the queue are part of the engine.
      The migration of tables by [SQLite.cpp] and the registration of classes
      are not modelled: the theorems on tables start behind them.
    - The conversions of [gs::yaml] to numbers, the variants of [Bit64] over
      streams, [Encoder] (iconv), JSON, HTML and HTTP
      wrappers, the git repository (threads around libgit2), contexts,
      projects and collections (glue to scripts), the reflection of gcore, the
      script engines and the Dart user interface.

    This file holds what the others share: outcomes and their monad, weakest
    preconditions with rules and tactics, loops, C strings, decimal numbers. *)

From Stdlib Require Import ZArith Lia Ascii String.
From stdpp Require Import base list option strings.

#[local] Open Scope Z_scope.

(** ** Results of a C or C++ routine

    A routine that works on a mutable object of type [S] and yields an [A] is
    a function of the object.  [Ret] is a normal return; [Err] is the C
    convention of returning 0 (the object carries the reason); [Crash] is
    undefined behaviour (a NULL dereference, a read outside a buffer, a pop
    of an empty stack); [Timeout] is the exhaustion of the fuel of a loop. *)
Inductive outcome (S A : Type) : Type :=
| Ret (a : A) (s : S)
| Err (s : S)
| Crash
| Timeout.
Arguments Ret {S A} _ _.
Arguments Err {S A} _.
Arguments Crash {S A}.
Arguments Timeout {S A}.

Definition prog (S A : Type) : Type := S -> outcome S A.

#[export] Instance prog_ret {S} : MRet (prog S) := fun A a s => Ret a s.
#[export] Instance prog_bind {S} : MBind (prog S) := fun A B k m s =>
  match m s with
  | Ret a s' => k a s'
  | Err s' => Err s'
  | Crash => Crash
  | Timeout => Timeout
  end.

Lemma prog_bind_ret {S A B} (m : prog S A) (k : A -> prog S B) s a s' :
  m s = Ret a s' -> (m ≫= k) s = k a s'.
Proof. intros H. unfold mbind, prog_bind. by rewrite H. Qed.

Lemma prog_bind_timeout {S A B} (m : prog S A) (k : A -> prog S B) s :
  m s = Timeout -> (m ≫= k) s = Timeout.
Proof. intros H. unfold mbind, prog_bind. by rewrite H. Qed.

(** Run the first statement of a program, which returns by computation. *)
Ltac run_step := etransitivity; [eapply prog_bind_ret; reflexivity|]; cbv beta.

(** [return 0] with the object as it stands. *)
Definition fail {S A} : prog S A := fun s => Err s.
Definition crash {S A} : prog S A := fun _ => Crash.
Definition timeout {S A} : prog S A := fun _ => Timeout.
Definition gets {S A} (f : S -> A) : prog S A := fun s => Ret (f s) s.
Definition modify {S} (f : S -> S) : prog S unit := fun s => Ret tt (f s).

(** A caller that tests the callee's result instead of propagating the 0. *)
Definition attempt {S A} (m : prog S A) : prog S (option A) := fun s =>
  match m s with
  | Ret a s' => Ret (Some a) s'
  | Err s' => Ret None s'
  | Crash => Crash
  | Timeout => Timeout
  end.

(** The dereference of a pointer that may be NULL. *)
Definition deref {S A} (o : option A) : prog S A :=
  match o with Some a => mret a | None => crash end.

(** [while (1) body], with the loop's locals in [L]: the body ends an
    iteration with [inl] of the new locals or leaves the loop with [inr]. *)
Fixpoint loop {S L R} (fuel : nat) (body : L -> prog S (L + R)) (l : L) : prog S R :=
  match fuel with
  | O => timeout
  | Datatypes.S n =>
      r ← body l;
      match r with
      | inl l' => loop n body l'
      | inr x => mret x
      end
  end.

(** [while (cond) body] on the object alone. *)
Fixpoint while {S} (fuel : nat) (cond : prog S bool) (body : prog S unit) : prog S unit :=
  match fuel with
  | O => timeout
  | Datatypes.S n =>
      b ← cond;
      if (b : bool) then (body;; while n cond body) else mret tt
  end.

(** ** Weakest preconditions

    [wp F m Q E s]: from [s], [m] returns with [Q] or fails with [E]; it
    crashes or runs out of fuel only if [F] allows it.  [strict] allows
    neither (total correctness), [lax] both (partial correctness). *)
Record faults : Type := mkFaults { may_crash : Prop; may_timeout : Prop }.
Definition strict : faults := mkFaults False False.
Definition lax : faults := mkFaults True True.

Definition wp {S A} (F : faults) (m : prog S A) (Q : A -> S -> Prop) (E : S -> Prop) (s : S) : Prop :=
  match m s with
  | Ret a s' => Q a s'
  | Err s' => E s'
  | Crash => F.(may_crash)
  | Timeout => F.(may_timeout)
  end.

Section wp_rules.
Context {S : Type} (F : faults).
Implicit Types (s : S) (E : S -> Prop).

Lemma wp_mono {A} (m : prog S A) (Q Q' : A -> S -> Prop) E E' s :
  wp F m Q E s ->
  (forall a s', Q a s' -> Q' a s') -> (forall s', E s' -> E' s') ->
  wp F m Q' E' s.
Proof. unfold wp. destruct (m s); auto. Qed.

Lemma wp_and {A} (m : prog S A) (Q Q' : A -> S -> Prop) E s :
  wp F m Q E s -> wp F m Q' E s -> wp F m (fun a s' => Q a s' /\ Q' a s') E s.
Proof. unfold wp. destruct (m s); auto. Qed.

Lemma wp_ret {A} (a : A) (Q : A -> S -> Prop) E s : Q a s -> wp F (mret a) Q E s.
Proof. done. Qed.

Lemma wp_bind {A B} (m : prog S A) (k : A -> prog S B) Q E s :
  wp F m (fun a s' => wp F (k a) Q E s') E s -> wp F (m ≫= k) Q E s.
Proof. unfold wp, mbind, prog_bind. destruct (m s); auto. Qed.

Lemma wp_gets {A} (f : S -> A) (Q : A -> S -> Prop) E s : Q (f s) s -> wp F (gets f) Q E s.
Proof. done. Qed.

Lemma wp_modify (f : S -> S) (Q : unit -> S -> Prop) E s : Q tt (f s) -> wp F (modify f) Q E s.
Proof. done. Qed.

(** A program that is known to return. *)
Lemma wp_known {A} (m : prog S A) a s' (Q : A -> S -> Prop) E s :
  m s = Ret a s' -> Q a s' -> wp F m Q E s.
Proof. unfold wp. by intros ->. Qed.

(** What is known of a program, at the result it is known to return. *)
Lemma wp_result {A} (m : prog S A) (Q : A -> S -> Prop) E s a s' :
  wp F m Q E s -> m s = Ret a s' -> Q a s'.
Proof. unfold wp. by intros H Hm; rewrite Hm in H. Qed.

(** A program's own run, beside what is known of it. *)
Lemma wp_traced {A} (m : prog S A) (Q : A -> S -> Prop) E s :
  wp F m Q E s ->
  wp F m (fun a s' => Q a s' /\ m s = Ret a s') (fun s' => E s' /\ m s = Err s') s.
Proof. unfold wp. destruct (m s); auto. Qed.

Lemma wp_fail {A} (Q : A -> S -> Prop) E s : E s -> wp F fail Q E s.
Proof. done. Qed.

Lemma wp_attempt {A} (m : prog S A) (Q : option A -> S -> Prop) E s :
  wp F m (fun a s' => Q (Some a) s') (fun s' => Q None s') s ->
  wp F (attempt m) Q E s.
Proof. unfold wp, attempt. destruct (m s); auto. Qed.

Lemma wp_timeout {A} (Q : A -> S -> Prop) E s : F.(may_timeout) -> wp F timeout Q E s.
Proof. done. Qed.

Lemma wp_crash {A} (Q : A -> S -> Prop) E s : F.(may_crash) -> wp F crash Q E s.
Proof. done. Qed.

(** A loop keeps an invariant of its locals and of the object; unless the
    exhaustion of fuel is allowed, a variant decreases and is below the fuel. *)
Lemma wp_loop {L R} (I : L -> S -> Prop) (v : L -> S -> nat) (body : L -> prog S (L + R)) Q E fuel :
  (forall l s, I l s ->
     wp F (body l) (fun r s' =>
       match r with
       | inl l' => I l' s' /\ (F.(may_timeout) \/ (v l' s' < v l s)%nat)
       | inr x => Q x s'
       end) E s) ->
  forall l s, I l s -> F.(may_timeout) \/ (v l s < fuel)%nat -> wp F (loop fuel body l) Q E s.
Proof.
  intros Hbody. induction fuel as [|n IH]; intros l s HI Hv.
  { destruct Hv; [done|lia]. }
  cbn [loop]. apply wp_bind. eapply wp_mono; [by apply Hbody| |done].
  intros [l'|x] s' H; cbn in H; [|by apply wp_ret].
  destruct H as [H1 H2]. apply IH; [done|]. destruct Hv, H2; auto. right; lia.
Qed.

Lemma wp_while (I : S -> Prop) (v : S -> nat) cond body (Q : S -> Prop) E fuel :
  (forall s, I s ->
     wp F cond (fun b s' =>
       if (b : bool) then
         wp F body (fun _ s2 => I s2 /\ (F.(may_timeout) \/ (v s2 < v s)%nat)) E s'
       else Q s') E s) ->
  forall s, I s -> F.(may_timeout) \/ (v s < fuel)%nat ->
  wp F (while fuel cond body) (fun _ s' => Q s') E s.
Proof.
  intros Hb. induction fuel as [|n IH]; intros s HI Hv.
  { destruct Hv; [done|lia]. }
  cbn [while]. apply wp_bind. eapply wp_mono; [by apply Hb| |done].
  intros [] s' H; cbn in H; [|by apply wp_ret].
  apply wp_bind. eapply wp_mono; [done| |done]. intros ? s2 [H1 H2].
  apply IH; [done|]. destruct Hv, H2; auto. right; lia.
Qed.
End wp_rules.

(** One step of symbolic execution of a monadic program. *)
Ltac wp_step :=
  match goal with
  | |- wp _ (_ ≫= _) _ _ _ => apply wp_bind
  | |- wp _ (mret _) _ _ _ => apply wp_ret
  | |- wp _ (gets _) _ _ _ => apply wp_gets
  | |- wp _ (modify _) _ _ _ => apply wp_modify
  | |- wp _ fail _ _ _ => apply wp_fail
  | |- wp _ (attempt _) _ _ _ => apply wp_attempt
  end.
Ltac wp_steps := repeat (wp_step; cbv beta).

(** ** Characters and C strings *)

(** The octet of a character literal. *)
Definition ch (c : ascii) : Z := Z.of_N (N_of_ascii c).

(** The octets of a string literal. *)
Definition bytes_of (s : string) : list Z := map ch (String.list_ascii_of_string s).

(** What [strlen], [strcmp] see of a buffer: the octets before the first NUL. *)
Fixpoint cstr (l : list Z) : list Z :=
  match l with
  | [] => []
  | b :: r => if b =? 0 then [] else b :: cstr r
  end.

Definition strcmp_eq (a b : list Z) : bool := bool_decide (cstr a = cstr b).

(** The value of [(int)n] for a 64-bit [n] on a two's complement machine. *)
Definition int_of_size (n : Z) : Z := (n + 2^31) mod 2^32 - 2^31.

Definition INT_MAX : Z := 2147483647.

Lemma int_of_size_small n : 0 <= n <= INT_MAX -> int_of_size n = n.
Proof. unfold int_of_size, INT_MAX. intros. rewrite Z.mod_small; lia. Qed.

Lemma cstr_idem l : cstr (cstr l) = cstr l.
Proof. induction l as [|b l IH]; [done|]. cbn. destruct (b =? 0) eqn:E; [done|]. cbn. by rewrite E, IH. Qed.

Lemma cstr_no_nul l : Forall (fun b => b <> 0) l -> cstr l = l.
Proof. induction 1 as [|b l Hb _ IH]; cbn; [done|]. apply Z.eqb_neq in Hb. by rewrite Hb, IH. Qed.

(** ** Decimal numbers *)

(** The decimal digits of a number that is not negative. *)
Fixpoint decimal (fuel : nat) (n : Z) : list Z :=
  match fuel with
  | O => []
  | S f => if n <? 10 then [48 + n] else decimal f (n / 10) ++ [48 + n mod 10]
  end.

Definition digits_value (l : list Z) : Z := foldl (fun a c => 10 * a + (c - 48)) 0 l.

Lemma decimal_spec fuel : forall n, 0 <= n < 10 ^ Z.of_nat fuel ->
  digits_value (decimal fuel n) = n /\ Forall (fun c => 48 <= c <= 57) (decimal fuel n).
Proof.
  induction fuel as [|f IH]; intros n Hn.
  { change (10 ^ Z.of_nat 0) with 1 in Hn. split; [cbn; lia|constructor]. }
  cbn [decimal]. rewrite Nat2Z.inj_succ, Z.pow_succ_r in Hn by lia.
  destruct (n <? 10) eqn:E.
  - split; [cbn; lia|]. apply Forall_singleton. lia.
  - destruct (IH (n / 10)) as [H1 H2]; [split; [apply Z.div_pos; lia|apply Z.div_lt_upper_bound; lia]|]. split.
    + unfold digits_value in *. rewrite foldl_app, H1. cbn [foldl]. pose proof (Z.div_mod n 10). lia.
    + apply Forall_app. split; [done|]. apply Forall_singleton. pose proof (Z.mod_pos_bound n 10). lia.
Qed.

(** A number has no more decimal digits than binary ones. *)
Lemma log2_fuel n : 0 <= n -> n < 10 ^ Z.of_nat (S (Z.to_nat (Z.log2 n))).
Proof.
  intros Hn. destruct (decide (n = 0)) as [->|]; [done|].
  pose proof (Z.log2_spec n ltac:(lia)) as [_ Hl]. pose proof (Z.log2_nonneg n).
  replace (Z.of_nat (S (Z.to_nat (Z.log2 n)))) with (Z.succ (Z.log2 n)) by lia.
  eapply Z.lt_le_trans; [exact Hl|]. apply Z.pow_le_mono_l. lia.
Qed.

(** The number of digits tells the size of the number. *)
Lemma decimal_length fuel : forall n k, 0 <= n < 10 ^ Z.of_nat fuel -> (0 < k)%nat ->
  (length (decimal fuel n) <= k)%nat <-> n < 10 ^ Z.of_nat k.
Proof.
  induction fuel as [|f IH]; intros n k Hn Hk.
  { change (10 ^ Z.of_nat 0) with 1 in Hn. cbn. split; [intros _|lia].
    pose proof (Z.pow_pos_nonneg 10 (Z.of_nat k)). lia. }
  cbn [decimal]. destruct k as [|k]; [lia|].
  rewrite Nat2Z.inj_succ, Z.pow_succ_r in * by lia.
  pose proof (Z.pow_pos_nonneg 10 (Z.of_nat k)). destruct (n <? 10) eqn:E.
  { cbn. split; [nia|lia]. }
  assert (0 <= n / 10 < 10 ^ Z.of_nat f) as Hd
    by (split; [apply Z.div_pos; lia|apply Z.div_lt_upper_bound; lia]).
  rewrite length_app. cbn [length]. pose proof (Z.div_mod n 10 ltac:(lia)). pose proof (Z.mod_pos_bound n 10 ltac:(lia)).
  destruct k as [|k].
  - split; [|cbn; lia]. destruct (decimal f (n / 10)) as [|x l] eqn:Ed; [|cbn; lia].
    destruct f; [|cbn [decimal] in Ed; destruct (n / 10 <? 10); [done|by apply app_eq_nil in Ed as [_ ?]]].
    change (10 ^ Z.of_nat 0) with 1 in Hd. lia.
  - specialize (IH _ (S k) Hd). rewrite <- (Nat.add_1_r (S k)), <- Nat.add_le_mono_r, IH by lia.
    generalize dependent (10 ^ Z.of_nat (S k)). intros. lia.
Qed.
