(* ===== verification/YamlData.v ===== *)
(** * libyaml: data types of [yaml.h] and the parser object

    The public enumerations and structures of
    [thirdparties/libyaml/include/yaml.h], the object [yaml_parser_t] with the
    grouping of its declaration (error handling, reader, scanner, parser), and
    the stack and queue macros of [yaml_private.h].

    Buffers, stacks and queues are lists: of a buffer the octets from
    [pointer] to [last], of a queue the tokens from [head] to [tail], of a
    stack the elements from the top down, with its capacity.  Allocation is
    assumed to succeed; the limit that [yaml_stack_extend] itself sets on the
    size of a stack is kept. *)

From Stdlib Require Import ZArith Lia Ascii String.
From stdpp Require Import base list option strings.
From S2P Require Import Prelude.

#[local] Open Scope Z_scope.

(** ** Basic types *)

Inductive yaml_encoding_t : Type :=
| YAML_ANY_ENCODING
| YAML_UTF8_ENCODING
| YAML_UTF16LE_ENCODING
| YAML_UTF16BE_ENCODING.

Inductive yaml_error_type_t : Type :=
| YAML_NO_ERROR
| YAML_MEMORY_ERROR
| YAML_READER_ERROR
| YAML_SCANNER_ERROR
| YAML_PARSER_ERROR
| YAML_COMPOSER_ERROR
| YAML_WRITER_ERROR
| YAML_EMITTER_ERROR.

#[export] Instance yaml_encoding_eq_dec : EqDecision yaml_encoding_t.
Proof. solve_decision. Defined.
#[export] Instance yaml_error_eq_dec : EqDecision yaml_error_type_t.
Proof. solve_decision. Defined.

Record yaml_mark_t : Type := mkMark { index : Z; line : Z; column : Z }.

Definition mark0 : yaml_mark_t := mkMark 0 0 0.

Inductive yaml_scalar_style_t : Type :=
| YAML_ANY_SCALAR_STYLE
| YAML_PLAIN_SCALAR_STYLE
| YAML_SINGLE_QUOTED_SCALAR_STYLE
| YAML_DOUBLE_QUOTED_SCALAR_STYLE
| YAML_LITERAL_SCALAR_STYLE
| YAML_FOLDED_SCALAR_STYLE.

Inductive yaml_sequence_style_t : Type :=
| YAML_ANY_SEQUENCE_STYLE
| YAML_BLOCK_SEQUENCE_STYLE
| YAML_FLOW_SEQUENCE_STYLE.

Inductive yaml_mapping_style_t : Type :=
| YAML_ANY_MAPPING_STYLE
| YAML_BLOCK_MAPPING_STYLE
| YAML_FLOW_MAPPING_STYLE.

Record yaml_version_directive_t : Type := mkVersion { major : Z; minor : Z }.
Record yaml_tag_directive_t : Type := mkTagDirective {
  td_handle : list Z;
  td_prefix : list Z
}.

(** ** Tokens: the type tag together with the member of the union it selects *)

Inductive yaml_token_data : Type :=
| YAML_NO_TOKEN
| YAML_STREAM_START_TOKEN (encoding : yaml_encoding_t)
| YAML_STREAM_END_TOKEN
| YAML_VERSION_DIRECTIVE_TOKEN (major minor : Z)
| YAML_TAG_DIRECTIVE_TOKEN (handle prefix : list Z)
| YAML_DOCUMENT_START_TOKEN
| YAML_DOCUMENT_END_TOKEN
| YAML_BLOCK_SEQUENCE_START_TOKEN
| YAML_BLOCK_MAPPING_START_TOKEN
| YAML_BLOCK_END_TOKEN
| YAML_FLOW_SEQUENCE_START_TOKEN
| YAML_FLOW_SEQUENCE_END_TOKEN
| YAML_FLOW_MAPPING_START_TOKEN
| YAML_FLOW_MAPPING_END_TOKEN
| YAML_BLOCK_ENTRY_TOKEN
| YAML_FLOW_ENTRY_TOKEN
| YAML_KEY_TOKEN
| YAML_VALUE_TOKEN
| YAML_ALIAS_TOKEN (value : list Z)
| YAML_ANCHOR_TOKEN (value : list Z)
| YAML_TAG_TOKEN (handle suffix : list Z)
| YAML_SCALAR_TOKEN (value : list Z) (length : Z) (style : yaml_scalar_style_t).

Record yaml_token_t : Type := TOKEN_INIT {
  token_data : yaml_token_data;
  start_mark : yaml_mark_t;
  end_mark : yaml_mark_t
}.

(** ** Events *)

Inductive yaml_event_data : Type :=
| YAML_NO_EVENT
| YAML_STREAM_START_EVENT (encoding : yaml_encoding_t)
| YAML_STREAM_END_EVENT
| YAML_DOCUMENT_START_EVENT (version_directive : option yaml_version_directive_t)
    (tag_directives : list yaml_tag_directive_t) (implicit : bool)
| YAML_DOCUMENT_END_EVENT (implicit : bool)
| YAML_ALIAS_EVENT (anchor : list Z)
| YAML_SCALAR_EVENT (anchor tag : option (list Z)) (value : list Z) (length : Z)
    (plain_implicit quoted_implicit : bool) (style : yaml_scalar_style_t)
| YAML_SEQUENCE_START_EVENT (anchor tag : option (list Z)) (implicit : bool)
    (style : yaml_sequence_style_t)
| YAML_SEQUENCE_END_EVENT
| YAML_MAPPING_START_EVENT (anchor tag : option (list Z)) (implicit : bool)
    (style : yaml_mapping_style_t)
| YAML_MAPPING_END_EVENT.

Record yaml_event_t : Type := EVENT_INIT {
  event_data : yaml_event_data;
  event_start_mark : yaml_mark_t;
  event_end_mark : yaml_mark_t
}.

(** The event after [memset(event, 0, sizeof(yaml_event_t))]. *)
Definition no_event : yaml_event_t := EVENT_INIT YAML_NO_EVENT mark0 mark0.

(** ** Parser object *)

Record yaml_simple_key_t : Type := mkSimpleKey {
  possible : bool;
  required : bool;
  token_number : Z;
  key_mark : yaml_mark_t
}.

Inductive yaml_parser_state_t : Type :=
| YAML_PARSE_STREAM_START_STATE
| YAML_PARSE_IMPLICIT_DOCUMENT_START_STATE
| YAML_PARSE_DOCUMENT_START_STATE
| YAML_PARSE_DOCUMENT_CONTENT_STATE
| YAML_PARSE_DOCUMENT_END_STATE
| YAML_PARSE_BLOCK_NODE_STATE
| YAML_PARSE_BLOCK_NODE_OR_INDENTLESS_SEQUENCE_STATE
| YAML_PARSE_FLOW_NODE_STATE
| YAML_PARSE_BLOCK_SEQUENCE_FIRST_ENTRY_STATE
| YAML_PARSE_BLOCK_SEQUENCE_ENTRY_STATE
| YAML_PARSE_INDENTLESS_SEQUENCE_ENTRY_STATE
| YAML_PARSE_BLOCK_MAPPING_FIRST_KEY_STATE
| YAML_PARSE_BLOCK_MAPPING_KEY_STATE
| YAML_PARSE_BLOCK_MAPPING_VALUE_STATE
| YAML_PARSE_FLOW_SEQUENCE_FIRST_ENTRY_STATE
| YAML_PARSE_FLOW_SEQUENCE_ENTRY_STATE
| YAML_PARSE_FLOW_SEQUENCE_ENTRY_MAPPING_KEY_STATE
| YAML_PARSE_FLOW_SEQUENCE_ENTRY_MAPPING_VALUE_STATE
| YAML_PARSE_FLOW_SEQUENCE_ENTRY_MAPPING_END_STATE
| YAML_PARSE_FLOW_MAPPING_FIRST_KEY_STATE
| YAML_PARSE_FLOW_MAPPING_KEY_STATE
| YAML_PARSE_FLOW_MAPPING_VALUE_STATE
| YAML_PARSE_FLOW_MAPPING_EMPTY_VALUE_STATE
| YAML_PARSE_END_STATE.

#[export] Instance yaml_parser_state_eq_dec : EqDecision yaml_parser_state_t.
Proof. solve_decision. Defined.

(** A stack: [items] from the top down, and the number of elements the
    allocated block holds ([end - start]). *)
Record stack (A : Type) : Type := mkStack { items : list A; capacity : Z }.
Arguments mkStack {A} _ _.
Arguments items {A} _.
Arguments capacity {A} _.

Record yaml_error_state : Type := mkError {
  error : yaml_error_type_t;
  problem : option string;
  problem_offset : Z;
  problem_value : Z;
  problem_mark : yaml_mark_t;
  context : option string;
  context_mark : yaml_mark_t
}.

Record yaml_reader : Type := mkReader {
  input : list Z;
  eof : bool;
  buffer : list Z;
  unread : Z;
  raw_buffer : list Z;
  encoding : yaml_encoding_t;
  offset : Z;
  mark : yaml_mark_t
}.

Record yaml_scanner : Type := mkScanner {
  stream_start_produced : bool;
  stream_end_produced : bool;
  flow_level : Z;
  tokens : list yaml_token_t;
  tokens_parsed : Z;
  token_available : bool;
  indents : stack Z;
  indent : Z;
  simple_key_allowed : bool;
  simple_keys : stack yaml_simple_key_t
}.

Record yaml_parsing : Type := mkParsing {
  states : stack yaml_parser_state_t;
  state : yaml_parser_state_t;
  marks : stack yaml_mark_t;
  tag_directives : stack yaml_tag_directive_t
}.

Record yaml_parser_t : Type := mkParser {
  err : yaml_error_state;
  reader : yaml_reader;
  scanner : yaml_scanner;
  parsing : yaml_parsing
}.

(** Routines of libyaml that take the parser object. *)
Definition yaml_prog (A : Type) : Type := prog yaml_parser_t A.

(** ** Assignments to the fields of the object *)

Definition set_err (x : yaml_error_state) (p : yaml_parser_t) : yaml_parser_t :=
  mkParser x p.(reader) p.(scanner) p.(parsing).
Definition set_reader (x : yaml_reader) (p : yaml_parser_t) : yaml_parser_t :=
  mkParser p.(err) x p.(scanner) p.(parsing).
Definition set_scanner (x : yaml_scanner) (p : yaml_parser_t) : yaml_parser_t :=
  mkParser p.(err) p.(reader) x p.(parsing).
Definition set_parsing (x : yaml_parsing) (p : yaml_parser_t) : yaml_parser_t :=
  mkParser p.(err) p.(reader) p.(scanner) x.

Definition set_error v (p : yaml_parser_t) : yaml_parser_t :=
  let r := p.(err) in set_err (mkError
    v r.(problem) r.(problem_offset) r.(problem_value) r.(problem_mark) r.(context)
    r.(context_mark)) p.
Definition set_problem v (p : yaml_parser_t) : yaml_parser_t :=
  let r := p.(err) in set_err (mkError
    r.(error) v r.(problem_offset) r.(problem_value) r.(problem_mark) r.(context)
    r.(context_mark)) p.
Definition set_problem_offset v (p : yaml_parser_t) : yaml_parser_t :=
  let r := p.(err) in set_err (mkError
    r.(error) r.(problem) v r.(problem_value) r.(problem_mark) r.(context) r.(context_mark)) p.
Definition set_problem_value v (p : yaml_parser_t) : yaml_parser_t :=
  let r := p.(err) in set_err (mkError
    r.(error) r.(problem) r.(problem_offset) v r.(problem_mark) r.(context) r.(context_mark)) p.
Definition set_problem_mark v (p : yaml_parser_t) : yaml_parser_t :=
  let r := p.(err) in set_err (mkError
    r.(error) r.(problem) r.(problem_offset) r.(problem_value) v r.(context)
    r.(context_mark)) p.
Definition set_context v (p : yaml_parser_t) : yaml_parser_t :=
  let r := p.(err) in set_err (mkError
    r.(error) r.(problem) r.(problem_offset) r.(problem_value) r.(problem_mark) v
    r.(context_mark)) p.
Definition set_context_mark v (p : yaml_parser_t) : yaml_parser_t :=
  let r := p.(err) in set_err (mkError
    r.(error) r.(problem) r.(problem_offset) r.(problem_value) r.(problem_mark) r.(context)
    v) p.

Definition set_input v (p : yaml_parser_t) : yaml_parser_t :=
  let r := p.(reader) in set_reader (mkReader
    v r.(eof) r.(buffer) r.(unread) r.(raw_buffer) r.(encoding) r.(offset) r.(mark)) p.
Definition set_eof v (p : yaml_parser_t) : yaml_parser_t :=
  let r := p.(reader) in set_reader (mkReader
    r.(input) v r.(buffer) r.(unread) r.(raw_buffer) r.(encoding) r.(offset) r.(mark)) p.
Definition set_buffer v (p : yaml_parser_t) : yaml_parser_t :=
  let r := p.(reader) in set_reader (mkReader
    r.(input) r.(eof) v r.(unread) r.(raw_buffer) r.(encoding) r.(offset) r.(mark)) p.
Definition set_unread v (p : yaml_parser_t) : yaml_parser_t :=
  let r := p.(reader) in set_reader (mkReader
    r.(input) r.(eof) r.(buffer) v r.(raw_buffer) r.(encoding) r.(offset) r.(mark)) p.
Definition set_raw_buffer v (p : yaml_parser_t) : yaml_parser_t :=
  let r := p.(reader) in set_reader (mkReader
    r.(input) r.(eof) r.(buffer) r.(unread) v r.(encoding) r.(offset) r.(mark)) p.
Definition set_encoding v (p : yaml_parser_t) : yaml_parser_t :=
  let r := p.(reader) in set_reader (mkReader
    r.(input) r.(eof) r.(buffer) r.(unread) r.(raw_buffer) v r.(offset) r.(mark)) p.
Definition set_offset v (p : yaml_parser_t) : yaml_parser_t :=
  let r := p.(reader) in set_reader (mkReader
    r.(input) r.(eof) r.(buffer) r.(unread) r.(raw_buffer) r.(encoding) v r.(mark)) p.
Definition set_mark v (p : yaml_parser_t) : yaml_parser_t :=
  let r := p.(reader) in set_reader (mkReader
    r.(input) r.(eof) r.(buffer) r.(unread) r.(raw_buffer) r.(encoding) r.(offset) v) p.

Definition set_stream_start_produced v (p : yaml_parser_t) : yaml_parser_t :=
  let r := p.(scanner) in set_scanner (mkScanner
    v r.(stream_end_produced) r.(flow_level) r.(tokens) r.(tokens_parsed)
    r.(token_available) r.(indents) r.(indent) r.(simple_key_allowed) r.(simple_keys)) p.
Definition set_stream_end_produced v (p : yaml_parser_t) : yaml_parser_t :=
  let r := p.(scanner) in set_scanner (mkScanner
    r.(stream_start_produced) v r.(flow_level) r.(tokens) r.(tokens_parsed)
    r.(token_available) r.(indents) r.(indent) r.(simple_key_allowed) r.(simple_keys)) p.
Definition set_flow_level v (p : yaml_parser_t) : yaml_parser_t :=
  let r := p.(scanner) in set_scanner (mkScanner
    r.(stream_start_produced) r.(stream_end_produced) v r.(tokens) r.(tokens_parsed)
    r.(token_available) r.(indents) r.(indent) r.(simple_key_allowed) r.(simple_keys)) p.
Definition set_tokens v (p : yaml_parser_t) : yaml_parser_t :=
  let r := p.(scanner) in set_scanner (mkScanner
    r.(stream_start_produced) r.(stream_end_produced) r.(flow_level) v r.(tokens_parsed)
    r.(token_available) r.(indents) r.(indent) r.(simple_key_allowed) r.(simple_keys)) p.
Definition set_tokens_parsed v (p : yaml_parser_t) : yaml_parser_t :=
  let r := p.(scanner) in set_scanner (mkScanner
    r.(stream_start_produced) r.(stream_end_produced) r.(flow_level) r.(tokens) v
    r.(token_available) r.(indents) r.(indent) r.(simple_key_allowed) r.(simple_keys)) p.
Definition set_token_available v (p : yaml_parser_t) : yaml_parser_t :=
  let r := p.(scanner) in set_scanner (mkScanner
    r.(stream_start_produced) r.(stream_end_produced) r.(flow_level) r.(tokens)
    r.(tokens_parsed) v r.(indents) r.(indent) r.(simple_key_allowed) r.(simple_keys)) p.
Definition set_indents v (p : yaml_parser_t) : yaml_parser_t :=
  let r := p.(scanner) in set_scanner (mkScanner
    r.(stream_start_produced) r.(stream_end_produced) r.(flow_level) r.(tokens)
    r.(tokens_parsed) r.(token_available) v r.(indent) r.(simple_key_allowed)
    r.(simple_keys)) p.
Definition set_indent v (p : yaml_parser_t) : yaml_parser_t :=
  let r := p.(scanner) in set_scanner (mkScanner
    r.(stream_start_produced) r.(stream_end_produced) r.(flow_level) r.(tokens)
    r.(tokens_parsed) r.(token_available) r.(indents) v r.(simple_key_allowed)
    r.(simple_keys)) p.
Definition set_simple_key_allowed v (p : yaml_parser_t) : yaml_parser_t :=
  let r := p.(scanner) in set_scanner (mkScanner
    r.(stream_start_produced) r.(stream_end_produced) r.(flow_level) r.(tokens)
    r.(tokens_parsed) r.(token_available) r.(indents) r.(indent) v r.(simple_keys)) p.
Definition set_simple_keys v (p : yaml_parser_t) : yaml_parser_t :=
  let r := p.(scanner) in set_scanner (mkScanner
    r.(stream_start_produced) r.(stream_end_produced) r.(flow_level) r.(tokens)
    r.(tokens_parsed) r.(token_available) r.(indents) r.(indent) r.(simple_key_allowed) v) p.

Definition set_states v (p : yaml_parser_t) : yaml_parser_t :=
  let r := p.(parsing) in set_parsing (mkParsing v r.(state) r.(marks) r.(tag_directives)) p.
Definition set_state v (p : yaml_parser_t) : yaml_parser_t :=
  let r := p.(parsing) in set_parsing (mkParsing r.(states) v r.(marks) r.(tag_directives)) p.
Definition set_marks v (p : yaml_parser_t) : yaml_parser_t :=
  let r := p.(parsing) in set_parsing (mkParsing r.(states) r.(state) v r.(tag_directives)) p.
Definition set_tag_directives v (p : yaml_parser_t) : yaml_parser_t :=
  let r := p.(parsing) in set_parsing (mkParsing r.(states) r.(state) r.(marks) v) p.
(** ** Stack and queue macros of [yaml_private.h]

    [yaml_stack_extend] refuses to double a block of [INT_MAX / 2] bytes or
    more; the sizes are those of an LP64 target. *)

Definition INITIAL_STACK_SIZE : Z := 16.

Definition STACK_INIT {A} : stack A := mkStack [] INITIAL_STACK_SIZE.

Definition yaml_stack_extend (bytes : Z) : option Z :=
  if bytes >=? INT_MAX / 2 then None else Some (bytes * 2).

(** [PUSH]: the new stack, or [None] when the block cannot grow. *)
Definition stack_push {A} (sizeof : Z) (s : stack A) (v : A) : option (stack A) :=
  if Z.of_nat (length s.(items)) =? s.(capacity) then
    match yaml_stack_extend (s.(capacity) * sizeof) with
    | Some bytes => Some (mkStack (v :: s.(items)) (bytes / sizeof))
    | None => None
    end
  else Some (mkStack (v :: s.(items)) s.(capacity)).

Definition sizeof_state : Z := 4.
Definition sizeof_mark : Z := 24.
Definition sizeof_indent : Z := 4.
Definition sizeof_simple_key : Z := 40.
Definition sizeof_tag_directive : Z := 16.

(** The error of a failed allocation: [error] only. *)
Definition memory_error {A} : yaml_prog A :=
  modify (set_error YAML_MEMORY_ERROR);; fail.

Section stack_ops.
Context {A : Type} (sizeof : Z) (get : yaml_parser_t -> stack A)
  (set : stack A -> yaml_parser_t -> yaml_parser_t).

Definition PUSH (v : A) : yaml_prog unit :=
  s ← gets get;
  match stack_push sizeof s v with
  | Some s' => modify (set s')
  | None => memory_error
  end.

(** [POP] of an empty stack reads in front of the block. *)
Definition POP : yaml_prog A :=
  s ← gets get;
  match s.(items) with
  | x :: r => modify (set (mkStack r s.(capacity)));; mret x
  | [] => crash
  end.
End stack_ops.

Definition push_state := PUSH sizeof_state (fun p => p.(parsing).(states)) set_states.
Definition pop_state := POP (fun p => p.(parsing).(states)) set_states.
Definition push_mark := PUSH sizeof_mark (fun p => p.(parsing).(marks)) set_marks.
Definition pop_mark := POP (fun p => p.(parsing).(marks)) set_marks.
Definition push_tag_directive :=
  PUSH sizeof_tag_directive (fun p => p.(parsing).(tag_directives)) set_tag_directives.
Definition push_indent := PUSH sizeof_indent (fun p => p.(scanner).(indents)) set_indents.
Definition pop_indent := POP (fun p => p.(scanner).(indents)) set_indents.
Definition push_simple_key :=
  PUSH sizeof_simple_key (fun p => p.(scanner).(simple_keys)) set_simple_keys.
Definition pop_simple_key := POP (fun p => p.(scanner).(simple_keys)) set_simple_keys.

Definition ENQUEUE (t : yaml_token_t) : yaml_prog unit :=
  modify (fun p => set_tokens (p.(scanner).(tokens) ++ [t]) p).

(** [QUEUE_INSERT] moves the tail of the queue up from [head + index]; an
    index outside the queue makes [memmove] run out of its block. *)
Definition QUEUE_INSERT (i : Z) (t : yaml_token_t) : yaml_prog unit :=
  q ← gets (fun p => p.(scanner).(tokens));
  if (0 <=? i) && (i <=? Z.of_nat (length q)) then
    modify (set_tokens (take (Z.to_nat i) q ++ t :: drop (Z.to_nat i) q))
  else crash.

(** [SKIP_TOKEN] of [parser.c]. *)
Definition SKIP_TOKEN : yaml_prog unit :=
  q ← gets (fun p => p.(scanner).(tokens));
  match q with
  | [] => crash
  | t :: r =>
      modify (set_token_available false);;
      modify (fun p => set_tokens_parsed (p.(scanner).(tokens_parsed) + 1) p);;
      modify (set_stream_end_produced
        (match t.(token_data) with YAML_STREAM_END_TOKEN => true | _ => false end));;
      modify (set_tokens r)
  end.

(** ** Initialisation ([api.c]) *)

(** [yaml_parser_initialize] followed by [yaml_parser_set_input_string]. *)
Definition yaml_parser_initialize (bytes : list Z) : yaml_parser_t :=
  mkParser
    (mkError YAML_NO_ERROR None 0 0 mark0 None mark0)
    (mkReader bytes false [] 0 [] YAML_ANY_ENCODING 0 mark0)
    (mkScanner false false 0 [] 0 false STACK_INIT 0 false STACK_INIT)
    (mkParsing STACK_INIT YAML_PARSE_STREAM_START_STATE STACK_INIT STACK_INIT).
