(* ===== verification/YamlReader.v ===== *)
(** * libyaml: the reader ([reader.c])

    Decoding of the raw input (UTF-8, UTF-16LE, UTF-16BE, chosen by the byte
    order mark) into the UTF-8 working buffer the scanner looks at. *)

From Stdlib Require Import ZArith Lia Ascii String.
From stdpp Require Import base list option strings.
From S2P Require Import Prelude YamlData.

#[local] Open Scope Z_scope.

(** ** Definitions *)

Definition INPUT_RAW_BUFFER_SIZE : Z := 16384.
Definition INPUT_BUFFER_SIZE : Z := INPUT_RAW_BUFFER_SIZE * 3.
Definition MAX_FILE_SIZE : Z := (2^64 - 1) / 2.

Definition yaml_parser_set_reader_error {A} (msg : string) (off value : Z) : yaml_prog A :=
  modify (set_error YAML_READER_ERROR);;
  modify (set_problem (Some msg));;
  modify (set_problem_offset off);;
  modify (set_problem_value value);;
  fail.

(** The handler of [yaml_parser_set_input_string]: the octets copied out. *)
Definition yaml_string_read_handler (size : Z) : yaml_prog (list Z) :=
  inp ← gets (fun p => p.(reader).(input));
  match inp with
  | [] => mret []
  | _ :: _ =>
      let size := if size >? Z.of_nat (length inp) then Z.of_nat (length inp) else size in
      modify (set_input (drop (Z.to_nat size) inp));;
      mret (take (Z.to_nat size) inp)
  end.

Definition yaml_parser_update_raw_buffer : yaml_prog unit :=
  raw ← gets (fun p => p.(reader).(raw_buffer));
  if Z.of_nat (length raw) =? INPUT_RAW_BUFFER_SIZE then mret tt
  else
    at_eof ← gets (fun p => p.(reader).(eof));
    if (at_eof : bool) then mret tt
    else
      off ← gets (fun p => p.(reader).(offset));
      r ← attempt (yaml_string_read_handler (INPUT_RAW_BUFFER_SIZE - Z.of_nat (length raw)));
      match r with
      | None => yaml_parser_set_reader_error "input error" off (-1)
      | Some bytes =>
          modify (set_raw_buffer (raw ++ bytes));;
          match bytes with
          | [] => modify (set_eof true)
          | _ :: _ => mret tt
          end
      end.

Definition BOM_UTF8 : list Z := [239; 187; 191].
Definition BOM_UTF16LE : list Z := [255; 254].
Definition BOM_UTF16BE : list Z := [254; 255].

(** [memcmp(raw_buffer.pointer, bom, n) == 0] with [n] octets at hand. *)
Definition starts_with (bom l : list Z) : bool := bool_decide (take (length bom) l = bom).

Definition skip_raw (n : Z) : yaml_prog unit :=
  modify (fun p => set_raw_buffer (drop (Z.to_nat n) p.(reader).(raw_buffer)) p);;
  modify (fun p => set_offset (p.(reader).(offset) + n) p).

Definition yaml_parser_determine_encoding : yaml_prog unit :=
  while 5
    (gets (fun p => negb p.(reader).(eof) && (Z.of_nat (length p.(reader).(raw_buffer)) <? 3)))
    yaml_parser_update_raw_buffer;;
  raw ← gets (fun p => p.(reader).(raw_buffer));
  if starts_with BOM_UTF16LE raw then
    modify (set_encoding YAML_UTF16LE_ENCODING);; skip_raw 2
  else if starts_with BOM_UTF16BE raw then
    modify (set_encoding YAML_UTF16BE_ENCODING);; skip_raw 2
  else if starts_with BOM_UTF8 raw then
    modify (set_encoding YAML_UTF8_ENCODING);; skip_raw 3
  else modify (set_encoding YAML_UTF8_ENCODING).

(** The length of the UTF-8 sequence a leading octet announces, 0 for none. *)
Definition utf8_width (octet : Z) : Z :=
  if Z.land octet 0x80 =? 0x00 then 1
  else if Z.land octet 0xE0 =? 0xC0 then 2
  else if Z.land octet 0xF0 =? 0xE0 then 3
  else if Z.land octet 0xF8 =? 0xF0 then 4
  else 0.

Definition utf8_lead (octet : Z) : Z :=
  if Z.land octet 0x80 =? 0x00 then Z.land octet 0x7F
  else if Z.land octet 0xE0 =? 0xC0 then Z.land octet 0x1F
  else if Z.land octet 0xF0 =? 0xE0 then Z.land octet 0x0F
  else if Z.land octet 0xF8 =? 0xF0 then Z.land octet 0x07
  else 0.

(** [for (k = 1; k < width; k++)]: the trailing octets, from [rest] on. *)
Fixpoint utf8_trail (n : nat) (k : Z) (rest : list Z) (value : Z) : yaml_prog Z :=
  match n with
  | O => mret value
  | S n' =>
      match rest with
      | [] => crash
      | octet :: rest' =>
          if negb (Z.land octet 0xC0 =? 0x80) then
            off ← gets (fun p => p.(reader).(offset));
            yaml_parser_set_reader_error "invalid trailing UTF-8 octet" (off + k) octet
          else utf8_trail n' (k + 1) rest' (Z.shiftl value 6 + Z.land octet 0x3F)
      end
  end.

(** One character of UTF-8 input: its value and width, or [None] when the raw
    buffer holds only a part of it. *)
Definition decode_utf8 : yaml_prog (option (Z * Z)) :=
  raw ← gets (fun p => p.(reader).(raw_buffer));
  off ← gets (fun p => p.(reader).(offset));
  at_eof ← gets (fun p => p.(reader).(eof));
  match raw with
  | [] => crash
  | octet :: rest =>
      let width := utf8_width octet in
      if width =? 0 then
        yaml_parser_set_reader_error "invalid leading UTF-8 octet" off octet
      else if width >? Z.of_nat (length raw) then
        if (at_eof : bool) then
          yaml_parser_set_reader_error "incomplete UTF-8 octet sequence" off (-1)
        else mret None
      else
        value ← utf8_trail (Z.to_nat (width - 1)) 1 rest (utf8_lead octet);
        if negb ((width =? 1) || ((width =? 2) && (value >=? 0x80))
                 || ((width =? 3) && (value >=? 0x800))
                 || ((width =? 4) && (value >=? 0x10000))) then
          yaml_parser_set_reader_error "invalid length of a UTF-8 sequence" off (-1)
        else if ((value >=? 0xD800) && (value <=? 0xDFFF)) || (value >? 0x10FFFF) then
          yaml_parser_set_reader_error "invalid Unicode character" off value
        else mret (Some (value, width))
  end.

(** One character of UTF-16 input; [low] and [high] index the octets of a
    16-bit unit. *)
Definition decode_utf16 (little : bool) : yaml_prog (option (Z * Z)) :=
  raw ← gets (fun p => p.(reader).(raw_buffer));
  off ← gets (fun p => p.(reader).(offset));
  at_eof ← gets (fun p => p.(reader).(eof));
  let low := (if little then 0 else 1)%nat in
  let high := (if little then 1 else 0)%nat in
  let raw_unread := Z.of_nat (length raw) in
  if raw_unread <? 2 then
    if (at_eof : bool) then yaml_parser_set_reader_error "incomplete UTF-16 character" off (-1)
    else mret None
  else
    let value := nth low raw 0 + Z.shiftl (nth high raw 0) 8 in
    if Z.land value 0xFC00 =? 0xDC00 then
      yaml_parser_set_reader_error "unexpected low surrogate area" off value
    else if Z.land value 0xFC00 =? 0xD800 then
      if raw_unread <? 4 then
        if (at_eof : bool) then
          yaml_parser_set_reader_error "incomplete UTF-16 surrogate pair" off (-1)
        else mret None
      else
        let value2 := nth (low + 2) raw 0 + Z.shiftl (nth (high + 2) raw 0) 8 in
        if negb (Z.land value2 0xFC00 =? 0xDC00) then
          yaml_parser_set_reader_error "expected low surrogate area" (off + 2) value2
        else
          mret (Some (0x10000 + Z.shiftl (Z.land value 0x3FF) 10 + Z.land value2 0x3FF, 4))
    else mret (Some (value, 2)).

Definition decode_char : yaml_prog (option (Z * Z)) :=
  enc ← gets (fun p => p.(reader).(encoding));
  match enc with
  | YAML_UTF16LE_ENCODING => decode_utf16 true
  | YAML_UTF16BE_ENCODING => decode_utf16 false
  | YAML_UTF8_ENCODING => decode_utf8
  | YAML_ANY_ENCODING => crash
  end.

(** The characters a YAML stream may contain. *)
Definition allowed_char (value : Z) : bool :=
  (value =? 0x09) || (value =? 0x0A) || (value =? 0x0D)
  || ((value >=? 0x20) && (value <=? 0x7E))
  || (value =? 0x85) || ((value >=? 0xA0) && (value <=? 0xD7FF))
  || ((value >=? 0xE000) && (value <=? 0xFFFD))
  || ((value >=? 0x10000) && (value <=? 0x10FFFF)).

(** The octets a character occupies in the working buffer. *)
Definition utf8_encode (value : Z) : list Z :=
  if value <=? 0x7F then [value]
  else if value <=? 0x7FF then
    [0xC0 + Z.shiftr value 6; 0x80 + Z.land value 0x3F]
  else if value <=? 0xFFFF then
    [0xE0 + Z.shiftr value 12; 0x80 + Z.land (Z.shiftr value 6) 0x3F; 0x80 + Z.land value 0x3F]
  else
    [0xF0 + Z.shiftr value 18; 0x80 + Z.land (Z.shiftr value 12) 0x3F;
     0x80 + Z.land (Z.shiftr value 6) 0x3F; 0x80 + Z.land value 0x3F].

Definition put_bytes (bs : list Z) : yaml_prog unit :=
  modify (fun p => set_buffer (p.(reader).(buffer) ++ bs) p);;
  modify (fun p => set_unread (p.(reader).(unread) + 1) p).

(** One turn of the decoding loop: [true] to go on. *)
Definition decode_step : yaml_prog bool :=
  r ← decode_char;
  match r with
  | None => mret false
  | Some (value, width) =>
      off ← gets (fun p => p.(reader).(offset));
      if negb (allowed_char value) then
        yaml_parser_set_reader_error "control characters are not allowed" off value
      else
        skip_raw width;;
        put_bytes (utf8_encode value);;
        mret true
  end.

(** [while (raw_buffer.pointer != raw_buffer.last)]. *)
Definition decode_raw : yaml_prog unit :=
  raw ← gets (fun p => p.(reader).(raw_buffer));
  loop (S (length raw)) (fun _ : unit =>
    r ← gets (fun p => p.(reader).(raw_buffer));
    match r with
    | [] => mret (inr tt)
    | _ :: _ => go ← decode_step; mret (if (go : bool) then inl tt else inr tt)
    end) tt.

(** One turn of [while (parser->unread < length)]: [inr true] when there are
    enough characters, [inr false] at the end of the input. *)
Definition fill_step (len : Z) (first : bool) : yaml_prog (bool + bool) :=
  n ← gets (fun p => p.(reader).(unread));
  if n <? len then
    raw ← gets (fun p => p.(reader).(raw_buffer));
    (if negb first || bool_decide (raw = [])
     then yaml_parser_update_raw_buffer else mret tt);;
    decode_raw;;
    at_eof ← gets (fun p => p.(reader).(eof));
    if (at_eof : bool) then put_bytes [0];; mret (inr false)
    else mret (inl false)
  else mret (inr true).

(** The turns of the loop are bounded by the input: each one but the first
    takes octets off it or reaches its end. *)
Definition yaml_parser_update_buffer (len : Z) : yaml_prog unit :=
  at_eof ← gets (fun p => p.(reader).(eof));
  raw ← gets (fun p => p.(reader).(raw_buffer));
  if (at_eof : bool) && bool_decide (raw = []) then mret tt
  else
    n ← gets (fun p => p.(reader).(unread));
    if n >=? len then mret tt
    else
      enc ← gets (fun p => p.(reader).(encoding));
      (match enc with
       | YAML_ANY_ENCODING => yaml_parser_determine_encoding
       | _ => mret tt
       end);;
      inp ← gets (fun p => p.(reader).(input));
      full ← loop (S (S (S (length inp)))) (fill_step len) true;
      if (full : bool) then
        off ← gets (fun p => p.(reader).(offset));
        if off >=? MAX_FILE_SIZE then
          yaml_parser_set_reader_error "input is too long" off (-1)
        else mret tt
      else mret tt.
