(* ===== verification/YamlChars.v ===== *)
(** * libyaml: character tests and cursor macros

    The [CHECK], [IS_...] and [COPY] macros of [yaml_private.h] and the
    [CACHE], [SKIP], [SKIP_LINE], [READ] and [READ_LINE] macros of
    [scanner.c].  A read at an offset that the working buffer does not hold is
    a [Crash], so the tests are programs and [&&] and [||] are evaluated from
    left to right with the short cuts of C. *)

From Stdlib Require Import ZArith Lia Ascii String.
From stdpp Require Import base list option strings.
From S2P Require Import Prelude YamlData YamlReader.

#[local] Open Scope Z_scope.

(** ** Conditions *)

Definition andM (a b : yaml_prog bool) : yaml_prog bool :=
  x ← a; if (x : bool) then b else mret false.
Definition orM (a b : yaml_prog bool) : yaml_prog bool :=
  x ← a; if (x : bool) then mret true else b.
Definition notM (a : yaml_prog bool) : yaml_prog bool := x ← a; mret (negb x).
Definition ifM {A} (c : yaml_prog bool) (a b : yaml_prog A) : yaml_prog A :=
  x ← c; if (x : bool) then a else b.

Declare Scope yaml_scope.
Delimit Scope yaml_scope with yaml.
Infix "&&&" := andM (at level 40, left associativity) : yaml_scope.
Infix "|||" := orM (at level 50, left associativity) : yaml_scope.
Notation "'ifm' c 'then' a 'else' b" := (ifM c a b)
  (at level 10, c at level 100, a at level 200, b at level 200) : yaml_scope.
#[local] Open Scope yaml_scope.

(** ** Octets of the working buffer *)

(** [buffer.pointer[k]]. *)
Definition byte_at (k : nat) : yaml_prog Z :=
  b ← gets (fun p => p.(reader).(buffer));
  match b !! k with Some x => mret x | None => crash end.

Definition CHECK_AT (octet : Z) (k : nat) : yaml_prog bool := b ← byte_at k; mret (b =? octet).
Definition CHECK (c : ascii) : yaml_prog bool := CHECK_AT (ch c) 0.
Definition check_at (c : ascii) (k : nat) : yaml_prog bool := CHECK_AT (ch c) k.

(** The classes of a single octet. *)
Definition is_digit (b : Z) : bool := (b >=? ch "0") && (b <=? ch "9").
Definition is_alpha (b : Z) : bool :=
  is_digit b || ((b >=? ch "A") && (b <=? ch "Z")) || ((b >=? ch "a") && (b <=? ch "z"))
  || (b =? ch "_") || (b =? ch "-").
Definition is_hex (b : Z) : bool :=
  is_digit b || ((b >=? ch "A") && (b <=? ch "F")) || ((b >=? ch "a") && (b <=? ch "f")).
Definition as_digit (b : Z) : Z := b - ch "0".
Definition as_hex (b : Z) : Z :=
  if (b >=? ch "A") && (b <=? ch "F") then b - ch "A" + 10
  else if (b >=? ch "a") && (b <=? ch "f") then b - ch "a" + 10
  else b - ch "0".

Definition IS_ALPHA : yaml_prog bool := b ← byte_at 0; mret (is_alpha b).
Definition IS_DIGIT : yaml_prog bool := b ← byte_at 0; mret (is_digit b).
Definition AS_DIGIT : yaml_prog Z := b ← byte_at 0; mret (as_digit b).
Definition IS_HEX_AT (k : nat) : yaml_prog bool := b ← byte_at k; mret (is_hex b).
Definition AS_HEX_AT (k : nat) : yaml_prog Z := b ← byte_at k; mret (as_hex b).

Definition IS_Z_AT (k : nat) : yaml_prog bool := CHECK_AT 0 k.
Definition IS_Z : yaml_prog bool := IS_Z_AT 0.
Definition IS_BOM : yaml_prog bool := CHECK_AT 0xEF 0 &&& CHECK_AT 0xBB 1 &&& CHECK_AT 0xBF 2.
Definition IS_SPACE_AT (k : nat) : yaml_prog bool := check_at " " k.
Definition IS_SPACE : yaml_prog bool := IS_SPACE_AT 0.
Definition IS_TAB_AT (k : nat) : yaml_prog bool := CHECK_AT 9 k.
Definition IS_TAB : yaml_prog bool := IS_TAB_AT 0.
Definition IS_BLANK_AT (k : nat) : yaml_prog bool := IS_SPACE_AT k ||| IS_TAB_AT k.
Definition IS_BLANK : yaml_prog bool := IS_BLANK_AT 0.
Definition IS_BREAK_AT (k : nat) : yaml_prog bool :=
  CHECK_AT 13 k                                                          (* CR *)
  ||| CHECK_AT 10 k                                                      (* LF *)
  ||| (CHECK_AT 0xC2 k &&& CHECK_AT 0x85 (k + 1))                        (* NEL *)
  ||| (CHECK_AT 0xE2 k &&& CHECK_AT 0x80 (k + 1) &&& CHECK_AT 0xA8 (k + 2))   (* LS *)
  ||| (CHECK_AT 0xE2 k &&& CHECK_AT 0x80 (k + 1) &&& CHECK_AT 0xA9 (k + 2)).  (* PS *)
Definition IS_BREAK : yaml_prog bool := IS_BREAK_AT 0.
Definition IS_CRLF : yaml_prog bool := CHECK_AT 13 0 &&& CHECK_AT 10 1.
Definition IS_BREAKZ_AT (k : nat) : yaml_prog bool := IS_BREAK_AT k ||| IS_Z_AT k.
Definition IS_BREAKZ : yaml_prog bool := IS_BREAKZ_AT 0.
Definition IS_BLANKZ_AT (k : nat) : yaml_prog bool := IS_BLANK_AT k ||| IS_BREAKZ_AT k.
Definition IS_BLANKZ : yaml_prog bool := IS_BLANKZ_AT 0.

(** One of the given characters at the cursor, tested in order. *)
Fixpoint check_any (cs : list ascii) : yaml_prog bool :=
  match cs with
  | [] => mret false
  | [c] => CHECK c
  | c :: cs' => CHECK c ||| check_any cs'
  end.

(** ** Cursor *)

Definition get_mark : yaml_prog yaml_mark_t := gets (fun p => p.(reader).(mark)).

(** [buffer.pointer += n], inside the buffer. *)
Definition advance (n : Z) : yaml_prog unit :=
  b ← gets (fun p => p.(reader).(buffer));
  if n <=? Z.of_nat (length b) then modify (set_buffer (drop (Z.to_nat n) b)) else crash.

Definition move_mark (chars : Z) (newline : bool) : yaml_prog unit :=
  m ← get_mark;
  modify (set_mark
    (if newline then mkMark (m.(index) + chars) (m.(line) + 1) 0
     else mkMark (m.(index) + chars) m.(line) (m.(column) + chars)));;
  modify (fun p => set_unread (p.(reader).(unread) - chars) p).

Definition CACHE (n : Z) : yaml_prog unit :=
  u ← gets (fun p => p.(reader).(unread));
  if u >=? n then mret tt else yaml_parser_update_buffer n.

Definition SKIP : yaml_prog unit :=
  b ← byte_at 0; move_mark 1 false;; advance (utf8_width b).

Definition SKIP_LINE : yaml_prog unit :=
  ifm IS_CRLF then move_mark 2 true;; advance 2
  else ifm IS_BREAK then b ← byte_at 0; move_mark 1 true;; advance (utf8_width b)
  else mret tt.

(** The octets [COPY] takes from the buffer. *)
Definition copy_bytes (n : nat) : yaml_prog (list Z) :=
  b ← gets (fun p => p.(reader).(buffer));
  if (n <=? length b)%nat then modify (set_buffer (drop n b));; mret (take n b) else crash.

(** [READ(parser, string)]: the string with the next character appended. *)
Definition READ (s : list Z) : yaml_prog (list Z) :=
  b ← byte_at 0;
  bs ← copy_bytes (Z.to_nat (utf8_width b));
  move_mark 1 false;;
  mret (s ++ bs).

(** [READ_LINE(parser, string)]: line breaks are normalised, except LS and PS. *)
Definition READ_LINE (s : list Z) : yaml_prog (list Z) :=
  ifm check_at "013" 0 &&& check_at "010" 1 then
    advance 2;; move_mark 2 true;; mret (s ++ [10])
  else ifm check_at "013" 0 ||| check_at "010" 0 then
    advance 1;; move_mark 1 true;; mret (s ++ [10])
  else ifm CHECK_AT 0xC2 0 &&& CHECK_AT 0x85 1 then
    advance 2;; move_mark 1 true;; mret (s ++ [10])
  else ifm CHECK_AT 0xE2 0 &&& CHECK_AT 0x80 1 &&& (CHECK_AT 0xA8 2 ||| CHECK_AT 0xA9 2) then
    bs ← copy_bytes 3; move_mark 1 true;; mret (s ++ bs)
  else mret s.

(** ** Loops of the scanner

    Every turn of a scanner loop takes a character off the input, so the
    octets still to be read bound the number of turns: a raw octet yields at
    most two octets of the working buffer, and the end of input one more. *)
Definition scan_fuel (p : yaml_parser_t) : nat :=
  let r := p.(reader) in
  (length r.(buffer) + 2 * (length r.(raw_buffer) + length r.(input)) + 4)%nat.

Definition scan_loop {L R} (body : L -> yaml_prog (L + R)) (l : L) : yaml_prog R :=
  n ← gets scan_fuel; loop n body l.

Definition scan_while (cond : yaml_prog bool) (body : yaml_prog unit) : yaml_prog unit :=
  n ← gets scan_fuel; while n cond body.

(** [while (cond) { SKIP(parser); if (!CACHE(parser, 1)) return 0; }] *)
Definition skip_while (cond : yaml_prog bool) : yaml_prog unit :=
  scan_while cond (SKIP;; CACHE 1).

(** [while (cond) { READ(parser, string); CACHE(parser, 1); }] *)
Definition read_while (cond : yaml_prog bool) (s : list Z) : yaml_prog (list Z) :=
  scan_loop (fun s : list Z =>
    ifm cond then s' ← READ s; CACHE 1;; mret (inl s') else mret (inr s)) s.
