(* ===== verification/YamlScanner.v ===== *)
(** * libyaml: the scanner ([scanner.c])

    From characters to tokens: indentation, flow level, potential simple keys,
    and the routines that scan directives, anchors, tags and scalars. *)

From Stdlib Require Import ZArith Lia Ascii String.
From stdpp Require Import base list option strings.
From S2P Require Import Prelude YamlData YamlReader YamlChars.

#[local] Open Scope Z_scope.
#[local] Open Scope yaml_scope.

Definition yaml_parser_set_scanner_error {A} (ctx : option string) (ctx_mark : yaml_mark_t)
    (msg : string) : yaml_prog A :=
  modify (set_error YAML_SCANNER_ERROR);;
  modify (set_context ctx);;
  modify (set_context_mark ctx_mark);;
  modify (set_problem (Some msg));;
  m ← get_mark;
  modify (set_problem_mark m);;
  fail.

Definition in_flow : yaml_prog bool := gets (fun p => negb (p.(scanner).(flow_level) =? 0)).
Definition in_block : yaml_prog bool := gets (fun p => p.(scanner).(flow_level) =? 0).
Definition column_is_0 : yaml_prog bool := gets (fun p => p.(reader).(mark).(column) =? 0).
Definition get_simple_key_allowed : yaml_prog bool :=
  gets (fun p => p.(scanner).(simple_key_allowed)).

(** ** Potential simple keys *)

(** A key that spans lines or more than 1024 characters. *)
Definition key_is_stale (here : yaml_mark_t) (k : yaml_simple_key_t) : bool :=
  k.(possible) && ((k.(key_mark).(line) <? here.(line))
                   || (k.(key_mark).(index) + 1024 <? here.(index))).

Definition key_unset (k : yaml_simple_key_t) : yaml_simple_key_t :=
  mkSimpleKey false k.(required) k.(token_number) k.(key_mark).

(** The walk from [simple_keys.start] to [simple_keys.top]: the keys as they
    are when it stops, and the mark of a required key that went stale. *)
Fixpoint stale_keys (here : yaml_mark_t) (ks : list yaml_simple_key_t) :
    list yaml_simple_key_t * option yaml_mark_t :=
  match ks with
  | [] => ([], None)
  | k :: ks' =>
      if key_is_stale here k then
        if k.(required) then (k :: ks', Some k.(key_mark))
        else let r := stale_keys here ks' in (key_unset k :: r.1, r.2)
      else let r := stale_keys here ks' in (k :: r.1, r.2)
  end.

Definition set_key_items (ks : list yaml_simple_key_t) (p : yaml_parser_t) : yaml_parser_t :=
  set_simple_keys (mkStack ks p.(scanner).(simple_keys).(capacity)) p.

Definition yaml_parser_stale_simple_keys : yaml_prog unit :=
  here ← get_mark;
  s ← gets (fun p => p.(scanner).(simple_keys));
  let r := stale_keys here (rev s.(items)) in
  modify (set_key_items (rev r.1));;
  match r.2 with
  | Some m =>
      yaml_parser_set_scanner_error (Some "while scanning a simple key") m
        "could not find expected ':'"
  | None => mret tt
  end.

(** [*(simple_keys.top-1)] and its assignment. *)
Definition top_simple_key : yaml_prog yaml_simple_key_t :=
  s ← gets (fun p => p.(scanner).(simple_keys));
  match s.(items) with k :: _ => mret k | [] => crash end.

Definition set_top_simple_key (k : yaml_simple_key_t) : yaml_prog unit :=
  s ← gets (fun p => p.(scanner).(simple_keys));
  match s.(items) with
  | _ :: r => modify (set_key_items (k :: r))
  | [] => crash
  end.

Definition yaml_parser_remove_simple_key : yaml_prog unit :=
  k ← top_simple_key;
  if k.(possible) && k.(required) then
    yaml_parser_set_scanner_error (Some "while scanning a simple key") k.(key_mark)
      "could not find expected ':'"
  else set_top_simple_key (key_unset k).

Definition yaml_parser_save_simple_key : yaml_prog unit :=
  req ← gets (fun p => (p.(scanner).(flow_level) =? 0)
                       && (p.(scanner).(indent) =? p.(reader).(mark).(column)));
  allowed ← get_simple_key_allowed;
  if (allowed : bool) then
    n ← gets (fun p => p.(scanner).(tokens_parsed) + Z.of_nat (length p.(scanner).(tokens)));
    m ← get_mark;
    yaml_parser_remove_simple_key;;
    set_top_simple_key (mkSimpleKey true req n m)
  else mret tt.

Definition empty_simple_key : yaml_simple_key_t := mkSimpleKey false false 0 mark0.

Definition yaml_parser_increase_flow_level : yaml_prog unit :=
  push_simple_key empty_simple_key;;
  n ← gets (fun p => p.(scanner).(flow_level));
  if n =? INT_MAX then memory_error
  else modify (set_flow_level (n + 1)).

Definition yaml_parser_decrease_flow_level : yaml_prog unit :=
  n ← gets (fun p => p.(scanner).(flow_level));
  if n =? 0 then mret tt
  else modify (set_flow_level (n - 1));; _ ← pop_simple_key; mret tt.

(** ** Indentation *)

(** [number] is [-1] to append the token, or the number of the token to put it
    in front of. *)
Definition yaml_parser_roll_indent (col number : Z) (type : yaml_token_data)
    (m : yaml_mark_t) : yaml_prog unit :=
  ifm in_flow then mret tt
  else
    i ← gets (fun p => p.(scanner).(indent));
    if i <? col then
      push_indent i;;
      if col >? INT_MAX then memory_error
      else
        modify (set_indent col);;
        let token := TOKEN_INIT type m m in
        if number =? -1 then ENQUEUE token
        else
          parsed ← gets (fun p => p.(scanner).(tokens_parsed));
          QUEUE_INSERT (number - parsed) token
    else mret tt.

Definition yaml_parser_unroll_indent (col : Z) : yaml_prog unit :=
  ifm in_flow then mret tt
  else
    n ← gets (fun p => S (length p.(scanner).(indents).(items)));
    while n (gets (fun p => p.(scanner).(indent) >? col))
      (m ← get_mark;
       ENQUEUE (TOKEN_INIT YAML_BLOCK_END_TOKEN m m);;
       i ← pop_indent;
       modify (set_indent i)).

(** ** Token fetchers, from the stream to the flow indicators *)

Definition yaml_parser_fetch_stream_start : yaml_prog unit :=
  modify (set_indent (-1));;
  push_simple_key empty_simple_key;;
  modify (set_simple_key_allowed true);;
  modify (set_stream_start_produced true);;
  enc ← gets (fun p => p.(reader).(encoding));
  m ← get_mark;
  ENQUEUE (TOKEN_INIT (YAML_STREAM_START_TOKEN enc) m m).

Definition yaml_parser_fetch_stream_end : yaml_prog unit :=
  m ← get_mark;
  (if negb (m.(column) =? 0)
   then modify (set_mark (mkMark m.(index) (m.(line) + 1) 0)) else mret tt);;
  yaml_parser_unroll_indent (-1);;
  yaml_parser_remove_simple_key;;
  modify (set_simple_key_allowed false);;
  m ← get_mark;
  ENQUEUE (TOKEN_INIT YAML_STREAM_END_TOKEN m m).

Definition yaml_parser_fetch_document_indicator (type : yaml_token_data) : yaml_prog unit :=
  yaml_parser_unroll_indent (-1);;
  yaml_parser_remove_simple_key;;
  modify (set_simple_key_allowed false);;
  sm ← get_mark;
  SKIP;; SKIP;; SKIP;;
  em ← get_mark;
  ENQUEUE (TOKEN_INIT type sm em).

(** Consume a one-character indicator and append its token. *)
Definition fetch_indicator (type : yaml_token_data) : yaml_prog unit :=
  sm ← get_mark;
  SKIP;;
  em ← get_mark;
  ENQUEUE (TOKEN_INIT type sm em).

Definition yaml_parser_fetch_flow_collection_start (type : yaml_token_data) : yaml_prog unit :=
  yaml_parser_save_simple_key;;
  yaml_parser_increase_flow_level;;
  modify (set_simple_key_allowed true);;
  fetch_indicator type.

Definition yaml_parser_fetch_flow_collection_end (type : yaml_token_data) : yaml_prog unit :=
  yaml_parser_remove_simple_key;;
  yaml_parser_decrease_flow_level;;
  modify (set_simple_key_allowed false);;
  fetch_indicator type.

Definition yaml_parser_fetch_flow_entry : yaml_prog unit :=
  yaml_parser_remove_simple_key;;
  modify (set_simple_key_allowed true);;
  fetch_indicator YAML_FLOW_ENTRY_TOKEN.

(** The checks of a block indicator: an entry, key or value may start here,
    and the collection token is added if the column is a new level. *)
Definition block_indicator (msg : string) (type : yaml_token_data) : yaml_prog unit :=
  m ← get_mark;
  allowed ← get_simple_key_allowed;
  if negb allowed then yaml_parser_set_scanner_error None m msg
  else yaml_parser_roll_indent m.(column) (-1) type m.

Definition yaml_parser_fetch_block_entry : yaml_prog unit :=
  (ifm in_block then
     block_indicator "block sequence entries are not allowed in this context"
       YAML_BLOCK_SEQUENCE_START_TOKEN
   else mret tt);;
  yaml_parser_remove_simple_key;;
  modify (set_simple_key_allowed true);;
  fetch_indicator YAML_BLOCK_ENTRY_TOKEN.

Definition yaml_parser_fetch_key : yaml_prog unit :=
  (ifm in_block then
     block_indicator "mapping keys are not allowed in this context"
       YAML_BLOCK_MAPPING_START_TOKEN
   else mret tt);;
  yaml_parser_remove_simple_key;;
  b ← in_block;
  modify (set_simple_key_allowed b);;
  fetch_indicator YAML_KEY_TOKEN.

Definition yaml_parser_fetch_value : yaml_prog unit :=
  k ← top_simple_key;
  (if (k.(possible) : bool) then
     parsed ← gets (fun p => p.(scanner).(tokens_parsed));
     QUEUE_INSERT (k.(token_number) - parsed)
       (TOKEN_INIT YAML_KEY_TOKEN k.(key_mark) k.(key_mark));;
     yaml_parser_roll_indent k.(key_mark).(column) k.(token_number)
       YAML_BLOCK_MAPPING_START_TOKEN k.(key_mark);;
     set_top_simple_key (key_unset k);;
     modify (set_simple_key_allowed false)
   else
     (ifm in_block then
        block_indicator "mapping values are not allowed in this context"
          YAML_BLOCK_MAPPING_START_TOKEN
      else mret tt);;
     b ← in_block;
     modify (set_simple_key_allowed b));;
  fetch_indicator YAML_VALUE_TOKEN.

(** ** Scanning: white space, comments, directives *)

Definition yaml_parser_scan_to_next_token : yaml_prog unit :=
  scan_loop (fun _ : unit =>
    CACHE 1;;
    (ifm column_is_0 &&& IS_BOM then SKIP else mret tt);;
    CACHE 1;;
    skip_while (CHECK " " |||
                ((in_flow ||| notM get_simple_key_allowed) &&& IS_TAB));;
    (ifm CHECK "#" then skip_while (notM IS_BREAKZ) else mret tt);;
    ifm IS_BREAK then
      CACHE 2;;
      SKIP_LINE;;
      (ifm in_block then modify (set_simple_key_allowed true) else mret tt);;
      mret (inl tt)
    else mret (inr tt)) tt.

(** Blanks, a comment and the line break that end a directive or the header of
    a block scalar. *)
Definition scan_rest_of_line (ctx : string) (sm : yaml_mark_t) : yaml_prog unit :=
  CACHE 1;;
  skip_while IS_BLANK;;
  (ifm CHECK "#" then skip_while (notM IS_BREAKZ) else mret tt);;
  ifm notM IS_BREAKZ then
    yaml_parser_set_scanner_error (Some ctx) sm "did not find expected comment or line break"
  else ifm IS_BREAK then CACHE 2;; SKIP_LINE
  else mret tt.

Definition yaml_parser_scan_directive_name (sm : yaml_mark_t) : yaml_prog (list Z) :=
  CACHE 1;;
  s ← read_while IS_ALPHA [];
  if bool_decide (s = []) then
    yaml_parser_set_scanner_error (Some "while scanning a directive") sm
      "could not find expected directive name"
  else ifm notM IS_BLANKZ then
    yaml_parser_set_scanner_error (Some "while scanning a directive") sm
      "found unexpected non-alphabetical character"
  else mret s.

Definition MAX_NUMBER_LENGTH : Z := 9.

Definition yaml_parser_scan_version_directive_number (sm : yaml_mark_t) : yaml_prog Z :=
  CACHE 1;;
  r ← scan_loop (fun l : Z * Z =>
    let '(value, len) := l in
    ifm IS_DIGIT then
      if len + 1 >? MAX_NUMBER_LENGTH then
        yaml_parser_set_scanner_error (Some "while scanning a %YAML directive") sm
          "found extremely long version number"
      else
        d ← AS_DIGIT;
        SKIP;;
        CACHE 1;;
        mret (inl (value * 10 + d, len + 1))
    else mret (inr (value, len))) (0, 0);
  if r.2 =? 0 then
    yaml_parser_set_scanner_error (Some "while scanning a %YAML directive") sm
      "did not find expected version number"
  else mret r.1.

Definition yaml_parser_scan_version_directive_value (sm : yaml_mark_t) : yaml_prog (Z * Z) :=
  CACHE 1;;
  skip_while IS_BLANK;;
  maj ← yaml_parser_scan_version_directive_number sm;
  ifm notM (CHECK ".") then
    yaml_parser_set_scanner_error (Some "while scanning a %YAML directive") sm
      "did not find expected digit or '.' character"
  else
    SKIP;;
    min ← yaml_parser_scan_version_directive_number sm;
    mret (maj, min).

(** ** Scanning: tags and anchors *)

Definition yaml_parser_scan_tag_handle (directive : bool) (sm : yaml_mark_t) : yaml_prog (list Z) :=
  CACHE 1;;
  ifm notM (CHECK "!") then
    yaml_parser_set_scanner_error
      (Some (if directive then "while scanning a tag directive" else "while scanning a tag")) sm
      "did not find expected '!'"
  else
    s ← READ [];
    CACHE 1;;
    s ← read_while IS_ALPHA s;
    ifm CHECK "!" then READ s
    else if directive && negb ((nth 0 s 0 =? ch "!") && (nth 1 s 0 =? 0)) then
      yaml_parser_set_scanner_error (Some "while parsing a tag directive") sm
        "did not find expected '!'"
    else mret s.

Definition tag_context (directive : bool) : option string :=
  Some (if directive then "while parsing a %TAG directive" else "while parsing a tag").

(** The escapes of one UTF-8 character; [width] is the number of octets still
    to come, 0 before the leading one. *)
Definition yaml_parser_scan_uri_escapes (directive : bool) (sm : yaml_mark_t) (s : list Z) :
    yaml_prog (list Z) :=
  loop 5 (fun l : Z * list Z =>
    let '(width, s) := l in
    CACHE 3;;
    ifm notM (CHECK "%" &&& IS_HEX_AT 1 &&& IS_HEX_AT 2) then
      yaml_parser_set_scanner_error (tag_context directive) sm "did not find URI escaped octet"
    else
      h ← AS_HEX_AT 1;
      l ← AS_HEX_AT 2;
      let octet := Z.shiftl h 4 + l in
      width ← (if width =? 0 then
                 if utf8_width octet =? 0 then
                   yaml_parser_set_scanner_error (tag_context directive) sm
                     "found an incorrect leading UTF-8 octet"
                 else mret (utf8_width octet)
               else if negb (Z.land octet 0xC0 =? 0x80) then
                 yaml_parser_set_scanner_error (tag_context directive) sm
                   "found an incorrect trailing UTF-8 octet"
               else mret width);
      SKIP;; SKIP;; SKIP;;
      mret (if width - 1 =? 0 then inr (s ++ [octet]) else inl (width - 1, s ++ [octet])))
    (0, s).

Definition uri_chars : list ascii :=
  [";"; "/"; "?"; ":"; "@"; "&"; "="; "+"; "$"; "."; "%"; "!"; "~"; "*"; "'"; "("; ")"]%char.

Definition yaml_parser_scan_tag_uri (uri_char directive : bool) (head : option (list Z))
    (sm : yaml_mark_t) : yaml_prog (list Z) :=
  let h := match head with Some h => cstr h | None => [] end in
  CACHE 1;;
  r ← scan_loop (fun l : list Z * Z =>
    let '(s, len) := l in
    ifm IS_ALPHA ||| check_any uri_chars
        ||| (mret uri_char &&& check_any [","; "["; "]"]%char) then
      s' ← (ifm CHECK "%" then yaml_parser_scan_uri_escapes directive sm s else READ s);
      CACHE 1;;
      mret (inl (s', len + 1))
    else mret (inr (s, len))) (drop 1 h, Z.of_nat (length h));
  if r.2 =? 0 then
    yaml_parser_set_scanner_error (tag_context directive) sm "did not find expected tag URI"
  else mret r.1.

Definition yaml_parser_scan_tag_directive_value (sm : yaml_mark_t) :
    yaml_prog (list Z * list Z) :=
  CACHE 1;;
  skip_while IS_BLANK;;
  h ← yaml_parser_scan_tag_handle true sm;
  CACHE 1;;
  ifm notM IS_BLANK then
    yaml_parser_set_scanner_error (Some "while scanning a %TAG directive") sm
      "did not find expected whitespace"
  else
    skip_while IS_BLANK;;
    pre ← yaml_parser_scan_tag_uri true true None sm;
    CACHE 1;;
    ifm notM IS_BLANKZ then
      yaml_parser_set_scanner_error (Some "while scanning a %TAG directive") sm
        "did not find expected whitespace or line break"
    else mret (h, pre).

Definition yaml_parser_scan_directive : yaml_prog yaml_token_t :=
  sm ← get_mark;
  SKIP;;
  name ← yaml_parser_scan_directive_name sm;
  token ← (if strcmp_eq name (bytes_of "YAML") then
             v ← yaml_parser_scan_version_directive_value sm;
             em ← get_mark;
             mret (TOKEN_INIT (YAML_VERSION_DIRECTIVE_TOKEN v.1 v.2) sm em)
           else if strcmp_eq name (bytes_of "TAG") then
             v ← yaml_parser_scan_tag_directive_value sm;
             em ← get_mark;
             mret (TOKEN_INIT (YAML_TAG_DIRECTIVE_TOKEN v.1 v.2) sm em)
           else
             yaml_parser_set_scanner_error (Some "while scanning a directive") sm
               "found unknown directive name");
  scan_rest_of_line "while scanning a directive" sm;;
  mret token.

(** [alias] is [type == YAML_ALIAS_TOKEN]. *)
Definition yaml_parser_scan_anchor (alias : bool) : yaml_prog yaml_token_t :=
  sm ← get_mark;
  SKIP;;
  CACHE 1;;
  s ← read_while IS_ALPHA [];
  em ← get_mark;
  ifm mret (bool_decide (s = []))
      ||| notM (IS_BLANKZ ||| check_any ["?"; ":"; ","; "]"; "}"; "%"; "@"; "`"]%char) then
    yaml_parser_set_scanner_error
      (Some (if alias then "while scanning an alias" else "while scanning an anchor")) sm
      "did not find expected alphabetic or numeric character"
  else
    mret (TOKEN_INIT (if alias then YAML_ALIAS_TOKEN s else YAML_ANCHOR_TOKEN s) sm em).

Definition yaml_parser_scan_tag : yaml_prog yaml_token_t :=
  sm ← get_mark;
  CACHE 2;;
  r ← (ifm check_at "<" 1 then
         SKIP;; SKIP;;
         suffix ← yaml_parser_scan_tag_uri true false None sm;
         ifm notM (CHECK ">") then
           yaml_parser_set_scanner_error (Some "while scanning a tag") sm
             "did not find the expected '>'"
         else SKIP;; mret ([], suffix)
       else
         h ← yaml_parser_scan_tag_handle false sm;
         if (nth 0 h 0 =? ch "!") && negb (nth 1 h 0 =? 0)
            && (List.last (cstr h) 0 =? ch "!") then
           suffix ← yaml_parser_scan_tag_uri false false None sm;
           mret (h, suffix)
         else
           suffix ← yaml_parser_scan_tag_uri false false (Some h) sm;
           mret (if nth 0 suffix 0 =? 0 then (suffix, [ch "!"]) else ([ch "!"], suffix)));
  CACHE 1;;
  ifm notM IS_BLANKZ &&& (in_block ||| notM (CHECK ",")) then
    yaml_parser_set_scanner_error (Some "while scanning a tag") sm
      "did not find expected whitespace or line break"
  else
    em ← get_mark;
    mret (TOKEN_INIT (YAML_TAG_TOKEN r.1 r.2) sm em).

(** ** Scanning: block scalars *)

Definition first_byte (s : list Z) : Z := nth 0 s 0.

(** The header [|] or [>] with its indicators: the chomping method (+1, 0 or
    -1) and the indentation increment (0 if absent). *)
Definition scan_block_header (sm : yaml_mark_t) : yaml_prog (Z * Z) :=
  let chomping_indicator : yaml_prog Z :=
    c ← (ifm CHECK "+" then mret 1 else mret (-1)); SKIP;; mret c in
  let indentation_indicator : yaml_prog Z :=
    ifm CHECK "0" then
      yaml_parser_set_scanner_error (Some "while scanning a block scalar") sm
        "found an indentation indicator equal to 0"
    else n ← AS_DIGIT; SKIP;; mret n in
  CACHE 1;;
  ifm CHECK "+" ||| CHECK "-" then
    chomping ← chomping_indicator;
    CACHE 1;;
    increment ← (ifm IS_DIGIT then indentation_indicator else mret 0);
    mret (chomping, increment)
  else ifm IS_DIGIT then
    increment ← indentation_indicator;
    CACHE 1;;
    chomping ← (ifm CHECK "+" ||| CHECK "-" then chomping_indicator else mret 0);
    mret (chomping, increment)
  else mret (0, 0).

(** [(!*indent || (int)mark.column < *indent)]. *)
Definition below_indent (ind : Z) : yaml_prog bool :=
  gets (fun p => (ind =? 0) || (int_of_size p.(reader).(mark).(column) <? ind)).

(** Returns the indentation level, the breaks and the end mark. *)
Definition yaml_parser_scan_block_scalar_breaks (ind : Z) (breaks : list Z) (sm : yaml_mark_t) :
    yaml_prog (Z * list Z * yaml_mark_t) :=
  em ← get_mark;
  r ← scan_loop (fun l : Z * list Z * yaml_mark_t =>
    let '(max_indent, breaks, em) := l in
    CACHE 1;;
    skip_while (below_indent ind &&& IS_SPACE);;
    col ← gets (fun p => int_of_size p.(reader).(mark).(column));
    let max_indent := if col >? max_indent then col else max_indent in
    ifm below_indent ind &&& IS_TAB then
      yaml_parser_set_scanner_error (Some "while scanning a block scalar") sm
        "found a tab character where an indentation space is expected"
    else ifm notM IS_BREAK then mret (inr (max_indent, breaks, em))
    else
      CACHE 2;;
      breaks' ← READ_LINE breaks;
      em' ← get_mark;
      mret (inl (max_indent, breaks', em'))) (0, breaks, em);
  let '(max_indent, breaks, em) := r in
  if ind =? 0 then
    pi ← gets (fun p => p.(scanner).(indent));
    let i := max_indent in
    let i := if i <? pi + 1 then pi + 1 else i in
    let i := if i <? 1 then 1 else i in
    mret (i, breaks, em)
  else mret (ind, breaks, em).

(** The locals of [yaml_parser_scan_block_scalar] that its loop changes. *)
Record block_locals : Type := mkBlock {
  bl_string : list Z;
  bl_leading_break : list Z;
  bl_trailing_breaks : list Z;
  bl_leading_blank : bool;
  bl_indent : Z;
  bl_end_mark : yaml_mark_t
}.

Definition scan_block_line (literal : bool) (sm : yaml_mark_t) (l : block_locals) :
    yaml_prog (block_locals + block_locals) :=
  ifm gets (fun p => int_of_size p.(reader).(mark).(column) =? l.(bl_indent)) &&& notM IS_Z then
    trailing_blank ← IS_BLANK;
    let s :=
      if negb literal && (first_byte l.(bl_leading_break) =? 10)
         && negb l.(bl_leading_blank) && negb trailing_blank
      then if first_byte l.(bl_trailing_breaks) =? 0
           then l.(bl_string) ++ [ch " "] else l.(bl_string)
      else l.(bl_string) ++ l.(bl_leading_break) in
    let s := s ++ l.(bl_trailing_breaks) in
    leading_blank ← IS_BLANK;
    s ← read_while (notM IS_BREAKZ) s;
    CACHE 2;;
    leading_break ← READ_LINE [];
    r ← yaml_parser_scan_block_scalar_breaks l.(bl_indent) [] sm;
    let '(i, breaks, em) := r in
    mret (inl (mkBlock s leading_break breaks leading_blank i em))
  else mret (inr l).

Definition yaml_parser_scan_block_scalar (literal : bool) : yaml_prog yaml_token_t :=
  sm ← get_mark;
  SKIP;;
  hdr ← scan_block_header sm;
  let '(chomping, increment) := hdr in
  scan_rest_of_line "while scanning a block scalar" sm;;
  pi ← gets (fun p => p.(scanner).(indent));
  let ind := if increment =? 0 then 0
             else if pi >=? 0 then pi + increment else increment in
  r ← yaml_parser_scan_block_scalar_breaks ind [] sm;
  let '(ind, breaks, em) := r in
  CACHE 1;;
  l ← scan_loop (scan_block_line literal sm) (mkBlock [] [] breaks false ind em);
  let s := l.(bl_string) in
  let s := if negb (chomping =? -1) then s ++ l.(bl_leading_break) else s in
  let s := if chomping =? 1 then s ++ l.(bl_trailing_breaks) else s in
  mret (TOKEN_INIT
    (YAML_SCALAR_TOKEN s (Z.of_nat (length s))
       (if literal then YAML_LITERAL_SCALAR_STYLE else YAML_FOLDED_SCALAR_STYLE))
    sm l.(bl_end_mark)).

(** ** Scanning: quoted scalars *)

(** A document indicator at the cursor: [---] or [...] and a blank. *)
Definition at_document_indicator : yaml_prog bool :=
  column_is_0
  &&& ((check_at "-" 0 &&& check_at "-" 1 &&& check_at "-" 2)
       ||| (check_at "." 0 &&& check_at "." 1 &&& check_at "." 2))
  &&& IS_BLANKZ_AT 3.

(** The escape character after a backslash: the octets it stands for, or the
    number of hexadecimal digits that follow it. *)
Definition escape_of (c : Z) : option (list Z + Z) :=
  if c =? ch "0" then Some (inl [0])
  else if c =? ch "a" then Some (inl [7])
  else if c =? ch "b" then Some (inl [8])
  else if (c =? ch "t") || (c =? 9) then Some (inl [9])
  else if c =? ch "n" then Some (inl [10])
  else if c =? ch "v" then Some (inl [11])
  else if c =? ch "f" then Some (inl [12])
  else if c =? ch "r" then Some (inl [13])
  else if c =? ch "e" then Some (inl [27])
  else if c =? ch " " then Some (inl [32])
  else if c =? 34 then Some (inl [34])
  else if c =? ch "/" then Some (inl [ch "/"])
  else if c =? ch "\" then Some (inl [ch "\"])
  else if c =? ch "N" then Some (inl [0xC2; 0x85])
  else if c =? ch "_" then Some (inl [0xC2; 0xA0])
  else if c =? ch "L" then Some (inl [0xE2; 0x80; 0xA8])
  else if c =? ch "P" then Some (inl [0xE2; 0x80; 0xA9])
  else if c =? ch "x" then Some (inr 2)
  else if c =? ch "u" then Some (inr 4)
  else if c =? ch "U" then Some (inr 8)
  else None.

(** [for (k = 0; k < code_length; k++)]: the value of the digits from [k] on. *)
Fixpoint scan_hex (n k : nat) (value : Z) (sm : yaml_mark_t) : yaml_prog Z :=
  match n with
  | O => mret value
  | S n' =>
      ifm notM (IS_HEX_AT k) then
        yaml_parser_set_scanner_error (Some "while parsing a quoted scalar") sm
          "did not find expected hexdecimal number"
      else
        d ← AS_HEX_AT k;
        scan_hex n' (S k) (Z.shiftl value 4 + d) sm
  end.

Fixpoint skip_n (n : nat) : yaml_prog unit :=
  match n with O => mret tt | S n' => SKIP;; skip_n n' end.

Definition scan_escape (sm : yaml_mark_t) (s : list Z) : yaml_prog (list Z) :=
  c ← byte_at 1;
  match escape_of c with
  | None =>
      yaml_parser_set_scanner_error (Some "while parsing a quoted scalar") sm
        "found unknown escape character"
  | Some (inl bs) => SKIP;; SKIP;; mret (s ++ bs)
  | Some (inr code_length) =>
      SKIP;; SKIP;;
      CACHE code_length;;
      value ← scan_hex (Z.to_nat code_length) 0 0 sm;
      if ((value >=? 0xD800) && (value <=? 0xDFFF)) || (value >? 0x10FFFF) then
        yaml_parser_set_scanner_error (Some "while parsing a quoted scalar") sm
          "found invalid Unicode character escape code"
      else
        skip_n (Z.to_nat code_length);;
        mret (s ++ utf8_encode value)
  end.

Definition quote_of (single : bool) : Z := if single then ch "'" else 34.

(** [while (!IS_BLANKZ(parser->buffer))]: the text up to a blank, the closing
    quote or an escaped line break, which sets [leading_blanks]. *)
Definition scan_quoted_text (single : bool) (sm : yaml_mark_t) (s : list Z) :
    yaml_prog (list Z * bool) :=
  scan_loop (fun s : list Z =>
    ifm IS_BLANKZ then mret (inr (s, false))
    else ifm mret single &&& check_at "'" 0 &&& check_at "'" 1 then
      SKIP;; SKIP;; CACHE 2;; mret (inl (s ++ [ch "'"]))
    else ifm CHECK_AT (quote_of single) 0 then mret (inr (s, false))
    else ifm mret (negb single) &&& CHECK "\" &&& IS_BREAK_AT 1 then
      CACHE 3;; SKIP;; SKIP_LINE;; mret (inr (s, true))
    else ifm mret (negb single) &&& CHECK "\" then
      s' ← scan_escape sm s; CACHE 2;; mret (inl s')
    else
      s' ← READ s; CACHE 2;; mret (inl s')) s.

(** The string buffers of a flow scalar. *)
Record scalar_bufs : Type := mkBufs {
  sb_string : list Z;
  sb_leading_break : list Z;
  sb_trailing_breaks : list Z;
  sb_whitespaces : list Z;
  sb_leading_blanks : bool
}.

(** One blank or line break between the words of a scalar; [CACHE] follows. *)
Definition scan_one_blank (b : scalar_bufs) : yaml_prog scalar_bufs :=
  let '(mkBufs s lb tb ws leading) := b in
  ifm IS_BLANK then
    if leading then SKIP;; mret b
    else ws' ← READ ws; mret (mkBufs s lb tb ws' leading)
  else
    CACHE 2;;
    if leading then tb' ← READ_LINE tb; mret (mkBufs s lb tb' ws leading)
    else lb' ← READ_LINE lb; mret (mkBufs s lb' tb [] true).

Definition scan_quoted_blanks (b : scalar_bufs) : yaml_prog scalar_bufs :=
  scan_loop (fun b : scalar_bufs =>
    ifm IS_BLANK ||| IS_BREAK then
      b' ← scan_one_blank b; CACHE 1;; mret (inl b')
    else mret (inr b)) b.

(** Fold the line breaks collected in front of a word into the string. *)
Definition fold_breaks (b : scalar_bufs) : scalar_bufs :=
  let '(mkBufs s lb tb ws leading) := b in
  if first_byte lb =? 10 then
    if first_byte tb =? 0 then mkBufs (s ++ [ch " "]) [] tb ws leading
    else mkBufs (s ++ tb) [] [] ws leading
  else mkBufs (s ++ lb ++ tb) [] [] ws leading.

Definition join_whitespaces (b : scalar_bufs) : scalar_bufs :=
  let '(mkBufs s lb tb ws leading) := b in mkBufs (s ++ ws) lb tb [] leading.

Definition yaml_parser_scan_flow_scalar (single : bool) : yaml_prog yaml_token_t :=
  sm ← get_mark;
  SKIP;;
  s ← scan_loop (fun b : scalar_bufs =>
    CACHE 4;;
    ifm at_document_indicator then
      yaml_parser_set_scanner_error (Some "while scanning a quoted scalar") sm
        "found unexpected document indicator"
    else ifm IS_Z then
      yaml_parser_set_scanner_error (Some "while scanning a quoted scalar") sm
        "found unexpected end of stream"
    else
      CACHE 2;;
      r ← scan_quoted_text single sm b.(sb_string);
      CACHE 1;;
      ifm CHECK_AT (quote_of single) 0 then mret (inr r.1)
      else
        CACHE 1;;
        b ← scan_quoted_blanks
              (mkBufs r.1 b.(sb_leading_break) b.(sb_trailing_breaks) b.(sb_whitespaces) r.2);
        mret (inl (if (b.(sb_leading_blanks) : bool) then fold_breaks b else join_whitespaces b)))
    (mkBufs [] [] [] [] false);
  SKIP;;
  em ← get_mark;
  mret (TOKEN_INIT
    (YAML_SCALAR_TOKEN s (Z.of_nat (length s))
       (if single then YAML_SINGLE_QUOTED_SCALAR_STYLE else YAML_DOUBLE_QUOTED_SCALAR_STYLE))
    sm em).

(** ** Scanning: plain scalars *)

Definition flow_indicators : list ascii := [","; "["; "]"; "{"; "}"]%char.

(** [":"] and a flow indicator right after it, in the flow context. *)
Definition at_flow_colon : yaml_prog bool :=
  in_flow &&& CHECK ":"
  &&& (check_at "," 1 ||| check_at "?" 1 ||| check_at "[" 1 ||| check_at "]" 1
       ||| check_at "{" 1 ||| check_at "}" 1).

Definition at_plain_end : yaml_prog bool :=
  (CHECK ":" &&& IS_BLANKZ_AT 1) ||| (in_flow &&& check_any flow_indicators).

(** Put the white space or breaks seen since the last word into the string. *)
Definition join_pending (b : scalar_bufs) : scalar_bufs :=
  if (b.(sb_leading_blanks) : bool) then
    let '(mkBufs s lb tb ws _) := fold_breaks b in mkBufs s lb tb ws false
  else if bool_decide (b.(sb_whitespaces) = []) then b
  else join_whitespaces b.

Definition scan_plain_text (sm : yaml_mark_t) (l : scalar_bufs * yaml_mark_t) :
    yaml_prog (scalar_bufs * yaml_mark_t) :=
  scan_loop (fun l : scalar_bufs * yaml_mark_t =>
    let '(b, em) := l in
    ifm IS_BLANKZ then mret (inr (b, em))
    else ifm at_flow_colon then
      yaml_parser_set_scanner_error (Some "while scanning a plain scalar") sm
        "found unexpected ':'"
    else ifm at_plain_end then mret (inr (b, em))
    else
      let '(mkBufs s lb tb ws leading) := join_pending b in
      s' ← READ s;
      em' ← get_mark;
      CACHE 2;;
      mret (inl (mkBufs s' lb tb ws leading, em'))) l.

Definition scan_plain_blanks (sm : yaml_mark_t) (ind : Z) (b : scalar_bufs) :
    yaml_prog scalar_bufs :=
  scan_loop (fun b : scalar_bufs =>
    ifm IS_BLANK ||| IS_BREAK then
      ifm IS_BLANK &&& mret b.(sb_leading_blanks)
          &&& gets (fun p => int_of_size p.(reader).(mark).(column) <? ind) &&& IS_TAB then
        yaml_parser_set_scanner_error (Some "while scanning a plain scalar") sm
          "found a tab character that violates indentation"
      else b' ← scan_one_blank b; CACHE 1;; mret (inl b')
    else mret (inr b)) b.

Definition yaml_parser_scan_plain_scalar : yaml_prog yaml_token_t :=
  ind ← gets (fun p => p.(scanner).(indent) + 1);
  sm ← get_mark;
  r ← scan_loop (fun l : scalar_bufs * yaml_mark_t =>
    CACHE 4;;
    ifm at_document_indicator then mret (inr l)
    else ifm CHECK "#" then mret (inr l)
    else
      l ← scan_plain_text sm l;
      ifm notM (IS_BLANK ||| IS_BREAK) then mret (inr l)
      else
        CACHE 1;;
        b ← scan_plain_blanks sm ind l.1;
        ifm in_block &&& gets (fun p => int_of_size p.(reader).(mark).(column) <? ind)
        then mret (inr (b, l.2))
        else mret (inl (b, l.2))) (mkBufs [] [] [] [] false, sm);
  let s := r.1.(sb_string) in
  (if (r.1.(sb_leading_blanks) : bool) then modify (set_simple_key_allowed true) else mret tt);;
  mret (TOKEN_INIT (YAML_SCALAR_TOKEN s (Z.of_nat (length s)) YAML_PLAIN_SCALAR_STYLE) sm r.2).

(** ** Token fetchers that scan a value *)

Definition yaml_parser_fetch_directive : yaml_prog unit :=
  yaml_parser_unroll_indent (-1);;
  yaml_parser_remove_simple_key;;
  modify (set_simple_key_allowed false);;
  token ← yaml_parser_scan_directive;
  ENQUEUE token.

Definition yaml_parser_fetch_anchor (alias : bool) : yaml_prog unit :=
  yaml_parser_save_simple_key;;
  modify (set_simple_key_allowed false);;
  token ← yaml_parser_scan_anchor alias;
  ENQUEUE token.

Definition yaml_parser_fetch_tag : yaml_prog unit :=
  yaml_parser_save_simple_key;;
  modify (set_simple_key_allowed false);;
  token ← yaml_parser_scan_tag;
  ENQUEUE token.

Definition yaml_parser_fetch_block_scalar (literal : bool) : yaml_prog unit :=
  yaml_parser_remove_simple_key;;
  modify (set_simple_key_allowed true);;
  token ← yaml_parser_scan_block_scalar literal;
  ENQUEUE token.

Definition yaml_parser_fetch_flow_scalar (single : bool) : yaml_prog unit :=
  yaml_parser_save_simple_key;;
  modify (set_simple_key_allowed false);;
  token ← yaml_parser_scan_flow_scalar single;
  ENQUEUE token.

Definition yaml_parser_fetch_plain_scalar : yaml_prog unit :=
  yaml_parser_save_simple_key;;
  modify (set_simple_key_allowed false);;
  token ← yaml_parser_scan_plain_scalar;
  ENQUEUE token.

(** ** The dispatcher *)

Definition plain_excluded : list ascii :=
  ["-"; "?"; ":"; ","; "["; "]"; "{"; "}"; "#"; "&"; "*"; "!"; "|"; ">"; "'"; "034"; "%"; "@";
   "`"]%char.

Definition starts_plain_scalar : yaml_prog bool :=
  notM (IS_BLANKZ ||| check_any plain_excluded)
  ||| (CHECK "-" &&& notM (IS_BLANK_AT 1))
  ||| (in_block &&& (CHECK "?" ||| CHECK ":") &&& notM (IS_BLANKZ_AT 1)).

(** The choice of the fetcher, with four characters in the buffer. *)
Definition fetch_by_indicator : yaml_prog unit :=
  ifm IS_Z then yaml_parser_fetch_stream_end
  else ifm column_is_0 &&& CHECK "%" then yaml_parser_fetch_directive
  else ifm column_is_0 &&& check_at "-" 0 &&& check_at "-" 1 &&& check_at "-" 2
           &&& IS_BLANKZ_AT 3
  then yaml_parser_fetch_document_indicator YAML_DOCUMENT_START_TOKEN
  else ifm column_is_0 &&& check_at "." 0 &&& check_at "." 1 &&& check_at "." 2
           &&& IS_BLANKZ_AT 3
  then yaml_parser_fetch_document_indicator YAML_DOCUMENT_END_TOKEN
  else ifm CHECK "[" then yaml_parser_fetch_flow_collection_start YAML_FLOW_SEQUENCE_START_TOKEN
  else ifm CHECK "{" then yaml_parser_fetch_flow_collection_start YAML_FLOW_MAPPING_START_TOKEN
  else ifm CHECK "]" then yaml_parser_fetch_flow_collection_end YAML_FLOW_SEQUENCE_END_TOKEN
  else ifm CHECK "}" then yaml_parser_fetch_flow_collection_end YAML_FLOW_MAPPING_END_TOKEN
  else ifm CHECK "," then yaml_parser_fetch_flow_entry
  else ifm CHECK "-" &&& IS_BLANKZ_AT 1 then yaml_parser_fetch_block_entry
  else ifm CHECK "?" &&& (in_flow ||| IS_BLANKZ_AT 1) then yaml_parser_fetch_key
  else ifm CHECK ":" &&& (in_flow ||| IS_BLANKZ_AT 1) then yaml_parser_fetch_value
  else ifm CHECK "*" then yaml_parser_fetch_anchor true
  else ifm CHECK "&" then yaml_parser_fetch_anchor false
  else ifm CHECK "!" then yaml_parser_fetch_tag
  else ifm CHECK "|" &&& in_block then yaml_parser_fetch_block_scalar true
  else ifm CHECK ">" &&& in_block then yaml_parser_fetch_block_scalar false
  else ifm CHECK "'" then yaml_parser_fetch_flow_scalar true
  else ifm CHECK "034" then yaml_parser_fetch_flow_scalar false
  else ifm starts_plain_scalar then yaml_parser_fetch_plain_scalar
  else
    m ← get_mark;
    yaml_parser_set_scanner_error (Some "while scanning for the next token") m
      "found character that cannot start any token".

Definition yaml_parser_fetch_next_token : yaml_prog unit :=
  CACHE 1;;
  started ← gets (fun p => p.(scanner).(stream_start_produced));
  if negb started then yaml_parser_fetch_stream_start
  else
    yaml_parser_scan_to_next_token;;
    yaml_parser_stale_simple_keys;;
    m ← get_mark;
    yaml_parser_unroll_indent m.(column);;
    CACHE 4;;
    fetch_by_indicator.

(** A potential simple key sits at the head of the queue. *)
Definition head_may_be_key (p : yaml_parser_t) : bool :=
  existsb (fun k => k.(possible) && (k.(token_number) =? p.(scanner).(tokens_parsed)))
    (rev p.(scanner).(simple_keys).(items)).

Definition yaml_parser_fetch_more_tokens : yaml_prog unit :=
  scan_loop (fun _ : unit =>
    q ← gets (fun p => p.(scanner).(tokens));
    need ← (match q with
            | [] => mret true
            | _ :: _ => yaml_parser_stale_simple_keys;; gets head_may_be_key
            end);
    if (need : bool) then yaml_parser_fetch_next_token;; mret (inl tt)
    else mret (inr tt)) tt;;
  modify (set_token_available true).

(** ** The public entry *)

Definition yaml_parser_scan : yaml_prog (option yaml_token_t) :=
  done ← gets (fun p => p.(scanner).(stream_end_produced)
                        || negb (bool_decide (p.(err).(error) = YAML_NO_ERROR)));
  if (done : bool) then mret None
  else
    avail ← gets (fun p => p.(scanner).(token_available));
    (if (avail : bool) then mret tt else yaml_parser_fetch_more_tokens);;
    q ← gets (fun p => p.(scanner).(tokens));
    match q with
    | [] => crash
    | t :: r =>
        modify (set_tokens r);;
        modify (set_token_available false);;
        modify (fun p => set_tokens_parsed (p.(scanner).(tokens_parsed) + 1) p);;
        (match t.(token_data) with
         | YAML_STREAM_END_TOKEN => modify (set_stream_end_produced true)
         | _ => mret tt
         end);;
        mret (Some t)
    end.

(** All the tokens of a stream. *)
Definition scan_all (fuel : nat) : yaml_prog (list yaml_token_t) :=
  loop fuel (fun acc : list yaml_token_t =>
    t ← yaml_parser_scan;
    match t with
    | None => mret (inr (rev acc))
    | Some t => mret (inl (t :: acc))
    end) [].
