(* ===== verification/YamlParser.v ===== *)
(** * libyaml: the parser ([parser.c])

    From tokens to events: a state machine with a stack of states to return
    to, a stack of marks for error messages, and the tag directives of the
    current document.  Its only access to the scanner is
    [yaml_parser_fetch_more_tokens], which is the operation of the class
    [TokenSource]; [TokenSourceLaws] is what the state machine needs from it. *)

From Stdlib Require Import ZArith Lia Ascii String.
From stdpp Require Import base list option strings.
From S2P Require Import Prelude YamlData.

#[local] Open Scope Z_scope.

(** ** The interface to the scanner *)

Class TokenSource : Type := fetch_more_tokens : yaml_prog unit.

(** ** Helpers *)

Section machine.
Context `{src : TokenSource}.

(** [PEEK_TOKEN]: a pointer to the head of the queue, NULL on failure. *)
Definition PEEK_TOKEN : yaml_prog (option yaml_token_t) :=
  avail ← gets (fun p => p.(scanner).(token_available));
  r ← (if (avail : bool) then mret (Some tt) else attempt fetch_more_tokens);
  match r with
  | None => mret None
  | Some _ =>
      q ← gets (fun p => p.(scanner).(tokens));
      match q with
      | t :: _ => mret (Some t)
      | [] => crash
      end
  end.

(** [token = PEEK_TOKEN(parser); if (!token) return 0;] *)
Definition peek : yaml_prog yaml_token_t :=
  t ← PEEK_TOKEN;
  match t with Some t => mret t | None => fail end.

Definition set_state_to (s : yaml_parser_state_t) : yaml_prog unit := modify (set_state s).

(** [parser->state = POP(parser, parser->states)]. *)
Definition return_to_state : yaml_prog unit := s ← pop_state; set_state_to s.

Definition yaml_parser_set_parser_error {A} (msg : string) (m : yaml_mark_t) : yaml_prog A :=
  modify (set_error YAML_PARSER_ERROR);;
  modify (set_problem (Some msg));;
  modify (set_problem_mark m);;
  fail.

Definition yaml_parser_set_parser_error_context {A} (ctx : string) (ctx_mark : yaml_mark_t)
    (msg : string) (m : yaml_mark_t) : yaml_prog A :=
  modify (set_error YAML_PARSER_ERROR);;
  modify (set_context (Some ctx));;
  modify (set_context_mark ctx_mark);;
  modify (set_problem (Some msg));;
  modify (set_problem_mark m);;
  fail.

Definition yaml_parser_process_empty_scalar (m : yaml_mark_t) : yaml_prog yaml_event_t :=
  mret (EVENT_INIT
    (YAML_SCALAR_EVENT None None [] 0 true false YAML_PLAIN_SCALAR_STYLE) m m).

(** ** Directives *)

Definition default_tag_directives : list yaml_tag_directive_t :=
  [mkTagDirective (bytes_of "!") (bytes_of "!");
   mkTagDirective (bytes_of "!!") (bytes_of "tag:yaml.org,2002:")].

(** The directives from [tag_directives.start] to [tag_directives.top]. *)
Definition directive_list (p : yaml_parser_t) : list yaml_tag_directive_t :=
  rev p.(parsing).(tag_directives).(items).

Definition has_handle (h : list Z) (l : list yaml_tag_directive_t) : bool :=
  existsb (fun d => strcmp_eq h d.(td_handle)) l.

(** [yaml_strdup] copies up to the NUL. *)
Definition yaml_parser_append_tag_directive (value : yaml_tag_directive_t)
    (allow_duplicates : bool) (m : yaml_mark_t) : yaml_prog unit :=
  l ← gets directive_list;
  if has_handle value.(td_handle) l then
    if allow_duplicates then mret tt
    else yaml_parser_set_parser_error "found duplicate %TAG directive" m
  else
    push_tag_directive
      (mkTagDirective (cstr value.(td_handle)) (cstr value.(td_prefix))).

(** [for (default_tag_directive = default_tag_directives; ...)]. *)
Fixpoint append_defaults (ds : list yaml_tag_directive_t) (m : yaml_mark_t) : yaml_prog unit :=
  match ds with
  | [] => mret tt
  | d :: ds' => yaml_parser_append_tag_directive d true m;; append_defaults ds' m
  end.

(** [yaml_parser_process_directives]: the loop runs once per directive token;
    [fuel] bounds the number of them. *)
Definition process_directive_tokens (fuel : nat) (t : yaml_token_t) :
    yaml_prog (option yaml_version_directive_t * list yaml_tag_directive_t * yaml_token_t) :=
  loop fuel (fun l : option yaml_version_directive_t * list yaml_tag_directive_t * yaml_token_t =>
    let '(version, tags, token) := l in
    match token.(token_data) with
    | YAML_VERSION_DIRECTIVE_TOKEN maj min =>
        if bool_decide (version <> None) then
          yaml_parser_set_parser_error "found duplicate %YAML directive" token.(start_mark)
        else if negb (maj =? 1) || (negb (min =? 1) && negb (min =? 2)) then
          yaml_parser_set_parser_error "found incompatible YAML document" token.(start_mark)
        else
          SKIP_TOKEN;; token ← peek; mret (inl (Some (mkVersion maj min), tags, token))
    | YAML_TAG_DIRECTIVE_TOKEN h pre =>
        let value := mkTagDirective h pre in
        yaml_parser_append_tag_directive value false token.(start_mark);;
        SKIP_TOKEN;; token ← peek; mret (inl (version, tags ++ [value], token))
    | _ => mret (inr (version, tags, token))
    end) (None, [], t).

Definition yaml_parser_process_directives (fuel : nat) :
    yaml_prog (option yaml_version_directive_t * list yaml_tag_directive_t) :=
  token ← peek;
  r ← process_directive_tokens fuel token;
  let '(version, tags, token) := r in
  append_defaults default_tag_directives token.(start_mark);;
  mret (version, tags).

(** ** Nodes *)

(** The anchor and tag in front of a node. *)
Record node_properties : Type := mkProps {
  np_anchor : option (list Z);
  np_tag : option (list Z * list Z);
  np_start : yaml_mark_t;
  np_end : yaml_mark_t;
  np_tag_mark : yaml_mark_t
}.

Definition parse_properties (token : yaml_token_t) : yaml_prog (node_properties * yaml_token_t) :=
  let sm := token.(start_mark) in
  match token.(token_data) with
  | YAML_ANCHOR_TOKEN a =>
      let em := token.(end_mark) in
      SKIP_TOKEN;;
      token ← peek;
      match token.(token_data) with
      | YAML_TAG_TOKEN h s =>
          let tm := token.(start_mark) in
          let em := token.(end_mark) in
          SKIP_TOKEN;;
          token ← peek;
          mret (mkProps (Some a) (Some (h, s)) sm em tm, token)
      | _ => mret (mkProps (Some a) None sm em mark0, token)
      end
  | YAML_TAG_TOKEN h s =>
      let em := token.(end_mark) in
      SKIP_TOKEN;;
      token ← peek;
      match token.(token_data) with
      | YAML_ANCHOR_TOKEN a =>
          let em := token.(end_mark) in
          SKIP_TOKEN;;
          token ← peek;
          mret (mkProps (Some a) (Some (h, s)) sm em sm, token)
      | _ => mret (mkProps None (Some (h, s)) sm em sm, token)
      end
  | _ => mret (mkProps None None sm sm mark0, token)
  end.

(** The tag a handle and a suffix stand for. *)
Definition resolve_tag (ds : list yaml_tag_directive_t) (h s : list Z) : option (list Z) :=
  if bool_decide (cstr h = []) then Some s
  else
    match List.find (fun d => strcmp_eq d.(td_handle) h) ds with
    | Some d => Some (cstr d.(td_prefix) ++ cstr s)
    | None => None
    end.

Definition parse_tag (props : node_properties) : yaml_prog (option (list Z)) :=
  match props.(np_tag) with
  | None => mret None
  | Some (h, s) =>
      ds ← gets directive_list;
      match resolve_tag ds h s with
      | Some tag => mret (Some tag)
      | None =>
          yaml_parser_set_parser_error_context "while parsing a node" props.(np_start)
            "found undefined tag handle" props.(np_tag_mark)
      end
  end.

(** [(!tag || !*tag)]. *)
Definition tag_is_empty (tag : option (list Z)) : bool :=
  match tag with None => true | Some t => bool_decide (cstr t = []) end.

Definition is_some {A} (o : option A) : bool := match o with Some _ => true | None => false end.

(** The content of a node, after its properties. *)
Definition parse_content (block indentless_sequence : bool) (props : node_properties)
    (tag : option (list Z)) (token : yaml_token_t) : yaml_prog yaml_event_t :=
  let anchor := props.(np_anchor) in
  let sm := props.(np_start) in
  let implicit := tag_is_empty tag in
  match token.(token_data), indentless_sequence, block with
  | YAML_BLOCK_ENTRY_TOKEN, true, _ =>
      set_state_to YAML_PARSE_INDENTLESS_SEQUENCE_ENTRY_STATE;;
      mret (EVENT_INIT
        (YAML_SEQUENCE_START_EVENT anchor tag implicit YAML_BLOCK_SEQUENCE_STYLE)
        sm token.(end_mark))
  | YAML_SCALAR_TOKEN value len style, _, _ =>
      let plain := match style with YAML_PLAIN_SCALAR_STYLE => true | _ => false end in
      let no_tag := negb (is_some tag) in
      let plain_implicit :=
        (plain && no_tag)
        || match tag with Some t => strcmp_eq t (bytes_of "!") | None => false end in
      let quoted_implicit := negb plain_implicit && no_tag in
      return_to_state;;
      SKIP_TOKEN;;
      mret (EVENT_INIT
        (YAML_SCALAR_EVENT anchor tag value len plain_implicit quoted_implicit style)
        sm token.(end_mark))
  | YAML_FLOW_SEQUENCE_START_TOKEN, _, _ =>
      set_state_to YAML_PARSE_FLOW_SEQUENCE_FIRST_ENTRY_STATE;;
      mret (EVENT_INIT
        (YAML_SEQUENCE_START_EVENT anchor tag implicit YAML_FLOW_SEQUENCE_STYLE)
        sm token.(end_mark))
  | YAML_FLOW_MAPPING_START_TOKEN, _, _ =>
      set_state_to YAML_PARSE_FLOW_MAPPING_FIRST_KEY_STATE;;
      mret (EVENT_INIT
        (YAML_MAPPING_START_EVENT anchor tag implicit YAML_FLOW_MAPPING_STYLE)
        sm token.(end_mark))
  | YAML_BLOCK_SEQUENCE_START_TOKEN, _, true =>
      set_state_to YAML_PARSE_BLOCK_SEQUENCE_FIRST_ENTRY_STATE;;
      mret (EVENT_INIT
        (YAML_SEQUENCE_START_EVENT anchor tag implicit YAML_BLOCK_SEQUENCE_STYLE)
        sm token.(end_mark))
  | YAML_BLOCK_MAPPING_START_TOKEN, _, true =>
      set_state_to YAML_PARSE_BLOCK_MAPPING_FIRST_KEY_STATE;;
      mret (EVENT_INIT
        (YAML_MAPPING_START_EVENT anchor tag implicit YAML_BLOCK_MAPPING_STYLE)
        sm token.(end_mark))
  | _, _, _ =>
      if is_some anchor || is_some tag then
        return_to_state;;
        mret (EVENT_INIT
          (YAML_SCALAR_EVENT anchor tag [] 0 implicit false YAML_PLAIN_SCALAR_STYLE)
          sm props.(np_end))
      else
        yaml_parser_set_parser_error_context
          (if block then "while parsing a block node" else "while parsing a flow node")
          sm "did not find expected node content" token.(start_mark)
  end.

Definition yaml_parser_parse_node (block indentless_sequence : bool) : yaml_prog yaml_event_t :=
  token ← peek;
  match token.(token_data) with
  | YAML_ALIAS_TOKEN value =>
      return_to_state;;
      SKIP_TOKEN;;
      mret (EVENT_INIT (YAML_ALIAS_EVENT value) token.(start_mark) token.(end_mark))
  | _ =>
      r ← parse_properties token;
      tag ← parse_tag r.1;
      parse_content block indentless_sequence r.1 tag r.2
  end.

(** ** The stream and its documents *)

Definition yaml_parser_parse_stream_start : yaml_prog yaml_event_t :=
  token ← peek;
  match token.(token_data) with
  | YAML_STREAM_START_TOKEN enc =>
      set_state_to YAML_PARSE_IMPLICIT_DOCUMENT_START_STATE;;
      SKIP_TOKEN;;
      mret (EVENT_INIT (YAML_STREAM_START_EVENT enc) token.(start_mark) token.(start_mark))
  | _ =>
      yaml_parser_set_parser_error "did not find expected <stream-start>" token.(start_mark)
  end.

(** [while (token->type == YAML_DOCUMENT_END_TOKEN)]. *)
Definition skip_document_ends (fuel : nat) (t : yaml_token_t) : yaml_prog yaml_token_t :=
  loop fuel (fun token : yaml_token_t =>
    match token.(token_data) with
    | YAML_DOCUMENT_END_TOKEN => SKIP_TOKEN;; token ← peek; mret (inl token)
    | _ => mret (inr token)
    end) t.

Definition starts_explicit_document (d : yaml_token_data) : bool :=
  match d with
  | YAML_VERSION_DIRECTIVE_TOKEN _ _ | YAML_TAG_DIRECTIVE_TOKEN _ _
  | YAML_DOCUMENT_START_TOKEN | YAML_STREAM_END_TOKEN => true
  | _ => false
  end.

(** The document that starts at [token]: implicit, the end of the stream, or
    explicit. *)
Definition start_implicit_document (fuel : nat) (token : yaml_token_t) : yaml_prog yaml_event_t :=
  _ ← yaml_parser_process_directives fuel;
  push_state YAML_PARSE_DOCUMENT_END_STATE;;
  set_state_to YAML_PARSE_BLOCK_NODE_STATE;;
  mret (EVENT_INIT (YAML_DOCUMENT_START_EVENT None [] true)
          token.(start_mark) token.(start_mark)).

Definition start_explicit_document (fuel : nat) (token : yaml_token_t) : yaml_prog yaml_event_t :=
  let sm := token.(start_mark) in
  r ← yaml_parser_process_directives fuel;
  token ← peek;
  match token.(token_data) with
  | YAML_DOCUMENT_START_TOKEN =>
      push_state YAML_PARSE_DOCUMENT_END_STATE;;
      set_state_to YAML_PARSE_DOCUMENT_CONTENT_STATE;;
      SKIP_TOKEN;;
      mret (EVENT_INIT (YAML_DOCUMENT_START_EVENT r.1 r.2 false) sm token.(end_mark))
  | _ =>
      yaml_parser_set_parser_error "did not find expected <document start>"
        token.(start_mark)
  end.

Definition end_stream (token : yaml_token_t) : yaml_prog yaml_event_t :=
  set_state_to YAML_PARSE_END_STATE;;
  SKIP_TOKEN;;
  mret (EVENT_INIT YAML_STREAM_END_EVENT token.(start_mark) token.(end_mark)).

Definition yaml_parser_parse_document_start (fuel : nat) (implicit : bool) :
    yaml_prog yaml_event_t :=
  token ← peek;
  token ← (if implicit then mret token else skip_document_ends fuel token);
  if implicit && negb (starts_explicit_document token.(token_data)) then
    start_implicit_document fuel token
  else
    match token.(token_data) with
    | YAML_STREAM_END_TOKEN => end_stream token
    | _ => start_explicit_document fuel token
    end.

Definition yaml_parser_parse_document_content : yaml_prog yaml_event_t :=
  token ← peek;
  match token.(token_data) with
  | YAML_VERSION_DIRECTIVE_TOKEN _ _ | YAML_TAG_DIRECTIVE_TOKEN _ _
  | YAML_DOCUMENT_START_TOKEN | YAML_DOCUMENT_END_TOKEN | YAML_STREAM_END_TOKEN =>
      return_to_state;;
      yaml_parser_process_empty_scalar token.(start_mark)
  | _ => yaml_parser_parse_node true false
  end.

Definition yaml_parser_parse_document_end : yaml_prog yaml_event_t :=
  token ← peek;
  let sm := token.(start_mark) in
  r ← (match token.(token_data) with
       | YAML_DOCUMENT_END_TOKEN => SKIP_TOKEN;; mret (false, token.(end_mark))
       | _ => mret (true, sm)
       end);
  modify (fun p => set_tag_directives (mkStack [] p.(parsing).(tag_directives).(capacity)) p);;
  set_state_to YAML_PARSE_DOCUMENT_START_STATE;;
  mret (EVENT_INIT (YAML_DOCUMENT_END_EVENT r.1) sm r.2).

(** ** Block collections *)

(** The first entry of a collection: push the mark of its opening token,
    without the test for NULL that the other peeks make, and skip the token. *)
Definition open_collection (first : bool) : yaml_prog unit :=
  if first then
    t ← PEEK_TOKEN;
    token ← deref t;
    push_mark token.(start_mark);;
    SKIP_TOKEN
  else mret tt.

(** A node that returns to [s]. *)
Definition parse_node_then (s : yaml_parser_state_t) (block indentless : bool) :
    yaml_prog yaml_event_t :=
  push_state s;; yaml_parser_parse_node block indentless.

Definition empty_scalar_then (s : yaml_parser_state_t) (m : yaml_mark_t) :
    yaml_prog yaml_event_t :=
  set_state_to s;; yaml_parser_process_empty_scalar m.

(** The end of a collection that has a mark: its closing token is skipped. *)
Definition close_collection (e : yaml_event_data) (token : yaml_token_t) :
    yaml_prog yaml_event_t :=
  return_to_state;;
  _ ← pop_mark;
  SKIP_TOKEN;;
  mret (EVENT_INIT e token.(start_mark) token.(end_mark)).

Definition collection_error {A} (ctx msg : string) (token : yaml_token_t) : yaml_prog A :=
  m ← pop_mark;
  yaml_parser_set_parser_error_context ctx m msg token.(start_mark).

Definition yaml_parser_parse_block_sequence_entry (first : bool) : yaml_prog yaml_event_t :=
  open_collection first;;
  token ← peek;
  match token.(token_data) with
  | YAML_BLOCK_ENTRY_TOKEN =>
      let m := token.(end_mark) in
      SKIP_TOKEN;;
      token ← peek;
      match token.(token_data) with
      | YAML_BLOCK_ENTRY_TOKEN | YAML_BLOCK_END_TOKEN =>
          empty_scalar_then YAML_PARSE_BLOCK_SEQUENCE_ENTRY_STATE m
      | _ => parse_node_then YAML_PARSE_BLOCK_SEQUENCE_ENTRY_STATE true false
      end
  | YAML_BLOCK_END_TOKEN => close_collection YAML_SEQUENCE_END_EVENT token
  | _ =>
      collection_error "while parsing a block collection"
        "did not find expected '-' indicator" token
  end.

Definition yaml_parser_parse_indentless_sequence_entry : yaml_prog yaml_event_t :=
  token ← peek;
  match token.(token_data) with
  | YAML_BLOCK_ENTRY_TOKEN =>
      let m := token.(end_mark) in
      SKIP_TOKEN;;
      token ← peek;
      match token.(token_data) with
      | YAML_BLOCK_ENTRY_TOKEN | YAML_KEY_TOKEN | YAML_VALUE_TOKEN | YAML_BLOCK_END_TOKEN =>
          empty_scalar_then YAML_PARSE_INDENTLESS_SEQUENCE_ENTRY_STATE m
      | _ => parse_node_then YAML_PARSE_INDENTLESS_SEQUENCE_ENTRY_STATE true false
      end
  | _ =>
      return_to_state;;
      mret (EVENT_INIT YAML_SEQUENCE_END_EVENT token.(start_mark) token.(start_mark))
  end.

Definition yaml_parser_parse_block_mapping_key (first : bool) : yaml_prog yaml_event_t :=
  open_collection first;;
  token ← peek;
  match token.(token_data) with
  | YAML_KEY_TOKEN =>
      let m := token.(end_mark) in
      SKIP_TOKEN;;
      token ← peek;
      match token.(token_data) with
      | YAML_KEY_TOKEN | YAML_VALUE_TOKEN | YAML_BLOCK_END_TOKEN =>
          empty_scalar_then YAML_PARSE_BLOCK_MAPPING_VALUE_STATE m
      | _ => parse_node_then YAML_PARSE_BLOCK_MAPPING_VALUE_STATE true true
      end
  | YAML_BLOCK_END_TOKEN => close_collection YAML_MAPPING_END_EVENT token
  | _ =>
      collection_error "while parsing a block mapping" "did not find expected key" token
  end.

Definition yaml_parser_parse_block_mapping_value : yaml_prog yaml_event_t :=
  token ← peek;
  match token.(token_data) with
  | YAML_VALUE_TOKEN =>
      let m := token.(end_mark) in
      SKIP_TOKEN;;
      token ← peek;
      match token.(token_data) with
      | YAML_KEY_TOKEN | YAML_VALUE_TOKEN | YAML_BLOCK_END_TOKEN =>
          empty_scalar_then YAML_PARSE_BLOCK_MAPPING_KEY_STATE m
      | _ => parse_node_then YAML_PARSE_BLOCK_MAPPING_KEY_STATE true true
      end
  | _ => empty_scalar_then YAML_PARSE_BLOCK_MAPPING_KEY_STATE token.(start_mark)
  end.

(** ** Flow collections *)

(** The separator in front of an entry that is not the first: the token after
    the comma, or the error. *)
Definition flow_separator (first : bool) (ctx msg : string) (token : yaml_token_t) :
    yaml_prog yaml_token_t :=
  if first then mret token
  else
    match token.(token_data) with
    | YAML_FLOW_ENTRY_TOKEN => SKIP_TOKEN;; peek
    | _ => collection_error ctx msg token
    end.

Definition yaml_parser_parse_flow_sequence_entry (first : bool) : yaml_prog yaml_event_t :=
  open_collection first;;
  token ← peek;
  match token.(token_data) with
  | YAML_FLOW_SEQUENCE_END_TOKEN => close_collection YAML_SEQUENCE_END_EVENT token
  | _ =>
      token ← flow_separator first "while parsing a flow sequence"
                "did not find expected ',' or ']'" token;
      match token.(token_data) with
      | YAML_KEY_TOKEN =>
          set_state_to YAML_PARSE_FLOW_SEQUENCE_ENTRY_MAPPING_KEY_STATE;;
          SKIP_TOKEN;;
          mret (EVENT_INIT (YAML_MAPPING_START_EVENT None None true YAML_FLOW_MAPPING_STYLE)
                  token.(start_mark) token.(end_mark))
      | YAML_FLOW_SEQUENCE_END_TOKEN => close_collection YAML_SEQUENCE_END_EVENT token
      | _ => parse_node_then YAML_PARSE_FLOW_SEQUENCE_ENTRY_STATE false false
      end
  end.

Definition yaml_parser_parse_flow_sequence_entry_mapping_key : yaml_prog yaml_event_t :=
  token ← peek;
  match token.(token_data) with
  | YAML_VALUE_TOKEN | YAML_FLOW_ENTRY_TOKEN | YAML_FLOW_SEQUENCE_END_TOKEN =>
      let m := token.(end_mark) in
      SKIP_TOKEN;;
      empty_scalar_then YAML_PARSE_FLOW_SEQUENCE_ENTRY_MAPPING_VALUE_STATE m
  | _ => parse_node_then YAML_PARSE_FLOW_SEQUENCE_ENTRY_MAPPING_VALUE_STATE false false
  end.

Definition yaml_parser_parse_flow_sequence_entry_mapping_value : yaml_prog yaml_event_t :=
  token ← peek;
  match token.(token_data) with
  | YAML_VALUE_TOKEN =>
      SKIP_TOKEN;;
      token ← peek;
      match token.(token_data) with
      | YAML_FLOW_ENTRY_TOKEN | YAML_FLOW_SEQUENCE_END_TOKEN =>
          empty_scalar_then YAML_PARSE_FLOW_SEQUENCE_ENTRY_MAPPING_END_STATE token.(start_mark)
      | _ => parse_node_then YAML_PARSE_FLOW_SEQUENCE_ENTRY_MAPPING_END_STATE false false
      end
  | _ =>
      empty_scalar_then YAML_PARSE_FLOW_SEQUENCE_ENTRY_MAPPING_END_STATE token.(start_mark)
  end.

Definition yaml_parser_parse_flow_sequence_entry_mapping_end : yaml_prog yaml_event_t :=
  token ← peek;
  set_state_to YAML_PARSE_FLOW_SEQUENCE_ENTRY_STATE;;
  mret (EVENT_INIT YAML_MAPPING_END_EVENT token.(start_mark) token.(start_mark)).

Definition yaml_parser_parse_flow_mapping_key (first : bool) : yaml_prog yaml_event_t :=
  open_collection first;;
  token ← peek;
  match token.(token_data) with
  | YAML_FLOW_MAPPING_END_TOKEN => close_collection YAML_MAPPING_END_EVENT token
  | _ =>
      token ← flow_separator first "while parsing a flow mapping"
                "did not find expected ',' or '}'" token;
      match token.(token_data) with
      | YAML_KEY_TOKEN =>
          SKIP_TOKEN;;
          token ← peek;
          match token.(token_data) with
          | YAML_VALUE_TOKEN | YAML_FLOW_ENTRY_TOKEN | YAML_FLOW_MAPPING_END_TOKEN =>
              empty_scalar_then YAML_PARSE_FLOW_MAPPING_VALUE_STATE token.(start_mark)
          | _ => parse_node_then YAML_PARSE_FLOW_MAPPING_VALUE_STATE false false
          end
      | YAML_FLOW_MAPPING_END_TOKEN => close_collection YAML_MAPPING_END_EVENT token
      | _ => parse_node_then YAML_PARSE_FLOW_MAPPING_EMPTY_VALUE_STATE false false
      end
  end.

Definition yaml_parser_parse_flow_mapping_value (empty : bool) : yaml_prog yaml_event_t :=
  token ← peek;
  if empty then empty_scalar_then YAML_PARSE_FLOW_MAPPING_KEY_STATE token.(start_mark)
  else
    match token.(token_data) with
    | YAML_VALUE_TOKEN =>
        SKIP_TOKEN;;
        token ← peek;
        match token.(token_data) with
        | YAML_FLOW_ENTRY_TOKEN | YAML_FLOW_MAPPING_END_TOKEN =>
            empty_scalar_then YAML_PARSE_FLOW_MAPPING_KEY_STATE token.(start_mark)
        | _ => parse_node_then YAML_PARSE_FLOW_MAPPING_KEY_STATE false false
        end
    | _ => empty_scalar_then YAML_PARSE_FLOW_MAPPING_KEY_STATE token.(start_mark)
    end.

(** ** The dispatcher and the public entry *)

Definition yaml_parser_state_machine (fuel : nat) : yaml_prog yaml_event_t :=
  s ← gets (fun p => p.(parsing).(state));
  match s with
  | YAML_PARSE_STREAM_START_STATE => yaml_parser_parse_stream_start
  | YAML_PARSE_IMPLICIT_DOCUMENT_START_STATE => yaml_parser_parse_document_start fuel true
  | YAML_PARSE_DOCUMENT_START_STATE => yaml_parser_parse_document_start fuel false
  | YAML_PARSE_DOCUMENT_CONTENT_STATE => yaml_parser_parse_document_content
  | YAML_PARSE_DOCUMENT_END_STATE => yaml_parser_parse_document_end
  | YAML_PARSE_BLOCK_NODE_STATE => yaml_parser_parse_node true false
  | YAML_PARSE_BLOCK_NODE_OR_INDENTLESS_SEQUENCE_STATE => yaml_parser_parse_node true true
  | YAML_PARSE_FLOW_NODE_STATE => yaml_parser_parse_node false false
  | YAML_PARSE_BLOCK_SEQUENCE_FIRST_ENTRY_STATE => yaml_parser_parse_block_sequence_entry true
  | YAML_PARSE_BLOCK_SEQUENCE_ENTRY_STATE => yaml_parser_parse_block_sequence_entry false
  | YAML_PARSE_INDENTLESS_SEQUENCE_ENTRY_STATE => yaml_parser_parse_indentless_sequence_entry
  | YAML_PARSE_BLOCK_MAPPING_FIRST_KEY_STATE => yaml_parser_parse_block_mapping_key true
  | YAML_PARSE_BLOCK_MAPPING_KEY_STATE => yaml_parser_parse_block_mapping_key false
  | YAML_PARSE_BLOCK_MAPPING_VALUE_STATE => yaml_parser_parse_block_mapping_value
  | YAML_PARSE_FLOW_SEQUENCE_FIRST_ENTRY_STATE => yaml_parser_parse_flow_sequence_entry true
  | YAML_PARSE_FLOW_SEQUENCE_ENTRY_STATE => yaml_parser_parse_flow_sequence_entry false
  | YAML_PARSE_FLOW_SEQUENCE_ENTRY_MAPPING_KEY_STATE =>
      yaml_parser_parse_flow_sequence_entry_mapping_key
  | YAML_PARSE_FLOW_SEQUENCE_ENTRY_MAPPING_VALUE_STATE =>
      yaml_parser_parse_flow_sequence_entry_mapping_value
  | YAML_PARSE_FLOW_SEQUENCE_ENTRY_MAPPING_END_STATE =>
      yaml_parser_parse_flow_sequence_entry_mapping_end
  | YAML_PARSE_FLOW_MAPPING_FIRST_KEY_STATE => yaml_parser_parse_flow_mapping_key true
  | YAML_PARSE_FLOW_MAPPING_KEY_STATE => yaml_parser_parse_flow_mapping_key false
  | YAML_PARSE_FLOW_MAPPING_VALUE_STATE => yaml_parser_parse_flow_mapping_value false
  | YAML_PARSE_FLOW_MAPPING_EMPTY_VALUE_STATE => yaml_parser_parse_flow_mapping_value true
  | YAML_PARSE_END_STATE => fail
  end.

(** The stream is over, or a previous call failed. *)
Definition parsing_is_over (p : yaml_parser_t) : bool :=
  p.(scanner).(stream_end_produced)
  || negb (bool_decide (p.(err).(error) = YAML_NO_ERROR))
  || bool_decide (p.(parsing).(state) = YAML_PARSE_END_STATE).

Definition yaml_parser_parse (fuel : nat) : yaml_prog yaml_event_t :=
  over ← gets parsing_is_over;
  if (over : bool) then mret no_event else yaml_parser_state_machine fuel.

End machine.
