(* ===== verification/YamlEvents.v ===== *)
(** * libyaml: what the events of the parser promise

    An abstract grammar of event streams as a push-down automaton ([nest],
    [nest_step]): a stream of documents, each with exactly one root node,
    sequences and mappings properly nested, and mappings made of complete
    pairs.  The state machine of [parser.c] refines it: every event it
    produces is a move of the automaton, whatever the scanner delivers. *)

From Stdlib Require Import ZArith Lia Ascii String.
From stdpp Require Import base list option strings.
From S2P Require Import Prelude YamlData YamlParser.

#[local] Open Scope Z_scope.

(** ** The abstract grammar *)

(** An open collection; a mapping waits for a key (or its end), or a value. *)
Inductive frame : Type := FSeq | FKey | FVal.

Inductive nest : Type :=
| NStart                       (* nothing yet *)
| NStream                      (* between documents *)
| NDoc (fs : list frame)       (* in a document, innermost collection first *)
| NDocDone                     (* the root node is complete *)
| NEnd.                        (* after the stream *)

#[export] Instance frame_eq_dec : EqDecision frame.
Proof. solve_decision. Defined.
#[export] Instance nest_eq_dec : EqDecision nest.
Proof. solve_decision. Defined.

(** A node is complete in the given context. *)
Definition node_done (fs : list frame) : nest :=
  match fs with
  | [] => NDocDone
  | FSeq :: r => NDoc (FSeq :: r)
  | FKey :: r => NDoc (FVal :: r)
  | FVal :: r => NDoc (FKey :: r)
  end.

Definition nest_step (n : nest) (e : yaml_event_data) : option nest :=
  match e with
  | YAML_NO_EVENT => None
  | YAML_STREAM_START_EVENT _ => match n with NStart => Some NStream | _ => None end
  | YAML_STREAM_END_EVENT => match n with NStream => Some NEnd | _ => None end
  | YAML_DOCUMENT_START_EVENT _ _ _ => match n with NStream => Some (NDoc []) | _ => None end
  | YAML_DOCUMENT_END_EVENT _ => match n with NDocDone => Some NStream | _ => None end
  | YAML_ALIAS_EVENT _ | YAML_SCALAR_EVENT _ _ _ _ _ _ _ =>
      match n with NDoc fs => Some (node_done fs) | _ => None end
  | YAML_SEQUENCE_START_EVENT _ _ _ _ =>
      match n with NDoc fs => Some (NDoc (FSeq :: fs)) | _ => None end
  | YAML_MAPPING_START_EVENT _ _ _ _ =>
      match n with NDoc fs => Some (NDoc (FKey :: fs)) | _ => None end
  | YAML_SEQUENCE_END_EVENT =>
      match n with NDoc (FSeq :: fs) => Some (node_done fs) | _ => None end
  | YAML_MAPPING_END_EVENT =>
      match n with NDoc (FKey :: fs) => Some (node_done fs) | _ => None end
  end.

Fixpoint nest_run (n : nest) (es : list yaml_event_data) : option nest :=
  match es with
  | [] => Some n
  | e :: es' => n' ← nest_step n e; nest_run n' es'
  end.

(** ** What the machine needs from the scanner *)

(** The queue after [SKIP_TOKEN]. *)
Definition skipped (sc : yaml_scanner) : yaml_scanner :=
  match sc.(tokens) with
  | [] => sc
  | t :: r =>
      mkScanner sc.(stream_start_produced)
        (match t.(token_data) with YAML_STREAM_END_TOKEN => true | _ => false end)
        sc.(flow_level) r (sc.(tokens_parsed) + 1) false
        sc.(indents) sc.(indent) sc.(simple_key_allowed) sc.(simple_keys)
  end.

(** A source keeps an invariant of its own over the reader and the scanner; the
    machine disturbs it only by taking the token at the head of the queue.  A
    fetch leaves the parser's own fields alone; it succeeds with a token at the
    head of the queue, or fails with an error recorded.  A source that promises
    termination bounds the number of tokens still to come. *)
Class TokenSourceLaws (F : faults) `{src : TokenSource} := {
  source_ok : yaml_reader -> yaml_scanner -> Prop;
  pending : yaml_reader -> yaml_scanner -> Z;
  pending_nonneg : forall rd sc, 0 <= pending rd sc;
  source_skipped : forall rd sc,
    source_ok rd sc -> sc.(token_available) = true -> sc.(tokens) <> [] ->
    source_ok rd (skipped sc);
  pending_skipped : forall rd sc,
    source_ok rd sc -> sc.(tokens) <> [] -> sc.(stream_end_produced) = false ->
    F.(may_timeout) \/ pending rd (skipped sc) < pending rd sc;
  fetch_more_tokens_spec : forall p,
    source_ok p.(reader) p.(scanner) -> p.(scanner).(stream_end_produced) = false ->
    wp F fetch_more_tokens
      (fun _ p' => p'.(parsing) = p.(parsing) /\ p'.(err) = p.(err)
                   /\ p'.(scanner).(token_available) = true
                   /\ p'.(scanner).(tokens) <> []
                   /\ p'.(scanner).(stream_end_produced) = p.(scanner).(stream_end_produced)
                   /\ source_ok p'.(reader) p'.(scanner)
                   /\ (F.(may_timeout)
                       \/ pending p'.(reader) p'.(scanner) <= pending p.(reader) p.(scanner)))
      (fun p' => p'.(err).(error) <> YAML_NO_ERROR) p
}.

(** A scanner that has delivered all its tokens beforehand. *)
#[export] Instance queue_source : TokenSource | 100 :=
  q ← gets (fun p => p.(scanner).(tokens));
  match q with
  | [] => modify (set_error YAML_SCANNER_ERROR);; fail
  | _ :: _ => modify (set_token_available true)
  end.

#[export] Instance queue_source_laws : TokenSourceLaws strict (src := queue_source).
Proof.
  refine {| source_ok rd sc := True; pending rd sc := Z.of_nat (length sc.(tokens)) |}.
  - intros. lia.
  - done.
  - intros rd sc _ H _. right. unfold skipped. destruct (tokens sc) eqn:E; [done|]. cbn. lia.
  - intros p _ _. unfold fetch_more_tokens, queue_source. wp_steps.
    destruct (tokens (scanner p)) eqn:E; wp_steps; cbn; [done|]. rewrite E.
    repeat split; try done. right. done.
Defined.

(** ** Abstraction of the machine's configuration *)

Section abstraction.
Import List.

(** The collections a state to return to stands in, before the node that is
    being parsed is complete. *)
Definition cont_frames (s : yaml_parser_state_t) : option (list frame) :=
  match s with
  | YAML_PARSE_BLOCK_SEQUENCE_ENTRY_STATE
  | YAML_PARSE_INDENTLESS_SEQUENCE_ENTRY_STATE
  | YAML_PARSE_FLOW_SEQUENCE_ENTRY_STATE => Some [FSeq]
  | YAML_PARSE_BLOCK_MAPPING_VALUE_STATE
  | YAML_PARSE_FLOW_MAPPING_VALUE_STATE
  | YAML_PARSE_FLOW_MAPPING_EMPTY_VALUE_STATE => Some [FKey]
  | YAML_PARSE_BLOCK_MAPPING_KEY_STATE
  | YAML_PARSE_FLOW_MAPPING_KEY_STATE => Some [FVal]
  | YAML_PARSE_FLOW_SEQUENCE_ENTRY_MAPPING_VALUE_STATE => Some [FKey; FSeq]
  | YAML_PARSE_FLOW_SEQUENCE_ENTRY_MAPPING_END_STATE => Some [FVal; FSeq]
  | _ => None
  end.

Fixpoint stack_frames (l : list yaml_parser_state_t) : option (list frame) :=
  match l with
  | [] => None
  | [YAML_PARSE_DOCUMENT_END_STATE] => Some []
  | s :: r => f ← cont_frames s; fs ← stack_frames r; Some (f ++ fs)
  end.

(** The collections the current state itself stands in. *)
Definition state_frames (s : yaml_parser_state_t) : option (list frame) :=
  match s with
  | YAML_PARSE_DOCUMENT_CONTENT_STATE | YAML_PARSE_BLOCK_NODE_STATE => Some []
  | YAML_PARSE_BLOCK_SEQUENCE_FIRST_ENTRY_STATE
  | YAML_PARSE_BLOCK_SEQUENCE_ENTRY_STATE
  | YAML_PARSE_INDENTLESS_SEQUENCE_ENTRY_STATE
  | YAML_PARSE_FLOW_SEQUENCE_FIRST_ENTRY_STATE
  | YAML_PARSE_FLOW_SEQUENCE_ENTRY_STATE => Some [FSeq]
  | YAML_PARSE_BLOCK_MAPPING_FIRST_KEY_STATE
  | YAML_PARSE_BLOCK_MAPPING_KEY_STATE
  | YAML_PARSE_FLOW_MAPPING_FIRST_KEY_STATE
  | YAML_PARSE_FLOW_MAPPING_KEY_STATE => Some [FKey]
  | YAML_PARSE_BLOCK_MAPPING_VALUE_STATE
  | YAML_PARSE_FLOW_MAPPING_VALUE_STATE
  | YAML_PARSE_FLOW_MAPPING_EMPTY_VALUE_STATE => Some [FVal]
  | YAML_PARSE_FLOW_SEQUENCE_ENTRY_MAPPING_KEY_STATE
  | YAML_PARSE_FLOW_SEQUENCE_ENTRY_MAPPING_END_STATE => Some [FKey; FSeq]
  | YAML_PARSE_FLOW_SEQUENCE_ENTRY_MAPPING_VALUE_STATE => Some [FVal; FSeq]
  | _ => None
  end.

Definition nest_of (s : yaml_parser_state_t) (l : list yaml_parser_state_t) : option nest :=
  match s, l with
  | YAML_PARSE_STREAM_START_STATE, [] => Some NStart
  | YAML_PARSE_IMPLICIT_DOCUMENT_START_STATE, [] | YAML_PARSE_DOCUMENT_START_STATE, [] =>
      Some NStream
  | YAML_PARSE_DOCUMENT_END_STATE, [] => Some NDocDone
  | YAML_PARSE_END_STATE, [] => Some NEnd
  | _, _ => f ← state_frames s; fs ← stack_frames l; Some (NDoc (f ++ fs))
  end.

(** Marks a state keeps on the stack of marks. *)
Definition state_marks (s : yaml_parser_state_t) : nat :=
  match s with
  | YAML_PARSE_BLOCK_SEQUENCE_ENTRY_STATE
  | YAML_PARSE_BLOCK_MAPPING_KEY_STATE
  | YAML_PARSE_BLOCK_MAPPING_VALUE_STATE
  | YAML_PARSE_FLOW_SEQUENCE_ENTRY_STATE
  | YAML_PARSE_FLOW_SEQUENCE_ENTRY_MAPPING_KEY_STATE
  | YAML_PARSE_FLOW_SEQUENCE_ENTRY_MAPPING_VALUE_STATE
  | YAML_PARSE_FLOW_SEQUENCE_ENTRY_MAPPING_END_STATE
  | YAML_PARSE_FLOW_MAPPING_KEY_STATE
  | YAML_PARSE_FLOW_MAPPING_VALUE_STATE
  | YAML_PARSE_FLOW_MAPPING_EMPTY_VALUE_STATE => 1%nat
  | _ => 0%nat
  end.

Definition stack_marks (l : list yaml_parser_state_t) : nat :=
  fold_right (fun s n => (state_marks s + n)%nat) 0%nat l.

(** States entered with the opening token of their collection still peeked. *)
Definition expects_token (s : yaml_parser_state_t) : bool :=
  match s with
  | YAML_PARSE_BLOCK_SEQUENCE_FIRST_ENTRY_STATE
  | YAML_PARSE_BLOCK_MAPPING_FIRST_KEY_STATE
  | YAML_PARSE_FLOW_SEQUENCE_FIRST_ENTRY_STATE
  | YAML_PARSE_FLOW_MAPPING_FIRST_KEY_STATE => true
  | _ => false
  end.

(** Returning to a state on the stack completes a node. *)
Lemma nest_of_return s l fs :
  stack_frames (s :: l) = Some fs -> nest_of s l = Some (node_done fs).
Proof.
  destruct s; cbn; try discriminate; destruct l as [|s' l']; cbn; try discriminate;
    try (intros [= <-]; reflexivity);
    destruct (stack_frames (s' :: l')) as [gs|] eqn:E; cbn in E |- *; rewrite ?E; cbn;
    intros; simplify_eq; reflexivity.
Qed.
End abstraction.

(** ** The invariant *)

Definition peeked (p : yaml_parser_t) : Prop :=
  p.(scanner).(token_available) = true -> p.(scanner).(tokens) <> [].

(** The token in hand is at the head of the queue. *)
Definition at_token (t : yaml_token_t) (p : yaml_parser_t) : Prop :=
  p.(scanner).(token_available) = true /\ exists r, p.(scanner).(tokens) = t :: r.

(** [SKIP_TOKEN] of the last token marks the stream as finished. *)
Definition not_last (t : yaml_token_t) : Prop := t.(token_data) <> YAML_STREAM_END_TOKEN.

Definition handles (l : list yaml_tag_directive_t) : list (list Z) :=
  map (fun d => cstr d.(td_handle)) l.

Definition distinct_handles (l : list yaml_tag_directive_t) : Prop := NoDup (handles l).

(** The tag directives of a document: no handle twice, both defaults there. *)
Definition document_tags (l : list yaml_tag_directive_t) : Prop :=
  distinct_handles l /\ bytes_of "!" ∈ handles l /\ bytes_of "!!" ∈ handles l.

Definition in_document (n : nest) : bool :=
  match n with NDoc _ | NDocDone => true | _ => false end.

Record machine_inv (n : nest) (p : yaml_parser_t) : Prop := {
  inv_nest : nest_of p.(parsing).(state) p.(parsing).(states).(items) = Some n;
  inv_marks : length p.(parsing).(marks).(items) =
              (state_marks p.(parsing).(state) + stack_marks p.(parsing).(states).(items))%nat;
  inv_tags : if in_document n then document_tags (directive_list p)
             else directive_list p = [];
  inv_peeked : peeked p;
  inv_first : expects_token p.(parsing).(state) = true -> exists t, at_token t p /\ not_last t;
  inv_open : n <> NEnd -> p.(scanner).(stream_end_produced) = false
}.

(** Calls a state may still need without taking a token. *)
Definition state_weight (s : yaml_parser_state_t) : Z :=
  match s with
  | YAML_PARSE_END_STATE => 0
  | YAML_PARSE_IMPLICIT_DOCUMENT_START_STATE
  | YAML_PARSE_FLOW_SEQUENCE_ENTRY_MAPPING_KEY_STATE => 5
  | YAML_PARSE_FLOW_SEQUENCE_ENTRY_MAPPING_VALUE_STATE => 3
  | YAML_PARSE_DOCUMENT_CONTENT_STATE
  | YAML_PARSE_DOCUMENT_END_STATE
  | YAML_PARSE_BLOCK_NODE_STATE
  | YAML_PARSE_BLOCK_MAPPING_VALUE_STATE
  | YAML_PARSE_FLOW_MAPPING_VALUE_STATE
  | YAML_PARSE_FLOW_MAPPING_EMPTY_VALUE_STATE
  | YAML_PARSE_FLOW_SEQUENCE_ENTRY_MAPPING_END_STATE => 2
  | _ => 1
  end.

Fixpoint stack_weight (l : list yaml_parser_state_t) : Z :=
  match l with
  | [] => 0
  | s :: r => state_weight s + stack_weight r
  end.

Definition failed (p' : yaml_parser_t) : Prop := p'.(err).(error) <> YAML_NO_ERROR.

(** ** Tag directives *)

(** What [yaml_strdup] keeps of a directive. *)
Definition stored (d : yaml_tag_directive_t) : yaml_tag_directive_t :=
  mkTagDirective (cstr d.(td_handle)) (cstr d.(td_prefix)).

Definition add_default (ds : list yaml_tag_directive_t) (d : yaml_tag_directive_t) :
    list yaml_tag_directive_t :=
  if has_handle d.(td_handle) ds then ds else ds ++ [stored d].

(** The directives of a document that declares [ds]: the defaults come after
    them, unless their handle is redefined. *)
Definition with_defaults (ds : list yaml_tag_directive_t) : list yaml_tag_directive_t :=
  foldl add_default ds default_tag_directives.

Lemma has_handle_true h l : has_handle h l = true <-> cstr h ∈ handles l.
Proof.
  unfold has_handle, handles, strcmp_eq.
  rewrite existsb_exists, list_elem_of_fmap. setoid_rewrite bool_decide_eq_true.
  setoid_rewrite list_elem_of_In. split; intros (d & ? & ?); exists d; auto.
Qed.

Lemma handles_snoc l d : handles (l ++ [stored d]) = handles l ++ [cstr d.(td_handle)].
Proof. unfold handles. rewrite map_app. cbn. by rewrite cstr_idem. Qed.

Lemma distinct_snoc l d :
  distinct_handles l -> has_handle d.(td_handle) l = false -> distinct_handles (l ++ [stored d]).
Proof.
  unfold distinct_handles. intros H Hf. rewrite handles_snoc. apply NoDup_app. split; [done|].
  split; [|apply NoDup_singleton]. intros x Hx ->%list_elem_of_singleton.
  apply has_handle_true in Hx. congruence.
Qed.

Lemma distinct_add_default l d : distinct_handles l -> distinct_handles (add_default l d).
Proof. intros H. unfold add_default. destruct (has_handle _ _) eqn:E; auto using distinct_snoc. Qed.

Lemma in_add_default l d : cstr d.(td_handle) ∈ handles (add_default l d).
Proof.
  unfold add_default. destruct (has_handle _ _) eqn:E; [by apply has_handle_true|].
  rewrite handles_snoc. apply elem_of_app. right. by apply list_elem_of_singleton.
Qed.

Lemma handles_add_default l d h : h ∈ handles l -> h ∈ handles (add_default l d).
Proof.
  unfold add_default. destruct (has_handle _ _); [done|]. intros H.
  rewrite handles_snoc. apply elem_of_app. by left.
Qed.

Lemma with_defaults_tags l : distinct_handles l -> document_tags (with_defaults l).
Proof.
  intros H. unfold with_defaults, default_tag_directives. cbn [foldl].
  split; [by do 2 apply distinct_add_default|]. split.
  - apply handles_add_default.
    exact (in_add_default l (mkTagDirective (bytes_of "!") (bytes_of "!"))).
  - exact (in_add_default _ (mkTagDirective (bytes_of "!!") _)).
Qed.

Lemma resolve_in l d h s :
  distinct_handles l -> d ∈ l -> cstr h = cstr d.(td_handle) -> cstr h <> [] ->
  resolve_tag l h s = Some (cstr d.(td_prefix) ++ cstr s).
Proof.
  intros Hd Hin Hh Hne. unfold resolve_tag. rewrite bool_decide_eq_false_2 by done.
  induction l as [|d' l IH]; [by apply not_elem_of_nil in Hin|]. cbn.
  apply NoDup_cons in Hd as [Hn Hd].
  unfold strcmp_eq at 1. case_bool_decide as Heq.
  - apply elem_of_cons in Hin as [->|Hin]; [done|]. destruct Hn.
    rewrite Heq, Hh. apply list_elem_of_fmap. by exists d.
  - apply elem_of_cons in Hin as [->|Hin]; [congruence|]. by apply IH.
Qed.

Lemma elem_add_default l d d' : d ∈ l -> d ∈ add_default l d'.
Proof. unfold add_default. destruct (has_handle _ _); rewrite ?elem_of_app; auto. Qed.

Lemma stored_add_default l d : cstr d.(td_handle) ∉ handles l -> stored d ∈ add_default l d.
Proof.
  intros H. unfold add_default. destruct (has_handle _ _) eqn:E.
  - by apply has_handle_true in E.
  - rewrite elem_of_app, list_elem_of_singleton. by right.
Qed.

Lemma not_handle_add_default l d h :
  h ∉ handles l -> h <> cstr d.(td_handle) -> h ∉ handles (add_default l d).
Proof.
  intros H1 H2. unfold add_default. destruct (has_handle _ _); [done|].
  rewrite handles_snoc, elem_of_app, list_elem_of_singleton. by intros [?|?].
Qed.

Lemma in_with_defaults l d : d ∈ l -> d ∈ with_defaults l.
Proof. intros H. unfold with_defaults. cbn [foldl default_tag_directives]. by do 2 apply elem_add_default. Qed.

Lemma default_in_with_defaults l d :
  d ∈ default_tag_directives -> cstr d.(td_handle) ∉ handles l -> stored d ∈ with_defaults l.
Proof.
  unfold with_defaults, default_tag_directives. intros Hd Hn. cbn [foldl].
  rewrite !elem_of_cons, elem_of_nil in Hd. destruct Hd as [->|[->|[]]].
  - by apply elem_add_default, stored_add_default.
  - by apply stored_add_default, not_handle_add_default.
Qed.

Lemma peeked_at p t : at_token t p -> peeked p.
Proof. unfold peeked. intros [_ [r ->]]. done. Qed.

Lemma peeked_none p : p.(scanner).(token_available) = false -> peeked p.
Proof. unfold peeked. intros ->. done. Qed.

(** The token in hand has a known type. *)
Ltac token_known := unfold not_last; congruence.

Section steps.
Context (F : faults) `{laws : TokenSourceLaws F}.
Implicit Types (p : yaml_parser_t) (fs : list frame) (l : list yaml_parser_state_t).

Definition tokens_left p : Z := pending p.(reader) p.(scanner).

(** An upper bound on the number of calls that still return an event. *)
Definition budget p : Z :=
  8 * tokens_left p + state_weight p.(parsing).(state)
  + stack_weight p.(parsing).(states).(items).

(** In the middle of a step: [l] is the stack of states, with [m] marks beyond
    theirs; [T] holds of the tag directives; [b] bounds what is left. *)
Record mid_step (e0 : yaml_error_state) l (m : nat) (T : list yaml_tag_directive_t -> Prop)
    (b : Z) p : Prop := {
  mid_states : p.(parsing).(states).(items) = l;
  mid_marks : length p.(parsing).(marks).(items) = (m + stack_marks l)%nat;
  mid_tags : T (directive_list p);
  mid_peeked : peeked p;
  mid_open : p.(scanner).(stream_end_produced) = false;
  mid_err : p.(err) = e0;
  mid_budget : F.(may_timeout) \/ 8 * tokens_left p + stack_weight l <= b;
  mid_source : source_ok p.(reader) p.(scanner)
}.

(** A step from [n] ends with an event the grammar allows, and uses up some
    of the budget [b]. *)
Definition step_post (e0 : yaml_error_state) (n : nest) (b : Z) (ev : yaml_event_t) p' : Prop :=
  (exists n', nest_step n ev.(event_data) = Some n' /\ machine_inv n' p')
  /\ p'.(err) = e0 /\ source_ok p'.(reader) p'.(scanner) /\ (F.(may_timeout) \/ budget p' < b).

(** ** The building blocks of the state functions *)

(** [PEEK_TOKEN] leaves everything but the scanner alone, and the token it
    returns is at the head of the queue. *)
Lemma wp_PEEK_TOKEN p (Q : option yaml_token_t -> yaml_parser_t -> Prop) E :
  peeked p -> source_ok p.(reader) p.(scanner) -> p.(scanner).(stream_end_produced) = false ->
  (forall t p', p'.(parsing) = p.(parsing) -> p'.(err) = p.(err) -> at_token t p' ->
     p'.(scanner).(stream_end_produced) = p.(scanner).(stream_end_produced) ->
     source_ok p'.(reader) p'.(scanner) -> (p.(scanner).(token_available) = true -> p' = p) ->
     F.(may_timeout) \/ tokens_left p' <= tokens_left p -> Q (Some t) p') ->
  (p.(scanner).(token_available) = false -> forall p', failed p' -> Q None p') ->
  wp F PEEK_TOKEN Q E p.
Proof.
  intros Hp Hso Ho HQ HN. unfold PEEK_TOKEN. wp_steps.
  destruct (token_available (scanner p)) eqn:Ha; wp_steps.
  - destruct (tokens (scanner p)) as [|t r] eqn:Et; [by destruct Hp|].
    wp_steps. apply HQ; [done|done|split; eauto|done|done|done|right; lia].
  - eapply wp_mono; [by apply fetch_more_tokens_spec| |]; cbv beta.
    + intros _ p' (H1 & H2 & H3 & H4 & H5 & H6 & H7). wp_steps.
      destruct (tokens (scanner p')) as [|t r] eqn:Et; [done|]. wp_steps.
      apply HQ; [done|done|split; eauto|done..].
    + intros p' H. wp_steps. by apply HN.
Qed.

Lemma mid_same e0 l m T b p p' :
  mid_step e0 l m T b p -> p'.(parsing) = p.(parsing) -> p'.(err) = p.(err) -> peeked p' ->
  p'.(scanner).(stream_end_produced) = p.(scanner).(stream_end_produced) ->
  source_ok p'.(reader) p'.(scanner) -> F.(may_timeout) \/ tokens_left p' <= tokens_left p ->
  mid_step e0 l m T b p'.
Proof.
  intros [] H1 H2 H3 H5 H6 H4. constructor; unfold directive_list; rewrite ?H1, ?H2, ?H5; try done.
  destruct H4, mid_budget0; auto. right. lia.
Qed.

(** Peeking and skipping in the middle of a step. *)
Lemma mid_peek e0 l m T b p (Q : yaml_token_t -> yaml_parser_t -> Prop) :
  mid_step e0 l m T b p ->
  (forall t p', mid_step e0 l m T b p' -> p'.(parsing) = p.(parsing) -> at_token t p' ->
     Q t p') ->
  wp F peek Q failed p.
Proof.
  intros Hm HQ. unfold peek. apply wp_bind, wp_PEEK_TOKEN; [apply Hm..| |].
  - intros t p' H1 H2 H3 H4 H6 _ H5. wp_steps. apply HQ; [|done..].
    eapply mid_same; eauto using peeked_at.
  - intros. by wp_steps.
Qed.

Lemma SKIP_TOKEN_eq t p :
  at_token t p -> SKIP_TOKEN p = Ret tt (set_scanner (skipped p.(scanner)) p).
Proof.
  intros [_ [r Hr]]. unfold SKIP_TOKEN, gets, modify, mbind, prog_bind. rewrite Hr.
  unfold skipped. rewrite Hr. done.
Qed.

Lemma wp_SKIP_TOKEN p t (Q : unit -> yaml_parser_t -> Prop) E :
  at_token t p -> source_ok p.(reader) p.(scanner) -> p.(scanner).(stream_end_produced) = false ->
  (forall p', p'.(parsing) = p.(parsing) -> p'.(err) = p.(err) ->
     p'.(scanner).(token_available) = false -> source_ok p'.(reader) p'.(scanner) ->
     (not_last t -> p'.(scanner).(stream_end_produced) = false) ->
     F.(may_timeout) \/ tokens_left p' < tokens_left p -> Q tt p') ->
  wp F SKIP_TOKEN Q E p.
Proof.
  intros Ht Hso Ho HQ. unfold wp. rewrite (SKIP_TOKEN_eq t p Ht). destruct Ht as [Ha [r Hr]].
  apply HQ; try done; cbn.
  - unfold skipped. by rewrite Hr.
  - apply source_skipped; [done|done|by rewrite Hr].
  - unfold skipped, not_last. rewrite Hr. cbn. by destruct (token_data t).
  - apply pending_skipped; [done|by rewrite Hr|done].
Qed.

Lemma mid_SKIP_TOKEN e0 l m T b p t (Q : unit -> yaml_parser_t -> Prop) E :
  mid_step e0 l m T b p -> at_token t p -> not_last t ->
  (forall p', mid_step e0 l m T (b - 8) p' -> p'.(parsing) = p.(parsing) -> Q tt p') ->
  wp F SKIP_TOKEN Q E p.
Proof.
  intros Hm Ht Hl HQ. eapply wp_SKIP_TOKEN; [done|apply Hm..|]. intros p' H1 H2 H3 H6 H5 H4.
  apply HQ; [|done]. destruct Hm. constructor; unfold directive_list; rewrite ?H1, ?H2; try done.
  - by apply peeked_none.
  - by apply H5.
  - destruct H4, mid_budget0; auto. right. lia.
Qed.

Lemma wp_PUSH {A} sz get set (v : A) p (Q : unit -> yaml_parser_t -> Prop) :
  (forall c, Q tt (set (mkStack (v :: (get p).(items)) c) p)) ->
  wp F (PUSH sz get set v) Q failed p.
Proof.
  intros HQ. unfold PUSH, stack_push. wp_steps.
  destruct (_ =? _); [destruct (yaml_stack_extend _)|]; unfold memory_error; wp_steps; try done.
Qed.

Lemma mid_push_state e0 l m T b p s (Q : unit -> yaml_parser_t -> Prop) :
  mid_step e0 l (state_marks s + m) T b p ->
  (forall p', mid_step e0 (s :: l) m T (b + state_weight s) p' ->
     p'.(scanner) = p.(scanner) -> Q tt p') ->
  wp F (push_state s) Q failed p.
Proof.
  intros [Hl Hm HT Hp Ho He Hb Hso] HQ. apply wp_PUSH. intros c. apply HQ; [|done].
  constructor; cbn; try done; [by rewrite Hl | unfold stack_marks in *; lia |].
  destruct Hb; auto. right. unfold tokens_left in *. cbn. lia.
Qed.

Lemma mid_weaken e0 l m T b b' p : mid_step e0 l m T b p -> b <= b' -> mid_step e0 l m T b' p.
Proof. intros [] H. constructor; try done. destruct mid_budget0; auto. right. lia. Qed.

(** Returning to the state on top of the stack completes a node. *)
Lemma wp_return_to_state e0 s l m b p (Q : unit -> yaml_parser_t -> Prop) E :
  mid_step e0 (s :: l) m document_tags b p ->
  (forall p', p'.(parsing).(state) = s -> mid_step e0 l (m + state_marks s) document_tags
     (b - state_weight s) p' -> p'.(scanner) = p.(scanner) -> Q tt p') ->
  wp F return_to_state Q E p.
Proof.
  intros [Hl Hm HT Hp Ho He Hb Hso] HQ. unfold return_to_state, pop_state, POP. wp_steps.
  rewrite Hl. wp_steps. unfold set_state_to. wp_steps. apply HQ; cbn; try done.
  constructor; cbn; try done; [cbn in Hm; unfold stack_marks; lia|].
  destruct Hb; auto. right. unfold tokens_left in *. cbn in *. lia.
Qed.

Lemma stack_frames_cons s l fs :
  stack_frames (s :: l) = Some fs -> expects_token s = false /\ nest_of s l = Some (node_done fs).
Proof.
  intros H. split; [|by apply nest_of_return].
  destruct s; cbn in H |- *; try done; by destruct l.
Qed.

(** [step_post] at the end of a step, from the middle of it. *)
Lemma step_post_gen e0 n n' l T b b' ev p :
  mid_step e0 l (state_marks p.(parsing).(state)) T b p ->
  nest_of p.(parsing).(state) l = Some n' ->
  (expects_token p.(parsing).(state) = true -> exists t, at_token t p /\ not_last t) ->
  nest_step n ev.(event_data) = Some n' ->
  (T (directive_list p) ->
     if in_document n' then document_tags (directive_list p) else directive_list p = []) ->
  b + state_weight p.(parsing).(state) < b' ->
  step_post e0 n b' ev p.
Proof.
  intros [Hl Hm HT Hp Ho He Hb Hso] Hn Hx Hev Hd Hlt. split; [|split; [done|split; [done|]]].
  - exists n'. split; [done|]. constructor; try done; [by rewrite Hl|by rewrite Hl|by apply Hd].
  - destruct Hb; auto. right. unfold budget. rewrite Hl. lia.
Qed.

Lemma step_post_mid e0 n n' l b b' ev p :
  mid_step e0 l (state_marks p.(parsing).(state)) document_tags b p ->
  nest_of p.(parsing).(state) l = Some n' ->
  (expects_token p.(parsing).(state) = true -> exists t, at_token t p /\ not_last t) ->
  nest_step n ev.(event_data) = Some n' -> in_document n' = true ->
  b + state_weight p.(parsing).(state) < b' ->
  step_post e0 n b' ev p.
Proof. intros Hm Hn Hx Hev Hd. eapply step_post_gen; try done. by rewrite Hd. Qed.

Lemma wp_budget e0 n b b' m p :
  wp F m (step_post e0 n b) failed p -> b <= b' -> wp F m (step_post e0 n b') failed p.
Proof.
  intros H Hb. eapply wp_mono; [done| |done]. intros ev p' (H1 & H2 & H4 & H3).
  do 3 (split; [done|]). destruct H3; auto. right; lia.
Qed.

Lemma in_document_done fs : in_document (node_done fs) = true.
Proof. by destruct fs as [|[]]. Qed.

(** A node's last event: back to the state on the stack, with or without the
    token in hand. *)
Lemma wp_return_keep e0 l fs b p ev n :
  mid_step e0 l 0 document_tags b p -> stack_frames l = Some fs ->
  nest_step n ev.(event_data) = Some (node_done fs) ->
  wp F (return_to_state;; mret ev) (step_post e0 n (b + 1)) failed p.
Proof.
  intros Hm Hf Hev. destruct l as [|s l]; [done|]. wp_step.
  apply stack_frames_cons in Hf as [Hx Hn].
  eapply wp_return_to_state; [done|]. intros p1 H1 H2 H3. wp_steps. subst s.
  eapply step_post_mid; try done; [by rewrite Hx|apply in_document_done|lia].
Qed.

Lemma wp_return_skip e0 l fs b t p ev n :
  mid_step e0 l 0 document_tags b p -> stack_frames l = Some fs -> at_token t p -> not_last t ->
  nest_step n ev.(event_data) = Some (node_done fs) ->
  wp F (return_to_state;; SKIP_TOKEN;; mret ev) (step_post e0 n b) failed p.
Proof.
  intros Hm Hf Ht Hnl Hev. destruct l as [|s l]; [done|]. wp_step.
  apply stack_frames_cons in Hf as [Hx Hn].
  eapply wp_return_to_state; [done|]. intros p1 H1 H2 H3. wp_step.
  assert (at_token t p1) as Ht1 by (unfold at_token; by rewrite H3).
  eapply mid_SKIP_TOKEN; [done..|]. intros p2 G1 G2. wp_steps. rewrite <- G2 in H1. subst s.
  eapply step_post_mid; try done; [by rewrite Hx|apply in_document_done|lia].
Qed.

(** The start of a collection: its first state keeps the opening token. *)
Lemma wp_node_open e0 l fs f b t p s ev n :
  mid_step e0 l 0 document_tags b p -> stack_frames l = Some fs -> at_token t p -> not_last t ->
  nest_step n ev.(event_data) = Some (NDoc (f :: fs)) ->
  state_frames s = Some [f] -> state_marks s = 0%nat -> state_weight s = 1 ->
  wp F (set_state_to s;; mret ev) (step_post e0 n (b + 2)) failed p.
Proof.
  intros Hm Hf Ht Hnl Hev Hs Hk Hw. unfold set_state_to. wp_steps.
  eapply (step_post_mid e0 n (NDoc (f :: fs)) l b); cbn; try done.
  - destruct Hm. constructor; try done. cbn. by rewrite Hk.
  - destruct s; cbn in *; simplify_eq; rewrite ?Hf; try done; by destruct l.
  - intros _. by exists t.
  - rewrite Hw. lia.
Qed.

(** ** Nodes *)

Lemma wp_parser_error_context {A} ctx cm msg m p (Q : A -> yaml_parser_t -> Prop) :
  wp F (yaml_parser_set_parser_error_context ctx cm msg m) Q failed p.
Proof. unfold yaml_parser_set_parser_error_context. by wp_steps. Qed.

Lemma wp_parser_error {A} msg m p (Q : A -> yaml_parser_t -> Prop) :
  wp F (yaml_parser_set_parser_error msg m) Q failed p.
Proof. unfold yaml_parser_set_parser_error. by wp_steps. Qed.

(** An anchor or a tag costs a token. *)
Definition has_properties (props : node_properties) : bool :=
  is_some props.(np_anchor) || is_some props.(np_tag).

Lemma wp_parse_properties e0 l m T b t p (Q : _ -> yaml_parser_t -> Prop) :
  mid_step e0 l m T b p -> at_token t p ->
  (forall props t' p', mid_step e0 l m T (if has_properties props then b - 8 else b) p' ->
     at_token t' p' -> Q (props, t') p') ->
  wp F (parse_properties t) Q failed p.
Proof.
  intros Hm Ht HQ. unfold parse_properties.
  destruct (token_data t) eqn:?; wp_steps; try (by apply HQ);
    (eapply mid_SKIP_TOKEN; [done|done|token_known|]; intros p1 H1 _; wp_step;
     eapply mid_peek; [done|]; intros t1 p2 H2 _ Ht1;
     destruct (token_data t1) eqn:?; wp_steps; try (by apply HQ);
     eapply mid_SKIP_TOKEN; [done|done|token_known|]; intros p3 H3 _; wp_step;
     eapply mid_peek; [done|]; intros t2 p4 H4 _ Ht2;
     wp_steps; apply HQ; [cbn; eapply mid_weaken; [done|lia]|done]).
Qed.

Lemma wp_parse_tag props p (Q : option (list Z) -> yaml_parser_t -> Prop) :
  (forall tag, (is_some tag = is_some props.(np_tag)) -> Q tag p) ->
  wp F (parse_tag props) Q failed p.
Proof.
  intros HQ. unfold parse_tag. destruct (np_tag props) as [[h s]|]; wp_steps; [|by apply HQ].
  destruct (resolve_tag _ _ _); wp_steps; [by apply HQ|apply wp_parser_error_context].
Qed.

Lemma wp_parse_content e0 l fs b block indentless props tag t p n :
  mid_step e0 l 0 document_tags (if has_properties props then b - 8 else b) p ->
  stack_frames l = Some fs -> at_token t p -> is_some tag = is_some props.(np_tag) -> n = NDoc fs ->
  wp F (parse_content block indentless props tag t) (step_post e0 n (b + 2)) failed p.
Proof.
  intros Hm Hf Ht Htag ->.
  assert (mid_step e0 l 0 document_tags b p) as Hm'.
  { eapply mid_weaken; [done|]. destruct (has_properties _); lia. }
  assert (mid_step e0 l 0 document_tags (b + 2) p) as Hm2 by (eapply mid_weaken; [done|lia]).
  unfold parse_content.
  destruct (token_data t) eqn:?, indentless, block;
    first [ eapply wp_return_skip; [done..|token_known|done]
          | eapply wp_node_open; [done..|token_known|reflexivity|reflexivity|reflexivity|reflexivity]
          | idtac ].
  all: rewrite Htag; fold (has_properties props); destruct (has_properties props);
    [|apply wp_parser_error_context].
  all: apply (wp_budget e0 (NDoc fs) (b - 8 + 1)); [|lia]; by eapply wp_return_keep.
Qed.

Lemma wp_parse_node e0 l fs b block indentless p :
  mid_step e0 l 0 document_tags b p -> stack_frames l = Some fs ->
  wp F (yaml_parser_parse_node block indentless) (step_post e0 (NDoc fs) (b + 2)) failed p.
Proof.
  intros Hm Hf. unfold yaml_parser_parse_node. wp_step. eapply mid_peek; [done|].
  intros t p1 Hm1 _ Ht.
  destruct (token_data t) eqn:Et;
    try (apply (wp_budget e0 (NDoc fs) b); [eapply wp_return_skip; [done..|token_known|done]|lia]).
  all: wp_step; eapply wp_parse_properties; [done..|]; intros props t' p2 Hm2 Ht2;
    wp_step; apply wp_parse_tag; intros tag Htag; by eapply wp_parse_content.
Qed.

Lemma stack_frames_push s f l fs :
  cont_frames s = Some f -> stack_frames l = Some fs -> stack_frames (s :: l) = Some (f ++ fs).
Proof. intros H1 H2. destruct s; try done; cbn; destruct l; by simplify_option_eq. Qed.

(** A node that returns to the continuation [s]. *)
Lemma wp_parse_node_then e0 l fs s f b block indentless p :
  mid_step e0 l (state_marks s) document_tags b p -> stack_frames l = Some fs ->
  cont_frames s = Some f ->
  wp F (parse_node_then s block indentless)
    (step_post e0 (NDoc (f ++ fs)) (b + state_weight s + 2)) failed p.
Proof.
  intros Hm Hf Hs. unfold parse_node_then. wp_step.
  eapply mid_push_state; [by rewrite Nat.add_0_r|]. intros p1 H1 _.
  eapply wp_parse_node; [done|]. by apply stack_frames_push.
Qed.

Lemma wp_empty_scalar_then e0 l fs s f b m p :
  mid_step e0 l (state_marks s) document_tags b p -> stack_frames l = Some fs ->
  cont_frames s = Some f ->
  wp F (empty_scalar_then s m)
    (step_post e0 (NDoc (f ++ fs)) (b + state_weight s + 1)) failed p.
Proof.
  intros Hm Hf Hs. pose proof (stack_frames_push s f l fs Hs Hf) as Hf'.
  apply stack_frames_cons in Hf' as [Hx Hn].
  unfold empty_scalar_then, set_state_to, yaml_parser_process_empty_scalar. wp_steps.
  eapply (step_post_mid e0 _ (node_done (f ++ fs)) l b); try done; cbn.
  - destruct Hm. by constructor.
  - by rewrite Hx.
  - apply in_document_done.
  - lia.
Qed.

Lemma mid_pop_mark e0 l m T b p (Q : yaml_mark_t -> yaml_parser_t -> Prop) E :
  mid_step e0 l (S m) T b p ->
  (forall x p', mid_step e0 l m T b p' -> p'.(parsing).(state) = p.(parsing).(state) ->
     p'.(scanner) = p.(scanner) -> Q x p') ->
  wp F pop_mark Q E p.
Proof.
  intros [Hl Hm HT Hp Ho He Hb Hso] HQ. unfold pop_mark, POP. wp_steps.
  destruct (items (marks (parsing p))) as [|x r] eqn:Er; [done|]. wp_steps.
  apply HQ; [|done..]. constructor; cbn; try done. cbn in Hm. lia.
Qed.

Lemma wp_close_collection e0 l fs f b ev t p :
  mid_step e0 l 1 document_tags b p -> stack_frames l = Some fs -> at_token t p -> not_last t ->
  nest_step (NDoc (f ++ fs)) ev = Some (node_done fs) ->
  wp F (close_collection ev t) (step_post e0 (NDoc (f ++ fs)) b) failed p.
Proof.
  intros Hm Hf Ht Hnl Hev. destruct l as [|s l]; [done|]. unfold close_collection. wp_step.
  apply stack_frames_cons in Hf as [Hx Hn].
  eapply wp_return_to_state; [done|]. intros p1 H1 H2 H3. wp_step.
  eapply mid_pop_mark; [done|]. intros x p2 G1 G2 G3. wp_step.
  assert (at_token t p2) as Ht2 by (unfold at_token; by rewrite G3, H3).
  eapply mid_SKIP_TOKEN; [done..|]. intros p3 K1 K2. wp_steps.
  rewrite <- K2, H1 in G2. rewrite <- G2 in *.
  eapply step_post_mid; try done; [by rewrite Hx|apply in_document_done|lia].
Qed.

Lemma wp_collection_error {A} e0 l m T b ctx msg t p (Q : A -> yaml_parser_t -> Prop) :
  mid_step e0 l (S m) T b p ->
  wp F (collection_error ctx msg t) Q failed p.
Proof.
  intros Hm. unfold collection_error. wp_step. eapply mid_pop_mark; [done|]. intros. apply wp_parser_error_context.
Qed.

(** ** The state functions of collections *)

Lemma mid_open_collection e0 l T b (first : bool) p (Q : unit -> yaml_parser_t -> Prop) :
  mid_step e0 l (if first then 0 else 1)%nat T b p ->
  (first = true -> exists t, at_token t p /\ not_last t) ->
  (forall p', mid_step e0 l 1 T (if first then b - 8 else b) p' -> Q tt p') ->
  wp F (open_collection first) Q failed p.
Proof.
  intros Hm Ha HQ. destruct first; cbn [open_collection]; [|wp_steps; by apply HQ].
  wp_step. apply wp_PEEK_TOKEN; [apply Hm..| |].
  2:{ destruct (Ha eq_refl) as (t & [Ht _] & _). by rewrite Ht. }
  intros t p1 H1 H2 H3 H4 H6 Heq H5.
  assert (not_last t) as Hnl.
  { destruct (Ha eq_refl) as (t' & [Ht [r Hr]] & Hnl). rewrite (Heq Ht) in H3.
    destruct H3 as [_ [r' Hr']]. congruence. } cbn [deref]. wp_steps.
  assert (mid_step e0 l 0 T b p1) as [] by eauto using mid_same, peeked_at.
  apply wp_PUSH. intros c. eapply (mid_SKIP_TOKEN e0 l 1 T b); [|exact H3|done|].
  - constructor; cbn; try done. lia.
  - intros p2 G _. by apply HQ.
Qed.

End steps.

(** One step inside the function of a state: a peek, a skip, the separator. *)
Ltac mid_next :=
  cbv beta zeta;
  match goal with
  | |- wp _ (peek ≫= _) _ _ _ =>
      wp_step; eapply mid_peek; [done|];
      let t := fresh "t" in let p := fresh "p" in intros t p ? _ ?
  | |- wp _ (SKIP_TOKEN ≫= _) _ _ _ =>
      wp_step; eapply mid_SKIP_TOKEN; [done|done|token_known|];
      let p := fresh "p" in intros p ? _
  end.

(** The ends of a state function: a node, an empty scalar, the end of the
    collection, or an error. *)
Ltac mid_finish :=
  first
    [ by eapply wp_collection_error
    | eapply wp_budget;
      [ first
          [ eapply (wp_parse_node_then _ _ _ _ _ [_]); [done|done|reflexivity]
          | eapply (wp_empty_scalar_then _ _ _ _ _ [_]); [done|done|reflexivity]
          | eapply (wp_parse_node_then _ _ _ _ _ [_; _]); [done|done|reflexivity]
          | eapply (wp_empty_scalar_then _ _ _ _ _ [_; _]); [done|done|reflexivity]
          | eapply (wp_close_collection _ _ _ _ [_]); [done|done|done|token_known|reflexivity]
          | by eapply wp_return_keep ]
      | cbn [state_weight]; lia ] ].

Section collections.
Context (F : faults) `{laws : TokenSourceLaws F}.
Implicit Types (p : yaml_parser_t) (fs : list frame) (l : list yaml_parser_state_t).
#[local] Abbreviation mid_step := (mid_step F).
#[local] Abbreviation step_post := (step_post F).

Lemma wp_block_sequence_entry e0 l fs b (first : bool) p :
  mid_step e0 l (if first then 0 else 1)%nat document_tags b p -> stack_frames l = Some fs ->
  (first = true -> exists t, at_token t p /\ not_last t) ->
  wp F (yaml_parser_parse_block_sequence_entry first)
    (step_post e0 (NDoc (FSeq :: fs)) (b + 1)) failed p.
Proof.
  intros Hm Hf Ha. unfold yaml_parser_parse_block_sequence_entry. wp_step.
  eapply mid_open_collection; [done..|]. intros p1 H1.
  apply (mid_weaken _ _ _ _ _ _ b) in H1; [|destruct first; lia]. mid_next.
  destruct (token_data t) eqn:?; try mid_finish.
  mid_next. mid_next. destruct (token_data t0) eqn:?; mid_finish.
Qed.
Lemma wp_indentless_sequence_entry e0 l fs b p :
  mid_step e0 l 0 document_tags b p -> stack_frames l = Some fs ->
  wp F yaml_parser_parse_indentless_sequence_entry
    (step_post e0 (NDoc (FSeq :: fs)) (b + 1)) failed p.
Proof.
  intros Hm Hf. unfold yaml_parser_parse_indentless_sequence_entry. mid_next.
  destruct (token_data t) eqn:?; try mid_finish.
  mid_next. mid_next. destruct (token_data t0) eqn:?; mid_finish.
Qed.

Lemma wp_block_mapping_key e0 l fs b (first : bool) p :
  mid_step e0 l (if first then 0 else 1)%nat document_tags b p -> stack_frames l = Some fs ->
  (first = true -> exists t, at_token t p /\ not_last t) ->
  wp F (yaml_parser_parse_block_mapping_key first)
    (step_post e0 (NDoc (FKey :: fs)) (b + 1)) failed p.
Proof.
  intros Hm Hf Ha. unfold yaml_parser_parse_block_mapping_key. wp_step.
  eapply mid_open_collection; [done..|]. intros p1 H1.
  apply (mid_weaken _ _ _ _ _ _ b) in H1; [|destruct first; lia]. mid_next.
  destruct (token_data t) eqn:?; try mid_finish.
  mid_next. mid_next. destruct (token_data t0) eqn:?; mid_finish.
Qed.

Lemma wp_block_mapping_value e0 l fs b p :
  mid_step e0 l 1 document_tags b p -> stack_frames l = Some fs ->
  wp F yaml_parser_parse_block_mapping_value
    (step_post e0 (NDoc (FVal :: fs)) (b + 2)) failed p.
Proof.
  intros Hm Hf. unfold yaml_parser_parse_block_mapping_value. mid_next.
  destruct (token_data t) eqn:?; try mid_finish.
  mid_next. mid_next. destruct (token_data t0) eqn:?; mid_finish.
Qed.

(** The opening token or the comma: either way a token is taken. *)
Lemma mid_flow_separator e0 l T b (first : bool) ctx msg t p (Q : yaml_token_t -> yaml_parser_t -> Prop) :
  mid_step e0 l 1 T (if first then b - 8 else b) p -> at_token t p ->
  (forall t' p', mid_step e0 l 1 T (b - 8) p' -> at_token t' p' -> Q t' p') ->
  wp F (flow_separator first ctx msg t) Q failed p.
Proof.
  intros Hm Ht HQ. unfold flow_separator. destruct first; [wp_steps; by apply HQ|].
  destruct (token_data t) eqn:?; try by eapply wp_collection_error.
  wp_step. eapply mid_SKIP_TOKEN; [done|done|token_known|]. intros p1 H1 _.
  eapply mid_peek; [done|]. intros t' p2 H2 _ Ht2. by apply HQ.
Qed.

Lemma wp_flow_sequence_entry e0 l fs b (first : bool) p :
  mid_step e0 l (if first then 0 else 1)%nat document_tags b p -> stack_frames l = Some fs ->
  (first = true -> exists t, at_token t p /\ not_last t) ->
  wp F (yaml_parser_parse_flow_sequence_entry first)
    (step_post e0 (NDoc (FSeq :: fs)) (b + 1)) failed p.
Proof.
  intros Hm Hf Ha. unfold yaml_parser_parse_flow_sequence_entry. wp_step.
  eapply mid_open_collection; [done..|]. intros p1 H1. mid_next.
  assert (mid_step e0 l 1 document_tags b p0) by (eapply mid_weaken; [done|destruct first; lia]).
  destruct (token_data t) eqn:?; try mid_finish;
    (wp_step; eapply mid_flow_separator; [done..|]; intros t' p2 Hm2 Ht2;
     destruct (token_data t') eqn:?; try mid_finish; unfold set_state_to; wp_steps;
     (eapply (mid_SKIP_TOKEN F e0 l 1 document_tags (b - 8)); [destruct Hm2; by constructor|exact Ht2|token_known|]);
     intros p3 Hm3 Hp3; wp_steps;
     (eapply (step_post_mid _ _ _ (NDoc (FKey :: FSeq :: fs)) l (b - 8 - 8));
        rewrite ?Hp3; cbn; try done; [by rewrite Hf|lia])).
Qed.

Lemma wp_flow_sequence_entry_mapping_key e0 l fs b p :
  mid_step e0 l 1 document_tags b p -> stack_frames l = Some fs ->
  wp F yaml_parser_parse_flow_sequence_entry_mapping_key
    (step_post e0 (NDoc (FKey :: FSeq :: fs)) (b + 5)) failed p.
Proof.
  intros Hm Hf. unfold yaml_parser_parse_flow_sequence_entry_mapping_key. mid_next.
  destruct (token_data t) eqn:?; try mid_finish; mid_next; mid_finish.
Qed.

Lemma wp_flow_sequence_entry_mapping_value e0 l fs b p :
  mid_step e0 l 1 document_tags b p -> stack_frames l = Some fs ->
  wp F yaml_parser_parse_flow_sequence_entry_mapping_value
    (step_post e0 (NDoc (FVal :: FSeq :: fs)) (b + 3)) failed p.
Proof.
  intros Hm Hf. unfold yaml_parser_parse_flow_sequence_entry_mapping_value. mid_next.
  destruct (token_data t) eqn:?; try mid_finish.
  mid_next. mid_next. destruct (token_data t0) eqn:?; mid_finish.
Qed.

Lemma wp_flow_sequence_entry_mapping_end e0 l fs b p :
  mid_step e0 l 1 document_tags b p -> stack_frames l = Some fs ->
  wp F yaml_parser_parse_flow_sequence_entry_mapping_end
    (step_post e0 (NDoc (FKey :: FSeq :: fs)) (b + 2)) failed p.
Proof.
  intros Hm Hf. unfold yaml_parser_parse_flow_sequence_entry_mapping_end. mid_next.
  unfold set_state_to. wp_steps.
  eapply (step_post_mid _ _ _ (NDoc (FSeq :: fs)) l b); cbn; try done; [|by rewrite Hf|lia].
  destruct H. by constructor.
Qed.

Lemma wp_flow_mapping_key e0 l fs b (first : bool) p :
  mid_step e0 l (if first then 0 else 1)%nat document_tags b p -> stack_frames l = Some fs ->
  (first = true -> exists t, at_token t p /\ not_last t) ->
  wp F (yaml_parser_parse_flow_mapping_key first)
    (step_post e0 (NDoc (FKey :: fs)) (b + 1)) failed p.
Proof.
  intros Hm Hf Ha. unfold yaml_parser_parse_flow_mapping_key. wp_step.
  eapply mid_open_collection; [done..|]. intros p1 H1. mid_next.
  assert (mid_step e0 l 1 document_tags b p0) by (eapply mid_weaken; [done|destruct first; lia]).
  destruct (token_data t) eqn:?; try mid_finish;
    (wp_step; eapply mid_flow_separator; [done..|]; intros t' p2 Hm2 Ht2;
     destruct (token_data t') eqn:?; try mid_finish;
     mid_next; mid_next; destruct (token_data t0) eqn:?; mid_finish).
Qed.

Lemma wp_flow_mapping_value e0 l fs b empty p :
  mid_step e0 l 1 document_tags b p -> stack_frames l = Some fs ->
  wp F (yaml_parser_parse_flow_mapping_value empty)
    (step_post e0 (NDoc (FVal :: fs)) (b + 2)) failed p.
Proof.
  intros Hm Hf. unfold yaml_parser_parse_flow_mapping_value. mid_next.
  destruct empty; [mid_finish|]. destruct (token_data t) eqn:?; try mid_finish.
  mid_next. mid_next. destruct (token_data t0) eqn:?; mid_finish.
Qed.

End collections.
