(* ===== verification/YamlRefinement.v ===== *)
(** * libyaml: the state machine of [parser.c] refines the grammar of events

    The states of the stream and of its documents, and the theorems on
    [yaml_parser_parse]: each event is a move of the grammar of [YamlEvents],
    the machine neither follows a NULL token nor pops an empty stack, the
    number of events is bounded by the number of tokens, and a finished or
    failed parser stays so. *)

From Stdlib Require Import ZArith Lia Ascii String.
From stdpp Require Import base list option strings.
From S2P Require Import Prelude YamlData YamlParser YamlEvents.

#[local] Open Scope Z_scope.

Section documents.
Context (F : faults) `{laws : TokenSourceLaws F}.
Implicit Types (p : yaml_parser_t) (fs : list frame) (l : list yaml_parser_state_t).
#[local] Abbreviation mid_step := (mid_step F).
#[local] Abbreviation step_post := (step_post F).
#[local] Abbreviation tokens_left := (tokens_left F).

Lemma mid_append_tag_directive e0 l m ds b d dup mk p (Q : unit -> yaml_parser_t -> Prop) :
  mid_step e0 l m (eq ds) b p ->
  (has_handle d.(td_handle) ds = true -> dup = true -> Q tt p) ->
  (has_handle d.(td_handle) ds = false -> forall p', p'.(scanner) = p.(scanner) ->
     p'.(reader) = p.(reader) -> mid_step e0 l m (eq (ds ++ [stored d])) b p' -> Q tt p') ->
  wp F (yaml_parser_append_tag_directive d dup mk) Q failed p.
Proof.
  intros [Hl Hm HT Hp Ho He Hb Hso] H1 H2. unfold yaml_parser_append_tag_directive. wp_steps.
  rewrite <- HT. destruct (has_handle _ _) eqn:Eh.
  - destruct dup; [wp_steps; by apply H1|apply wp_parser_error].
  - apply wp_PUSH. intros c. apply H2; try done. constructor; try done.
    unfold directive_list. cbn. by rewrite HT.
Qed.

Lemma mid_append_defaults e0 l m defs ds b mk p (Q : unit -> yaml_parser_t -> Prop) :
  mid_step e0 l m (eq ds) b p ->
  (forall p', mid_step e0 l m (eq (foldl add_default ds defs)) b p' -> Q tt p') ->
  wp F (append_defaults defs mk) Q failed p.
Proof.
  revert ds p. induction defs as [|d defs IH]; intros ds p Hm HQ; cbn [append_defaults];
    [wp_steps; by apply HQ|].
  wp_step. eapply mid_append_tag_directive; [done| |].
  - intros Hh _. eapply IH; [done|]. cbn in HQ. unfold add_default in HQ. by rewrite Hh in HQ.
  - intros Hh p1 _ _ H1. eapply IH; [done|]. cbn in HQ. unfold add_default in HQ.
    by rewrite Hh in HQ.
Qed.

(** The budget of an empty stack of states is that of the tokens. *)
Lemma mid_tight e0 m T b p :
  mid_step e0 [] m T b p -> mid_step e0 [] m T (Z.min b (8 * tokens_left p)) p.
Proof.
  intros [Hl Hm HT Hp Ho He Hb Hso]. constructor; try done. destruct Hb; auto. right.
  cbn [stack_weight] in *. lia.
Qed.

Lemma mid_variant e0 m T x p p' :
  mid_step e0 [] m T (x - 8) p' -> x <= 8 * tokens_left p ->
  F.(may_timeout) \/ (Z.to_nat (tokens_left p') < Z.to_nat (tokens_left p))%nat.
Proof.
  intros [_ _ _ _ _ _ [H|H] _] Hx; [by left|right]. cbn [stack_weight] in H.
  assert (0 <= tokens_left p') by apply pending_nonneg.
  assert (0 <= tokens_left p) by apply pending_nonneg. lia.
Qed.

Definition enough_fuel (fuel : nat) p : Prop :=
  F.(may_timeout) \/ tokens_left p < Z.of_nat fuel.

Lemma fuel_variant fuel p :
  enough_fuel fuel p -> F.(may_timeout) \/ (Z.to_nat (tokens_left p) < fuel)%nat.
Proof.
  intros [H|H]; [by left|right]. assert (0 <= tokens_left p) by apply pending_nonneg. lia.
Qed.

Lemma enough_fuel_mid e0 m T b fuel p p' :
  mid_step e0 [] m T (Z.min b (8 * tokens_left p)) p' -> enough_fuel fuel p -> enough_fuel fuel p'.
Proof.
  intros [_ _ _ _ _ _ [|Hb] _] [|Hf]; [by left..|right]. cbn [stack_weight] in Hb. lia.
Qed.

Lemma mid_skip_document_ends e0 m T b fuel t p (Q : yaml_token_t -> yaml_parser_t -> Prop) :
  mid_step e0 [] m T b p -> at_token t p -> enough_fuel fuel p ->
  (forall t' p', mid_step e0 [] m T b p' -> at_token t' p' -> enough_fuel fuel p' -> Q t' p') ->
  wp F (skip_document_ends fuel t) Q failed p.
Proof.
  intros Hm Ht Hf HQ. unfold skip_document_ends.
  eapply (wp_loop F (fun t p => mid_step e0 [] m T b p /\ at_token t p /\ enough_fuel fuel p)
            (fun _ p => Z.to_nat (tokens_left p))); [|done|by apply fuel_variant].
  clear p t Hm Ht Hf. intros t p (Hm & Ht & Hf).
  destruct (token_data t) eqn:?; wp_steps; try (by apply HQ).
  apply mid_tight in Hm. eapply mid_SKIP_TOKEN; [done|done|first [done|token_known]|]. intros p1 Hm1 _. wp_step.
  eapply mid_peek; [done|]. intros t2 p2 Hm2 _ Ht2. wp_steps.
  assert (F.(may_timeout) \/ (Z.to_nat (tokens_left p2) < Z.to_nat (tokens_left p))%nat) as Hv
    by (eapply mid_variant; [done|lia]).
  split; [|done]. split; [eapply mid_weaken; [done|lia]|]. split; [done|].
  destruct Hv, Hf; [by left..|right; lia].
Qed.

(** The loop over the directives: the table holds the directives read so far,
    no handle twice. *)
Definition directives_so_far e0 b (fuel : nat) (tags : list yaml_tag_directive_t)
    (t : yaml_token_t) p : Prop :=
  distinct_handles (map stored tags)
  /\ mid_step e0 [] 0 (eq (map stored tags)) b p /\ at_token t p /\ enough_fuel fuel p.

(** A directive has been processed: on to the next token. *)
Lemma next_directive {R} e0 b fuel t p (version : option yaml_version_directive_t) tags
    (Q : (option yaml_version_directive_t * list yaml_tag_directive_t * yaml_token_t) + R ->
         yaml_parser_t -> Prop) :
  directives_so_far e0 b fuel tags t p -> not_last t ->
  (forall t' p', directives_so_far e0 b fuel tags t' p' ->
     F.(may_timeout) \/ (Z.to_nat (tokens_left p') < Z.to_nat (tokens_left p))%nat ->
     Q (inl (version, tags, t')) p') ->
  wp F (SKIP_TOKEN;; token ← peek; mret (inl (version, tags, token))) Q failed p.
Proof.
  intros (Hd & Hm & Ht & Hf) Hnl HQ. wp_step. apply mid_tight in Hm.
  eapply mid_SKIP_TOKEN; [done|done|first [done|token_known]|]. intros p1 Hm1 _. wp_step.
  eapply mid_peek; [done|]. intros t2 p2 Hm2 _ Ht2. wp_steps.
  assert (F.(may_timeout) \/ (Z.to_nat (tokens_left p2) < Z.to_nat (tokens_left p))%nat) as Hv
    by (eapply mid_variant; [done|lia]).
  apply HQ; [|done]. split; [done|]. split; [eapply mid_weaken; [done|lia]|]. split; [done|].
  destruct Hv, Hf; [by left..|right; lia].
Qed.

Lemma wp_process_directive_tokens e0 b fuel t p
    (Q : option yaml_version_directive_t * list yaml_tag_directive_t * yaml_token_t -> _ -> Prop) :
  mid_step e0 [] 0 (eq []) b p -> at_token t p -> enough_fuel fuel p ->
  (forall v tags t' p', directives_so_far e0 b fuel tags t' p' -> Q (v, tags, t') p') ->
  wp F (process_directive_tokens fuel t) Q failed p.
Proof.
  intros Hm Ht Hf HQ. unfold process_directive_tokens.
  eapply (wp_loop F (fun x p => directives_so_far e0 b fuel x.1.2 x.2 p)
            (fun _ p => Z.to_nat (tokens_left p))); [| |by apply fuel_variant].
  2:{ split; [by apply NoDup_nil|done]. }
  clear p t Hm Ht Hf. intros [[v tags] t] p (Hd & Hm & Ht & Hf). cbn [fst snd] in *.
  destruct (token_data t) as [| | |maj min|h pre| | | | | | | | | | | | | | | | | ] eqn:?;
    wp_steps; try (by apply HQ).
  - destruct (bool_decide _); [apply wp_parser_error|]. destruct (_ || _); [apply wp_parser_error|].
    eapply next_directive; [done|token_known|done].
  - eapply mid_append_tag_directive; [done|done|]. intros Hh p1 Hs1 Hr1 Hm1. cbn in Hh.
    assert (tokens_left p1 = tokens_left p) as Htl
      by (unfold YamlEvents.tokens_left; by rewrite Hs1, Hr1).
    eapply (next_directive _ _ _ t); [|token_known|by rewrite Htl].
    split; [rewrite map_app; by apply distinct_snoc|].
    split; [by rewrite map_app|]. unfold at_token, enough_fuel. by rewrite Hs1, Htl.
Qed.

Lemma wp_process_directives e0 b fuel p
    (Q : option yaml_version_directive_t * list yaml_tag_directive_t -> _ -> Prop) :
  mid_step e0 [] 0 (eq []) b p -> enough_fuel fuel p ->
  (forall v tags p', distinct_handles (map stored tags) ->
     mid_step e0 [] 0 (eq (with_defaults (map stored tags))) b p' -> Q (v, tags) p') ->
  wp F (yaml_parser_process_directives fuel) Q failed p.
Proof.
  intros Hm Hf HQ. unfold yaml_parser_process_directives. wp_step. apply mid_tight in Hm.
  eapply mid_peek; [done|]. intros t p1 Hm1 _ Ht. wp_step.
  assert (enough_fuel fuel p1) as Hf1 by by eapply enough_fuel_mid.
  eapply (wp_process_directive_tokens e0 b); [eapply mid_weaken; [done|lia]|done..|].
  intros v tags t' p2 (Hd & Hm2 & Ht2 & _). wp_step.
  eapply mid_append_defaults; [done|]. intros p3 Hm3. wp_steps. by apply HQ.
Qed.

(** ** The states of the stream and of its documents *)

Lemma mid_set_state e0 l m T b p s : mid_step e0 l m T b p -> mid_step e0 l m T b (set_state s p).
Proof. intros []. by constructor. Qed.

Lemma wp_stream_start e0 b p :
  mid_step e0 [] 0 (eq []) b p ->
  wp F yaml_parser_parse_stream_start (step_post e0 NStart (b + 1)) failed p.
Proof.
  intros Hm. unfold yaml_parser_parse_stream_start. mid_next.
  destruct (token_data t) eqn:?; try apply wp_parser_error.
  unfold set_state_to. wp_steps.
  eapply mid_SKIP_TOKEN; [by apply mid_set_state|done|token_known|]. intros p1 Hm1 Hp1. wp_steps.
  eapply (step_post_gen _ _ _ NStream); rewrite ?Hp1; cbn; try done. lia.
Qed.

(** The start of a document: its end is on the stack, its root comes next. *)
Lemma wp_document_open e0 b b' tags p s ev :
  mid_step e0 [YAML_PARSE_DOCUMENT_END_STATE] 0 (eq (with_defaults tags)) b p ->
  distinct_handles tags -> p.(parsing).(state) = s ->
  nest_step NStream ev.(event_data) = Some (NDoc []) ->
  s = YAML_PARSE_BLOCK_NODE_STATE \/ s = YAML_PARSE_DOCUMENT_CONTENT_STATE ->
  b + 2 < b' -> step_post e0 NStream b' ev p.
Proof.
  intros Hm Hd Hs Hev Hor Hb.
  assert (mid_step e0 [YAML_PARSE_DOCUMENT_END_STATE] 0 document_tags b p) as Hm'.
  { destruct Hm as [? ? HT ? ? ? ? ?]. constructor; try done. rewrite <- HT.
    by apply with_defaults_tags. }
  eapply step_post_mid; rewrite ?Hs; try done; destruct Hor as [-> | ->]; cbn; done || lia.
Qed.

Lemma wp_start_implicit_document e0 b fuel t p :
  mid_step e0 [] 0 (eq []) b p -> enough_fuel fuel p ->
  wp F (start_implicit_document fuel t) (step_post e0 NStream (b + 5)) failed p.
Proof.
  intros Hm Hf. unfold start_implicit_document. wp_step.
  eapply wp_process_directives; [done..|]. intros v tags p1 Hd Hm1. wp_step.
  eapply (mid_push_state F e0 [] 0); [done|]. intros p2 Hm2 _. unfold set_state_to. wp_steps.
  eapply wp_document_open; [by apply mid_set_state|done|reflexivity|done|by left|]. cbn. lia.
Qed.

Lemma wp_start_explicit_document e0 b fuel t p :
  mid_step e0 [] 0 (eq []) b p -> enough_fuel fuel p ->
  wp F (start_explicit_document fuel t) (step_post e0 NStream (b + 1)) failed p.
Proof.
  intros Hm Hf. unfold start_explicit_document. cbv zeta. wp_step.
  eapply wp_process_directives; [done..|]. intros v tags p1 Hd Hm1. mid_next.
  destruct (token_data t0) eqn:?; try apply wp_parser_error.
  wp_step. eapply (mid_push_state F e0 [] 0); [done|]. intros p2 Hm2 Hs2. wp_step.
  unfold set_state_to. wp_steps.
  eapply (mid_SKIP_TOKEN F e0 _ _ _ _ _ t0); [by apply mid_set_state| | |].
  { unfold at_token. cbn. by rewrite Hs2. }
  { token_known. }
  intros p3 Hm3 Hp3. wp_steps.
  eapply wp_document_open; rewrite ?Hp3; [done|done|reflexivity|done|by right|]. cbn. lia.
Qed.

Lemma wp_end_stream e0 b t p :
  mid_step e0 [] 0 (eq []) b p -> at_token t p ->
  wp F (end_stream t) (step_post e0 NStream (b + 1)) failed p.
Proof.
  intros Hm Ht. unfold end_stream, set_state_to. wp_steps.
  eapply wp_SKIP_TOKEN; [exact Ht|apply Hm..|]. intros p1 H1 H2 H3 H5 _ H4. wp_steps.
  destruct Hm as [Hl Hm HT Hp Ho He Hb Hso]. split; [|split; [by rewrite H2|split; [done|]]].
  - exists NEnd. split; [done|]. constructor; unfold directive_list; rewrite ?H1; cbn; try done.
    + by rewrite Hl.
    + by rewrite Hm, Hl.
    + by apply peeked_none.
  - destruct H4 as [|H4], Hb as [|Hb]; [by left..|right]. unfold budget. rewrite H1. cbn.
    rewrite Hl. cbn in *. unfold YamlEvents.tokens_left in *. cbn in *. lia.
Qed.

Lemma wp_document_start e0 b fuel implicit p :
  mid_step e0 [] 0 (eq []) b p -> enough_fuel fuel p ->
  wp F (yaml_parser_parse_document_start fuel implicit)
    (step_post e0 NStream (b + (if implicit then 5 else 1))) failed p.
Proof.
  intros Hm Hf. unfold yaml_parser_parse_document_start. apply mid_tight in Hm. mid_next.
  rename H into Hm1, H0 into Ht.
  assert (enough_fuel fuel p0) as Hf1 by by eapply enough_fuel_mid.
  apply (mid_weaken _ _ _ _ _ _ b) in Hm1; [|lia]. wp_step.
  apply (wp_mono _ _ (fun t' p' => mid_step e0 [] 0 (eq []) b p' /\ at_token t' p'
                                  /\ enough_fuel fuel p') _ failed); [| |done].
  { destruct implicit; [by wp_steps|]. by eapply mid_skip_document_ends. }
  intros t1 p1 (Hm2 & Ht2 & Hf2). destruct (implicit && _) eqn:Hi.
  - destruct implicit; [|done]. by apply wp_start_implicit_document.
  - apply (wp_budget _ _ _ (b + 1)); [|destruct implicit; lia].
    destruct (token_data t1) eqn:?; by apply wp_end_stream || by apply wp_start_explicit_document.
Qed.

Lemma wp_document_content e0 l fs b p :
  mid_step e0 l 0 document_tags b p -> stack_frames l = Some fs ->
  wp F yaml_parser_parse_document_content (step_post e0 (NDoc fs) (b + 2)) failed p.
Proof.
  intros Hm Hf. unfold yaml_parser_parse_document_content. mid_next.
  destruct (token_data t) eqn:?; try by eapply wp_parse_node.
  all: unfold yaml_parser_process_empty_scalar; eapply wp_budget; [by eapply wp_return_keep|lia].
Qed.

Lemma wp_document_end e0 b p :
  mid_step e0 [] 0 document_tags b p ->
  wp F yaml_parser_parse_document_end (step_post e0 NDocDone (b + 2)) failed p.
Proof.
  intros Hm. unfold yaml_parser_parse_document_end. mid_next. rename H into Hm1, H0 into Ht.
  wp_step.
  apply (wp_mono _ _ (fun _ p' => mid_step e0 [] 0 document_tags b p') _ failed); [| |done].
  { destruct (token_data t) eqn:?; wp_steps; try done.
    eapply mid_SKIP_TOKEN; [done|done|first [done|token_known]|]. intros p1 Hm2 _. wp_steps. eapply mid_weaken; [done|lia]. }
  intros r p1 Hm2. unfold set_state_to. wp_steps.
  eapply (step_post_gen _ _ _ NStream [] (eq []) b); cbn; try done; [|lia].
  destruct Hm2. by constructor.
Qed.

(** ** The state machine *)

Lemma machine_mid n p s l :
  machine_inv n p -> source_ok p.(reader) p.(scanner) -> n <> NEnd ->
  p.(parsing).(state) = s -> p.(parsing).(states).(items) = l ->
  mid_step p.(err) l (state_marks s)
    (if in_document n then document_tags else eq []) (budget F p - state_weight s) p.
Proof.
  intros [Hn Hm Ht Hp Hf Ho] Hso He <- <-.
  constructor; try done; [by destruct (in_document n)|auto|].
  right. unfold budget. lia.
Qed.

(** A state inside a document tells the innermost collections. *)
Lemma nest_of_frames s f l n :
  state_frames s = Some f -> nest_of s l = Some n ->
  exists fs, stack_frames l = Some fs /\ n = NDoc (f ++ fs).
Proof.
  destruct s; cbn; intros; simplify_eq;
    destruct (stack_frames l) as [fs|]; cbn in *; simplify_eq; by exists fs.
Qed.

Lemma nest_of_outside s l n : state_frames s = None -> nest_of s l = Some n -> l = [].
Proof. destruct s, l; cbn; done. Qed.

Lemma wp_state_machine n fuel p :
  machine_inv n p -> source_ok p.(reader) p.(scanner) -> n <> NEnd -> enough_fuel fuel p ->
  wp F (yaml_parser_state_machine fuel) (step_post p.(err) n (budget F p)) failed p.
Proof.
  intros Hi Hso Hn Hf. unfold yaml_parser_state_machine. wp_steps.
  pose proof (inv_first _ _ Hi) as Hx. pose proof (inv_nest _ _ Hi) as Hnest.
  pose proof (fun s l => machine_mid n p s l Hi Hso Hn) as Hm.
  destruct (state (parsing p)) eqn:Es; cbn [expects_token] in Hx;
    specialize (Hm _ _ eq_refl eq_refl); cbn [state_marks state_weight] in Hm;
    (* states of a document *)
    try (eapply nest_of_frames in Hnest as (fs & Hl & Hnd); [|reflexivity]; subst n;
         cbn [in_document] in Hm; cbn [app]; eapply wp_budget;
         [first [ by eapply wp_parse_node | by eapply wp_document_content
                | by eapply wp_block_sequence_entry | by eapply wp_indentless_sequence_entry
                | by eapply wp_block_mapping_key | by eapply wp_block_mapping_value
                | by eapply wp_flow_sequence_entry | by eapply wp_flow_sequence_entry_mapping_key
                | by eapply wp_flow_sequence_entry_mapping_value
                | by eapply wp_flow_sequence_entry_mapping_end
                | by eapply wp_flow_mapping_key | by eapply wp_flow_mapping_value ]
         |lia]);
    (* states outside, or unused *)
    (assert (Hl := Hnest); apply nest_of_outside in Hl; [|reflexivity]; rewrite Hl in Hnest, Hm;
     cbn in Hnest; simplify_eq; cbn [in_document] in Hm);
    (eapply wp_budget;
     [first [ by eapply wp_stream_start | by eapply wp_document_start | by eapply wp_document_end ]
     |cbn; lia]).
Qed.

(** ** One call, and a whole stream *)

(** Calls until the end of the stream: the loop of every client. *)
Fixpoint parse_events (calls fuel : nat) : yaml_prog (list yaml_event_data) :=
  match calls with
  | O => timeout
  | S c =>
      ev ← yaml_parser_parse fuel;
      match ev.(event_data) with
      | YAML_NO_EVENT => mret []
      | YAML_STREAM_END_EVENT => mret [YAML_STREAM_END_EVENT]
      | e => es ← parse_events c fuel; mret (e :: es)
      end
  end.

Lemma not_over n p :
  machine_inv n p -> n <> NEnd -> p.(err).(error) = YAML_NO_ERROR -> parsing_is_over p = false.
Proof.
  intros Hi Hn He. unfold parsing_is_over. rewrite (inv_open _ _ Hi Hn), He.
  pose proof (inv_nest _ _ Hi) as H. rewrite (bool_decide_eq_true_2 _ eq_refl). cbn.
  apply bool_decide_eq_false. intros Es. rewrite Es in H. cbn in H.
  destruct (items _); by simplify_eq.
Qed.

Lemma wp_parse n fuel p :
  machine_inv n p -> source_ok p.(reader) p.(scanner) -> n <> NEnd ->
  p.(err).(error) = YAML_NO_ERROR -> enough_fuel fuel p ->
  wp F (yaml_parser_parse fuel) (step_post p.(err) n (budget F p)) failed p.
Proof.
  intros Hi Hso Hn He Hf. unfold yaml_parser_parse. wp_steps.
  rewrite (not_over n) by done. by apply wp_state_machine.
Qed.

Lemma stack_weight_nonneg l : 0 <= stack_weight l.
Proof. induction l as [|s l IH]; cbn; [lia|]. destruct s; cbn; lia. Qed.

Lemma budget_tokens p : 7 * tokens_left p <= budget F p - tokens_left p.
Proof.
  unfold budget. pose proof (stack_weight_nonneg (items (states (parsing p)))).
  destruct (state (parsing p)); cbn; lia.
Qed.

Lemma budget_pos n p : machine_inv n p -> n <> NEnd -> tokens_left p < budget F p.
Proof.
  intros Hi Hn. pose proof (inv_nest _ _ Hi) as H. unfold budget.
  pose proof (stack_weight_nonneg (items (states (parsing p)))).
  assert (0 <= tokens_left p) by apply pending_nonneg.
  destruct (state (parsing p)) eqn:Es; cbn [state_weight]; try lia.
  cbn in H. destruct (items _); by simplify_eq.
Qed.

Lemma nest_step_end n e : nest_step n e = Some NEnd -> e = YAML_STREAM_END_EVENT /\ n = NStream.
Proof. destruct e, n as [| |[|[] [|[] ?]]| |]; cbn; intros; by simplify_eq. Qed.

Lemma wp_parse_events calls fuel n p :
  machine_inv n p -> source_ok p.(reader) p.(scanner) -> n <> NEnd ->
  p.(err).(error) = YAML_NO_ERROR ->
  F.(may_timeout) \/ budget F p <= Z.of_nat calls /\ budget F p <= Z.of_nat fuel ->
  wp F (parse_events calls fuel)
    (fun es p' => nest_run n es = Some NEnd /\ machine_inv NEnd p') failed p.
Proof.
  revert n p. induction calls as [|c IH]; intros n p Hi Hso Hn He Hb; cbn [parse_events].
  { apply wp_timeout. destruct Hb as [|Hb]; [done|].
    pose proof (budget_pos n p Hi Hn). assert (0 <= tokens_left p) by apply pending_nonneg. lia. }
  wp_step. eapply wp_mono; [apply (wp_parse n); try done| |done].
  { destruct Hb as [|Hb]; [by left|right]. pose proof (budget_pos n p Hi Hn). lia. }
  intros ev p' ((n' & Hs & Hi') & He' & Hso' & Hb').
  assert (budget F p <= Z.of_nat (S c) -> budget F p' < budget F p ->
          budget F p' <= Z.of_nat c) by lia.
  destruct (decide (n' = NEnd)) as [->|Hn'].
  { apply nest_step_end in Hs as [-> ->]. by wp_steps. }
  specialize (IH n' p' Hi' Hso' Hn'). rewrite He' in IH. specialize (IH He).
  assert (wp F (es ← parse_events c fuel; mret (event_data ev :: es))
    (fun es p' => nest_run n es = Some NEnd /\ machine_inv NEnd p') failed p').
  { wp_step. eapply wp_mono; [apply IH| |done].
    - destruct Hb, Hb'; [by left..|right; lia].
    - intros es p2 [H1 H2]. wp_steps. cbn [nest_run]. by rewrite Hs. }
  destruct (event_data ev) eqn:Ee; try done; cbn in Hs; destruct n; by simplify_eq.
Qed.
End documents.

(** ** The theorems *)

(** A parser that holds all its tokens and has not started. *)
Definition token_parser (ts : list yaml_token_t) : yaml_parser_t :=
  set_tokens ts (yaml_parser_initialize []).

(** A stream of one document, [%TAG !e! e: --- {k: v}]. *)
Definition sample_tokens : list yaml_token_t :=
  map (fun d => TOKEN_INIT d mark0 mark0)
    [YAML_STREAM_START_TOKEN YAML_UTF8_ENCODING;
     YAML_TAG_DIRECTIVE_TOKEN (bytes_of "!e!") (bytes_of "e:"); YAML_DOCUMENT_START_TOKEN;
     YAML_FLOW_MAPPING_START_TOKEN; YAML_KEY_TOKEN;
     YAML_SCALAR_TOKEN (bytes_of "k") 1 YAML_PLAIN_SCALAR_STYLE; YAML_VALUE_TOKEN;
     YAML_SCALAR_TOKEN (bytes_of "v") 1 YAML_PLAIN_SCALAR_STYLE;
     YAML_FLOW_MAPPING_END_TOKEN; YAML_STREAM_END_TOKEN].

Lemma initial_inv p :
  p.(parsing) = (yaml_parser_initialize []).(parsing) ->
  p.(scanner).(token_available) = false -> p.(scanner).(stream_end_produced) = false ->
  machine_inv NStart p.
Proof.
  intros H1 H2 H3. constructor; unfold directive_list; rewrite ?H1; try done.
  by apply peeked_none.
Qed.

Lemma inv_end p : machine_inv NEnd p -> p.(parsing).(state) = YAML_PARSE_END_STATE.
Proof.
  intros [H _ _ _ _ _]. destruct (state_frames (state (parsing p))) as [f|] eqn:E.
  - by eapply nest_of_frames in H as (fs & _ & ?).
  - assert (Hl := H). apply nest_of_outside in Hl; [|done]. rewrite Hl in H.
    by destruct (state (parsing p)).
Qed.

Lemma over_false n p :
  machine_inv n p -> parsing_is_over p = false -> n <> NEnd /\ p.(err).(error) = YAML_NO_ERROR.
Proof.
  unfold parsing_is_over. intros Hi [[_ He]%orb_false_iff Hs]%orb_false_iff.
  apply negb_false_iff, bool_decide_eq_true in He. split; [|done].
  apply bool_decide_eq_false in Hs. intros ->. by apply Hs, inv_end.
Qed.

Lemma outside_inv p :
  machine_inv NStream p ->
  p.(parsing).(states).(items) = [] /\ p.(parsing).(marks).(items) = [].
Proof.
  intros [H Hk _ _ _ _]. destruct (state_frames (state (parsing p))) as [f|] eqn:E.
  - by eapply nest_of_frames in H as (fs & _ & ?).
  - assert (Hl := H). apply nest_of_outside in Hl; [|done]. split; [done|].
    rewrite Hl in H, Hk. destruct (state (parsing p)); try done; by apply nil_length_inv in Hk.
Qed.

Lemma over_is_final fuel p `{TokenSource} :
  parsing_is_over p = true -> yaml_parser_parse fuel p = Ret no_event p.
Proof. intros Ho. unfold yaml_parser_parse, gets, mbind, prog_bind. by rewrite Ho. Qed.

(** C1: every call of [yaml_parser_parse] that returns delivers an event that
    the grammar of event streams allows next, keeps the invariant of the
    machine (its stack of states spells out the open collections, the marks
    match the states, handles are distinct), and lowers the bound on the
    number of calls; it never follows a NULL token or pops an empty stack;
    otherwise it fails with an error recorded. *)
Theorem parse_refines_grammar (F : faults) {src : TokenSource} {laws : TokenSourceLaws F}
    (n : nest) (fuel : nat) (p : yaml_parser_t) :
  machine_inv n p -> source_ok p.(reader) p.(scanner) -> parsing_is_over p = false ->
  enough_fuel F fuel p ->
  wp F (yaml_parser_parse fuel)
    (fun ev p' => (exists n', nest_step n ev.(event_data) = Some n' /\ machine_inv n' p')
                  /\ p'.(err) = p.(err) /\ source_ok p'.(reader) p'.(scanner)
                  /\ (F.(may_timeout) \/ budget F p' < budget F p))
    (fun p' => p'.(err).(error) <> YAML_NO_ERROR) p.
Proof. intros Hi Hso [Hn He]%(over_false n) Hf; [|done]. by apply wp_parse. Qed.

Lemma parse_refines_grammar_witness :
  wp strict (yaml_parser_parse (src := queue_source) 20)
    (fun ev p' => (exists n', nest_step NStart ev.(event_data) = Some n' /\ machine_inv n' p')
                  /\ p'.(err) = (token_parser sample_tokens).(err)
                  /\ source_ok (F := strict) p'.(reader) p'.(scanner)
                  /\ (False \/ budget strict p' < budget strict (token_parser sample_tokens)))
    (fun p' => p'.(err).(error) <> YAML_NO_ERROR) (token_parser sample_tokens).
Proof.
  apply (parse_refines_grammar strict NStart 20 (token_parser sample_tokens)).
  - by apply initial_inv.
  - exact I.
  - reflexivity.
  - right. reflexivity.
Defined.

(** On every finite list of tokens the client's loop of calls terminates,
    within eight calls per token, without a crash: it fails with an error, or
    it delivers one complete stream of the grammar. *)
Theorem parse_stream_total (ts : list yaml_token_t) (fuel : nat) :
  8 * Z.of_nat (length ts) + 1 <= Z.of_nat fuel ->
  wp strict (parse_events (src := queue_source) fuel fuel)
    (fun es _ => nest_run NStart es = Some NEnd)
    (fun p' => p'.(err).(error) <> YAML_NO_ERROR) (token_parser ts).
Proof.
  intros Hb. eapply wp_mono.
  - apply (wp_parse_events strict fuel fuel NStart); [by apply initial_inv|done..|].
    right. unfold budget, tokens_left. cbn in *. lia.
  - by intros es p' [H _].
  - done.
Qed.

Lemma parse_stream_total_witness :
  wp strict (parse_events (src := queue_source) 81 81)
    (fun es _ => nest_run NStart es = Some NEnd)
    (fun p' => p'.(err).(error) <> YAML_NO_ERROR) (token_parser sample_tokens).
Proof. apply (parse_stream_total sample_tokens 81). cbn. lia. Defined.

(** A parser that has failed, or has delivered the end of the stream, is
    final: every later call returns the empty event and changes nothing. *)
Theorem parse_end_is_final (F : faults) {src : TokenSource} {laws : TokenSourceLaws F}
    (n : nest) (fuel : nat) (p : yaml_parser_t) :
  machine_inv n p -> source_ok p.(reader) p.(scanner) -> enough_fuel F fuel p ->
  wp F (yaml_parser_parse fuel)
    (fun ev p' => ev.(event_data) = YAML_STREAM_END_EVENT \/ ev = no_event ->
       forall fuel', yaml_parser_parse fuel' p' = Ret no_event p')
    (fun p' => forall fuel', yaml_parser_parse fuel' p' = Ret no_event p') p.
Proof.
  intros Hi Hso Hf. destruct (parsing_is_over p) eqn:Ho.
  { unfold wp. rewrite over_is_final by done. intros _ fuel'. by apply over_is_final. }
  apply (over_false n) in Ho as [Hn He]; [|done].
  eapply wp_mono; [by apply wp_parse| |].
  - intros ev p' ((n' & Hs & Hi') & _) Hev fuel'. apply over_is_final.
    destruct Hev as [Hev | ->]; [|by destruct n]. rewrite Hev in Hs.
    destruct n; try done. injection Hs as <-.
    unfold parsing_is_over. apply orb_true_iff. right. apply bool_decide_eq_true. by apply inv_end.
  - intros p' Hp fuel'. apply over_is_final. unfold parsing_is_over.
    apply orb_true_iff. left. apply orb_true_iff. right. by apply negb_true_iff, bool_decide_eq_false.
Qed.

Lemma parse_end_is_final_witness :
  wp strict (yaml_parser_parse (src := queue_source) 1)
    (fun ev p' => ev.(event_data) = YAML_STREAM_END_EVENT \/ ev = no_event ->
       forall fuel', yaml_parser_parse (src := queue_source) fuel' p' = Ret no_event p')
    (fun p' => forall fuel', yaml_parser_parse (src := queue_source) fuel' p' = Ret no_event p')
    (token_parser []).
Proof.
  apply (parse_end_is_final strict NStart 1 (token_parser [])).
  - by apply initial_inv.
  - exact I.
  - right. reflexivity.
Defined.
