(* ===== verification/YamlDirectives.v ===== *)
(** * libyaml: the directives in front of a document

    What [yaml_parser_process_directives] makes of the tokens it reads: the
    version and the tag directives it returns are those of the directive
    tokens that the source handed over, the table of the parser is made of
    them and of the defaults, and it fails exactly at the first directive that
    is not admissible after the ones in front of it. *)

From Stdlib Require Import ZArith Lia Ascii String.
From stdpp Require Import base list option strings.
From S2P Require Import Prelude YamlData YamlParser YamlEvents YamlRefinement.

#[local] Open Scope Z_scope.

(** ** What a list of tokens declares *)

Definition tag_directive_of (t : yaml_token_t) : option yaml_tag_directive_t :=
  match t.(token_data) with
  | YAML_TAG_DIRECTIVE_TOKEN h pre => Some (mkTagDirective h pre)
  | _ => None
  end.

Definition version_directive_of (t : yaml_token_t) : option yaml_version_directive_t :=
  match t.(token_data) with
  | YAML_VERSION_DIRECTIVE_TOKEN maj min => Some (mkVersion maj min)
  | _ => None
  end.

Definition is_directive (t : yaml_token_t) : bool :=
  match t.(token_data) with
  | YAML_TAG_DIRECTIVE_TOKEN _ _ | YAML_VERSION_DIRECTIVE_TOKEN _ _ => true
  | _ => false
  end.

Definition declared_tags (ts : list yaml_token_t) : list yaml_tag_directive_t :=
  omap tag_directive_of ts.

Definition declared_version (ts : list yaml_token_t) : option yaml_version_directive_t :=
  head (omap version_directive_of ts).

(** What is wrong with the directive [t] after the directives [ts]. *)
Definition objection (ts : list yaml_token_t) (t : yaml_token_t) : option string :=
  match t.(token_data) with
  | YAML_VERSION_DIRECTIVE_TOKEN maj min =>
      if bool_decide (omap version_directive_of ts <> []) then
        Some "found duplicate %YAML directive"%string
      else if bool_decide (maj = 1 /\ (min = 1 \/ min = 2)) then None
      else Some "found incompatible YAML document"%string
  | YAML_TAG_DIRECTIVE_TOKEN h _ =>
      if bool_decide (cstr h ∈ handles (declared_tags ts)) then
        Some "found duplicate %TAG directive"%string
      else None
  | _ => None
  end.

(** Directives, each admissible after the ones in front of it. *)
Inductive admissible : list yaml_token_t -> Prop :=
| admissible_nil : admissible []
| admissible_snoc ts t :
    admissible ts -> is_directive t = true -> objection ts t = None -> admissible (ts ++ [t]).

(** The tokens that a source hands over from [p] on, one after the other,
    whatever the parser does to its own stacks in between. *)
Inductive took `{src : TokenSource} (p : yaml_parser_t) :
    list yaml_token_t -> yaml_parser_t -> Prop :=
| took_nothing : took p [] p
| took_token ts p1 t p2 x p3 :
    took p ts p1 -> peek p1 = Ret t p2 -> SKIP_TOKEN (set_parsing x p2) = Ret tt p3 ->
    took p (ts ++ [t]) p3.

(** The directives [ts] have been read from [p]; [t] is the token behind them. *)
Definition read_directives `{src : TokenSource} (p : yaml_parser_t) (ts : list yaml_token_t)
    (t : yaml_token_t) (p' : yaml_parser_t) : Prop :=
  admissible ts
  /\ exists p1 p2, took p ts p1 /\ peek p1 = Ret t p2 /\ p' = set_parsing p'.(parsing) p2.

(** Why the directives are refused: the source fails, a directive is not
    admissible, or the table has reached the limit of [yaml_stack_extend]. *)
Definition directives_refused `{src : TokenSource} (p p' : yaml_parser_t) : Prop :=
  (exists ts p1, admissible ts /\ took p ts p1 /\ peek p1 = Err p' /\ failed p')
  \/ (exists ts t p1 msg, read_directives p ts t p1 /\ objection ts t = Some msg
      /\ p' = set_problem_mark t.(start_mark) (set_problem (Some msg)
                (set_error YAML_PARSER_ERROR p1)))
  \/ (p'.(err).(error) = YAML_MEMORY_ERROR
      /\ INT_MAX / 2 <= sizeof_tag_directive * Z.of_nat (length (directive_list p'))).

(** ** Lists of directives *)

Lemma declared_tags_snoc ts t :
  declared_tags (ts ++ [t])
  = declared_tags ts ++ match tag_directive_of t with Some d => [d] | None => [] end.
Proof. unfold declared_tags. rewrite omap_app. cbn. by destruct (tag_directive_of t). Qed.

Lemma declared_version_first ts t v :
  version_directive_of t = Some v -> omap version_directive_of ts = [] ->
  declared_version (ts ++ [t]) = Some v.
Proof. intros Ht Hs. unfold declared_version. rewrite omap_app, Hs. cbn. by rewrite Ht. Qed.

Lemma declared_version_other ts t :
  version_directive_of t = None -> declared_version (ts ++ [t]) = declared_version ts.
Proof. intros Ht. unfold declared_version. rewrite omap_app. cbn. by rewrite Ht, app_nil_r. Qed.

Lemma declared_version_none ts :
  bool_decide (declared_version ts <> None) = bool_decide (omap version_directive_of ts <> []).
Proof. apply bool_decide_ext. unfold declared_version. by destruct (omap _ ts). Qed.

Lemma handles_stored ds : handles (map stored ds) = handles ds.
Proof.
  unfold handles. rewrite map_map. apply map_ext. intros d. unfold stored. cbn. by rewrite cstr_idem.
Qed.

Lemma objection_version ts t maj min :
  t.(token_data) = YAML_VERSION_DIRECTIVE_TOKEN maj min ->
  objection ts t
  = (if bool_decide (declared_version ts <> None) then
       Some "found duplicate %YAML directive"%string
     else if negb (maj =? 1) || (negb (min =? 1) && negb (min =? 2)) then
       Some "found incompatible YAML document"%string
     else None).
Proof.
  intros Ht. unfold objection. rewrite Ht, declared_version_none.
  destruct (bool_decide (omap _ _ <> [])); [done|].
  destruct (Z.eqb_spec maj 1), (Z.eqb_spec min 1), (Z.eqb_spec min 2); cbn;
    case_bool_decide; try done; lia.
Qed.

Lemma objection_tag ts t h pre :
  t.(token_data) = YAML_TAG_DIRECTIVE_TOKEN h pre ->
  objection ts t = (if has_handle h (map stored (declared_tags ts)) then
                      Some "found duplicate %TAG directive"%string else None).
Proof.
  intros Ht. unfold objection. rewrite Ht. case_bool_decide as Hh; rewrite <- handles_stored in Hh.
  - by rewrite (proj2 (has_handle_true _ _)).
  - destruct (has_handle _ _) eqn:E; [|done]. by apply has_handle_true in E.
Qed.

(** ** The calls *)

Section directives.
Context (F : faults) `{laws : TokenSourceLaws F}.
Implicit Types (p : yaml_parser_t) (ts : list yaml_token_t).

(** [yaml_parser_append_tag_directive], with the reason of a failure. *)
Lemma wp_append_tag_directive e0 ds b d dup mk p (Q : unit -> yaml_parser_t -> Prop)
    (E : yaml_parser_t -> Prop) :
  mid_step F e0 [] 0 (eq ds) b p ->
  (has_handle d.(td_handle) ds = true ->
     if dup : bool then Q tt p
     else E (set_problem_mark mk (set_problem (Some "found duplicate %TAG directive"%string)
               (set_error YAML_PARSER_ERROR p)))) ->
  (has_handle d.(td_handle) ds = false ->
     forall p', p' = set_parsing p'.(parsing) p ->
       mid_step F e0 [] 0 (eq (ds ++ [stored d])) b p' -> Q tt p') ->
  (INT_MAX / 2 <= sizeof_tag_directive * Z.of_nat (length (directive_list p)) ->
     E (set_error YAML_MEMORY_ERROR p)) ->
  wp F (yaml_parser_append_tag_directive d dup mk) Q E p.
Proof.
  intros Hm H1 H2 H3. unfold yaml_parser_append_tag_directive. wp_steps.
  pose proof (mid_tags _ _ _ _ _ _ _ Hm) as HT. rewrite <- HT in *.
  destruct (has_handle _ _) eqn:Eh; [destruct dup; [wp_steps; by apply H1|by apply H1]|].
  unfold push_tag_directive, PUSH. wp_steps.
  destruct (stack_push _ _ _) as [st|] eqn:Es; unfold memory_error; wp_steps.
  - apply H2; [done|done|]. unfold stack_push in Es.
    assert (st.(items) = stored d :: p.(parsing).(tag_directives).(items)) as Hst.
    { destruct (_ =? _); [destruct (yaml_stack_extend _); [|done]|]; by injection Es as <-. }
    destruct Hm. constructor; try done. unfold directive_list. cbn. rewrite Hst. cbn.
    by rewrite HT.
  - apply H3. unfold stack_push in Es. destruct (Z.eqb_spec (Z.of_nat (length (items
      (tag_directives (parsing p))))) (capacity (tag_directives (parsing p)))) as [Hl|]; [|done].
    unfold yaml_stack_extend in Es. destruct (_ >=? _) eqn:Eg; [|done].
    apply Z.geb_le in Eg. rewrite HT. unfold directive_list. rewrite List.length_rev, Hl. lia.
Qed.

Lemma wp_append_defaults e0 defs ds b mk p (Q : unit -> yaml_parser_t -> Prop) E :
  mid_step F e0 [] 0 (eq ds) b p ->
  (forall p', p' = set_parsing p'.(parsing) p ->
     mid_step F e0 [] 0 (eq (foldl add_default ds defs)) b p' -> Q tt p') ->
  (forall p', p'.(err).(error) = YAML_MEMORY_ERROR ->
     INT_MAX / 2 <= sizeof_tag_directive * Z.of_nat (length (directive_list p')) -> E p') ->
  wp F (append_defaults defs mk) Q E p.
Proof.
  intros Hm HQ HE.
  assert (exists p0, p = set_parsing p.(parsing) p0 /\ forall p', p' = set_parsing p'.(parsing) p0 ->
    mid_step F e0 [] 0 (eq (foldl add_default ds defs)) b p' -> Q tt p') as (p0 & Hp & HQ').
  { exists p. split; [by destruct p|done]. }
  clear HQ. revert ds p Hm Hp HQ'. induction defs as [|d defs IH]; intros ds p Hm Hp HQ;
    cbn [append_defaults]; [wp_steps; by apply HQ|].
  cbn [foldl] in HQ. unfold add_default in HQ at 2. wp_step.
  eapply wp_append_tag_directive; [done| | |intros Hfull; by apply HE].
  - intros Hh. rewrite Hh in HQ. by eapply IH.
  - intros Hh p1 Hp1 Hm1. rewrite Hh in HQ. eapply IH; [done| |done].
    rewrite Hp1, Hp. by destruct p1.
Qed.

(** A directive token has been processed: it is skipped, the next one read. *)
Lemma directive_taken e0 b fuel p0 ts t p p1 version
    (Q : (option yaml_version_directive_t * list yaml_tag_directive_t * yaml_token_t)
         + (option yaml_version_directive_t * list yaml_tag_directive_t * yaml_token_t) ->
         yaml_parser_t -> Prop) E :
  read_directives p0 ts t p -> p1 = set_parsing p1.(parsing) p ->
  is_directive t = true -> objection ts t = None ->
  directives_so_far F e0 b fuel (declared_tags (ts ++ [t])) t p1 ->
  (forall t' p', directives_so_far F e0 b fuel (declared_tags (ts ++ [t])) t' p' ->
     read_directives p0 (ts ++ [t]) t' p' ->
     F.(may_timeout) \/ (Z.to_nat (tokens_left F p') < Z.to_nat (tokens_left F p))%nat ->
     Q (inl (version, declared_tags (ts ++ [t]), t')) p') ->
  (forall p', directives_refused p0 p' -> E p') ->
  wp F (SKIP_TOKEN;; token ← peek; mret (inl (version, declared_tags (ts ++ [t]), token))) Q E p1.
Proof.
  intros (Ha & q1 & q2 & Htk & Hpk & Hp) Hp1 Hdt Ho (Hd & Hm & Ht & Hf) HQ HE.
  assert (tokens_left F p1 = tokens_left F p) as Htl by (rewrite Hp1; done).
  apply mid_tight in Hm. rewrite Htl in Hm. wp_step.
  assert (not_last t) as Hnl by (unfold not_last, is_directive in *; by destruct (token_data t)).
  assert (forall p2, SKIP_TOKEN p1 = Ret tt p2 -> took p0 (ts ++ [t]) p2) as Hsk.
  { intros p2 H2. eapply took_token; [done..|]. rewrite Hp1, Hp in H2. exact H2. }
  assert (admissible (ts ++ [t])) as Ha' by by constructor.
  eapply wp_mono.
  { apply wp_traced. eapply (mid_SKIP_TOKEN F) with (E := fun _ => False)
      (Q := fun _ => mid_step F e0 [] 0 (eq (map stored (declared_tags (ts ++ [t])))) _);
      [exact Hm|exact Ht|exact Hnl|done]. }
  2:{ by intros ? [[] _]. }
  cbv beta. intros [] p2 [Hm2 H2]. apply Hsk in H2. wp_step.
  eapply wp_mono.
  { apply wp_traced. eapply (mid_peek F) with (Q := fun t' p3 =>
      mid_step F e0 [] 0 (eq (map stored (declared_tags (ts ++ [t])))) _ p3 /\ at_token t' p3);
      [exact Hm2|done]. }
  2:{ intros p3 [H3 H4]. apply HE. left. by exists (ts ++ [t]), p2. }
  cbv beta. intros t' p3 [[Hm3 Ht3] H3]. wp_steps.
  assert (F.(may_timeout) \/ (Z.to_nat (tokens_left F p3) < Z.to_nat (tokens_left F p))%nat) as Hv
    by (eapply mid_variant; [done|lia]).
  apply HQ; [|split; [done|]; exists p2, p3; split_and!; [done..|by destruct p3]|done].
  split; [done|]. split; [eapply mid_weaken; [done|lia]|]. split; [done|].
  unfold enough_fuel in *. destruct Hv, Hf; [by left..|right; lia].
Qed.

Lemma wp_directive_tokens e0 b fuel p0 t p
    (Q : option yaml_version_directive_t * list yaml_tag_directive_t * yaml_token_t -> _ -> Prop) E :
  mid_step F e0 [] 0 (eq []) b p -> at_token t p -> enough_fuel F fuel p ->
  read_directives p0 [] t p ->
  (forall ts t' p', directives_so_far F e0 b fuel (declared_tags ts) t' p' ->
     read_directives p0 ts t' p' -> is_directive t' = false ->
     Q (declared_version ts, declared_tags ts, t') p') ->
  (forall p', directives_refused p0 p' -> E p') ->
  wp F (process_directive_tokens fuel t) Q E p.
Proof.
  intros Hm Ht Hf Hr HQ HE. unfold process_directive_tokens.
  eapply (wp_loop F (fun x p => exists ts, x.1 = (declared_version ts, declared_tags ts)
              /\ directives_so_far F e0 b fuel (declared_tags ts) x.2 p /\ read_directives p0 ts x.2 p)
            (fun _ p => Z.to_nat (tokens_left F p))); [| |by apply fuel_variant].
  2:{ exists []. split; [done|]. split; [|done]. split; [by apply NoDup_nil|done]. }
  clear p t Hm Ht Hf Hr. intros [[v tags] t] p (ts & Hx & Hs & Hr). cbn [fst snd] in *.
  injection Hx as -> ->. pose proof Hs as (Hd & Hm & Ht & Hf).
  assert (p = set_parsing (parsing p) p) as Hpp by by destruct p.
  destruct (token_data t) as [| | |maj min|h pre| | | | | | | | | | | | | | | | | ] eqn:Et;
    wp_steps; try (apply HQ; [done..|by unfold is_directive; rewrite Et]).
  - pose proof (objection_version ts t _ _ Et) as Ho.
    destruct (bool_decide _) eqn:Ev.
    { unfold yaml_parser_set_parser_error. wp_steps. apply HE. right; left. exists ts, t, p; by eexists. }
    destruct (_ || _).
    { unfold yaml_parser_set_parser_error. wp_steps. apply HE. right; left. exists ts, t, p; by eexists. }
    assert (declared_tags (ts ++ [t]) = declared_tags ts) as Hdt.
    { rewrite declared_tags_snoc. unfold tag_directive_of. by rewrite Et, app_nil_r. }
    rewrite <- Hdt. eapply directive_taken; [exact Hr|done| |done| | |done].
    + by unfold is_directive; rewrite Et.
    + by rewrite Hdt.
    + intros t' p' Hs' Hr' Hv. split; [|done]. exists (ts ++ [t]). split; [|done].
      rewrite declared_version_none in Ev. apply bool_decide_eq_false in Ev.
      rewrite (declared_version_first _ _ (mkVersion maj min)); [done| |].
      * unfold version_directive_of. by rewrite Et.
      * by destruct (omap _ ts); [|destruct Ev].
  - pose proof (objection_tag ts t _ _ Et) as Ho.
    assert (declared_tags (ts ++ [t]) = declared_tags ts ++ [mkTagDirective h pre]) as Hdt.
    { rewrite declared_tags_snoc. unfold tag_directive_of. by rewrite Et. }
    rewrite <- Hdt. eapply wp_append_tag_directive; [done| | |].
    + intros Hh. cbn in Hh. rewrite Hh in Ho. apply HE. right; left. exists ts, t, p; by eexists.
    + intros Hh p1 Hp1 Hm1. cbn in Hh. rewrite Hh in Ho.
      eapply directive_taken; [exact Hr|done| |done| | |done].
      * by unfold is_directive; rewrite Et.
      * rewrite Hdt. unfold directives_so_far. rewrite map_app. split; [by apply distinct_snoc|].
        split; [done|]. rewrite Hp1. done.
      * intros t' p' Hs' Hr' Hv. split; [|done]. exists (ts ++ [t]). split; [|done].
        by rewrite declared_version_other by (unfold version_directive_of; by rewrite Et).
    + intros Hfull. apply HE. by right; right.
Qed.

Lemma wp_directives e0 b fuel p
    (Q : option yaml_version_directive_t * list yaml_tag_directive_t -> _ -> Prop) :
  mid_step F e0 [] 0 (eq []) b p -> enough_fuel F fuel p ->
  (forall ts t p', read_directives p ts t p' -> is_directive t = false ->
     distinct_handles (map stored (declared_tags ts)) ->
     directive_list p' = with_defaults (map stored (declared_tags ts)) ->
     Q (declared_version ts, declared_tags ts) p') ->
  wp F (yaml_parser_process_directives fuel) Q (directives_refused p) p.
Proof.
  intros Hm Hf HQ. unfold yaml_parser_process_directives. wp_step. apply mid_tight in Hm.
  eapply wp_mono.
  { apply wp_traced. eapply (mid_peek F) with (Q := fun t' p3 =>
      mid_step F e0 [] 0 (eq []) _ p3 /\ at_token t' p3); [exact Hm|done]. }
  2:{ intros p1 [H1 H2]. left. exists [], p. split; [constructor|]. split; [constructor|done]. }
  cbv beta. intros t p1 [[Hm1 Ht1] H1]. wp_step.
  assert (enough_fuel F fuel p1) as Hf1 by by eapply enough_fuel_mid.
  eapply (wp_directive_tokens e0 b fuel p); [eapply mid_weaken; [done|lia]|done|done| | |done].
  { split; [constructor|]. exists p, p1. split; [constructor|]. split; [done|by destruct p1]. }
  intros ts t' p2 (Hd & Hm2 & _ & _) (Ha & q1 & q2 & Htk & Hpk & Hp2) Hdt. wp_step.
  eapply wp_append_defaults; [done| |].
  - intros p3 Hp3 Hm3. wp_steps. apply (HQ ts t'); [|done..|by destruct Hm3].
    split; [done|]. exists q1, q2. split; [done|]. split; [done|]. rewrite Hp3, Hp2. by destruct p3.
  - intros p3 H3 H4. by right; right.
Qed.
End directives.

(** C4: between documents, the directives that the parser reads are the
    directive tokens [ts] that its source hands over, up to the first token
    [t] that is none.  The version and the tag directives returned are those
    these tokens declare, in order; the table of the parser holds the declared
    tag directives, with distinct handles, followed by the defaults that they
    do not redefine; a tag whose handle is declared resolves to the declared
    prefix, and [!] and [!!] resolve to their default prefixes unless
    redefined.  A failure is one of the source, the first directive that
    repeats a handle or the version or asks for another version than 1.1 or
    1.2, with its message and its mark, or the limit of the table. *)
Theorem document_directives (F : faults) {src : TokenSource} {laws : TokenSourceLaws F}
    (fuel : nat) (p : yaml_parser_t) :
  machine_inv NStream p -> source_ok p.(reader) p.(scanner) -> enough_fuel F fuel p ->
  wp F (yaml_parser_process_directives fuel)
    (fun r p' => exists ts t,
       let table := directive_list p' in
       let tags := declared_tags ts in
       read_directives p ts t p' /\ is_directive t = false
       /\ r = (declared_version ts, tags)
       /\ distinct_handles (map stored tags) /\ table = with_defaults (map stored tags)
       /\ (forall d s, d ∈ tags -> cstr d.(td_handle) <> [] ->
             resolve_tag table d.(td_handle) s = Some (cstr d.(td_prefix) ++ cstr s))
       /\ (forall s, bytes_of "!" ∉ handles tags ->
             resolve_tag table (bytes_of "!") s = Some (bytes_of "!" ++ cstr s))
       /\ (forall s, bytes_of "!!" ∉ handles tags ->
             resolve_tag table (bytes_of "!!") s = Some (bytes_of "tag:yaml.org,2002:" ++ cstr s)))
    (directives_refused p) p.
Proof.
  intros Hi Hso Hf. destruct (outside_inv p Hi) as [Hl Hk].
  assert (mid_step F p.(err) [] 0 (eq []) (8 * tokens_left F p) p) as Hm.
  { destruct Hi as [_ _ Ht Hp _ Ho]. constructor; try done; [by rewrite Hk|by apply Ho|right; cbn; lia]. }
  eapply wp_directives; [done..|]. intros ts t p' Hr Ht Hd HT. exists ts, t. cbv zeta. rewrite HT.
  pose proof (with_defaults_tags _ Hd) as [Hdd _].
  do 4 (split; [done|]). split; [done|]. split; [|split].
  - intros d s Hin Hne. rewrite (resolve_in _ (stored d)); cbn; rewrite ?cstr_idem; try done.
    apply in_with_defaults, list_elem_of_fmap. by exists d.
  - intros s Hn. apply (resolve_in _ (mkTagDirective (bytes_of "!") (bytes_of "!"))); try done.
    apply (default_in_with_defaults _ (mkTagDirective (bytes_of "!") (bytes_of "!")));
      [by left|by rewrite handles_stored].
  - intros s Hn. apply (resolve_in _ (mkTagDirective (bytes_of "!!") (bytes_of "tag:yaml.org,2002:")));
      try done.
    apply (default_in_with_defaults _ (mkTagDirective (bytes_of "!!") (bytes_of "tag:yaml.org,2002:")));
      [by right; left|by rewrite handles_stored].
Qed.

(** [%YAML 1.1 %TAG !e! e: %TAG ! x: --- ], after the start of the stream. *)
Definition directive_tokens : list yaml_token_t :=
  map (fun d => TOKEN_INIT d mark0 mark0)
    [YAML_VERSION_DIRECTIVE_TOKEN 1 1;
     YAML_TAG_DIRECTIVE_TOKEN (bytes_of "!e!") (bytes_of "e:");
     YAML_TAG_DIRECTIVE_TOKEN (bytes_of "!") (bytes_of "x:")].

Definition parser_between (ts : list yaml_token_t) : yaml_parser_t :=
  match yaml_parser_parse (src := queue_source) 20
          (token_parser (TOKEN_INIT (YAML_STREAM_START_TOKEN YAML_UTF8_ENCODING) mark0 mark0 :: ts)) with
  | Ret _ p => p
  | _ => token_parser []
  end.

Definition directive_parser : yaml_parser_t :=
  parser_between (directive_tokens ++ [TOKEN_INIT YAML_DOCUMENT_START_TOKEN mark0 mark0]).

Lemma directive_parser_run :
  exists p', yaml_parser_process_directives (src := queue_source) 20 directive_parser
    = Ret (declared_version directive_tokens, declared_tags directive_tokens) p'.
Proof. eexists. vm_compute. reflexivity. Qed.

(** The three directives are read, and tags resolve with them. *)
Lemma document_directives_witness :
  exists ts t p', read_directives (src := queue_source) directive_parser ts t p'
    /\ declared_version ts = declared_version directive_tokens
    /\ declared_tags ts = declared_tags directive_tokens
    /\ resolve_tag (directive_list p') (bytes_of "!e!") (bytes_of "a") = Some (bytes_of "e:a")
    /\ resolve_tag (directive_list p') (bytes_of "!") (bytes_of "a") = Some (bytes_of "x:a")
    /\ resolve_tag (directive_list p') (bytes_of "!!") (bytes_of "a")
       = Some (bytes_of "tag:yaml.org,2002:a").
Proof.
  destruct directive_parser_run as [p' Hp'].
  assert (machine_inv NStream directive_parser) as Hi by by constructor.
  assert (enough_fuel strict (laws := queue_source_laws) 20 directive_parser) as Hf by by right.
  pose proof (wp_result _ _ _ _ _ _ _
    (document_directives strict (laws := queue_source_laws) 20 directive_parser Hi I Hf) Hp')
    as (ts & t & Hr & _ & Heq & _ & _ & Hin & _ & Hdef).
  apply pair_eq in Heq as [H1 H2].
  exists ts, t, p'. split; [exact Hr|]. split; [done|]. split; [done|].
  rewrite <- H2 in Hin, Hdef. split; [|split].
  - by rewrite (Hin (mkTagDirective (bytes_of "!e!") (bytes_of "e:"))); [|by left|].
  - by rewrite (Hin (mkTagDirective (bytes_of "!") (bytes_of "x:"))); [|by right; left|].
  - rewrite Hdef; [done|]. apply (bool_decide_eq_true_1 (bytes_of "!!" ∉ _)). by vm_compute.
Defined.
