(* ===== verification/YamlFrame.v ===== *)
(** * libyaml: what the reader and the scanner leave alone

    [sat R m]: every return of [m] relates the object before and after by [R],
    every failure records an error.  The combinators of the model preserve a
    preorder [R], so [sat] of a routine follows from [sat] of what it calls;
    the hint database [sat] holds what is known so far. *)

From Stdlib Require Import ZArith Lia Ascii String RelationClasses.
From stdpp Require Import base list option strings.
From S2P Require Import Prelude YamlData YamlReader YamlChars YamlScanner YamlParser.
From S2P Require Import YamlEvents.

#[local] Open Scope Z_scope.

Definition sat (R : yaml_parser_t -> yaml_parser_t -> Prop) {A} (m : yaml_prog A) : Prop :=
  forall p, wp lax m (fun _ p' => R p p') failed p.

Create HintDb sat.

Section sat_rules.
Context (R : yaml_parser_t -> yaml_parser_t -> Prop) `{!PreOrder R}.

Lemma sat_ret {A} (a : A) : sat R (mret a).
Proof. intros p. wp_steps. reflexivity. Qed.

Lemma sat_gets {A} (f : yaml_parser_t -> A) : sat R (gets f).
Proof. intros p. wp_steps. reflexivity. Qed.

Lemma sat_crash {A} : sat R (crash : yaml_prog A).
Proof. intros p. by apply wp_crash. Qed.

Lemma sat_timeout {A} : sat R (timeout : yaml_prog A).
Proof. intros p. by apply wp_timeout. Qed.

Lemma sat_modify (f : yaml_parser_t -> yaml_parser_t) : (forall p, R p (f p)) -> sat R (modify f).
Proof. intros H p. wp_steps. apply H. Qed.

Lemma sat_after {A} (m : yaml_prog A) p q : R p q -> sat R m -> wp lax m (fun _ p' => R p p') failed q.
Proof.
  intros H Hm. eapply wp_mono; [apply Hm| |done]. intros ? p' H'. cbn in H'. by transitivity q.
Qed.

Lemma sat_bind {A B} (m : yaml_prog A) (k : A -> yaml_prog B) :
  sat R m -> (forall a, sat R (k a)) -> sat R (m ≫= k).
Proof.
  intros Hm Hk p. wp_step. eapply wp_mono; [apply Hm| |done].
  intros a q H. by apply sat_after.
Qed.

Lemma sat_loop {L X} fuel (body : L -> yaml_prog (L + X)) :
  (forall l, sat R (body l)) -> forall l, sat R (loop fuel body l).
Proof.
  intros Hb l p. apply (wp_loop lax (fun _ q => R p q) (fun _ _ => 0%nat)); [|reflexivity|by left].
  intros l' q H. eapply wp_mono; [by apply sat_after| |done].
  intros [?|?] ? ?; [split; [done|by left]|done].
Qed.

Lemma sat_while fuel cond body : sat R cond -> sat R body -> sat R (while fuel cond body).
Proof.
  intros Hc Hb p. apply (wp_while lax (fun q => R p q) (fun _ => 0%nat)); [|reflexivity|by left].
  intros q H. eapply wp_mono; [by apply sat_after| |done]. intros [] r Hr; [|done].
  eapply wp_mono; [by apply sat_after| |done]. intros ? ? ?. split; [done|by left].
Qed.

Lemma sat_scan_loop {L X} (body : L -> yaml_prog (L + X)) l :
  (forall l, sat R (body l)) -> sat R (scan_loop body l).
Proof. intros H. apply sat_bind; [apply sat_gets|]. intros n. by apply sat_loop. Qed.

Lemma sat_scan_while cond body : sat R cond -> sat R body -> sat R (scan_while cond body).
Proof. intros H1 H2. apply sat_bind; [apply sat_gets|]. intros n. by apply sat_while. Qed.
End sat_rules.

(** The errors never return. *)
Lemma wp_reader_error F {A} msg off v (Q : A -> _ -> Prop) p :
  wp F (yaml_parser_set_reader_error msg off v) Q failed p.
Proof. unfold yaml_parser_set_reader_error. by wp_steps. Qed.
Lemma wp_scanner_error F {A} ctx m msg (Q : A -> _ -> Prop) p :
  wp F (yaml_parser_set_scanner_error ctx m msg) Q failed p.
Proof. unfold yaml_parser_set_scanner_error, get_mark. by wp_steps. Qed.
Lemma wp_memory_error F {A} (Q : A -> _ -> Prop) p : wp F memory_error Q failed p.
Proof. unfold memory_error. by wp_steps. Qed.

Lemma sat_reader_error R {A} msg off v : sat R (@yaml_parser_set_reader_error A msg off v).
Proof. intros p. apply wp_reader_error. Qed.
Lemma sat_scanner_error R {A} ctx m msg : sat R (@yaml_parser_set_scanner_error A ctx m msg).
Proof. intros p. apply wp_scanner_error. Qed.
Lemma sat_memory_error R {A} : sat R (@memory_error A).
Proof. intros p. apply wp_memory_error. Qed.
#[export] Hint Resolve sat_reader_error sat_scanner_error sat_memory_error : sat.

(** [sat_solve tac]: the structure of the routine, the hints, and [tac] for
    the assignments. *)
Ltac sat_step tac :=
  match goal with
  | |- forall _, _ => intros ?
  | |- sat _ (_ ≫= _) => apply sat_bind
  | |- sat _ (mret _) => apply sat_ret
  | |- sat _ (gets _) => apply sat_gets
  | |- sat _ crash => apply sat_crash
  | |- sat _ timeout => apply sat_timeout
  | |- sat _ (modify _) => apply sat_modify; intros ?; tac
  | |- sat _ (loop _ _ _) => apply sat_loop
  | |- sat _ (while _ _ _) => apply sat_while
  | |- sat _ (scan_loop _ _) => apply sat_scan_loop
  | |- sat _ (scan_while _ _) => apply sat_scan_while
  | |- sat _ (skip_while _) => unfold skip_while
  | |- sat _ (read_while _ _) => unfold read_while
  | |- sat _ (andM _ _) => unfold andM
  | |- sat _ (orM _ _) => unfold orM
  | |- sat _ (notM _) => unfold notM
  | |- sat _ (ifM _ _ _) => unfold ifM
  | |- sat _ (match ?x with _ => _ end) => destruct x
  | |- PreOrder _ => typeclasses eauto
  | |- _ => progress cbv beta zeta
  | |- _ => solve [eauto 2 with sat]
  end.
Ltac sat_solve tac := repeat sat_step tac.

(** ** Routines that change the reader alone *)

Record reader_only (p p' : yaml_parser_t) : Prop := mkReaderOnly {
  ro_scanner : p'.(scanner) = p.(scanner);
  ro_parsing : p'.(parsing) = p.(parsing);
  ro_err : p'.(err) = p.(err)
}.

#[export] Instance reader_only_preorder : PreOrder reader_only.
Proof.
  split; [by constructor|]. intros p q r [H1 H2 H3] [G1 G2 G3].
  constructor; congruence.
Qed.

Ltac reader_solve := sat_solve ltac:(by constructor).

Lemma ro_byte_at k : sat reader_only (byte_at k).
Proof. unfold byte_at. reader_solve. Qed.
#[export] Hint Resolve ro_byte_at : sat.

(** The reader of [reader.c] does not move the position either. *)
Record buffer_only (p p' : yaml_parser_t) : Prop := mkBufferOnly {
  bo_reader : reader_only p p';
  bo_mark : p'.(reader).(mark) = p.(reader).(mark)
}.

#[export] Instance buffer_only_preorder : PreOrder buffer_only.
Proof.
  split; [by constructor|]. intros p q r [H1 H2] [G1 G2].
  constructor; [by transitivity q|congruence].
Qed.

Ltac buffer_solve := sat_solve ltac:(by constructor).

Lemma bo_update_raw_buffer : sat buffer_only yaml_parser_update_raw_buffer.
Proof.
  unfold yaml_parser_update_raw_buffer. buffer_solve.
  intros p. unfold yaml_string_read_handler. wp_steps. destruct (input _); by wp_steps.
Qed.
#[export] Hint Resolve bo_update_raw_buffer : sat.

Lemma bo_skip_raw n : sat buffer_only (skip_raw n).
Proof. unfold skip_raw. buffer_solve. Qed.
#[export] Hint Resolve bo_skip_raw : sat.

Lemma bo_determine_encoding : sat buffer_only yaml_parser_determine_encoding.
Proof. unfold yaml_parser_determine_encoding. buffer_solve. Qed.
#[export] Hint Resolve bo_determine_encoding : sat.

Lemma bo_utf8_trail n k l v : sat buffer_only (utf8_trail n k l v).
Proof. revert k l v. induction n as [|n IH]; intros k l v; cbn [utf8_trail]; buffer_solve. Qed.
#[export] Hint Resolve bo_utf8_trail : sat.

Lemma bo_decode_char : sat buffer_only decode_char.
Proof. unfold decode_char, decode_utf8, decode_utf16. buffer_solve. Qed.
#[export] Hint Resolve bo_decode_char : sat.

Lemma bo_put_bytes bs : sat buffer_only (put_bytes bs).
Proof. unfold put_bytes. buffer_solve. Qed.
#[export] Hint Resolve bo_put_bytes : sat.

Lemma bo_decode_raw : sat buffer_only decode_raw.
Proof. unfold decode_raw, decode_step. buffer_solve. Qed.
#[export] Hint Resolve bo_decode_raw : sat.

Lemma bo_update_buffer n : sat buffer_only (yaml_parser_update_buffer n).
Proof. unfold yaml_parser_update_buffer, fill_step. buffer_solve. Qed.

Lemma ro_update_buffer n : sat reader_only (yaml_parser_update_buffer n).
Proof. intros p. eapply wp_mono; [apply bo_update_buffer|by intros ? p' []|done]. Qed.
#[export] Hint Resolve ro_update_buffer : sat.

(** Conditions on the buffer and the cursor. *)
Lemma ro_CHECK_AT o k : sat reader_only (CHECK_AT o k).
Proof. unfold CHECK_AT. reader_solve. Qed.
#[export] Hint Resolve ro_CHECK_AT : sat.

Lemma ro_IS_Z_AT k : sat reader_only (IS_Z_AT k).
Proof. apply ro_CHECK_AT. Qed.
Lemma ro_IS_SPACE_AT k : sat reader_only (IS_SPACE_AT k).
Proof. apply ro_CHECK_AT. Qed.
Lemma ro_IS_TAB_AT k : sat reader_only (IS_TAB_AT k).
Proof. apply ro_CHECK_AT. Qed.
#[export] Hint Resolve ro_IS_Z_AT ro_IS_SPACE_AT ro_IS_TAB_AT : sat.

Lemma ro_IS_BREAK_AT k : sat reader_only (IS_BREAK_AT k).
Proof. unfold IS_BREAK_AT. reader_solve. Qed.
Lemma ro_IS_BLANK_AT k : sat reader_only (IS_BLANK_AT k).
Proof. unfold IS_BLANK_AT. reader_solve. Qed.
Lemma ro_CHECK c : sat reader_only (CHECK c).
Proof. apply ro_CHECK_AT. Qed.
Lemma ro_check_at c k : sat reader_only (check_at c k).
Proof. apply ro_CHECK_AT. Qed.
#[export] Hint Resolve ro_IS_BREAK_AT ro_IS_BLANK_AT ro_CHECK ro_check_at : sat.

Lemma ro_IS_BREAKZ_AT k : sat reader_only (IS_BREAKZ_AT k).
Proof. unfold IS_BREAKZ_AT. reader_solve. Qed.
#[export] Hint Resolve ro_IS_BREAKZ_AT : sat.
Lemma ro_IS_BLANKZ_AT k : sat reader_only (IS_BLANKZ_AT k).
Proof. unfold IS_BLANKZ_AT. reader_solve. Qed.
#[export] Hint Resolve ro_IS_BLANKZ_AT : sat.

Lemma ro_check_any cs : sat reader_only (check_any cs).
Proof.
  induction cs as [|c [|c' cs] IH]; [cbn; reader_solve..|].
  change (check_any (c :: c' :: cs)) with (orM (CHECK c) (check_any (c' :: cs))). reader_solve.
Qed.
#[export] Hint Resolve ro_check_any : sat.

Lemma ro_IS_ALPHA : sat reader_only IS_ALPHA.
Proof. unfold IS_ALPHA. reader_solve. Qed.
Lemma ro_IS_DIGIT : sat reader_only IS_DIGIT.
Proof. unfold IS_DIGIT. reader_solve. Qed.
Lemma ro_AS_DIGIT : sat reader_only AS_DIGIT.
Proof. unfold AS_DIGIT. reader_solve. Qed.
Lemma ro_IS_HEX_AT k : sat reader_only (IS_HEX_AT k).
Proof. unfold IS_HEX_AT. reader_solve. Qed.
Lemma ro_AS_HEX_AT k : sat reader_only (AS_HEX_AT k).
Proof. unfold AS_HEX_AT. reader_solve. Qed.
Lemma ro_IS_Z : sat reader_only IS_Z.
Proof. unfold IS_Z. reader_solve. Qed.
Lemma ro_IS_SPACE : sat reader_only IS_SPACE.
Proof. unfold IS_SPACE. reader_solve. Qed.
Lemma ro_IS_TAB : sat reader_only IS_TAB.
Proof. unfold IS_TAB. reader_solve. Qed.
Lemma ro_IS_BOM : sat reader_only IS_BOM.
Proof. unfold IS_BOM. reader_solve. Qed.
Lemma ro_IS_CRLF : sat reader_only IS_CRLF.
Proof. unfold IS_CRLF. reader_solve. Qed.
Lemma ro_IS_BREAK : sat reader_only IS_BREAK.
Proof. unfold IS_BREAK. reader_solve. Qed.
Lemma ro_IS_BREAKZ : sat reader_only IS_BREAKZ.
Proof. unfold IS_BREAKZ. reader_solve. Qed.
Lemma ro_IS_BLANK : sat reader_only IS_BLANK.
Proof. unfold IS_BLANK. reader_solve. Qed.
Lemma ro_IS_BLANKZ : sat reader_only IS_BLANKZ.
Proof. unfold IS_BLANKZ. reader_solve. Qed.
#[export] Hint Resolve ro_IS_ALPHA ro_IS_DIGIT ro_AS_DIGIT ro_IS_HEX_AT ro_AS_HEX_AT ro_IS_Z ro_IS_SPACE
  ro_IS_TAB ro_IS_BOM ro_IS_CRLF ro_IS_BREAK ro_IS_BREAKZ ro_IS_BLANK ro_IS_BLANKZ : sat.

(** The cursor macros. *)
Lemma ro_get_mark : sat reader_only get_mark.
Proof. unfold get_mark. reader_solve. Qed.
Lemma ro_advance n : sat reader_only (advance n).
Proof. unfold advance. reader_solve. Qed.
#[export] Hint Resolve ro_get_mark ro_advance : sat.
Lemma ro_move_mark n nl : sat reader_only (move_mark n nl).
Proof. unfold move_mark. reader_solve. Qed.
Lemma ro_CACHE n : sat reader_only (CACHE n).
Proof. unfold CACHE. reader_solve. Qed.
Lemma ro_copy_bytes n : sat reader_only (copy_bytes n).
Proof. unfold copy_bytes. reader_solve. Qed.
#[export] Hint Resolve ro_move_mark ro_CACHE ro_copy_bytes : sat.
Lemma ro_SKIP : sat reader_only SKIP.
Proof. unfold SKIP. reader_solve. Qed.
Lemma ro_SKIP_LINE : sat reader_only SKIP_LINE.
Proof. unfold SKIP_LINE. reader_solve. Qed.
Lemma ro_READ s : sat reader_only (READ s).
Proof. unfold READ. reader_solve. Qed.
Lemma ro_READ_LINE s : sat reader_only (READ_LINE s).
Proof. unfold READ_LINE. reader_solve. Qed.
#[export] Hint Resolve ro_SKIP ro_SKIP_LINE ro_READ ro_READ_LINE : sat.

(** Tests of the scanner's own fields. *)
Lemma ro_in_flow : sat reader_only in_flow.
Proof. unfold in_flow. reader_solve. Qed.
Lemma ro_in_block : sat reader_only in_block.
Proof. unfold in_block. reader_solve. Qed.
Lemma ro_column_is_0 : sat reader_only column_is_0.
Proof. unfold column_is_0. reader_solve. Qed.
Lemma ro_get_simple_key_allowed : sat reader_only get_simple_key_allowed.
Proof. unfold get_simple_key_allowed. reader_solve. Qed.
#[export] Hint Resolve ro_in_flow ro_in_block ro_column_is_0 ro_get_simple_key_allowed : sat.

(** ** The scanning routines *)

Lemma ro_scan_rest_of_line ctx m : sat reader_only (scan_rest_of_line ctx m).
Proof. unfold scan_rest_of_line. reader_solve. Qed.
Lemma ro_scan_directive_name m : sat reader_only (yaml_parser_scan_directive_name m).
Proof. unfold yaml_parser_scan_directive_name. reader_solve. Qed.
Lemma ro_scan_version_number m : sat reader_only (yaml_parser_scan_version_directive_number m).
Proof. unfold yaml_parser_scan_version_directive_number. reader_solve. Qed.
#[export] Hint Resolve ro_scan_rest_of_line ro_scan_directive_name ro_scan_version_number : sat.
Lemma ro_scan_version_value m : sat reader_only (yaml_parser_scan_version_directive_value m).
Proof. unfold yaml_parser_scan_version_directive_value. reader_solve. Qed.
Lemma ro_scan_tag_handle d m : sat reader_only (yaml_parser_scan_tag_handle d m).
Proof. unfold yaml_parser_scan_tag_handle. reader_solve. Qed.
Lemma ro_scan_uri_escapes d m s : sat reader_only (yaml_parser_scan_uri_escapes d m s).
Proof. unfold yaml_parser_scan_uri_escapes. reader_solve. Qed.
#[export] Hint Resolve ro_scan_version_value ro_scan_tag_handle ro_scan_uri_escapes : sat.
Lemma ro_scan_tag_uri u d h m : sat reader_only (yaml_parser_scan_tag_uri u d h m).
Proof. unfold yaml_parser_scan_tag_uri. reader_solve. Qed.
#[export] Hint Resolve ro_scan_tag_uri : sat.
Lemma ro_scan_tag_directive_value m : sat reader_only (yaml_parser_scan_tag_directive_value m).
Proof. unfold yaml_parser_scan_tag_directive_value. reader_solve. Qed.
#[export] Hint Resolve ro_scan_tag_directive_value : sat.
Lemma ro_scan_directive : sat reader_only yaml_parser_scan_directive.
Proof. unfold yaml_parser_scan_directive. reader_solve. Qed.
Lemma ro_scan_anchor a : sat reader_only (yaml_parser_scan_anchor a).
Proof. unfold yaml_parser_scan_anchor. reader_solve. Qed.
Lemma ro_scan_tag : sat reader_only yaml_parser_scan_tag.
Proof. unfold yaml_parser_scan_tag. reader_solve. Qed.
#[export] Hint Resolve ro_scan_directive ro_scan_anchor ro_scan_tag : sat.
Lemma ro_scan_block_header m : sat reader_only (scan_block_header m).
Proof. unfold scan_block_header. reader_solve. Qed.
Lemma ro_scan_block_scalar_breaks i b m :
  sat reader_only (yaml_parser_scan_block_scalar_breaks i b m).
Proof. unfold yaml_parser_scan_block_scalar_breaks, below_indent. reader_solve. Qed.
#[export] Hint Resolve ro_scan_block_header ro_scan_block_scalar_breaks : sat.
Lemma ro_scan_block_line b m l : sat reader_only (scan_block_line b m l).
Proof. unfold scan_block_line. reader_solve. Qed.
#[export] Hint Resolve ro_scan_block_line : sat.
Lemma ro_scan_block_scalar b : sat reader_only (yaml_parser_scan_block_scalar b).
Proof. unfold yaml_parser_scan_block_scalar. reader_solve. Qed.
#[export] Hint Resolve ro_scan_block_scalar : sat.

Lemma ro_at_document_indicator : sat reader_only at_document_indicator.
Proof. unfold at_document_indicator. reader_solve. Qed.
Lemma ro_scan_hex n k v m : sat reader_only (scan_hex n k v m).
Proof. revert k v. induction n as [|n IH]; intros k v; cbn [scan_hex]; reader_solve. Qed.
Lemma ro_skip_n n : sat reader_only (skip_n n).
Proof. induction n as [|n IH]; cbn [skip_n]; reader_solve. Qed.
#[export] Hint Resolve ro_at_document_indicator ro_scan_hex ro_skip_n : sat.
Lemma ro_scan_escape m s : sat reader_only (scan_escape m s).
Proof. unfold scan_escape. reader_solve. Qed.
#[export] Hint Resolve ro_scan_escape : sat.
Lemma ro_scan_quoted_text b m s : sat reader_only (scan_quoted_text b m s).
Proof. unfold scan_quoted_text. reader_solve. Qed.
Lemma ro_scan_one_blank b : sat reader_only (scan_one_blank b).
Proof. unfold scan_one_blank. reader_solve. Qed.
#[export] Hint Resolve ro_scan_quoted_text ro_scan_one_blank : sat.
Lemma ro_scan_quoted_blanks b : sat reader_only (scan_quoted_blanks b).
Proof. unfold scan_quoted_blanks. reader_solve. Qed.
#[export] Hint Resolve ro_scan_quoted_blanks : sat.
Lemma ro_scan_flow_scalar b : sat reader_only (yaml_parser_scan_flow_scalar b).
Proof. unfold yaml_parser_scan_flow_scalar. reader_solve. Qed.
Lemma ro_at_flow_colon : sat reader_only at_flow_colon.
Proof. unfold at_flow_colon. reader_solve. Qed.
Lemma ro_at_plain_end : sat reader_only at_plain_end.
Proof. unfold at_plain_end. reader_solve. Qed.
Lemma ro_starts_plain_scalar : sat reader_only starts_plain_scalar.
Proof. unfold starts_plain_scalar. reader_solve. Qed.
#[export] Hint Resolve ro_scan_flow_scalar ro_at_flow_colon ro_at_plain_end
  ro_starts_plain_scalar : sat.
Lemma ro_scan_plain_text m l : sat reader_only (scan_plain_text m l).
Proof. unfold scan_plain_text. reader_solve. Qed.
Lemma ro_scan_plain_blanks m i b : sat reader_only (scan_plain_blanks m i b).
Proof. unfold scan_plain_blanks. reader_solve. Qed.
#[export] Hint Resolve ro_scan_plain_text ro_scan_plain_blanks : sat.

(** ** Routines of the scanner that also change [simple_key_allowed] *)

(** All the scanner's fields but [simple_key_allowed]. *)
Definition same_levels (a b : yaml_scanner) : Prop :=
  b.(stream_start_produced) = a.(stream_start_produced)
  /\ b.(stream_end_produced) = a.(stream_end_produced)
  /\ b.(flow_level) = a.(flow_level) /\ b.(tokens) = a.(tokens)
  /\ b.(tokens_parsed) = a.(tokens_parsed) /\ b.(token_available) = a.(token_available)
  /\ b.(indents) = a.(indents) /\ b.(indent) = a.(indent)
  /\ b.(simple_keys) = a.(simple_keys).

Record scan_only (p p' : yaml_parser_t) : Prop := mkScanOnly {
  so_scanner : same_levels p.(scanner) p'.(scanner);
  so_parsing : p'.(parsing) = p.(parsing);
  so_err : p'.(err) = p.(err)
}.

#[export] Instance scan_only_preorder : PreOrder scan_only.
Proof.
  split; [by constructor|]. unfold same_levels.
  intros p q r [H1 H2 H3] [G1 G2 G3]. constructor; [|congruence..].
  unfold same_levels in *. destruct_and!. split_and!; congruence.
Qed.

Lemma so_of_ro {A} (m : yaml_prog A) : sat reader_only m -> sat scan_only m.
Proof.
  intros H p. eapply wp_mono; [apply H| |done]. intros ? p' [H1 H2 H3].
  constructor; try done. by rewrite H1.
Qed.

Ltac scan_solve := sat_solve ltac:(by constructor); try (apply so_of_ro; by eauto 2 with sat).

Lemma so_scan_to_next_token : sat scan_only yaml_parser_scan_to_next_token.
Proof. unfold yaml_parser_scan_to_next_token. scan_solve. Qed.
Lemma so_scan_plain_scalar : sat scan_only yaml_parser_scan_plain_scalar.
Proof. unfold yaml_parser_scan_plain_scalar. scan_solve. Qed.
