(* ===== verification/YamlLevels.v ===== *)
(** * libyaml: the levels the scanner keeps

    What every routine that fetches tokens preserves: the parser's own fields,
    one potential simple key per flow level, a strictly increasing stack of
    indentation levels with [-1] at its bottom, and the balance between the
    block collections opened in the queue and the stack of indents.  With it
    the scanner is an instance of the interface the state machine of
    [parser.c] is proved against. *)

From Stdlib Require Import ZArith Lia Ascii String RelationClasses.
From stdpp Require Import base list option strings.
From S2P Require Import Prelude YamlData YamlReader YamlChars YamlScanner YamlParser.
From S2P Require Import YamlEvents YamlFrame YamlRefinement.

#[local] Open Scope Z_scope.

(** ** The invariant *)

(** [indent] and the stack under it: strictly decreasing down to [-1]. *)
Fixpoint indent_chain (i : Z) (l : list Z) : Prop :=
  match l with
  | [] => i = -1
  | x :: l' => x < i /\ indent_chain x l'
  end.

Record levels (sc : yaml_scanner) : Prop := mkLevels {
  lv_flow : 0 <= sc.(flow_level);
  lv_keys : Z.of_nat (length sc.(simple_keys).(items)) = sc.(flow_level) + 1;
  lv_chain : indent_chain sc.(indent) sc.(indents).(items)
}.

(** Before the stream starts there are no levels. *)
Definition scan_inv (sc : yaml_scanner) : Prop :=
  if sc.(stream_start_produced) then levels sc
  else sc.(simple_keys).(items) = [] /\ sc.(flow_level) = 0 /\ sc.(indents).(items) = []
       /\ sc.(tokens) = [].

(** What a token adds to the number of open block collections. *)
Definition block_delta (t : yaml_token_t) : Z :=
  match t.(token_data) with
  | YAML_BLOCK_SEQUENCE_START_TOKEN | YAML_BLOCK_MAPPING_START_TOKEN => 1
  | YAML_BLOCK_END_TOKEN => -1
  | _ => 0
  end.

Fixpoint block_depth (ts : list yaml_token_t) : Z :=
  match ts with
  | [] => 0
  | t :: ts' => block_delta t + block_depth ts'
  end.

Definition open_blocks (p : yaml_parser_t) : Z :=
  block_depth p.(scanner).(tokens) - Z.of_nat (length p.(scanner).(indents).(items)).

Lemma block_depth_app a b : block_depth (a ++ b) = block_depth a + block_depth b.
Proof. induction a as [|t a IH]; cbn; [done|]. rewrite IH. lia. Qed.

(** The parser's own fields and the error are left alone. *)
Record keeps (p p' : yaml_parser_t) : Prop := mkKeeps {
  k_parsing : p'.(parsing) = p.(parsing);
  k_err : p'.(err) = p.(err);
  k_end : p'.(scanner).(stream_end_produced) = p.(scanner).(stream_end_produced);
  k_parsed : p'.(scanner).(tokens_parsed) = p.(scanner).(tokens_parsed);
  k_avail : p'.(scanner).(token_available) = p.(scanner).(token_available);
  k_started : p.(scanner).(stream_start_produced) = true ->
              p'.(scanner).(stream_start_produced) = true;
  k_queue : (length p.(scanner).(tokens) <= length p'.(scanner).(tokens))%nat;
  k_levels : p.(scanner).(stream_start_produced) = true -> levels p.(scanner) ->
             levels p'.(scanner);
  k_blocks : open_blocks p' = open_blocks p
}.

#[export] Instance keeps_preorder : PreOrder keeps.
Proof.
  split; [by constructor|].
  intros p q r [] []. constructor; try congruence; auto; lia.
Qed.

Lemma keeps_of_so {A} (m : yaml_prog A) : sat scan_only m -> sat keeps m.
Proof.
  intros H p. eapply wp_mono; [apply H| |done].
  intros ? p' [(H1 & H2 & H3 & H4 & H5 & H6 & H7 & H8 & H9) Hp He].
  constructor; unfold open_blocks; try congruence.
  - by rewrite H4.
  - intros _ []. constructor; rewrite ?H3, ?H7, ?H8, ?H9; auto.
Qed.

Lemma keeps_of_ro {A} (m : yaml_prog A) : sat reader_only m -> sat keeps m.
Proof. intros H. by apply keeps_of_so, so_of_ro. Qed.

(** [tac] for assignments, hints for what is known of the scanner. *)
Ltac keeps_assign :=
  constructor; try done; intros _ []; constructor; done.
Ltac keeps_solve :=
  sat_solve keeps_assign; try (apply keeps_of_ro; by eauto 2 with sat).

Lemma keeps_ENQUEUE t : block_delta t = 0 -> sat keeps (ENQUEUE t).
Proof.
  intros Ht p. unfold ENQUEUE. wp_steps. constructor; cbn; try done.
  - rewrite length_app. lia.
  - intros _ []. by constructor.
  - unfold open_blocks. cbn. rewrite block_depth_app. cbn. lia.
Qed.

(** ** Simple keys and flow levels *)

Lemma stale_keys_length here ks : length (stale_keys here ks).1 = length ks.
Proof.
  induction ks as [|k ks IH]; cbn; [done|].
  destruct (key_is_stale here k); [destruct (required k)|]; cbn; by rewrite ?IH.
Qed.

Lemma keeps_set_keys p ks :
  length ks = length p.(scanner).(simple_keys).(items) -> keeps p (set_key_items ks p).
Proof.
  intros Hl. constructor; try done. intros _ []. constructor; cbn; by rewrite ?Hl.
Qed.

Lemma keeps_stale_simple_keys : sat keeps yaml_parser_stale_simple_keys.
Proof.
  intros p. unfold yaml_parser_stale_simple_keys, get_mark. wp_steps.
  destruct (snd _); [apply wp_scanner_error|]. wp_steps. apply keeps_set_keys.
  by rewrite length_rev, stale_keys_length, length_rev.
Qed.

Lemma keeps_top_simple_key : sat keeps top_simple_key.
Proof. unfold top_simple_key. keeps_solve. Qed.

Lemma keeps_set_top_simple_key k : sat keeps (set_top_simple_key k).
Proof.
  intros p. unfold set_top_simple_key. wp_steps.
  destruct (items (simple_keys (scanner p))) eqn:E; [done|]. wp_steps.
  apply keeps_set_keys. by rewrite E.
Qed.
#[export] Hint Resolve keeps_stale_simple_keys keeps_top_simple_key keeps_set_top_simple_key : sat.

Lemma keeps_remove_simple_key : sat keeps yaml_parser_remove_simple_key.
Proof. unfold yaml_parser_remove_simple_key. keeps_solve. Qed.
#[export] Hint Resolve keeps_remove_simple_key : sat.

Lemma keeps_save_simple_key : sat keeps yaml_parser_save_simple_key.
Proof. unfold yaml_parser_save_simple_key. keeps_solve. Qed.
#[export] Hint Resolve keeps_save_simple_key : sat.

Lemma keeps_increase_flow_level : sat keeps yaml_parser_increase_flow_level.
Proof.
  intros p. unfold yaml_parser_increase_flow_level. wp_step. apply wp_PUSH. intros c. wp_steps.
  destruct (_ =? INT_MAX); [apply wp_memory_error|]. wp_steps.
  constructor; try done. intros _ []. constructor; cbn in *; try done; lia.
Qed.

Lemma keeps_decrease_flow_level : sat keeps yaml_parser_decrease_flow_level.
Proof.
  intros p. unfold yaml_parser_decrease_flow_level, pop_simple_key, POP. wp_steps.
  destruct (_ =? 0) eqn:E; wp_steps; [reflexivity|].
  destruct (items _) as [|k ks] eqn:Ek; [done|]. wp_steps.
  apply Z.eqb_neq in E. cbn in Ek.
  constructor; try done. intros _ []. rewrite Ek in *. constructor; cbn in *; try done; lia.
Qed.
#[export] Hint Resolve keeps_increase_flow_level keeps_decrease_flow_level : sat.

(** ** Indentation *)

Lemma keeps_roll_indent col number type m :
  block_delta (TOKEN_INIT type m m) = 1 ->
  sat keeps (yaml_parser_roll_indent col number type m).
Proof.
  intros Ht p. unfold yaml_parser_roll_indent, ifM, in_flow. wp_steps.
  destruct (negb _); wp_steps; [reflexivity|].
  destruct (_ <? col) eqn:Ec; wp_steps; [|reflexivity]. apply Z.ltb_lt in Ec.
  apply wp_PUSH. intros c. destruct (col >? INT_MAX); [apply wp_memory_error|].
  wp_steps. destruct (number =? -1); unfold ENQUEUE, QUEUE_INSERT; wp_steps.
  - constructor; try done; cbn.
    + rewrite length_app. lia.
    + intros _ []. by constructor.
    + unfold open_blocks. cbn. rewrite block_depth_app. cbn. lia.
  - destruct (_ && _); [|done]. wp_steps. constructor; try done; cbn.
    + rewrite length_app, length_take. cbn. rewrite length_drop. lia.
    + intros _ []. by constructor.
    + unfold open_blocks. cbn.
      rewrite <- (take_drop (Z.to_nat (number - tokens_parsed (scanner p))) (tokens (scanner p))) at 3.
      rewrite !block_depth_app. cbn. lia.
Qed.

Lemma keeps_unroll_one :
  sat keeps
    (m ← get_mark;
     ENQUEUE (TOKEN_INIT YAML_BLOCK_END_TOKEN m m);;
     i ← pop_indent;
     modify (set_indent i)).
Proof.
  intros p. unfold get_mark, ENQUEUE, pop_indent, POP. wp_steps. cbn.
  destruct (items (indents (scanner p))) as [|i l] eqn:Ei; [done|]. wp_steps.
  constructor; try done; cbn.
  - rewrite length_app. lia.
  - intros _ [? ? Hc]. rewrite Ei in Hc. destruct Hc. by constructor.
  - unfold open_blocks. cbn. rewrite block_depth_app, Ei. cbn. lia.
Qed.

Lemma keeps_unroll_indent col : sat keeps (yaml_parser_unroll_indent col).
Proof.
  unfold yaml_parser_unroll_indent, ifM. apply sat_bind; [apply _|keeps_solve|]. intros [].
  { apply sat_ret. apply _. }
  apply sat_bind; [apply _|keeps_solve|]. intros n.
  apply sat_while; [apply _|keeps_solve|apply keeps_unroll_one].
Qed.
#[export] Hint Resolve keeps_unroll_indent : sat.

(** ** The fetchers *)

Lemma keeps_fetch_indicator type :
  (forall a b, block_delta (TOKEN_INIT type a b) = 0) -> sat keeps (fetch_indicator type).
Proof. intros H. unfold fetch_indicator. keeps_solve. by apply keeps_ENQUEUE. Qed.

Lemma keeps_fetch_document_indicator type :
  (forall a b, block_delta (TOKEN_INIT type a b) = 0) ->
  sat keeps (yaml_parser_fetch_document_indicator type).
Proof. intros H. unfold yaml_parser_fetch_document_indicator. keeps_solve. by apply keeps_ENQUEUE. Qed.

Lemma keeps_fetch_stream_end : sat keeps yaml_parser_fetch_stream_end.
Proof. unfold yaml_parser_fetch_stream_end. keeps_solve. by apply keeps_ENQUEUE. Qed.

Lemma keeps_fetch_flow_collection_start type :
  (forall a b, block_delta (TOKEN_INIT type a b) = 0) ->
  sat keeps (yaml_parser_fetch_flow_collection_start type).
Proof. intros H. unfold yaml_parser_fetch_flow_collection_start. keeps_solve. by apply keeps_fetch_indicator. Qed.

Lemma keeps_fetch_flow_collection_end type :
  (forall a b, block_delta (TOKEN_INIT type a b) = 0) ->
  sat keeps (yaml_parser_fetch_flow_collection_end type).
Proof. intros H. unfold yaml_parser_fetch_flow_collection_end. keeps_solve. by apply keeps_fetch_indicator. Qed.

Lemma keeps_fetch_flow_entry : sat keeps yaml_parser_fetch_flow_entry.
Proof. unfold yaml_parser_fetch_flow_entry. keeps_solve. by apply keeps_fetch_indicator. Qed.

Lemma keeps_block_indicator msg type :
  (forall a b, block_delta (TOKEN_INIT type a b) = 1) -> sat keeps (block_indicator msg type).
Proof. intros H. unfold block_indicator. keeps_solve. by apply keeps_roll_indent. Qed.

Lemma keeps_fetch_block_entry : sat keeps yaml_parser_fetch_block_entry.
Proof.
  unfold yaml_parser_fetch_block_entry. keeps_solve;
    by apply keeps_fetch_indicator || by apply keeps_block_indicator.
Qed.

Lemma keeps_fetch_key : sat keeps yaml_parser_fetch_key.
Proof.
  unfold yaml_parser_fetch_key. keeps_solve;
    by apply keeps_fetch_indicator || by apply keeps_block_indicator.
Qed.

Lemma keeps_QUEUE_INSERT i t : block_delta t = 0 -> sat keeps (QUEUE_INSERT i t).
Proof.
  intros Ht p. unfold QUEUE_INSERT. wp_steps. destruct (_ && _); [|done]. wp_steps.
  constructor; try done; cbn.
  - rewrite length_app, length_take. cbn. rewrite length_drop. lia.
  - intros _ []. by constructor.
  - unfold open_blocks. cbn. rewrite <- (take_drop (Z.to_nat i) (tokens (scanner p))) at 3.
    rewrite !block_depth_app. cbn. lia.
Qed.

Lemma keeps_fetch_value : sat keeps yaml_parser_fetch_value.
Proof.
  unfold yaml_parser_fetch_value. keeps_solve;
    first [ by apply keeps_QUEUE_INSERT | by apply keeps_roll_indent
          | by apply keeps_fetch_indicator | by apply keeps_block_indicator ].
Qed.
#[export] Hint Resolve keeps_fetch_stream_end keeps_fetch_flow_entry keeps_fetch_block_entry
  keeps_fetch_key keeps_fetch_value : sat.

(** ** Tokens that a scan returns *)

Definition res {A} (P : A -> Prop) (m : yaml_prog A) : Prop :=
  forall p, wp lax m (fun a _ => P a) failed p.

Lemma res_ret {A} (P : A -> Prop) a : P a -> res P (mret a).
Proof. intros H p. by wp_steps. Qed.

Lemma res_bind {A B} (P : B -> Prop) (m : yaml_prog A) k :
  sat scan_only m -> (forall a, res P (k a)) -> res P (m ≫= k).
Proof. intros Hm Hk p. wp_step. eapply wp_mono; [apply Hm| |done]. intros a q _. apply Hk. Qed.

Lemma res_bind_val {A B} (P : B -> Prop) (m : yaml_prog A) (P' : A -> Prop) k :
  res P' m -> (forall a, P' a -> res P (k a)) -> res P (m ≫= k).
Proof. intros Hm Hk p. wp_step. eapply wp_mono; [apply Hm| |done]. intros a q H. by apply Hk. Qed.

Lemma res_error {A} (P : A -> Prop) ctx m msg : res P (yaml_parser_set_scanner_error ctx m msg).
Proof. intros p. apply wp_scanner_error. Qed.

Ltac res_step :=
  match goal with
  | |- forall _, _ => intros ?
  | |- res _ (mret _) => apply res_ret
  | |- res _ (yaml_parser_set_scanner_error _ _ _) => apply res_error
  | |- res _ (ifM _ _ _) => unfold ifM
  | |- res _ (match ?x with _ => _ end) => destruct x
  | |- res _ (_ ≫= _) => apply res_bind; [solve [scan_solve]|]
  | |- _ => progress cbv beta zeta
  end.

(** The end of the stream. *)
Definition is_end (t : yaml_token_t) : bool :=
  match t.(token_data) with YAML_STREAM_END_TOKEN => true | _ => false end.

(** The token is none of the block collection tokens, nor the end. *)
Definition plain_token (t : yaml_token_t) : Prop := block_delta t = 0 /\ is_end t = false.

Lemma res_scan_anchor a : res plain_token (yaml_parser_scan_anchor a).
Proof. unfold yaml_parser_scan_anchor. repeat res_step. by destruct a. Qed.

Lemma res_scan_tag : res plain_token yaml_parser_scan_tag.
Proof. unfold yaml_parser_scan_tag. repeat res_step. done. Qed.

Lemma res_scan_directive : res plain_token yaml_parser_scan_directive.
Proof.
  unfold yaml_parser_scan_directive. do 6 res_step.
  apply (res_bind_val _ _ plain_token); repeat res_step; done.
Qed.

Lemma res_scan_block_scalar b : res plain_token (yaml_parser_scan_block_scalar b).
Proof. unfold yaml_parser_scan_block_scalar. repeat res_step. done. Qed.

Lemma res_scan_flow_scalar b : res plain_token (yaml_parser_scan_flow_scalar b).
Proof. unfold yaml_parser_scan_flow_scalar. repeat res_step. done. Qed.

Lemma res_scan_plain_scalar : res plain_token yaml_parser_scan_plain_scalar.
Proof. unfold yaml_parser_scan_plain_scalar. repeat res_step. done. Qed.

Lemma keeps_scan_enqueue (m : yaml_prog yaml_token_t) :
  sat keeps m -> res plain_token m -> sat keeps (t ← m; ENQUEUE t).
Proof.
  intros Hk Hr p. wp_step. eapply wp_mono; [apply wp_and; [apply Hk|apply Hr]| |done].
  intros t q [H1 [H2 _]]. apply (sat_after keeps (ENQUEUE t) p q H1). by apply keeps_ENQUEUE.
Qed.

(** The fetchers of scanned tokens: bookkeeping, then the scan. *)
Ltac keeps_scan :=
  repeat match goal with
  | |- sat _ (_ ≫= (fun t => ENQUEUE t)) => apply keeps_scan_enqueue
  | |- sat _ (_ ≫= _) => apply sat_bind; [apply _|solve [keeps_solve]|intros ?]
  end;
  [first [apply keeps_of_ro; by eauto 2 with sat | apply keeps_of_so, so_scan_plain_scalar]|].

Lemma keeps_fetch_directive : sat keeps yaml_parser_fetch_directive.
Proof. unfold yaml_parser_fetch_directive. keeps_scan. apply res_scan_directive. Qed.
Lemma keeps_fetch_anchor a : sat keeps (yaml_parser_fetch_anchor a).
Proof. unfold yaml_parser_fetch_anchor. keeps_scan. apply res_scan_anchor. Qed.
Lemma keeps_fetch_tag : sat keeps yaml_parser_fetch_tag.
Proof. unfold yaml_parser_fetch_tag. keeps_scan. apply res_scan_tag. Qed.
Lemma keeps_fetch_block_scalar b : sat keeps (yaml_parser_fetch_block_scalar b).
Proof. unfold yaml_parser_fetch_block_scalar. keeps_scan. apply res_scan_block_scalar. Qed.
Lemma keeps_fetch_flow_scalar b : sat keeps (yaml_parser_fetch_flow_scalar b).
Proof. unfold yaml_parser_fetch_flow_scalar. keeps_scan. apply res_scan_flow_scalar. Qed.
Lemma keeps_fetch_plain_scalar : sat keeps yaml_parser_fetch_plain_scalar.
Proof. unfold yaml_parser_fetch_plain_scalar. keeps_scan. apply res_scan_plain_scalar. Qed.
#[export] Hint Resolve keeps_fetch_directive keeps_fetch_anchor keeps_fetch_tag
  keeps_fetch_block_scalar keeps_fetch_flow_scalar keeps_fetch_plain_scalar : sat.

(** A fetch keeps the invariant too, also across the start of the stream. *)
Record fetched (p p' : yaml_parser_t) : Prop := mkFetched {
  f_keeps : keeps p p';
  f_inv : scan_inv p.(scanner) -> scan_inv p'.(scanner)
}.

#[export] Instance fetched_preorder : PreOrder fetched.
Proof.
  split; [intros p; split; [reflexivity|done]|].
  intros p q r [H1 H2] [G1 G2]. split; [by transitivity q|auto].
Qed.

Lemma fetched_of_keeps p p' :
  p.(scanner).(stream_start_produced) = true -> keeps p p' -> fetched p p'.
Proof.
  intros Hs Hk. split; [done|]. destruct Hk. unfold scan_inv. rewrite Hs, k_started0 by done. auto.
Qed.

(** The start of the stream sets up the first levels. *)
Lemma wp_fetch_stream_start p :
  p.(scanner).(stream_start_produced) = false ->
  wp lax yaml_parser_fetch_stream_start (fun _ p' => fetched p p') failed p.
Proof.
  intros Hs. unfold yaml_parser_fetch_stream_start, get_mark, ENQUEUE. wp_steps.
  apply wp_PUSH. intros c. wp_steps. split.
  - constructor; try done; cbn.
    + rewrite length_app. lia.
    + by rewrite Hs.
    + unfold open_blocks. cbn. rewrite block_depth_app. cbn. lia.
  - intros Hi. unfold scan_inv in Hi. rewrite Hs in Hi. destruct Hi as (H1 & H2 & H3 & H4).
    constructor; cbn; rewrite ?H1, ?H2, ?H3; done.
Qed.

(** ** The dispatcher *)

Lemma keeps_fetch_by_indicator : sat keeps fetch_by_indicator.
Proof.
  unfold fetch_by_indicator. keeps_solve;
    first [ by apply keeps_fetch_document_indicator | by apply keeps_fetch_flow_collection_start
          | by apply keeps_fetch_flow_collection_end ].
Qed.
#[export] Hint Resolve keeps_fetch_by_indicator : sat.

Lemma fetched_fetch_next_token : sat fetched yaml_parser_fetch_next_token.
Proof.
  intros p. unfold yaml_parser_fetch_next_token. wp_step.
  eapply wp_mono; [apply wp_and; [apply ro_CACHE|apply keeps_of_ro, ro_CACHE]| |done].
  intros ? q [[Hsc _ _] Hk]. cbn in Hk. wp_steps.
  destruct (stream_start_produced (scanner q)) eqn:Hs; cbn [negb].
  - eapply wp_mono; [apply (sat_after keeps _ p q Hk)| |done].
    + keeps_solve. apply keeps_of_so, so_scan_to_next_token.
    + intros ? r Hr. cbn in Hr. apply fetched_of_keeps; [by rewrite <- Hsc|done].
  - eapply wp_mono; [by apply wp_fetch_stream_start| |done].
    intros ? r Hr. transitivity q; [|done]. split; [done|]. by rewrite Hsc.
Qed.

Lemma fetched_stale_simple_keys : sat fetched yaml_parser_stale_simple_keys.
Proof.
  intros p. unfold yaml_parser_stale_simple_keys, get_mark. wp_steps.
  destruct (snd _); [apply wp_scanner_error|]. wp_steps.
  assert (length (rev (stale_keys (mark (reader p)) (rev (items (simple_keys (scanner p))))).1)
          = length (items (simple_keys (scanner p)))) as Hl
    by by rewrite length_rev, stale_keys_length, length_rev.
  split; [by apply keeps_set_keys|]. unfold scan_inv. cbn.
  destruct (stream_start_produced _).
  - intros []. constructor; cbn; by rewrite ?Hl.
  - intros (H1 & H2 & H3 & H4). split_and!; try done. rewrite H1 in Hl |- *. done.
Qed.

Lemma wp_stale_simple_keys_tokens p :
  wp lax yaml_parser_stale_simple_keys
    (fun _ p' => p'.(scanner).(tokens) = p.(scanner).(tokens)) failed p.
Proof.
  unfold yaml_parser_stale_simple_keys, get_mark. wp_steps.
  destruct (snd _); [apply wp_scanner_error|]. by wp_steps.
Qed.

(** The queue is filled: a token is available at its head. *)
Lemma wp_fetch_more_tokens p :
  wp lax yaml_parser_fetch_more_tokens
    (fun _ p' => exists q, fetched p q /\ p' = set_token_available true q
                           /\ q.(scanner).(tokens) <> []) failed p.
Proof.
  unfold yaml_parser_fetch_more_tokens, scan_loop. wp_steps.
  eapply wp_mono; [eapply (wp_loop lax (fun _ q => fetched p q) (fun _ _ => 0%nat) _
    (fun _ q => fetched p q /\ q.(scanner).(tokens) <> [])); [|reflexivity|by left]| |done].
  - intros _ q Hq. do 3 wp_step. cbv beta.
    assert (forall b r, fetched p r -> (b = false -> r.(scanner).(tokens) <> []) ->
      wp lax (if (b : bool) then yaml_parser_fetch_next_token;; mret (inl ()) else mret (inr ()))
        (fun x s' => match x with
           | inl _ => fetched p s' /\ (may_timeout lax \/ (0 < 0)%nat)
           | inr _ => fetched p s' /\ s'.(scanner).(tokens) <> []
           end) failed r) as Hnext.
    { intros [] r Hr Hne; [|wp_steps; auto]. wp_step.
      eapply wp_mono; [apply (sat_after fetched _ p r Hr), fetched_fetch_next_token| |done].
      intros ? s Hs. wp_steps. split; [done|by left]. }
    destruct (tokens (scanner q)) as [|t ts] eqn:Et; wp_step; [by apply (Hnext true)|].
    eapply wp_mono; [apply wp_and;
      [apply fetched_stale_simple_keys|apply wp_stale_simple_keys_tokens]| |done].
    intros ? r [Hr Ht]. wp_steps. apply Hnext; [by transitivity q|]. intros _. by rewrite Ht, Et.
  - intros ? q [Hq Hne]. wp_steps. by exists q.
Qed.

(** ** The scanner as a source of tokens *)

#[export] Instance scanner_source : TokenSource | 10 := yaml_parser_fetch_more_tokens.

(** ** Rolling and unrolling *)

(** The levels deeper than a column, from the innermost out. *)
Fixpoint deeper_levels (col i : Z) (l : list Z) : nat :=
  if i >? col then match l with [] => 1%nat | x :: l' => S (deeper_levels col x l') end else 0%nat.

(** The state after [k] levels have been closed at the current position. *)
Definition close_levels (k : nat) (p : yaml_parser_t) : yaml_parser_t :=
  let sc := p.(scanner) in
  let m := p.(reader).(mark) in
  set_indent (nth k (sc.(indent) :: sc.(indents).(items)) 0)
    (set_indents (mkStack (drop k sc.(indents).(items)) sc.(indents).(capacity))
      (set_tokens (sc.(tokens) ++ replicate k (TOKEN_INIT YAML_BLOCK_END_TOKEN m m)) p)).

Lemma close_levels_0 p : close_levels 0 p = p.
Proof. unfold close_levels. cbn. rewrite app_nil_r. by destruct p as [? ? [? ? ? ? ? ? [] ? ? ?] ?]. Qed.

Lemma close_levels_S k p i l :
  p.(scanner).(indents).(items) = i :: l ->
  close_levels k (close_levels 1 p) = close_levels (S k) p.
Proof.
  intros H. unfold close_levels. cbn. rewrite H. cbn. rewrite <- app_assoc. cbn.
  by rewrite drop_0.
Qed.

Lemma unroll_loop col n p :
  -1 <= col -> indent_chain p.(scanner).(indent) p.(scanner).(indents).(items) ->
  (length p.(scanner).(indents).(items) < n)%nat ->
  while n (gets (fun p => p.(scanner).(indent) >? col))
    (m ← get_mark;
     ENQUEUE (TOKEN_INIT YAML_BLOCK_END_TOKEN m m);;
     i ← pop_indent;
     modify (set_indent i)) p
  = Ret tt (close_levels
      (deeper_levels col p.(scanner).(indent) p.(scanner).(indents).(items)) p).
Proof.
  intros Hc. remember (items (indents (scanner p))) as l eqn:Hl. revert n p Hl.
  induction l as [|x l IH]; intros [|n] p Hl Hch Hn; try (cbn in Hn; lia).
  - cbn in Hch. cbn [while deeper_levels].
    assert ((indent (scanner p) >? col) = false) as E by lia.
    erewrite prog_bind_ret by done. by rewrite E, close_levels_0.
  - cbn [while deeper_levels]. erewrite prog_bind_ret by done.
    destruct (indent (scanner p) >? col) eqn:E; [|by rewrite close_levels_0].
    rewrite (prog_bind_ret _ _ p tt (close_levels 1 p)).
    2:{ unfold get_mark, ENQUEUE, pop_indent, POP, gets, modify, mbind, prog_bind. cbn.
        rewrite <- Hl. cbn. unfold close_levels. cbn. rewrite <- Hl. cbn. by rewrite drop_0. }
    destruct Hch as [_ Hch].
    rewrite IH; cbn; rewrite <- ?Hl; cbn; rewrite ?drop_0; try done; [|cbn in Hn; lia].
    f_equal. by eapply close_levels_S.
Qed.

Lemma deeper_levels_chain col i l :
  -1 <= col -> indent_chain i l ->
  let k := deeper_levels col i l in
  indent_chain (nth k (i :: l) 0) (drop k l) /\ nth k (i :: l) 0 <= col /\ (k <= length l)%nat.
Proof.
  intros Hc. revert i. induction l as [|x l IH]; intros i Hi; cbn in Hi |- *.
  - assert ((i >? col) = false) as -> by lia. cbn. repeat split; try done; lia.
  - destruct (i >? col) eqn:E; cbn; [|destruct Hi; repeat split; try done; lia]. destruct Hi as [_ Hi].
    destruct (IH x Hi) as (H1 & H2 & H3). cbn in H1, H2. split_and!; try done; lia.
Qed.

Lemma unroll_indent_eq p col :
  indent_chain p.(scanner).(indent) p.(scanner).(indents).(items) ->
  p.(scanner).(flow_level) = 0 -> -1 <= col ->
  yaml_parser_unroll_indent col p
  = Ret tt (close_levels
      (deeper_levels col p.(scanner).(indent) p.(scanner).(indents).(items)) p).
Proof.
  intros Hc H0 Hcol. unfold yaml_parser_unroll_indent, ifM, in_flow.
  run_step. rewrite H0. cbv iota delta [negb Z.eqb]. run_step. apply unroll_loop; [done|done|lia].
Qed.

Lemma indent_chain_lower i l : indent_chain i l -> -1 <= i.
Proof. revert i. induction l as [|x l IH]; intros i; cbn; [lia|]. intros [H1 H2%IH]. lia. Qed.

Lemma deeper_levels_top i col l : i < col -> deeper_levels i col (i :: l) = 1%nat.
Proof.
  intros H. cbn [deeper_levels]. assert ((col >? i) = true) as -> by lia.
  assert ((i >? i) = false) as E by lia. destruct l; cbn [deeper_levels]; by rewrite E.
Qed.

Lemma roll_indent_eq p p' col type m :
  p.(scanner).(flow_level) = 0 -> p.(scanner).(indent) < col ->
  yaml_parser_roll_indent col (-1) type m p = Ret tt p' ->
  exists c, p' = set_tokens (p.(scanner).(tokens) ++ [TOKEN_INIT type m m])
    (set_indent col (set_indents (mkStack (p.(scanner).(indent) :: p.(scanner).(indents).(items)) c) p)).
Proof.
  intros H0 Hc Hr. apply Z.ltb_lt in Hc.
  assert (wp lax (yaml_parser_roll_indent col (-1) type m) (fun _ p' => exists c,
    p' = set_tokens (p.(scanner).(tokens) ++ [TOKEN_INIT type m m]) (set_indent col (set_indents
      (mkStack (p.(scanner).(indent) :: p.(scanner).(indents).(items)) c) p))) failed p) as H.
  { unfold yaml_parser_roll_indent, ifM, in_flow. wp_steps. rewrite H0. cbn [negb Z.eqb]. wp_steps.
    rewrite Hc. wp_step. apply wp_PUSH. intros c.
    destruct (col >? INT_MAX); [apply wp_memory_error|]. unfold ENQUEUE. wp_steps. by exists c. }
  unfold wp in H. by rewrite Hr in H.
Qed.

Lemma stale_keys_spec here ks :
  match stale_keys here ks with
  | (ks', None) =>
      Forall (fun k => k.(possible) = true ->
                here.(line) <= k.(key_mark).(line)
                /\ here.(index) <= k.(key_mark).(index) + 1024) ks'
      /\ Forall (fun k => key_is_stale here k = true -> k.(required) = false) ks
  | (_, Some _) => Exists (fun k => key_is_stale here k = true /\ k.(required) = true) ks
  end.
Proof.
  induction ks as [|k ks IH]; cbn; [by split|].
  destruct (key_is_stale here k) eqn:Es; [destruct (required k) eqn:Er|].
  - cbn. by left.
  - destruct (stale_keys here ks) as [ks' [m|]]; cbn in *; [by right|].
    destruct IH. by split; constructor.
  - destruct (stale_keys here ks) as [ks' [m|]]; cbn in *; [by right|].
    destruct IH. split; constructor; try done; [|congruence].
    intros Hp. unfold key_is_stale in Es. rewrite Hp in Es. cbn in Es.
    apply orb_false_iff in Es as [? ?]. lia.
Qed.

(** A scanner two levels deep, in block context. *)
Definition sample_levels : yaml_parser_t :=
  set_simple_keys (mkStack [empty_simple_key] 16) (set_stream_start_produced true
    (set_indent 4 (set_indents (mkStack [2; -1] 16) (yaml_parser_initialize [])))).

(** ** The theorems *)

(** Outside flow collections [yaml_parser_unroll_indent] closes exactly the
    levels deeper than the column, one BLOCK-END token each at the current
    position; it always returns, never pops an empty stack, and ends at a level
    not deeper than the column. *)
Theorem unroll_indent_spec (p : yaml_parser_t) (col : Z) :
  levels p.(scanner) -> p.(scanner).(flow_level) = 0 -> -1 <= col ->
  let k := deeper_levels col p.(scanner).(indent) p.(scanner).(indents).(items) in
  yaml_parser_unroll_indent col p = Ret tt (close_levels k p)
  /\ levels (close_levels k p).(scanner) /\ (close_levels k p).(scanner).(indent) <= col
  /\ (k <= length p.(scanner).(indents).(items))%nat.
Proof.
  intros [Hf Hk Hc] H0 Hcol k.
  destruct (deeper_levels_chain col _ _ Hcol Hc) as (G1 & G2 & G3).
  split; [|split; [by constructor|done]]. by apply unroll_indent_eq.
Qed.

Lemma unroll_indent_spec_witness :
  yaml_parser_unroll_indent 2 sample_levels = Ret tt (close_levels 1 sample_levels)
  /\ (close_levels 1 sample_levels).(scanner).(indent) <= 2.
Proof.
  destruct (unroll_indent_spec sample_levels 2) as (H1 & _ & H2 & _).
  - constructor; cbn; lia.
  - reflexivity.
  - lia.
  - split; [exact H1|exact H2].
Defined.

(** A level that [yaml_parser_roll_indent] opens is the one that
    [yaml_parser_unroll_indent] closes: together they add the two tokens of the
    collection and restore the indentation. *)
Theorem roll_unroll_indent (p p' : yaml_parser_t) (col : Z) (type : yaml_token_data)
    (m : yaml_mark_t) :
  levels p.(scanner) -> p.(scanner).(flow_level) = 0 -> p.(scanner).(indent) < col ->
  yaml_parser_roll_indent col (-1) type m p = Ret tt p' ->
  exists p'', yaml_parser_unroll_indent p.(scanner).(indent) p' = Ret tt p''
  /\ p''.(scanner).(indent) = p.(scanner).(indent)
  /\ p''.(scanner).(indents).(items) = p.(scanner).(indents).(items)
  /\ p''.(scanner).(tokens) =
       p.(scanner).(tokens) ++ [TOKEN_INIT type m m;
         TOKEN_INIT YAML_BLOCK_END_TOKEN p.(reader).(mark) p.(reader).(mark)].
Proof.
  intros [Hf Hk Hc] H0 Hcol Hr. apply roll_indent_eq in Hr as (c & Hp'); [|done..].
  assert (-1 <= p.(scanner).(indent)) by by eapply indent_chain_lower.
  exists (close_levels 1 p'). subst p'. rewrite unroll_indent_eq by done. cbn [scanner set_tokens
    set_scanner set_indent set_indents indent indents items].
  rewrite deeper_levels_top by done. repeat split; cbn; by rewrite ?drop_0, <- ?app_assoc.
Qed.

Definition sample_rolled : yaml_parser_t :=
  match yaml_parser_roll_indent 6 (-1) YAML_BLOCK_SEQUENCE_START_TOKEN mark0 sample_levels with
  | Ret _ p => p
  | _ => sample_levels
  end.

Lemma roll_unroll_indent_witness :
  exists p'', yaml_parser_unroll_indent 4 sample_rolled = Ret tt p''
  /\ p''.(scanner).(indent) = 4.
Proof.
  destruct (roll_unroll_indent sample_levels sample_rolled 6 YAML_BLOCK_SEQUENCE_START_TOKEN mark0)
    as (p'' & H1 & H2 & _).
  - constructor; cbn; lia.
  - reflexivity.
  - cbn. lia.
  - reflexivity.
  - exists p''. split; [exact H1|exact H2].
Defined.

(** After [yaml_parser_stale_simple_keys] succeeds, every key that is still
    possible starts on the current line and at most 1024 characters back; the
    routine fails exactly when a required key has gone stale. *)
Theorem stale_simple_keys_spec (p : yaml_parser_t) :
  match yaml_parser_stale_simple_keys p with
  | Ret _ p' =>
      Forall (fun k => k.(possible) = true ->
                p.(reader).(mark).(line) <= k.(key_mark).(line)
                /\ p.(reader).(mark).(index) <= k.(key_mark).(index) + 1024)
        p'.(scanner).(simple_keys).(items)
      /\ Forall (fun k => key_is_stale p.(reader).(mark) k = true -> k.(required) = false)
           p.(scanner).(simple_keys).(items)
  | Err p' =>
      p'.(err).(error) = YAML_SCANNER_ERROR
      /\ Exists (fun k => key_is_stale p.(reader).(mark) k = true /\ k.(required) = true)
           p.(scanner).(simple_keys).(items)
  | _ => False
  end.
Proof.
  unfold yaml_parser_stale_simple_keys, get_mark, gets, modify, mbind, prog_bind.
  pose proof (stale_keys_spec (mark (reader p)) (rev (items (simple_keys (scanner p))))) as H.
  destruct (stale_keys _ _) as [ks [k|]]; cbn in *.
  - split; [done|]. apply Exists_exists in H as (x & Hin & Hx). apply Exists_exists.
    exists x. split; [|done]. by rewrite list_elem_of_In, <- in_rev, <- list_elem_of_In in Hin.
  - destruct H as [H1 H2]. split; [by apply Forall_rev|].
    apply Forall_rev in H2. by rewrite rev_involutive in H2.
Qed.
