(* ===== verification/YamlUtf8.v ===== *)
(** * libyaml: what the reader decodes

    The UTF-8 decoder of [reader.c] accepts exactly the canonical encodings of
    Unicode scalar values and inverts the encoder; the UTF-16 decoder inverts
    the UTF-16 encoding; the decoding loop turns the raw octets of a text into
    the working buffer unchanged; and the working buffer never outgrows the
    block it is allocated in. *)

From Stdlib Require Import ZArith Lia Ascii String.
From stdpp Require Import base list option strings.
From S2P Require Import Prelude YamlData YamlReader.

#[local] Open Scope Z_scope.
#[local] Ltac Zify.zify_post_hook ::= Z.to_euclidean_division_equations.

(** ** Octets *)

(** A decidable fact about all the numbers below a bound, by enumeration. *)
Lemma below_forall (n : nat) (P : Z -> bool) :
  forallb P (map Z.of_nat (seq 0 n)) = true -> forall x, 0 <= x < Z.of_nat n -> P x = true.
Proof.
  intros H x Hx. rewrite forallb_forall in H. apply H. apply in_map_iff.
  exists (Z.to_nat x). split; [lia|]. apply in_seq. lia.
Qed.

Definition is_octet (b : Z) : Prop := 0 <= b < 256.

(** A Unicode scalar value: a code point that is not a surrogate. *)
Definition scalar_value (v : Z) : Prop := 0 <= v <= 0x10FFFF /\ ~ (0xD800 <= v <= 0xDFFF).

(** The leading octets of each width, and their payload. *)
Lemma lead_1 x : 0 <= x < 128 -> utf8_width x = 1 /\ utf8_lead x = x.
Proof.
  intros Hx. pose proof (below_forall 128
    (fun x => (utf8_width x =? 1) && (utf8_lead x =? x)) eq_refl x Hx) as H. cbv beta in H. lia.
Qed.
Lemma lead_2 x : 0 <= x < 32 -> utf8_width (0xC0 + x) = 2 /\ utf8_lead (0xC0 + x) = x.
Proof.
  intros Hx. pose proof (below_forall 32
    (fun x => (utf8_width (0xC0 + x) =? 2) && (utf8_lead (0xC0 + x) =? x)) eq_refl x Hx) as H. cbv beta in H. lia.
Qed.
Lemma lead_3 x : 0 <= x < 16 -> utf8_width (0xE0 + x) = 3 /\ utf8_lead (0xE0 + x) = x.
Proof.
  intros Hx. pose proof (below_forall 16
    (fun x => (utf8_width (0xE0 + x) =? 3) && (utf8_lead (0xE0 + x) =? x)) eq_refl x Hx) as H. cbv beta in H. lia.
Qed.
Lemma lead_4 x : 0 <= x < 8 -> utf8_width (0xF0 + x) = 4 /\ utf8_lead (0xF0 + x) = x.
Proof.
  intros Hx. pose proof (below_forall 8
    (fun x => (utf8_width (0xF0 + x) =? 4) && (utf8_lead (0xF0 + x) =? x)) eq_refl x Hx) as H. cbv beta in H. lia.
Qed.
Lemma trail_octet x : 0 <= x < 64 ->
  Z.land (0x80 + x) 0xC0 = 0x80 /\ Z.land (0x80 + x) 0x3F = x.
Proof.
  intros Hx. pose proof (below_forall 64
    (fun x => (Z.land (0x80 + x) 0xC0 =? 0x80) && (Z.land (0x80 + x) 0x3F =? x)) eq_refl x Hx) as H. cbv beta in H. lia.
Qed.

(** Conversely, what a leading or trailing octet looks like. *)
Lemma lead_inv b : is_octet b ->
  let x := utf8_lead b in
  match utf8_width b with
  | 1 => b = x /\ 0 <= x < 128
  | 2 => b = 0xC0 + x /\ 0 <= x < 32
  | 3 => b = 0xE0 + x /\ 0 <= x < 16
  | 4 => b = 0xF0 + x /\ 0 <= x < 8
  | w => w = 0
  end.
Proof.
  intros Hb x. pose proof (below_forall 256 (fun b =>
    let x := utf8_lead b in
    match utf8_width b with
    | 1 => (b =? x) && (0 <=? x) && (x <? 128)
    | 2 => (b =? 0xC0 + x) && (0 <=? x) && (x <? 32)
    | 3 => (b =? 0xE0 + x) && (0 <=? x) && (x <? 16)
    | 4 => (b =? 0xF0 + x) && (0 <=? x) && (x <? 8)
    | w => w =? 0
    end) eq_refl b Hb) as H. cbv zeta beta in H. fold x in H.
  destruct (utf8_width b) as [|[[?|?|]|[[?|?|]|[?|?|]|]|]|]; first [done|lia].
Qed.

Lemma trail_inv b : is_octet b -> Z.land b 0xC0 = 0x80 ->
  b = 0x80 + Z.land b 0x3F /\ 0 <= Z.land b 0x3F < 64.
Proof.
  intros Hb. pose proof (below_forall 256 (fun b =>
    negb (Z.land b 0xC0 =? 0x80)
    || ((b =? 0x80 + Z.land b 0x3F) && (0 <=? Z.land b 0x3F) && (Z.land b 0x3F <? 64)))
    eq_refl b Hb) as H. cbv beta in H. lia.
Qed.

(** ** The encoder in arithmetic *)

Lemma land_63 v : Z.land v 0x3F = v mod 64.
Proof. exact (Z.land_ones v 6 ltac:(lia)). Qed.

Lemma utf8_encode_eq v :
  utf8_encode v =
  if v <=? 0x7F then [v]
  else if v <=? 0x7FF then [0xC0 + v / 64; 0x80 + v mod 64]
  else if v <=? 0xFFFF then [0xE0 + v / 4096; 0x80 + v / 64 mod 64; 0x80 + v mod 64]
  else [0xF0 + v / 262144; 0x80 + v / 4096 mod 64; 0x80 + v / 64 mod 64; 0x80 + v mod 64].
Proof.
  unfold utf8_encode. rewrite !land_63.
  rewrite (Z.shiftr_div_pow2 v 6), (Z.shiftr_div_pow2 v 12), (Z.shiftr_div_pow2 v 18) by lia.
  reflexivity.
Qed.

(** ** UTF-8 *)

(** The trailing octets [0x80 + x] for the payloads [xs]. *)
Lemma utf8_trail_app xs : forall k rest v p,
  Forall (fun x => 0 <= x < 64) xs ->
  utf8_trail (length xs) k (map (Z.add 0x80) xs ++ rest) v p
  = Ret (foldl (fun a x => a * 64 + x) v xs) p.
Proof.
  induction xs as [|x xs IH]; intros k rest v p Hx; [done|].
  apply Forall_cons in Hx as [Hx Hxs]. cbn [length utf8_trail map app foldl].
  destruct (trail_octet x Hx) as [E1 E2]. rewrite E1, E2. cbn [Z.eqb Pos.eqb negb].
  rewrite Z.shiftl_mul_pow2 by lia. by apply IH.
Qed.

(** A sequence of a leading octet and trailing octets. *)
Lemma decode_utf8_seq p b xs rest w :
  p.(reader).(raw_buffer) = b :: map (Z.add 0x80) xs ++ rest ->
  utf8_width b = w -> w = Z.of_nat (S (length xs)) -> Forall (fun x => 0 <= x < 64) xs ->
  let v := foldl (fun a x => a * 64 + x) (utf8_lead b) xs in
  ((w = 1 \/ w = 2 /\ v >= 0x80 \/ w = 3 /\ v >= 0x800 \/ w = 4 /\ v >= 0x10000)) ->
  scalar_value v -> decode_utf8 p = Ret (Some (v, w)) p.
Proof.
  intros Hr Hw Hl Hx v Hv [Hs1 Hs2]. unfold decode_utf8, gets, mbind, prog_bind.
  rewrite Hr, Hw. assert ((w =? 0) = false) as -> by (apply Z.eqb_neq; lia).
  assert ((w >? Z.of_nat (length (b :: map (Z.add 128) xs ++ rest))) = false) as ->.
  { cbn [length]. rewrite length_app, length_map. rewrite Z.gtb_ltb. apply Z.ltb_ge. lia. }
  replace (Z.to_nat (w - 1)) with (length xs) by lia. rewrite utf8_trail_app by done. fold v.
  assert (negb ((w =? 1) || (w =? 2) && (v >=? 128) || (w =? 3) && (v >=? 2048)
          || (w =? 4) && (v >=? 65536)) = false) as -> by lia.
  assert ((v >=? 55296) && (v <=? 57343) || (v >? 1114111) = false) as -> by lia. done.
Qed.

Ltac payloads := repeat first [apply Forall_nil_2 | apply Forall_cons_2; [lia|]].

Lemma decode_encode_utf8 p v rest :
  scalar_value v -> p.(reader).(raw_buffer) = utf8_encode v ++ rest ->
  decode_utf8 p = Ret (Some (v, Z.of_nat (length (utf8_encode v)))) p.
Proof.
  intros Hv Hr. rewrite utf8_encode_eq in *. destruct Hv as [Hv1 Hv2].
  assert (0 <= v mod 64 < 64 /\ 0 <= v / 64 mod 64 < 64 /\ 0 <= v / 4096 mod 64 < 64)
    as (M1 & M2 & M3) by (repeat split; apply Z.mod_pos_bound; lia).
  assert (v / 64 / 64 = v / 4096) as D1 by (rewrite Z.div_div; lia || done).
  assert (v / 4096 / 64 = v / 262144) as D2 by (rewrite Z.div_div; lia || done).
  pose proof (Z.div_mod v 64 ltac:(lia)). pose proof (Z.div_mod (v / 64) 64 ltac:(lia)) as E2.
  pose proof (Z.div_mod (v / 4096) 64 ltac:(lia)) as E3. rewrite D1 in E2. rewrite D2 in E3.
  destruct (v <=? 0x7F) eqn:C1; [|destruct (v <=? 0x7FF) eqn:C2; [|destruct (v <=? 0xFFFF) eqn:C3]].
  - assert (0 <= v < 128) as B by lia. destruct (lead_1 v B) as [W L].
    rewrite (decode_utf8_seq p v [] rest 1); cbn; rewrite ?L; try done; try lia.
  - assert (0 <= v / 64 < 32) as B by lia. destruct (lead_2 _ B) as [W L].
    rewrite (decode_utf8_seq p (0xC0 + v / 64) [v mod 64] rest 2); cbn [foldl]; rewrite ?L;
      try done; [do 3 f_equal; lia|payloads|lia|unfold scalar_value; lia].
  - assert (0 <= v / 4096 < 16) as B by lia. destruct (lead_3 _ B) as [W L].
    rewrite (decode_utf8_seq p (0xE0 + v / 4096) [v / 64 mod 64; v mod 64] rest 3); cbn [foldl];
      rewrite ?L; try done; [do 3 f_equal; lia|payloads|lia|unfold scalar_value; lia].
  - assert (0 <= v / 262144 < 8) as B by lia. destruct (lead_4 _ B) as [W L].
    rewrite (decode_utf8_seq p (0xF0 + v / 262144) [v / 4096 mod 64; v / 64 mod 64; v mod 64] rest 4);
      cbn [foldl]; rewrite ?L; try done;
      [do 3 f_equal; lia|payloads|lia|unfold scalar_value; lia].
Qed.

Lemma utf8_trail_inv n : forall k l v p v' p',
  Forall is_octet l -> utf8_trail n k l v p = Ret v' p' ->
  p' = p /\ exists xs rest, l = map (Z.add 0x80) xs ++ rest /\ length xs = n
    /\ Forall (fun x => 0 <= x < 64) xs /\ v' = foldl (fun a x => a * 64 + x) v xs.
Proof.
  induction n as [|n IH]; intros k l v p v' p' Hl; cbn [utf8_trail].
  { intros [= <- <-]. split; [done|]. by exists [], l. }
  destruct l as [|b l]; [done|]. apply Forall_cons in Hl as [Hb Hl].
  destruct (Z.land b 0xC0 =? 0x80) eqn:E; cbn [negb]; [|done]. apply Z.eqb_eq in E.
  destruct (trail_inv b Hb E) as [B1 B2]. rewrite Z.shiftl_mul_pow2 by lia.
  intros (-> & xs & rest & -> & <- & Hxs & ->)%IH; [|done]. split; [done|].
  exists (Z.land b 0x3F :: xs), rest. cbn. rewrite <- B1. split_and!; try done.
  by apply Forall_cons_2.
Qed.

(** The canonical encodings, from their parts. *)
Lemma encode_parts x xs w v :
  Forall (fun x => 0 <= x < 64) xs -> w = Z.of_nat (S (length xs)) ->
  v = foldl (fun a x => a * 64 + x) x xs ->
  (w = 1 /\ 0 <= x < 128 -> utf8_encode v = [x])
  /\ (w = 2 /\ 0 <= x < 32 /\ v >= 0x80 -> utf8_encode v = 0xC0 + x :: map (Z.add 0x80) xs)
  /\ (w = 3 /\ 0 <= x < 16 /\ v >= 0x800 -> utf8_encode v = 0xE0 + x :: map (Z.add 0x80) xs)
  /\ (w = 4 /\ 0 <= x < 8 /\ v >= 0x10000 -> utf8_encode v = 0xF0 + x :: map (Z.add 0x80) xs).
Proof.
  intros Hx Hw Hd. rewrite utf8_encode_eq. split_and!.
  - intros [-> Hb]. destruct xs; [|cbn [length] in Hw; lia]. cbn in Hd.
    assert ((v <=? 127) = true) as -> by lia. by subst v.
  - intros (-> & Hb & Hv). destruct xs as [|y [|]]; try (cbn [length] in Hw; lia).
    rewrite !Forall_cons in Hx. cbn in Hd, Hx. destruct_and!.
    assert ((v <=? 127) = false) as -> by lia. assert ((v <=? 2047) = true) as -> by lia.
    cbn [map]. repeat f_equal; lia.
  - intros (-> & Hb & Hv). destruct xs as [|y [|z [|]]]; try (cbn [length] in Hw; lia).
    rewrite !Forall_cons in Hx. cbn in Hd, Hx. destruct_and!.
    assert ((v <=? 127) = false) as -> by lia. assert ((v <=? 2047) = false) as -> by lia.
    assert ((v <=? 65535) = true) as -> by lia.
    cbn [map]. repeat f_equal; lia.
  - intros (-> & Hb & Hv). destruct xs as [|y [|z [|t [|]]]]; try (cbn [length] in Hw; lia).
    rewrite !Forall_cons in Hx. cbn in Hd, Hx. destruct_and!.
    assert ((v <=? 127) = false) as -> by lia. assert ((v <=? 2047) = false) as -> by lia.
    assert ((v <=? 65535) = false) as -> by lia.
    cbn [map]. repeat f_equal; lia.
Qed.

Lemma foldl_nonneg x xs :
  0 <= x -> Forall (fun x => 0 <= x < 64) xs -> 0 <= foldl (fun a x => a * 64 + x) x xs.
Proof.
  intros H Hx. revert x H. induction Hx as [|y xs Hy _ IH]; intros x H; cbn; [done|].
  apply IH. lia.
Qed.

Lemma decode_utf8_inv p v w p' :
  Forall is_octet p.(reader).(raw_buffer) -> decode_utf8 p = Ret (Some (v, w)) p' ->
  p' = p /\ scalar_value v /\ w = Z.of_nat (length (utf8_encode v))
  /\ exists rest, p.(reader).(raw_buffer) = utf8_encode v ++ rest.
Proof.
  intros Ho. unfold decode_utf8, gets, mbind, prog_bind.
  destruct (raw_buffer (reader p)) as [|b l] eqn:Er; [done|].
  apply Forall_cons in Ho as [Hb Hl]. pose proof (lead_inv b Hb) as Hw. cbn zeta in Hw.
  destruct (utf8_width b =? 0) eqn:E0; [done|].
  destruct (utf8_width b >? _); [by destruct (eof _)|].
  destruct (utf8_trail _ _ _ _ p) as [v' q| | |] eqn:Et; try done.
  apply utf8_trail_inv in Et as (-> & xs & rest & -> & Hn & Hx & ->); [|done].
  destruct (negb _) eqn:En; [done|].
  match goal with |- (if ?c then _ else _) p = _ -> _ => destruct c eqn:Eu end; [done|].
  intros [= <- <- <-]. set (v := foldl _ _ xs) in *. split; [done|].
  assert (utf8_width b = 1 \/ utf8_width b = 2 \/ utf8_width b = 3 \/ utf8_width b = 4) as Hcase.
  { clear - Hw E0. destruct (utf8_width b) as [|[[?|?|]|[[?|?|]|[?|?|]|]|]|]; auto; done. }
  assert (utf8_width b = Z.of_nat (S (length xs))) as Hlen by lia.
  pose proof (encode_parts (utf8_lead b) xs _ v Hx Hlen eq_refl) as (P1 & P2 & P3 & P4).
  assert (utf8_encode v = b :: map (Z.add 0x80) xs) as He.
  { clear - Hw Hcase En P1 P2 P3 P4 Hlen.
    destruct Hcase as [E|[E|[E|E]]]; rewrite E in *; destruct Hw as [Hb Hlt].
    - destruct xs; [|cbn [length] in Hlen; lia]. rewrite P1 by done. by rewrite <- Hb.
    - rewrite P2 by lia. by rewrite <- Hb.
    - rewrite P3 by lia. by rewrite <- Hb.
    - rewrite P4 by lia. by rewrite <- Hb. }
  split; [|split; [|exists rest; by rewrite He]].
  - split; [|lia]. split; [|lia]. apply foldl_nonneg; [|done].
    clear - Hw Hcase. destruct Hcase as [E|[E|[E|E]]]; rewrite E in Hw; lia.
  - rewrite He. cbn [length]. by rewrite length_map.
Qed.

(** ** UTF-16 *)

Definition utf16_unit (little : bool) (u : Z) : list Z :=
  if little then [u mod 256; u / 256] else [u / 256; u mod 256].

Definition utf16_encode (little : bool) (v : Z) : list Z :=
  if v <? 0x10000 then utf16_unit little v
  else
    utf16_unit little (0xD800 + (v - 0x10000) / 1024)
    ++ utf16_unit little (0xDC00 + (v - 0x10000) mod 1024).

Lemma land_fc00 v : 0 <= v < 65536 -> Z.land v 0xFC00 = v / 1024 * 1024.
Proof.
  intros Hv. change 0xFC00 with (Z.land (Z.ones 16) (Z.lnot (Z.ones 10))).
  rewrite Z.land_assoc, (Z.land_ones v 16), (Z.mod_small v) by lia.
  rewrite <- Z.ldiff_land, Z.ldiff_ones_r by lia.
  by rewrite Z.shiftl_mul_pow2, Z.shiftr_div_pow2 by lia.
Qed.

Lemma land_3ff v : Z.land v 0x3FF = v mod 1024.
Proof. exact (Z.land_ones v 10 ltac:(lia)). Qed.

(** The two octets of a unit, wherever they are in the raw buffer. *)
Lemma utf16_unit_value little u raw (k : nat) rest :
  0 <= u < 65536 -> drop k raw = utf16_unit little u ++ rest ->
  nth ((if little then 0 else 1) + k) raw 0
  + Z.shiftl (nth ((if little then 1 else 0) + k) raw 0) 8 = u.
Proof.
  intros Hu Hd. rewrite Z.shiftl_mul_pow2 by lia.
  assert (forall i, nth (i + k) raw 0 = nth i (drop k raw) 0) as Hn.
  { intros i. clear. revert raw. induction k as [|k IH]; intros raw.
    - by rewrite Nat.add_0_r.
    - destruct raw as [|b raw]; [rewrite drop_nil; by destruct i, k|].
      rewrite <- plus_n_Sm. cbn. apply IH. }
  rewrite !Hn, Hd. destruct little; cbn; lia.
Qed.

Lemma decode_encode_utf16 little p v rest :
  scalar_value v -> p.(reader).(raw_buffer) = utf16_encode little v ++ rest ->
  decode_utf16 little p = Ret (Some (v, Z.of_nat (length (utf16_encode little v)))) p.
Proof.
  intros [Hv1 Hv2] Hr. unfold decode_utf16, gets, mbind, prog_bind.
  unfold utf16_encode in *. destruct (v <? 0x10000) eqn:E.
  - assert (0 <= v < 65536) as Hv by lia.
    pose proof (utf16_unit_value little v (raw_buffer (reader p)) 0 rest Hv Hr) as Hu.
    rewrite !Nat.add_0_r in Hu. rewrite Hu, land_fc00 by lia.
    assert (Z.of_nat (length (raw_buffer (reader p))) = 2 + Z.of_nat (length rest)) as ->.
    { rewrite Hr, length_app. destruct little; cbn [utf16_unit length]; lia. }
    assert ((2 + Z.of_nat (length rest) <? 2) = false) as -> by (apply Z.ltb_ge; lia).
    assert ((v / 1024 * 1024 =? 0xDC00) = false) as -> by lia.
    assert ((v / 1024 * 1024 =? 0xD800) = false) as -> by lia. by destruct little.
  - set (hi := 0xD800 + (v - 0x10000) / 1024) in *.
    set (lo := 0xDC00 + (v - 0x10000) mod 1024) in *.
    assert (0 <= hi < 65536 /\ hi / 1024 * 1024 = 0xD800
            /\ hi mod 1024 = (v - 0x10000) / 1024) as (H1 & H2 & H2') by lia.
    assert (0 <= lo < 65536 /\ lo / 1024 * 1024 = 0xDC00
            /\ lo mod 1024 = (v - 0x10000) mod 1024) as (H3 & H4 & H4') by lia.
    rewrite <- app_assoc in Hr.
    pose proof (utf16_unit_value little hi (raw_buffer (reader p)) 0 _ H1 Hr) as Hu.
    rewrite !Nat.add_0_r in Hu.
    assert (drop 2 (raw_buffer (reader p)) = utf16_unit little lo ++ rest) as Hd
      by (rewrite Hr; by destruct little).
    pose proof (utf16_unit_value little lo (raw_buffer (reader p)) 2 rest H3 Hd) as Hu2.
    rewrite Hu, Hu2, !land_fc00, !land_3ff, H2, H4, H2', H4' by done.
    assert (Z.of_nat (length (raw_buffer (reader p))) = 4 + Z.of_nat (length rest)) as ->.
    { rewrite Hr, !length_app. destruct little; cbn [utf16_unit length]; lia. }
    assert ((4 + Z.of_nat (length rest) <? 2) = false) as -> by (apply Z.ltb_ge; lia).
    assert ((4 + Z.of_nat (length rest) <? 4) = false) as -> by (apply Z.ltb_ge; lia).
    cbn [Z.eqb Pos.eqb negb]. rewrite Z.shiftl_mul_pow2 by lia.
    unfold mret, prog_ret. do 3 f_equal; [lia|by destruct little].
Qed.

(** ** The decoding loop *)

(** The octets of a character in the input. *)
Definition raw_encode (enc : yaml_encoding_t) (v : Z) : list Z :=
  match enc with
  | YAML_UTF16LE_ENCODING => utf16_encode true v
  | YAML_UTF16BE_ENCODING => utf16_encode false v
  | _ => utf8_encode v
  end.

Definition raw_text (enc : yaml_encoding_t) (cs : list Z) : list Z := concat (map (raw_encode enc) cs).
Definition utf8_text (cs : list Z) : list Z := concat (map utf8_encode cs).

Lemma utf8_text_app a b : utf8_text (a ++ b) = utf8_text a ++ utf8_text b.
Proof. unfold utf8_text. by rewrite map_app, concat_app. Qed.

(** The reader after the characters [cs] have been decoded and [rest] is left. *)
Definition transcoded (enc : yaml_encoding_t) (cs : list Z) (rest : list Z) (p : yaml_parser_t) :
    yaml_parser_t :=
  let r := p.(reader) in
  set_reader (mkReader r.(input) r.(eof) (r.(buffer) ++ utf8_text cs)
    (r.(unread) + Z.of_nat (length cs)) rest r.(encoding)
    (r.(offset) + Z.of_nat (length (raw_text enc cs))) r.(mark)) p.

Lemma allowed_scalar v : allowed_char v = true -> scalar_value v.
Proof. unfold allowed_char, scalar_value. lia. Qed.

Lemma decode_char_encode p enc v rest :
  p.(reader).(encoding) = enc -> enc <> YAML_ANY_ENCODING -> scalar_value v ->
  p.(reader).(raw_buffer) = raw_encode enc v ++ rest ->
  decode_char p = Ret (Some (v, Z.of_nat (length (raw_encode enc v)))) p.
Proof.
  intros He Hn Hv Hr. unfold decode_char, gets, mbind, prog_bind. rewrite He.
  destruct enc; [done|..]; cbn in *;
    by eapply decode_encode_utf8 || by eapply decode_encode_utf16.
Qed.

Lemma raw_encode_cons enc v : exists b bs, raw_encode enc v = b :: bs.
Proof.
  assert (forall l v, exists b bs, utf16_encode l v = b :: bs) as H16.
  { intros l u. unfold utf16_encode, utf16_unit. destruct (_ <? _), l; cbn; eauto. }
  assert (exists b bs, utf8_encode v = b :: bs) as H8.
  { unfold utf8_encode. repeat destruct (_ <=? _); eauto. }
  destruct enc; cbn; auto.
Qed.

Lemma decode_step_encode p enc v rest :
  p.(reader).(encoding) = enc -> enc <> YAML_ANY_ENCODING -> allowed_char v = true ->
  p.(reader).(raw_buffer) = raw_encode enc v ++ rest ->
  decode_step p = Ret true (transcoded enc [v] rest p).
Proof.
  intros He Hn Hv Hr. unfold decode_step.
  rewrite (prog_bind_ret _ _ p _ _ (decode_char_encode p enc v rest He Hn (allowed_scalar v Hv) Hr)).
  unfold gets, skip_raw, put_bytes, modify, mbind, prog_bind. rewrite Hv. cbn [negb].
  unfold transcoded, raw_text, utf8_text. cbn. rewrite !app_nil_r, Hr.
  do 2 f_equal. rewrite Nat2Z.id, drop_app_length. done.
Qed.

Lemma transcoded_app enc c cs rest rest' p :
  transcoded enc cs rest' (transcoded enc [c] rest p) = transcoded enc (c :: cs) rest' p.
Proof.
  unfold transcoded, raw_text, utf8_text. cbn. unfold set_reader. cbn.
  rewrite !app_nil_r, <- !app_assoc, length_app. do 2 f_equal; lia.
Qed.

Lemma decode_loop enc cs : forall fuel p,
  p.(reader).(encoding) = enc -> enc <> YAML_ANY_ENCODING ->
  Forall (fun c => allowed_char c = true) cs -> p.(reader).(raw_buffer) = raw_text enc cs ->
  (length cs < fuel)%nat ->
  loop fuel (fun _ : unit =>
    r ← gets (fun p => p.(reader).(raw_buffer));
    match r with
    | [] => mret (inr tt)
    | _ :: _ => go ← decode_step; mret (if (go : bool) then inl tt else inr tt)
    end) tt p = Ret tt (transcoded enc cs [] p).
Proof.
  induction cs as [|c cs IH]; intros [|fuel] p He Hn Hc Hr Hf; try (cbn in Hf; lia); cbn [loop].
  - cbn in Hr. unfold gets, mbind, prog_bind. rewrite Hr. cbn. unfold transcoded. cbn.
    rewrite app_nil_r, !Z.add_0_r, <- Hr. by destruct p as [? [] ? ?].
  - apply Forall_cons in Hc as [Hc Hcs]. unfold raw_text in Hr. cbn in Hr.
    destruct (raw_encode_cons enc c) as (b & bs & Hb).
    pose proof (decode_step_encode p enc c _ He Hn Hc Hr) as Hd.
    etransitivity.
    { eapply (prog_bind_ret _ _ p (inl tt)). run_step. rewrite Hr, Hb. cbn [app].
      etransitivity; [eapply prog_bind_ret; exact Hd|]. done. }
    cbv beta iota. rewrite IH; try done; [|cbn in Hf; lia]. by rewrite transcoded_app.
Qed.

Lemma raw_text_length enc cs : (length cs <= length (raw_text enc cs))%nat.
Proof.
  unfold raw_text. induction cs as [|c cs IH]; cbn; [done|].
  destruct (raw_encode_cons enc c) as (b & bs & ->). rewrite length_app. cbn. lia.
Qed.

(** ** The theorems *)

(** C10: the UTF-8 decoder accepts exactly the canonical encodings of Unicode
    scalar values, and decodes them to what the encoder encodes: overlong
    forms, surrogates, values above U+10FFFF and stray octets never decode. *)
Theorem utf8_decoder_exact (p p' : yaml_parser_t) (v w : Z) :
  Forall is_octet p.(reader).(raw_buffer) ->
  (decode_utf8 p = Ret (Some (v, w)) p' <->
   p' = p /\ scalar_value v /\ w = Z.of_nat (length (utf8_encode v))
   /\ exists rest, p.(reader).(raw_buffer) = utf8_encode v ++ rest).
Proof.
  intros Ho. split; [by apply decode_utf8_inv|].
  intros (-> & Hv & -> & rest & Hr). by eapply decode_encode_utf8.
Qed.

Definition euro_parser : yaml_parser_t :=
  set_raw_buffer [0xE2; 0x82; 0xAC; 0x21] (set_encoding YAML_UTF8_ENCODING (yaml_parser_initialize [])).

Lemma utf8_decoder_exact_witness : decode_utf8 euro_parser = Ret (Some (0x20AC, 3)) euro_parser.
Proof.
  apply (utf8_decoder_exact euro_parser euro_parser 0x20AC 3).
  - repeat (apply Forall_cons_2; [unfold is_octet; lia|]). apply Forall_nil_2.
  - split; [done|]. split; [unfold scalar_value; lia|]. split; [reflexivity|].
    exists [0x21]. reflexivity.
Defined.

(** The decoding loop turns a text of allowed characters, in each of the
    three encodings, into its UTF-8 form in the working buffer: it always
    returns, consumes all the raw octets, and counts the characters. *)
Theorem decode_raw_transcodes (p : yaml_parser_t) (enc : yaml_encoding_t) (cs : list Z) :
  p.(reader).(encoding) = enc -> enc <> YAML_ANY_ENCODING ->
  Forall (fun c => allowed_char c = true) cs -> p.(reader).(raw_buffer) = raw_text enc cs ->
  decode_raw p = Ret tt (transcoded enc cs [] p).
Proof.
  intros He Hn Hc Hr. unfold decode_raw. run_step. rewrite Hr.
  apply decode_loop; try done. pose proof (raw_text_length enc cs). lia.
Qed.

Lemma decode_raw_transcodes_witness :
  decode_raw (set_raw_buffer [0x41; 0; 0x3D; 0xD8; 0; 0xDE]
                (set_encoding YAML_UTF16LE_ENCODING (yaml_parser_initialize [])))
  = Ret tt (transcoded YAML_UTF16LE_ENCODING [0x41; 0x1F600] []
      (set_raw_buffer [0x41; 0; 0x3D; 0xD8; 0; 0xDE]
         (set_encoding YAML_UTF16LE_ENCODING (yaml_parser_initialize [])))).
Proof.
  apply decode_raw_transcodes.
  - reflexivity.
  - discriminate.
  - repeat (apply Forall_cons_2; [reflexivity|]). apply Forall_nil_2.
  - reflexivity.
Defined.
