(* ===== verification/YamlBuffer.v ===== *)
(** * libyaml: the reader is total and stays inside its buffers

    [yaml_parser_update_buffer] on any octets: it returns or reports a reader
    error, whatever the input; its loops terminate; the working buffer holds
    whole UTF-8 characters, as many as [unread] says, and never outgrows the
    block of [INPUT_BUFFER_SIZE] octets that [yaml_parser_initialize]
    allocates. *)

From Stdlib Require Import ZArith Lia Ascii String.
From stdpp Require Import base list option strings.
From S2P Require Import Prelude YamlData YamlReader YamlUtf8.

#[local] Open Scope Z_scope.

(** The requests of the scanner are small. *)
Definition MAX_REQUEST : Z := 4096.

Definition raw_length (p : yaml_parser_t) : Z := Z.of_nat (length p.(reader).(raw_buffer)).
Definition buffer_length (p : yaml_parser_t) : Z := Z.of_nat (length p.(reader).(buffer)).
Definition input_length (p : yaml_parser_t) : Z := Z.of_nat (length p.(reader).(input)).

(** Whole characters in the buffer, as many as [unread]. *)
Definition buffer_chars (p : yaml_parser_t) (cs : list Z) : Prop :=
  p.(reader).(buffer) = utf8_text cs /\ p.(reader).(unread) = Z.of_nat (length cs).

(** The input has been read and decoded to its end. *)
Definition ended (p : yaml_parser_t) : bool :=
  p.(reader).(eof) && bool_decide (p.(reader).(raw_buffer) = []).

(** Characters of a buffer: the NUL stands at the end of the input only. *)
Fixpoint text_ok (fin : bool) (cs : list Z) : Prop :=
  match cs with
  | [] => fin = false
  | c :: cs' => if c =? 0 then fin = true /\ cs' = [] else scalar_value c /\ text_ok fin cs'
  end.

Lemma text_ok_app fin cs ds : text_ok false cs -> text_ok fin ds -> text_ok fin (cs ++ ds).
Proof.
  intros Hc Hd. induction cs as [|c cs IH]; cbn in *; [done|].
  destruct (c =? 0) eqn:E; destruct Hc as [H1 H2]; [done|]. split; [done|by apply IH].
Qed.

Lemma text_ok_plain cs : Forall (fun c => scalar_value c /\ c <> 0) cs -> text_ok false cs.
Proof.
  induction 1 as [|c cs [H1 H2] _ IH]; cbn; [done|]. by rewrite (proj2 (Z.eqb_neq c 0)).
Qed.

(** The octets to come: a raw octet yields at most two octets of the working
    buffer, and the end of the input one more. *)
Definition octets_left (p : yaml_parser_t) : nat :=
  (length p.(reader).(buffer)
   + 2 * (length p.(reader).(raw_buffer) + length p.(reader).(input)))%nat.

Definition remaining (p : yaml_parser_t) : nat :=
  (octets_left p + (if ended p then 0 else 1))%nat.

Record reader_ok (p : yaml_parser_t) : Prop := mkReaderOk {
  ok_input : Forall is_octet p.(reader).(input);
  ok_raw : Forall is_octet p.(reader).(raw_buffer);
  ok_raw_size : raw_length p <= INPUT_RAW_BUFFER_SIZE;
  ok_chars : exists cs, buffer_chars p cs /\ text_ok (ended p) cs;
  ok_fresh : p.(reader).(encoding) = YAML_ANY_ENCODING ->
             p.(reader).(raw_buffer) = [] /\ p.(reader).(eof) = false
}.

(** A reader error, and nothing else. *)
Definition reader_failed (p : yaml_parser_t) : Prop := p.(err).(error) = YAML_READER_ERROR.

Lemma wp_set_reader_error {A} msg off v (Q : A -> yaml_parser_t -> Prop) p :
  wp strict (yaml_parser_set_reader_error msg off v) Q reader_failed p.
Proof. unfold yaml_parser_set_reader_error. by wp_steps. Qed.

(** ** One character *)

Lemma utf8_trail_total n : forall k l v p (Q : Z -> yaml_parser_t -> Prop),
  (n <= length l)%nat -> (forall v', Q v' p) ->
  wp strict (utf8_trail n k l v) Q reader_failed p.
Proof.
  induction n as [|n IH]; intros k l v p Q Hl HQ; cbn [utf8_trail]; [by wp_steps|].
  destruct l as [|b l]; [cbn in Hl; lia|].
  destruct (negb _); wp_steps; [apply wp_set_reader_error|]. apply IH; [cbn in Hl; lia|done].
Qed.

(** What a decoded character takes from the raw buffer and needs in the
    working buffer: at most three octets for two. *)
Definition fits (v w : Z) : Prop :=
  1 <= w /\ scalar_value v /\ 2 * Z.of_nat (length (utf8_encode v)) <= 3 * w.

Lemma utf8_encode_length v :
  length (utf8_encode v) =
  if v <=? 0x7F then 1%nat else if v <=? 0x7FF then 2%nat else if v <=? 0xFFFF then 3%nat else 4%nat.
Proof. unfold utf8_encode. by repeat destruct (_ <=? _). Qed.

(** The result of a decoder on the raw buffer of [p]. *)
Definition decoded (p : yaml_parser_t) (r : option (Z * Z)) (p' : yaml_parser_t) : Prop :=
  p' = p /\
  match r with
  | Some (v, w) => fits v w /\ w <= raw_length p
  | None => raw_length p < 4 /\ p.(reader).(eof) = false
  end.

Lemma wp_decode_utf8_width p :
  Forall is_octet p.(reader).(raw_buffer) -> p.(reader).(raw_buffer) <> [] ->
  wp strict decode_utf8 (fun r p' => p' = p /\
    match r with
    | Some (v, w) => w <= raw_length p
    | None => raw_length p < 4 /\ p.(reader).(eof) = false
    end) reader_failed p.
Proof.
  intros Ho Hne. unfold decode_utf8, raw_length. wp_steps.
  destruct (raw_buffer (reader p)) as [|b l] eqn:Er; [done|].
  assert (utf8_width b <= 4) as Hw.
  { unfold utf8_width. repeat destruct (_ =? _); lia. }
  destruct (utf8_width b =? 0); [apply wp_set_reader_error|].
  destruct (utf8_width b >? _) eqn:Eg.
  { rewrite Z.gtb_ltb, Z.ltb_lt in Eg. destruct (eof (reader p)) eqn:Ee; [apply wp_set_reader_error|].
    wp_steps. split; [done|]. split; [lia|done]. }
  rewrite Z.gtb_ltb, Z.ltb_ge in Eg. wp_step. apply utf8_trail_total; [cbn [length] in Eg; lia|].
  intros v. destruct (negb _); [apply wp_set_reader_error|].
  match goal with |- wp _ (if ?c then _ else _) _ _ _ => destruct c end;
    [apply wp_set_reader_error|]. by wp_steps.
Qed.

Lemma wp_decode_utf8 p :
  Forall is_octet p.(reader).(raw_buffer) -> p.(reader).(raw_buffer) <> [] ->
  wp strict decode_utf8 (decoded p) reader_failed p.
Proof.
  intros Ho Hne. pose proof (wp_decode_utf8_width p Ho Hne) as H. unfold wp in *.
  destruct (decode_utf8 p) as [[[v w]|] p'| | |] eqn:Ed; try done.
  destruct H as [-> Hw]. apply decode_utf8_inv in Ed as (_ & Hv & -> & _); [|done].
  split; [done|]. split; [|done]. split; [|split; [done|lia]].
  rewrite utf8_encode_length. repeat destruct (_ <=? _); lia.
Qed.

Lemma nth_octet l k : Forall is_octet l -> 0 <= nth k l 0 < 256.
Proof.
  intros H. destruct (nth_in_or_default k l 0) as [Hin | ->]; [|lia].
  rewrite List.Forall_forall in H. by apply H.
Qed.

Lemma wp_decode_utf16 little p :
  Forall is_octet p.(reader).(raw_buffer) ->
  wp strict (decode_utf16 little) (decoded p) reader_failed p.
Proof.
  intros Ho. unfold decode_utf16, decoded, raw_length. wp_steps. cbv zeta.
  set (n := Z.of_nat (length (raw_buffer (reader p)))).
  set (lo := if little then _ else _). set (hi := if little then _ else _).
  pose proof (nth_octet _ lo Ho) as B1. pose proof (nth_octet _ hi Ho) as B2.
  pose proof (nth_octet _ (lo + 2) Ho) as B3. pose proof (nth_octet _ (hi + 2) Ho) as B4.
  rewrite !Z.shiftl_mul_pow2 by lia.
  set (u := nth lo _ 0 + _ * 2^8). set (u2 := nth (lo + 2) _ 0 + _ * 2^8).
  assert (0 <= u < 65536) as Hu by (subst u; lia).
  assert (0 <= u2 < 65536) as Hu2 by (subst u2; lia).
  destruct (n <? 2) eqn:E2.
  { destruct (eof (reader p)) eqn:Ee; [apply wp_set_reader_error|]. wp_steps. split; [done|].
    split; [lia|done]. }
  rewrite land_fc00 by done.
  destruct (u / 1024 * 1024 =? 0xDC00) eqn:ED; [apply wp_set_reader_error|].
  destruct (u / 1024 * 1024 =? 0xD800) eqn:EH.
  - destruct (n <? 4) eqn:E4.
    { destruct (eof (reader p)) eqn:Ee; [apply wp_set_reader_error|]. wp_steps. split; [done|].
      split; [lia|done]. }
    destruct (negb _) eqn:EL; [apply wp_set_reader_error|]. wp_steps. split; [done|].
    rewrite !land_3ff. split; [|lia]. split; [lia|].
    pose proof (Z.mod_pos_bound u 1024 ltac:(lia)). pose proof (Z.mod_pos_bound u2 1024 ltac:(lia)).
    split; [unfold scalar_value; lia|]. rewrite utf8_encode_length. repeat destruct (_ <=? _); lia.
  - wp_steps. split; [done|]. split; [|lia]. split; [lia|].
    pose proof (Z.div_mod u 1024 ltac:(lia)). pose proof (Z.mod_pos_bound u 1024 ltac:(lia)).
    split; [unfold scalar_value; lia|]. rewrite utf8_encode_length.
    destruct (u <=? 127), (u <=? 2047); try lia. assert ((u <=? 65535) = true) as -> by lia. lia.
Qed.

Lemma wp_decode_char p :
  Forall is_octet p.(reader).(raw_buffer) -> p.(reader).(raw_buffer) <> [] ->
  p.(reader).(encoding) <> YAML_ANY_ENCODING ->
  wp strict decode_char (decoded p) reader_failed p.
Proof.
  intros Ho Hne He. unfold decode_char. wp_steps. destruct (encoding (reader p)); [done|..];
    by apply wp_decode_utf8 || by apply wp_decode_utf16.
Qed.

(** ** The decoding loop *)

(** From [p] to [p']: characters [cs] went from the raw to the working buffer. *)
Record moved (p p' : yaml_parser_t) (cs : list Z) : Prop := mkMoved {
  mv_buffer : p'.(reader).(buffer) = p.(reader).(buffer) ++ utf8_text cs;
  mv_unread : p'.(reader).(unread) = p.(reader).(unread) + Z.of_nat (length cs);
  mv_chars : Forall (fun c => scalar_value c /\ c <> 0) cs;
  mv_size : 2 * Z.of_nat (length (utf8_text cs)) + 3 * raw_length p' <= 3 * raw_length p;
  mv_raw : Forall is_octet p'.(reader).(raw_buffer);
  mv_input : p'.(reader).(input) = p.(reader).(input);
  mv_eof : p'.(reader).(eof) = p.(reader).(eof);
  mv_encoding : p'.(reader).(encoding) = p.(reader).(encoding)
}.

Lemma utf8_text_one c : utf8_text [c] = utf8_encode c.
Proof. apply app_nil_r. Qed.

Lemma moved_trans p q r cs ds : moved p q cs -> moved q r ds -> moved p r (cs ++ ds).
Proof.
  intros [] []. constructor; try congruence.
  - rewrite utf8_text_app, app_assoc. congruence.
  - rewrite length_app. lia.
  - by apply Forall_app.
  - rewrite utf8_text_app, length_app. lia.
Qed.

Lemma moved_refl p : Forall is_octet p.(reader).(raw_buffer) -> moved p p [].
Proof. intros H. constructor; cbn; rewrite ?app_nil_r; try done; lia. Qed.

Lemma wp_decode_step p :
  Forall is_octet p.(reader).(raw_buffer) -> p.(reader).(raw_buffer) <> [] ->
  p.(reader).(encoding) <> YAML_ANY_ENCODING ->
  wp strict decode_step (fun go p' =>
    if (go : bool) then (exists c, moved p p' [c]) /\ raw_length p' < raw_length p
    else p' = p /\ raw_length p < 4 /\ p.(reader).(eof) = false) reader_failed p.
Proof.
  intros Ho Hne He. unfold decode_step. wp_step.
  eapply wp_mono; [by apply wp_decode_char| |done].
  intros [[v w]|] p' [-> Hd]; wp_steps; [|done].
  destruct Hd as [(Hw & Hv & Hf) Hle].
  destruct (allowed_char v) eqn:Ea; cbn [negb]; [|apply wp_set_reader_error].
  unfold skip_raw, put_bytes. wp_steps.
  assert (raw_length p - w = Z.of_nat (length (drop (Z.to_nat w) (raw_buffer (reader p))))) as Hl.
  { rewrite length_drop. unfold raw_length in *. lia. }
  split; [|unfold raw_length at 1; cbn; lia].
  exists v. constructor; try done; rewrite ?utf8_text_one; cbn; try done.
  - apply Forall_singleton. split; [done|]. by intros ->.
  - unfold raw_length at 1. cbn. lia.
  - by apply Forall_drop.
Qed.

Lemma wp_decode_raw p :
  Forall is_octet p.(reader).(raw_buffer) -> p.(reader).(encoding) <> YAML_ANY_ENCODING ->
  wp strict decode_raw (fun _ p' => (exists cs, moved p p' cs) /\
    (p'.(reader).(raw_buffer) = [] \/ raw_length p' < 4 /\ p.(reader).(eof) = false))
    reader_failed p.
Proof.
  intros Ho He. unfold decode_raw. wp_step. wp_step. cbv beta.
  apply (wp_loop strict (fun _ q => exists cs, moved p q cs)
           (fun _ q => length q.(reader).(raw_buffer))); [|exists []; by apply moved_refl|right; lia].
  intros _ q [cs Hq]. wp_step. wp_step. cbv beta.
  destruct (raw_buffer (reader q)) as [|b l] eqn:Er.
  { wp_steps. split; [by exists cs|by left]. }
  wp_step. eapply wp_mono; [apply wp_decode_step| |done].
  - apply (mv_raw _ _ _ Hq).
  - by rewrite Er.
  - by rewrite (mv_encoding _ _ _ Hq).
  - intros [] r Hr; wp_steps.
    + destruct Hr as [[c Hc] Hlt]. split; [eexists; by eapply moved_trans|].
      right. unfold raw_length in Hlt. rewrite Er in Hlt. lia.
    + destruct Hr as (-> & Hlt & Heof). split; [by exists cs|right].
      split; [done|]. by rewrite <- (mv_eof _ _ _ Hq).
Qed.

(** ** Filling the raw buffer *)

(** The octets still to be decoded, and the fields a refill leaves alone. *)
Record refilled (p p' : yaml_parser_t) : Prop := mkRefilled {
  rf_buffer : p'.(reader).(buffer) = p.(reader).(buffer);
  rf_unread : p'.(reader).(unread) = p.(reader).(unread);
  rf_octets : Forall is_octet p'.(reader).(input) /\ Forall is_octet p'.(reader).(raw_buffer);
  rf_size : raw_length p' <= INPUT_RAW_BUFFER_SIZE;
  rf_input : input_length p' <= input_length p;
  rf_total : raw_length p' + input_length p' <= raw_length p + input_length p
}.

Lemma wp_update_raw_buffer p :
  Forall is_octet p.(reader).(input) -> Forall is_octet p.(reader).(raw_buffer) ->
  raw_length p <= INPUT_RAW_BUFFER_SIZE ->
  wp strict yaml_parser_update_raw_buffer (fun _ p' =>
    refilled p p' /\ p'.(reader).(encoding) = p.(reader).(encoding) /\
    (p.(reader).(eof) = true -> p'.(reader).(eof) = true) /\
    (p.(reader).(eof) = false -> raw_length p < INPUT_RAW_BUFFER_SIZE ->
       (p.(reader).(input) = [] -> p'.(reader).(eof) = true)
       /\ (p.(reader).(input) <> [] -> p'.(reader).(eof) = false
           /\ input_length p' < input_length p
           /\ (p'.(reader).(input) = [] \/ raw_length p' = INPUT_RAW_BUFFER_SIZE))))
    reader_failed p.
Proof.
  intros Hi Hr Hs. unfold yaml_parser_update_raw_buffer, raw_length, input_length in *. wp_steps.
  destruct (_ =? INPUT_RAW_BUFFER_SIZE) eqn:Ef; wp_steps.
  { apply Z.eqb_eq in Ef. split; [by constructor|]. split; [done|]. split; [done|]. lia. }
  apply Z.eqb_neq in Ef. destruct (eof (reader p)) eqn:Ee; wp_steps; [by repeat split|].
  unfold yaml_string_read_handler. wp_steps.
  destruct (input (reader p)) as [|b l] eqn:Ei; wp_steps.
  { rewrite app_nil_r. split; [constructor; unfold raw_length, input_length; cbn; by rewrite ?Ei|].
    cbn. done. }
  set (n := if _ >? _ then _ else _).
  assert (1 <= n <= Z.of_nat (length (b :: l))
          /\ n <= INPUT_RAW_BUFFER_SIZE - Z.of_nat (length (raw_buffer (reader p)))
          /\ (n = Z.of_nat (length (b :: l))
              \/ n = INPUT_RAW_BUFFER_SIZE - Z.of_nat (length (raw_buffer (reader p)))))
    as (Hn1 & Hn2 & Hn3).
  { subst n. cbn [length]. destruct (_ >? _) eqn:E; rewrite Z.gtb_ltb in E;
      [apply Z.ltb_lt in E|apply Z.ltb_ge in E]; cbn [length] in E; lia. }
  assert (length (take (Z.to_nat n) (b :: l)) = Z.to_nat n) as Ht by (rewrite length_take; lia).
  assert (length (drop (Z.to_nat n) (b :: l)) = (length (b :: l) - Z.to_nat n)%nat) as Hd
    by apply length_drop.
  destruct (take (Z.to_nat n) (b :: l)) as [|b' l'] eqn:Et; [cbn in Ht; lia|]. wp_steps.
  assert (Forall is_octet (b' :: l')) as Ho by (rewrite <- Et; by apply Forall_take).
  split; [|split; [done|split; [done|]]].
  - constructor; unfold raw_length, input_length; cbn [reader set_raw_buffer set_input set_reader
      buffer unread input raw_buffer]; try done.
    + split; [by apply Forall_drop|by apply Forall_app].
    + rewrite length_app, Ht. lia.
    + rewrite Hd, Ei. lia.
    + rewrite Hd, Ei, length_app, Ht. lia.
  - intros _ _. split; [done|]. intros _. cbn [reader set_raw_buffer set_input set_reader
      buffer unread input raw_buffer eof]. split; [done|]. rewrite Hd, length_app, Ht.
    split; [lia|]. destruct Hn3; [left|right; lia].
    apply nil_length_inv. lia.
Qed.

(** The byte order mark: an encoding is chosen. *)
Lemma wp_determine_encoding p :
  Forall is_octet p.(reader).(input) -> p.(reader).(raw_buffer) = [] -> p.(reader).(eof) = false ->
  wp strict yaml_parser_determine_encoding (fun _ p' =>
    refilled p p' /\ p'.(reader).(encoding) <> YAML_ANY_ENCODING) reader_failed p.
Proof.
  intros Hi Hr He. unfold yaml_parser_determine_encoding. wp_step.
  set (v := fun q : yaml_parser_t =>
    if q.(reader).(eof) || (INPUT_RAW_BUFFER_SIZE <=? raw_length q) then 0%nat
    else if bool_decide (q.(reader).(input) = []) then 1%nat else 2%nat).
  eapply wp_mono; [eapply (wp_while strict (fun q => refilled p q) v _ _ (fun q => refilled p q))
                  | |done].
  - intros q Hq. wp_steps. destruct (negb _ && _) eqn:Ec; [|done].
    apply andb_true_iff in Ec as [Ec1%negb_true_iff Ec2]. fold (raw_length q) in Ec2.
    apply Z.ltb_lt in Ec2. destruct Hq as [Q1 Q2 [Q3 Q4] Q5 Q6 Q7].
    eapply wp_mono; [by apply wp_update_raw_buffer| |done].
    intros ? r ([R1 R2 R3 R4 R5 R6] & _ & _ & R7). split; [constructor; try congruence; try done; lia|].
    right. specialize (R7 Ec1 ltac:(unfold INPUT_RAW_BUFFER_SIZE; lia)) as [R7 R8]. subst v. cbn beta.
    rewrite Ec1. assert ((INPUT_RAW_BUFFER_SIZE <=? raw_length q) = false) as ->
      by (unfold INPUT_RAW_BUFFER_SIZE; lia). cbn [orb].
    destruct (decide (input (reader q) = [])) as [Ei|Ei].
    { rewrite (R7 Ei), (bool_decide_eq_true_2 (input (reader q) = []) Ei). cbn. lia. }
    rewrite (bool_decide_eq_false_2 (input (reader q) = []) Ei).
    destruct (R8 Ei) as (-> & _ & [-> | ->]); [|rewrite Z.leb_refl; cbn; lia].
    rewrite (bool_decide_eq_true_2 _ eq_refl). destruct (_ || _); lia.
  - constructor; try done; unfold raw_length; rewrite ?Hr; done.
  - right. subst v. cbn beta. destruct (_ || _); [lia|]. case_bool_decide; lia.
  - intros ? q [Q1 Q2 [Q3 Q4] Q5 Q6 Q7]. wp_steps. unfold skip_raw.
    repeat match goal with |- wp _ (if ?c then _ else _) _ _ _ => destruct c end;
      wp_steps; (split; [|done]); constructor; unfold raw_length, input_length in *; cbn;
      rewrite ?length_drop; try done; try lia; (split; [done|by apply Forall_drop]).
Qed.

Lemma utf8_text_bound cs : Z.of_nat (length (utf8_text cs)) <= 4 * Z.of_nat (length cs).
Proof.
  unfold utf8_text. induction cs as [|c cs IH]; cbn [map concat length]; [lia|].
  rewrite length_app, utf8_encode_length. repeat destruct (_ <=? _); lia.
Qed.

(** ** The buffer the scanner asks for *)

(** The loop of [yaml_parser_update_buffer], from [p0] on. *)
Record filling (p0 : yaml_parser_t) (len : Z) (first : bool) (p : yaml_parser_t) : Prop := mkFilling {
  fl_octets : Forall is_octet p.(reader).(input) /\ Forall is_octet p.(reader).(raw_buffer);
  fl_size : raw_length p <= INPUT_RAW_BUFFER_SIZE;
  fl_chars : exists cs, buffer_chars p cs /\ text_ok false cs;
  fl_encoding : p.(reader).(encoding) <> YAML_ANY_ENCODING;
  fl_bound : 2 * buffer_length p <= 8 * len + 3 * INPUT_RAW_BUFFER_SIZE;
  fl_next : first = false -> p.(reader).(eof) = false /\ raw_length p < 4;
  fl_open : ended p = false \/ p.(reader).(unread) < len;
  fl_left : (octets_left p <= octets_left p0)%nat;
  fl_prefix : exists tl, p.(reader).(buffer) = p0.(reader).(buffer) ++ tl
}.

(** When it stops: enough characters, or the end of the input; no octet was
    made up and what was in the buffer is still at its front. *)
Record filled (p0 : yaml_parser_t) (len : Z) (p : yaml_parser_t) : Prop := mkFilled {
  fd_ok : reader_ok p;
  fd_bound : buffer_length p <= INPUT_BUFFER_SIZE;
  fd_done : len <= p.(reader).(unread) \/ ended p = true;
  fd_left : (remaining p <= remaining p0)%nat;
  fd_prefix : exists tl, p.(reader).(buffer) = p0.(reader).(buffer) ++ tl
}.

Lemma moved_filling p0 len p q cs first :
  filling p0 len first p -> p.(reader).(unread) < len -> moved p q cs ->
  (exists ds, buffer_chars q ds /\ text_ok false ds) /\ raw_length q <= INPUT_RAW_BUFFER_SIZE
  /\ 2 * buffer_length q <= 8 * (len - 1) + 3 * INPUT_RAW_BUFFER_SIZE
  /\ (octets_left q <= octets_left p0)%nat
  /\ exists tl, q.(reader).(buffer) = p0.(reader).(buffer) ++ tl.
Proof.
  intros [_ Hs [ds [[Hb Hu] Ht]] _ _ _ _ Hl [tl Htl]] Hlt [M1 M2 M3 M4 _ M5 _ _].
  pose proof (utf8_text_bound ds). split_and!.
  - exists (ds ++ cs). split; [|by apply text_ok_app, text_ok_plain].
    split; [by rewrite M1, Hb, utf8_text_app|rewrite length_app; lia].
  - unfold raw_length in *. lia.
  - unfold buffer_length, raw_length in *. rewrite M1, Hb, length_app. lia.
  - unfold octets_left, raw_length in *. rewrite M1, M5, length_app. lia.
  - exists (tl ++ utf8_text cs). by rewrite M1, Htl, <- app_assoc.
Qed.

Definition fill_variant (first : bool) (p : yaml_parser_t) : nat :=
  ((if first then 1 else 0) + length p.(reader).(input)
   + (if p.(reader).(eof) then 0 else 1))%nat.

(** After the raw buffer has been refilled, or was not empty. *)
Definition refill_post p0 (len : Z) (first : bool) p (q : yaml_parser_t) : Prop :=
  filling p0 len true q /\ q.(reader).(unread) < len
  /\ (q.(reader).(eof) = false -> (fill_variant false q < fill_variant first p)%nat).

(** A refill touches neither the working buffer nor its bounds. *)
Lemma refilled_filling p0 len first p q :
  filling p0 len first p -> p.(reader).(unread) < len -> refilled p q ->
  q.(reader).(encoding) <> YAML_ANY_ENCODING -> filling p0 len true q.
Proof.
  intros [F1 F2 F3 F4 F5 F6 F7 F8 F9] Hlt [R1 R2 R3 R4 R5 R6] He.
  constructor; try done; unfold buffer_length in *; rewrite ?R1, ?R2; auto.
  - destruct F3 as [cs [[C1 C2] Ht]]. exists cs. split; [split; congruence|done].
  - unfold octets_left, raw_length, input_length in *. rewrite R1. lia.
Qed.

Lemma wp_refill p0 len (first : bool) p :
  filling p0 len first p -> p.(reader).(unread) < len ->
  wp strict (if negb first || bool_decide (p.(reader).(raw_buffer) = [])
             then yaml_parser_update_raw_buffer else mret tt)
    (fun _ q => refill_post p0 len first p q) reader_failed p.
Proof.
  intros Hf Hlt. pose proof Hf as [[F1 F1'] F2 F3 F4 F5 F6 F7 F8 F9].
  destruct (negb first || _) eqn:Ec.
  - eapply wp_mono; [by apply wp_update_raw_buffer| |done].
    intros ? q (Hr & R6 & R8 & R7).
    split; [by eapply refilled_filling; rewrite ?R6|]. pose proof Hr as [R1 R2 R3 R4 R5 _].
    split; [congruence|]. intros Hq. unfold fill_variant. rewrite Hq. unfold input_length in R5.
    assert (p.(reader).(eof) = false -> raw_length p < INPUT_RAW_BUFFER_SIZE ->
            Z.of_nat (length q.(reader).(input)) < Z.of_nat (length p.(reader).(input))) as Hdec.
    { intros He Hraw. destruct (R7 He Hraw) as [G1 G2].
      destruct (decide (p.(reader).(input) = [])) as [Hi|Hi];
        [by rewrite G1 in Hq|by destruct (G2 Hi) as (_ & ? & _)]. }
    destruct (eof (reader p)) eqn:He; [by rewrite R8 in Hq|].
    destruct first; [lia|]. destruct (F6 eq_refl) as [_ Hraw].
    specialize (Hdec eq_refl ltac:(unfold INPUT_RAW_BUFFER_SIZE; lia)). lia.
  - apply orb_false_iff in Ec as [Ec _]. destruct first; [|done]. wp_steps.
    split; [done|]. split; [done|]. intros He. unfold fill_variant. rewrite He. lia.
Qed.

Lemma filling_enough p0 len first p :
  len <= MAX_REQUEST -> ended p0 = false -> filling p0 len first p -> len <= p.(reader).(unread) ->
  filled p0 len p.
Proof.
  intros Hlen H0 [[F1 F1'] F2 F3 F4 F5 F6 F7 F8 F9] Hu.
  destruct F7 as [F7|F7]; [|lia]. constructor; [| |by left| |done].
  - constructor; try done. by rewrite F7.
  - unfold INPUT_BUFFER_SIZE, INPUT_RAW_BUFFER_SIZE, MAX_REQUEST in *. lia.
  - unfold remaining. rewrite H0, F7. lia.
Qed.

(** The end of the input: a NUL is put behind the characters. *)
Lemma filled_at_eof p0 len q r cs first :
  len <= MAX_REQUEST -> ended p0 = false -> filling p0 len first q -> q.(reader).(unread) < len ->
  moved q r cs -> r.(reader).(raw_buffer) = [] -> r.(reader).(eof) = true ->
  wp strict (put_bytes [0]) (fun _ s => filled p0 len s) reader_failed r.
Proof.
  intros Hlen H0 Hq Hu Hm Hend Her. pose proof (moved_filling _ _ _ _ _ _ Hq Hu Hm)
    as (M1 & M2 & M3 & M4 & [tl Htl]). destruct (fl_octets _ _ _ _ Hq) as [O1 O2].
  pose proof Hm as [_ _ _ _ N4 N5 N6 N7]. unfold put_bytes. wp_steps.
  set (s := set_unread _ _).
  assert (ended s = true) as He by (unfold ended; cbn; by rewrite Her, Hend).
  constructor; [|cbn|by right| |].
  - constructor; cbn; [by rewrite N5|done|done| |].
    + destruct M1 as [ds [[D1 D2] D3]]. exists (ds ++ [0]). rewrite He. split; [split; cbn|].
      * by rewrite D1, utf8_text_app.
      * rewrite length_app. cbn. lia.
      * by apply text_ok_app.
    + intros En. destruct (fl_encoding _ _ _ _ Hq). congruence.
  - unfold buffer_length in M3 |- *. cbn. rewrite length_app. cbn.
    unfold INPUT_BUFFER_SIZE, INPUT_RAW_BUFFER_SIZE, MAX_REQUEST in *. lia.
  - unfold remaining. rewrite He, H0. unfold octets_left in M4 |- *. cbn. rewrite length_app. cbn. lia.
  - exists (tl ++ [0]). cbn. by rewrite Htl, <- app_assoc.
Qed.

Lemma wp_fill_step p0 len (first : bool) p :
  len <= MAX_REQUEST -> ended p0 = false -> filling p0 len first p ->
  wp strict (fill_step len first)
    (fun r q =>
       match r with
       | inl first' => filling p0 len first' q
           /\ (may_timeout strict \/ (fill_variant first' q < fill_variant first p)%nat)
       | inr _ => filled p0 len q
       end) reader_failed p.
Proof.
  intros Hlen H0 Hf. unfold fill_step. wp_steps. destruct (unread (reader p) <? len) eqn:Eu.
  2:{ wp_steps. apply Z.ltb_ge in Eu. by eapply filling_enough. }
  apply Z.ltb_lt in Eu. wp_steps. eapply wp_mono; [by apply wp_refill| |done].
  intros ? q (Hq & Hu & Hv). wp_step. destruct (fl_octets _ _ _ _ Hq) as [O1 O2].
  eapply wp_mono; [apply wp_decode_raw; [done|apply (fl_encoding _ _ _ _ Hq)]| |done].
  intros ? r [[cs Hm] Hend]. wp_steps. pose proof Hm as [_ _ _ _ N4 N5 N6 N7].
  destruct (eof (reader r)) eqn:Er; wp_steps.
  - rewrite <- N6 in Hend. destruct Hend as [Hend|[_ ?]]; [|done].
    eapply wp_mono; [by eapply filled_at_eof| |done]. intros ? s Hs. by wp_steps.
  - destruct (moved_filling _ _ _ _ _ _ Hq Hu Hm) as (M1 & M2 & M3 & M4 & M5). split.
    + constructor; try done; [by rewrite N5|by rewrite N7; apply (fl_encoding _ _ _ _ Hq)|lia| |].
      * intros _. split; [done|]. destruct Hend as [Hend|[? _]]; [|done].
        unfold raw_length. by rewrite Hend.
      * left. unfold ended. by rewrite Er.
    + right. specialize (Hv ltac:(congruence)). unfold fill_variant in *.
      rewrite Er, N5. rewrite <- N6 in Hv. lia.
Qed.

Lemma wp_fill_loop p0 len p fuel :
  len <= MAX_REQUEST -> ended p0 = false -> filling p0 len true p ->
  (length p.(reader).(input) + 2 < fuel)%nat ->
  wp strict (loop fuel (fill_step len) true) (fun _ q => filled p0 len q) reader_failed p.
Proof.
  intros Hlen H0 Hf Hfuel.
  apply (wp_loop strict (fun first q => filling p0 len first q) fill_variant).
  - intros first q Hq. by apply wp_fill_step.
  - done.
  - right. unfold fill_variant. destruct (eof (reader p)); lia.
Qed.

(** The part of [yaml_parser_update_buffer] behind the choice of an encoding. *)
Lemma wp_fill_rest p0 len p :
  len <= MAX_REQUEST -> ended p0 = false -> filling p0 len true p ->
  wp strict (inp ← gets (fun p => p.(reader).(input));
      full ← loop (S (S (S (length inp)))) (fill_step len) true;
      if (full : bool) then
        off ← gets (fun p => p.(reader).(offset));
        if off >=? MAX_FILE_SIZE then
          yaml_parser_set_reader_error "input is too long" off (-1)
        else mret tt
      else mret tt) (fun _ q => filled p0 len q) reader_failed p.
Proof.
  intros Hlen H0 Hf. wp_steps. eapply wp_mono; [apply wp_fill_loop; [done|done|done|lia]| |done].
  intros full r Hfull. destruct full; wp_steps; [|done].
  destruct (_ >=? MAX_FILE_SIZE); [apply wp_set_reader_error|by wp_steps].
Qed.

Lemma wp_update_buffer (p : yaml_parser_t) (len : Z) :
  reader_ok p -> buffer_length p <= INPUT_BUFFER_SIZE -> len <= MAX_REQUEST ->
  wp strict (yaml_parser_update_buffer len) (fun _ p' => filled p len p') reader_failed p.
Proof.
  intros Hok Hb Hlen. pose proof Hok as [Hi Hr Hs [cs [[Hc1 Hc2] Ht]] Hfresh].
  unfold yaml_parser_update_buffer. wp_steps. fold (ended p).
  assert (exists tl, p.(reader).(buffer) = p.(reader).(buffer) ++ tl) as Hpre
    by (exists []; by rewrite app_nil_r).
  destruct (ended p) eqn:Ee; wp_steps; [constructor; auto|].
  destruct (_ >=? len) eqn:El; wp_steps; [constructor; auto; left; lia|].
  assert (unread (reader p) < len) as Hu by lia.
  assert (2 * buffer_length p <= 8 * len + 3 * INPUT_RAW_BUFFER_SIZE).
  { unfold buffer_length. rewrite Hc1. pose proof (utf8_text_bound cs).
    unfold INPUT_RAW_BUFFER_SIZE. lia. }
  destruct (encoding (reader p)) eqn:Een.
  { destruct (Hfresh eq_refl) as [H1 H2]. eapply wp_mono; [by apply wp_determine_encoding| |done].
    intros ? q [[Q1 Q2 Q3 Q4 Q5 Q6] He]. apply wp_fill_rest; [done|done|].
    constructor; try done; unfold buffer_length in *; rewrite ?Q1, ?Q2; auto.
    - exists cs. split; [split; congruence|done].
    - unfold octets_left, raw_length, input_length in *. rewrite Q1. lia. }
  all: wp_step; apply wp_fill_rest; [done|done|]; constructor; try done;
    [by exists cs|congruence|auto].
Qed.

(** C12: [yaml_parser_update_buffer] is total and memory safe on every input:
    it returns, or fails with a reader error; when it returns the buffer holds
    whole characters, as many as [unread] counts, at least as many as asked for
    unless the input has ended (then a NUL stands at its end, and nowhere
    else); what was in the buffer is still at its front, and it never holds
    more than the [INPUT_BUFFER_SIZE] octets allocated for it. *)
Theorem update_buffer_safe (p : yaml_parser_t) (len : Z) :
  reader_ok p -> buffer_length p <= INPUT_BUFFER_SIZE -> len <= MAX_REQUEST ->
  wp strict (yaml_parser_update_buffer len) (fun _ p' => filled p len p') reader_failed p.
Proof. apply wp_update_buffer. Qed.

Lemma update_buffer_safe_witness :
  wp strict (yaml_parser_update_buffer 4)
    (fun _ p' => filled (yaml_parser_initialize [0x61; 0x3A; 0xFF]) 4 p') reader_failed
    (yaml_parser_initialize [0x61; 0x3A; 0xFF]).
Proof.
  apply (update_buffer_safe (yaml_parser_initialize [0x61; 0x3A; 0xFF]) 4).
  - constructor; try done; [|by exists []].
    repeat (apply Forall_cons_2; [unfold is_octet; lia|]). apply Forall_nil_2.
  - cbn. discriminate.
  - discriminate.
Defined.
