(* ===== verification/YamlCursor.v ===== *)
(** * libyaml: the cursor of the scanner is safe

    The invariant of the working buffer as the scanner sees it: whole
    characters, a NUL exactly at the end of the input, and as many characters
    as the last [CACHE] asked for.  Under it every character test of
    [yaml_private.h] evaluates to a predicate of a character in the buffer
    (never reading behind the last octet), and the cursor macros move forward
    by whole characters. *)

From Stdlib Require Import ZArith Lia Ascii String.
From stdpp Require Import base list option strings.
From S2P Require Import Prelude YamlData YamlReader YamlChars YamlScanner YamlParser.
From S2P Require Import YamlEvents YamlFrame YamlUtf8 YamlBuffer.

#[local] Open Scope Z_scope.
#[local] Open Scope yaml_scope.
#[local] Ltac Zify.zify_post_hook ::= Z.to_euclidean_division_equations.

(** ** The characters of the buffer *)

(** The character at the front of some octets. *)
Definition decode_head (l : list Z) : Z :=
  match decode_utf8 (set_raw_buffer l (yaml_parser_initialize [])) with
  | Ret (Some (v, _)) _ => v
  | _ => 0
  end.

(** The character at an offset of the buffer. *)
Definition char_at (k : nat) (p : yaml_parser_t) : Z := decode_head (drop k p.(reader).(buffer)).

Lemma decode_head_encode c rest : scalar_value c -> decode_head (utf8_encode c ++ rest) = c.
Proof. intros Hc. unfold decode_head. by rewrite (decode_encode_utf8 _ c rest). Qed.

Lemma scalar_zero : scalar_value 0.
Proof. unfold scalar_value. lia. Qed.

Lemma text_ok_scalar fin c cs : text_ok fin (c :: cs) -> scalar_value c.
Proof.
  cbn. destruct (c =? 0) eqn:E; [|tauto]. intros _. apply Z.eqb_eq in E as ->. apply scalar_zero.
Qed.

Record cursor (n : nat) (p : yaml_parser_t) : Prop := mkCursor {
  cu_reader : reader_ok p;
  cu_bound : buffer_length p <= INPUT_BUFFER_SIZE;
  cu_ready : Z.of_nat n <= p.(reader).(unread) \/ ended p = true;
  cu_column : 0 <= p.(reader).(mark).(column)
}.

Lemma cursor_weaken n m p : cursor n p -> (m <= n)%nat -> cursor m p.
Proof. intros [H1 H2 H3 H4] Hm. constructor; try done. destruct H3; [left; lia|by right]. Qed.

(** [n] characters were asked for; those in front of the offset [k] are single
    octets, and there is one at [k]. *)
Definition looking (n k : nat) (p : yaml_parser_t) : Prop :=
  exists cs, drop k p.(reader).(buffer) = utf8_text (char_at k p :: cs)
             /\ text_ok (ended p) (char_at k p :: cs)
             /\ (ended p = true \/ (n <= k + length (char_at k p :: cs))%nat).

Lemma looking_of n k p c cs :
  drop k p.(reader).(buffer) = utf8_text (c :: cs) -> text_ok (ended p) (c :: cs) ->
  ended p = true \/ (n <= k + length (c :: cs))%nat -> looking n k p /\ char_at k p = c.
Proof.
  intros H1 H2 H3. assert (char_at k p = c) as Hc.
  { unfold char_at. rewrite H1. cbn. apply decode_head_encode. by eapply text_ok_scalar. }
  split; [|done]. exists cs. by rewrite Hc.
Qed.

Lemma looking_0 n p : cursor n p -> (0 < n)%nat -> looking n 0 p.
Proof.
  intros [[_ _ _ [cs [[Hb Hu] Ht]] _] _ Hr _] Hn. destruct cs as [|c cs].
  - cbn in Ht, Hu. destruct Hr as [Hr|Hr]; [lia|congruence].
  - eapply (looking_of n 0 p c cs); [by rewrite drop_0|done|].
    destruct Hr as [Hr|Hr]; [right; lia|by left].
Qed.

Definition single_octet (c : Z) : Prop := 0 < c < 128.

Lemma encode_single c : single_octet c -> utf8_encode c = [c].
Proof. unfold single_octet, utf8_encode. intros H. by assert ((c <=? 127) = true) as -> by lia. Qed.

Lemma looking_S n k p :
  looking n k p -> single_octet (char_at k p) -> (S k < n)%nat -> looking n (S k) p.
Proof.
  intros (cs & H1 & H2 & H3) Hc Hn. cbn in H1, H2. rewrite encode_single in H1 by done.
  assert ((char_at k p =? 0) = false) as E by (unfold single_octet in Hc; lia). rewrite E in H2.
  destruct H2 as [_ H2].
  assert (drop (S k) p.(reader).(buffer) = utf8_text cs) as Hd.
  { replace (S k) with (k + 1)%nat by lia. rewrite <- drop_drop, H1. done. }
  destruct cs as [|c cs].
  - cbn in H2, H3. destruct H3; [congruence|lia].
  - eapply (looking_of n (S k) p c cs); [done|done|]. destruct H3; [by left|right]. cbn in *. lia.
Qed.

Lemma looking_scalar n k p : looking n k p -> scalar_value (char_at k p).
Proof. intros (cs & _ & H & _). by eapply text_ok_scalar. Qed.

(** The NUL is the last character. *)
Lemma looking_ended n k p : looking n k p -> char_at k p = 0 -> ended p = true.
Proof. intros (cs & _ & H & _) Hc. cbn in H. rewrite Hc in H. cbn in H. tauto. Qed.

(** ** Tests of the character at an offset *)

(** A test that has a value and changes nothing. *)
Definition eval {A} (t : yaml_prog A) (p : yaml_parser_t) (b : A) : Prop := t p = Ret b p.

Lemma eval_ret {A} (a : A) p : eval (mret a) p a.
Proof. done. Qed.
Lemma eval_gets {A} (f : yaml_parser_t -> A) p : eval (gets f) p (f p).
Proof. done. Qed.
Lemma eval_bind {A B} (t : yaml_prog A) (k : A -> yaml_prog B) p a b :
  eval t p a -> eval (k a) p b -> eval (t ≫= k) p b.
Proof. unfold eval, mbind, prog_bind. by intros ->. Qed.
Lemma eval_not t p b : eval t p b -> eval (notM t) p (negb b).
Proof. unfold eval, notM, mbind, prog_bind. by intros ->. Qed.
Lemma eval_and t u p b c :
  eval t p b -> (b = true -> eval u p c) -> eval (t &&& u) p (b && c).
Proof. unfold eval, andM, mbind, prog_bind. intros -> H. destruct b; [by apply H|done]. Qed.
Lemma eval_or t u p b c :
  eval t p b -> (b = false -> eval u p c) -> eval (t ||| u) p (b || c).
Proof. unfold eval, orM, mbind, prog_bind. intros -> H. destruct b; [done|by apply H]. Qed.
Lemma eval_eq {A} (t : yaml_prog A) p b c : eval t p b -> b = c -> eval t p c.
Proof. congruence. Qed.

Lemma wp_eval {A} F (t : yaml_prog A) p b (Q : A -> yaml_parser_t -> Prop) E :
  eval t p b -> Q b p -> wp F t Q E p.
Proof. unfold eval, wp. by intros ->. Qed.

Lemma wp_ifm {A} F t (a b : yaml_prog A) p x (Q : A -> yaml_parser_t -> Prop) E :
  eval t p x -> (x = true -> wp F a Q E p) -> (x = false -> wp F b Q E p) ->
  wp F (ifM t a b) Q E p.
Proof.
  intros Ht Ha Hb. unfold ifM. apply wp_bind. eapply wp_eval; [done|]. destruct x; auto.
Qed.

(** The first octet of a character. *)
Definition first_octet (c : Z) : Z :=
  if c <=? 0x7F then c
  else if c <=? 0x7FF then 0xC0 + c / 64
  else if c <=? 0xFFFF then 0xE0 + c / 4096
  else 0xF0 + c / 262144.

Lemma encode_first c : exists bs, utf8_encode c = first_octet c :: bs.
Proof.
  rewrite utf8_encode_eq. unfold first_octet. repeat destruct (_ <=? _); by eexists.
Qed.

Lemma first_octet_low c : c <= 127 -> first_octet c = c.
Proof. intros H. unfold first_octet. by rewrite (proj2 (Z.leb_le c 127)). Qed.

Lemma first_octet_high c : 128 <= c -> 128 <= first_octet c.
Proof.
  intros H. unfold first_octet. destruct (c <=? 127) eqn:E; [lia|].
  pose proof (Z.div_pos c 64). pose proof (Z.div_pos c 4096). pose proof (Z.div_pos c 262144).
  repeat destruct (_ <=? _); lia.
Qed.

Lemma first_octet_width c :
  scalar_value c -> utf8_width (first_octet c) = Z.of_nat (length (utf8_encode c)).
Proof.
  intros [H _]. rewrite utf8_encode_length. unfold first_octet.
  destruct (c <=? 0x7F) eqn:E1; [apply lead_1; lia|].
  destruct (c <=? 0x7FF) eqn:E2; [apply lead_2; lia|].
  destruct (c <=? 0xFFFF) eqn:E3; [apply lead_3; lia|apply lead_4; lia].
Qed.

Lemma eval_byte_at n k p : looking n k p -> eval (byte_at k) p (first_octet (char_at k p)).
Proof.
  intros (cs & H & _). destruct (encode_first (char_at k p)) as [bs Hbs].
  unfold eval, byte_at, gets, mbind, prog_bind.
  assert (p.(reader).(buffer) !! k = Some (first_octet (char_at k p))) as ->; [|done].
  rewrite <- (Nat.add_0_r k), <- lookup_drop, H. cbn. rewrite Nat.add_0_r, Hbs. done.
Qed.

(** The further octets of a character. *)
Lemma eval_byte_in n k j p b :
  looking n k p -> utf8_encode (char_at k p) !! j = Some b -> eval (byte_at (k + j)) p b.
Proof.
  intros (cs & H & _) Hb. unfold eval, byte_at, gets, mbind, prog_bind.
  assert (p.(reader).(buffer) !! (k + j)%nat = Some b) as ->; [|done].
  rewrite <- lookup_drop, H. cbn. by apply lookup_app_l_Some.
Qed.

Lemma eval_CHECK_AT n k p o :
  looking n k p -> 0 <= o < 128 -> eval (CHECK_AT o k) p (char_at k p =? o).
Proof.
  intros H Ho. unfold CHECK_AT. eapply eval_bind; [by eapply eval_byte_at|].
  eapply eval_eq; [apply eval_ret|]. destruct (Z.le_gt_cases (char_at k p) 127) as [Hc|Hc].
  - by rewrite first_octet_low.
  - pose proof (first_octet_high (char_at k p) ltac:(lia)).
    by rewrite !(proj2 (Z.eqb_neq _ _)) by lia.
Qed.

(** *** The classes of characters *)

Definition c_blank (c : Z) : bool := (c =? ch " ") || (c =? 9).
Definition c_break (c : Z) : bool :=
  (c =? 13) || (c =? 10) || (c =? 0x85) || (c =? 0x2028) || (c =? 0x2029).
Definition c_breakz (c : Z) : bool := c_break c || (c =? 0).
Definition c_blankz (c : Z) : bool := c_blank c || c_breakz c.

(** Classes of single octets, for a character. *)
Lemma class_first f c :
  (forall b, 128 <= b -> f b = false) -> 0 <= c -> f (first_octet c) = f c.
Proof.
  intros Hf Hc. destruct (Z.le_gt_cases c 127) as [H|H]; [by rewrite first_octet_low|].
  pose proof (first_octet_high c ltac:(lia)). rewrite !Hf by lia. done.
Qed.

(** The octets of character literals as numbers. *)
Ltac literals := repeat match goal with
  | |- context [ch ?c] => let z := eval vm_compute in (ch c) in change (ch c) with z
  | H : context [ch ?c] |- _ => let z := eval vm_compute in (ch c) in change (ch c) with z in H
  end.

Lemma is_digit_high b : 128 <= b -> is_digit b = false.
Proof. unfold is_digit. literals. lia. Qed.
Lemma is_alpha_high b : 128 <= b -> is_alpha b = false.
Proof. intros H. unfold is_alpha. rewrite is_digit_high by done. literals. lia. Qed.
Lemma is_hex_high b : 128 <= b -> is_hex b = false.
Proof. intros H. unfold is_hex. rewrite is_digit_high by done. literals. lia. Qed.

Section tests.
Context (n k : nat) (p : yaml_parser_t) (Hl : looking n k p).

Lemma char_nonneg : 0 <= char_at k p.
Proof. by destruct (looking_scalar _ _ _ Hl) as [[? _] _]. Qed.

Lemma eval_class f :
  (forall b, 128 <= b -> f b = false) ->
  eval (b ← byte_at k; mret (f b)) p (f (char_at k p)).
Proof.
  intros Hf. eapply eval_bind; [by eapply eval_byte_at|]. eapply eval_eq; [apply eval_ret|].
  apply class_first; [done|apply char_nonneg].
Qed.

Lemma eval_IS_HEX_AT : eval (IS_HEX_AT k) p (is_hex (char_at k p)).
Proof. apply eval_class, is_hex_high. Qed.
Lemma eval_AS_HEX_AT : eval (AS_HEX_AT k) p (as_hex (first_octet (char_at k p))).
Proof. eapply eval_bind; [by eapply eval_byte_at|]. apply eval_ret. Qed.

Lemma eval_check_at c : 0 <= ch c < 128 -> eval (check_at c k) p (char_at k p =? ch c).
Proof. by apply (eval_CHECK_AT n). Qed.
Lemma eval_IS_Z_AT : eval (IS_Z_AT k) p (char_at k p =? 0).
Proof. apply (eval_CHECK_AT n); [done|lia]. Qed.
Lemma eval_IS_SPACE_AT : eval (IS_SPACE_AT k) p (char_at k p =? ch " ").
Proof. by apply eval_check_at. Qed.
Lemma eval_IS_TAB_AT : eval (IS_TAB_AT k) p (char_at k p =? 9).
Proof. apply (eval_CHECK_AT n); [done|lia]. Qed.
Lemma eval_IS_BLANK_AT : eval (IS_BLANK_AT k) p (c_blank (char_at k p)).
Proof. apply eval_or; [apply eval_IS_SPACE_AT|intros _; apply eval_IS_TAB_AT]. Qed.

(** A test of an octet of the character. *)
Lemma eval_octet j b o :
  utf8_encode (char_at k p) !! j = Some b -> eval (CHECK_AT o (k + j)) p (b =? o).
Proof. intros H. eapply eval_bind; [by eapply eval_byte_in|]. apply eval_ret. Qed.

Lemma eval_octet_0 b o :
  utf8_encode (char_at k p) !! 0%nat = Some b -> eval (CHECK_AT o k) p (b =? o).
Proof. intros H. rewrite <- (Nat.add_0_r k). by apply eval_octet. Qed.

End tests.

Lemma eval_and_l t u p : eval t p false -> eval (t &&& u) p false.
Proof. unfold eval, andM, mbind, prog_bind. by intros ->. Qed.

(** Evaluation of a test of single octets, with the values of the octets in
    hypotheses. *)
Ltac octet := match goal with
  | H : forall o, eval (CHECK_AT o ?k) _ _ |- eval (CHECK_AT _ ?k) _ _ => apply H
  end.
Ltac octets_false := lazymatch goal with
  | |- eval (_ &&& _) _ _ => apply eval_and_l; octets_false
  | |- _ => eapply eval_eq; [octet|apply Z.eqb_neq; lia]
  end.
Ltac octets := lazymatch goal with
  | |- eval (_ ||| _) _ _ => eapply eval_or; [octets|intros _; octets]
  | |- eval (_ &&& _) _ _ =>
      first [ eapply eval_and; [solve [octets]|intros _; solve [octets]]
            | apply eval_and_l; octets_false ]
  | |- _ => octet
  end.

(** A character by the number of its octets. *)
Lemma encode_cases c : scalar_value c ->
  (0 <= c < 128 /\ utf8_encode c = [c])
  \/ (exists q r, c = 64 * q + r /\ 2 <= q < 32 /\ 0 <= r < 64 /\ utf8_encode c = [0xC0 + q; 0x80 + r])
  \/ (exists q s r, c = 4096 * q + 64 * s + r /\ 0 <= q < 16 /\ 0 <= s < 64 /\ 0 <= r < 64
        /\ 0x800 <= c /\ utf8_encode c = [0xE0 + q; 0x80 + s; 0x80 + r])
  \/ (exists q b1 b2 b3, 0 <= q < 8 /\ 0x10000 <= c /\ utf8_encode c = [0xF0 + q; b1; b2; b3]).
Proof.
  intros [Hc _]. rewrite utf8_encode_eq.
  destruct (c <=? 0x7F) eqn:E1; [left; split; [lia|done]|right].
  destruct (c <=? 0x7FF) eqn:E2.
  { left. exists (c / 64), (c mod 64). split_and!; try done; lia. }
  right. destruct (c <=? 0xFFFF) eqn:E3.
  { left. exists (c / 4096), (c / 64 mod 64), (c mod 64). split_and!; try done; lia. }
  right. eexists (c / 262144), _, _, _. split_and!; try done; lia.
Qed.

Lemma eval_IS_BREAK_AT n k p : looking n k p -> eval (IS_BREAK_AT k) p (c_break (char_at k p)).
Proof.
  intros Hl. pose proof (eval_octet_0 n k p Hl) as H0.
  pose proof (fun b o => eval_octet n k p Hl 1 b o) as H1.
  pose proof (fun b o => eval_octet n k p Hl 2 b o) as H2.
  destruct (encode_cases _ (looking_scalar _ _ _ Hl))
    as [(Hc & E)|[(q & r & Hc & Hq & Hr & E)|[(q & s & r & Hc & Hq & Hs & Hr & Hx & E)
       |(q & b1 & b2 & b3 & Hq & Hc & E)]]]; rewrite E in H0, H1, H2; cbn in H0, H1, H2;
    set (c := char_at k p) in *.
  - specialize (fun o => H0 _ o eq_refl) as H0. clear H1 H2.
    unfold IS_BREAK_AT. eapply eval_eq; [octets|]. unfold c_break. lia.
  - specialize (fun o => H0 _ o eq_refl) as H0. specialize (fun o => H1 _ o eq_refl) as H1. clear H2.
    unfold IS_BREAK_AT. eapply eval_eq; [octets|]. unfold c_break. lia.
  - specialize (fun o => H0 _ o eq_refl) as H0. specialize (fun o => H1 _ o eq_refl) as H1.
    specialize (fun o => H2 _ o eq_refl) as H2.
    unfold IS_BREAK_AT. eapply eval_eq; [octets|]. unfold c_break. lia.
  - specialize (fun o => H0 _ o eq_refl) as H0. specialize (fun o => H1 _ o eq_refl) as H1.
    specialize (fun o => H2 _ o eq_refl) as H2.
    unfold IS_BREAK_AT. eapply eval_eq; [octets|]. unfold c_break. lia.
Qed.

Lemma eval_IS_BREAKZ_AT n k p : looking n k p -> eval (IS_BREAKZ_AT k) p (c_breakz (char_at k p)).
Proof. intros H. apply eval_or; [by eapply eval_IS_BREAK_AT|intros _; by eapply eval_IS_Z_AT]. Qed.

Lemma eval_IS_BLANKZ_AT n k p : looking n k p -> eval (IS_BLANKZ_AT k) p (c_blankz (char_at k p)).
Proof.
  intros H. apply eval_or; [by eapply eval_IS_BLANK_AT|intros _; by eapply eval_IS_BREAKZ_AT].
Qed.

Lemma eval_IS_BOM n p : looking n 0 p -> eval IS_BOM p (char_at 0 p =? 0xFEFF).
Proof.
  intros Hl. pose proof (eval_octet_0 n 0 p Hl) as H0.
  pose proof (fun b o => eval_octet n 0 p Hl 1 b o) as H1.
  pose proof (fun b o => eval_octet n 0 p Hl 2 b o) as H2.
  destruct (encode_cases _ (looking_scalar _ _ _ Hl))
    as [(Hc & E)|[(q & r & Hc & Hq & Hr & E)|[(q & s & r & Hc & Hq & Hs & Hr & Hx & E)
       |(q & b1 & b2 & b3 & Hq & Hc & E)]]]; rewrite E in H0, H1, H2; cbn in H0, H1, H2;
    set (c := char_at 0 p) in *; specialize (fun o => H0 _ o eq_refl) as H0;
    try specialize (fun o => H1 _ o eq_refl) as H1; try specialize (fun o => H2 _ o eq_refl) as H2;
    unfold IS_BOM; (eapply eval_eq; [octets|]; lia).
Qed.

Lemma eval_IS_ALPHA n p : looking n 0 p -> eval IS_ALPHA p (is_alpha (char_at 0 p)).
Proof. intros H. by eapply (eval_class _ _ _ H), is_alpha_high. Qed.
Lemma eval_IS_DIGIT n p : looking n 0 p -> eval IS_DIGIT p (is_digit (char_at 0 p)).
Proof. intros H. by eapply (eval_class _ _ _ H), is_digit_high. Qed.
Lemma eval_AS_DIGIT n p : looking n 0 p -> eval AS_DIGIT p (as_digit (first_octet (char_at 0 p))).
Proof. intros H. eapply eval_bind; [by eapply eval_byte_at|]. apply eval_ret. Qed.

(** ** Movement *)

(** The order of positions. *)
Definition mark_lt (m m' : yaml_mark_t) : Prop :=
  m.(line) < m'.(line) \/ (m.(line) = m'.(line) /\ m.(column) < m'.(column)).
Definition mark_le (m m' : yaml_mark_t) : Prop :=
  m.(line) < m'.(line) \/ (m.(line) = m'.(line) /\ m.(column) <= m'.(column)).

(** From [p0] to [p]: nothing is made up, the position does not go back; with
    [s] some character has been consumed. *)
Record went (s : bool) (p0 p : yaml_parser_t) : Prop := mkWent {
  w_remaining : (remaining p + (if s then 1 else 0) <= remaining p0)%nat;
  w_mark : if s then mark_lt p0.(reader).(mark) p.(reader).(mark)
           else mark_le p0.(reader).(mark) p.(reader).(mark)
}.

Lemma went_refl p : went false p p.
Proof. constructor; [lia|]. right. lia. Qed.

Lemma went_trans s s' p q r : went s p q -> went s' q r -> went (s || s') p r.
Proof.
  intros [H1 H2] [G1 G2]. constructor; [destruct s, s'; cbn; lia|].
  unfold mark_lt, mark_le in *. destruct s, s'; cbn; lia.
Qed.

Lemma went_weak s p q : went s p q -> went false p q.
Proof.
  intros [H1 H2]. constructor; [destruct s; lia|]. unfold mark_lt, mark_le in *. destruct s; lia.
Qed.

(** Where a routine that started at [p0] has got to, with [n] characters at hand. *)
Definition reach (p0 : yaml_parser_t) (s : bool) (n : nat) (p : yaml_parser_t) : Prop :=
  cursor n p /\ went s p0 p.

Lemma reach_start n p : cursor n p -> reach p false n p.
Proof. intros H. split; [done|apply went_refl]. Qed.

Lemma reach_trans p0 s s' n m p q : reach p0 s n p -> reach p s' m q -> reach p0 (s || s') m q.
Proof. intros [_ H] [G1 G2]. split; [done|by eapply went_trans]. Qed.

Lemma reach_weaken p0 s n m p : reach p0 s n p -> (m <= n)%nat -> reach p0 s m p.
Proof. intros [H1 H2] Hm. split; [by eapply cursor_weaken|done]. Qed.

Lemma reach_any p0 s n p : reach p0 s n p -> reach p0 false n p.
Proof. intros [H1 H2]. split; [done|by eapply went_weak]. Qed.

Lemma reach_cursor p0 s n p : reach p0 s n p -> cursor n p.
Proof. by intros [? _]. Qed.

(** ** The character behind one that is known *)

(** A test that only non-NUL single octets pass. *)
Lemma single_check c o : (c =? o) = true -> single_octet o -> single_octet c.
Proof. intros ->%Z.eqb_eq. done. Qed.
Lemma single_alpha c : is_alpha c = true -> single_octet c.
Proof. unfold is_alpha, is_digit, single_octet. literals. lia. Qed.
Lemma single_hex c : is_hex c = true -> single_octet c.
Proof. unfold is_hex, is_digit, single_octet. literals. lia. Qed.
Lemma single_digit c : is_digit c = true -> single_octet c.
Proof. unfold is_digit, single_octet. literals. lia. Qed.
Lemma single_blank c : c_blank c = true -> single_octet c.
Proof. unfold c_blank, single_octet. literals. lia. Qed.
Lemma single_nonzero c : single_octet c -> c <> 0.
Proof. unfold single_octet. lia. Qed.
Lemma break_nonzero c : c_break c = true -> c <> 0.
Proof. unfold c_break. lia. Qed.

Ltac split_tests := repeat match goal with
  | H : (_ && _) = true |- _ => apply andb_true_iff in H as [? ?]
  | H : (_ || _) = false |- _ => apply orb_false_iff in H as [? ?]
  | H : negb _ = true |- _ => apply negb_true_iff in H
  | H : negb _ = false |- _ => apply negb_false_iff in H
  end.

(** [single]: the character passed a test for a single octet. *)
Ltac single := split_tests;
  first [ eassumption
        | eapply single_check; [eassumption|split; reflexivity]
        | apply single_alpha; eassumption | apply single_hex; eassumption
        | apply single_digit; eassumption | apply single_blank; eassumption
        | match goal with H : (_ || _) = true |- _ => apply orb_true_iff in H as [H|H]; single end ].

(** [look]: an offset that may be read. *)
Ltac look :=
  first [ eassumption
        | eapply looking_0; [first [eassumption|eapply reach_cursor; eassumption]|lia]
        | eapply looking_S; [look|single|lia] ].

(** [ev]: the value of a test. *)
Ltac ev := lazymatch goal with
  | |- eval (_ &&& _) _ _ => eapply eval_and; [ev|intros ?; ev]
  | |- eval (_ ||| _) _ _ => eapply eval_or; [ev|intros ?; ev]
  | |- eval (notM _) _ _ => eapply eval_not; ev
  | |- eval (mret _) _ _ => apply eval_ret
  | |- eval (gets _) _ _ => apply eval_gets
  | |- eval in_flow _ _ => apply eval_gets
  | |- eval in_block _ _ => apply eval_gets
  | |- eval column_is_0 _ _ => apply eval_gets
  | |- eval get_simple_key_allowed _ _ => apply eval_gets
  | |- eval (below_indent _) _ _ => apply eval_gets
  | |- eval (CHECK_AT _ _) _ _ => eapply eval_CHECK_AT; [look|literals; lia]
  | |- eval (CHECK _) _ _ => eapply eval_CHECK_AT; [look|literals; lia]
  | |- eval (check_at _ _) _ _ => eapply eval_check_at; [look|literals; lia]
  | |- eval IS_Z _ _ => eapply eval_IS_Z_AT; look
  | |- eval (IS_Z_AT _) _ _ => eapply eval_IS_Z_AT; look
  | |- eval IS_SPACE _ _ => eapply eval_IS_SPACE_AT; look
  | |- eval IS_TAB _ _ => eapply eval_IS_TAB_AT; look
  | |- eval IS_BLANK _ _ => eapply eval_IS_BLANK_AT; look
  | |- eval (IS_BLANK_AT _) _ _ => eapply eval_IS_BLANK_AT; look
  | |- eval IS_BREAK _ _ => eapply eval_IS_BREAK_AT; look
  | |- eval (IS_BREAK_AT _) _ _ => eapply eval_IS_BREAK_AT; look
  | |- eval IS_BREAKZ _ _ => eapply eval_IS_BREAKZ_AT; look
  | |- eval (IS_BREAKZ_AT _) _ _ => eapply eval_IS_BREAKZ_AT; look
  | |- eval IS_BLANKZ _ _ => eapply eval_IS_BLANKZ_AT; look
  | |- eval (IS_BLANKZ_AT _) _ _ => eapply eval_IS_BLANKZ_AT; look
  | |- eval IS_CRLF _ _ => unfold IS_CRLF; ev
  | |- eval IS_BOM _ _ => eapply eval_IS_BOM; look
  | |- eval IS_ALPHA _ _ => eapply eval_IS_ALPHA; look
  | |- eval IS_DIGIT _ _ => eapply eval_IS_DIGIT; look
  | |- eval AS_DIGIT _ _ => eapply eval_AS_DIGIT; look
  | |- eval (IS_HEX_AT _) _ _ => eapply eval_IS_HEX_AT; look
  | |- eval (AS_HEX_AT _) _ _ => eapply eval_AS_HEX_AT; look
  | |- eval at_document_indicator _ _ => unfold at_document_indicator; ev
  | |- eval at_flow_colon _ _ => unfold at_flow_colon; ev
  | |- eval at_plain_end _ _ => unfold at_plain_end; ev
  | |- eval (check_any _) _ _ => cbn [check_any flow_indicators uri_chars plain_excluded]; ev
  end.

(** The buffer at the cursor. *)
Lemma cursor_text n p : cursor (S n) p ->
  exists cs, p.(reader).(buffer) = utf8_text (char_at 0 p :: cs)
             /\ p.(reader).(unread) = Z.of_nat (length (char_at 0 p :: cs))
             /\ text_ok (ended p) (char_at 0 p :: cs).
Proof.
  intros [[_ _ _ [cs [[Hb Hu] Ht]] _] _ Hr _]. destruct cs as [|c cs].
  - cbn in Ht, Hu. destruct Hr as [Hr|Hr]; [lia|congruence].
  - exists cs. assert (char_at 0 p = c) as ->; [|done].
    unfold char_at. rewrite drop_0, Hb. cbn. apply decode_head_encode. by eapply text_ok_scalar.
Qed.

(** The object after a character of [w] octets, [k] characters in all. *)
Definition past (w : nat) (k : Z) (m : yaml_mark_t) (p : yaml_parser_t) : yaml_parser_t :=
  set_buffer (drop w p.(reader).(buffer))
    (set_unread (p.(reader).(unread) - k) (set_mark m p)).

Lemma past_reach p0 s n m p cs ds mk :
  reach p0 s n p -> p.(reader).(buffer) = utf8_text (cs ++ ds) ->
  p.(reader).(unread) = Z.of_nat (length (cs ++ ds)) ->
  text_ok (ended p) ds -> cs <> [] -> (n <= m + length cs)%nat -> (m + length cs <= n)%nat ->
  mark_lt p.(reader).(mark) mk -> 0 <= mk.(column) ->
  reach p0 true m (past (length (utf8_text cs)) (Z.of_nat (length cs)) mk p).
Proof.
  intros [[Hok Hb Hr Hc] Hw] Ht Hu Hx Hne Hn1 Hn2 Hm Hcol. set (p' := past _ _ _ _).
  rewrite utf8_text_app in Ht. rewrite length_app in Hu.
  assert (ended p' = ended p) as He by done.
  assert (p'.(reader).(buffer) = utf8_text ds) as Hb'.
  { cbn. rewrite Ht. by rewrite drop_app_length. }
  assert (1 <= length (utf8_text cs))%nat as Hl.
  { destruct cs as [|c cs]; [done|]. cbn. rewrite length_app, utf8_encode_length.
    repeat destruct (_ <=? _); lia. }
  split.
  - constructor; [| | |exact Hcol]. 3:{ rewrite He. destruct Hr as [Hr|Hr]; [left; cbn; lia|by right]. }
    + destruct Hok as [O1 O2 O3 O4 O5]. constructor; try done.
      exists ds. rewrite He. split; [|done]. split; [done|cbn; lia].
    + unfold buffer_length in *. rewrite Hb'. rewrite Ht, length_app in Hb. lia.
  - rewrite <- (orb_true_r s). eapply went_trans; [exact Hw|].
    constructor; [|exact Hm]. unfold remaining, octets_left. rewrite He, Hb'. cbn.
    rewrite Ht, length_app. lia.
Qed.

(** [SKIP] and [READ] take the character at the cursor, which is not the NUL. *)
Lemma eval_SKIP p0 s n p :
  reach p0 s (S n) p -> char_at 0 p <> 0 ->
  exists m, reach p0 true n (past (length (utf8_encode (char_at 0 p))) 1 m p)
    /\ SKIP p = Ret tt (past (length (utf8_encode (char_at 0 p))) 1 m p)
    /\ (forall x, READ x p = Ret (x ++ utf8_encode (char_at 0 p))
                              (past (length (utf8_encode (char_at 0 p))) 1 m p))
    /\ m = mkMark (p.(reader).(mark).(index) + 1) p.(reader).(mark).(line)
             (p.(reader).(mark).(column) + 1).
Proof.
  intros Hre Hnz. pose proof Hre as [Hcu Hw]. destruct (cursor_text n p Hcu) as (cs & Hb & Hu & Ht).
  pose proof (looking_0 (S n) p Hcu ltac:(lia)) as Hl.
  pose proof (eval_byte_at _ _ _ Hl) as Hbyte.
  pose proof (first_octet_width _ (looking_scalar _ _ _ Hl)) as Hwd.
  set (c := char_at 0 p) in *. set (m0 := p.(reader).(mark)).
  exists (mkMark (m0.(index) + 1) m0.(line) (m0.(column) + 1)).
  assert (length (utf8_encode c) <= length p.(reader).(buffer))%nat as Hlen.
  { rewrite Hb. cbn. rewrite length_app. lia. }
  split; [|split; [|split; [|done]]].
  - rewrite <- (utf8_text_one c). eapply (past_reach p0 s (S n) n p [c] cs); try done; cbn.
    + cbn in Ht. by rewrite (proj2 (Z.eqb_neq c 0) Hnz) in Ht; destruct Ht.
    + lia.
    + lia.
    + right. cbn. fold m0. lia.
    + pose proof (cu_column _ _ Hcu). fold m0 in H. lia.
  - unfold SKIP. etransitivity; [eapply prog_bind_ret; exact Hbyte|]. cbv beta.
    unfold move_mark, get_mark, advance, gets, modify, mbind, prog_bind. cbn.
    rewrite Hwd, (proj2 (Z.leb_le _ _)) by lia. by rewrite Nat2Z.id.
  - intros x. unfold READ. etransitivity; [eapply prog_bind_ret; exact Hbyte|]. cbv beta.
    unfold copy_bytes, move_mark, get_mark, gets, modify, mbind, prog_bind. cbn.
    rewrite Hwd, Nat2Z.id, (proj2 (Nat.leb_le _ _)) by lia. cbn.
    assert (take (length (utf8_encode c)) p.(reader).(buffer) = utf8_encode c) as ->; [|done].
    rewrite Hb. cbn. by rewrite take_app_length.
Qed.

Lemma past_char p m k :
  single_octet (char_at 0 p) ->
  char_at k (past (length (utf8_encode (char_at 0 p))) 1 m p) = char_at (S k) p.
Proof. intros H. rewrite encode_single by done. unfold char_at. cbn. by rewrite drop_drop. Qed.

(** Line breaks. *)
Definition newline_mark (k : Z) (p : yaml_parser_t) : yaml_mark_t :=
  mkMark (p.(reader).(mark).(index) + k) (p.(reader).(mark).(line) + 1) 0.

Lemma newline_lt k p : mark_lt p.(reader).(mark) (newline_mark k p).
Proof. left. cbn. lia. Qed.

Lemma past_line p0 s n p :
  reach p0 s (S n) p -> char_at 0 p <> 0 ->
  reach p0 true n (past (length (utf8_encode (char_at 0 p))) 1 (newline_mark 1 p) p).
Proof.
  intros Hre Hnz. pose proof Hre as [Hcu _]. destruct (cursor_text n p Hcu) as (cs & Hb & Hu & Ht).
  rewrite <- (utf8_text_one (char_at 0 p)).
  eapply (past_reach p0 s (S n) n p [_] cs); try done; try (cbn; lia); [|apply newline_lt].
  cbn in Ht. by rewrite (proj2 (Z.eqb_neq _ 0) Hnz) in Ht; destruct Ht.
Qed.

Lemma past_crlf p0 s p :
  reach p0 s 2 p -> char_at 0 p = 13 -> char_at 1 p = 10 ->
  reach p0 true 0 (past 2 2 (newline_mark 2 p) p) /\ (2 <= length p.(reader).(buffer))%nat.
Proof.
  intros Hre H0 H1. pose proof Hre as [Hcu _]. destruct (cursor_text 1 p Hcu) as (cs & Hb & Hu & Ht).
  rewrite H0 in Hb, Hu, Ht. cbn in Ht. destruct Ht as [_ Ht].
  destruct cs as [|c cs].
  { cbn in Ht. destruct Hcu as [_ _ [Hr|Hr] _]; [cbn in Hu; lia|congruence]. }
  assert (c = 10) as ->.
  { rewrite <- H1. unfold char_at. rewrite Hb. cbn. rewrite drop_0. symmetry.
    apply decode_head_encode. by eapply text_ok_scalar. }
  split; [|rewrite Hb; cbn; lia].
  eapply (past_reach p0 s 2 0 p [13; 10] cs); try done; try (cbn; lia); [by destruct Ht|apply newline_lt].
Qed.

Ltac octet_hyps n k p Hl :=
  pose proof (eval_octet_0 n k p Hl) as H0;
  pose proof (fun b o => eval_octet n k p Hl 1 b o) as H1;
  pose proof (fun b o => eval_octet n k p Hl 2 b o) as H2;
  destruct (encode_cases _ (looking_scalar _ _ _ Hl))
    as [(Hc & E)|[(q & r & Hc & Hq & Hr & E)|[(q & s & r & Hc & Hq & Hs & Hr & Hx & E)
       |(q & b1 & b2 & b3 & Hq & Hc & E)]]]; rewrite E in H0, H1, H2; cbn in H0, H1, H2;
    set (c := char_at k p) in *; specialize (fun o => H0 _ o eq_refl) as H0;
    try specialize (fun o => H1 _ o eq_refl) as H1; try specialize (fun o => H2 _ o eq_refl) as H2.

Lemma eval_NEL n p :
  looking n 0 p -> eval (CHECK_AT 0xC2 0 &&& CHECK_AT 0x85 1) p (char_at 0 p =? 0x85).
Proof. intros Hl. octet_hyps n 0%nat p Hl; (eapply eval_eq; [octets|]; lia). Qed.

Lemma eval_LSPS n p :
  looking n 0 p ->
  eval (CHECK_AT 0xE2 0 &&& CHECK_AT 0x80 1 &&& (CHECK_AT 0xA8 2 ||| CHECK_AT 0xA9 2)) p
    ((char_at 0 p =? 0x2028) || (char_at 0 p =? 0x2029)).
Proof. intros Hl. octet_hyps n 0%nat p Hl; (eapply eval_eq; [octets|]; lia). Qed.

Section line_steps.
Context (F : faults) (w : nat) (k : Z) (p : yaml_parser_t) (E : yaml_parser_t -> Prop).
Hypothesis Hw : (w <= length p.(reader).(buffer))%nat.

Lemma wp_move_advance (Q : unit -> yaml_parser_t -> Prop) :
  Q tt (past w k (newline_mark k p) p) -> wp F (move_mark k true;; advance (Z.of_nat w)) Q E p.
Proof.
  unfold wp, move_mark, get_mark, advance, gets, modify, mbind, prog_bind. cbn.
  by rewrite (proj2 (Z.leb_le _ _)), Nat2Z.id by lia.
Qed.

Lemma wp_advance_move {A} (a : A) (Q : A -> yaml_parser_t -> Prop) :
  Q a (past w k (newline_mark k p) p) ->
  wp F (advance (Z.of_nat w);; move_mark k true;; mret a) Q E p.
Proof.
  unfold wp, move_mark, get_mark, advance, gets, modify, mbind, prog_bind. cbn.
  by rewrite (proj2 (Z.leb_le _ _)), Nat2Z.id by lia.
Qed.

Lemma wp_copy_move x (Q : list Z -> yaml_parser_t -> Prop) :
  (forall x', Q x' (past w k (newline_mark k p) p)) ->
  wp F (bs ← copy_bytes w; move_mark k true;; mret (x ++ bs)) Q E p.
Proof.
  intros HQ. unfold wp, copy_bytes, move_mark, get_mark, gets, modify, mbind, prog_bind.
  cbv beta iota. rewrite (proj2 (Nat.leb_le _ _)) by lia. apply HQ.
Qed.
End line_steps.

(** A total and a partial specification together. *)
Lemma wp_strict_lax {A} (m : yaml_prog A) (Q Q' : A -> yaml_parser_t -> Prop) E E' p :
  wp strict m Q E p -> wp lax m Q' E' p -> wp strict m (fun a p' => Q a p' /\ Q' a p') E p.
Proof. unfold wp. destruct (m p); done. Qed.

Section steps.
Context (p0 : yaml_parser_t) (s : bool) (p : yaml_parser_t).

Lemma step_SKIP n (Q : unit -> yaml_parser_t -> Prop) :
  reach p0 s (S n) p -> char_at 0 p <> 0 ->
  (forall p', reach p0 true n p' ->
     (single_octet (char_at 0 p) -> forall k, char_at k p' = char_at (S k) p) -> Q tt p') ->
  wp strict SKIP Q failed p.
Proof.
  intros H Hz HQ. destruct (eval_SKIP _ _ _ _ H Hz) as (m & H1 & H2 & _).
  unfold wp. rewrite H2. apply HQ; [done|]. intros; by apply past_char.
Qed.

Lemma step_READ n x (Q : list Z -> yaml_parser_t -> Prop) :
  reach p0 s (S n) p -> char_at 0 p <> 0 ->
  (forall p' x', reach p0 true n p' -> Q x' p') ->
  wp strict (READ x) Q failed p.
Proof.
  intros H Hz HQ. destruct (eval_SKIP _ _ _ _ H Hz) as (m & H1 & _ & H2 & _).
  unfold wp. rewrite H2. by apply HQ.
Qed.

Lemma step_CACHE n k m (Q : unit -> yaml_parser_t -> Prop) :
  reach p0 s n p -> Z.to_nat k = m -> 0 <= k <= MAX_REQUEST ->
  (forall p', reach p0 s m p' -> ((0 < n)%nat -> char_at 0 p' = char_at 0 p) -> Q tt p') ->
  wp strict (CACHE k) Q failed p.
Proof.
  intros [[C1 C2 C3 C4] Hw] Hm Hk HQ. unfold CACHE. wp_steps.
  destruct (_ >=? k) eqn:Ek; wp_steps.
  { apply HQ; [|done]. split; [|done]. constructor; try done. left. lia. }
  eapply wp_mono; [eapply wp_strict_lax; [apply wp_update_buffer; [done|done|lia]|apply bo_update_buffer]| |].
  2:{ intros q Hq. unfold failed, reader_failed in *. congruence. }
  intros [] q [[F1 F2 F3 F4 [tl F5]] [_ Hmk]]. apply HQ.
  - split.
    + constructor; try done; [|by rewrite Hmk]. destruct F3; [left; lia|by right].
    + destruct Hw as [W1 W2]. constructor; [lia|by rewrite Hmk].
  - intros Hn. assert (cursor (S (n - 1)) p) as Hcu.
    { constructor; try done. destruct C3; [left; lia|by right]. }
    destruct (cursor_text _ p Hcu) as (cs & Hb & _ & Ht). unfold char_at at 1.
    rewrite drop_0, F5, Hb. cbn. rewrite <- app_assoc. apply decode_head_encode.
    by eapply text_ok_scalar.
Qed.

(** Nothing happens when the characters are there. *)
Lemma CACHE_ready n k :
  cursor n p -> k <= Z.of_nat n -> CACHE k p = Ret tt p.
Proof.
  intros [_ _ Hr _] Hk. unfold CACHE, gets, mbind, prog_bind. destruct (_ >=? k) eqn:E; [done|].
  destruct Hr as [Hr|Hr]; [lia|]. unfold ended in Hr. apply andb_true_iff in Hr as [H1 H2].
  unfold yaml_parser_update_buffer, gets, mbind, prog_bind. by rewrite H1, H2.
Qed.

Lemma step_SKIP_LINE (Q : unit -> yaml_parser_t -> Prop) :
  reach p0 s 2 p ->
  (forall p', reach p0 (s || c_break (char_at 0 p)) 0 p' -> Q tt p') ->
  wp strict SKIP_LINE Q failed p.
Proof.
  intros H HQ. pose proof H as [Hcu _]. unfold SKIP_LINE.
  eapply wp_ifm; [ev|intros Hb|intros _].
  - split_tests. apply Z.eqb_eq in H0, H1. destruct (past_crlf _ _ _ H H0 H1) as [H2 H3].
    apply (wp_move_advance strict 2 2); [done|]. apply HQ. rewrite H0.
    by rewrite orb_true_r.
  - eapply wp_ifm; [ev|intros Hb|intros Hb]; rewrite Hb in HQ.
    + pose proof (break_nonzero _ Hb) as Hz. wp_step. eapply wp_eval; [eapply eval_byte_at; look|].
      rewrite first_octet_width by (eapply looking_scalar; look).
      destruct (cursor_text 1 p Hcu) as (cs & Ht & _ & _).
      apply wp_move_advance; [rewrite Ht; cbn; rewrite length_app; lia|]. apply HQ.
      rewrite orb_true_r. eapply reach_weaken; [by eapply past_line|lia].
    + wp_steps. apply HQ. rewrite orb_false_r. eapply reach_weaken; [done|lia].
Qed.

Lemma step_READ_LINE x (Q : list Z -> yaml_parser_t -> Prop) :
  reach p0 s 2 p ->
  (forall p' x', reach p0 (s || c_break (char_at 0 p)) 0 p' -> Q x' p') ->
  wp strict (READ_LINE x) Q failed p.
Proof.
  intros H HQ. pose proof H as [Hcu _]. unfold READ_LINE.
  destruct (cursor_text 1 p Hcu) as (cs & Ht & _ & _).
  assert (char_at 0 p <> 0 -> forall w, w = length (utf8_encode (char_at 0 p)) ->
    (w <= length p.(reader).(buffer))%nat /\ reach p0 true 0 (past w 1 (newline_mark 1 p) p)) as Hone.
  { intros Hz w ->. split; [rewrite Ht; cbn; rewrite length_app; lia|].
    eapply reach_weaken; [by eapply past_line|lia]. }
  eapply wp_ifm; [ev|intros Hb|intros _].
  { split_tests. apply Z.eqb_eq in H0, H1. destruct (past_crlf _ _ _ H H0 H1) as [H2 H3].
    apply (wp_advance_move strict 2 2); [done|]. apply HQ. by rewrite H0, orb_true_r. }
  eapply wp_ifm; [ev|intros Hb|intros E1].
  { assert (char_at 0 p = 13 \/ char_at 0 p = 10) as Hc.
    { apply orb_true_iff in Hb as [Hb|Hb]; apply Z.eqb_eq in Hb; auto. }
    destruct (Hone ltac:(lia) 1%nat) as [H1 H2]; [by destruct Hc as [-> | ->]|].
    apply (wp_advance_move strict 1 1); [done|]. apply HQ.
    destruct Hc as [-> | ->]; by rewrite orb_true_r. }
  eapply wp_ifm; [eapply eval_NEL; look|intros Hb%Z.eqb_eq|intros E2].
  { destruct (Hone ltac:(lia) 2%nat) as [H1 H2]; [by rewrite Hb|].
    apply (wp_advance_move strict 2 1); [done|]. apply HQ. by rewrite Hb, orb_true_r. }
  eapply wp_ifm; [eapply eval_LSPS; look|intros Hb|intros E3].
  { assert (char_at 0 p = 0x2028 \/ char_at 0 p = 0x2029) as Hc.
    { apply orb_true_iff in Hb as [Hb|Hb]; apply Z.eqb_eq in Hb; auto. }
    destruct (Hone ltac:(lia) 3%nat) as [H1 H2]; [by destruct Hc as [-> | ->]|].
    apply (wp_copy_move strict 3 1); [done|]. intros x'. apply HQ.
    destruct Hc as [-> | ->]; by rewrite orb_true_r. }
  wp_steps. apply HQ. split_tests. eapply reach_weaken; [|by apply Nat.le_0_l with (n := 2%nat)].
  assert (c_break (char_at 0 p) = false) as ->; [|by rewrite orb_false_r].
  unfold c_break. repeat (apply orb_false_intro); try done.
Qed.
End steps.

(** ** Loops

    A loop of the scanner whose turns consume characters ends: the octets to
    come are fewer than its fuel. *)
Lemma remaining_fuel p : (remaining p < scan_fuel p)%nat.
Proof.
  unfold remaining, octets_left, scan_fuel. destruct (ended p); lia.
Qed.

Lemma step_scan_loop {L R} p0 s n p (body : L -> yaml_prog (L + R)) l
    (I : L -> yaml_parser_t -> Prop) (Q : R -> yaml_parser_t -> Prop) :
  reach p0 s n p -> I l p ->
  (forall l' q s', reach p0 s' n q -> (s = true -> s' = true) -> I l' q ->
     wp strict (body l') (fun r q' =>
       match r with
       | inl l2 => reach q true n q' /\ I l2 q'
       | inr x => Q x q'
       end) failed q) ->
  wp strict (scan_loop body l) Q failed p.
Proof.
  intros Hp Hl Hb. unfold scan_loop. wp_steps.
  apply (wp_loop strict (fun l' q => I l' q /\ exists s', reach p0 s' n q /\ (s = true -> s' = true))
           (fun _ q => remaining q)).
  - intros l' q [Hi (s' & Hq & Hs)]. eapply wp_mono; [by eapply Hb| |done].
    intros [l2|x] q' H; [|done]. destruct H as [Hr Hi']. split; [split; [done|]|].
    + exists (s' || true). split; [by eapply reach_trans|by rewrite orb_true_r].
    + right. destruct Hr as [_ [Hr _]]. cbn in Hr. lia.
  - split; [done|]. by exists s.
  - right. apply remaining_fuel.
Qed.

Lemma reach_mono p0 s s' n p : reach p0 s' n p -> (s = true -> s' = true) -> reach p0 s n p.
Proof.
  intros H Hs. destruct s; [by rewrite <- (Hs eq_refl)|by eapply reach_any].
Qed.

(** [while (cond) SKIP], the character of [cond] at hand. *)
Lemma step_skip_while p0 s p cond b0 (Q : unit -> yaml_parser_t -> Prop) :
  reach p0 s 1 p ->
  (forall q, cursor 1 q -> exists b, eval cond q b /\ (b = true -> char_at 0 q <> 0)) ->
  eval cond p b0 ->
  (forall q, reach p0 (s || b0) 1 q -> eval cond q false -> Q tt q) ->
  wp strict (skip_while cond) Q failed p.
Proof.
  intros Hp Hc H0 HQ. unfold skip_while, scan_while. wp_steps.
  eapply wp_mono; [eapply (wp_while strict
    (fun q => exists s', reach p0 s' 1 q /\ (s = true -> s' = true) /\ (q = p \/ s' = true))
    remaining _ _ (fun q => reach p0 (s || b0) 1 q /\ eval cond q false)) | |done].
  - intros q (s' & Hq & Hs & Hor). destruct (Hc q) as (b & Hb & Hz); [apply Hq|].
    eapply wp_eval; [done|]. destruct b.
    + wp_step. eapply step_SKIP; [apply (reach_start 1), Hq|by apply Hz|].
      intros q1 H1 _. eapply step_CACHE; [done|done|done|]. intros q2 H2 _. split.
      * exists true. split; [|by auto]. rewrite <- (orb_true_r s'). by eapply reach_trans.
      * right. destruct H2 as [_ [H2 _]]. cbn in H2. lia.
    + split; [|done]. eapply reach_mono; [done|]. intros Hsb. destruct s; [by apply Hs|].
      cbn in Hsb. subst b0. destruct Hor as [->|]; [|done]. unfold eval in *. congruence.
  - exists s. split; [done|]. split; [done|by left].
  - right. apply remaining_fuel.
  - intros [] q [H1 H2]. by apply HQ.
Qed.

(** [while (cond) READ]: either it does not turn, or it consumes. *)
Lemma step_read_while p0 s p cond x (Q : list Z -> yaml_parser_t -> Prop) :
  reach p0 s 1 p ->
  (forall q, cursor 1 q -> exists b, eval cond q b /\ (b = true -> char_at 0 q <> 0)) ->
  (forall q x', reach p0 s 1 q -> eval cond q false -> q = p \/ reach p0 true 1 q -> Q x' q) ->
  wp strict (read_while cond x) Q failed p.
Proof.
  intros Hp Hc HQ. unfold read_while.
  eapply (step_scan_loop p0 s 1 p _ _ (fun _ q => q = p \/ reach p0 true 1 q)); [done|by left|].
  intros y q s' Hq Hs Hor. destruct (Hc q) as (b & Hb & Hz); [apply Hq|].
  eapply wp_ifm; [done|intros ->|intros ->].
  - wp_step. eapply step_READ; [apply (reach_start 1), Hq|by apply Hz|].
    intros q1 x1 H1. wp_step. eapply step_CACHE; [done|done|done|]. intros q2 H2 _. wp_steps.
    split; [done|]. right. rewrite <- (orb_true_r s'). by eapply reach_trans.
  - wp_steps. apply HQ; [|done|done]. by eapply reach_mono.
Qed.

(** The position and the buffer belong to the reader. *)
Lemma cursor_reader n p q : cursor n p -> q.(reader) = p.(reader) -> cursor n q.
Proof.
  intros [[O1 O2 O3 O4 O5] H2 H3 H4] E.
  unfold buffer_length, raw_length, buffer_chars, ended in *. constructor; [constructor| | |];
    unfold buffer_length, raw_length, buffer_chars, ended; by rewrite E.
Qed.

Lemma reach_reader p0 s n p q : reach p0 s n p -> q.(reader) = p.(reader) -> reach p0 s n q.
Proof.
  intros [H1 [H2 H3]] E. split; [by eapply cursor_reader|].
  constructor; [|by rewrite E]. unfold remaining, octets_left, ended in *. by rewrite E.
Qed.

(** ** Symbolic execution

    [nonzero]: the character at the cursor passed a test that the NUL fails. *)
Lemma blankz_nonzero c : c_blankz c = false -> c <> 0.
Proof. unfold c_blankz, c_breakz. lia. Qed.
Lemma breakz_nonzero c : c_breakz c = false -> c <> 0.
Proof. unfold c_breakz. lia. Qed.

Ltac nonzero := split_tests;
  first [ assumption
        | apply Z.eqb_neq; assumption
        | apply break_nonzero; assumption
        | apply breakz_nonzero; assumption
        | apply blankz_nonzero; assumption
        | apply single_nonzero; single
        | match goal with H : (_ =? _) = true |- _ => apply Z.eqb_eq in H; rewrite H; discriminate end
        | match goal with H : (_ || _) = true |- _ => apply orb_true_iff in H as [H|H]; nonzero end ].

(** [follow]: a character that was looked at before the cursor moved. *)
Ltac follow := repeat match goal with
  | K : forall k, char_at k ?q = char_at (S k) _ |- context [char_at _ ?q] => rewrite K
  end.

(** A request for characters keeps what is known of the one at the cursor. *)
Ltac keep_head H :=
  let E := fresh in
  first [ assert (E := H ltac:(lia)); rewrite <- E in *; clear E H | clear H ].

(** The line break macros, with and without a break at the cursor. *)
Lemma step_skip_break p0 s p (Q : unit -> yaml_parser_t -> Prop) :
  reach p0 s 2 p -> c_break (char_at 0 p) = true ->
  (forall p', reach p0 true 0 p' -> Q tt p') -> wp strict SKIP_LINE Q failed p.
Proof. intros H Hb HQ. eapply step_SKIP_LINE; [done|]. rewrite Hb, orb_true_r. done. Qed.
Lemma step_skip_line p0 s p (Q : unit -> yaml_parser_t -> Prop) :
  reach p0 s 2 p -> (forall p', reach p0 s 0 p' -> Q tt p') -> wp strict SKIP_LINE Q failed p.
Proof.
  intros H HQ. eapply step_SKIP_LINE; [done|]. intros p' H'. apply HQ.
  eapply reach_mono; [done|]. by intros ->.
Qed.
Lemma step_read_break p0 s p x (Q : list Z -> yaml_parser_t -> Prop) :
  reach p0 s 2 p -> c_break (char_at 0 p) = true ->
  (forall p' x', reach p0 true 0 p' -> Q x' p') -> wp strict (READ_LINE x) Q failed p.
Proof. intros H Hb HQ. eapply step_READ_LINE; [done|]. rewrite Hb, orb_true_r. done. Qed.
Lemma step_read_line p0 s p x (Q : list Z -> yaml_parser_t -> Prop) :
  reach p0 s 2 p -> (forall p' x', reach p0 s 0 p' -> Q x' p') -> wp strict (READ_LINE x) Q failed p.
Proof.
  intros H HQ. eapply step_READ_LINE; [done|]. intros p' x' H'. apply HQ.
  eapply reach_mono; [done|]. by intros ->.
Qed.

(** The loops, without their progress. *)
Lemma step_skip p0 s p cond b0 (Q : unit -> yaml_parser_t -> Prop) :
  reach p0 s 1 p ->
  (forall q, cursor 1 q -> exists b, eval cond q b /\ (b = true -> char_at 0 q <> 0)) ->
  eval cond p b0 -> (forall q, reach p0 s 1 q -> Q tt q) -> wp strict (skip_while cond) Q failed p.
Proof.
  intros Hp Hc H0 HQ. eapply step_skip_while; [done..|]. intros q Hq _. apply HQ.
  eapply reach_mono; [done|]. by intros ->.
Qed.
Lemma step_read p0 s p cond x (Q : list Z -> yaml_parser_t -> Prop) :
  reach p0 s 1 p ->
  (forall q, cursor 1 q -> exists b, eval cond q b /\ (b = true -> char_at 0 q <> 0)) ->
  (forall q x', reach p0 s 1 q -> Q x' q) -> wp strict (read_while cond x) Q failed p.
Proof. intros Hp Hc HQ. eapply step_read_while; [done..|]. auto. Qed.

(** [scan]: one step of a routine of the scanner. *)
Ltac scan_one :=
  lazymatch goal with
  | |- wp _ (_ ≫= _) _ _ _ => apply wp_bind
  | |- wp _ (mret _) _ _ _ => apply wp_ret
  | |- wp _ (gets _) _ _ _ => apply wp_gets
  | |- wp _ get_mark _ _ _ => apply wp_gets
  | |- wp _ in_block _ _ _ => apply wp_gets
  | |- wp _ (CACHE _) _ _ _ =>
      let q := fresh "q" in let H := fresh "R" in let K := fresh in
      eapply step_CACHE; [eassumption|vm_compute; reflexivity|split; discriminate|intros q H K; keep_head K]
  | |- wp _ SKIP _ _ _ =>
      let q := fresh "q" in let H := fresh "R" in let K := fresh "K" in
      eapply step_SKIP;
        [eassumption|follow; nonzero
        |intros q H K; first [specialize (K ltac:(follow; single))|clear K]]
  | |- wp _ (READ _) _ _ _ =>
      let q := fresh "q" in let H := fresh "R" in let x := fresh "x" in
      eapply step_READ; [eassumption|nonzero|intros q x H]
  | |- wp _ SKIP_LINE _ _ _ =>
      let q := fresh "q" in let H := fresh "R" in
      first [ eapply step_skip_break; [eassumption|split_tests; eassumption|intros q H]
            | eapply step_skip_line; [eassumption|intros q H] ]
  | |- wp _ (READ_LINE _) _ _ _ =>
      let q := fresh "q" in let H := fresh "R" in let x := fresh "x" in
      first [ eapply step_read_break; [eassumption|split_tests; eassumption|intros q x H]
            | eapply step_read_line; [eassumption|intros q x H] ]
  | |- wp _ (skip_while _) _ _ _ =>
      let q := fresh "q" in let H := fresh "R" in
      eapply step_skip;
        [eassumption|intros ? ?; eexists; split; [ev|intros ?; nonzero]|ev|intros q H]
  | |- wp _ (read_while _ _) _ _ _ =>
      let q := fresh "q" in let H := fresh "R" in let x := fresh "x" in
      eapply step_read;
        [eassumption|intros ? ?; eexists; split; [ev|intros ?; nonzero]|intros q x H]
  | |- wp _ (modify ?f) _ _ ?p =>
      let R := fresh "R" in
      apply wp_modify;
      match goal with H : reach ?a ?b ?c p |- _ =>
        assert (reach a b c (f p)) as R by (eapply reach_reader; [exact H|reflexivity]) end
  | |- wp _ AS_DIGIT _ _ _ => eapply wp_eval; [ev|]
  | |- wp _ (AS_HEX_AT _) _ _ _ => eapply wp_eval; [ev|]
  | |- wp _ (ifM _ _ _) _ _ _ =>
      let B := fresh "B" in eapply wp_ifm; [ev|intros B|intros B]
  | |- wp _ (yaml_parser_set_scanner_error _ _ _) _ _ _ => apply wp_scanner_error
  | |- wp _ memory_error _ _ _ => apply wp_memory_error
  | |- wp _ (if ?c then _ else _) _ _ _ => let B := fresh "B" in destruct c eqn:B
  | |- wp _ (let _ := _ in _) _ _ _ => cbv zeta
  | |- wp _ (match ?c with _ => _ end) _ _ _ => destruct c
  end; cbv beta.
Ltac scan := repeat scan_one.
