(* ===== verification/YamlText.v ===== *)
(** * libyaml: the text that the reader has still to deliver

    [spells cs p]: the characters in front of the cursor are [cs], up to the
    end of the input.  Some of them are in the working buffer, the others are
    octets in the raw buffer and in the input, in any of the three encodings
    and cut anywhere, even within a character.  [CACHE] keeps this whatever it
    has to read and decode and never fails; the tests of [yaml_private.h] see the
    characters of [cs], and the macros that move take them off.  So routines of
    the scanner can be specified on lists of characters. *)

From Stdlib Require Import ZArith Lia ZifyNat ZifyBool Ascii String.
From stdpp Require Import base list option strings.
From S2P Require Import Prelude YamlData YamlReader YamlChars YamlScanner YamlParser.
From S2P Require Import YamlEvents YamlFrame YamlUtf8 YamlBuffer YamlCursor.

#[local] Open Scope Z_scope.
#[local] Open Scope yaml_scope.

Definition text_char (c : Z) : Prop := allowed_char c = true.

Lemma text_char_scalar c : text_char c -> scalar_value c.
Proof. apply allowed_scalar. Qed.

Lemma text_char_nonzero c : text_char c -> c <> 0.
Proof. unfold text_char. by intros H ->. Qed.

(** The characters that are not yet in the working buffer. *)
Record undecoded (es : list Z) (p : yaml_parser_t) : Prop := mkUndecoded {
  un_octets : p.(reader).(raw_buffer) ++ p.(reader).(input) = raw_text p.(reader).(encoding) es;
  un_eof : p.(reader).(eof) = true -> p.(reader).(input) = [];
  un_encoding : p.(reader).(encoding) <> YAML_ANY_ENCODING;
  un_offset : p.(reader).(offset) + raw_length p + input_length p < MAX_FILE_SIZE;
  un_size : raw_length p <= INPUT_RAW_BUFFER_SIZE
}.

(** Before the first octet is read: a text with its byte order mark, or a
    text in UTF-8 without one. *)
Definition unopened (es : list Z) (p : yaml_parser_t) : Prop :=
  p.(reader).(encoding) = YAML_ANY_ENCODING
  /\ p.(reader).(offset) + input_length p < MAX_FILE_SIZE
  /\ exists enc bom, enc <> YAML_ANY_ENCODING /\ p.(reader).(input) = bom ++ raw_text enc es
     /\ (bom = raw_encode enc 0xFEFF
         \/ bom = [] /\ enc = YAML_UTF8_ENCODING /\ head es <> Some 0xFEFF).

(** [cs] is the text in the working buffer and behind it. *)
Definition flows (cs : list Z) (p : yaml_parser_t) : Prop :=
  exists ds es, buffer_chars p ds /\ cs = ds ++ es /\ undecoded es p.

Record spells (cs : list Z) (p : yaml_parser_t) : Prop := mkSpells {
  sp_cursor : cursor 0 p;
  sp_chars : Forall text_char cs;
  sp_text : if ended p then buffer_chars p (cs ++ [0])
            else flows cs p \/ exists ds es, buffer_chars p ds /\ cs = ds ++ es /\ unopened es p
}.

(** ** Characters that are cut *)

Lemma raw_text_cons enc c cs : raw_text enc (c :: cs) = raw_encode enc c ++ raw_text enc cs.
Proof. done. Qed.

(** The raw buffer ends within a character: more octets are needed. *)
Lemma decode_utf8_partial p v tl :
  scalar_value v -> p.(reader).(eof) = false -> p.(reader).(raw_buffer) <> [] ->
  utf8_encode v = p.(reader).(raw_buffer) ++ tl -> tl <> [] -> decode_utf8 p = Ret None p.
Proof.
  intros Hv He Hr Hx Htl. unfold decode_utf8, gets, mbind, prog_bind. rewrite He.
  destruct (raw_buffer (reader p)) as [|b l] eqn:Er; [done|].
  destruct (encode_first v) as [bs Hb]. pose proof (first_octet_width v Hv) as Hw.
  rewrite Hx in Hb. injection Hb as Hb _. rewrite <- Hb in Hw. rewrite Hw, Hx, length_app.
  destruct tl as [|t tl]; [done|]. cbn [length].
  assert ((Z.of_nat (S (length l) + S (length tl)) =? 0) = false) as ->. by apply Z.eqb_neq; lia.
  by assert ((Z.of_nat (S (length l) + S (length tl)) >? Z.of_nat (S (length l))) = true) as -> by lia.
Qed.

Lemma decode_utf16_partial little p v tl :
  scalar_value v -> p.(reader).(eof) = false -> p.(reader).(raw_buffer) <> [] ->
  utf16_encode little v = p.(reader).(raw_buffer) ++ tl -> tl <> [] ->
  decode_utf16 little p = Ret None p.
Proof.
  intros [Hv _] He Hr Hx Htl. unfold decode_utf16, gets, mbind, prog_bind. rewrite He.
  destruct (_ <? 2) eqn:E2; [done|]. apply Z.ltb_ge in E2.
  assert (length (raw_buffer (reader p)) < length (utf16_encode little v))%nat as Hl.
  { rewrite Hx, length_app. destruct tl; [done|]. cbn. lia. }
  unfold utf16_encode in Hx, Hl. destruct (v <? 0x10000) eqn:Ev.
  { unfold utf16_unit in Hl. destruct little; cbn in Hl; lia. }
  set (u := 0xD800 + (v - 0x10000) / 1024) in *.
  assert (0xD800 <= u < 0xDC00) as Hu.
  { subst u. assert (0 <= (v - 0x10000) / 1024 < 1024); [|lia].
    split; [apply Z.div_pos; lia|apply Z.div_lt_upper_bound; lia]. }
  assert (exists rest, drop 0 (raw_buffer (reader p)) = utf16_unit little u ++ rest) as [rest Hd].
  { exists (drop 2 (raw_buffer (reader p))). rewrite drop_0.
    rewrite <- (take_drop 2 (raw_buffer (reader p))) at 1. f_equal.
    apply (f_equal (take 2)) in Hx. rewrite (take_app_le _ tl) in Hx by lia. rewrite <- Hx.
    by destruct little. }
  pose proof (utf16_unit_value little u _ 0 rest ltac:(lia) Hd) as Hval.
  rewrite !Nat.add_0_r in Hval. cbv zeta. rewrite Hval, land_fc00 by lia.
  assert (u / 1024 = 54) as -> by (symmetry; apply (Z.div_unique u 1024 54 (u - 54 * 1024)); lia).
  cbn - [length]. assert ((Z.of_nat (length (raw_buffer (reader p))) <? 4) = true) as ->; [|done].
  unfold utf16_unit in Hl. destruct little; cbn in Hl; lia.
Qed.

Lemma decode_char_partial p v tl :
  p.(reader).(encoding) <> YAML_ANY_ENCODING ->
  scalar_value v -> p.(reader).(eof) = false -> p.(reader).(raw_buffer) <> [] ->
  raw_encode p.(reader).(encoding) v = p.(reader).(raw_buffer) ++ tl -> tl <> [] ->
  decode_char p = Ret None p.
Proof.
  intros He Hv H1 H2 H3 H4. unfold decode_char, gets, mbind, prog_bind.
  destruct (encoding (reader p)); [done|..]; cbn in H3;
    by first [eapply decode_utf8_partial | eapply decode_utf16_partial].
Qed.

(** ** Decoding *)

Definition never (_ : yaml_parser_t) : Prop := False.

Lemma prefix_cases (a b c d : list Z) :
  a ++ b = c ++ d ->
  (exists r, a = c ++ r /\ r ++ b = d) \/ (exists r, r <> [] /\ c = a ++ r /\ b = r ++ d).
Proof.
  intros H. destruct (Nat.le_gt_cases (length c) (length a)) as [Hl|Hl].
  - left. exists (drop (length c) a).
    assert (take (length c) a = c) as Ht.
    { apply (f_equal (take (length c))) in H. rewrite take_app_le, take_app_length in H by lia. done. }
    split; [by rewrite <- Ht at 1; rewrite take_drop|].
    apply (f_equal (drop (length c))) in H. by rewrite drop_app_le, drop_app_length in H by lia.
  - right. exists (drop (length a) c).
    assert (take (length a) c = a) as Ht.
    { apply (f_equal (take (length a))) in H. by rewrite take_app_length, take_app_le in H by lia. }
    split; [|split].
    + intros E. apply (f_equal length) in E. rewrite length_drop in E. cbn in E. lia.
    + by rewrite <- Ht at 1; rewrite take_drop.
    + apply (f_equal (drop (length a))) in H. by rewrite drop_app_length, drop_app_le in H by lia.
Qed.

Lemma flows_transcoded cs p ds e es rest :
  buffer_chars p ds -> cs = ds ++ e :: es -> undecoded (e :: es) p ->
  p.(reader).(raw_buffer) = raw_encode p.(reader).(encoding) e ++ rest ->
  rest ++ p.(reader).(input) = raw_text p.(reader).(encoding) es ->
  flows cs (transcoded p.(reader).(encoding) [e] rest p).
Proof.
  intros [Hb Hu] Hcs [U1 U2 U3 U4 U5] Hr Hrest. exists (ds ++ [e]), es. split_and!.
  - split; cbn; [by rewrite Hb, utf8_text_app, utf8_text_one, app_nil_r|].
    rewrite length_app. cbn. lia.
  - by rewrite Hcs, <- app_assoc.
  - unfold raw_length, input_length in *. rewrite Hr, length_app in U4, U5.
    constructor; try done; unfold raw_length, input_length; cbn; [|lia].
    unfold raw_text. cbn. rewrite app_nil_r. lia.
Qed.

Lemma flows_decode_step cs p :
  Forall text_char cs -> flows cs p -> p.(reader).(raw_buffer) <> [] ->
  wp lax decode_step (fun go p' => flows cs p' /\
    ((go : bool) = false -> p'.(reader).(eof) = false)) never p.
Proof.
  intros Hok (ds & es & Hb & Hcs & Hun) Hne. pose proof Hun as [U1 U2 U3 U4 U5].
  destruct es as [|e es].
  { unfold raw_text in U1. cbn in U1. by apply app_eq_nil in U1 as [? _]. }
  assert (text_char e) as He by (rewrite Hcs in Hok; by apply Forall_app in Hok as [_ [? _]%Forall_cons]).
  rewrite raw_text_cons in U1. destruct (prefix_cases _ _ _ _ U1) as [(r & H1 & H2)|(r & Hr & H1 & H2)].
  - eapply wp_known; [by eapply decode_step_encode|]. split; [by eapply flows_transcoded|done].
  - assert (eof (reader p) = false) as Heof.
    { destruct (eof (reader p)); [|done]. rewrite (U2 eq_refl) in H2.
      destruct r; [done|discriminate]. }
    unfold decode_step. wp_step. eapply wp_known; [eapply decode_char_partial; try done|].
    + by apply text_char_scalar.
    + wp_steps. split; [|done]. exists ds, (e :: es). split_and!; try done.
Qed.

Lemma flows_decode_raw cs p :
  Forall text_char cs -> flows cs p ->
  wp lax decode_raw (fun _ p' => flows cs p' /\
    (p'.(reader).(raw_buffer) = [] \/ p'.(reader).(eof) = false)) never p.
Proof.
  intros Hok Hf. unfold decode_raw. wp_step. wp_step. cbv beta.
  apply (wp_loop lax (fun _ q => flows cs q) (fun _ _ => 0%nat)); [|done|by left].
  intros [] q Hq. wp_step. wp_step. cbv beta. destruct (raw_buffer (reader q)) as [|b l] eqn:Er.
  { wp_steps. split; [done|by left]. }
  wp_step. eapply wp_mono; [apply flows_decode_step; [done|done|by rewrite Er]| |done].
  intros [] r [H1 H2]; wp_steps; [split; [done|by left]|]. split; [done|right; by apply H2].
Qed.

(** ** Reading the input *)

(** Octets went from the input to the raw buffer, and nothing else changed. *)
Record drawn (p p' : yaml_parser_t) : Prop := mkDrawn {
  dr_octets : p'.(reader).(raw_buffer) ++ p'.(reader).(input)
              = p.(reader).(raw_buffer) ++ p.(reader).(input);
  dr_eof : p'.(reader).(eof) = true -> p'.(reader).(input) = [];
  dr_size : raw_length p' <= INPUT_RAW_BUFFER_SIZE;
  dr_buffer : p'.(reader).(buffer) = p.(reader).(buffer);
  dr_unread : p'.(reader).(unread) = p.(reader).(unread);
  dr_encoding : p'.(reader).(encoding) = p.(reader).(encoding);
  dr_offset : p'.(reader).(offset) = p.(reader).(offset)
}.

Lemma drawn_trans p q r : drawn p q -> drawn q r -> drawn p r.
Proof. intros [] []. constructor; try done; congruence. Qed.

Lemma drawn_update p :
  (p.(reader).(eof) = true -> p.(reader).(input) = []) -> raw_length p <= INPUT_RAW_BUFFER_SIZE ->
  wp lax yaml_parser_update_raw_buffer (fun _ p' => drawn p p') never p.
Proof.
  intros He Hs. unfold yaml_parser_update_raw_buffer, raw_length in *. wp_steps.
  destruct (_ =? INPUT_RAW_BUFFER_SIZE) eqn:Ef; wp_steps; [by constructor|].
  apply Z.eqb_neq in Ef. destruct (eof (reader p)) eqn:Ee; wp_steps.
  { constructor; try done. auto. }
  unfold yaml_string_read_handler. wp_steps.
  destruct (input (reader p)) as [|b l] eqn:Ei; wp_steps.
  { constructor; unfold raw_length; cbn; rewrite ?app_nil_r, ?Ei, ?app_nil_r; done. }
  set (n := if _ >? _ then _ else _).
  assert (1 <= n <= INPUT_RAW_BUFFER_SIZE - Z.of_nat (length (raw_buffer (reader p)))
          /\ n <= Z.of_nat (length (b :: l))) as [Hn Hn'].
  { subst n. cbn [length]. destruct (_ >? _) eqn:E; lia. }
  assert (length (take (Z.to_nat n) (b :: l)) = Z.to_nat n) as Ht by (rewrite length_take; lia).
  destruct (take (Z.to_nat n) (b :: l)) as [|b' l'] eqn:Et; [cbn in Ht; lia|]. wp_steps.
  constructor; unfold raw_length; cbn [reader set_raw_buffer set_input set_reader buffer unread
    input raw_buffer encoding offset eof]; try done.
  - rewrite <- app_assoc, <- Et, take_drop. by rewrite Ei.
  - congruence.
  - rewrite length_app, Ht. lia.
Qed.

Lemma undecoded_drawn es p q : undecoded es p -> drawn p q -> undecoded es q.
Proof.
  intros [U1 U2 U3 U4 U5] [D1 D2 D3 D4 D5 D6 D7]. pose proof (f_equal length D1) as Hl.
  rewrite !length_app in Hl. constructor; try congruence; try done.
  unfold raw_length, input_length in *. lia.
Qed.

Lemma flows_drawn cs p q : flows cs p -> drawn p q -> flows cs q.
Proof.
  intros (ds & es & [B1 B2] & Hcs & Hu) Hd. exists ds, es.
  split; [destruct Hd; split; congruence|]. split; [done|]. by eapply undecoded_drawn.
Qed.

(** The byte order mark is recognised and taken off. *)
Lemma encode_bom enc : enc <> YAML_ANY_ENCODING ->
  raw_encode enc 0xFEFF = match enc with
    | YAML_UTF16LE_ENCODING => BOM_UTF16LE | YAML_UTF16BE_ENCODING => BOM_UTF16BE
    | _ => BOM_UTF8 end.
Proof. by destruct enc. Qed.

Lemma starts_with_app bom l : starts_with bom (bom ++ l) = true.
Proof. unfold starts_with. rewrite take_app_length. by apply bool_decide_eq_true. Qed.

(** A text in UTF-8 does not begin with the marks of UTF-16, and with that of
    UTF-8 only if its first character is the mark. *)
Lemma utf8_no_bom es rest raw :
  Forall text_char es -> head es <> Some 0xFEFF -> raw ++ rest = raw_text YAML_UTF8_ENCODING es ->
  starts_with BOM_UTF16LE raw = false /\ starts_with BOM_UTF16BE raw = false
  /\ starts_with BOM_UTF8 raw = false.
Proof.
  intros Hok Hh Hr.
  assert (forall b bom tl, raw ++ rest = (b :: bom) ++ tl ->
            exists e es', es = e :: es' /\ (b :: bom) ++ tl = utf8_encode e ++ utf8_text es') as Hx.
  { intros b bom tl Hr'. rewrite Hr' in Hr. destruct es as [|e es']; [done|]. eauto. }
  assert (forall bom, starts_with bom raw = true -> exists tl, raw ++ rest = bom ++ tl) as Hs.
  { intros bom Hb. apply bool_decide_eq_true in Hb. exists (drop (length bom) raw ++ rest).
    by rewrite <- Hb at 1; rewrite app_assoc, take_drop. }
  assert (forall e, text_char e -> first_octet e < 254) as Hf.
  { intros e [[He1 He2] _]%text_char_scalar. unfold first_octet.
    destruct (e <=? 127) eqn:?, (e <=? 2047) eqn:?, (e <=? 65535) eqn:?; lia. }
  split_and!; apply not_true_iff_false; intros Hb; destruct (Hs _ Hb) as [tl Htl];
    destruct (Hx _ _ tl Htl) as (e & es' & -> & He);
    apply Forall_cons in Hok as [Hok _]; destruct (encode_first e) as [bs Hbs].
  - rewrite Hbs in He. injection He as He _. specialize (Hf e Hok). lia.
  - rewrite Hbs in He. injection He as He _. specialize (Hf e Hok). lia.
  - apply Hh. cbn. f_equal. rewrite <- (decode_head_encode e (utf8_text es')) by by apply text_char_scalar.
    rewrite <- He. change [239; 187; 191] with (utf8_encode 0xFEFF). apply decode_head_encode.
    unfold scalar_value. lia.
Qed.

Lemma starts_with_not bom l : take (length bom) l <> bom -> starts_with bom l = false.
Proof. apply bool_decide_eq_false_2. Qed.

Lemma skip_bom p q enc bom rest es ds :
  drawn p q -> p.(reader).(raw_buffer) = [] ->
  p.(reader).(offset) + input_length p < MAX_FILE_SIZE ->
  enc <> YAML_ANY_ENCODING -> p.(reader).(input) = bom ++ raw_text enc es ->
  q.(reader).(raw_buffer) = bom ++ rest -> buffer_chars q ds ->
  wp lax (modify (set_encoding enc);; skip_raw (Z.of_nat (length bom)))
    (fun _ r => buffer_chars r ds /\ undecoded es r) never q.
Proof.
  intros [D1 D2 D3 D4 D5 D6 D7] Hraw Hoff He Hin Hq [B1 B2]. unfold skip_raw. wp_steps.
  pose proof (f_equal length D1) as Hl. rewrite Hraw, Hin, Hq, app_nil_l, <- app_assoc in D1.
  apply app_inv_head in D1. split; [done|].
  unfold raw_length, input_length in *. rewrite !length_app, Hraw, Hin, Hq, !length_app in Hl.
  rewrite Hin, !length_app in Hoff. rewrite Hq, length_app in D3. cbn [length Nat.add] in Hl.
  constructor; unfold raw_length, input_length; cbn; rewrite ?Hq, ?Nat2Z.id, ?drop_app_length;
    try done; lia.
Qed.

Lemma flows_determine_encoding es ds p :
  Forall text_char es -> unopened es p -> buffer_chars p ds ->
  p.(reader).(raw_buffer) = [] -> p.(reader).(eof) = false ->
  wp lax yaml_parser_determine_encoding (fun _ q => buffer_chars q ds /\ undecoded es q) never p.
Proof.
  intros Hok (Hany & Hoff & enc & bom & He & Hin & Hbom) [B1 B2] Hraw Heof.
  unfold yaml_parser_determine_encoding. wp_step.
  eapply wp_mono; [eapply (wp_while lax (fun q => drawn p q) (fun _ => 0%nat) _ _
    (fun q => drawn p q /\ (q.(reader).(input) = [] \/ 3 <= raw_length q)))| |done].
  - intros q Hq. wp_steps. destruct (negb _ && _) eqn:Ec.
    + eapply wp_mono; [apply drawn_update; [apply Hq|apply Hq]| |done].
      intros [] r Hr. split; [by eapply drawn_trans|by left].
    + split; [done|]. apply andb_false_iff in Ec as [Ec|Ec]; [|right; unfold raw_length; lia].
      left. apply Hq. by apply negb_false_iff.
  - constructor; try done; [by rewrite Heof|]. unfold raw_length. by rewrite Hraw.
  - by left.
  - intros [] q [Hq Hfull]. wp_step. wp_step. cbv beta. pose proof Hq as [D1 D2 D3 D4 D5 D6 D7].
    assert (buffer_chars q ds) as HB by (split; congruence).
    assert (forall b, bom = b -> (length b <= 3)%nat -> exists rest, q.(reader).(raw_buffer) = b ++ rest) as Hpre.
    { intros b -> Hb3. rewrite Hraw, Hin, app_nil_l in D1.
      destruct (prefix_cases _ _ _ _ D1) as [(r & H1 & _)|(r & H1 & H2 & H3)]; [eauto|].
      destruct Hfull as [Hf|Hf]; [rewrite Hf in H3; by destruct r|].
      unfold raw_length in Hf. rewrite H2, length_app in Hb3.
      destruct r; [done|]. cbn in Hb3. lia. }
    destruct Hbom as [Hbom|(-> & -> & Hh)].
    + rewrite (encode_bom enc He) in Hbom.
      assert (length bom <= 3)%nat as Hb3 by (subst bom; destruct enc; cbn; lia).
      destruct (Hpre bom eq_refl Hb3) as [rest Hrest]. rewrite Hrest.
      destruct enc; [done|..]; subst bom.
      * rewrite (starts_with_not BOM_UTF16LE), (starts_with_not BOM_UTF16BE), starts_with_app by done.
        by apply (skip_bom p q _ BOM_UTF8 rest).
      * rewrite starts_with_app. by apply (skip_bom p q _ BOM_UTF16LE rest).
      * rewrite (starts_with_not BOM_UTF16LE), starts_with_app by done.
        by apply (skip_bom p q _ BOM_UTF16BE rest).
    + rewrite Hraw, Hin, !app_nil_l in D1.
      destruct (utf8_no_bom es _ _ Hok Hh D1) as (-> & -> & ->). wp_steps. split; [done|].
      pose proof (f_equal length D1) as Hl. unfold raw_length, input_length in *.
      rewrite Hin, app_nil_l in Hoff. rewrite length_app in Hl.
      constructor; unfold raw_length, input_length; cbn; try done. lia.
Qed.

(** ** [CACHE] *)

Lemma never_fails {A} (m : yaml_prog A) (Q Q' : A -> yaml_parser_t -> Prop) E p :
  wp strict m Q E p -> wp lax m Q' never p -> wp strict m (fun a p' => Q a p' /\ Q' a p') never p.
Proof. unfold wp. destruct (m p); done. Qed.

(** What [yaml_parser_update_buffer] leaves: the text, with a NUL behind it
    once the input has ended. *)
Definition delivered (cs : list Z) (p : yaml_parser_t) : Prop :=
  p.(reader).(offset) < MAX_FILE_SIZE
  /\ if ended p then buffer_chars p (cs ++ [0]) else flows cs p.

Lemma flows_offset cs p : flows cs p -> p.(reader).(offset) < MAX_FILE_SIZE.
Proof. intros (ds & es & _ & _ & [_ _ _ U _]). unfold raw_length, input_length in U. lia. Qed.

Lemma flows_at_end cs p : flows cs p -> ended p = true -> buffer_chars p cs.
Proof.
  intros (ds & es & Hb & Hcs & [U1 U2 U3 U4 U5]) He. unfold ended in He.
  apply andb_true_iff in He as [He Hr%bool_decide_eq_true]. rewrite (U2 He), Hr in U1.
  destruct es as [|e es]; [by rewrite Hcs, app_nil_r|].
  rewrite raw_text_cons in U1. destruct (raw_encode_cons (encoding (reader p)) e) as (b & bs & Hb').
  by rewrite Hb' in U1.
Qed.

Lemma flows_fill_step cs len first p :
  Forall text_char cs -> flows cs p -> (ended p = true -> p.(reader).(unread) < len) ->
  wp lax (fill_step len first) (fun r q =>
    match r with
    | inl _ => flows cs q /\ ended q = false
    | inr _ => delivered cs q
    end) never p.
Proof.
  intros Hok Hf Hopen. unfold fill_step. wp_steps. destruct (_ <? len) eqn:El; wp_steps.
  2:{ split; [by eapply flows_offset|]. destruct (ended p); [|done]. specialize (Hopen eq_refl). lia. }
  eapply (wp_mono lax _ (fun _ q => flows cs q)).
  { destruct (negb first || _); [|by wp_steps]. pose proof Hf as (ds & es & _ & _ & []).
    eapply wp_mono; [by apply drawn_update| |done]. intros [] q Hq. by eapply flows_drawn. }
  2:{ done. }
  intros [] q Hq. wp_step. eapply wp_mono; [by apply flows_decode_raw| |done].
  intros [] r [Hr Hend]. wp_steps. destruct (eof (reader r)) eqn:Er; wp_steps.
  - destruct Hend as [Hend|?]; [|done].
    assert (ended r = true) as He by (unfold ended; rewrite Er, Hend; done).
    destruct (flows_at_end cs r Hr He) as [B1 B2]. unfold put_bytes. wp_steps.
    split; [by apply (flows_offset cs r)|].
    match goal with |- if ended ?s then _ else _ => assert (ended s = true) as -> by done end.
    split; cbn; [by rewrite B1, utf8_text_app|]. rewrite length_app. cbn. lia.
  - split; [done|]. unfold ended. by rewrite Er.
Qed.

Lemma flows_fill cs len p fuel :
  Forall text_char cs -> flows cs p -> (ended p = true -> p.(reader).(unread) < len) ->
  wp lax (loop fuel (fill_step len) true) (fun _ q => delivered cs q) never p.
Proof.
  intros Hok Hf Hopen.
  apply (wp_loop lax (fun _ q => flows cs q /\ (ended q = true -> q.(reader).(unread) < len))
           (fun _ _ => 0%nat)); [|done|by left].
  intros first q [Hq Ho]. eapply wp_mono; [by apply flows_fill_step| |done].
  intros [?|?] r Hr; [|done]. destruct Hr as [Hr He]. split; [|by left]. split; [done|]. by rewrite He.
Qed.

Lemma delivered_update cs len p :
  spells cs p -> wp lax (yaml_parser_update_buffer len) (fun _ q =>
    if ended p then q = p else delivered cs q \/ q = p /\ len <= p.(reader).(unread)) never p.
Proof.
  intros [[Hok _ _ _] Hcs Ht]. unfold yaml_parser_update_buffer. wp_steps. fold (ended p).
  destruct (ended p) eqn:Ee; wp_steps; [done|].
  destruct (_ >=? len) eqn:El; wp_steps; [right; split; [done|lia]|].
  assert (forall q, flows cs q -> unread (reader q) < len -> wp lax
    (inp ← gets (fun p => p.(reader).(input));
      full ← loop (S (S (S (length inp)))) (fill_step len) true;
      if (full : bool) then
        off ← gets (fun p => p.(reader).(offset));
        if off >=? MAX_FILE_SIZE then
          yaml_parser_set_reader_error "input is too long" off (-1)
        else mret tt
      else mret tt) (fun _ q => delivered cs q \/ q = p /\ len <= p.(reader).(unread)) never q) as Hrest.
  { intros q Hq Hu. wp_steps. eapply wp_mono; [by apply flows_fill| |done].
    intros full r Hr. destruct full; wp_steps; [|by left].
    assert ((offset (reader r) >=? MAX_FILE_SIZE) = false) as -> by (destruct Hr; lia).
    wp_steps. by left. }
  destruct Ht as [Hf|(ds & es & Hb & -> & Hun)].
  - pose proof Hf as (? & ? & _ & _ & [_ _ U _ _]).
    destruct (encoding (reader p)) eqn:Een; [done|..]; wp_step; apply Hrest; try done; lia.
  - pose proof Hun as (Hany & _). rewrite Hany. destruct (ok_fresh p Hok Hany) as [H1 H2].
    apply Forall_app in Hcs as [_ Hes].
    eapply wp_mono; [by apply (flows_determine_encoding es ds)| |done].
    intros [] q [[B1 B2] Hq]. apply Hrest; [by exists ds, es|]. destruct Hb as [_ B3]. lia.
Qed.

(** [CACHE] makes the characters available that it is asked for, unless the
    text is shorter, and keeps the text; it never fails. *)
Lemma wp_CACHE cs p k n :
  spells cs p -> Z.to_nat k = n -> 0 <= k <= MAX_REQUEST ->
  wp strict (CACHE k) (fun _ q => spells cs q /\ cursor n q /\ buffer_only p q) never p.
Proof.
  intros Hs Hn Hk. pose proof Hs as [[C1 C2 C3 C4] Hcs Ht]. unfold CACHE. wp_steps.
  destruct (_ >=? k) eqn:Ek; wp_steps.
  { split_and!; [done|constructor; try done; left; lia|by constructor]. }
  eapply wp_mono; [eapply never_fails;
    [eapply wp_strict_lax; [apply wp_update_buffer; [done|done|lia]|apply bo_update_buffer]
    |by apply delivered_update]| |done].
  intros [] q [[[F1 F2 F3 F4 F5] [Hro Hmk]] Hd].
  assert (cursor n q) as Hc.
  { constructor; try done; [|by rewrite Hmk]. destruct F3; [left; lia|by right]. }
  split_and!; [|done|by constructor]. constructor; [apply (cursor_weaken n); [done|lia]|done|].
  destruct (ended p) eqn:Ep; [subst q; by rewrite Ep|].
  destruct Hd as [[_ Hd]|[-> _]]; [|by rewrite Ep].
  destruct (ended q); [done|by left].
Qed.

(** ** Characters in front of the cursor *)

Lemma spells_front cs p n :
  spells cs p -> cursor n p ->
  exists ds, buffer_chars p ds /\ text_ok (ended p) ds
    /\ if ended p then ds = cs ++ [0] else exists es, cs = ds ++ es /\ (n <= length ds)%nat.
Proof.
  intros [_ Hcs Ht] [_ _ Hr _]. destruct (ended p).
  - exists (cs ++ [0]). split_and!; [done| |done]. apply text_ok_app; [|done].
    apply text_ok_plain. eapply Forall_impl; [exact Hcs|]. intros c Hc.
    split; [by apply text_char_scalar|by apply text_char_nonzero].
  - assert (exists ds es, buffer_chars p ds /\ cs = ds ++ es) as (ds & es & Hb & ->).
    { destruct Ht as [(ds & es & H1 & H2 & _)|(ds & es & H1 & H2 & _)]; eauto. }
    exists ds. split_and!; [done| |].
    + apply text_ok_plain. apply Forall_app in Hcs as [Hcs _]. eapply Forall_impl; [exact Hcs|].
      intros c Hc. split; [by apply text_char_scalar|by apply text_char_nonzero].
    + exists es. split; [done|]. destruct Hb as [_ Hb], Hr; [lia|done].
Qed.

Lemma utf8_text_single l : Forall single_octet l -> utf8_text l = l.
Proof.
  induction 1 as [|c l Hc _ IH]; [done|]. change (utf8_text (c :: l)) with (utf8_encode c ++ utf8_text l).
  by rewrite IH, encode_single.
Qed.

(** The character [k] places behind the cursor, the NUL at the end of the
    text; those in front of it are single octets. *)
Lemma spells_char k n cs p :
  spells cs p -> cursor n p -> (k < n)%nat -> (k <= length cs)%nat ->
  Forall single_octet (take k cs) -> looking n k p /\ char_at k p = nth k cs 0.
Proof.
  intros Hs Hc Hk Hl Hx. destruct (spells_front cs p n Hs Hc) as (ds & [B1 B2] & Ht & Hd).
  assert (exists rest, ds = take k cs ++ nth k cs 0 :: rest
            /\ (ended p = true \/ (n <= k + S (length rest))%nat)) as (rest & Hds & Hn).
  { destruct (ended p).
    - subst ds. destruct (decide (k = length cs)) as [->|Hne].
      + exists []. rewrite take_ge, nth_overflow by lia. eauto.
      + destruct (lookup_lt_is_Some_2 cs k ltac:(lia)) as [c Hck].
        exists (drop (S k) cs ++ [0]). rewrite (nth_lookup_Some cs k 0 c Hck). split; [|by left].
        rewrite <- (take_drop_middle cs k c Hck) at 1. by rewrite <- app_assoc.
    - destruct Hd as (es & -> & Hn). rewrite take_app_le in * by lia.
      destruct (lookup_lt_is_Some_2 ds k ltac:(lia)) as [c Hck]. exists (drop (S k) ds).
      rewrite app_nth1 by lia. rewrite (nth_lookup_Some ds k 0 c Hck), (take_drop_middle ds k c Hck).
      split; [done|]. right. rewrite length_drop. lia. }
  assert (length (take k cs) = k) as Hlk by (rewrite length_take; lia).
  apply (looking_of n k p (nth k cs 0) rest).
  - rewrite B1, Hds, utf8_text_app, (utf8_text_single (take k cs)) by done.
    rewrite <- Hlk at 1. by rewrite drop_app_length.
  - rewrite Hds in Ht. clear - Ht Hx. induction (take k cs) as [|x l IH]; [done|].
    apply Forall_cons in Hx as [Hx1 Hx2]. cbn in Ht.
    assert ((x =? 0) = false) as E by (unfold single_octet in Hx1; lia). rewrite E in Ht.
    apply IH; [done|by destruct Ht].
  - done.
Qed.

Definition next_mark (p : yaml_parser_t) : yaml_mark_t :=
  mkMark (p.(reader).(mark).(index) + 1) p.(reader).(mark).(line) (p.(reader).(mark).(column) + 1).

(** Whole characters are taken off the front. *)
Lemma spells_past c cs p w k m n :
  spells (c ++ cs) p -> cursor (length c + n) p -> w = length (utf8_text c) -> k = Z.of_nat (length c) ->
  0 <= m.(column) -> reach p true n (past w k m p) -> spells cs (past w k m p).
Proof.
  intros Hs Hc -> -> Hm [Hcu _]. destruct (spells_front _ p _ Hs Hc) as (ds & [B1 B2] & Ht & Hd).
  pose proof Hs as [_ Hcs Htx]. set (q := past _ _ _ _) in *. assert (ended q = ended p) as He by done.
  constructor; [apply (cursor_weaken n); [done|lia]|by apply Forall_app in Hcs as [_ ?]|]. rewrite He.
  assert (forall rest, buffer_chars p (c ++ rest) -> buffer_chars q rest) as Hrest.
  { intros rest [R1 R2]. split; cbn; [by rewrite R1, utf8_text_app, drop_app_length|].
    rewrite length_app in R2. lia. }
  destruct (ended p) eqn:Ep; [apply Hrest; by rewrite app_assoc|].
  assert (forall ds' es, buffer_chars p ds' -> c ++ cs = ds' ++ es ->
            exists ds2, buffer_chars q ds2 /\ cs = ds2 ++ es) as Hsplit.
  { intros ds' es Hb Heq. destruct Hd as (es' & Hes & Hn).
    assert (length c <= length ds')%nat as Hl by (destruct Hb as [_ Hb]; lia).
    destruct (prefix_cases _ _ _ _ (eq_sym Heq)) as [(r & -> & Hr)|(r & Hr & Hcc & _)].
    - exists r. split; [by apply Hrest|done].
    - apply (f_equal length) in Hcc. rewrite length_app in Hcc. destruct r; [done|]. cbn in Hcc. lia. }
  destruct Htx as [(ds' & es & H1 & H2 & H3)|(ds' & es & H1 & H2 & H3)];
    destruct (Hsplit ds' es H1 H2) as (ds2 & G1 & G2); [left|right]; exists ds2, es; split_and!; try done.
  by destruct H3.
Qed.

Lemma SKIP_spells c cs p n :
  spells (c :: cs) p -> cursor (S n) p ->
  let q := past (length (utf8_encode c)) 1 (next_mark p) p in
  SKIP p = Ret tt q /\ (forall x, READ x p = Ret (x ++ utf8_encode c) q)
  /\ spells cs q /\ cursor n q.
Proof.
  intros Hs Hc q. destruct (spells_char 0 (S n) _ p Hs Hc) as [_ H0]; [lia|cbn; lia|constructor|].
  cbn in H0. pose proof (sp_chars _ _ Hs) as [Hcc _]%Forall_cons.
  destruct (eval_SKIP p false n p (reach_start _ _ Hc)) as (m & H1 & H2 & H3 & ->).
  { rewrite H0. by apply text_char_nonzero. }
  rewrite H0 in *. split_and!; try done; [|by destruct H1].
  eapply (spells_past [c] cs p _ _ _ n); try done; cbn; [by rewrite app_nil_r|].
  pose proof (cu_column _ _ Hc). lia.
Qed.

(** ** Running a routine on a text *)

(** The text [cs] is in front of the cursor, [n] characters of it (or its end)
    in the buffer; since [p0] only the reader has changed. *)
Record at_text (p0 : yaml_parser_t) (cs : list Z) (n : nat) (p : yaml_parser_t) : Prop := mkAtText {
  at_spells : spells cs p;
  at_cursor : cursor n p;
  at_only : reader_only p0 p
}.

Lemma at_text_start cs p : spells cs p -> at_text p cs 0 p.
Proof. intros H. by constructor; [|apply H|]. Qed.

Lemma at_text_weaken p0 cs n m p : at_text p0 cs n p -> (m <= n)%nat -> at_text p0 cs m p.
Proof. intros [H1 H2 H3] Hm. constructor; [done|by eapply cursor_weaken|done]. Qed.

Definition column_of (p : yaml_parser_t) : Z := p.(reader).(mark).(column).

Section run.
Context (p0 p : yaml_parser_t) (cs : list Z).

Lemma run_CACHE k n (Q : unit -> yaml_parser_t -> Prop) :
  at_text p0 cs n p -> 0 <= k <= MAX_REQUEST ->
  (forall q, at_text p0 cs (Z.to_nat k) q -> q.(reader).(mark) = p.(reader).(mark) -> Q tt q) ->
  wp strict (CACHE k) Q never p.
Proof.
  intros [H1 H2 H3] Hk HQ. eapply wp_mono; [by apply (wp_CACHE cs p k (Z.to_nat k))| |done].
  intros [] q (G1 & G2 & [G3 G4]). apply HQ; [|done]. constructor; [done|done|by etrans].
Qed.

Lemma run_SKIP c n (Q : unit -> yaml_parser_t -> Prop) :
  at_text p0 (c :: cs) (S n) p ->
  (forall q, at_text p0 cs n q -> q.(reader).(mark) = next_mark p -> Q tt q) ->
  wp strict SKIP Q never p.
Proof.
  intros [H1 H2 H3] HQ. destruct (SKIP_spells c cs p n H1 H2) as (G1 & _ & G2 & G3).
  eapply wp_known; [exact G1|]. apply HQ; [|done]. constructor; [done|done|]. by destruct H3.
Qed.

Lemma run_READ c n x (Q : list Z -> yaml_parser_t -> Prop) :
  at_text p0 (c :: cs) (S n) p ->
  (forall q, at_text p0 cs n q -> q.(reader).(mark) = next_mark p -> Q (x ++ utf8_encode c) q) ->
  wp strict (READ x) Q never p.
Proof.
  intros [H1 H2 H3] HQ. destruct (SKIP_spells c cs p n H1 H2) as (_ & G1 & G2 & G3).
  eapply wp_known; [apply G1|]. apply HQ; [|done]. constructor; [done|done|]. by destruct H3.
Qed.

(** A line break: CR, LF, or both. *)
Definition line_end (br : list Z) (rest : list Z) : Prop :=
  br = [10] \/ br = [13; 10] \/ (br = [13] /\ head rest <> Some 10).

Lemma run_READ_LINE br x (Q : list Z -> yaml_parser_t -> Prop) :
  at_text p0 (br ++ cs) 2 p -> line_end br cs ->
  (forall q, at_text p0 cs 0 q -> column_of q = 0 -> Q (x ++ [10]) q) ->
  wp strict (READ_LINE x) Q never p.
Proof.
  intros [H1 H2 H3] Hbr HQ. unfold READ_LINE.
  assert (forall w, w = length br ->
     reach p true 0 (past w (Z.of_nat w) (newline_mark (Z.of_nat w) p) p) ->
     at_text p0 cs 0 (past w (Z.of_nat w) (newline_mark (Z.of_nat w) p) p)) as Hdone.
  { intros w -> Hre. constructor; [|by destruct Hre|by destruct H3].
    assert (Forall single_octet br) as Hs.
    { destruct Hbr as [-> |[-> |[-> _]]]; repeat constructor; done. }
    eapply (spells_past br cs p _ _ _ 0); try done; [|by rewrite utf8_text_single].
    eapply cursor_weaken; [done|]. destruct Hbr as [-> |[-> |[-> _]]]; cbn; lia. }
  assert (exists c, char_at 0 p = c /\ head br = Some c /\ looking 2 0 p) as (c & H0 & Hh & Hl).
  { destruct (spells_char 0 2 _ p H1 H2) as [Hl H0]; [lia|lia|constructor|]. rewrite H0.
    destruct Hbr as [-> |[-> |[-> _]]]; eauto. }
  destruct (cursor_text 1 p H2) as (ds & Hds & _ & _). rewrite H0 in Hds.
  eapply wp_ifm; [ev|intros Hb|intros Hb].
  - apply andb_true_iff in Hb as [Hb0%Z.eqb_eq Hb1%Z.eqb_eq].
    destruct (past_crlf p false p (reach_start _ _ H2) Hb0 Hb1) as [G1 G2].
    assert (br = [13; 10]) as ->.
    { destruct Hbr as [-> |[? |[-> Hn]]]; [change (ch "013") with 13 in Hb0; cbn in Hh; congruence|done|]. exfalso. apply Hn.
      destruct (spells_char 1 2 _ p H1 H2) as [_ E]; [lia|cbn; lia|repeat constructor; done|].
      change (ch "010") with 10 in Hb1. rewrite Hb1 in E. destruct cs; [done|]. cbn in *. congruence. }
    apply (wp_advance_move strict 2 2); [done|]. apply HQ; [|done].
    by apply (Hdone 2%nat).
  - assert (br = [10] \/ br = [13]) as Hbr1.
    { destruct Hbr as [-> |[-> |[-> Hn]]]; auto. exfalso.
      destruct (spells_char 1 2 _ p H1 H2) as [_ E]; [lia|cbn; lia|repeat constructor; done|].
      cbn in Hh. injection Hh as <-. rewrite H0, E in Hb. by cbn in Hb. }
    assert (c = 10 \/ c = 13) as Hc by (destruct Hbr1 as [-> | ->]; cbn in Hh; injection Hh as <-; auto).
    eapply wp_ifm; [ev|intros _|intros Hf].
    2:{ exfalso. rewrite H0 in Hf. destruct Hc as [-> | ->]; by cbn in Hf. }
    assert (length (utf8_encode c) = 1%nat) as Hlen by (by destruct Hc as [-> | ->]).
    apply (wp_advance_move strict 1 1); [rewrite Hds; cbn; rewrite length_app; lia|].
    apply HQ; [|done]. apply (Hdone 1%nat); [by destruct Hbr1 as [-> | ->]|].
    pose proof (past_line p false 1 p (reach_start _ _ H2)) as Hp. rewrite H0, Hlen in Hp.
    eapply reach_weaken; [apply Hp; lia|lia].
Qed.
End run.

(** The loops of the scanner have more fuel than there are characters. *)
Lemma spells_fuel cs p : spells cs p -> (length cs < scan_fuel p)%nat.
Proof.
  intros [_ _ Ht]. unfold scan_fuel.
  assert (forall ds, (length ds <= length (utf8_text ds))%nat) as Hu
    by (intros ds; apply (raw_text_length YAML_UTF8_ENCODING)).
  destruct (ended p).
  - destruct Ht as [B1 _]. rewrite B1. specialize (Hu (cs ++ [0])). rewrite length_app in Hu.
    cbn in Hu. lia.
  - assert (exists ds es, buffer_chars p ds /\ cs = ds ++ es /\
      (length es <= length p.(reader).(raw_buffer) + length p.(reader).(input))%nat)
      as (ds & es & [B1 _] & -> & He).
    { destruct Ht as [(ds & es & H1 & H2 & [U1 _ _ _ _])|(ds & es & H1 & H2 & H3)];
        exists ds, es; (split_and!; [done|done|]).
      - rewrite <- length_app, U1. apply raw_text_length.
      - destruct H3 as (_ & _ & enc & bom & _ & -> & _). rewrite length_app.
        pose proof (raw_text_length enc es). lia. }
    rewrite B1, length_app. specialize (Hu ds). lia.
Qed.
