(* ===== verification/YamlQuoted.v ===== *)
(** * libyaml: what a double-quoted scalar spells

    [quoted b w v]: the text [w] between double quotes spells the characters
    [v], by the rules of YAML: characters stand for themselves, escapes for
    the character they name, and a line break with the blanks around it for a
    space.  [b] says that a space stands in front of [w], where a break would
    swallow it.  [yaml_parser_scan_flow_scalar] reads every such text, from
    any input and however it is cut into buffers, and yields [v]. *)

From Stdlib Require Import ZArith Lia ZifyNat ZifyBool Ascii String.
From stdpp Require Import base list option strings.
From S2P Require Import Prelude YamlData YamlReader YamlChars YamlScanner YamlParser.
From S2P Require Import YamlEvents YamlFrame YamlUtf8 YamlBuffer YamlCursor YamlText.

#[local] Open Scope Z_scope.
#[local] Open Scope yaml_scope.

(** ** The rules *)

Definition QUOTE : Z := 34.
Definition BACKSLASH : Z := 92.

(** A character that stands for itself. *)
Definition word_char (c : Z) : bool :=
  allowed_char c && negb (c_blankz c) && negb (c =? QUOTE) && negb (c =? BACKSLASH).

Definition hex_value (ds : list Z) : Z := foldl (fun a d => Z.shiftl a 4 + as_hex d) 0 ds.

(** What follows the backslash of an escape for the character [c]. *)
Inductive escape_text : list Z -> Z -> Prop :=
| escape_short k c : escape_of k = Some (inl (utf8_encode c)) -> escape_text [k] c
| escape_hex k n ds c :
    escape_of k = Some (inr n) -> Z.of_nat (length ds) = n -> Forall (fun d => is_hex d = true) ds ->
    hex_value ds = c -> scalar_value c -> escape_text (k :: ds) c.

Definition solid (w : list Z) : Prop :=
  match w with [] => False | c :: _ => c_blankz c = false end.

#[export] Instance solid_dec w : Decision (solid w).
Proof. destruct w; apply _. Defined.

Inductive quoted : bool -> list Z -> list Z -> Prop :=
| quoted_nil b : quoted b [] []
| quoted_char b c w v : word_char c = true -> quoted false w v -> quoted b (c :: w) (c :: v)
| quoted_escape b c e w v :
    escape_text e c -> quoted false w v -> quoted b (BACKSLASH :: e ++ w) (c :: v)
| quoted_space b w v : quoted true w v -> quoted b (32 :: w) (32 :: v)
| quoted_fold br k w v :
    line_end br (replicate (S k) 32 ++ w) -> solid w -> quoted false w v ->
    quoted false (br ++ replicate (S k) 32 ++ w) (32 :: v).

(** ** Escapes *)

(** The escape characters are single octets and no line breaks. *)
Lemma escape_of_single k r : escape_of k = Some r -> single_octet k /\ c_break k = false.
Proof.
  unfold escape_of, single_octet, c_break. literals. intros H.
  repeat match type of H with
  | (if ?b then _ else _) = _ => destruct b eqn:?; [lia|]
  end. done.
Qed.

Lemma escape_of_hex k n : escape_of k = Some (inr n) -> n = 2 \/ n = 4 \/ n = 8.
Proof.
  unfold escape_of. intros H.
  repeat match type of H with
  | (if ?b then _ else _) = _ => destruct b; [injection H; intros; subst; auto; discriminate|]
  end. done.
Qed.

Lemma run_scan_hex p0 p sm ds : forall cs k j n value (Q : Z -> yaml_parser_t -> Prop),
  at_text p0 cs n p -> drop k cs = ds ++ j -> (k + length ds <= n)%nat ->
  Forall single_octet (take k cs) -> Forall (fun d => is_hex d = true) ds ->
  Q (foldl (fun a d => Z.shiftl a 4 + as_hex d) value ds) p ->
  wp strict (scan_hex (length ds) k value sm) Q never p.
Proof.
  induction ds as [|d ds IH]; intros cs k j n value Q Hat Hd Hn Hs Hx HQ; [by wp_steps|].
  cbn [length scan_hex] in *. apply Forall_cons in Hx as [Hx Hxs].
  assert (cs !! k = Some d) as Hk by (rewrite <- (Nat.add_0_r k), <- lookup_drop, Hd; done).
  pose proof (lookup_lt_Some _ _ _ Hk) as Hlt. destruct Hat as [H1 H2 H3].
  destruct (spells_char k n cs p H1 H2) as [Hl Hc]; [lia|lia|done|].
  rewrite (nth_lookup_Some cs k 0 d Hk) in Hc.
  eapply wp_ifm; [ev|intros Hf|intros _].
  { rewrite Hc, Hx in Hf. done. }
  wp_step. eapply wp_eval; [ev|]. rewrite Hc.
  pose proof (single_hex _ Hx) as Hsd. rewrite first_octet_low by (unfold single_octet in Hsd; lia).
  eapply (IH cs (S k) j n); try done.
  - by rewrite <- Nat.add_1_r, <- drop_drop, Hd.
  - lia.
  - rewrite (take_S_r cs k d Hk). by apply Forall_app_2; [|by apply Forall_singleton].
Qed.

Lemma run_skip_n p0 ds : forall p cs (Q : unit -> yaml_parser_t -> Prop),
  at_text p0 (ds ++ cs) (length ds) p ->
  (forall q, at_text p0 cs 0 q -> column_of p <= column_of q -> Q tt q) ->
  wp strict (skip_n (length ds)) Q never p.
Proof.
  induction ds as [|d ds IH]; intros p cs Q Hat HQ; cbn [length skip_n].
  { wp_steps. by apply HQ. }
  wp_step. eapply run_SKIP; [exact Hat|]. intros q Hq Hm. eapply (IH q cs); [done|].
  intros r Hr Hle. apply HQ; [done|]. unfold column_of in *. rewrite Hm in Hle. cbn in Hle. lia.
Qed.

(** One escape: the backslash and the character behind it are in the buffer. *)
Lemma run_scan_escape p0 p sm e c w s (Q : list Z -> yaml_parser_t -> Prop) :
  at_text p0 (BACKSLASH :: e ++ w) 2 p -> escape_text e c ->
  (forall q, at_text p0 w 0 q -> column_of p < column_of q -> Q (s ++ utf8_encode c) q) ->
  wp strict (scan_escape sm s) Q never p.
Proof.
  intros Hat He HQ. pose proof Hat as [H1 H2 _]. unfold scan_escape. wp_step.
  assert (exists k e' r, e = k :: e' /\ escape_of k = Some r) as (k & e' & r & -> & Hk)
    by (destruct He; eauto).
  destruct (spells_char 1 2 _ p H1 H2) as [Hl Hc];
    [lia|cbn; lia|repeat constructor; done|]. cbn in Hc.
  destruct (escape_of_single k r Hk) as [Hks _].
  eapply wp_eval; [by eapply eval_byte_at|]. rewrite Hc, first_octet_low, Hk
    by (unfold single_octet in Hks; lia).
  assert (forall (m : yaml_prog (list Z)),
    (forall q, at_text p0 (e' ++ w) 0 q -> column_of p < column_of q -> wp strict m Q never q) ->
    wp strict (SKIP;; SKIP;; m) Q never p) as Htwo.
  { intros m Hm. wp_step. eapply run_SKIP; [exact Hat|]. intros q1 Hq1 M1. wp_step.
    eapply run_SKIP; [exact Hq1|]. intros q2 Hq2 M2. apply Hm; [done|].
    unfold column_of. rewrite M2. cbn. rewrite M1. cbn. lia. }
  inversion He as [k' c' Hk'|k' n ds c' Hk' Hn Hx Hv Hsc]; subst; rewrite Hk in Hk';
    injection Hk' as ->.
  - apply Htwo. intros q Hq Hcol. wp_steps. by apply HQ.
  - apply Htwo. intros q Hq Hcol. pose proof (escape_of_hex _ _ Hk) as Hcases.
    wp_step. eapply run_CACHE; [exact Hq|unfold MAX_REQUEST; lia|]. intros q2 Hq2 Hm2.
    wp_step. rewrite Nat2Z.id in *. eapply run_scan_hex; [exact Hq2|by rewrite drop_0|lia|constructor|done|].
    fold (hex_value e'). destruct Hsc as [Hs1 Hs2].
    assert ((hex_value e' >=? 0xD800) && (hex_value e' <=? 0xDFFF) || (hex_value e' >? 0x10FFFF) = false)
      as -> by lia.
    wp_step. eapply run_skip_n; [exact Hq2|]. intros q3 Hq3 Hle. wp_steps. apply HQ; [done|].
    unfold column_of in *. rewrite Hm2 in Hle. lia.
Qed.

(** ** Words and the blanks between them *)

(** Where a word ends: at the closing quote, at a space, or at a line break. *)
Inductive between : list Z -> list Z -> Prop :=
| between_end : between [] []
| between_space w v : quoted true w v -> between (32 :: w) (32 :: v)
| between_fold br k w v :
    line_end br (replicate (S k) 32 ++ w) -> solid w -> quoted false w v ->
    between (br ++ replicate (S k) 32 ++ w) (32 :: v).

Lemma at_text_char p0 p c cs n : at_text p0 (c :: cs) (S n) p -> char_at 0 p = c.
Proof.
  intros [H1 H2 _]. destruct (spells_char 0 (S n) _ p H1 H2) as [_ H]; [lia|cbn; lia|constructor|done].
Qed.

Lemma word_char_facts c : word_char c = true ->
  c_blankz c = false /\ c <> 34 /\ c <> 92.
Proof. unfold word_char, QUOTE, BACKSLASH. intros H. split_tests. lia. Qed.

Lemma line_end_head br rest : line_end br rest -> exists c br', br = c :: br' /\ c_break c = true.
Proof. intros [-> |[-> |[-> _]]]; eauto. Qed.

Lemma between_head w v rest :
  between w v -> exists c cs, w ++ QUOTE :: rest = c :: cs
    /\ (c = QUOTE /\ w = [] \/ c_blankz c = true).
Proof.
  intros Hb. destruct Hb as [|w' v' Hq|br k w' v' Hbr Hs Hq]; [cbn; by eauto 6..|].
  destruct (line_end_head _ _ Hbr) as (c & br' & -> & Hc). cbn. eexists _, _. split; [done|].
  right. unfold c_blankz, c_breakz. rewrite Hc. by rewrite orb_true_r.
Qed.

(** One turn of the loop over a word, on a character of the word. *)
Section word.
Context (p0 : yaml_parser_t) (sm : yaml_mark_t).

Definition word_turn (s : list Z) : yaml_prog (list Z + (list Z * bool)) :=
  ifm IS_BLANKZ then mret (inr (s, false))
  else ifm mret false &&& check_at "'" 0 &&& check_at "'" 1 then
    SKIP;; SKIP;; CACHE 2;; mret (inl (s ++ [ch "'"]))
  else ifm CHECK_AT QUOTE 0 then mret (inr (s, false))
  else ifm mret (negb false) &&& CHECK "\" &&& IS_BREAK_AT 1 then
    CACHE 3;; SKIP;; SKIP_LINE;; mret (inr (s, true))
  else ifm mret (negb false) &&& CHECK "\" then
    s' ← scan_escape sm s; CACHE 2;; mret (inl s')
  else
    s' ← READ s; CACHE 2;; mret (inl s').

Lemma run_word_char p c cs s (Q : list Z + (list Z * bool) -> yaml_parser_t -> Prop) :
  at_text p0 (c :: cs) 2 p -> word_char c = true ->
  (forall q, at_text p0 cs 2 q -> column_of p < column_of q -> Q (inl (s ++ utf8_encode c)) q) ->
  wp strict (word_turn s) Q never p.
Proof.
  intros Hat Hw HQ. pose proof (at_text_char _ _ _ _ _ Hat) as Hc. pose proof Hat as [_ Hcu _].
  destruct (word_char_facts c Hw) as (W1 & W2 & W3). unfold word_turn.
  eapply wp_ifm; [ev|rewrite Hc; congruence|intros _].
  eapply wp_ifm; [ev|done|intros _].
  eapply wp_ifm; [eapply eval_CHECK_AT; [look|unfold QUOTE; lia]|rewrite Hc; unfold QUOTE; lia|intros _].
  eapply wp_ifm; [ev|rewrite Hc; literals; lia|intros _].
  eapply wp_ifm; [ev|rewrite Hc; literals; lia|intros _].
  wp_step. eapply run_READ; [exact Hat|]. intros q Hq M. wp_step.
  eapply run_CACHE; [exact Hq|unfold MAX_REQUEST; lia|]. intros r Hr M2. wp_steps.
  apply HQ; [done|]. unfold column_of. rewrite M2, M. cbn. lia.
Qed.

Lemma run_word_escape p e c cs s (Q : list Z + (list Z * bool) -> yaml_parser_t -> Prop) :
  at_text p0 (BACKSLASH :: e ++ cs) 2 p -> escape_text e c ->
  (forall q, at_text p0 cs 2 q -> column_of p < column_of q -> Q (inl (s ++ utf8_encode c)) q) ->
  wp strict (word_turn s) Q never p.
Proof.
  intros Hat He HQ. pose proof (at_text_char _ _ _ _ _ Hat) as Hc. pose proof Hat as [H1 Hcu _].
  assert (exists k e' r, e = k :: e' /\ escape_of k = Some r) as (k & e' & r & -> & Hk)
    by (destruct He; eauto).
  destruct (spells_char 1 2 _ p H1 Hcu) as [_ Hc1];
    [lia|cbn; lia|repeat constructor; done|]. cbn in Hc1.
  destruct (escape_of_single k r Hk) as [_ Hkb]. unfold word_turn.
  eapply wp_ifm; [ev|by rewrite Hc|intros _].
  eapply wp_ifm; [ev|done|intros _].
  eapply wp_ifm; [eapply eval_CHECK_AT; [look|unfold QUOTE; lia]|by rewrite Hc|intros _].
  eapply wp_ifm; [ev|rewrite Hc1, Hkb, andb_false_r; done|intros _].
  eapply wp_ifm; [ev|intros _|by rewrite Hc].
  wp_step. eapply run_scan_escape; [exact Hat|exact He|]. intros q Hq Hcol. wp_step.
  eapply run_CACHE; [exact Hq|unfold MAX_REQUEST; lia|]. intros r' Hr M2. wp_steps.
  apply HQ; [done|]. unfold column_of in *. by rewrite M2.
Qed.

Lemma run_word_end p w v rest s (Q : list Z + (list Z * bool) -> yaml_parser_t -> Prop) :
  at_text p0 (w ++ QUOTE :: rest) 2 p -> between w v -> Q (inr (s, false)) p ->
  wp strict (word_turn s) Q never p.
Proof.
  intros Hat Hb HQ. destruct (between_head w v rest Hb) as (c & cs & Hw & Hc'). rewrite Hw in Hat.
  pose proof (at_text_char _ _ _ _ _ Hat) as Hc. pose proof Hat as [_ Hcu _]. unfold word_turn.
  eapply wp_ifm; [ev|intros _; by wp_steps|intros Hf]. rewrite Hc in Hf.
  destruct Hc' as [[-> _]|?]; [|congruence].
  eapply wp_ifm; [ev|done|intros _].
  eapply wp_ifm; [eapply eval_CHECK_AT; [look|unfold QUOTE; lia]|intros _; by wp_steps|by rewrite Hc].
Qed.

(** The loop over a word. *)
Definition word_post (p : yaml_parser_t) (rest s w v : list Z) (r : list Z * bool) (q : yaml_parser_t) : Prop :=
  exists v1 w2 v2, v = v1 ++ v2 /\ r = (s ++ utf8_text v1, false) /\ between w2 v2
    /\ at_text p0 (w2 ++ QUOTE :: rest) 2 q /\ column_of p <= column_of q
    /\ (length w2 <= length w)%nat.

Lemma word_post_step p p' rest s c pre w v r q :
  column_of p < column_of p' -> word_post p' rest (s ++ utf8_encode c) w v r q ->
  word_post p rest s (pre ++ w) (c :: v) r q.
Proof.
  intros Hcol (v1 & w2 & v2 & -> & -> & Hb & Hat & Hle & Hl). exists (c :: v1), w2, v2.
  split_and!; try done; [|lia|rewrite length_app; lia].
  by rewrite <- app_assoc.
Qed.

Lemma run_word b w v rest : quoted b w v -> forall n s p,
  at_text p0 (w ++ QUOTE :: rest) 2 p -> (length w < n)%nat ->
  wp strict (loop n word_turn s) (word_post p rest s w v) never p.
Proof.
  assert (forall n w v s p, at_text p0 (w ++ QUOTE :: rest) 2 p -> between w v -> (0 < n)%nat ->
            wp strict (loop n word_turn s) (word_post p rest s w v) never p) as Hend.
  { intros n w' v' s p Hat Hb Hn. destruct n; [lia|]. cbn [loop]. wp_step.
    eapply run_word_end; [done|done|]. wp_steps. exists [], w', v'.
    rewrite app_nil_r. split_and!; auto; lia. }
  induction 1 as [b|b c w v Hc _ IH|b c e w v He _ IH|b w v Hq _|br k w v Hbr Hs Hq _]; intros n s p Hat Hn.
  - apply (Hend n []); [done|constructor|lia].
  - destruct n; [cbn in Hn; lia|]. cbn [loop]. wp_step. eapply run_word_char; [exact Hat|done|].
    intros q Hq Hcol. cbn. eapply wp_mono; [apply IH; [done|cbn in Hn; lia]| |done].
    intros r q'. by apply (word_post_step p q rest s c [c]).
  - destruct n; [cbn in Hn; lia|]. cbn [loop]. wp_step. cbn in Hat. rewrite <- app_assoc in Hat.
    eapply run_word_escape; [exact Hat|done|].
    intros q Hq Hcol. cbn. eapply wp_mono; [apply IH; [done|cbn in Hn; rewrite length_app in Hn; lia]| |done].
    intros r q'. by apply (word_post_step p q rest s c (BACKSLASH :: e)).
  - apply (Hend n (32 :: w)); [done|by constructor|lia].
  - apply (Hend n (br ++ replicate (S k) 32 ++ w)); [done|by constructor|lia].
Qed.
End word.

(** The blanks behind a word. *)
Section blanks.
Context (p0 : yaml_parser_t).

Definition blank_turn (b : scalar_bufs) : yaml_prog (scalar_bufs + scalar_bufs) :=
  ifm IS_BLANK ||| IS_BREAK then
    b' ← scan_one_blank b; CACHE 1;; mret (inl b')
  else mret (inr b).

Lemma blank_turn_stop p c cs b (Q : scalar_bufs + scalar_bufs -> yaml_parser_t -> Prop) :
  at_text p0 (c :: cs) 1 p -> c_blankz c = false -> Q (inr b) p ->
  wp strict (blank_turn b) Q never p.
Proof.
  intros Hat Hc HQ. pose proof (at_text_char _ _ _ _ _ Hat) as H0. pose proof Hat as [_ Hcu _].
  unfold blank_turn. eapply wp_ifm; [ev|intros Hf|intros _; by wp_steps].
  rewrite H0 in Hf. unfold c_blankz, c_breakz in Hc. lia.
Qed.

(** A space between two words is kept, one at the start of a line is not. *)
Lemma blank_turn_space p cs s lb tb ws (leading : bool)
    (Q : scalar_bufs + scalar_bufs -> yaml_parser_t -> Prop) :
  at_text p0 (32 :: cs) 1 p ->
  (forall q, at_text p0 cs 1 q -> column_of q = column_of p + 1 ->
     Q (inl (mkBufs s lb tb (if leading then ws else ws ++ [32]) leading)) q) ->
  wp strict (blank_turn (mkBufs s lb tb ws leading)) Q never p.
Proof.
  intros Hat HQ. pose proof (at_text_char _ _ _ _ _ Hat) as H0. pose proof Hat as [_ Hcu _].
  unfold blank_turn. eapply wp_ifm; [ev|intros _|by rewrite H0]. wp_step. cbn [scan_one_blank].
  assert (forall q, at_text p0 cs 0 q -> q.(reader).(mark) = next_mark p ->
    wp strict (CACHE 1;; mret (inl (mkBufs s lb tb (if leading then ws else ws ++ [32]) leading))) Q never q)
    as Hend.
  { intros q Hq M. wp_step. eapply run_CACHE; [exact Hq|unfold MAX_REQUEST; lia|]. intros r Hr M2.
    wp_steps. apply HQ; [done|]. unfold column_of. by rewrite M2, M. }
  eapply wp_ifm; [ev|intros _|by rewrite H0]. destruct leading; wp_step.
  - eapply run_SKIP; [exact Hat|]. intros q Hq M. apply wp_ret. by apply Hend.
  - eapply run_READ; [exact Hat|]. intros q Hq M. apply wp_ret. by apply Hend.
Qed.

Lemma blank_turn_break p br cs s ws (Q : scalar_bufs + scalar_bufs -> yaml_parser_t -> Prop) :
  at_text p0 (br ++ cs) 1 p -> line_end br cs ->
  (forall q, at_text p0 cs 1 q -> column_of q = 0 -> Q (inl (mkBufs s [10] [] [] true)) q) ->
  wp strict (blank_turn (mkBufs s [] [] ws false)) Q never p.
Proof.
  intros Hat Hbr HQ. destruct (line_end_head _ _ Hbr) as (c & br' & Hc & Hcb).
  pose proof Hat as Hat'. rewrite Hc in Hat'. pose proof (at_text_char _ _ _ _ _ Hat') as H0.
  pose proof Hat as [_ Hcu _].
  assert (c_blank c = false) as Hnb.
  { destruct Hbr as [-> |[-> |[-> _]]]; injection Hc as <- _; done. }
  unfold blank_turn. eapply wp_ifm; [ev|intros _|rewrite H0, Hcb, orb_true_r; done].
  wp_step. cbn [scan_one_blank]. eapply wp_ifm; [ev|rewrite H0; congruence|intros _].
  wp_step. eapply run_CACHE; [exact Hat|unfold MAX_REQUEST; lia|]. intros q Hq _. wp_step.
  eapply run_READ_LINE; [exact Hq|done|]. intros r Hr Hcol. wp_steps.
  eapply run_CACHE; [exact Hr|unfold MAX_REQUEST; lia|]. intros r2 Hr2 M. wp_steps.
  apply HQ; [done|]. unfold column_of in *. by rewrite M.
Qed.

Lemma solid_head w rest : w = [] \/ solid w ->
  exists c cs, w ++ QUOTE :: rest = c :: cs /\ c_blankz c = false.
Proof. intros [-> |H]; [by eexists _, _|]. destruct w as [|c w]; [done|]. by eexists _, _. Qed.

(** Spaces at the start of a line, in front of a word. *)
Lemma run_line_start w rest k : solid w -> forall n s p,
  at_text p0 (replicate k 32 ++ w ++ QUOTE :: rest) 1 p -> (k < n)%nat ->
  wp strict (loop n blank_turn (mkBufs s [10] [] [] true))
    (fun b q => b = mkBufs s [10] [] [] true /\ at_text p0 (w ++ QUOTE :: rest) 1 q
       /\ column_of q = column_of p + Z.of_nat k) never p.
Proof.
  intros Hs. induction k as [|k IH]; intros n s p Hat Hn; (destruct n; [lia|]); cbn [loop]; wp_step.
  - destruct (solid_head w rest (or_intror Hs)) as (c & cs & Hw & Hc). cbn in Hat.
    eapply (blank_turn_stop p c cs); [by rewrite <- Hw|done|]. wp_steps. split_and!; [done|done|lia].
  - eapply blank_turn_space; [exact Hat|]. intros q Hq Hcol. cbn.
    eapply wp_mono; [apply IH; [done|lia]| |done]. intros b r (-> & H1 & H2). split_and!; [done|done|lia].
Qed.

(** Spaces between two words, or in front of the closing quote. *)
Lemma run_spaces rest n : forall w v s ws p,
  quoted true w v -> at_text p0 (w ++ QUOTE :: rest) 1 p -> (length w < n)%nat ->
  wp strict (loop n blank_turn (mkBufs s [] [] ws false))
    (fun b q => exists k w2 v2, b = mkBufs s [] [] (ws ++ replicate k 32) false
       /\ v = replicate k 32 ++ v2 /\ quoted true w2 v2 /\ at_text p0 (w2 ++ QUOTE :: rest) 1 q
       /\ column_of p <= column_of q /\ (length w2 <= length w)%nat) never p.
Proof.
  induction n as [|n IH]; intros w v s ws p Hq Hat Hn; [lia|]. cbn [loop]. wp_step.
  destruct (decide (w = [] \/ solid w)) as [Hw|Hw].
  { destruct (solid_head w rest Hw) as (c & cs & Hc1 & Hc). 
    eapply (blank_turn_stop p c cs); [by rewrite <- Hc1|done|]. wp_steps. exists 0%nat, w, v.
    rewrite app_nil_r. split_and!; try done; lia. }
  inversion Hq as [b|b c w' v' Hc Hq'|b c e w' v' He Hq'|b w' v' Hq'|]; subst.
  - exfalso. apply Hw. by left.
  - exfalso. apply Hw. right. by apply word_char_facts.
  - exfalso. apply Hw. by right.
  - eapply blank_turn_space; [exact Hat|]. intros q Hq2 Hcol. cbn.
    eapply wp_mono; [apply (IH w' v'); [done|done|cbn in Hn; lia]| |done].
    intros b r (k & w2 & v2 & -> & -> & H1 & H2 & H3 & H4). exists (S k), w2, v2.
    rewrite <- app_assoc. split_and!; try done; cbn; lia.
Qed.
End blanks.

(** ** The whole scalar *)

Section scalar.
Context (p0 : yaml_parser_t) (sm : yaml_mark_t) (rest : list Z).

Definition join_blanks (b : scalar_bufs) : scalar_bufs :=
  if (b.(sb_leading_blanks) : bool) then fold_breaks b else join_whitespaces b.

Lemma utf8_text_spaces k : utf8_text (replicate k 32) = replicate k 32.
Proof. apply utf8_text_single, Forall_replicate. done. Qed.

(** Behind a word that is not the last one. *)
Definition blanks_post (s v : list Z) (w : list Z) (b : scalar_bufs) (q : yaml_parser_t) : Prop :=
  exists v1 c w2 v2 leading, v = v1 ++ v2 /\ join_blanks b = mkBufs (s ++ utf8_text v1) [] [] [] leading
    /\ quoted c w2 v2 /\ at_text p0 (w2 ++ QUOTE :: rest) 1 q /\ 0 < column_of q
    /\ (length w2 < length w)%nat.

Lemma run_blanks w v s p :
  between w v -> w <> [] -> at_text p0 (w ++ QUOTE :: rest) 1 p ->
  wp strict (scan_quoted_blanks (mkBufs s [] [] [] false)) (blanks_post s v w) never p.
Proof.
  intros Hb Hne Hat. unfold scan_quoted_blanks, scan_loop. wp_step. wp_step. cbv beta.
  fold blank_turn. pose proof (spells_fuel _ _ (at_spells _ _ _ _ Hat)) as Hf.
  rewrite length_app in Hf. cbn in Hf. set (n := scan_fuel p) in *.
  destruct Hb as [|w v Hq|br k w v Hbr Hs Hq]; [done|..].
  - destruct n as [|n]; [lia|]. cbn [loop]. wp_step. eapply blank_turn_space; [exact Hat|].
    intros q Hat2 Hcol. cbn. eapply wp_mono; [apply (run_spaces p0 rest n w v); [done|done|cbn in Hf; lia]| |done].
    intros b r (j & w2 & v2 & -> & -> & H1 & H2 & H3 & H4).
    exists (32 :: replicate j 32), true, w2, v2, false. split_and!; try done.
    + change (32 :: replicate j 32) with (replicate (S j) 32). by rewrite utf8_text_spaces.
    + pose proof (cu_column _ _ (at_cursor _ _ _ _ Hat)). unfold column_of in *. lia.
    + cbn. lia.
  - destruct (line_end_head _ _ Hbr) as (c & br' & Ebr & _). rewrite !length_app in Hf.
    destruct n as [|n]; [lia|]. cbn [loop]. wp_step. rewrite <- app_assoc in Hat.
    eapply blank_turn_break; [exact Hat| |].
    { destruct Hbr as [?|[?|[? Hn]]]; [by left|by right; left|]. right. right. split; [done|]. done. }
    intros q Hat2 Hcol. cbn. rewrite <- app_assoc in Hat2.
    eapply wp_mono; [apply (run_line_start p0 w rest (S k)); [done|exact Hat2|]| |done].
    { rewrite length_replicate, Ebr in Hf. cbn in Hf. lia. }
    intros b r (-> & H1 & H2). exists [32], false, w, v, true. split_and!; try done; [lia|].
    rewrite Ebr, !length_app. cbn. rewrite length_app. lia.
Qed.

(** The loop of [yaml_parser_scan_flow_scalar] for double quotes. *)
Definition scalar_turn (b : scalar_bufs) : yaml_prog (scalar_bufs + list Z) :=
  CACHE 4;;
  ifm at_document_indicator then
    yaml_parser_set_scanner_error (Some "while scanning a quoted scalar") sm
      "found unexpected document indicator"
  else ifm IS_Z then
    yaml_parser_set_scanner_error (Some "while scanning a quoted scalar") sm
      "found unexpected end of stream"
  else
    CACHE 2;;
    r ← scan_quoted_text false sm b.(sb_string);
    CACHE 1;;
    ifm CHECK_AT (quote_of false) 0 then mret (inr r.1)
    else
      CACHE 1;;
      b ← scan_quoted_blanks
            (mkBufs r.1 b.(sb_leading_break) b.(sb_trailing_breaks) b.(sb_whitespaces) r.2);
      mret (inl (join_blanks b)).

Lemma run_scalar_turn b w v s leading p (Q : scalar_bufs + list Z -> yaml_parser_t -> Prop) :
  quoted b w v -> at_text p0 (w ++ QUOTE :: rest) 0 p -> 0 < column_of p ->
  (forall q, at_text p0 (QUOTE :: rest) 1 q -> Q (inr (s ++ utf8_text v)) q) ->
  (forall q v1 c w2 v2 leading', v = v1 ++ v2 -> quoted c w2 v2 -> (length w2 < length w)%nat ->
     at_text p0 (w2 ++ QUOTE :: rest) 0 q -> 0 < column_of q ->
     Q (inl (mkBufs (s ++ utf8_text v1) [] [] [] leading')) q) ->
  wp strict (scalar_turn (mkBufs s [] [] [] leading)) Q never p.
Proof.
  intros Hq Hat Hcol HQ1 HQ2. unfold scalar_turn. wp_step.
  eapply run_CACHE; [exact Hat|unfold MAX_REQUEST; lia|]. intros p1 Hat1 M1.
  assert (0 < column_of p1) as Hcol1 by (unfold column_of in *; by rewrite M1).
  pose proof (at_cursor _ _ _ _ Hat1) as Hcu1.
  change (Z.to_nat 4) with 4%nat in *. pose proof (sp_chars _ _ (at_spells _ _ _ _ Hat1)) as Hok.
  assert (char_at 0 p1 <> 0) as Hnz.
  { destruct (w ++ QUOTE :: rest) as [|c cs] eqn:E; [by destruct w|].
    rewrite (at_text_char _ _ _ _ _ Hat1). apply Forall_cons in Hok as [Hok _].
    by apply text_char_nonzero. }
  eapply wp_ifm; [ev|intros Hf|intros _].
  { exfalso. unfold column_of in Hcol1.
    by rewrite (proj2 (Z.eqb_neq (column (mark (reader p1))) 0)) in Hf by lia. }
  eapply wp_ifm; [ev|lia|intros _].
  wp_step. eapply run_CACHE; [exact Hat1|unfold MAX_REQUEST; lia|]. intros p2 Hat2 M2. wp_step.
  change (Z.to_nat 2) with 2%nat in *.
  unfold scan_quoted_text, scan_loop. wp_step. wp_step. cbv beta.
  pose proof (spells_fuel _ _ (at_spells _ _ _ _ Hat2)) as Hf. rewrite length_app in Hf.
  eapply wp_mono; [apply (run_word p0 sm b w v rest Hq); [done|cbn in Hf |- *; lia]| |done].
  intros r p3 (v1 & w2 & v2 & -> & -> & Hb & Hat3 & Hle & Hl). cbn [sb_string].
  wp_step. eapply run_CACHE; [exact Hat3|unfold MAX_REQUEST; lia|]. intros p4 Hat4 M4.
  pose proof (at_cursor _ _ _ _ Hat4) as Hcu4. change (Z.to_nat 1) with 1%nat in *.
  destruct (between_head w2 v2 rest Hb) as (c & cs & Hc & Hcase).
  pose proof Hat4 as Hat4'. rewrite Hc in Hat4'. pose proof (at_text_char _ _ _ _ _ Hat4') as H0.
  eapply wp_ifm; [eapply eval_CHECK_AT; [look|cbn; lia]|intros Hquote|intros Hquote]; rewrite H0 in Hquote.
  - wp_steps. destruct Hcase as [[-> ->]|Hbl].
    2:{ apply Z.eqb_eq in Hquote as ->. by cbn in Hbl. }
    inversion Hb; subst; [|by destruct br]. rewrite app_nil_r in HQ1. by apply HQ1.
  - destruct Hcase as [[-> _]|Hbl]; [by cbn in Hquote|]. wp_step.
    eapply run_CACHE; [exact Hat4|unfold MAX_REQUEST; lia|]. intros p5 Hat5 M5. wp_step.
    eapply wp_mono; [apply (run_blanks w2 v2); [done| |done]| |done].
    { intros ->. injection Hc as <- _. by cbn in Hbl. }
    intros b' p6 (v3 & c' & w3 & v3' & leading' & -> & Hj & Hq' & Hat6 & Hc6 & Hl6).
    wp_steps. rewrite Hj. cbn [fst]. rewrite <- app_assoc, <- utf8_text_app. eapply HQ2; [by rewrite app_assoc|done|lia| |done].
    eapply at_text_weaken; [exact Hat6|lia].
Qed.

Lemma run_scalar_loop n : forall b w v s leading p,
  quoted b w v -> at_text p0 (w ++ QUOTE :: rest) 0 p -> 0 < column_of p -> (length w < n)%nat ->
  wp strict (loop n scalar_turn (mkBufs s [] [] [] leading))
    (fun r q => r = s ++ utf8_text v /\ at_text p0 (QUOTE :: rest) 1 q) never p.
Proof.
  induction n as [|n IH]; intros b w v s leading p Hq Hat Hcol Hn; [lia|]. cbn [loop]. wp_step.
  eapply run_scalar_turn; [done|done|done|..]; [by intros q Hq'; wp_steps|].
  intros q v1 c w2 v2 leading' -> Hq' Hl Hat' Hcol'. cbn.
  eapply wp_mono; [apply (IH c w2 v2); [done|done|done|lia]| |done].
  intros r q' [-> H]. split; [|done]. by rewrite <- app_assoc, utf8_text_app.
Qed.
End scalar.

(** The scanner at the opening quote of a double-quoted scalar returns the
    token with the characters it spells and stands behind the closing quote. *)
Lemma run_scan_flow_scalar b w v rest p :
  quoted b w v -> spells (QUOTE :: w ++ QUOTE :: rest) p -> cursor 1 p ->
  wp strict (yaml_parser_scan_flow_scalar false)
    (fun t q => t.(token_data) = YAML_SCALAR_TOKEN (utf8_text v) (Z.of_nat (length (utf8_text v)))
                                   YAML_DOUBLE_QUOTED_SCALAR_STYLE
                /\ spells rest q /\ reader_only p q) never p.
Proof.
  intros Hq Hs Hc. assert (at_text p (QUOTE :: w ++ QUOTE :: rest) 1 p) as Hat by by constructor.
  unfold yaml_parser_scan_flow_scalar, get_mark. wp_step. wp_step. cbv beta. wp_step.
  eapply run_SKIP; [exact Hat|]. intros q Hat1 M1. wp_step. unfold scan_loop. wp_step. wp_step.
  cbv beta. pose proof (spells_fuel _ _ (at_spells _ _ _ _ Hat1)) as Hf. rewrite length_app in Hf.
  eapply wp_mono; [apply (run_scalar_loop p (mark (reader p)) rest _ b w v []); [done|done| |lia]| |done].
  { pose proof (cu_column _ _ Hc). unfold column_of. rewrite M1. cbn. lia. }
  intros s r [-> Hat2]. wp_step. eapply run_SKIP; [exact Hat2|]. intros t [T1 _ T3] _. by wp_steps.
Qed.
