(* ===== verification/YamlSafe.v ===== *)
(** * libyaml: the scanning routines are total

    Every routine of [scanner.c] that reads the text of a token returns or
    reports an error on any input: its loops end, it never reads behind the
    last octet of the working buffer, and it moves the cursor forward. *)

From Stdlib Require Import ZArith Lia Ascii String.
From stdpp Require Import base list option strings.
From S2P Require Import Prelude YamlData YamlReader YamlChars YamlScanner YamlParser.
From S2P Require Import YamlEvents YamlFrame YamlUtf8 YamlBuffer YamlCursor.

#[local] Open Scope Z_scope.
#[local] Open Scope yaml_scope.

(** [total m n n']: with [n] characters at hand, [m] returns with [n'], or
    fails with an error; [b] tells whether it consumes. *)
Definition total {A} (n n' : nat) (b : bool) (m : yaml_prog A) : Prop :=
  forall p, cursor n p -> wp strict m (fun _ p' => reach p b n' p') failed p.

Lemma step_total {A} p0 s n n' b p (m : yaml_prog A) (Q : A -> yaml_parser_t -> Prop) :
  total n n' b m -> reach p0 s n p ->
  (forall p' a, reach p0 (s || b) n' p' -> Q a p') -> wp strict m Q failed p.
Proof.
  intros Hm Hp HQ. eapply wp_mono; [apply Hm, Hp|cbv beta|done].
  intros a q Hq. apply HQ. by eapply reach_trans.
Qed.

(** A loop whose turns consume. *)
Lemma total_loop {L R} n n' (body : L -> yaml_prog (L + R)) l :
  (forall l' q, reach q false n q ->
     wp strict (body l') (fun r q' =>
       match r with inl _ => reach q true n q' | inr _ => reach q false n' q' end) failed q) ->
  total n n' false (scan_loop body l).
Proof.
  intros Hb p Hp. eapply (step_scan_loop p false n p _ _ (fun _ _ => True)); [by apply reach_start|done|].
  intros l' q s Hq _ _. eapply wp_mono; [apply Hb, (reach_start n), Hq|cbv beta|done].
  intros [l2|x] q' H; [done|]. eapply reach_any. by eapply reach_trans.
Qed.

(** A loop that consumes in all but its first turn. *)
Lemma progress_loop {L R} n p (body : L -> yaml_prog (L + R)) l (Q : R -> yaml_parser_t -> Prop) :
  reach p false n p ->
  (forall l' q, reach q false n q -> q = p \/ reach p true n q ->
     wp strict (body l') (fun r q' =>
       match r with inl _ => reach q true n q' | inr x => Q x q' end) failed q) ->
  wp strict (scan_loop body l) Q failed p.
Proof.
  intros Hp Hb.
  eapply (step_scan_loop p false n p _ _ (fun _ q => q = p \/ reach p true n q)); [done|by left|].
  intros l' q s Hq _ Hor. eapply wp_mono; [apply Hb; [apply (reach_start n), Hq|done]|cbv beta|done].
  intros [l2|x] q' H; [|done]. split; [done|right]. rewrite <- (orb_true_r s). by eapply reach_trans.
Qed.

Lemma total_intro {A} n n' b (m : yaml_prog A) :
  (forall p, reach p false n p -> wp strict m (fun _ p' => reach p b n' p') failed p) ->
  total n n' b m.
Proof. intros H p Hp. by apply H, reach_start. Qed.

(** [reached]: the cursor has got where it should. *)
Ltac reached :=
  first [ eassumption | done
        | eapply reach_weaken; [eassumption|lia]
        | eapply reach_any; eassumption
        | eapply reach_any, reach_weaken; [eassumption|lia] ].

(** [total_solve]: the steps of a routine; [step_total] uses what is known of
    the routines it calls. *)
Create HintDb total.
Ltac total_step :=
  first [ scan_one
        | let q := fresh "q" in let R := fresh "R" in let a := fresh "a" in
          eapply step_total;
            [solve [eauto 2 with total]|first [eassumption|eapply reach_weaken; [eassumption|lia]]|intros q a R; cbn [orb] in R] ].
Ltac total_run := repeat total_step.
Ltac total_solve := apply total_intro; intros ? ?; total_run; try reached.
Ltac loop_solve := apply total_loop; intros ? ? ?; total_run; try reached.

(** ** White space, comments and line ends *)

Lemma total_to_next_token : total 0 1 false yaml_parser_scan_to_next_token.
Proof. unfold yaml_parser_scan_to_next_token. loop_solve. Qed.

Lemma total_rest_of_line ctx sm : total 0 0 false (scan_rest_of_line ctx sm).
Proof. unfold scan_rest_of_line. total_solve. Qed.
#[export] Hint Resolve total_to_next_token total_rest_of_line : total.

(** ** Directives, tags and anchors *)

Lemma total_directive_name sm : total 0 1 false (yaml_parser_scan_directive_name sm).
Proof. unfold yaml_parser_scan_directive_name. total_solve. Qed.

Lemma total_version_number sm : total 0 1 false (yaml_parser_scan_version_directive_number sm).
Proof.
  unfold yaml_parser_scan_version_directive_number. apply total_intro. intros p Hp.
  total_run. eapply (step_total _ _ 1 1 false).
  { loop_solve. }
  { done. }
  intros q0 a R0. total_run; reached.
Qed.
#[export] Hint Resolve total_directive_name total_version_number : total.

Lemma total_version_value sm : total 0 1 true (yaml_parser_scan_version_directive_value sm).
Proof. unfold yaml_parser_scan_version_directive_value. total_solve. Qed.

Lemma total_tag_handle directive sm : total 0 0 true (yaml_parser_scan_tag_handle directive sm).
Proof. unfold yaml_parser_scan_tag_handle. total_solve. Qed.
#[export] Hint Resolve total_version_value total_tag_handle : total.

Lemma utf8_width_range o : 0 <= utf8_width o <= 4.
Proof. unfold utf8_width. repeat destruct (_ =? _); lia. Qed.

(** Each turn takes a [%] and two digits; a leading octet announces at most
    three more. *)
Lemma total_uri_escapes directive sm x : total 0 0 true (yaml_parser_scan_uri_escapes directive sm x).
Proof.
  apply total_intro. intros p Hp. unfold yaml_parser_scan_uri_escapes.
  apply (wp_loop strict (fun l q => exists s, reach p s 0 q /\ 0 <= l.1 <= 3)
           (fun l _ => if l.1 =? 0 then 4%nat else Z.to_nat l.1)); [| |right; cbn; lia].
  2:{ exists false. split; [done|cbn; lia]. }
  intros [w y] q (s & Hq & Hw). cbn [fst] in *. total_run.
  - set (o := Z.shiftl _ 4 + _) in *. pose proof (utf8_width_range o).
    destruct (utf8_width o - 1 =? 0) eqn:E; [reached|]. split; [exists true; split; [done|cbn [fst]; lia]|].
    right. cbn [fst]. rewrite E. lia.
  - destruct (w - 1 =? 0) eqn:E; [reached|]. split; [exists true; split; [done|cbn [fst]; lia]|].
    right. cbn [fst]. rewrite E. lia.
Qed.
#[export] Hint Resolve total_uri_escapes : total.

Lemma total_tag_uri uri_char directive head sm :
  total 0 1 false (yaml_parser_scan_tag_uri uri_char directive head sm).
Proof.
  unfold yaml_parser_scan_tag_uri. apply total_intro. intros p Hp. total_run.
  eapply (step_total _ _ 1 1 false); [loop_solve|done|]. intros q0 a R0. total_run; reached.
Qed.
#[export] Hint Resolve total_tag_uri : total.

Lemma total_tag_directive_value sm : total 0 1 true (yaml_parser_scan_tag_directive_value sm).
Proof. unfold yaml_parser_scan_tag_directive_value. total_solve. Qed.
#[export] Hint Resolve total_tag_directive_value : total.

(** The routines for a whole token start at a character that is not the NUL. *)
Definition scans {A} (P : Z -> Prop) (m : yaml_prog A) : Prop :=
  forall p, reach p false 1 p -> P (char_at 0 p) -> wp strict m (fun _ p' => reach p true 0 p') failed p.

Lemma scans_directive : scans (fun c => c <> 0) yaml_parser_scan_directive.
Proof. intros p Hp Hc. unfold yaml_parser_scan_directive. total_run; reached. Qed.

Lemma scans_anchor alias : scans (fun c => c <> 0) (yaml_parser_scan_anchor alias).
Proof. intros p Hp Hc. unfold yaml_parser_scan_anchor. total_run; reached. Qed.

Lemma scans_tag : scans (fun c => c = ch "!") yaml_parser_scan_tag.
Proof.
  intros p Hp Hc. apply Z.eqb_eq in Hc. unfold yaml_parser_scan_tag. total_run; reached.
Qed.

(** ** Block scalars *)

Lemma total_block_header sm : total 0 0 false (scan_block_header sm).
Proof. unfold scan_block_header. total_solve. Qed.

Lemma total_block_scalar_breaks ind breaks sm :
  total 0 1 false (yaml_parser_scan_block_scalar_breaks ind breaks sm).
Proof.
  unfold yaml_parser_scan_block_scalar_breaks. apply total_intro. intros p Hp. total_run.
  eapply (step_total _ _ 0 1 false); [loop_solve|done|]. intros ? ? ?. total_run; reached.
Qed.
#[export] Hint Resolve total_block_header total_block_scalar_breaks : total.

(** A line of the content: it has a character or a line break. *)
Lemma wp_block_line literal sm l p :
  reach p false 1 p ->
  wp strict (scan_block_line literal sm l)
    (fun r p' => match r with inl _ => reach p true 1 p' | inr _ => reach p false 1 p' end) failed p.
Proof.
  intros Hp. unfold scan_block_line. total_step; [|total_run; reached].
  total_step. eapply wp_eval; [ev|]. cbv zeta. total_step. eapply wp_eval; [ev|]. total_step.
  eapply step_read_while; [done|intros ? ?; eexists; split; [ev|intros ?; nonzero]|].
  intros q x R E Hor.
  assert (reach p (negb (c_break (char_at 0 q))) 1 q) as R'.
  { destruct Hor as [->|Hor]; [|by eapply reach_mono].
    assert (eval (notM IS_BREAKZ) p (negb (c_breakz (char_at 0 p)))) as E' by ev.
    unfold eval in E, E'. rewrite E in E'. injection E' as E'. split_tests.
    unfold c_breakz in E'. destruct (c_break (char_at 0 p)); [done|]. cbn in E'. congruence. }
  total_step. total_step. total_step. eapply step_READ_LINE; [done|]. intros q1 x1 R1.
  rewrite orb_negb_l in R1. total_run; reached.
Qed.

Lemma scans_block_scalar literal : scans (fun c => c <> 0) (yaml_parser_scan_block_scalar literal).
Proof.
  intros p Hp Hc. unfold yaml_parser_scan_block_scalar. total_run.
  eapply (step_total _ _ 1 1 false); [apply total_loop; intros; by apply wp_block_line|done|].
  intros ? ? ?. total_run; reached.
Qed.

(** ** Quoted scalars *)

Lemma looking_upto n k p :
  cursor n p -> (k < n)%nat -> (forall j, (j < k)%nat -> single_octet (char_at j p)) -> looking n k p.
Proof.
  intros Hp Hk Hj. induction k as [|k IH]; [by apply looking_0|].
  apply looking_S; [apply IH; [lia|auto]|apply Hj; lia|done].
Qed.

(** The digits of an escape are looked at first, then skipped. *)
Lemma wp_scan_hex N n : forall k v sm p (Q : Z -> yaml_parser_t -> Prop),
  cursor N p -> (n + k)%nat = N -> (forall j, (j < k)%nat -> is_hex (char_at j p) = true) ->
  ((forall j, (j < N)%nat -> is_hex (char_at j p) = true) -> forall v', Q v' p) ->
  wp strict (scan_hex n k v sm) Q failed p.
Proof.
  induction n as [|n IH]; intros k v sm p Q Hp Hn Hj HQ; cbn [scan_hex].
  { cbn in Hn. subst k. wp_steps. by apply HQ. }
  assert (looking N k p) as Hl.
  { apply looking_upto; [done|lia|]. intros j Hjk. by apply single_hex, Hj. }
  total_step; [apply wp_scanner_error|]. split_tests. total_run. apply IH; [done|lia|cbv beta|done].
  intros j Hjk. destruct (decide (j = k)) as [->|]; [done|apply Hj; lia].
Qed.

Lemma step_skip_n p0 m : forall s p (Q : unit -> yaml_parser_t -> Prop),
  reach p0 s m p -> (forall j, (j < m)%nat -> single_octet (char_at j p)) ->
  (forall p', reach p0 s 0 p' -> Q tt p') -> wp strict (skip_n m) Q failed p.
Proof.
  induction m as [|m IH]; intros s p Q Hp Hj HQ; cbn [skip_n].
  { wp_steps. by apply HQ. }
  pose proof (Hj 0%nat ltac:(lia)) as H0. wp_step.
  eapply step_SKIP; [done|by apply single_nonzero|]. intros q R K. eapply (IH true); [done| |].
  - intros j Hjm. rewrite K by done. apply Hj. lia.
  - intros p' R'. apply HQ. by eapply reach_mono.
Qed.

Lemma escape_of_cases c :
  match escape_of c with
  | Some (inr n) => (n = 2 \/ n = 4 \/ n = 8) /\ c <> 0
  | Some (inl _) => c <> 0
  | None => True
  end.
Proof.
  unfold escape_of.
  repeat match goal with |- context [if ?b then _ else _] => destruct b eqn:? end; try done;
    repeat match goal with H : (_ || _) = true |- _ => apply orb_true_iff in H as [H|H] end;
    match goal with H : (c =? _) = true |- _ => apply Z.eqb_eq in H; subst c end;
    (split; [auto|discriminate]) || discriminate.
Qed.

Lemma wp_scan_escape sm x p :
  reach p false 2 p -> (char_at 0 p =? ch "\") = true ->
  wp strict (scan_escape sm x) (fun _ p' => reach p true 0 p') failed p.
Proof.
  intros Hp Hb. unfold scan_escape. total_step. eapply wp_eval; [eapply eval_byte_at; look|].
  pose proof (escape_of_cases (first_octet (char_at 1 p))) as He.
  assert (first_octet (char_at 1 p) <> 0 -> char_at 1 p <> 0) as Hz by (intros H E; by rewrite E in H).
  destruct (escape_of _) as [[bs|n]|]; [| |apply wp_scanner_error].
  - specialize (Hz He). total_run; reached.
  - destruct He as [Hn He]. specialize (Hz He). do 3 total_step.
    total_step. total_step.
    eapply step_CACHE; [done|reflexivity|unfold MAX_REQUEST; lia|]. intros q2 R2 _. total_step.
    eapply (wp_scan_hex (Z.to_nat n)); [by apply reach_cursor in R2|lia|lia|].
    intros Hh v. total_run. eapply step_skip_n; [done|intros j Hj; by apply single_hex, Hh|].
    intros q3 R3. total_run; reached.
Qed.

Lemma eval_quote n p single :
  looking n 0 p -> eval (CHECK_AT (quote_of single) 0) p (char_at 0 p =? quote_of single).
Proof. intros H. eapply eval_CHECK_AT; [done|]. by destruct single. Qed.

Definition quote_or_blank (single : bool) (c : Z) : Prop := c_blankz c = true \/ c = quote_of single.

(** The text of a quoted scalar: some is consumed, unless it starts with a
    blank, the NUL or the closing quote. *)
Lemma wp_quoted_text single sm x p :
  reach p false 2 p ->
  wp strict (scan_quoted_text single sm x)
    (fun _ q => reach p true 0 q \/ (q = p /\ quote_or_blank single (char_at 0 p))) failed p.
Proof.
  intros Hp. unfold scan_quoted_text. apply (progress_loop 2); [done|].
  intros y q Hs Hor.
  assert (forall q', reach q true 0 q' -> reach p true 0 q') as Htr.
  { intros q' H. destruct Hor as [->|Hor]; [done|]. by eapply (reach_trans p true true). }
  assert (quote_or_blank single (char_at 0 q) ->
          reach p true 0 q \/ (q = p /\ quote_or_blank single (char_at 0 p))) as Hend.
  { intros H. destruct Hor as [->|Hor]; [by right|left; reached]. }
  total_step; [wp_steps; apply Hend; by left|].
  total_step; [total_run; reached|].
  eapply wp_ifm; [eapply eval_quote; look|intros B1|intros B1].
  { wp_steps. apply Hend. right. lia. }
  total_step; [total_run; left; apply Htr; reached|].
  total_step; [split_tests; total_step; eapply wp_mono; [by apply wp_scan_escape| |done]|].
  - intros z q1 R1. cbv beta in R1. total_run; reached.
  - total_run; reached.
Qed.

(** A blank or a line break between words. *)
Lemma wp_one_blank b p :
  reach p false 1 p -> c_blank (char_at 0 p) || c_break (char_at 0 p) = true ->
  wp strict (scan_one_blank b) (fun _ q => reach p true 0 q) failed p.
Proof.
  intros Hp Hc. unfold scan_one_blank. destruct b.
  total_step; [total_run; reached|]. rewrite B in Hc. cbn in Hc. total_run; reached.
Qed.

Lemma wp_quoted_blanks b p :
  reach p false 1 p ->
  wp strict (scan_quoted_blanks b)
    (fun _ q => reach p (c_blank (char_at 0 p) || c_break (char_at 0 p)) 1 q) failed p.
Proof.
  intros Hp. unfold scan_quoted_blanks. apply (progress_loop 1); [done|]. intros b' q Hs Hor.
  total_step.
  - total_step. eapply wp_mono; [by apply wp_one_blank|cbv beta|done]. intros ? q1 R1. total_run; reached.
  - wp_steps. destruct Hor as [->|Hor]; [by rewrite B|by eapply reach_mono].
Qed.

(** One turn of the loop: a word and the blanks behind it. *)
Lemma blank_or_break c : c_blankz c = true -> c <> 0 -> c_blank c || c_break c = true.
Proof. unfold c_blankz, c_breakz. intros H Hz. destruct (c_blank c), (c_break c); try done. cbn in H. lia. Qed.

(** The step of the loop in front of a word: [CACHE], the checks for the end,
    and the word with what follows it; the second result is the exit. *)
Lemma wp_quoted_turn single sm b q :
  reach q false 0 q ->
  wp strict
    (CACHE 4;;
     ifm at_document_indicator then
       yaml_parser_set_scanner_error (Some "while scanning a quoted scalar") sm
         "found unexpected document indicator"
     else ifm IS_Z then
       yaml_parser_set_scanner_error (Some "while scanning a quoted scalar") sm
         "found unexpected end of stream"
     else
       CACHE 2;;
       r ← scan_quoted_text single sm b.(sb_string);
       CACHE 1;;
       ifm CHECK_AT (quote_of single) 0 then mret (inr r.1)
       else
         CACHE 1;;
         b ← scan_quoted_blanks
               (mkBufs r.1 b.(sb_leading_break) b.(sb_trailing_breaks) b.(sb_whitespaces) r.2);
         mret (inl (if (b.(sb_leading_blanks) : bool) then fold_breaks b else join_whitespaces b)))
    (fun r q' => match r with
                 | inl _ => reach q true 0 q'
                 | inr _ => reach q false 1 q' /\ char_at 0 q' <> 0
                 end) failed q.
Proof.
  intros Hq. total_step. total_step. total_step; [apply wp_scanner_error|].
  total_step; [apply wp_scanner_error|]. do 2 total_step. total_step.
  assert (quote_of single <> 0) as Hz by by destruct single.
  eapply wp_mono; [apply wp_quoted_text, (reach_start 2), R0|cbv beta|done].
  intros [s lead] q2 [R2|[-> Hb]].
  - pose proof (reach_trans _ _ _ _ _ _ _ R0 R2) as R3. cbn [orb] in R3. do 2 total_step.
    eapply wp_ifm; [eapply eval_quote; look|intros B2|intros B2].
    { wp_steps. split; [reached|]. intros E. lia. }
    do 3 total_step.
    eapply wp_mono; [apply wp_quoted_blanks, (reach_start 1), R4|cbv beta|done]. intros b' q5 R5. wp_steps.
    eapply reach_weaken; [|by apply Nat.le_0_l with (n := 1%nat)].
    by eapply (reach_trans q true).
  - wp_step. unfold wp at 1. rewrite (CACHE_ready _ 2) by (apply R0 || lia).
    eapply wp_ifm; [eapply eval_quote; look|intros B2|intros B2].
    { wp_steps. split; [reached|]. intros E. lia. }
    wp_step. unfold wp at 1. rewrite (CACHE_ready _ 2) by (apply R0 || lia). wp_step.
    assert (reach q1 false 1 q1) as R1 by (eapply reach_weaken; [apply (reach_start 2), R0|lia]).
    eapply wp_mono; [by apply wp_quoted_blanks|cbv beta|done].
    intros b' q5 R5. wp_steps. rewrite blank_or_break in R5.
    + eapply reach_weaken; [by eapply (reach_trans q false)|lia].
    + destruct Hb as [Hb|Hb]; [done|lia].
    + lia.
Qed.

Lemma scans_flow_scalar single :
  scans (fun c => c <> 0) (yaml_parser_scan_flow_scalar single).
Proof.
  intros p Hp Hc. unfold yaml_parser_scan_flow_scalar. do 5 total_step.
  eapply wp_mono; [apply (progress_loop 0 q _ _ (fun _ q' => reach q false 1 q' /\ char_at 0 q' <> 0));
                   [apply (reach_start 0), R|]|cbv beta|done].
  - intros b q1 H1 Hor. eapply wp_mono; [by apply wp_quoted_turn|cbv beta|done].
    intros [b'|x] q2 H2; [done|]. destruct H2 as [H2 Hz]. split; [|done].
    destruct Hor as [->|Hor]; [done|]. eapply reach_any. by eapply reach_trans.
  - intros x q1 [R1 Hz]. assert (reach p true 1 q1) as R2 by by eapply (reach_trans p true).
    total_run; reached.
Qed.

(** ** Plain scalars *)

Lemma wp_plain_text sm l p :
  reach p false 2 p ->
  wp strict (scan_plain_text sm l)
    (fun _ q => reach p true 2 q
                \/ (q = p /\ (c_blankz (char_at 0 p) = true \/ eval at_plain_end p true))) failed p.
Proof.
  intros Hp. unfold scan_plain_text. apply (progress_loop 2); [done|]. intros [b em] q Hs Hor.
  assert (c_blankz (char_at 0 q) = true \/ eval at_plain_end q true ->
          reach p true 2 q
          \/ (q = p /\ (c_blankz (char_at 0 p) = true \/ eval at_plain_end p true))) as Hend.
  { intros H. destruct Hor as [->|Hor]; [by right|by left]. }
  total_step; [wp_steps; apply Hend; by left|]. total_step; [apply wp_scanner_error|].
  eapply wp_ifm; [ev|intros B1|intros B1].
  - wp_steps. apply Hend. right. eapply eval_eq; [ev|exact B1].
  - total_run; reached.
Qed.

Lemma wp_plain_blanks sm ind b p :
  reach p false 1 p ->
  wp strict (scan_plain_blanks sm ind b)
    (fun _ q => reach p (c_blank (char_at 0 p) || c_break (char_at 0 p)) 1 q) failed p.
Proof.
  intros Hp. unfold scan_plain_blanks. apply (progress_loop 1); [done|]. intros b' q Hs Hor.
  total_step.
  - total_step; [apply wp_scanner_error|]. total_step.
    eapply wp_mono; [by apply wp_one_blank|cbv beta|done]. intros ? q1 R1. total_run; reached.
  - wp_steps. destruct Hor as [->|Hor]; [by rewrite B|by eapply reach_mono].
Qed.

Lemma wp_also {A} F (m : yaml_prog A) (Q Q' : A -> yaml_parser_t -> Prop) E p :
  wp F m Q E p -> (forall a p', m p = Ret a p' -> Q' a p') ->
  wp F m (fun a p' => Q a p' /\ Q' a p') E p.
Proof. unfold wp. destruct (m p); auto. Qed.

(** What the dispatcher has checked when it decides for a plain scalar. *)
Record plain_start (p : yaml_parser_t) : Prop := mkPlainStart {
  ps_cursor : cursor 4 p;
  ps_document : eval at_document_indicator p false;
  ps_comment : (char_at 0 p =? ch "#") = false;
  ps_blank : c_blankz (char_at 0 p) = false;
  ps_end : eval at_plain_end p false
}.

Lemma wp_plain_turn sm ind l q :
  reach q false 0 q ->
  wp strict
    (CACHE 4;;
     ifm at_document_indicator then mret (inr l)
     else ifm CHECK "#" then mret (inr l)
     else
       l ← scan_plain_text sm l;
       ifm notM (IS_BLANK ||| IS_BREAK) then mret (inr l)
       else
         CACHE 1;;
         b ← scan_plain_blanks sm ind l.1;
         ifm in_block &&& gets (fun p => int_of_size p.(reader).(mark).(column) <? ind)
         then mret (inr (b, l.2))
         else mret (inl (b, l.2)))
    (fun r q' => match r with
                 | inl _ => reach q true 0 q'
                 | inr _ => reach q false 0 q' /\ (plain_start q -> reach q true 0 q')
                 end) failed q.
Proof.
  intros Hq. wp_step.
  eapply wp_mono; [eapply (wp_also _ _ (fun _ q0 => reach q false 4 q0)
                             (fun _ q0 => plain_start q -> q0 = q))|cbv beta|done].
  { total_step. by wp_steps. }
  { intros a q0 E [Hc _ _ _ _]. rewrite (CACHE_ready _ 4) in E by (done || lia). by simplify_eq. }
  intros _ q0 [R Hq0].
  eapply wp_ifm; [ev|intros B|intros _].
  { wp_steps. split; [reached|]. intros H. rewrite (Hq0 H) in *. destruct H as [_ H _ _ _].
    assert (eval at_document_indicator q true) as H' by (eapply eval_eq; [ev|exact B]).
    unfold eval in *. congruence. }
  total_step.
  { wp_steps. split; [reached|]. intros H. rewrite (Hq0 H) in *. destruct H as [_ _ H _ _]. congruence. }
  wp_step. assert (reach q false 2 q0) as R2 by reached.
  eapply wp_mono; [apply wp_plain_text, (reach_start 2), R2|cbv beta|done].
  intros [b em] q1 Hor.
  assert (reach q false 2 q1 /\ (plain_start q -> reach q true 2 q1)) as [R3 R4].
  { destruct Hor as [Hor|[-> Hor]].
    - assert (reach q true 2 q1) by by eapply (reach_trans q false). split; [reached|done].
    - split; [done|]. intros H. rewrite (Hq0 H) in *. destruct H as [_ _ _ H1 H2].
      destruct Hor as [Hor|Hor]; [congruence|]. unfold eval in *. congruence. }
  total_step; [wp_steps; split; [reached|intros H; specialize (R4 H); reached]|]. split_tests.
  do 3 total_step. eapply wp_mono; [apply wp_plain_blanks, (reach_start 1), R0|cbv beta|done].
  intros b' q3 R5. rewrite B0 in R5.
  assert (reach q true 0 q3) as R6 by (eapply reach_weaken; [by eapply (reach_trans q false)|lia]).
  total_run; [split; [reached|done]|done].
Qed.

Lemma scans_plain_scalar p :
  plain_start p ->
  wp strict yaml_parser_scan_plain_scalar (fun _ p' => reach p true 0 p') failed p.
Proof.
  intros Hp. unfold yaml_parser_scan_plain_scalar. do 5 total_step.
  eapply wp_mono; [apply (progress_loop 0 p _ _ (fun _ q' => reach p true 0 q'))|cbv beta|done].
  - apply reach_start. eapply cursor_weaken; [apply Hp|lia].
  - intros l q Hq Hor. eapply wp_mono; [by apply wp_plain_turn|cbv beta|done].
    intros [l'|x] q' H; [done|]. destruct H as [H1 H2]. destruct Hor as [->|Hor]; [by apply H2|].
    by eapply (reach_trans p true).
  - intros r q R. total_run; reached.
Qed.
