(* ===== verification/YamlTotal.v ===== *)
(** * libyaml: the scanner is total

    The bookkeeping of the scanner (simple keys, flow levels, indentation,
    the queue of tokens) under the invariant that its stacks match its levels
    and that every potential simple key points into the queue; every fetcher
    returns or fails with an error, and the number of tokens still to come is
    bounded by the octets to come. *)

From Stdlib Require Import ZArith Lia Ascii String.
From stdpp Require Import base list option strings.
From S2P Require Import Prelude YamlData YamlReader YamlChars YamlScanner YamlParser.
From S2P Require Import YamlEvents YamlRefinement YamlFrame YamlLevels YamlUtf8 YamlBuffer.
From S2P Require Import YamlCursor YamlSafe.

#[local] Open Scope Z_scope.
#[local] Open Scope yaml_scope.

(** ** The invariant in the course of a fetch *)

Definition has_end (ts : list yaml_token_t) : bool := existsb is_end ts.

Lemma has_end_app a b : has_end (a ++ b) = has_end a || has_end b.
Proof. apply existsb_app. Qed.

Definition queue_length (p : yaml_parser_t) : Z := Z.of_nat (length p.(scanner).(tokens)).
Definition indent_count (p : yaml_parser_t) : Z := Z.of_nat (length p.(scanner).(indents).(items)).

(** A potential simple key points to a token of the queue, or right behind its
    end, and was seen no later than at the position [m]. *)
Definition key_ok (m : yaml_mark_t) (lo len : Z) (k : yaml_simple_key_t) : Prop :=
  k.(possible) = true ->
  lo <= k.(token_number) <= lo + len /\ mark_le k.(key_mark) m /\ 0 <= k.(key_mark).(column).

(** From [p0], the start of the fetch, to [p]: [c] bounds what was added to the
    queue and the indents; nothing is read before [s]. *)
Record ops (p0 : yaml_parser_t) (s : bool) (n : nat) (c : Z) (p : yaml_parser_t) : Prop := mkOps {
  op_reach : reach p0 s n p;
  op_still : s = false -> p.(reader) = p0.(reader);
  op_levels : levels p.(scanner);
  op_started : p.(scanner).(stream_start_produced) = true;
  op_parsed : p.(scanner).(tokens_parsed) = p0.(scanner).(tokens_parsed)
              /\ 0 <= p.(scanner).(tokens_parsed);
  op_closed : p.(scanner).(stream_end_produced) = p0.(scanner).(stream_end_produced);
  op_end : has_end p.(scanner).(tokens) = has_end p0.(scanner).(tokens);
  op_queue : queue_length p0 <= queue_length p;
  op_size : queue_length p + indent_count p <= queue_length p0 + indent_count p0 + c;
  op_keys : Forall (key_ok p0.(reader).(mark) p.(scanner).(tokens_parsed) (queue_length p))
              p.(scanner).(simple_keys).(items)
}.

Lemma key_ok_grow m lo len len' k : key_ok m lo len k -> len <= len' -> key_ok m lo len' k.
Proof. intros H Hl Hp. destruct (H Hp) as (? & ? & ?). repeat split; try done; lia. Qed.

Lemma key_ok_unset m lo len k : key_ok m lo len (key_unset k).
Proof. by intros ?. Qed.

Section ops_steps.
Context (p0 : yaml_parser_t) (n : nat) (c : Z).

(** Changes of the scanner that leave the queue, the indents and the counters
    alone. *)
Lemma ops_same s p q :
  ops p0 s n c p -> q.(reader) = p.(reader) -> levels q.(scanner) ->
  q.(scanner).(stream_start_produced) = p.(scanner).(stream_start_produced) ->
  q.(scanner).(tokens_parsed) = p.(scanner).(tokens_parsed) ->
  q.(scanner).(stream_end_produced) = p.(scanner).(stream_end_produced) ->
  q.(scanner).(tokens) = p.(scanner).(tokens) -> q.(scanner).(indents) = p.(scanner).(indents) ->
  Forall (key_ok p0.(reader).(mark) p.(scanner).(tokens_parsed) (queue_length p))
    q.(scanner).(simple_keys).(items) ->
  ops p0 s n c q.
Proof.
  intros [H1 H2 H3 H4 H5 H6 H7 H8 H9 H10] E1 E2 E3 E4 E5 E6 E7 E8.
  unfold queue_length, indent_count in *.
  constructor; unfold queue_length, indent_count; rewrite ?E1, ?E3, ?E4, ?E5, ?E6, ?E7; auto.
  by eapply reach_reader.
Qed.

Lemma ops_allowed s p b : ops p0 s n c p -> ops p0 s n c (set_simple_key_allowed b p).
Proof.
  intros H. eapply ops_same; try done; [|apply H]. destruct (op_levels _ _ _ _ _ H). by constructor.
Qed.

Lemma ops_set_keys s p ks :
  ops p0 s n c p -> length ks = length p.(scanner).(simple_keys).(items) ->
  Forall (key_ok p0.(reader).(mark) p.(scanner).(tokens_parsed) (queue_length p)) ks ->
  ops p0 s n c (set_key_items ks p).
Proof.
  intros H Hl Hk. eapply ops_same; try done.
  destruct (op_levels _ _ _ _ _ H). constructor; cbn; by rewrite ?Hl.
Qed.

(** The key of the current flow level. *)
Lemma ops_top s p : ops p0 s n c p ->
  exists k ks, p.(scanner).(simple_keys).(items) = k :: ks
    /\ key_ok p0.(reader).(mark) p.(scanner).(tokens_parsed) (queue_length p) k
    /\ Forall (key_ok p0.(reader).(mark) p.(scanner).(tokens_parsed) (queue_length p)) ks.
Proof.
  intros H. pose proof (op_keys _ _ _ _ _ H) as Hk. destruct (op_levels _ _ _ _ _ H) as [L1 L2 _].
  destruct (items _) as [|k ks]; [cbn in L2; lia|]. apply Forall_cons in Hk as [Hk1 Hk2].
  by exists k, ks.
Qed.

Lemma step_set_top s p k (Q : unit -> yaml_parser_t -> Prop) :
  ops p0 s n c p -> key_ok p0.(reader).(mark) p.(scanner).(tokens_parsed) (queue_length p) k ->
  (forall p', ops p0 s n c p' -> p'.(scanner).(tokens_parsed) = p.(scanner).(tokens_parsed) ->
     queue_length p' = queue_length p -> Q tt p') ->
  wp strict (set_top_simple_key k) Q failed p.
Proof.
  intros H Hk HQ. destruct (ops_top _ _ H) as (k0 & ks & E & H1 & H2).
  unfold set_top_simple_key. wp_steps. rewrite E. wp_steps. apply HQ; [|done|done].
  apply ops_set_keys; [done|by rewrite E|by constructor].
Qed.

Lemma step_remove_simple_key s p (Q : unit -> yaml_parser_t -> Prop) :
  ops p0 s n c p ->
  (forall p', ops p0 s n c p' -> p'.(scanner).(tokens_parsed) = p.(scanner).(tokens_parsed) ->
     queue_length p' = queue_length p -> Q tt p') ->
  wp strict yaml_parser_remove_simple_key Q failed p.
Proof.
  intros H HQ. destruct (ops_top _ _ H) as (k0 & ks & E & H1 & H2).
  unfold yaml_parser_remove_simple_key, top_simple_key. wp_steps. rewrite E. wp_steps.
  destruct (_ && _); [apply wp_scanner_error|]. by eapply step_set_top; [|apply key_ok_unset|].
Qed.

Lemma step_save_simple_key p (Q : unit -> yaml_parser_t -> Prop) :
  ops p0 false n c p -> (forall p', ops p0 false n c p' -> Q tt p') ->
  wp strict yaml_parser_save_simple_key Q failed p.
Proof.
  intros H HQ. unfold yaml_parser_save_simple_key, get_simple_key_allowed, get_mark. wp_steps.
  destruct (simple_key_allowed _); [|wp_steps; by apply HQ]. wp_steps.
  pose proof (cu_column _ _ (reach_cursor _ _ _ _ (op_reach _ _ _ _ _ H))) as Hc.
  rewrite (op_still _ _ _ _ _ H eq_refl) in *.
  eapply step_remove_simple_key; [done|]. intros p1 H1 E1 E2. eapply step_set_top; [done| |by eauto].
  intros _. cbn. rewrite E1, E2. unfold queue_length. split; [lia|].
  split; [right; lia|done].
Qed.

(** ** The queue and the stacks *)

Lemma ops_add s p t q d :
  ops p0 s n c p -> is_end t = false -> q.(reader) = p.(reader) -> levels q.(scanner) ->
  q.(scanner).(stream_start_produced) = p.(scanner).(stream_start_produced) ->
  q.(scanner).(tokens_parsed) = p.(scanner).(tokens_parsed) ->
  q.(scanner).(stream_end_produced) = p.(scanner).(stream_end_produced) ->
  (exists a b, p.(scanner).(tokens) = a ++ b /\ q.(scanner).(tokens) = a ++ t :: b) ->
  indent_count q = indent_count p + d ->
  q.(scanner).(simple_keys) = p.(scanner).(simple_keys) ->
  ops p0 s n (c + 1 + d) q.
Proof.
  intros [H1 H2 H3 H4 H5 H6 H7 H8 H9 H10] Ht E1 E2 E3 E4 E5 (a & b & Ea & Eb) E7 E8.
  assert (queue_length q = queue_length p + 1) as Hq.
  { unfold queue_length. rewrite Ea, Eb, !length_app. cbn. lia. }
  constructor; rewrite ?E1, ?E3, ?E4, ?E5, ?E8; auto; try lia.
  - by eapply reach_reader.
  - rewrite Eb, has_end_app. cbn. rewrite Ht. cbn. rewrite <- H7, Ea, has_end_app. done.
  - eapply Forall_impl; [done|]. intros k Hk. eapply key_ok_grow; [done|lia].
Qed.

Lemma step_ENQUEUE s p t (Q : unit -> yaml_parser_t -> Prop) :
  ops p0 s n c p -> is_end t = false -> (forall p', ops p0 s n (c + 1) p' -> Q tt p') ->
  wp strict (ENQUEUE t) Q failed p.
Proof.
  intros H Ht HQ. unfold ENQUEUE. wp_steps. apply HQ. rewrite <- (Z.add_0_r (c + 1)).
  eapply (ops_add s p t); try done.
  - destruct (op_levels _ _ _ _ _ H). by constructor.
  - exists p.(scanner).(tokens), []. by rewrite app_nil_r.
  - unfold indent_count. cbn. lia.
Qed.

Lemma step_QUEUE_INSERT s p i t (Q : unit -> yaml_parser_t -> Prop) :
  ops p0 s n c p -> is_end t = false -> 0 <= i <= queue_length p ->
  (forall p', ops p0 s n (c + 1) p' -> p'.(scanner).(tokens_parsed) = p.(scanner).(tokens_parsed) ->
     queue_length p' = queue_length p + 1 ->
     p'.(scanner).(simple_keys) = p.(scanner).(simple_keys) -> Q tt p') ->
  wp strict (QUEUE_INSERT i t) Q failed p.
Proof.
  intros H Ht Hi HQ. unfold QUEUE_INSERT. wp_steps. unfold queue_length in Hi.
  assert (((0 <=? i) && (i <=? Z.of_nat (length (tokens (scanner p))))) = true) as ->.
  { apply andb_true_iff. split; apply Z.leb_le; lia. }
  wp_steps. apply HQ; try done.
  - rewrite <- (Z.add_0_r (c + 1)). eapply (ops_add s p t); try done.
    + destruct (op_levels _ _ _ _ _ H). by constructor.
    + exists (take (Z.to_nat i) p.(scanner).(tokens)), (drop (Z.to_nat i) p.(scanner).(tokens)).
      by rewrite take_drop.
    + unfold indent_count. cbn. lia.
  - unfold queue_length. cbn. rewrite length_app, length_take. cbn. rewrite length_drop. lia.
Qed.

(** A new level: its token goes to the end of the queue, or in front of the
    token of a key. *)
Lemma step_roll_indent s p col number type m (Q : unit -> yaml_parser_t -> Prop) :
  ops p0 s n c p -> is_end (TOKEN_INIT type m m) = false ->
  number = -1 \/ 0 <= number - p.(scanner).(tokens_parsed) <= queue_length p ->
  (forall p', ops p0 s n (c + 2) p' ->
     p'.(scanner).(simple_keys) = p.(scanner).(simple_keys) -> Q tt p') ->
  wp strict (yaml_parser_roll_indent col number type m) Q failed p.
Proof.
  intros H Ht Hnum HQ. unfold yaml_parser_roll_indent, ifM, in_flow. wp_steps.
  assert (ops p0 s n (c + 2) p) as Hmore.
  { destruct H. constructor; try done. lia. }
  destruct (negb _); wp_steps; [by apply HQ|].
  destruct (_ <? col) eqn:Ec; wp_steps; [|by apply HQ]. apply Z.ltb_lt in Ec.
  apply wp_PUSH. intros cap. destruct (col >? INT_MAX); [apply wp_memory_error|]. wp_steps.
  set (q := set_indent _ _). pose proof (op_parsed _ _ _ _ _ H) as [_ Hpos].
  assert (levels q.(scanner)) as Hl by (destruct (op_levels _ _ _ _ _ H); by constructor).
  assert (forall a b, p.(scanner).(tokens) = a ++ b ->
            ops p0 s n (c + 2) (set_tokens (a ++ TOKEN_INIT type m m :: b) q)) as Hadd.
  { intros a b Hab. replace (c + 2) with (c + 1 + 1) by lia.
    eapply (ops_add s p (TOKEN_INIT type m m)); try done; [by destruct Hl; constructor|by exists a, b|].
    unfold indent_count. cbn. lia. }
  destruct (number =? -1) eqn:En.
  - unfold ENQUEUE. wp_steps. apply HQ; [|done]. apply (Hadd p.(scanner).(tokens) []).
    by rewrite app_nil_r.
  - apply Z.eqb_neq in En. destruct Hnum as [|Hnum]; [done|]. unfold QUEUE_INSERT. wp_steps.
    unfold queue_length in Hnum. cbn. set (i := number - _) in *.
    assert (((0 <=? i) && (i <=? Z.of_nat (length (tokens (scanner p))))) = true) as ->.
    { apply andb_true_iff. split; apply Z.leb_le; lia. }
    wp_steps. apply HQ; [|done]. apply Hadd. by rewrite take_drop.
Qed.

Lemma step_unroll_indent s p col (Q : unit -> yaml_parser_t -> Prop) :
  ops p0 s n c p -> -1 <= col -> (forall p', ops p0 s n c p' -> Q tt p') ->
  wp strict (yaml_parser_unroll_indent col) Q failed p.
Proof.
  intros H Hcol HQ. pose proof (op_levels _ _ _ _ _ H) as [L1 L2 L3].
  destruct (Z.eq_dec p.(scanner).(flow_level) 0) as [E|E].
  2:{ unfold yaml_parser_unroll_indent, ifM, in_flow. wp_steps.
      rewrite (proj2 (Z.eqb_neq _ _) E). cbn [negb]. wp_steps. by apply HQ. }
  unfold wp. rewrite unroll_indent_eq by done. apply HQ.
  destruct (deeper_levels_chain col _ _ Hcol L3) as (G1 & G2 & G3). set (k := deeper_levels _ _ _) in *.
  assert (queue_length (close_levels k p) = queue_length p + Z.of_nat k) as Eq.
  { unfold queue_length. cbn. rewrite length_app, length_replicate. lia. }
  destruct H as [H1 H2 H3 H4 H5 H6 H7 H8 H9 H10]. constructor; try done.
  - by eapply reach_reader.
  - cbn. rewrite has_end_app, H7. clear. induction k; cbn; [by rewrite orb_false_r|done].
  - lia.
  - unfold indent_count in *. cbn. rewrite length_drop. lia.
  - eapply Forall_impl; [done|]. intros x Hx. eapply key_ok_grow; [done|lia].
Qed.

Lemma step_increase_flow_level s p (Q : unit -> yaml_parser_t -> Prop) :
  ops p0 s n c p -> (forall p', ops p0 s n c p' -> Q tt p') ->
  wp strict yaml_parser_increase_flow_level Q failed p.
Proof.
  intros H HQ. unfold yaml_parser_increase_flow_level. wp_step. apply wp_PUSH. intros cap. wp_steps.
  destruct (_ =? INT_MAX); [apply wp_memory_error|]. wp_steps. apply HQ.
  pose proof (op_keys _ _ _ _ _ H) as Hk. eapply ops_same; try done.
  - destruct (op_levels _ _ _ _ _ H). constructor; cbn in *; try done; lia.
  - cbn. by constructor.
Qed.

Lemma step_decrease_flow_level s p (Q : unit -> yaml_parser_t -> Prop) :
  ops p0 s n c p -> (forall p', ops p0 s n c p' -> Q tt p') ->
  wp strict yaml_parser_decrease_flow_level Q failed p.
Proof.
  intros H HQ. unfold yaml_parser_decrease_flow_level, pop_simple_key, POP. wp_steps.
  destruct (_ =? 0) eqn:E; wp_steps; [by apply HQ|]. apply Z.eqb_neq in E.
  destruct (ops_top _ _ H) as (k & ks & Ek & H1 & H2). cbn. rewrite Ek. wp_steps. apply HQ.
  eapply ops_same; try done.
  destruct (op_levels _ _ _ _ _ H) as [L1 L2 L3]. rewrite Ek in L2.
  constructor; cbn in *; try done; lia.
Qed.
End ops_steps.

(** ** The fetchers *)

Lemma ops_weaken p0 s n c c' p : ops p0 s n c p -> c <= c' -> ops p0 s n c' p.
Proof. intros [] Hc. constructor; try done. lia. Qed.

Lemma ops_ready p0 s n m c p : ops p0 s n c p -> (m <= n)%nat -> ops p0 s m c p.
Proof. intros [] Hm. constructor; try done. by eapply reach_weaken. Qed.

Lemma ops_char p0 n c p k : ops p0 false n c p -> char_at k p = char_at k p0.
Proof. intros H. unfold char_at. by rewrite (op_still _ _ _ _ _ H eq_refl). Qed.

(** A scan moves the cursor and leaves the scanner's levels alone. *)
Lemma ops_read p0 s n n' c p q :
  ops p0 s n c p -> reach p true n' q -> scan_only p q -> ops p0 true n' c q.
Proof.
  intros [H1 H2 H3 H4 H5 H6 H7 H8 H9 H10] Hr [(S1 & S2 & S3 & S4 & S5 & S6 & S7 & S8 & S9) _ _].
  unfold queue_length, indent_count in *.
  constructor; unfold queue_length, indent_count; rewrite ?S1, ?S2, ?S4, ?S5, ?S7, ?S9; auto.
  - rewrite <- (orb_true_r s). by eapply reach_trans.
  - done.
  - destruct H3. constructor; by rewrite ?S3, ?S7, ?S8, ?S9.
Qed.

(** What holds when the dispatcher chooses a fetcher. *)
Definition fetch_pre (p : yaml_parser_t) : Prop := ops p false 4 0 p.

(** A fetcher that starts at a character in [P] returns with its tokens in the
    queue, having consumed some text. *)
Definition fetches (P : Z -> Prop) (m : yaml_prog unit) : Prop :=
  forall p, fetch_pre p -> P (char_at 0 p) -> wp strict m (fun _ p' => ops p true 0 4 p') failed p.

Lemma ops_SKIP p0 s n c p (Q : unit -> yaml_parser_t -> Prop) :
  ops p0 s (S n) c p -> char_at 0 p <> 0 ->
  (forall q, ops p0 true n c q ->
     (single_octet (char_at 0 p) -> forall k, char_at k q = char_at (S k) p) -> Q tt q) ->
  wp strict SKIP Q failed p.
Proof.
  intros H Hz HQ. pose proof (reach_start _ _ (reach_cursor _ _ _ _ (op_reach _ _ _ _ _ H))) as R.
  eapply wp_mono; [eapply wp_strict_lax; [|apply so_of_ro, ro_SKIP]|cbv beta|done].
  { eapply (step_SKIP _ _ _ _ (fun _ q => reach p true n q /\
      (single_octet (char_at 0 p) -> forall k, char_at k q = char_at (S k) p))); [exact R|done|].
    by intros. }
  intros [] q [[Rq Kq] Sq]. apply HQ; [by eapply ops_read|done].
Qed.

Lemma step_fetch_indicator p0 n c p type :
  ops p0 false (S n) c p -> char_at 0 p0 <> 0 -> c <= 3 ->
  (forall a b, is_end (TOKEN_INIT type a b) = false) ->
  wp strict (fetch_indicator type) (fun _ p' => ops p0 true 0 4 p') failed p.
Proof.
  intros H Hz Hc Ht. unfold fetch_indicator, get_mark. wp_steps.
  eapply ops_SKIP; [done|by rewrite (ops_char _ _ _ _ 0 H)|]. intros q Hq _. wp_steps.
  eapply step_ENQUEUE; [done|apply Ht|]. intros p' H'.
  apply (ops_ready _ _ n); [|lia]. eapply ops_weaken; [done|lia].
Qed.

Lemma step_scan_token p0 n c p (m : yaml_prog yaml_token_t) :
  ops p0 false n c p -> c <= 3 ->
  wp strict m (fun _ q => reach p true 0 q) failed p -> sat scan_only m -> res plain_token m ->
  wp strict (t ← m; ENQUEUE t) (fun _ p' => ops p0 true 0 4 p') failed p.
Proof.
  intros H Hc Hm Hs Ht. wp_step.
  eapply wp_mono; [eapply wp_strict_lax; [exact Hm|apply wp_and; [apply Hs|apply Ht]]|cbv beta|done].
  intros t q (Rq & Sq & _ & Tq). eapply (step_ENQUEUE p0 0 c true); [by eapply ops_read|done|].
  intros p' H'. eapply ops_weaken; [done|lia].
Qed.

(** [book]: a step of the bookkeeping in front of a scan. *)
Ltac book_one :=
  let q := fresh "q" in let O := fresh "O" in
  lazymatch goal with
  | |- wp _ (_ ≫= (fun t => ENQUEUE t)) _ _ _ => fail
  | |- wp _ (_ ≫= _) _ _ _ => apply wp_bind
  | |- wp _ yaml_parser_save_simple_key _ _ _ =>
      eapply step_save_simple_key; [eassumption|intros q O]
  | |- wp _ yaml_parser_remove_simple_key _ _ _ =>
      eapply step_remove_simple_key; [eassumption|intros q O _ _]
  | |- wp _ yaml_parser_increase_flow_level _ _ _ =>
      eapply step_increase_flow_level; [eassumption|intros q O]
  | |- wp _ yaml_parser_decrease_flow_level _ _ _ =>
      eapply step_decrease_flow_level; [eassumption|intros q O]
  | |- wp _ (yaml_parser_unroll_indent _) _ _ _ =>
      eapply step_unroll_indent; [eassumption|lia|intros q O]
  | |- wp _ (modify (set_simple_key_allowed ?b)) _ _ ?p =>
      apply wp_modify;
      match goal with H : ops ?a ?s ?n ?c p |- _ =>
        pose proof (ops_allowed a n c s p b H) as O end
  | |- wp _ (mret _) _ _ _ => apply wp_ret
  | |- wp _ (gets _) _ _ _ => apply wp_gets
  | |- wp _ get_mark _ _ _ => apply wp_gets
  | |- wp _ in_block _ _ _ => apply wp_gets
  | |- wp _ get_simple_key_allowed _ _ _ => apply wp_gets
  end; cbv beta.
Ltac book := repeat book_one.

Lemma fetches_flow_start type :
  (forall a b, is_end (TOKEN_INIT type a b) = false) ->
  fetches (fun c => c <> 0) (yaml_parser_fetch_flow_collection_start type).
Proof.
  intros Ht p Hp Hz. unfold fetch_pre in Hp. unfold yaml_parser_fetch_flow_collection_start. book.
  by eapply step_fetch_indicator.
Qed.

Lemma fetches_flow_end type :
  (forall a b, is_end (TOKEN_INIT type a b) = false) ->
  fetches (fun c => c <> 0) (yaml_parser_fetch_flow_collection_end type).
Proof.
  intros Ht p Hp Hz. unfold fetch_pre in Hp. unfold yaml_parser_fetch_flow_collection_end. book.
  by eapply step_fetch_indicator.
Qed.

Lemma fetches_flow_entry : fetches (fun c => c <> 0) yaml_parser_fetch_flow_entry.
Proof.
  intros p Hp Hz. unfold fetch_pre in Hp. unfold yaml_parser_fetch_flow_entry. book.
  by eapply step_fetch_indicator.
Qed.

(** The scans, with the character they start at. *)
Lemma scans_at {A} P (m : yaml_prog A) p0 n c p :
  scans P m -> ops p0 false (S n) c p -> P (char_at 0 p0) ->
  wp strict m (fun _ q => reach p true 0 q) failed p.
Proof.
  intros Hm H HP. apply Hm; [|by rewrite (ops_char _ _ _ _ 0 H)].
  eapply reach_weaken; [eapply reach_start, reach_cursor, op_reach, H|lia].
Qed.

Lemma fetches_directive : fetches (fun c => c <> 0) yaml_parser_fetch_directive.
Proof.
  intros p Hp Hz. unfold fetch_pre in Hp. unfold yaml_parser_fetch_directive. book.
  eapply step_scan_token; [done|lia|by eapply scans_at; [apply scans_directive| |]| |].
  - apply so_of_ro. auto with sat.
  - apply res_scan_directive.
Qed.

Lemma fetches_anchor alias : fetches (fun c => c <> 0) (yaml_parser_fetch_anchor alias).
Proof.
  intros p Hp Hz. unfold fetch_pre in Hp. unfold yaml_parser_fetch_anchor. book.
  eapply step_scan_token; [done|lia|by eapply scans_at; [apply scans_anchor| |]| |].
  - apply so_of_ro. auto with sat.
  - apply res_scan_anchor.
Qed.

Lemma fetches_tag : fetches (fun c => c = ch "!") yaml_parser_fetch_tag.
Proof.
  intros p Hp Hz. unfold fetch_pre in Hp. unfold yaml_parser_fetch_tag. book.
  eapply step_scan_token; [done|lia|by eapply scans_at; [apply scans_tag| |]| |].
  - apply so_of_ro. auto with sat.
  - apply res_scan_tag.
Qed.

Lemma fetches_block_scalar literal : fetches (fun c => c <> 0) (yaml_parser_fetch_block_scalar literal).
Proof.
  intros p Hp Hz. unfold fetch_pre in Hp. unfold yaml_parser_fetch_block_scalar. book.
  eapply step_scan_token; [done|lia|by eapply scans_at; [apply scans_block_scalar| |]| |].
  - apply so_of_ro. auto with sat.
  - apply res_scan_block_scalar.
Qed.

Lemma fetches_flow_scalar single : fetches (fun c => c <> 0) (yaml_parser_fetch_flow_scalar single).
Proof.
  intros p Hp Hz. unfold fetch_pre in Hp. unfold yaml_parser_fetch_flow_scalar. book.
  eapply step_scan_token; [done|lia|by eapply scans_at; [apply scans_flow_scalar| |]| |].
  - apply so_of_ro. auto with sat.
  - apply res_scan_flow_scalar.
Qed.

(** The checks of the dispatcher still hold after the bookkeeping. *)
Lemma plain_start_same p q :
  plain_start p -> q.(reader) = p.(reader) -> q.(scanner).(flow_level) = p.(scanner).(flow_level) ->
  plain_start q.
Proof.
  intros [H1 H2 H3 H4 H5] Er Ef.
  assert (forall k, char_at k q = char_at k p) as Hc by (intros k; unfold char_at; by rewrite Er).
  assert (cursor 4 q) as Hq by by eapply cursor_reader.
  constructor; rewrite ?Hc; try done.
  - assert (exists b, eval at_document_indicator p b /\ eval at_document_indicator q b) as (b & Hb & Hb').
    { eexists. split; [ev|]. eapply eval_eq; [ev|]. by rewrite !Hc, Er. }
    unfold eval in *. congruence.
  - assert (exists b, eval at_plain_end p b /\ eval at_plain_end q b) as (b & Hb & Hb').
    { eexists. split; [ev|]. eapply eval_eq; [ev|]. by rewrite !Hc, Ef. }
    unfold eval in *. congruence.
Qed.

Lemma save_simple_key_flow p :
  wp lax yaml_parser_save_simple_key
    (fun _ p' => p'.(scanner).(flow_level) = p.(scanner).(flow_level)) failed p.
Proof.
  unfold yaml_parser_save_simple_key, yaml_parser_remove_simple_key, top_simple_key,
    set_top_simple_key, get_simple_key_allowed, get_mark. wp_steps.
  destruct (simple_key_allowed _); [|by wp_steps]. wp_steps.
  destruct (items _) eqn:E; [done|]. wp_steps. destruct (_ && _); [apply wp_scanner_error|].
  wp_steps. rewrite E. wp_steps. by cbn.
Qed.

Lemma fetches_plain_scalar p :
  fetch_pre p -> plain_start p ->
  wp strict yaml_parser_fetch_plain_scalar (fun _ p' => ops p true 0 4 p') failed p.
Proof.
  intros Hp Hs. unfold fetch_pre in Hp. unfold yaml_parser_fetch_plain_scalar. wp_step.
  eapply wp_mono; [eapply wp_strict_lax; [|apply save_simple_key_flow]|cbv beta|done].
  { eapply (step_save_simple_key p 4 0 p (fun _ q => ops p false 4 0 q)); [done|by intros]. }
  intros [] q [Hq Ef]. book.
  eapply step_scan_token; [done|lia|apply scans_plain_scalar|apply so_scan_plain_scalar
                          |apply res_scan_plain_scalar].
  eapply plain_start_same; [done|apply (op_still _ _ _ _ _ O eq_refl)|done].
Qed.

Lemma fetches_document_indicator type p :
  (forall a b, is_end (TOKEN_INIT type a b) = false) -> fetch_pre p ->
  (forall k, (k < 3)%nat -> single_octet (char_at k p)) ->
  wp strict (yaml_parser_fetch_document_indicator type) (fun _ p' => ops p true 0 4 p') failed p.
Proof.
  intros Ht Hp Hk. unfold fetch_pre in Hp. unfold yaml_parser_fetch_document_indicator. book.
  assert (forall k, char_at k (set_simple_key_allowed false q0) = char_at k p) as Hc
    by (intros k; eapply ops_char; exact O1).
  eapply ops_SKIP; [done|by rewrite Hc; apply single_nonzero, Hk; lia|]. intros q1 O2 K1. wp_steps.
  assert (forall k, char_at k q1 = char_at (S k) p) as Hc1.
  { intros k. rewrite K1, Hc; [done|]. rewrite Hc. apply Hk. lia. }
  eapply ops_SKIP; [done|by rewrite Hc1; apply single_nonzero, Hk; lia|]. intros q2 O3 K2. wp_steps.
  assert (forall k, char_at k q2 = char_at (S (S k)) p) as Hc2.
  { intros k. rewrite K2, Hc1; [done|]. rewrite Hc1. apply Hk. lia. }
  eapply ops_SKIP; [done|by rewrite Hc2; apply single_nonzero, Hk; lia|]. intros q3 O4 _. book.
  eapply step_ENQUEUE; [done|apply Ht|]. intros p' H'. apply (ops_ready _ _ 1); [|lia].
  eapply ops_weaken; [done|lia].
Qed.

(** A block indicator opens a level. *)
Lemma step_block_indicator p0 n p msg type (Q : unit -> yaml_parser_t -> Prop) :
  ops p0 false n 0 p -> (forall a b, is_end (TOKEN_INIT type a b) = false) ->
  (forall p', ops p0 false n 2 p' -> Q tt p') ->
  wp strict (block_indicator msg type) Q failed p.
Proof.
  intros H Ht HQ. unfold block_indicator. book.
  destruct (negb _); [apply wp_scanner_error|].
  eapply step_roll_indent; [done|apply Ht|by left|]. intros p' H' _. by apply HQ.
Qed.

Lemma fetches_block_entry : fetches (fun c => c <> 0) yaml_parser_fetch_block_entry.
Proof.
  intros p Hp Hz. unfold fetch_pre in Hp. unfold yaml_parser_fetch_block_entry. wp_step.
  assert (forall q, ops p false 4 2 q -> wp strict
    (yaml_parser_remove_simple_key;; modify (set_simple_key_allowed true);;
     fetch_indicator YAML_BLOCK_ENTRY_TOKEN) (fun _ p' => ops p true 0 4 p') failed q) as Hrest.
  { intros q Hq. book. eapply step_fetch_indicator; try done. }
  eapply wp_ifm; [apply eval_gets|intros _|intros _].
  - eapply step_block_indicator; [done|done|]. exact Hrest.
  - wp_step. apply Hrest. eapply ops_weaken; [done|lia].
Qed.

Lemma fetches_key : fetches (fun c => c <> 0) yaml_parser_fetch_key.
Proof.
  intros p Hp Hz. unfold fetch_pre in Hp. unfold yaml_parser_fetch_key. wp_step.
  assert (forall q, ops p false 4 2 q -> wp strict
    (yaml_parser_remove_simple_key;; b ← in_block; modify (set_simple_key_allowed b);;
     fetch_indicator YAML_KEY_TOKEN) (fun _ p' => ops p true 0 4 p') failed q) as Hrest.
  { intros q Hq. book. eapply step_fetch_indicator; try done. }
  eapply wp_ifm; [apply eval_gets|intros _|intros _].
  - eapply step_block_indicator; [done|done|]. exact Hrest.
  - wp_step. apply Hrest. eapply ops_weaken; [done|lia].
Qed.

(** The value of a simple key: the KEY token and the start of a block mapping
    are put in front of the key. *)
Lemma fetches_value : fetches (fun c => c <> 0) yaml_parser_fetch_value.
Proof.
  intros p Hp Hz. unfold fetch_pre in Hp. unfold yaml_parser_fetch_value, top_simple_key.
  destruct (ops_top _ _ _ _ _ Hp) as (k & ks & Ek & Hk & _). wp_steps. rewrite Ek. wp_steps.
  destruct (possible k) eqn:Epos; wp_steps.
  - destruct (Hk Epos) as (Hnum & _ & _).
    eapply step_QUEUE_INSERT; [done|done|lia|]. intros p1 O1 E1 E2 E3. wp_steps.
    eapply step_roll_indent; [done|done|right; lia|]. intros p2 O2 E4. wp_steps.
    eapply step_set_top; [done|apply key_ok_unset|]. intros p3 O3 _ _. book.
    eapply step_fetch_indicator; try done.
  - assert (forall q, ops p false 4 2 q -> wp strict
      (b ← in_block; modify (set_simple_key_allowed b))
      (fun _ p' => wp strict (fetch_indicator YAML_VALUE_TOKEN) (fun _ p' => ops p true 0 4 p') failed p')
      failed q) as Hrest.
    { intros q Hq. book. eapply step_fetch_indicator; try done. }
    eapply wp_ifm; [apply eval_gets|intros _|intros _].
    + eapply step_block_indicator; [done|done|]. exact Hrest.
    + wp_step. apply Hrest. eapply ops_weaken; [done|lia].
Qed.

(** ** The start and the end of the stream *)

(** Between two fetches: the keys were seen strictly before the cursor, and
    once the end is in the queue, on an earlier line. *)
Definition key_before (m : yaml_mark_t) (lo len : Z) (k : yaml_simple_key_t) : Prop :=
  k.(possible) = true ->
  lo <= k.(token_number) <= lo + len /\ mark_lt k.(key_mark) m /\ 0 <= k.(key_mark).(column).

Record scan_ok (p : yaml_parser_t) : Prop := mkScanOk {
  sk_cursor : cursor 0 p;
  sk_inv : scan_inv p.(scanner);
  sk_parsed : 0 <= p.(scanner).(tokens_parsed);
  sk_keys : Forall (key_before p.(reader).(mark) p.(scanner).(tokens_parsed) (queue_length p))
              p.(scanner).(simple_keys).(items);
  sk_end : has_end p.(scanner).(tokens) = true ->
           Forall (fun k => k.(possible) = true -> k.(key_mark).(line) < p.(reader).(mark).(line))
             p.(scanner).(simple_keys).(items)
}.

Definition started (p : yaml_parser_t) : bool := p.(scanner).(stream_start_produced).
Definition finished (p : yaml_parser_t) : bool := has_end p.(scanner).(tokens).

(** The turns left to the loop that fills the queue. *)
Definition fetches_left (p : yaml_parser_t) : nat :=
  (remaining p + (if started p then 0 else 1) + (if finished p then 0 else 1))%nat.

(** A bound on the tokens still to come: a character brings at most a value,
    its key, the start of a mapping and, later, the end of it. *)
Definition tokens_to_come (p : yaml_parser_t) : Z :=
  queue_length p +
  (if finished p then 0
   else indent_count p + 1 + (if started p then 0 else 1) + 4 * Z.of_nat (remaining p)).

Record fetch_post (p p' : yaml_parser_t) : Prop := mkFetchPost {
  fp_ok : scan_ok p';
  fp_closed : p'.(scanner).(stream_end_produced) = p.(scanner).(stream_end_produced);
  fp_queue : queue_length p <= queue_length p';
  fp_less : (fetches_left p' < fetches_left p)%nat;
  fp_come : tokens_to_come p' <= tokens_to_come p
}.

(** What a fetcher in the middle of the stream has done. *)
Lemma ops_fetch_post p p' :
  fetch_pre p -> finished p = false -> ops p true 0 4 p' -> fetch_post p p'.
Proof.
  intros Hp Hf [[H1 [W1 W2]] _ H3 H4 [H5 H5'] H6 H7 H8 H9 H10].
  pose proof (op_started _ _ _ _ _ Hp) as Hs. unfold finished in Hf. rewrite Hf in H7.
  constructor; try done.
  - constructor; try done; [by unfold scan_inv; rewrite H4| |by rewrite H7].
    eapply Forall_impl; [done|]. intros k Hk Hpos. destruct (Hk Hpos) as (K1 & K2 & K3).
    split_and!; try done; try lia. unfold mark_lt, mark_le in *. lia.
  - unfold fetches_left, started, finished. rewrite H4, H7, Hs, Hf. lia.
  - unfold tokens_to_come, started, finished. rewrite H4, H7, Hs, Hf. lia.
Qed.

(** Keys are only ever given up on the way to the end of the stream. *)
Definition keys_kept (p p' : yaml_parser_t) : Prop :=
  p'.(reader).(mark) = p.(reader).(mark) /\
  Forall (fun k => k.(possible) = true -> k ∈ p.(scanner).(simple_keys).(items))
    p'.(scanner).(simple_keys).(items).

#[export] Instance keys_kept_preorder : PreOrder keys_kept.
Proof.
  split.
  - intros p. split; [done|]. apply Forall_forall. by intros.
  - intros p q r [H1 H2] [G1 G2]. split; [congruence|]. rewrite Forall_forall in *. auto.
Qed.

Lemma keys_kept_same p p' :
  p'.(reader) = p.(reader) -> p'.(scanner).(simple_keys) = p.(scanner).(simple_keys) ->
  keys_kept p p'.
Proof. intros E1 E2. split; [by rewrite E1|]. rewrite E2. apply Forall_forall. by intros. Qed.

Lemma keys_kept_unroll col : sat keys_kept (yaml_parser_unroll_indent col).
Proof.
  unfold yaml_parser_unroll_indent, in_flow, get_mark, ENQUEUE, pop_indent, POP.
  sat_solve ltac:(by apply keys_kept_same).
Qed.

Lemma keys_kept_remove : sat keys_kept yaml_parser_remove_simple_key.
Proof.
  intros p. unfold yaml_parser_remove_simple_key, top_simple_key, set_top_simple_key. wp_steps.
  destruct (items _) as [|k ks] eqn:E; [done|]. wp_steps. destruct (_ && _); [apply wp_scanner_error|].
  wp_steps. rewrite E. wp_steps. split; [done|]. cbn. rewrite E. constructor; [done|].
  apply Forall_forall. intros x Hx _. by right.
Qed.

(** Bookkeeping steps that also keep the keys. *)
Lemma step_kept p q (m : yaml_prog unit) (Q : unit -> yaml_parser_t -> Prop) :
  keys_kept p q -> sat keys_kept m ->
  wp strict m (fun _ r => ops p false 0 0 r) failed q ->
  (forall r, ops p false 0 0 r -> keys_kept p r -> Q tt r) -> wp strict m Q failed q.
Proof.
  intros Hk Hs Hm HQ. eapply wp_mono; [eapply wp_strict_lax; [exact Hm|apply Hs]|cbv beta|done].
  intros [] r [H1 H2]. apply HQ; [done|by transitivity q].
Qed.

(** The end of the stream, at a position [q] on a line behind the keys. *)
Lemma stream_end_rest p q :
  fetch_pre p -> finished p = false ->
  q.(scanner) = p.(scanner) -> cursor 0 q -> remaining q = remaining p ->
  Forall (fun k => key_ok q.(reader).(mark) q.(scanner).(tokens_parsed) (queue_length q) k
            /\ (k.(possible) = true -> k.(key_mark).(line) < q.(reader).(mark).(line)))
    q.(scanner).(simple_keys).(items) ->
  wp strict
    (yaml_parser_unroll_indent (-1);; yaml_parser_remove_simple_key;;
     modify (set_simple_key_allowed false);; m ← get_mark;
     ENQUEUE (TOKEN_INIT YAML_STREAM_END_TOKEN m m)) (fun _ p' => fetch_post p p') failed q.
Proof.
  intros Hp Hf Es Hc Er Hk. apply Forall_and in Hk as [Hk Hl].
  assert (ops q false 0 0 q) as O.
  { destruct Hp as [_ _ H3 H4 [_ H5] _ _ _ _ _]. constructor; rewrite ?Es; auto; try done; try lia.
    - by apply reach_start.
    - by rewrite <- Es. }
  wp_step. eapply (step_kept q); [reflexivity|apply keys_kept_unroll| |].
  { eapply step_unroll_indent; [done|lia|by intros]. }
  intros q1 O1 K1. wp_step. eapply (step_kept q); [done|apply keys_kept_remove| |].
  { eapply step_remove_simple_key; [done|by intros]. }
  intros q2 O2 [K2 K3]. unfold get_mark, ENQUEUE. wp_steps. set (r := set_tokens _ _).
  destruct O2 as [[C W] E2 L S [P1 P2] F1 F2 F3 F4 F5]. specialize (E2 eq_refl).
  assert (queue_length r = queue_length q2 + 1) as Eq.
  { unfold queue_length, r. cbn. rewrite length_app. cbn. lia. }
  assert (has_end r.(scanner).(tokens) = true) as Ee.
  { unfold r. cbn. rewrite has_end_app. apply orb_true_r. }
  assert (remaining r = remaining q2) as Em by done.
  assert (remaining q2 = remaining p) as Em2.
  { rewrite <- Er. unfold remaining, octets_left, ended. by rewrite E2. }
  unfold queue_length, indent_count in F3, F4. rewrite Es in F1, F3, F4.
  pose proof (op_started _ _ _ _ _ Hp) as Hs.
  constructor; try done.
  - constructor; [by eapply cursor_reader| |done| |].
    + unfold scan_inv, r. cbn. rewrite S. destruct L. by constructor.
    + rewrite Forall_forall in *. intros k Hin Hpos.
      pose proof (K3 k Hin Hpos) as Hin'. destruct (F5 k Hin Hpos) as (B1 & B2 & B3).
      rewrite Eq.
      change (tokens_parsed (scanner r)) with (tokens_parsed (scanner q2)).
      split_and!; try done; try lia. left. cbn. rewrite E2. by apply Hl.
    + intros _. unfold r. cbn. rewrite Forall_forall in *. intros k Hin Hpos. rewrite E2. auto.
  - rewrite Eq. unfold queue_length. lia.
  - unfold fetches_left, started, finished in *. rewrite Ee, Hf, Em, Em2, Hs.
    unfold r. cbn. rewrite S. lia.
  - unfold tokens_to_come, started, finished in *. rewrite Ee, Hf, Hs, Eq.
    unfold queue_length, indent_count in *. lia.
Qed.

Lemma fetch_stream_end_ok p :
  fetch_pre p -> finished p = false ->
  Forall (key_before p.(reader).(mark) p.(scanner).(tokens_parsed) (queue_length p))
    p.(scanner).(simple_keys).(items) ->
  wp strict yaml_parser_fetch_stream_end (fun _ p' => fetch_post p p') failed p.
Proof.
  intros Hp Hf Hk. unfold yaml_parser_fetch_stream_end, get_mark. wp_step. wp_step. cbv beta. wp_step.
  pose proof (reach_cursor _ _ _ _ (op_reach _ _ _ _ _ Hp)) as Hc.
  destruct (column (mark (reader p)) =? 0) eqn:Ec; cbn [negb]; wp_step; apply stream_end_rest; try done.
  - by eapply cursor_weaken; [|apply Nat.le_0_l].
  - apply Z.eqb_eq in Ec. eapply Forall_impl; [done|]. intros k H. split; intros Hpos;
      destruct (H Hpos) as (B1 & B2 & B3); unfold mark_lt, mark_le in *; [|lia]. split_and!; try done; lia.
  - destruct Hc as [[O1 O2 O3 O4 O5] C2 C3 C4]. constructor; try done.
    destruct C3; [left; cbn; lia|by right].
  - eapply Forall_impl; [exact Hk|]. intros k H. split; intros Hpos;
      destruct (H Hpos) as (B1 & B2 & B3); unfold mark_lt, mark_le in *; [|cbn; lia].
    split_and!; try apply B1; cbn; lia.
Qed.

(** The start of the stream. *)
Lemma fetch_stream_start_ok p :
  cursor 0 p -> scan_inv p.(scanner) -> started p = false -> 0 <= p.(scanner).(tokens_parsed) ->
  wp strict yaml_parser_fetch_stream_start (fun _ p' => fetch_post p p') failed p.
Proof.
  intros Hc Hi Hs Hn. unfold started in Hs. unfold scan_inv in Hi. rewrite Hs in Hi.
  destruct Hi as (H1 & H2 & H3 & H4).
  unfold yaml_parser_fetch_stream_start, get_mark, ENQUEUE. wp_steps. apply wp_PUSH. intros c.
  wp_steps. set (r := set_tokens _ _).
  assert (remaining r = remaining p) as Er by done.
  assert (queue_length r = 1) as Eq by (unfold queue_length, r; cbn; by rewrite H4).
  assert (indent_count r = 0) as Ec by (unfold indent_count, r; cbn; by rewrite H3).
  assert (r.(scanner).(tokens) = [] ++ [TOKEN_INIT (YAML_STREAM_START_TOKEN p.(reader).(encoding))
            p.(reader).(mark) p.(reader).(mark)]) as Et by (unfold r; cbn; by rewrite H4).
  constructor; try done.
  - constructor; try done; [by eapply cursor_reader| | |by rewrite Et].
    + constructor; cbn; by rewrite ?H1, ?H2, ?H3.
    + cbn. rewrite H1. by constructor.
  - rewrite Eq. unfold queue_length. rewrite H4. done.
  - unfold fetches_left, started, finished. rewrite Hs, Er, Et, H4. cbn. lia.
  - unfold tokens_to_come, started, finished. rewrite Eq, Ec, Er, Et, Hs, H4.
    unfold queue_length, indent_count. rewrite H3, H4. cbn. lia.
Qed.

(** ** The dispatcher *)

Lemma fetches_post P m p :
  fetches P m -> fetch_pre p -> finished p = false -> P (char_at 0 p) ->
  wp strict m (fun _ p' => fetch_post p p') failed p.
Proof.
  intros Hm Hp Hf HP. eapply wp_mono; [by apply Hm|cbv beta|done]. intros _ q. by apply ops_fetch_post.
Qed.

Create HintDb fetches.
#[export] Hint Resolve fetches_flow_start fetches_flow_end fetches_flow_entry fetches_directive
  fetches_anchor fetches_tag fetches_block_scalar fetches_flow_scalar fetches_block_entry fetches_key
  fetches_value : fetches.

(** A document indicator, its first three characters known. *)
Lemma document_indicator_post type c p :
  (forall a b, is_end (TOKEN_INIT type a b) = false) -> single_octet (ch c) ->
  fetch_pre p -> finished p = false ->
  (char_at 0 p =? ch c) && (char_at 1 p =? ch c) && (char_at 2 p =? ch c) = true ->
  wp strict (yaml_parser_fetch_document_indicator type) (fun _ p' => fetch_post p p') failed p.
Proof.
  intros Ht Hc Hp Hf B. rewrite !andb_true_iff, !Z.eqb_eq in B. destruct B as [[B1 B2] B3].
  eapply wp_mono; [apply fetches_document_indicator; try done|cbv beta|done].
  - intros [|[|[|k]]] Hk; [by rewrite ?B1, ?B2, ?B3..|lia].
  - intros _ q. by apply ops_fetch_post.
Qed.

Lemma eval_check_any n p cs :
  looking n 0 p -> Forall (fun c => 0 <= ch c < 128) cs ->
  eval (check_any cs) p (existsb (fun c => char_at 0 p =? ch c) cs).
Proof.
  intros Hl. induction 1 as [|c cs Hc _ IH]; cbn; [apply eval_ret|].
  assert (eval (CHECK c) p (char_at 0 p =? ch c)) as H by by eapply eval_CHECK_AT.
  destruct cs; [by cbn; rewrite orb_false_r|]. by apply eval_or.
Qed.

(** The first character of a plain scalar. *)
Lemma eval_starts_plain p :
  cursor 4 p ->
  exists b, eval starts_plain_scalar p b
    /\ (b = true -> c_blankz (char_at 0 p) = false /\ (char_at 0 p =? ch "#") = false).
Proof.
  intros Hc. eexists. split.
  - unfold starts_plain_scalar. eapply eval_or; [eapply eval_or|]; [|intros _; ev|intros _; ev].
    apply eval_not, eval_or; [ev|intros _]. eapply eval_check_any; [look|].
    unfold plain_excluded. repeat constructor; done.
  - rewrite !orb_true_iff. intros [[H|H]|H].
    + apply negb_true_iff in H. cbn in H. rewrite !orb_false_iff in H. by destruct_and! H.
    + apply andb_true_iff in H as [H _]. apply Z.eqb_eq in H as ->. done.
    + rewrite !andb_true_iff, orb_true_iff in H. by destruct H as [[_ [H|H]] _]; apply Z.eqb_eq in H as ->.
Qed.

(** What the dispatcher has found out before it scans a plain scalar. *)
Lemma plain_start_intro p (bol flow : bool) :
  cursor 4 p -> bol = (p.(reader).(mark).(column) =? 0) ->
  flow = negb (p.(scanner).(flow_level) =? 0) ->
  bol && (char_at 0 p =? ch "-") && (char_at 1 p =? ch "-") && (char_at 2 p =? ch "-")
    && c_blankz (char_at 3 p) = false ->
  bol && (char_at 0 p =? ch ".") && (char_at 1 p =? ch ".") && (char_at 2 p =? ch ".")
    && c_blankz (char_at 3 p) = false ->
  Forall (fun c => (char_at 0 p =? ch c) = false) flow_indicators ->
  (char_at 0 p =? ch ":") && (flow || c_blankz (char_at 1 p)) = false ->
  eval starts_plain_scalar p true -> plain_start p.
Proof.
  intros Hc -> -> B1 B2 Hfl B3 Hs.
  destruct (eval_starts_plain p Hc) as (b & Hb & Hi). unfold eval in Hs, Hb.
  destruct Hi as [Hb' Hh]; [congruence|].
  constructor; try done.
  - eapply eval_eq; [ev|]. destruct (_ =? 0); [|done]. cbn in B1, B2 |- *.
    destruct (c_blankz (char_at 3 p)); rewrite ?andb_true_r, ?andb_false_r in *; [|done].
    by rewrite B1, B2.
  - eapply eval_eq; [ev|]. unfold flow_indicators in Hfl. rewrite !Forall_cons in Hfl. destruct_and! Hfl.
    repeat match goal with H : (_ =? _) = false |- _ => rewrite H; clear H end.
    destruct (char_at 0 p =? ch ":"); [|by rewrite andb_false_r]. cbn in B3 |- *.
    apply orb_false_iff in B3 as [-> ->]. done.
Qed.

Lemma fetch_by_indicator_ok p :
  fetch_pre p -> finished p = false ->
  Forall (key_before p.(reader).(mark) p.(scanner).(tokens_parsed) (queue_length p))
    p.(scanner).(simple_keys).(items) ->
  wp strict fetch_by_indicator (fun _ p' => fetch_post p p') failed p.
Proof.
  intros Hp Hf Hk. pose proof (reach_cursor _ _ _ _ (op_reach _ _ _ _ _ Hp)) as Hc.
  unfold fetch_by_indicator. eapply wp_ifm; [ev|intros _; by apply fetch_stream_end_ok|intros Z].
  apply Z.eqb_neq in Z.
  eapply wp_ifm; [ev|intros _; by eapply fetches_post; [apply fetches_directive|..]|intros _].
  eapply wp_ifm; [ev|intros B|intros B1].
  { rewrite <- !andb_assoc in B. apply andb_true_iff in B as [_ B].
    eapply (document_indicator_post _ "-"); try done. rewrite !andb_true_iff in *. tauto. }
  eapply wp_ifm; [ev|intros B|intros B2].
  { rewrite <- !andb_assoc in B. apply andb_true_iff in B as [_ B].
    eapply (document_indicator_post _ "."); try done. rewrite !andb_true_iff in *. tauto. }
  do 5 (eapply wp_ifm; [ev|intros _; by eapply fetches_post; [auto with fetches|..]|intros ?F]).
  do 2 (eapply wp_ifm; [ev|intros _; by eapply fetches_post; [auto with fetches|..]|intros _]).
  do 3 (eapply wp_ifm; [ev|intros _; by eapply fetches_post; [auto with fetches|..]|intros ?G]).
  eapply wp_ifm; [ev|intros ?; eapply fetches_post; [apply fetches_tag|done|done|by apply Z.eqb_eq]|intros _].
  do 4 (eapply wp_ifm; [ev|intros _; by eapply fetches_post; [auto with fetches|..]|intros _]).
  destruct (eval_starts_plain p Hc) as (b & Hb & _).
  eapply wp_ifm; [exact Hb|intros ->|intros _].
  - eapply wp_mono; [apply fetches_plain_scalar; [done|]|cbv beta|done].
    + eapply plain_start_intro; try done. by unfold flow_indicators; auto 10.
    + intros _ q. by apply ops_fetch_post.
  - unfold get_mark. wp_step. apply wp_gets, wp_scanner_error.
Qed.

(** ** The next token *)

(** On the way to the next token: [q] is ready for a fetcher with [n]
    characters, no token was lost and no text made up. *)
Record approach (p : yaml_parser_t) (n : nat) (q : yaml_parser_t) : Prop := mkApproach {
  ap_ops : ops q false n 0 q;
  ap_left : (remaining q <= remaining p)%nat;
  ap_parsed : q.(scanner).(tokens_parsed) = p.(scanner).(tokens_parsed);
  ap_closed : q.(scanner).(stream_end_produced) = p.(scanner).(stream_end_produced);
  ap_end : finished q = finished p;
  ap_queue : queue_length p <= queue_length q;
  ap_size : queue_length q + indent_count q <= queue_length p + indent_count p;
  ap_keys : Forall (key_before q.(reader).(mark) q.(scanner).(tokens_parsed) (queue_length q))
              q.(scanner).(simple_keys).(items)
}.

Lemma key_before_ok m lo len k : key_before m lo len k -> key_ok m lo len k.
Proof.
  intros H Hp. destruct (H Hp) as (H1 & H2 & H3). split_and!; try done; try lia.
  unfold mark_lt, mark_le in *. lia.
Qed.

Lemma key_before_later m m' lo len len' k :
  key_before m lo len k -> mark_le m m' -> len <= len' -> key_before m' lo len' k.
Proof.
  intros H Hm Hl Hp. destruct (H Hp) as (H1 & H2 & H3). split_and!; try done; try lia.
  unfold mark_lt, mark_le in *. lia.
Qed.

Lemma approach_start p : scan_ok p -> started p = true -> approach p 0 p.
Proof.
  intros [H1 H2 H3 H4 H5] Hs. unfold scan_inv in H2. unfold started in Hs. rewrite Hs in H2.
  constructor; try done. constructor; try done; [by apply reach_start|lia|].
  eapply Forall_impl; [done|]. apply key_before_ok.
Qed.

Lemma ap_cursor p n q : approach p n q -> cursor n q.
Proof. intros H. apply (reach_cursor _ _ _ _ (op_reach _ _ _ _ _ (ap_ops _ _ _ H))). Qed.

Lemma approach_fewer p n m q : approach p n q -> (m <= n)%nat -> approach p m q.
Proof. intros [] Hm. constructor; try done. by eapply ops_ready. Qed.

(** White space, or more characters in the buffer. *)
Lemma approach_move p n n' q r :
  approach p n q -> reach q false n' r -> scan_only q r -> approach p n' r.
Proof.
  intros [[A1 A2 A3 A4 [_ A5] A6 A7 A8 A9 A10] H1 H2 H3 H4 H5 H6 H7] [Hc [Hr Hm]]
    [(S1 & S2 & S3 & S4 & S5 & S6 & S7 & S8 & S9) _ _].
  unfold queue_length, indent_count, finished in *.
  assert (Forall (key_before r.(reader).(mark) q.(scanner).(tokens_parsed)
            (Z.of_nat (length q.(scanner).(tokens)))) q.(scanner).(simple_keys).(items)) as Hk.
  { eapply Forall_impl; [done|]. intros k Hk. by eapply key_before_later. }
  constructor; unfold queue_length, indent_count, finished; rewrite ?S2, ?S4, ?S5, ?S7, ?S9; try done.
  - constructor; unfold queue_length, indent_count; rewrite ?S1, ?S2, ?S4, ?S5, ?S7, ?S9; try done.
    + by apply reach_start.
    + destruct A3. constructor; by rewrite ?S3, ?S7, ?S8, ?S9.
    + eapply Forall_impl; [done|]. apply key_before_ok.
  - lia.
Qed.

(** The bookkeeping that leaves the reader alone. *)
Lemma approach_ops p n q r :
  approach p n q -> ops q false n 0 r -> keys_kept q r -> approach p n r.
Proof.
  intros [A H1 H2 H3 H4 H5 H6 H7] [O1 O2 O3 O4 [O5 O5'] O6 O7 O8 O9 O10] [K1 K2]. specialize (O2 eq_refl).
  constructor; try lia; try congruence.
  - constructor; try done; [by eapply reach_start, reach_cursor|lia|]. by rewrite K1.
  - by unfold remaining, octets_left, ended; rewrite O2.
  - by unfold finished in *; rewrite O7.
  - rewrite K1, O5. rewrite Forall_forall in *. intros k Hin Hpos.
    eapply (key_before_later _ _ _ _ (queue_length r)); [by apply H7, K2| |done|done]. right. lia.
Qed.


Lemma stale_keys_sub here ks k :
  k ∈ (stale_keys here ks).1 -> k.(possible) = true -> k ∈ ks.
Proof.
  induction ks as [|k0 ks IH]; cbn; [done|]. intros Hin Hpos.
  destruct (key_is_stale here k0); [destruct (required k0)|]; cbn in Hin; [done|..];
    apply elem_of_cons in Hin as [->|Hin]; try done; [right|left|right]; auto.
Qed.

(** Stale keys are given up, or reported when they were required. *)
Lemma wp_stale_simple_keys p (Q : unit -> yaml_parser_t -> Prop) :
  (forall ks, length ks = length p.(scanner).(simple_keys).(items) ->
     Forall (fun k => k.(possible) = true -> k ∈ p.(scanner).(simple_keys).(items)
                      /\ p.(reader).(mark).(line) <= k.(key_mark).(line)) ks ->
     Q tt (set_key_items ks p)) ->
  wp strict yaml_parser_stale_simple_keys Q failed p.
Proof.
  intros HQ. unfold yaml_parser_stale_simple_keys, get_mark. wp_steps.
  set (ks := items _) in *. set (here := mark _) in *.
  pose proof (stale_keys_spec here (rev ks)) as Hs. pose proof (stale_keys_length here (rev ks)) as Hl.
  pose proof (stale_keys_sub here (rev ks)) as Hk.
  destruct (stale_keys here (rev ks)) as [ks' [m|]]; cbn in *; [apply wp_scanner_error|].
  wp_steps. apply HQ; [by rewrite !length_rev in *|]. apply Forall_forall. intros k Hin Hpos.
  destruct Hs as [Hs _]. rewrite Forall_forall in Hs. apply list_elem_of_In in Hin.
  rewrite <- in_rev in Hin. apply list_elem_of_In in Hin.
  split; [|by destruct (Hs k Hin Hpos)].
  specialize (Hk k Hin Hpos). apply list_elem_of_In in Hk. rewrite <- in_rev in Hk. by apply list_elem_of_In.
Qed.

Lemma ops_key_items q n ks :
  ops q false n 0 q -> length ks = length q.(scanner).(simple_keys).(items) ->
  Forall (fun k => k.(possible) = true -> k ∈ q.(scanner).(simple_keys).(items)) ks ->
  ops q false n 0 (set_key_items ks q) /\ keys_kept q (set_key_items ks q).
Proof.
  intros H Hl Hk. split; [|done]. apply ops_set_keys; [done|done|].
  pose proof (op_keys _ _ _ _ _ H) as Hq. rewrite Forall_forall in *.
  intros k Hin Hpos. by apply Hq; [apply Hk|].
Qed.

Lemma approach_stale p n q (Q : unit -> yaml_parser_t -> Prop) :
  approach p n q -> (forall r, approach p n r -> Q tt r) ->
  wp strict yaml_parser_stale_simple_keys Q failed q.
Proof.
  intros H HQ. apply wp_stale_simple_keys. intros ks Hl Hk. apply HQ.
  destruct (ops_key_items q n ks) as [H1 H2]; [apply H|done| |by eapply approach_ops].
  eapply Forall_impl; [done|]. intros k Hk' Hpos. by apply Hk'.
Qed.

Lemma approach_post p q r :
  approach p 4 q -> started p = true -> finished p = false -> fetch_post q r -> fetch_post p r.
Proof.
  intros [A H1 H2 H3 H4 H5 H6 H7] Hs Hf [P1 P2 P3 P4 P5].
  pose proof (op_started _ _ _ _ _ A) as Hq.
  constructor; try done; [congruence|lia|..].
  - unfold fetches_left, started in *. rewrite H4, Hq, Hs in *. lia.
  - unfold tokens_to_come, started in *. rewrite H4, Hq, Hs, Hf in *. lia.
Qed.

(** Characters for the buffer, or white space behind the cursor. *)
Lemma step_approach {A} p n n' q (m : yaml_prog A) (Q : A -> yaml_parser_t -> Prop) :
  approach p n q -> wp strict m (fun _ r => reach q false n' r) failed q -> sat scan_only m ->
  (forall a r, approach p n' r -> Q a r) -> wp strict m Q failed q.
Proof.
  intros H Hm Hs HQ. eapply wp_mono; [eapply wp_strict_lax; [exact Hm|apply Hs]|cbv beta|done].
  intros a r [H1 H2]. apply HQ. by eapply approach_move.
Qed.

Lemma CACHE_reach n k p :
  cursor n p -> 0 <= k <= MAX_REQUEST ->
  wp strict (CACHE k) (fun _ r => reach p false (Z.to_nat k) r) failed p.
Proof. intros Hc Hk. eapply step_CACHE; [by apply reach_start|done|done|by intros]. Qed.

Lemma fetch_next_token_started p :
  scan_ok p -> started p = true -> finished p = false ->
  wp strict yaml_parser_fetch_next_token (fun _ p' => fetch_post p p') failed p.
Proof.
  intros Hp Es Hf. unfold yaml_parser_fetch_next_token. wp_step.
  eapply step_approach; [by apply approach_start|apply (CACHE_reach 0 1); [apply Hp|done]
                        |apply so_of_ro, ro_CACHE|]. intros _ q A. wp_step.
  apply wp_gets. rewrite (op_started _ _ _ _ _ (ap_ops _ _ _ A)). cbn [negb]. wp_step.
  eapply step_approach; [done|by apply total_to_next_token, (cursor_weaken _ 0 _ (ap_cursor _ _ _ A)), Nat.le_0_l
                        |apply so_scan_to_next_token|]. intros _ q1 A1. wp_step.
  eapply approach_stale; [done|]. intros q2 A2. unfold get_mark. wp_step. apply wp_gets. wp_step.
  eapply (step_kept q2); [done|apply keys_kept_unroll| |].
  { eapply step_unroll_indent; [apply (ops_ready _ _ 1 0), Nat.le_0_l; apply A2| |by intros].
    pose proof (cu_column _ _ (ap_cursor _ _ _ A2)). lia. }
  intros q3 O3 K3. wp_step.
  eapply (step_approach p 0); [|apply (CACHE_reach 0 4); [apply (reach_cursor _ _ _ _ (op_reach _ _ _ _ _ O3))|done]
                        |apply so_of_ro, ro_CACHE|].
  { eapply approach_ops; [eapply approach_fewer; [exact A2|lia]|done|done]. }
  intros _ q4 A4. eapply wp_mono; [apply fetch_by_indicator_ok; [apply A4| |apply A4]|cbv beta|done].
  - by rewrite (ap_end _ _ _ A4).
  - intros _ r. by apply approach_post.
Qed.

Lemma fetch_next_token_fresh p :
  scan_ok p -> started p = false ->
  wp strict yaml_parser_fetch_next_token (fun _ p' => fetch_post p p') failed p.
Proof.
  intros [H1 H2 H3 _ _] Es. unfold yaml_parser_fetch_next_token. wp_step.
  eapply wp_mono; [eapply wp_strict_lax; [by apply (CACHE_reach 0 1)|apply ro_CACHE]|cbv beta|done].
  intros _ q [[Hc [Hr _]] [Hl _ _]]. wp_step. apply wp_gets. rewrite Hl. unfold started in Es.
  rewrite Es. cbn [negb].
  eapply wp_mono; [apply fetch_stream_start_ok; unfold started; rewrite ?Hl; try done|cbv beta|done].
  { eapply cursor_weaken; [done|lia]. }
  intros _ r [P1 P2 P3 P4 P5]. rewrite Hl in P2.
  assert (queue_length q = queue_length p) as E1 by (unfold queue_length; by rewrite Hl).
  assert (indent_count q = indent_count p) as E2 by (unfold indent_count; by rewrite Hl).
  unfold tokens_to_come, fetches_left, finished, started in *. rewrite Hl, Es, ?E1, ?E2 in *.
  constructor; try done; unfold tokens_to_come, fetches_left, finished, started; rewrite ?Es; [lia|].
  destruct (has_end (tokens (scanner p))); lia.
Qed.

Lemma fetch_next_token_ok p :
  scan_ok p -> finished p = false ->
  wp strict yaml_parser_fetch_next_token (fun _ p' => fetch_post p p') failed p.
Proof.
  intros Hp Hf. destruct (started p) eqn:Es; [by apply fetch_next_token_started|by apply fetch_next_token_fresh].
Qed.

(** ** The queue is filled *)

(** No potential simple key at the head of the queue. *)
Definition head_settled (p : yaml_parser_t) : Prop :=
  p.(scanner).(tokens) <> []
  /\ Forall (fun k => k.(possible) = true -> k.(token_number) <> p.(scanner).(tokens_parsed))
       p.(scanner).(simple_keys).(items).

Record filled_queue (p p' : yaml_parser_t) : Prop := mkFilledQueue {
  fq_ok : scan_ok p';
  fq_closed : p'.(scanner).(stream_end_produced) = p.(scanner).(stream_end_produced);
  fq_queue : queue_length p <= queue_length p';
  fq_come : tokens_to_come p' <= tokens_to_come p
}.

Lemma head_may_be_key_false p :
  p.(scanner).(tokens) <> [] -> head_may_be_key p = false -> head_settled p.
Proof.
  intros Ht H. split; [done|]. apply Forall_forall. intros k Hin Hpos E.
  assert (head_may_be_key p = true); [|congruence]. unfold head_may_be_key.
  apply existsb_exists. exists k. split; [by rewrite <- in_rev; apply list_elem_of_In|].
  rewrite Hpos, E. by rewrite Z.eqb_refl.
Qed.

Lemma filled_stale p q ks :
  filled_queue p q -> length ks = length q.(scanner).(simple_keys).(items) ->
  Forall (fun k => k.(possible) = true -> k ∈ q.(scanner).(simple_keys).(items)) ks ->
  filled_queue p (set_key_items ks q).
Proof.
  intros [[H1 H2 H3 H4 H5] C1 C2 C3] Hl Hk. constructor; try done. constructor; try done.
  - by eapply cursor_reader.
  - unfold scan_inv in *. cbn. destruct (stream_start_produced _).
    + destruct H2. constructor; cbn; by rewrite ?Hl.
    + destruct H2 as (E & ?). rewrite E in Hl. by destruct ks.
  - cbn. rewrite Forall_forall in *. intros k Hin Hpos. exact (H4 k (Hk k Hin Hpos) Hpos).
  - intros He. cbn. specialize (H5 He). rewrite Forall_forall in *. intros k Hin Hpos.
    exact (H5 k (Hk k Hin Hpos) Hpos).
Qed.

Lemma filled_available p q b : filled_queue p q -> filled_queue p (set_token_available b q).
Proof.
  intros [[H1 H2 H3 H4 H5] C1 C2 C3]. constructor; try done. constructor; try done.
  - by eapply cursor_reader.
  - unfold scan_inv in *. cbn. destruct (stream_start_produced _); [|done]. destruct H2. by constructor.
Qed.

(** Once the end is in the queue no key can be at its head. *)
Lemma finished_settled q ks :
  scan_ok q -> finished q = true ->
  Forall (fun k => k.(possible) = true -> k ∈ q.(scanner).(simple_keys).(items)
                   /\ q.(reader).(mark).(line) <= k.(key_mark).(line)) ks ->
  head_may_be_key (set_key_items ks q) = false.
Proof.
  intros Hq Hf Hk. apply not_true_iff_false. unfold head_may_be_key. rewrite existsb_exists.
  intros (k & Hin & Hpos). apply andb_true_iff in Hpos as [Hpos _]. cbn in Hin.
  rewrite <- in_rev in Hin. apply list_elem_of_In in Hin.
  pose proof (sk_end _ Hq Hf) as He. rewrite Forall_forall in Hk, He.
  destruct (Hk k Hin Hpos) as [H1 H2]. specialize (He k H1 Hpos). lia.
Qed.

(** A turn that fetches. *)
Lemma fetch_turn p q q' (Q : unit -> yaml_parser_t -> Prop) :
  filled_queue p q' -> finished q' = false -> fetches_left q' = fetches_left q ->
  wp strict (yaml_parser_fetch_next_token;; mret (inl tt))
    (fun r p' => match r with
                 | inl _ => filled_queue p p' /\ (strict.(may_timeout) \/ (fetches_left p' < fetches_left q)%nat)
                 | inr x => Q x p'
                 end) failed q'.
Proof.
  intros Hq Hf El. wp_step. destruct Hq as [H1 H2 H3 H4].
  eapply wp_mono; [by apply fetch_next_token_ok|cbv beta|done].
  intros _ r [P1 P2 P3 P4 P5]. apply wp_ret. split; [constructor; try done; [congruence|lia|lia]|right; lia].
Qed.

Lemma wp_fetch_more_total p :
  scan_ok p ->
  wp strict yaml_parser_fetch_more_tokens
    (fun _ p' => filled_queue p p' /\ head_settled p' /\ p'.(scanner).(token_available) = true) failed p.
Proof.
  intros Hp. unfold yaml_parser_fetch_more_tokens. wp_step. unfold scan_loop. wp_step. apply wp_gets.
  apply (wp_loop strict (fun _ q => filled_queue p q) (fun _ q => fetches_left q)).
  - intros _ q Hq. wp_step. apply wp_gets. destruct (tokens (scanner q)) as [|t ts] eqn:Et; wp_step.
    + wp_step. apply (fetch_turn p q q); [done| |done]. unfold finished. by rewrite Et.
    + wp_step. apply wp_stale_simple_keys. intros ks Hl Hk. apply wp_gets.
      assert (filled_queue p (set_key_items ks q)) as Hq'.
      { apply filled_stale; [done|done|]. eapply Forall_impl; [done|]. intros k Hk' Hpos. by apply Hk'. }
      destruct (head_may_be_key _) eqn:Eh.
      * apply (fetch_turn p q); [done| |done]. destruct (finished (set_key_items ks q)) eqn:Ef; [|done].
        by rewrite (finished_settled q ks (fq_ok _ _ Hq) Ef Hk) in Eh.
      * wp_step. apply wp_modify. split_and!; [by apply filled_available| |done].
        apply (head_may_be_key_false (set_key_items ks q)); [|done]. cbn. by rewrite Et.
  - constructor; try done; lia.
  - right. unfold fetches_left, remaining, octets_left, scan_fuel. repeat case_match; lia.
Qed.

(** ** The scanner as a source of tokens *)

(** The scanner's own state, whatever the parser does. *)
Definition scanner_state (rd : yaml_reader) (sc : yaml_scanner) : yaml_parser_t :=
  set_scanner sc (set_reader rd (yaml_parser_initialize [])).

Definition scanner_ok (rd : yaml_reader) (sc : yaml_scanner) : Prop :=
  scan_ok (scanner_state rd sc)
  /\ (sc.(token_available) = true -> head_settled (scanner_state rd sc)).

Definition scanner_pending (rd : yaml_reader) (sc : yaml_scanner) : Z :=
  if sc.(stream_end_produced) then 0 else tokens_to_come (scanner_state rd sc).

Lemma scan_ok_same p q :
  scan_ok p -> q.(reader) = p.(reader) -> q.(scanner) = p.(scanner) -> scan_ok q.
Proof.
  intros [H1 H2 H3 H4 H5] Er Es. unfold queue_length in *.
  constructor; unfold queue_length; rewrite ?Er, ?Es; try done. by eapply cursor_reader.
Qed.

Lemma scanner_ok_of p :
  scan_ok p -> (p.(scanner).(token_available) = true -> head_settled p) ->
  scanner_ok p.(reader) p.(scanner).
Proof. intros H Hh. split; [by eapply scan_ok_same|done]. Qed.

Lemma tokens_to_come_nonneg p : queue_length p <= tokens_to_come p.
Proof. unfold tokens_to_come, indent_count. repeat case_match; lia. Qed.

Lemma scanner_pending_nonneg rd sc : 0 <= scanner_pending rd sc.
Proof.
  unfold scanner_pending. destruct (stream_end_produced sc); [done|].
  pose proof (tokens_to_come_nonneg (scanner_state rd sc)). unfold queue_length in *. lia.
Qed.

(** Taking the token at the head of the queue. *)
Lemma scan_ok_skipped p t r :
  scan_ok p -> head_settled p -> p.(scanner).(tokens) = t :: r ->
  scan_ok (set_scanner (skipped p.(scanner)) p).
Proof.
  intros [H1 H2 H3 H4 H5] [_ Hh] Et. unfold skipped. rewrite Et.
  assert (p.(scanner).(stream_start_produced) = true) as Hs.
  { unfold scan_inv in H2. destruct (stream_start_produced _); [done|].
    destruct H2 as (_ & _ & _ & H2). congruence. }
  constructor; try done.
  - by eapply cursor_reader.
  - unfold scan_inv in *. cbn. rewrite Hs in *. destruct H2. by constructor.
  - cbn. lia.
  - unfold queue_length in *. rewrite Et in H4. cbn in *. rewrite Forall_forall in *.
    intros k Hin Hpos. specialize (Hh k Hin Hpos). destruct (H4 k Hin Hpos) as (K1 & K2 & K3).
    split_and!; try done; lia.
  - cbn. intros He. apply H5. rewrite Et. cbn. unfold has_end in He. rewrite He. apply orb_true_r.
Qed.

Lemma skipped_pending p t r :
  p.(scanner).(tokens) = t :: r -> p.(scanner).(stream_end_produced) = false ->
  scanner_pending p.(reader) (skipped p.(scanner)) < scanner_pending p.(reader) p.(scanner).
Proof.
  intros Et Ho. unfold scanner_pending. rewrite Ho.
  pose proof (tokens_to_come_nonneg (scanner_state (reader p) (scanner p))) as Hn.
  assert (1 <= queue_length (scanner_state (reader p) (scanner p))) as Hq.
  { unfold queue_length. cbn. rewrite Et. cbn. lia. }
  unfold skipped. rewrite Et. cbn [stream_end_produced]. fold (is_end t).
  destruct (is_end t) eqn:Ee; [lia|].
  unfold tokens_to_come, queue_length, indent_count, finished, started, remaining, octets_left, ended.
  cbn. rewrite Et. cbn. rewrite Ee. cbn. lia.
Qed.

#[export] Instance scanner_laws : TokenSourceLaws strict (src := scanner_source).
Proof.
  refine {| source_ok := scanner_ok; pending := scanner_pending |}.
  - apply scanner_pending_nonneg.
  - intros rd sc [Hs Hh] Ha Ht. destruct (tokens sc) as [|t r] eqn:E; [done|].
    pose proof (scan_ok_skipped (scanner_state rd sc) t r Hs (Hh Ha) E) as H.
    split; [by eapply scan_ok_same|]. unfold skipped. by rewrite E.
  - intros rd sc _ Ht Ho. right. destruct (tokens sc) as [|t r] eqn:E; [done|].
    by apply (skipped_pending (scanner_state rd sc) t r).
  - intros p [Hs _] Ho. unfold fetch_more_tokens, scanner_source.
    eapply wp_mono; [eapply wp_strict_lax; [apply wp_fetch_more_total; by eapply scan_ok_same
                                           |apply wp_fetch_more_tokens]|cbv beta|done].
    intros [] p' [([F1 F2 F3 F4] & Hh & Ha) (q & [K _] & -> & Hne)]. destruct K.
    split_and!; try done; [by apply scanner_ok_of|]. right.
    unfold scanner_pending. rewrite F2, Ho. done.
Defined.

(** ** The theorems *)

Lemma bytes_of_octets s : Forall is_octet (bytes_of s).
Proof.
  unfold bytes_of. apply Forall_forall. intros b Hb. apply list_elem_of_In, in_map_iff in Hb as (c & <- & _).
  unfold is_octet, ch. pose proof (N_ascii_bounded c). lia.
Qed.

Lemma initial_cursor bytes : Forall is_octet bytes -> cursor 0 (yaml_parser_initialize bytes).
Proof.
  intros H. constructor; [|done|by left|done]. constructor; try done. exists []. by split.
Qed.

Lemma initial_scan_ok bytes : Forall is_octet bytes -> scan_ok (yaml_parser_initialize bytes).
Proof. intros H. constructor; try done. by apply initial_cursor. Qed.

Lemma initial_tokens bytes :
  tokens_to_come (yaml_parser_initialize bytes) = 8 * Z.of_nat (length bytes) + 6.
Proof.
  unfold tokens_to_come, remaining, octets_left, queue_length, indent_count. cbn. lia.
Qed.

Lemma initial_pending bytes :
  scanner_pending (yaml_parser_initialize bytes).(reader) (yaml_parser_initialize bytes).(scanner)
  = 8 * Z.of_nat (length bytes) + 6.
Proof. apply initial_tokens. Qed.

(** C5: whatever the octets of the input are, the scanner and the parser
    together terminate: within sixty-four calls per octet the client's loop
    delivers one complete stream of the grammar or fails with an error code;
    no call reads behind the buffer, pops an empty stack, follows a NULL token
    or runs out of the turns its loops are given. *)
Theorem parse_bytes_total (bytes : list Z) (fuel : nat) :
  Forall is_octet bytes -> 64 * Z.of_nat (length bytes) + 49 <= Z.of_nat fuel ->
  wp strict (parse_events (src := scanner_source) fuel fuel)
    (fun es _ => nest_run NStart es = Some NEnd)
    (fun p' => p'.(err).(error) <> YAML_NO_ERROR) (yaml_parser_initialize bytes).
Proof.
  intros Hb Hf. eapply wp_mono.
  - apply (wp_parse_events strict fuel fuel NStart); [by apply initial_inv| |done|done|].
    + apply scanner_ok_of; [by apply initial_scan_ok|done].
    + right. unfold budget, tokens_left. cbn [pending scanner_laws]. rewrite initial_pending. cbn. lia.
  - by intros es p' [H _].
  - done.
Qed.

Lemma parse_bytes_total_witness :
  Forall is_octet (bytes_of "a: [b]") /\
  wp strict (parse_events (src := scanner_source) 500 500)
    (fun es _ => nest_run NStart es = Some NEnd)
    (fun p' => p'.(err).(error) <> YAML_NO_ERROR) (yaml_parser_initialize (bytes_of "a: [b]")).
Proof.
  split; [apply bytes_of_octets|].
  apply (parse_bytes_total (bytes_of "a: [b]") 500); [apply bytes_of_octets|]. cbn. lia.
Defined.

(** C6: from a state that satisfies the invariant of the scanner (a whole
    number of characters in the buffer, one potential simple key per flow
    level, every key pointing into the queue, a strictly increasing stack of
    indents over [-1]), [yaml_parser_fetch_more_tokens] returns, or fails with
    an error; it keeps the invariant, leaves the state of the parser alone,
    puts a token that no later token can precede at the head of the queue,
    opens or closes a block collection in the queue exactly when it pushes or
    pops an indentation level, and never lengthens what is still to come. *)
Theorem fetch_more_tokens_total (p : yaml_parser_t) :
  scan_ok p ->
  wp strict yaml_parser_fetch_more_tokens
    (fun _ p' => scan_ok p' /\ p'.(parsing) = p.(parsing) /\ p'.(err) = p.(err)
                 /\ head_settled p'
                 /\ block_depth p'.(scanner).(tokens) - block_depth p.(scanner).(tokens)
                    = indent_count p' - indent_count p
                 /\ tokens_to_come p' <= tokens_to_come p)
    (fun p' => p'.(err).(error) <> YAML_NO_ERROR) p.
Proof.
  intros Hp.
  eapply wp_mono; [eapply wp_strict_lax; [by apply wp_fetch_more_total
                                         |apply wp_fetch_more_tokens]|cbv beta|done].
  intros [] p' [([F1 F2 F3 F4] & Hh & Ha) (q & [K _] & -> & Hne)]. destruct K.
  split_and!; try done. unfold open_blocks in k_blocks. unfold indent_count. cbn. lia.
Qed.

Lemma fetch_more_tokens_total_witness :
  wp strict yaml_parser_fetch_more_tokens (fun _ p' => head_settled p')
    (fun p' => p'.(err).(error) <> YAML_NO_ERROR) (yaml_parser_initialize (bytes_of "a: b")).
Proof.
  eapply wp_mono.
  - apply (fetch_more_tokens_total (yaml_parser_initialize (bytes_of "a: b"))).
    apply initial_scan_ok, bytes_of_octets.
  - intros ? p' (_ & _ & _ & H & _). exact H.
  - done.
Defined.

(** One token for the client: what [yaml_parser_scan] leaves behind. *)
Lemma wp_scan p :
  scanner_ok p.(reader) p.(scanner) -> p.(scanner).(stream_end_produced) = false ->
  p.(err).(error) = YAML_NO_ERROR ->
  wp strict yaml_parser_scan
    (fun o p' => exists t, o = Some t /\ scanner_ok p'.(reader) p'.(scanner)
       /\ p'.(scanner).(stream_end_produced) = is_end t /\ p'.(err) = p.(err)
       /\ scanner_pending p'.(reader) p'.(scanner) < scanner_pending p.(reader) p.(scanner))
    failed p.
Proof.
  intros [Hok Hset] Ho He. unfold yaml_parser_scan. wp_step. apply wp_gets. rewrite Ho, He.
  rewrite bool_decide_eq_true_2 by done. cbn [negb orb]. wp_step. apply wp_gets. wp_step.
  set (Q := fun (_ : unit) q => scan_ok q /\ head_settled q
    /\ q.(scanner).(stream_end_produced) = false /\ q.(err) = p.(err)
    /\ scanner_pending q.(reader) q.(scanner) <= scanner_pending p.(reader) p.(scanner)).
  apply (wp_mono strict _ Q _ failed); [|clear Hset|done]; unfold Q.
  - destruct (token_available (scanner p)) eqn:Ea.
    + wp_step. split_and!; try done; [by eapply scan_ok_same|by apply Hset].
    + eapply wp_mono; [eapply wp_strict_lax; [apply wp_fetch_more_total; by eapply scan_ok_same
                                             |apply wp_fetch_more_tokens]|cbv beta|done].
      intros [] q [([F1 F2 F3 F4] & Hh & _) (q' & [K _] & -> & _)]. destruct K.
      split_and!; try done; [congruence|]. unfold scanner_pending. rewrite F2, Ho. done.
  - intros [] q (H1 & Hh & H3 & H4 & H5). pose proof Hh as [Ht _]. wp_step. apply wp_gets.
    destruct (tokens (scanner q)) as [|t r] eqn:Et; [done|].
    pose proof (scan_ok_skipped q t r H1 Hh Et) as S.
    pose proof (skipped_pending q t r Et H3) as P.
    assert (forall q', q'.(reader) = q.(reader) -> q'.(scanner) = skipped q.(scanner) ->
              q'.(err) = p.(err) -> exists t', Some t = Some t' /\ scanner_ok q'.(reader) q'.(scanner)
       /\ q'.(scanner).(stream_end_produced) = is_end t' /\ q'.(err) = p.(err)
       /\ scanner_pending q'.(reader) q'.(scanner) < scanner_pending p.(reader) p.(scanner)) as Hend.
    { intros q' E1 E2 E3. exists t. split_and!; try done.
      - apply scanner_ok_of; [eapply scan_ok_same; [exact S|done|done]|].
        rewrite E2. unfold skipped. by rewrite Et.
      - rewrite E2. unfold skipped. by rewrite Et.
      - rewrite E1, E2. lia. }
    wp_steps. unfold skipped in Hend. rewrite Et in Hend.
    destruct (token_data t) eqn:Ed; wp_steps; apply Hend; try done; cbn; by rewrite ?H3.
Qed.

(** The loop of a client of the scanner terminates on every input, within
    eight tokens per octet: it fails with an error, or it returns tokens of
    which the last, and only the last, is the end of the stream. *)
Theorem scan_all_total (bytes : list Z) (fuel : nat) :
  Forall is_octet bytes -> 8 * Z.of_nat (length bytes) + 8 <= Z.of_nat fuel ->
  wp strict (scan_all fuel)
    (fun ts _ => exists l t, ts = l ++ [t] /\ is_end t = true /\ has_end l = false
                             /\ Z.of_nat (length ts) <= 8 * Z.of_nat (length bytes) + 6)
    (fun p' => p'.(err).(error) <> YAML_NO_ERROR) (yaml_parser_initialize bytes).
Proof.
  intros Hb Hf. unfold scan_all.
  set (total_tokens := 8 * Z.of_nat (length bytes) + 6).
  apply (wp_loop strict (fun acc p =>
    scanner_ok p.(reader) p.(scanner) /\ p.(err).(error) = YAML_NO_ERROR
    /\ Z.of_nat (length acc) + scanner_pending p.(reader) p.(scanner) <= total_tokens
    /\ if p.(scanner).(stream_end_produced)
       then exists l t, rev acc = l ++ [t] /\ is_end t = true /\ has_end l = false
       else has_end (rev acc) = false)
    (fun _ p => Z.to_nat (scanner_pending p.(reader) p.(scanner)
                          + if p.(scanner).(stream_end_produced) then 0 else 1))).
  - intros acc p (H1 & H2 & H3 & H4). wp_step.
    destruct (stream_end_produced (scanner p)) eqn:Eo.
    + unfold yaml_parser_scan. wp_step. apply wp_gets. rewrite Eo. cbn [orb]. wp_steps.
      destruct H4 as (l & t & E & H5 & H6). exists l, t. split_and!; try done. rewrite length_rev.
      pose proof (scanner_pending_nonneg p.(reader) p.(scanner)). lia.
    + eapply wp_mono; [by apply wp_scan|cbv beta|done]. intros o q (t & -> & G1 & G2 & G3 & G4).
      wp_steps. pose proof (scanner_pending_nonneg q.(reader) q.(scanner)).
      rewrite G2, G3. split; [split_and!; try done|right].
      * cbn [length]. lia.
      * cbn [rev]. destruct (is_end t) eqn:Et; [by exists (rev acc), t|].
        by rewrite has_end_app, H4; cbn; rewrite Et.
      * destruct (is_end t); lia.
  - cbn [rev length]. split_and!; try done; [|rewrite initial_pending; unfold total_tokens; lia].
    apply scanner_ok_of; [by apply initial_scan_ok|done].
  - right. rewrite initial_pending. cbn. lia.
Qed.

Lemma scan_all_total_witness :
  wp strict (scan_all 60)
    (fun ts _ => exists l t, ts = l ++ [t] /\ is_end t = true /\ has_end l = false
                             /\ Z.of_nat (length ts) <= 54)
    (fun p' => p'.(err).(error) <> YAML_NO_ERROR) (yaml_parser_initialize (bytes_of "a: [b]")).
Proof.
  apply (scan_all_total (bytes_of "a: [b]") 60); [apply bytes_of_octets|]. cbn. lia.
Defined.
