(* ===== verification/YamlDelivery.v ===== *)
(** * libyaml: a text from its octets to the cursor

    A text of allowed characters is encoded in one of the three encodings,
    with or without a byte order mark, and given to a fresh parser.  The reader
    then delivers exactly this text, whatever its length: the buffers are
    filled and emptied as often as it takes and characters that they cut in two
    are put together again. *)

From Stdlib Require Import ZArith Lia ZifyNat ZifyBool Ascii String.
From stdpp Require Import base list option strings.
From S2P Require Import Prelude YamlData YamlReader YamlChars YamlScanner YamlParser.
From S2P Require Import YamlEvents YamlFrame YamlUtf8 YamlBuffer YamlCursor YamlText YamlTotal.

#[local] Open Scope Z_scope.
#[local] Open Scope yaml_scope.

(** ** A text that is opened *)

Definition octets_of_text (enc : yaml_encoding_t) (bom : bool) (cs : list Z) : list Z :=
  (if bom then raw_encode enc 0xFEFF else []) ++ raw_text enc cs.

(** Without a byte order mark the encoding is UTF-8, and the text must not
    begin with the character that is taken for one. *)
Definition announced (enc : yaml_encoding_t) (bom : bool) (cs : list Z) : Prop :=
  enc <> YAML_ANY_ENCODING /\ (bom = false -> enc = YAML_UTF8_ENCODING /\ head cs <> Some 0xFEFF).

Lemma continuation_octet v : is_octet (0x80 + Z.land v 0x3F).
Proof.
  change 0x3F with (Z.ones 6). rewrite Z.land_ones by lia. unfold is_octet.
  pose proof (Z.mod_pos_bound v (2 ^ 6) ltac:(lia)). lia.
Qed.

Lemma utf8_octets v : scalar_value v -> Forall is_octet (utf8_encode v).
Proof.
  intros [Hv _]. unfold utf8_encode. rewrite !Z.shiftr_div_pow2 by lia.
  destruct (v <=? 0x7F) eqn:E1; [|destruct (v <=? 0x7FF) eqn:E2; [|destruct (v <=? 0xFFFF) eqn:E3]];
    repeat (apply Forall_cons_2; [try apply continuation_octet; unfold is_octet|]); try apply Forall_nil_2; lia.
Qed.

Lemma utf16_unit_octets little u : 0 <= u < 0x10000 -> Forall is_octet (utf16_unit little u).
Proof.
  intros Hu. unfold utf16_unit.
  destruct little; repeat (apply Forall_cons_2; [unfold is_octet; lia|]); apply Forall_nil_2.
Qed.

Lemma raw_octets enc v : scalar_value v -> Forall is_octet (raw_encode enc v).
Proof.
  intros Hv. pose proof Hv as [Hr _].
  assert (forall little, Forall is_octet (utf16_encode little v)) as H16.
  { intros little. unfold utf16_encode. destruct (v <? 0x10000) eqn:E; [apply utf16_unit_octets; lia|].
    apply Forall_app. split; apply utf16_unit_octets; lia. }
  destruct enc; cbn; auto using utf8_octets.
Qed.

Lemma spelled_octets enc bom cs : Forall text_char cs -> Forall is_octet (octets_of_text enc bom cs).
Proof.
  intros Hcs. apply Forall_app. split.
  - destruct bom; [|apply Forall_nil_2]. apply raw_octets. unfold scalar_value. lia.
  - unfold raw_text. induction Hcs as [|c cs Hc _ IH]; [apply Forall_nil_2|]. cbn. apply Forall_app.
    split; [|done]. by apply raw_octets, text_char_scalar.
Qed.

Lemma opened_spells enc bom cs :
  announced enc bom cs -> Forall text_char cs ->
  Z.of_nat (length (octets_of_text enc bom cs)) < MAX_FILE_SIZE ->
  spells cs (yaml_parser_initialize (octets_of_text enc bom cs)).
Proof.
  intros [He Hb] Hcs Hl. constructor; [by apply initial_cursor, spelled_octets|done|].
  cbn. right. exists [], cs. split; [done|]. split; [done|]. split; [done|]. split; [exact Hl|].
  exists enc, (if bom then raw_encode enc 0xFEFF else []). split; [done|]. split; [done|].
  destruct bom; [by left|]. destruct (Hb eq_refl). by right.
Qed.

(** ** Reading it *)

(** All that is left of the input, character by character. *)
Definition read_rest : yaml_prog (list Z) := CACHE 1;; read_while (notM IS_Z) [].

Lemma run_read_rest p0 : forall cs x p, at_text p0 cs 1 p ->
  forall fuel, (length cs < fuel)%nat ->
  wp strict (loop fuel (fun s : list Z =>
      ifm notM IS_Z then s' ← READ s; CACHE 1;; mret (inl s') else mret (inr s)) x)
    (fun s q => s = x ++ utf8_text cs /\ spells [] q /\ reader_only p0 q
       /\ q.(reader).(mark).(index) = p.(reader).(mark).(index) + Z.of_nat (length cs)) never p.
Proof.
  induction cs as [|c cs IH]; intros x p Hp fuel Hf; (destruct fuel as [|fuel]; [lia|]);
    pose proof Hp as [Hs Hc Ho];
    destruct (spells_char 0 1 _ p Hs Hc) as [Hl H0]; try (cbn; lia); try constructor;
    cbn [loop nth] in *; wp_step; (eapply wp_ifm; [ev|intros Hb|intros Hb]).
  - by rewrite H0 in Hb.
  - wp_steps. rewrite app_nil_r. split_and!; try done. cbn. lia.
  - wp_step. eapply run_READ; [done|]. intros q Hq Hm. wp_step.
    eapply run_CACHE; [done|done|]. intros r Hr Hmr. wp_steps.
    eapply wp_mono; [apply (IH _ r Hr fuel); cbn in Hf; lia| |done].
    intros s t (-> & H1 & H2 & H3). split_and!; try done.
    + by rewrite <- app_assoc.
    + rewrite H3, Hmr, Hm. cbn. lia.
  - exfalso. rewrite H0 in Hb. pose proof (sp_chars _ _ Hs) as [Ht _]%Forall_cons.
    apply text_char_nonzero in Ht. cbn in Hb. lia.
Qed.

(** C11: The reader is exact: from the octets of a text in any of the encodings it
    delivers the text, to the last character and in UTF-8, does not fail, and
    counts the characters. *)
Theorem reader_delivers_text enc bom cs :
  announced enc bom cs -> Forall text_char cs ->
  Z.of_nat (length (octets_of_text enc bom cs)) < MAX_FILE_SIZE ->
  exists q, read_rest (yaml_parser_initialize (octets_of_text enc bom cs)) = Ret (utf8_text cs) q
    /\ spells [] q /\ q.(reader).(mark).(index) = Z.of_nat (length cs)
    /\ reader_only (yaml_parser_initialize (octets_of_text enc bom cs)) q.
Proof.
  intros Ha Hcs Hl. set (p := yaml_parser_initialize _).
  assert (wp strict read_rest (fun s q => s = utf8_text cs /\ spells [] q /\ reader_only p q
    /\ q.(reader).(mark).(index) = Z.of_nat (length cs)) never p) as H.
  { unfold read_rest, read_while, scan_loop. wp_step.
    eapply run_CACHE; [by apply at_text_start, opened_spells|done|]. intros q Hq Hm. wp_step. wp_step. cbv beta.
    eapply wp_mono; [apply (run_read_rest p cs [] q Hq); by apply spells_fuel, Hq| |done].
    intros s r (-> & H1 & H2 & H3). split_and!; try done. rewrite H3, Hm. cbn. lia. }
  unfold wp in H. destruct (read_rest p) as [s q| | |]; [|done..].
  destruct H as (-> & H1 & H2 & H3). by exists q.
Qed.

(** A text whose characters take one, two, three and four octets. *)
Definition sample_chars : list Z := [0x79; 0xE9; 0x20AC; 0x1F600; 10].

Lemma reader_delivers_text_witness :
  exists q, read_rest (yaml_parser_initialize (octets_of_text YAML_UTF16LE_ENCODING true sample_chars))
    = Ret (utf8_text sample_chars) q /\ q.(reader).(mark).(index) = 5.
Proof.
  destruct (reader_delivers_text YAML_UTF16LE_ENCODING true sample_chars) as (q & H1 & _ & H2 & _).
  - split; [discriminate|intros E; discriminate E].
  - repeat (apply Forall_cons_2; [reflexivity|]). apply Forall_nil_2.
  - reflexivity.
  - exists q. split; [exact H1|exact H2].
Defined.
