(* ===== verification/YamlStarted.v ===== *)
(** * libyaml: the start of the stream, as the parser sees it

    A frame of the routines of [parser.c] over the scanner: once the scanner
    has produced the start of the stream it stays so, and the first event makes
    it so.  [yaml_parser_load] asks the scanner for it at every document. *)

From Stdlib Require Import ZArith Lia Ascii String.
From stdpp Require Import base list option strings.
From S2P Require Import Prelude YamlData YamlReader YamlParser YamlEvents YamlRefinement.
From S2P Require Import YamlScanner YamlFrame YamlLevels YamlUtf8 YamlBuffer YamlCursor YamlTotal.

#[local] Open Scope Z_scope.
#[local] Existing Instance scanner_source.

Definition start_kept (p p' : yaml_parser_t) : Prop :=
  p.(scanner).(stream_start_produced) = true -> p'.(scanner).(stream_start_produced) = true.
#[export] Instance start_kept_preorder : PreOrder start_kept.
Proof. unfold start_kept. split; red; auto. Qed.
Lemma wp_peek_kept p :
  wp lax PEEK_TOKEN (fun o p' => match o with Some _ => start_kept p p' | None => failed p' end) failed p.
Proof.
  unfold PEEK_TOKEN. wp_steps. destruct (token_available (scanner p)); wp_steps.
  - destruct (tokens _); by wp_steps.
  - eapply wp_mono; [apply wp_fetch_more_tokens| |].
    + intros _ p' (q & [K _] & -> & _). wp_steps. cbn. destruct (tokens _); [done|]. wp_steps.
      intros H. cbn. by apply K.
    + intros p' H. by wp_steps.
Qed.
Lemma sk_peek : sat start_kept peek.
Proof.
  intros p. unfold peek. wp_step. eapply wp_mono; [apply wp_peek_kept| |done].
  intros [t|] p' H; by wp_steps.
Qed.
#[export] Hint Resolve sk_peek : sat.
Ltac kept_solve := sat_solve ltac:(by intros ?).
Lemma sk_SKIP : sat start_kept SKIP_TOKEN.
Proof. unfold SKIP_TOKEN. kept_solve. Qed.
#[export] Hint Resolve sk_SKIP : sat.

Lemma sk_push {A} sz get set (v : A) :
  (forall s p, (set s p).(scanner) = p.(scanner)) -> sat start_kept (PUSH sz get set v).
Proof. intros H. unfold PUSH. sat_solve ltac:(unfold start_kept; by rewrite H). Qed.
Lemma sk_pop {A} get set :
  (forall s p, (set s p).(scanner) = p.(scanner)) -> sat start_kept (@POP A get set).
Proof. intros H. unfold POP. sat_solve ltac:(unfold start_kept; by rewrite H). Qed.
Lemma sk_push_state s : sat start_kept (push_state s). Proof. by apply sk_push. Qed.
Lemma sk_push_mark s : sat start_kept (push_mark s). Proof. by apply sk_push. Qed.
Lemma sk_push_tag s : sat start_kept (push_tag_directive s). Proof. by apply sk_push. Qed.
Lemma sk_pop_state : sat start_kept pop_state. Proof. by apply sk_pop. Qed.
Lemma sk_pop_mark : sat start_kept pop_mark. Proof. by apply sk_pop. Qed.
#[export] Hint Resolve sk_push_state sk_push_mark sk_push_tag sk_pop_state sk_pop_mark : sat.
Lemma sk_error {A} msg m : sat start_kept (@yaml_parser_set_parser_error A msg m).
Proof. intros p. apply wp_parser_error. Qed.
Lemma sk_error_context {A} c cm msg m : sat start_kept (@yaml_parser_set_parser_error_context A c cm msg m).
Proof. intros p. apply wp_parser_error_context. Qed.
#[export] Hint Resolve sk_error sk_error_context : sat.
Lemma sk_return : sat start_kept return_to_state.
Proof. unfold return_to_state, set_state_to. kept_solve. Qed.
#[export] Hint Resolve sk_return : sat.
Lemma sk_open b : sat start_kept (open_collection b).
Proof.
  unfold open_collection. destruct b; [|kept_solve]. intros p. wp_step.
  eapply wp_mono; [apply wp_peek_kept| |done]. intros [t|] p' H; cbn [deref]; [|done]. wp_step. wp_step.
  apply (sat_after start_kept _ p p' H). kept_solve.
Qed.
#[export] Hint Resolve sk_open : sat.
Lemma sk_node b i : sat start_kept (yaml_parser_parse_node b i).
Proof. unfold yaml_parser_parse_node, parse_properties, parse_tag, parse_content, set_state_to. kept_solve. Qed.
#[export] Hint Resolve sk_node : sat.
Lemma sk_node_then s b i : sat start_kept (parse_node_then s b i).
Proof. unfold parse_node_then. kept_solve. Qed.
Lemma sk_empty s m : sat start_kept (empty_scalar_then s m).
Proof. unfold empty_scalar_then, set_state_to, yaml_parser_process_empty_scalar. kept_solve. Qed.
Lemma sk_close e t : sat start_kept (close_collection e t).
Proof. unfold close_collection. kept_solve. Qed.
Lemma sk_cerror {A} c m t : sat start_kept (@collection_error A c m t).
Proof. unfold collection_error. kept_solve. Qed.
#[export] Hint Resolve sk_node_then sk_empty sk_close sk_cerror : sat.
Lemma sk_sep f c m t : sat start_kept (flow_separator f c m t).
Proof. unfold flow_separator. kept_solve. Qed.
#[export] Hint Resolve sk_sep : sat.
Lemma sk_append d b m : sat start_kept (yaml_parser_append_tag_directive d b m).
Proof. unfold yaml_parser_append_tag_directive. kept_solve. Qed.
#[export] Hint Resolve sk_append : sat.
Lemma sk_defaults ds m : sat start_kept (append_defaults ds m).
Proof. induction ds; cbn [append_defaults]; kept_solve. Qed.
#[export] Hint Resolve sk_defaults : sat.
Lemma sk_directives n : sat start_kept (yaml_parser_process_directives n).
Proof. unfold yaml_parser_process_directives, process_directive_tokens. kept_solve. Qed.
#[export] Hint Resolve sk_directives : sat.

(** The functions of the states. *)
Lemma sk_stream_start : sat start_kept yaml_parser_parse_stream_start.
Proof. unfold yaml_parser_parse_stream_start, set_state_to. kept_solve. Qed.
Lemma sk_document_start n b : sat start_kept (yaml_parser_parse_document_start n b).
Proof.
  unfold yaml_parser_parse_document_start, start_implicit_document, start_explicit_document, end_stream,
    skip_document_ends, set_state_to. kept_solve.
Qed.
Lemma sk_document_content : sat start_kept yaml_parser_parse_document_content.
Proof. unfold yaml_parser_parse_document_content, yaml_parser_process_empty_scalar. kept_solve. Qed.
Lemma sk_document_end : sat start_kept yaml_parser_parse_document_end.
Proof. unfold yaml_parser_parse_document_end, set_state_to. kept_solve. Qed.
Lemma sk_block_sequence b : sat start_kept (yaml_parser_parse_block_sequence_entry b).
Proof. unfold yaml_parser_parse_block_sequence_entry. kept_solve. Qed.
Lemma sk_indentless : sat start_kept yaml_parser_parse_indentless_sequence_entry.
Proof. unfold yaml_parser_parse_indentless_sequence_entry. kept_solve. Qed.
Lemma sk_block_key b : sat start_kept (yaml_parser_parse_block_mapping_key b).
Proof. unfold yaml_parser_parse_block_mapping_key. kept_solve. Qed.
Lemma sk_block_value : sat start_kept yaml_parser_parse_block_mapping_value.
Proof. unfold yaml_parser_parse_block_mapping_value. kept_solve. Qed.
Lemma sk_flow_sequence b : sat start_kept (yaml_parser_parse_flow_sequence_entry b).
Proof. unfold yaml_parser_parse_flow_sequence_entry, set_state_to. kept_solve. Qed.
Lemma sk_flow_entry_key : sat start_kept yaml_parser_parse_flow_sequence_entry_mapping_key.
Proof. unfold yaml_parser_parse_flow_sequence_entry_mapping_key. kept_solve. Qed.
Lemma sk_flow_entry_value : sat start_kept yaml_parser_parse_flow_sequence_entry_mapping_value.
Proof. unfold yaml_parser_parse_flow_sequence_entry_mapping_value. kept_solve. Qed.
Lemma sk_flow_entry_end : sat start_kept yaml_parser_parse_flow_sequence_entry_mapping_end.
Proof. unfold yaml_parser_parse_flow_sequence_entry_mapping_end, set_state_to. kept_solve. Qed.
Lemma sk_flow_key b : sat start_kept (yaml_parser_parse_flow_mapping_key b).
Proof. unfold yaml_parser_parse_flow_mapping_key. kept_solve. Qed.
Lemma sk_flow_value b : sat start_kept (yaml_parser_parse_flow_mapping_value b).
Proof. unfold yaml_parser_parse_flow_mapping_value. kept_solve. Qed.
#[export] Hint Resolve sk_stream_start sk_document_start sk_document_content sk_document_end
  sk_block_sequence sk_indentless sk_block_key sk_block_value sk_flow_sequence sk_flow_entry_key
  sk_flow_entry_value sk_flow_entry_end sk_flow_key sk_flow_value : sat.

(** The state after the end is never run. *)
Lemma sk_parse fuel : sat start_kept (yaml_parser_parse fuel).
Proof.
  intros p. unfold yaml_parser_parse, yaml_parser_state_machine. wp_step. apply wp_gets.
  destruct (parsing_is_over p) eqn:Eo; [by wp_steps|]. wp_step. apply wp_gets.
  apply orb_false_iff in Eo as [_ Eo]. apply bool_decide_eq_false in Eo.
  destruct (state (parsing p)); try done;
    match goal with |- wp _ ?m _ _ p => assert (sat start_kept m) as H by eauto 2 with sat; apply H end.
Qed.

(** The first event. *)
Lemma stream_start_makes fuel p :
  scanner_ok p.(reader) p.(scanner) -> p.(parsing).(state) = YAML_PARSE_STREAM_START_STATE ->
  parsing_is_over p = false ->
  wp lax (yaml_parser_parse fuel)
    (fun _ p' => p'.(scanner).(stream_start_produced) = true) failed p.
Proof.
  intros [Hok Hset] Es Eo. unfold yaml_parser_parse, yaml_parser_state_machine. wp_step. apply wp_gets.
  rewrite Eo. wp_step. apply wp_gets. rewrite Es. unfold yaml_parser_parse_stream_start. wp_step.
  assert (forall q, scan_inv q.(scanner) -> q.(scanner).(tokens) <> [] ->
            q.(scanner).(stream_start_produced) = true) as Hst.
  { intros q H Ht. unfold scan_inv in H. destruct (stream_start_produced _); [done|].
    by destruct H as (_ & _ & _ & H). }
  apply (wp_mono lax _ (fun _ q => q.(scanner).(stream_start_produced) = true) _ failed); [|cbv beta|done].
  - unfold peek, PEEK_TOKEN. wp_steps. destruct (token_available (scanner p)) eqn:Ea; wp_steps.
    + destruct (Hset eq_refl) as [Ht _]. cbn in Ht. destruct (tokens (scanner p)) eqn:Et; [done|]. wp_steps.
      apply Hst; [apply Hok|by rewrite Et].
    + eapply wp_mono; [apply wp_fetch_more_tokens|intros [] p' (q & [_ Hi] & -> & Hne)|]; cbv beta.
      * wp_steps. cbn. destruct (tokens (scanner q)) eqn:Et; [done|]. wp_steps.
        apply (Hst q); [apply Hi, Hok|by rewrite Et].
      * intros p' H. by wp_steps.
  - intros t q Hq. eapply wp_mono; [|intros ? ? H; exact (H Hq)|done].
    match goal with |- wp _ ?m _ _ q => assert (sat start_kept m) as H; [|apply H] end.
    unfold set_state_to. kept_solve.
Qed.
