(* ===== verification/YamlDocument.v ===== *)
(** * libyaml: documents ([yaml.h], [api.c])

    The tree of nodes that the loader builds and an application may build by
    hand: a stack of nodes that refer to each other by their index (from 1),
    the functions of [api.c] that create and extend it, and the test of UTF-8
    that guards the texts it takes. *)

From Stdlib Require Import ZArith Lia Ascii String.
From stdpp Require Import base list option strings.
From S2P Require Import Prelude YamlData YamlReader YamlUtf8.

#[local] Open Scope Z_scope.

(** ** Data *)

Record yaml_node_pair_t : Type := mkPair { pair_key : Z; pair_value : Z }.

Inductive yaml_node_data : Type :=
| YAML_NO_NODE
| YAML_SCALAR_NODE (value : list Z) (length : Z) (style : yaml_scalar_style_t)
| YAML_SEQUENCE_NODE (seq_items : stack Z) (style : yaml_sequence_style_t)
| YAML_MAPPING_NODE (map_pairs : stack yaml_node_pair_t) (style : yaml_mapping_style_t).

Record yaml_node_t : Type := NODE_INIT {
  node_data : yaml_node_data;
  node_tag : list Z;
  node_start_mark : yaml_mark_t;
  node_end_mark : yaml_mark_t
}.

Record yaml_document_t : Type := DOCUMENT_INIT {
  nodes : stack yaml_node_t;
  version_directive : option yaml_version_directive_t;
  document_tag_directives : list yaml_tag_directive_t;
  start_implicit : bool;
  end_implicit : bool;
  document_start_mark : yaml_mark_t;
  document_end_mark : yaml_mark_t
}.

Definition sizeof_node : Z := 96.
Definition sizeof_item : Z := 4.
Definition sizeof_pair : Z := 8.

Definition YAML_DEFAULT_SCALAR_TAG : list Z := bytes_of "tag:yaml.org,2002:str".
Definition YAML_DEFAULT_SEQUENCE_TAG : list Z := bytes_of "tag:yaml.org,2002:seq".
Definition YAML_DEFAULT_MAPPING_TAG : list Z := bytes_of "tag:yaml.org,2002:map".

(** [memset(document, 0, sizeof(yaml_document_t))] and a stack of nodes. *)
Definition empty_document : yaml_document_t :=
  DOCUMENT_INIT STACK_INIT None [] false false mark0 mark0.

Definition set_nodes (s : stack yaml_node_t) (d : yaml_document_t) : yaml_document_t :=
  DOCUMENT_INIT s d.(version_directive) d.(document_tag_directives) d.(start_implicit)
    d.(end_implicit) d.(document_start_mark) d.(document_end_mark).

(** The nodes from [nodes.start] to [nodes.top]. *)
Definition document_nodes (d : yaml_document_t) : list yaml_node_t := rev d.(nodes).(items).
Definition node_count (d : yaml_document_t) : Z := Z.of_nat (length d.(nodes).(items)).

(** [document->nodes.start[index-1]], and its assignment. *)
Definition node_at (i : Z) (d : yaml_document_t) : option yaml_node_t :=
  if 0 <? i then document_nodes d !! Z.to_nat (i - 1) else None.

Definition set_node (i : Z) (n : yaml_node_t) (d : yaml_document_t) : yaml_document_t :=
  set_nodes (mkStack (rev (<[Z.to_nat (i - 1) := n]> (document_nodes d)))
               d.(nodes).(capacity)) d.

Definition with_data (x : yaml_node_data) (n : yaml_node_t) : yaml_node_t :=
  NODE_INIT x n.(node_tag) n.(node_start_mark) n.(node_end_mark).
Definition with_end_mark (m : yaml_mark_t) (n : yaml_node_t) : yaml_node_t :=
  NODE_INIT n.(node_data) n.(node_tag) n.(node_start_mark) m.

(** ** [yaml_check_utf8] *)

(** The loop over the octets behind the first of a character. *)
Fixpoint check_trailing (k : nat) (value : Z) (l : list Z) : option (Z * list Z) :=
  match k with
  | O => Some (value, l)
  | S k' =>
      match l with
      | [] => None
      | octet :: r =>
          if Z.land octet 0xC0 =? 0x80 then
            check_trailing k' (Z.shiftl value 6 + Z.land octet 0x3F) r
          else None
      end
  end.

Definition check_width (width value : Z) : bool :=
  (width =? 1) || ((width =? 2) && (value >=? 0x80)) || ((width =? 3) && (value >=? 0x800))
  || ((width =? 4) && (value >=? 0x10000)).

(** One turn of the outer loop: what is left behind a character. *)
Definition check_char (l : list Z) : option (list Z) :=
  match l with
  | [] => None
  | octet :: r =>
      let width := utf8_width octet in
      if width =? 0 then None
      else if Z.of_nat (length l) <? width then None
      else
        match check_trailing (Z.to_nat (width - 1)) (utf8_lead octet) r with
        | Some (value, r') => if check_width width value then Some r' else None
        | None => None
        end
  end.

Fixpoint check_chars (fuel : nat) (l : list Z) : bool :=
  match l, fuel with
  | [], _ => true
  | _ :: _, O => false
  | _ :: _, S n => match check_char l with Some r => check_chars n r | None => false end
  end.

(** Every turn takes an octet at least. *)
Definition yaml_check_utf8 (l : list Z) : bool := check_chars (length l) l.

(** ** Creating and reading documents *)

(** A [PUSH] on a stack of the document: the error goes to a local context. *)
Definition doc_prog : Type -> Type := prog yaml_document_t.

Definition push_node (n : yaml_node_t) : doc_prog Z :=
  d ← gets id;
  match stack_push sizeof_node d.(nodes) n with
  | Some s => modify (set_nodes s);; gets node_count
  | None => fail
  end.

Fixpoint copy_directives (ds : list yaml_tag_directive_t) (s : stack yaml_tag_directive_t) :
    option (stack yaml_tag_directive_t) :=
  match ds with
  | [] => Some s
  | d :: ds' =>
      if negb (yaml_check_utf8 (cstr d.(td_handle))) then None
      else if negb (yaml_check_utf8 (cstr d.(td_prefix))) then None
      else
        s' ← stack_push sizeof_tag_directive s
               (mkTagDirective (cstr d.(td_handle)) (cstr d.(td_prefix)));
        copy_directives ds' s'
  end.

Definition yaml_document_initialize (version : option yaml_version_directive_t)
    (tags : list yaml_tag_directive_t) (si ei : bool) : doc_prog unit :=
  match copy_directives tags STACK_INIT with
  | Some s =>
      modify (fun _ => DOCUMENT_INIT STACK_INIT version (rev s.(items)) si ei mark0 mark0)
  | None => fail
  end.

Definition yaml_document_get_node (i : Z) (d : yaml_document_t) : option yaml_node_t :=
  if (0 <? i) && (i <=? node_count d) then document_nodes d !! Z.to_nat (i - 1) else None.

Definition yaml_document_get_root_node (d : yaml_document_t) : option yaml_node_t :=
  if bool_decide (d.(nodes).(items) = []) then None else document_nodes d !! 0%nat.

(** [length < 0] asks for the length of the string; a length behind the end of
    the buffer reads outside it. *)
Definition yaml_document_add_scalar (tag : option (list Z)) (value : list Z) (len : Z)
    (style : yaml_scalar_style_t) : doc_prog Z :=
  let tag := default YAML_DEFAULT_SCALAR_TAG tag in
  if negb (yaml_check_utf8 (cstr tag)) then fail
  else
    let len := if len <? 0 then Z.of_nat (length (cstr value)) else len in
    let text := take (Z.to_nat len) value in
    if Z.of_nat (length value) <? len then crash
    else if negb (yaml_check_utf8 text) then fail
    else push_node (NODE_INIT (YAML_SCALAR_NODE text len style) (cstr tag) mark0 mark0).

Definition yaml_document_add_sequence (tag : option (list Z)) (style : yaml_sequence_style_t) :
    doc_prog Z :=
  let tag := default YAML_DEFAULT_SEQUENCE_TAG tag in
  if negb (yaml_check_utf8 (cstr tag)) then fail
  else push_node (NODE_INIT (YAML_SEQUENCE_NODE STACK_INIT style) (cstr tag) mark0 mark0).

Definition yaml_document_add_mapping (tag : option (list Z)) (style : yaml_mapping_style_t) :
    doc_prog Z :=
  let tag := default YAML_DEFAULT_MAPPING_TAG tag in
  if negb (yaml_check_utf8 (cstr tag)) then fail
  else push_node (NODE_INIT (YAML_MAPPING_NODE STACK_INIT style) (cstr tag) mark0 mark0).

(** The assertions on a node id. *)
Definition valid_id (i : Z) (d : yaml_document_t) : bool := (0 <? i) && (i <=? node_count d).

Definition yaml_document_append_sequence_item (sequence item : Z) : doc_prog unit :=
  d ← gets id;
  if negb (valid_id sequence d) then crash
  else
    n ← deref (node_at sequence d);
    match n.(node_data) with
    | YAML_SEQUENCE_NODE s style =>
        if negb (valid_id item d) then crash
        else
          match stack_push sizeof_item s item with
          | Some s' => modify (set_node sequence (with_data (YAML_SEQUENCE_NODE s' style) n))
          | None => fail
          end
    | _ => crash
    end.

Definition yaml_document_append_mapping_pair (mapping key value : Z) : doc_prog unit :=
  d ← gets id;
  if negb (valid_id mapping d) then crash
  else
    n ← deref (node_at mapping d);
    match n.(node_data) with
    | YAML_MAPPING_NODE s style =>
        if negb (valid_id key d && valid_id value d) then crash
        else
          match stack_push sizeof_pair s (mkPair key value) with
          | Some s' => modify (set_node mapping (with_data (YAML_MAPPING_NODE s' style) n))
          | None => fail
          end
    | _ => crash
    end.

(** ** The test of UTF-8 *)

(** The code points of four octets or less, surrogates and all. *)
Definition code_value (v : Z) : Prop := 0 <= v <= 0x1FFFFF.

Lemma check_trailing_app xs : forall rest v,
  Forall (fun x => 0 <= x < 64) xs ->
  check_trailing (length xs) v (map (Z.add 0x80) xs ++ rest)
  = Some (foldl (fun a x => a * 64 + x) v xs, rest).
Proof.
  induction xs as [|x xs IH]; intros rest v Hx; [done|].
  apply Forall_cons in Hx as [Hx Hxs]. cbn [length check_trailing map app foldl].
  destruct (trail_octet x Hx) as [E1 E2]. rewrite E1, E2. cbn [Z.eqb Pos.eqb].
  rewrite Z.shiftl_mul_pow2 by lia. by apply IH.
Qed.

Lemma check_trailing_inv n : forall l v v' r,
  Forall is_octet l -> check_trailing n v l = Some (v', r) ->
  exists xs, l = map (Z.add 0x80) xs ++ r /\ length xs = n
    /\ Forall (fun x => 0 <= x < 64) xs /\ v' = foldl (fun a x => a * 64 + x) v xs.
Proof.
  induction n as [|n IH]; intros l v v' r Hl; cbn [check_trailing].
  { intros [= <- <-]. by exists []. }
  destruct l as [|b l]; [done|]. apply Forall_cons in Hl as [Hb Hl].
  destruct (Z.land b 0xC0 =? 0x80) eqn:E; [|done]. apply Z.eqb_eq in E.
  destruct (trail_inv b Hb E) as [B1 B2]. rewrite Z.shiftl_mul_pow2 by lia.
  intros (xs & -> & <- & Hxs & ->)%IH; [|done].
  exists (Z.land b 0x3F :: xs). cbn. rewrite <- B1. split_and!; try done. by apply Forall_cons_2.
Qed.

(** A leading octet and its trailing octets. *)
Lemma check_char_seq b xs rest :
  utf8_width b = Z.of_nat (S (length xs)) -> Forall (fun x => 0 <= x < 64) xs ->
  check_char (b :: map (Z.add 0x80) xs ++ rest)
  = if check_width (utf8_width b) (foldl (fun a x => a * 64 + x) (utf8_lead b) xs)
    then Some rest else None.
Proof.
  intros Hw Hx. cbn [check_char]. rewrite Hw.
  assert ((Z.of_nat (S (length xs)) =? 0) = false) as -> by (apply Z.eqb_neq; lia).
  assert ((Z.of_nat (length (b :: map (Z.add 128) xs ++ rest)) <? Z.of_nat (S (length xs))) = false) as ->.
  { cbn [length]. rewrite length_app, length_map. apply Z.ltb_ge. lia. }
  replace (Z.to_nat (Z.of_nat (S (length xs)) - 1)) with (length xs) by lia.
  by rewrite check_trailing_app.
Qed.

(** The parts of an encoding. *)
Lemma encode_shape v : code_value v ->
  exists b xs, utf8_encode v = b :: map (Z.add 0x80) xs
    /\ utf8_width b = Z.of_nat (S (length xs)) /\ Forall (fun x => 0 <= x < 64) xs
    /\ foldl (fun a x => a * 64 + x) (utf8_lead b) xs = v
    /\ check_width (utf8_width b) v = true.
Proof.
  intros Hv. unfold code_value in Hv. rewrite utf8_encode_eq.
  assert (0 <= v mod 64 < 64 /\ 0 <= v / 64 mod 64 < 64 /\ 0 <= v / 4096 mod 64 < 64)
    as (M1 & M2 & M3) by (repeat split; apply Z.mod_pos_bound; lia).
  assert (v / 64 / 64 = v / 4096) as D1 by (rewrite Z.div_div; lia || done).
  assert (v / 4096 / 64 = v / 262144) as D2 by (rewrite Z.div_div; lia || done).
  pose proof (Z.div_mod v 64 ltac:(lia)). pose proof (Z.div_mod (v / 64) 64 ltac:(lia)) as E2.
  pose proof (Z.div_mod (v / 4096) 64 ltac:(lia)) as E3. rewrite D1 in E2. rewrite D2 in E3.
  destruct (v <=? 0x7F) eqn:C1; [|destruct (v <=? 0x7FF) eqn:C2; [|destruct (v <=? 0xFFFF) eqn:C3]].
  - destruct (lead_1 v ltac:(lia)) as [W L]. exists v, []. rewrite W. by split_and!.
  - destruct (lead_2 (v / 64) ltac:(lia)) as [W L]. exists (0xC0 + v / 64), [v mod 64].
    rewrite W, L. split_and!; [done|done|payloads|cbn; lia|unfold check_width; lia].
  - destruct (lead_3 (v / 4096) ltac:(lia)) as [W L].
    exists (0xE0 + v / 4096), [v / 64 mod 64; v mod 64].
    rewrite W, L. split_and!; [done|done|payloads|cbn; lia|unfold check_width; lia].
  - destruct (lead_4 (v / 262144) ltac:(lia)) as [W L].
    exists (0xF0 + v / 262144), [v / 4096 mod 64; v / 64 mod 64; v mod 64].
    rewrite W, L. split_and!; [done|done|payloads|cbn; lia|unfold check_width; lia].
Qed.

Lemma check_char_encode v rest : code_value v -> check_char (utf8_encode v ++ rest) = Some rest.
Proof.
  intros (b & xs & -> & Hw & Hx & Hv & Hc)%encode_shape. rewrite <- app_comm_cons.
  rewrite check_char_seq by done. by rewrite Hv, Hc.
Qed.

Lemma check_char_inv l r :
  Forall is_octet l -> check_char l = Some r -> exists v, code_value v /\ l = utf8_encode v ++ r.
Proof.
  intros Ho H. destruct l as [|b l]; [done|]. apply Forall_cons in Ho as [Hb Hl].
  pose proof (lead_inv b Hb) as Hw. cbn zeta in Hw. cbn [check_char] in H.
  destruct (utf8_width b =? 0) eqn:E0; [done|]. destruct (_ <? _); [done|].
  destruct (check_trailing _ _ _) as [[v r']|] eqn:Et; [|done].
  destruct (check_width _ v) eqn:Ec; [|done]. injection H as ->.
  apply check_trailing_inv in Et as (xs & -> & Hn & Hx & Hv); [|done].
  assert (utf8_width b = 1 \/ utf8_width b = 2 \/ utf8_width b = 3 \/ utf8_width b = 4) as Hcase.
  { clear - Hw E0. destruct (utf8_width b) as [|[[?|?|]|[[?|?|]|[?|?|]|]|]|]; auto; done. }
  assert (utf8_width b = Z.of_nat (S (length xs))) as Hlen by lia.
  pose proof (encode_parts (utf8_lead b) xs _ v Hx Hlen Hv) as (P1 & P2 & P3 & P4).
  exists v. unfold check_width in Ec.
  destruct Hcase as [E|[E|[E|E]]]; rewrite E in *; destruct Hw as [Hbx Hlt].
  - destruct xs; [|cbn [length] in Hlen; lia]. rewrite P1 by done. cbn in Hv. rewrite <- Hbx.
    split; [unfold code_value; lia|done].
  - rewrite P2 by lia. rewrite <- Hbx. split; [|done]. destruct xs as [|x [|]]; try (cbn [length] in Hlen; lia).
    rewrite !Forall_cons in Hx. cbn in Hv. unfold code_value. lia.
  - rewrite P3 by lia. rewrite <- Hbx. split; [|done].
    destruct xs as [|x [|y [|]]]; try (cbn [length] in Hlen; lia).
    rewrite !Forall_cons in Hx. cbn in Hv. unfold code_value. lia.
  - rewrite P4 by lia. rewrite <- Hbx. split; [|done].
    destruct xs as [|x [|y [|z [|]]]]; try (cbn [length] in Hlen; lia).
    rewrite !Forall_cons in Hx. cbn in Hv. unfold code_value. lia.
Qed.

Lemma check_chars_text vs n :
  Forall code_value vs -> (length (utf8_text vs) <= n)%nat -> check_chars n (utf8_text vs) = true.
Proof.
  intros Hv. revert n. induction Hv as [|v vs Hv _ IH]; intros n Hn; [by destruct n|].
  pose proof (check_char_encode v (utf8_text vs) Hv) as Hc.
  destruct (encode_shape v Hv) as (b & xs & E & _).
  change (utf8_text (v :: vs)) with (utf8_encode v ++ utf8_text vs) in *.
  rewrite E in *. cbn [app length] in *. destruct n as [|n]; [lia|].
  cbn [check_chars]. rewrite Hc. apply IH. rewrite length_app in Hn. lia.
Qed.

Lemma check_chars_inv n l :
  Forall is_octet l -> check_chars n l = true -> exists vs, Forall code_value vs /\ l = utf8_text vs.
Proof.
  revert l. induction n as [|n IH]; intros l Ho H.
  { destruct l; [|done]. by exists []. }
  destruct l as [|b l0]; [by exists []|]. cbn [check_chars] in H. set (l := b :: l0) in *.
  destruct (check_char l) as [r|] eqn:Ec; [|done].
  destruct (check_char_inv l r Ho Ec) as (v & Hv & E).
  destruct (IH r) as (vs & Hvs & ->); [|done|].
  { rewrite E in Ho. by apply Forall_app in Ho as [_ Ho]. }
  exists (v :: vs). split; [by constructor|exact E].
Qed.

(** ** Well-formed documents *)

Definition ref_ok (count i : Z) : Prop := 1 <= i <= count.

(** Every node that a node refers to is there. *)
Definition node_ok (count : Z) (n : yaml_node_t) : Prop :=
  match n.(node_data) with
  | YAML_NO_NODE => False
  | YAML_SCALAR_NODE _ _ _ => True
  | YAML_SEQUENCE_NODE s _ => Forall (ref_ok count) s.(items)
  | YAML_MAPPING_NODE s _ =>
      Forall (fun x => ref_ok count x.(pair_key) /\ ref_ok count x.(pair_value)) s.(items)
  end.

Definition document_ok (d : yaml_document_t) : Prop :=
  Forall (node_ok (node_count d)) (document_nodes d).

Lemma ref_ok_mono c c' i : ref_ok c i -> c <= c' -> ref_ok c' i.
Proof. unfold ref_ok. lia. Qed.

Lemma node_ok_mono c c' n : node_ok c n -> c <= c' -> node_ok c' n.
Proof.
  intros H Hc. unfold node_ok in *. destruct (node_data n); try done;
    (eapply Forall_impl; [done|]); cbv beta; unfold ref_ok; intros; lia.
Qed.

Lemma node_count_length d : node_count d = Z.of_nat (length (document_nodes d)).
Proof. unfold node_count, document_nodes. by rewrite length_rev. Qed.

(** The store of nodes: what a read sees after a write. *)
Lemma document_nodes_set i n d :
  document_nodes (set_node i n d) = <[Z.to_nat (i - 1) := n]> (document_nodes d).
Proof. unfold document_nodes at 1, set_node. cbn. by rewrite rev_involutive. Qed.

Lemma node_count_set i n d : node_count (set_node i n d) = node_count d.
Proof. rewrite !node_count_length, document_nodes_set. by rewrite length_insert. Qed.

Lemma node_at_valid i d : ref_ok (node_count d) i -> exists n, node_at i d = Some n.
Proof.
  unfold ref_ok, node_at. rewrite node_count_length. intros H.
  assert ((0 <? i) = true) as -> by lia. apply lookup_lt_is_Some. lia.
Qed.

Lemma node_at_ref i d n : node_at i d = Some n -> ref_ok (node_count d) i.
Proof.
  unfold node_at, ref_ok. destruct (0 <? i) eqn:E; [|done]. intros H%lookup_lt_Some.
  rewrite node_count_length. lia.
Qed.

Lemma node_at_set_same i n n' d : node_at i d = Some n -> node_at i (set_node i n' d) = Some n'.
Proof.
  intros H. pose proof (node_at_ref _ _ _ H) as Hr. unfold ref_ok in Hr. rewrite node_count_length in Hr.
  unfold node_at in *. destruct (0 <? i); [|done]. rewrite document_nodes_set.
  rewrite list_lookup_insert_eq; [done|lia].
Qed.

Lemma node_at_set_other i j n d :
  i <> j -> 0 < i -> node_at j (set_node i n d) = node_at j d.
Proof.
  intros Hij Hi. unfold node_at. destruct (0 <? j) eqn:E; [|done]. rewrite document_nodes_set.
  rewrite list_lookup_insert_ne; [done|lia].
Qed.

Lemma get_node_at i d : yaml_document_get_node i d = node_at i d.
Proof.
  unfold yaml_document_get_node, node_at. destruct (0 <? i) eqn:E; [|done]. cbn.
  destruct (i <=? node_count d) eqn:E2; [done|]. symmetry. apply lookup_ge_None.
  rewrite node_count_length in E2. lia.
Qed.

Lemma valid_id_ref i d : valid_id i d = true <-> ref_ok (node_count d) i.
Proof. unfold valid_id, ref_ok. lia. Qed.

(** A pushed node is the last one. *)
Lemma document_nodes_push d s n sz :
  stack_push sz d.(nodes) n = Some s -> document_nodes (set_nodes s d) = document_nodes d ++ [n].
Proof.
  unfold stack_push, document_nodes. intros H. destruct (_ =? _); [destruct (yaml_stack_extend _)|];
    by simplify_eq.
Qed.

Lemma stack_push_items {A} sz (s s' : stack A) v :
  stack_push sz s v = Some s' -> s'.(items) = v :: s.(items).
Proof. unfold stack_push. destruct (_ =? _); [destruct (yaml_stack_extend _)|]; by intros; simplify_eq. Qed.

Lemma push_lookup d s n sz :
  stack_push sz d.(nodes) n = Some s ->
  node_count (set_nodes s d) = node_count d + 1
  /\ node_at (node_count d + 1) (set_nodes s d) = Some n
  /\ forall i x, node_at i d = Some x -> node_at i (set_nodes s d) = Some x.
Proof.
  intros Hs. pose proof (document_nodes_push _ _ _ _ Hs) as E. split_and!.
  - rewrite !node_count_length, E, length_app. cbn. lia.
  - unfold node_at. rewrite node_count_length, E.
    assert ((0 <? Z.of_nat (length (document_nodes d)) + 1) = true) as -> by (apply Z.ltb_lt; lia).
    rewrite lookup_app_r by lia. replace (Z.to_nat _ - _)%nat with 0%nat by lia. done.
  - intros i x H. unfold node_at in *. destruct (0 <? i); [|done]. rewrite E.
    by apply lookup_app_l_Some.
Qed.

(** The nodes after a push: the earlier ones and the new one. *)
Lemma push_lookup_inv d s n sz i x :
  stack_push sz d.(nodes) n = Some s -> node_at i (set_nodes s d) = Some x ->
  node_at i d = Some x \/ i = node_count d + 1 /\ x = n.
Proof.
  intros Hs Hx. destruct (push_lookup _ _ _ _ Hs) as (Ec & Hnew & Hold).
  destruct (node_at i d) as [z|] eqn:Ez; [left; by rewrite <- Hx, (Hold _ _ Ez)|right].
  pose proof (node_at_ref _ _ _ Hx) as Hr. rewrite Ec in Hr.
  destruct (Z.eq_dec i (node_count d + 1)) as [->|Hne]; [split; congruence|].
  destruct (node_at_valid i d) as [z Hz]; [unfold ref_ok in *; lia|congruence].
Qed.

Lemma document_ok_push d s n sz :
  document_ok d -> stack_push sz d.(nodes) n = Some s -> node_ok (node_count d + 1) n ->
  document_ok (set_nodes s d).
Proof.
  intros Hd Hs Hn. destruct (push_lookup _ _ _ _ Hs) as (Ec & _).
  unfold document_ok. rewrite Ec, (document_nodes_push _ _ _ _ Hs). apply Forall_app.
  split; [|by constructor]. eapply Forall_impl; [done|]. intros x Hx. eapply node_ok_mono; [done|lia].
Qed.

Lemma document_ok_set d i n :
  document_ok d -> node_ok (node_count d) n -> document_ok (set_node i n d).
Proof.
  intros Hd Hn. unfold document_ok in *. rewrite document_nodes_set, node_count_set.
  by apply Forall_insert.
Qed.

Lemma cstr_length l : (length (cstr l) <= length l)%nat.
Proof. induction l as [|b l IH]; cbn; [lia|]. destruct (b =? 0); cbn; lia. Qed.

(** *** A document built by calls of the interface *)

Inductive doc_op : Type :=
| AddScalar (tag : option (list Z)) (value : list Z) (len : Z) (style : yaml_scalar_style_t)
| AddSequence (tag : option (list Z)) (style : yaml_sequence_style_t)
| AddMapping (tag : option (list Z)) (style : yaml_mapping_style_t)
| AppendItem (sequence item : Z)
| AppendPair (mapping key value : Z).

Definition run_op (o : doc_op) : doc_prog Z :=
  match o with
  | AddScalar tag value len style => yaml_document_add_scalar tag value len style
  | AddSequence tag style => yaml_document_add_sequence tag style
  | AddMapping tag style => yaml_document_add_mapping tag style
  | AppendItem s i => yaml_document_append_sequence_item s i;; mret 1
  | AppendPair m k v => yaml_document_append_mapping_pair m k v;; mret 1
  end.

(** The conditions that the assertions state. *)
Definition op_valid (d : yaml_document_t) (o : doc_op) : bool :=
  match o with
  | AddScalar _ value len _ => len <=? Z.of_nat (length value)
  | AddSequence _ _ | AddMapping _ _ => true
  | AppendItem s i =>
      valid_id i d &&
      match node_at s d with
      | Some n => match n.(node_data) with YAML_SEQUENCE_NODE _ _ => true | _ => false end
      | None => false
      end
  | AppendPair m k v =>
      valid_id k d && valid_id v d &&
      match node_at m d with
      | Some n => match n.(node_data) with YAML_MAPPING_NODE _ _ => true | _ => false end
      | None => false
      end
  end.

(** The tag of a node: the given one up to its NUL, or the standard one. *)
Definition tag_text (tag : option (list Z)) (standard : string) : list Z :=
  match tag with Some t => cstr t | None => bytes_of standard end.

(** The text of a scalar: [len] octets, or the octets up to the NUL. *)
Definition scalar_text (value : list Z) (len : Z) : list Z :=
  if len <? 0 then cstr value else take (Z.to_nat len) value.

Definition scalar_made tag value len style : yaml_node_t :=
  let text := scalar_text value len in
  NODE_INIT (YAML_SCALAR_NODE text (Z.of_nat (length text)) style)
    (tag_text tag "tag:yaml.org,2002:str") mark0 mark0.
Definition sequence_made tag style : yaml_node_t :=
  NODE_INIT (YAML_SEQUENCE_NODE STACK_INIT style) (tag_text tag "tag:yaml.org,2002:seq") mark0 mark0.
Definition mapping_made tag style : yaml_node_t :=
  NODE_INIT (YAML_MAPPING_NODE STACK_INIT style) (tag_text tag "tag:yaml.org,2002:map") mark0 mark0.

(** The document [d'] is [d] with the node [n] behind its nodes. *)
Definition node_added (d : yaml_document_t) (n : yaml_node_t) (r : Z) (d' : yaml_document_t) : Prop :=
  r = node_count d + 1 /\ node_count d' = r /\ d' = set_nodes d'.(nodes) d
  /\ yaml_document_get_node r d' = Some n
  /\ forall i, i <> r -> yaml_document_get_node i d' = yaml_document_get_node i d.

(** The document [d'] is [d] with the data [x] in its node [i], which was [n]. *)
Definition data_changed (d : yaml_document_t) (i : Z) (n : yaml_node_t) (x : yaml_node_data)
    (d' : yaml_document_t) : Prop :=
  node_count d' = node_count d /\ d' = set_nodes d'.(nodes) d
  /\ yaml_document_get_node i d = Some n /\ yaml_document_get_node i d' = Some (with_data x n)
  /\ forall j, j <> i -> yaml_document_get_node j d' = yaml_document_get_node j d.

(** What a call does to the document [d]. *)
Definition op_effect (d : yaml_document_t) (o : doc_op) (r : Z) (d' : yaml_document_t) : Prop :=
  match o with
  | AddScalar tag value len style => node_added d (scalar_made tag value len style) r d'
  | AddSequence tag style => node_added d (sequence_made tag style) r d'
  | AddMapping tag style => node_added d (mapping_made tag style) r d'
  | AppendItem s i =>
      r = 1 /\ exists n x x' style, n.(node_data) = YAML_SEQUENCE_NODE x style
        /\ rev x'.(items) = rev x.(items) ++ [i]
        /\ data_changed d s n (YAML_SEQUENCE_NODE x' style) d'
  | AppendPair m k v =>
      r = 1 /\ exists n x x' style, n.(node_data) = YAML_MAPPING_NODE x style
        /\ rev x'.(items) = rev x.(items) ++ [mkPair k v]
        /\ data_changed d m n (YAML_MAPPING_NODE x' style) d'
  end.

(** A stack that [yaml_stack_extend] refuses to double. *)
Definition stack_limit {A} (sz : Z) (s : stack A) : Prop :=
  Z.of_nat (length s.(items)) = s.(capacity) /\ INT_MAX / 2 <= s.(capacity) * sz.

(** Why a call fails: a text that is not UTF-8, or a stack at its limit. *)
Definition op_refused (d : yaml_document_t) (o : doc_op) : Prop :=
  match o with
  | AddScalar tag value len _ =>
      yaml_check_utf8 (tag_text tag "tag:yaml.org,2002:str") = false
      \/ yaml_check_utf8 (scalar_text value len) = false \/ stack_limit sizeof_node d.(nodes)
  | AddSequence tag _ =>
      yaml_check_utf8 (tag_text tag "tag:yaml.org,2002:seq") = false
      \/ stack_limit sizeof_node d.(nodes)
  | AddMapping tag _ =>
      yaml_check_utf8 (tag_text tag "tag:yaml.org,2002:map") = false
      \/ stack_limit sizeof_node d.(nodes)
  | AppendItem s _ => exists n x style, yaml_document_get_node s d = Some n
      /\ n.(node_data) = YAML_SEQUENCE_NODE x style /\ stack_limit sizeof_item x
  | AppendPair m _ _ => exists n x style, yaml_document_get_node m d = Some n
      /\ n.(node_data) = YAML_MAPPING_NODE x style /\ stack_limit sizeof_pair x
  end.

(** C19: [yaml_check_utf8] accepts a string of octets exactly when it is a
    sequence of canonical encodings of code points of at most twenty-one bits:
    no overlong form, no truncated character, no stray octet; unlike the
    decoder of the reader it lets surrogates and the values above 0x10FFFF
    pass. *)
Theorem check_utf8_exact (l : list Z) :
  Forall is_octet l ->
  yaml_check_utf8 l = true <-> exists vs, Forall code_value vs /\ l = utf8_text vs.
Proof.
  intros Ho. split; [by apply check_chars_inv|]. intros (vs & Hv & ->). by apply check_chars_text.
Qed.

(** A surrogate and a value of twenty-one bits pass. *)
Lemma check_utf8_exact_witness :
  yaml_check_utf8 [0xED; 0xA0; 0x80; 0xF7; 0xBF; 0xBF; 0xBF] = true
  /\ exists vs, Forall code_value vs /\ [0xED; 0xA0; 0x80; 0xF7; 0xBF; 0xBF; 0xBF] = utf8_text vs.
Proof.
  split; [reflexivity|]. apply (check_utf8_exact [0xED; 0xA0; 0x80; 0xF7; 0xBF; 0xBF; 0xBF]).
  - repeat (apply Forall_cons_2; [unfold is_octet; lia|]). apply Forall_nil_2.
  - reflexivity.
Defined.

(** ** The interface of documents *)

Lemma stack_push_none {A} sz (s : stack A) v : stack_push sz s v = None -> stack_limit sz s.
Proof.
  unfold stack_push, stack_limit, yaml_stack_extend. destruct (Z.eqb_spec (Z.of_nat (length (items s))) (capacity s)); [|done].
  destruct (_ >=? _) eqn:E; [|done]. intros _. split; [done|lia].
Qed.

Lemma take_cstr l : take (length (cstr l)) l = cstr l.
Proof. induction l as [|b l IH]; [done|]. cbn. destruct (b =? 0); [done|]. cbn. by rewrite IH. Qed.

(** The text and the length that [yaml_document_add_scalar] stores. *)
Lemma scalar_text_eq value len :
  len <= Z.of_nat (length value) ->
  let l := if len <? 0 then Z.of_nat (length (cstr value)) else len in
  take (Z.to_nat l) value = scalar_text value len /\ l = Z.of_nat (length (scalar_text value len))
  /\ (Z.of_nat (length value) <? l) = false.
Proof.
  intros Hl. cbv zeta. unfold scalar_text. pose proof (cstr_length value). destruct (len <? 0) eqn:E.
  - rewrite Nat2Z.id. split; [apply take_cstr|]. lia.
  - split; [done|]. rewrite length_take. lia.
Qed.

Lemma cstr_tag_text tag standard :
  cstr (bytes_of standard) = bytes_of standard ->
  cstr (default (bytes_of standard) tag) = tag_text tag standard.
Proof. by destruct tag. Qed.

Lemma wp_push_node d n (E : Prop) :
  document_ok d -> node_ok (node_count d + 1) n -> (stack_limit sizeof_node d.(nodes) -> E) ->
  wp strict (push_node n) (fun r d' => document_ok d' /\ node_added d n r d')
    (fun d' => d' = d /\ E) d.
Proof.
  intros Hd Hn HE. unfold push_node. wp_steps. cbn [id].
  destruct (stack_push _ _ _) as [s|] eqn:Es; wp_steps;
    [|split; [done|by apply HE; eapply stack_push_none]].
  pose proof (document_ok_push _ _ _ _ Hd Es Hn). destruct (push_lookup _ _ _ _ Es) as (H2 & H3 & H4).
  unfold node_added. split_and!; try done; [by rewrite H2, get_node_at|].
  intros i Hi. rewrite H2 in Hi. rewrite !get_node_at.
  destruct (node_at i (set_nodes s d)) as [x|] eqn:E'.
  - by destruct (push_lookup_inv _ _ _ _ _ _ Es E') as [->|[-> _]].
  - destruct (node_at i d) as [x|] eqn:E1; [|done]. by rewrite (H4 _ _ E1) in E'.
Qed.

(** A node replaced by one with one element more. *)
Lemma set_node_effect d i n x :
  document_ok d -> node_at i d = Some n -> node_ok (node_count d) (with_data x n) ->
  document_ok (set_node i (with_data x n) d) /\ data_changed d i n x (set_node i (with_data x n) d).
Proof.
  intros Hd Hi Hn. pose proof (node_at_ref _ _ _ Hi) as Hr. unfold ref_ok in Hr.
  split; [by apply document_ok_set|]. unfold data_changed. rewrite node_count_set, !get_node_at.
  do 3 (split; [done|]). split; [by eapply node_at_set_same|].
  intros j Hj. rewrite !get_node_at. apply node_at_set_other; [congruence|lia].
Qed.

Lemma document_ok_at d i n : document_ok d -> node_at i d = Some n -> node_ok (node_count d) n.
Proof.
  unfold document_ok, node_at. intros Hd H. destruct (0 <? i); [|done].
  rewrite Forall_lookup in Hd. by eapply Hd.
Qed.

Lemma wp_append_item d s i n x style :
  document_ok d -> node_at s d = Some n -> n.(node_data) = YAML_SEQUENCE_NODE x style ->
  ref_ok (node_count d) i ->
  wp strict (yaml_document_append_sequence_item s i)
    (fun _ d' => document_ok d' /\ op_effect d (AppendItem s i) 1 d')
    (fun d' => d' = d /\ op_refused d (AppendItem s i)) d.
Proof.
  intros Hd Hs Hn Hi. unfold yaml_document_append_sequence_item. wp_steps. cbn [id].
  rewrite (proj2 (valid_id_ref s d)), (proj2 (valid_id_ref i d)) by (done || by eapply node_at_ref).
  cbn [negb]. rewrite Hs. cbn [deref]. wp_steps. rewrite Hn.
  destruct (stack_push _ _ _) as [x'|] eqn:Ex; wp_steps.
  2:{ split; [done|]. exists n, x, style. rewrite get_node_at.
      split; [done|]. split; [done|]. by eapply stack_push_none. }
  pose proof (document_ok_at _ _ _ Hd Hs) as Ho. unfold node_ok in Ho. rewrite Hn in Ho.
  destruct (set_node_effect d s n (YAML_SEQUENCE_NODE x' style)) as [H1 H2]; try done.
  { unfold node_ok. cbn. rewrite (stack_push_items _ _ _ _ Ex). by constructor. }
  split; [done|]. split; [done|]. exists n, x, x', style.
  split; [done|]. split; [|done]. by rewrite (stack_push_items _ _ _ _ Ex).
Qed.

Lemma wp_append_pair d m k v n x style :
  document_ok d -> node_at m d = Some n -> n.(node_data) = YAML_MAPPING_NODE x style ->
  ref_ok (node_count d) k -> ref_ok (node_count d) v ->
  wp strict (yaml_document_append_mapping_pair m k v)
    (fun _ d' => document_ok d' /\ op_effect d (AppendPair m k v) 1 d')
    (fun d' => d' = d /\ op_refused d (AppendPair m k v)) d.
Proof.
  intros Hd Hs Hn Hk Hv. unfold yaml_document_append_mapping_pair. wp_steps. cbn [id].
  rewrite (proj2 (valid_id_ref m d)), (proj2 (valid_id_ref k d)), (proj2 (valid_id_ref v d))
    by (done || by eapply node_at_ref).
  cbn [negb andb]. rewrite Hs. cbn [deref]. wp_steps. rewrite Hn.
  destruct (stack_push _ _ _) as [x'|] eqn:Ex; wp_steps.
  2:{ split; [done|]. exists n, x, style. rewrite get_node_at.
      split; [done|]. split; [done|]. by eapply stack_push_none. }
  pose proof (document_ok_at _ _ _ Hd Hs) as Ho. unfold node_ok in Ho. rewrite Hn in Ho.
  destruct (set_node_effect d m n (YAML_MAPPING_NODE x' style)) as [H1 H2]; try done.
  { unfold node_ok. cbn. rewrite (stack_push_items _ _ _ _ Ex). by constructor. }
  split; [done|]. split; [done|]. exists n, x, x', style.
  split; [done|]. split; [|done]. by rewrite (stack_push_items _ _ _ _ Ex).
Qed.


(** A sequence that contains a scalar. *)
Definition sample_document : yaml_document_t :=
  match (i ← yaml_document_add_scalar None (bytes_of "x") (-1) YAML_PLAIN_SCALAR_STYLE;
         j ← yaml_document_add_sequence None YAML_BLOCK_SEQUENCE_STYLE;
         yaml_document_append_sequence_item j i) empty_document with
  | Ret _ d => d
  | _ => empty_document
  end.

