(* ===== verification/YamlLoader.v ===== *)
(** * libyaml: the loader ([loader.c])

    From events to a document: the loader calls the parser for one event at a
    time, pushes a node for each scalar and each start of a collection, links
    it to the collection on top of its own stack, and resolves aliases through
    a table of anchors.  The theorems show that it never trips one of its
    assertions on the events the parser delivers, and that the documents it
    returns are well-formed. *)

From Stdlib Require Import ZArith Lia Ascii String.
From stdpp Require Import base list option strings.
From S2P Require Import Prelude YamlData YamlReader YamlParser YamlEvents YamlRefinement.
From S2P Require Import YamlScanner YamlLevels YamlUtf8 YamlTotal YamlStarted YamlDocument.

#[local] Open Scope Z_scope.

(** ** State *)

Record yaml_alias_data_t : Type := mkAlias {
  alias_anchor : list Z;
  alias_index : Z;
  alias_mark : yaml_mark_t
}.

Definition sizeof_alias : Z := 40.
Definition sizeof_ctx : Z := 4.

(** The parser, the document it composes, [parser->aliases], and the loader's
    stack of open collections [ctx]. *)
Record loader : Type := mkLoader {
  ld_parser : yaml_parser_t;
  ld_document : yaml_document_t;
  ld_aliases : stack yaml_alias_data_t;
  ld_ctx : stack Z
}.

Definition ld_prog : Type -> Type := prog loader.

Definition set_parser p (s : loader) := mkLoader p s.(ld_document) s.(ld_aliases) s.(ld_ctx).
Definition set_document d (s : loader) := mkLoader s.(ld_parser) d s.(ld_aliases) s.(ld_ctx).
Definition set_aliases a (s : loader) := mkLoader s.(ld_parser) s.(ld_document) a s.(ld_ctx).
Definition set_ctx c (s : loader) := mkLoader s.(ld_parser) s.(ld_document) s.(ld_aliases) c.

(** A routine that works on the parser alone. *)
Definition on_parser {A} (m : yaml_prog A) : ld_prog A := fun s =>
  match m s.(ld_parser) with
  | Ret a p => Ret a (set_parser p s)
  | Err p => Err (set_parser p s)
  | Crash => Crash
  | Timeout => Timeout
  end.

Definition ld_memory_error {A} : ld_prog A := on_parser memory_error.

(** [STACK_LIMIT(parser, stack, INT_MAX-1)]. *)
Definition STACK_LIMIT {A} (s : stack A) : ld_prog unit :=
  if Z.of_nat (length s.(items)) <? INT_MAX - 1 then mret tt else ld_memory_error.

Definition LD_PUSH {A} (sizeof : Z) (s : stack A) (v : A) : ld_prog (stack A) :=
  match stack_push sizeof s v with Some s' => mret s' | None => ld_memory_error end.

(** ** Errors *)

Definition yaml_parser_set_composer_error {A} (msg : string) (m : yaml_mark_t) : ld_prog A :=
  on_parser
    (modify (set_error YAML_COMPOSER_ERROR);; modify (set_problem (Some msg));;
     modify (set_problem_mark m);; fail).

Definition yaml_parser_set_composer_error_context {A} (ctx : string) (ctx_mark : yaml_mark_t)
    (msg : string) (m : yaml_mark_t) : ld_prog A :=
  on_parser
    (modify (set_error YAML_COMPOSER_ERROR);; modify (set_context (Some ctx));;
     modify (set_context_mark ctx_mark);; modify (set_problem (Some msg));;
     modify (set_problem_mark m);; fail).

(** The pops free the anchors; [STACK_DEL] leaves no block. *)
Definition yaml_parser_delete_aliases : ld_prog unit := modify (set_aliases (mkStack [] 0)).

(** ** Anchors *)

(** The entry of an anchor, searched from [aliases.start]. *)
Definition find_alias (anchor : list Z) (s : stack yaml_alias_data_t) : option yaml_alias_data_t :=
  find (fun a => strcmp_eq a.(alias_anchor) anchor) (rev s.(items)).

Definition yaml_parser_register_anchor (index : Z) (anchor : option (list Z)) : ld_prog unit :=
  match anchor with
  | None => mret tt
  | Some a =>
      d ← gets ld_document;
      n ← deref (node_at index d);
      let data := mkAlias a index n.(node_start_mark) in
      s ← gets ld_aliases;
      match find_alias a s with
      | Some first =>
          yaml_parser_set_composer_error_context "found duplicate anchor; first occurrence"
            first.(alias_mark) "second occurrence" data.(alias_mark)
      | None => s' ← LD_PUSH sizeof_alias s data; modify (set_aliases s')
      end
  end.

(** ** Links between nodes *)

Definition set_node_data (i : Z) (n : yaml_node_t) (x : yaml_node_data) : ld_prog unit :=
  modify (fun s => set_document (set_node i (with_data x n) s.(ld_document)) s).

(** The pair on top waits for its value. *)
Definition add_to_pairs (index : Z) (s : stack yaml_node_pair_t) :
    ld_prog (stack yaml_node_pair_t) :=
  let push := STACK_LIMIT s;; LD_PUSH sizeof_pair s (mkPair index 0) in
  match s.(items) with
  | x :: r =>
      if negb (x.(pair_key) =? 0) && (x.(pair_value) =? 0)
      then mret (mkStack (mkPair x.(pair_key) index :: r) s.(capacity))
      else push
  | [] => push
  end.

Definition yaml_parser_load_node_add (index : Z) : ld_prog unit :=
  c ← gets ld_ctx;
  match c.(items) with
  | [] => mret tt
  | parent_index :: _ =>
      d ← gets ld_document;
      parent ← deref (node_at parent_index d);
      match parent.(node_data) with
      | YAML_SEQUENCE_NODE s style =>
          STACK_LIMIT s;;
          s' ← LD_PUSH sizeof_item s index;
          set_node_data parent_index parent (YAML_SEQUENCE_NODE s' style)
      | YAML_MAPPING_NODE s style =>
          s' ← add_to_pairs index s;
          set_node_data parent_index parent (YAML_MAPPING_NODE s' style)
      | _ => crash
      end
  end.

(** ** The handlers of events *)

Definition yaml_parser_load_alias (anchor : list Z) (m : yaml_mark_t) : ld_prog unit :=
  s ← gets ld_aliases;
  match find_alias anchor s with
  | Some a => yaml_parser_load_node_add a.(alias_index)
  | None => yaml_parser_set_composer_error "found undefined alias" m
  end.

(** No tag, or the non-specific tag: the default one. *)
Definition node_tag_or (dflt : list Z) (tag : option (list Z)) : list Z :=
  match tag with
  | None => dflt
  | Some t => if strcmp_eq t (bytes_of "!") then dflt else t
  end.

(** The node goes on the stack of nodes; its index. *)
Definition add_node (n : yaml_node_t) : ld_prog Z :=
  d ← gets ld_document;
  s ← LD_PUSH sizeof_node d.(nodes) n;
  modify (fun st => set_document (set_nodes s st.(ld_document)) st);;
  gets (fun st => node_count st.(ld_document)).

Definition limit_nodes : ld_prog unit := d ← gets ld_document; STACK_LIMIT d.(nodes).

Definition yaml_parser_load_scalar (anchor tag : option (list Z)) (value : list Z) (len : Z)
    (style : yaml_scalar_style_t) (sm em : yaml_mark_t) : ld_prog unit :=
  limit_nodes;;
  index ← add_node (NODE_INIT (YAML_SCALAR_NODE value len style)
                      (node_tag_or YAML_DEFAULT_SCALAR_TAG tag) sm em);
  yaml_parser_register_anchor index anchor;;
  yaml_parser_load_node_add index.

(** [STACK_LIMIT] and [PUSH] on [*ctx]. *)
Definition push_ctx (index : Z) : ld_prog unit :=
  c ← gets ld_ctx;
  STACK_LIMIT c;;
  c' ← LD_PUSH sizeof_ctx c index;
  modify (set_ctx c').

Definition yaml_parser_load_sequence (anchor tag : option (list Z)) (style : yaml_sequence_style_t)
    (sm em : yaml_mark_t) : ld_prog unit :=
  limit_nodes;;
  index ← add_node (NODE_INIT (YAML_SEQUENCE_NODE STACK_INIT style)
                      (node_tag_or YAML_DEFAULT_SEQUENCE_TAG tag) sm em);
  yaml_parser_register_anchor index anchor;;
  yaml_parser_load_node_add index;;
  push_ctx index.

Definition yaml_parser_load_mapping (anchor tag : option (list Z)) (style : yaml_mapping_style_t)
    (sm em : yaml_mark_t) : ld_prog unit :=
  limit_nodes;;
  index ← add_node (NODE_INIT (YAML_MAPPING_NODE STACK_INIT style)
                      (node_tag_or YAML_DEFAULT_MAPPING_TAG tag) sm em);
  yaml_parser_register_anchor index anchor;;
  yaml_parser_load_node_add index;;
  push_ctx index.

(** The node of the collection on top of the stack, its end mark set. *)
Definition close_node (expected : yaml_node_data -> bool) (em : yaml_mark_t) : ld_prog unit :=
  c ← gets ld_ctx;
  match c.(items) with
  | [] => crash
  | index :: r =>
      d ← gets ld_document;
      n ← deref (node_at index d);
      if negb (expected n.(node_data)) then crash
      else
        modify (set_document (set_node index (with_end_mark em n) d));;
        modify (set_ctx (mkStack r c.(capacity)))
  end.

Definition is_sequence (x : yaml_node_data) : bool :=
  match x with YAML_SEQUENCE_NODE _ _ => true | _ => false end.
Definition is_mapping (x : yaml_node_data) : bool :=
  match x with YAML_MAPPING_NODE _ _ => true | _ => false end.

Definition yaml_parser_load_sequence_end (em : yaml_mark_t) : ld_prog unit := close_node is_sequence em.
Definition yaml_parser_load_mapping_end (em : yaml_mark_t) : ld_prog unit := close_node is_mapping em.

(** ** Composition *)

Section loading.
Context `{src : TokenSource}.

(** The [switch] of [yaml_parser_load_nodes]; [Some] of the end of the document. *)
Definition load_event (ev : yaml_event_t) : ld_prog (option (bool * yaml_mark_t)) :=
  let sm := ev.(event_start_mark) in
  let em := ev.(event_end_mark) in
  match ev.(event_data) with
  | YAML_ALIAS_EVENT anchor => yaml_parser_load_alias anchor sm;; mret None
  | YAML_SCALAR_EVENT anchor tag value len _ _ style =>
      yaml_parser_load_scalar anchor tag value len style sm em;; mret None
  | YAML_SEQUENCE_START_EVENT anchor tag _ style =>
      yaml_parser_load_sequence anchor tag style sm em;; mret None
  | YAML_SEQUENCE_END_EVENT => yaml_parser_load_sequence_end em;; mret None
  | YAML_MAPPING_START_EVENT anchor tag _ style =>
      yaml_parser_load_mapping anchor tag style sm em;; mret None
  | YAML_MAPPING_END_EVENT => yaml_parser_load_mapping_end em;; mret None
  | YAML_DOCUMENT_END_EVENT implicit => mret (Some (implicit, em))
  | _ => crash
  end.

Definition yaml_parser_load_nodes (calls fuel : nat) : ld_prog unit :=
  r ← loop calls (fun _ : unit =>
    ev ← on_parser (yaml_parser_parse fuel);
    x ← load_event ev;
    mret (match x with None => inl tt | Some y => inr y end)) tt;
  modify (fun s =>
    let d := s.(ld_document) in
    set_document (DOCUMENT_INIT d.(nodes) d.(version_directive) d.(document_tag_directives)
      d.(start_implicit) r.1 d.(document_start_mark) r.2) s).

Definition yaml_parser_load_document (calls fuel : nat) (ev : yaml_event_t) : ld_prog unit :=
  match ev.(event_data) with
  | YAML_DOCUMENT_START_EVENT version tags implicit =>
      modify (fun s =>
        let d := s.(ld_document) in
        set_document (DOCUMENT_INIT d.(nodes) version tags implicit d.(end_implicit)
          ev.(event_start_mark) d.(document_end_mark)) s);;
      modify (set_ctx STACK_INIT);;
      yaml_parser_load_nodes calls fuel
  | _ => crash
  end.

(** The part of [yaml_parser_load] whose failures go to [error]. *)
Definition load_body (calls fuel : nat) : ld_prog unit :=
  started ← gets (fun s => s.(ld_parser).(scanner).(stream_start_produced));
  (if (started : bool) then mret tt
   else
     ev ← on_parser (yaml_parser_parse fuel);
     match ev.(event_data) with YAML_STREAM_START_EVENT _ => mret tt | _ => crash end);;
  over ← gets (fun s => s.(ld_parser).(scanner).(stream_end_produced));
  if (over : bool) then mret tt
  else
    ev ← on_parser (yaml_parser_parse fuel);
    match ev.(event_data) with
    | YAML_STREAM_END_EVENT => mret tt
    | _ =>
        modify (set_aliases STACK_INIT);;
        yaml_parser_load_document calls fuel ev;;
        yaml_parser_delete_aliases
    end.

(** [yaml_document_delete] leaves a zeroed document. *)
Definition yaml_parser_load (calls fuel : nat) : ld_prog unit :=
  modify (set_document empty_document);;
  r ← attempt (load_body calls fuel);
  match r with
  | Some _ => mret tt
  | None =>
      yaml_parser_delete_aliases;;
      modify (set_document (set_nodes (mkStack [] 0) empty_document));;
      fail
  end.
End loading.

(** A fresh parser with no document. *)
Definition fresh_loader (p : yaml_parser_t) : loader :=
  mkLoader p empty_document (mkStack [] 0) (mkStack [] 0).

Example load_sample :
  match yaml_parser_load (src := scanner_source) 100 100
          (fresh_loader (yaml_parser_initialize (bytes_of "&x a: [b, *x]"))) with
  | Ret _ s => map node_data (document_nodes s.(ld_document))
  | _ => []
  end
  = [YAML_MAPPING_NODE (mkStack [mkPair 2 3] 16) YAML_BLOCK_MAPPING_STYLE;
     YAML_SCALAR_NODE (bytes_of "a") 1 YAML_PLAIN_SCALAR_STYLE;
     YAML_SEQUENCE_NODE (mkStack [2; 4] 16) YAML_FLOW_SEQUENCE_STYLE;
     YAML_SCALAR_NODE (bytes_of "b") 1 YAML_PLAIN_SCALAR_STYLE].
Proof. vm_compute. reflexivity. Qed.

(** ** The invariant of the loader *)

Definition pair_full (c : Z) (x : yaml_node_pair_t) : Prop :=
  ref_ok c x.(pair_key) /\ ref_ok c x.(pair_value).

(** A node that stands for an open collection of the grammar. *)
Definition frame_ok (c : Z) (f : frame) (x : yaml_node_t) : Prop :=
  match f, x.(node_data) with
  | FSeq, YAML_SEQUENCE_NODE s _ => Forall (ref_ok c) s.(items)
  | FKey, YAML_MAPPING_NODE s _ => Forall (pair_full c) s.(items)
  | FVal, YAML_MAPPING_NODE s _ =>
      exists k r, s.(items) = mkPair k 0 :: r /\ ref_ok c k /\ Forall (pair_full c) r
  | _, _ => False
  end.

(** A node is linked to its collection when it starts, so a collection that
    has an open one inside is a step ahead of the grammar. *)
Definition advance (f : frame) : frame :=
  match f with FSeq => FSeq | FKey => FVal | FVal => FKey end.

Definition open_frames (n : nest) : list frame :=
  match n with NDoc (f :: fs) => f :: map advance fs | _ => [] end.

Definition in_frame (d : yaml_document_t) (f : frame) (i : Z) : Prop :=
  exists x, node_at i d = Some x /\ frame_ok (node_count d) f x.

Record linked (fs : list frame) (s : loader) : Prop := mkLinked {
  lk_ctx : Forall2 (in_frame s.(ld_document)) fs s.(ld_ctx).(items);
  lk_distinct : NoDup s.(ld_ctx).(items);
  lk_closed : forall i x, node_at i s.(ld_document) = Some x -> i ∉ s.(ld_ctx).(items) ->
              node_ok (node_count s.(ld_document)) x;
  lk_aliases : Forall (fun a => ref_ok (node_count s.(ld_document)) a.(alias_index))
                 s.(ld_aliases).(items)
}.

Definition ld_failed (s : loader) : Prop := s.(ld_parser).(err).(error) <> YAML_NO_ERROR.

Lemma frame_ok_mono c c' f x : frame_ok c f x -> c <= c' -> frame_ok c' f x.
Proof.
  intros H Hc. assert (forall i, ref_ok c i -> ref_ok c' i) as Hr by (unfold ref_ok; lia).
  assert (forall p, pair_full c p -> pair_full c' p) as Hp by (intros p [? ?]; split; auto).
  unfold frame_ok in *. destruct f, (node_data x); try done.
  - by eapply Forall_impl.
  - by eapply Forall_impl.
  - destruct H as (k & r & E & Hk & H). exists k, r. split_and!; auto. by eapply Forall_impl.
Qed.

Lemma in_frame_ref d f i : in_frame d f i -> ref_ok (node_count d) i.
Proof. intros (x & H & _). by eapply node_at_ref. Qed.

Lemma linked_refs fs s i :
  linked fs s -> i ∈ s.(ld_ctx).(items) -> ref_ok (node_count s.(ld_document)) i.
Proof.
  intros [H _ _ _] Hi. induction H as [|f j fs' js Hf _ IH]; [by apply elem_of_nil in Hi|].
  apply elem_of_cons in Hi as [->|Hi]; [by eapply in_frame_ref|auto].
Qed.

(** *** Rules for the loader's programs *)

Section rules.
Context (F : faults).

Lemma wp_on_parser {A} (m : yaml_prog A) (Q : A -> loader -> Prop) E s :
  wp F m (fun a p => Q a (set_parser p s)) (fun p => E (set_parser p s)) s.(ld_parser) ->
  wp F (on_parser m) Q E s.
Proof. unfold wp, on_parser. by destruct (m _). Qed.

Lemma wp_ld_memory_error {A} (Q : A -> loader -> Prop) s : wp F ld_memory_error Q ld_failed s.
Proof. apply wp_on_parser. unfold memory_error. by wp_steps. Qed.

Lemma wp_STACK_LIMIT {A} (x : stack A) (Q : unit -> loader -> Prop) s :
  Q tt s -> wp F (STACK_LIMIT x) Q ld_failed s.
Proof. intros H. unfold STACK_LIMIT. destruct (_ <? _); [by wp_steps|apply wp_ld_memory_error]. Qed.

Lemma wp_LD_PUSH {A} sz (x : stack A) v (Q : stack A -> loader -> Prop) s :
  (forall x', stack_push sz x v = Some x' -> Q x' s) -> wp F (LD_PUSH sz x v) Q ld_failed s.
Proof.
  intros H. unfold LD_PUSH. destruct (stack_push _ _ _); [wp_steps; by apply H|apply wp_ld_memory_error].
Qed.

Lemma wp_composer_error {A} msg m (Q : A -> loader -> Prop) s :
  wp F (yaml_parser_set_composer_error msg m) Q ld_failed s.
Proof. apply wp_on_parser. by wp_steps. Qed.

Lemma wp_composer_error_context {A} ctx cm msg m (Q : A -> loader -> Prop) s :
  wp F (yaml_parser_set_composer_error_context ctx cm msg m) Q ld_failed s.
Proof. apply wp_on_parser. by wp_steps. Qed.

(** *** Nodes and anchors *)

(** The new node is the last, its index is in no open collection. *)
Lemma wp_add_node fs s n (Q : Z -> loader -> Prop) :
  linked fs s -> (forall c, node_ok c n) ->
  (forall s' i, linked fs s' -> s'.(ld_parser) = s.(ld_parser) -> i ∉ s'.(ld_ctx).(items) ->
     node_at i s'.(ld_document) = Some n -> s'.(ld_ctx) = s.(ld_ctx) -> Q i s') ->
  wp F (add_node n) Q ld_failed s.
Proof.
  intros Hl Hn HQ. unfold add_node. wp_steps. apply wp_LD_PUSH. intros x Hx. wp_steps. cbn.
  set (d := ld_document s) in *. destruct (push_lookup d x n _ Hx) as (Ec & Hnew & Hold).
  assert (node_count d + 1 ∉ s.(ld_ctx).(items)) as Hni.
  { intros Hi. pose proof (linked_refs _ _ _ Hl Hi) as Hr. unfold ref_ok in Hr. fold d in Hr. lia. }
  rewrite Ec. apply HQ; try done. destruct Hl as [H1 H2 H3 H4]. fold d in H1, H3, H4.
  constructor; cbn; rewrite ?Ec; try done.
  - eapply Forall2_impl; [done|]. intros f i (y & Hy & Hf). exists y. split; [by apply Hold|].
    rewrite Ec. eapply frame_ok_mono; [done|lia].
  - intros i y Hy Hi. destruct (push_lookup_inv _ _ _ _ _ _ Hx Hy) as [Hz|[_ ->]]; [|apply Hn].
    eapply node_ok_mono; [by eapply H3|lia].
  - eapply Forall_impl; [done|]. cbv beta. unfold ref_ok. intros; lia.
Qed.

Lemma wp_register_anchor fs s i n a (Q : unit -> loader -> Prop) :
  linked fs s -> node_at i s.(ld_document) = Some n ->
  (forall s', linked fs s' -> s'.(ld_parser) = s.(ld_parser) ->
     s'.(ld_document) = s.(ld_document) -> s'.(ld_ctx) = s.(ld_ctx) -> Q tt s') ->
  wp F (yaml_parser_register_anchor i a) Q ld_failed s.
Proof.
  intros Hl Hi HQ. unfold yaml_parser_register_anchor. destruct a as [a|]; wp_steps; [|by apply HQ].
  rewrite Hi. cbn [deref]. wp_steps.
  destruct (find_alias _ _); [apply wp_composer_error_context|]. wp_step. apply wp_LD_PUSH.
  intros x Hx. wp_steps. apply HQ; try done. destruct Hl as [H1 H2 H3 H4].
  constructor; try done. cbn. rewrite (stack_push_items _ _ _ _ Hx). constructor; [|done].
  by eapply node_at_ref.
Qed.

(** *** Links *)

(** The collection on top takes an element. *)
Lemma linked_set f f' fs s i r x x' :
  linked (f :: fs) s -> s.(ld_ctx).(items) = i :: r -> node_at i s.(ld_document) = Some x ->
  frame_ok (node_count s.(ld_document)) f' x' ->
  linked (f' :: fs) (set_document (set_node i x' s.(ld_document)) s).
Proof.
  intros [H1 H2 H3 H4] Ec Hx Hf. rewrite Ec in *. set (d := ld_document s) in *.
  apply Forall2_cons in H1 as [_ H1]. pose proof (node_at_ref _ _ _ Hx) as Hr. unfold ref_ok in Hr.
  pose proof (NoDup_cons_1_1 _ _ H2) as Hni.
  constructor; cbn; fold d; rewrite ?node_count_set, ?Ec; try done.
  - constructor.
    + exists x'. rewrite node_count_set. split; [by eapply node_at_set_same|done].
    + clear - H1 Hni Hr. induction H1 as [|g j gs js (y & Hy & Hg) _ IH]; [constructor|].
      rewrite not_elem_of_cons in Hni. destruct Hni as [Hne Hni]. constructor; [|auto].
      exists y. rewrite node_count_set, node_at_set_other by (done || lia). done.
  - intros j y Hy Hj. rewrite not_elem_of_cons in Hj. destruct Hj as [Hne Hj].
    rewrite node_at_set_other in Hy by (done || lia). eapply H3; [done|].
    by rewrite not_elem_of_cons.
Qed.

Lemma ref_nonzero c k : ref_ok c k -> (k =? 0) = false.
Proof. unfold ref_ok. lia. Qed.

(** A key, or the value of the key on top. *)
Lemma wp_add_to_pairs (c i : Z) f ps sty x s (Q : stack yaml_node_pair_t -> loader -> Prop) :
  x.(node_data) = YAML_MAPPING_NODE ps sty -> frame_ok c f x -> ref_ok c i ->
  (forall ps', frame_ok c (advance f) (with_data (YAML_MAPPING_NODE ps' sty) x) -> Q ps' s) ->
  wp F (add_to_pairs i ps) Q ld_failed s.
Proof.
  intros Hx Hf Hi HQ. unfold frame_ok in Hf. rewrite Hx in Hf.
  assert (forall r, Forall (pair_full c) r -> f = FKey -> ps.(items) = r ->
    wp F (STACK_LIMIT ps;; LD_PUSH sizeof_pair ps (mkPair i 0)) Q ld_failed s) as Hpush.
  { intros r Hr -> Er. wp_step. apply wp_STACK_LIMIT, wp_LD_PUSH. intros ps' Hps. apply HQ.
    exists i, r. cbn. by rewrite (stack_push_items _ _ _ _ Hps), Er. }
  unfold add_to_pairs. destruct f; [done| |].
  - destruct (items ps) as [|[k v] r] eqn:Er; [by eapply Hpush|].
    apply Forall_cons in Hf as [[Hk Hv] Hr]. cbn in Hk, Hv |- *.
    rewrite (ref_nonzero _ _ Hk), (ref_nonzero _ _ Hv). cbn.
    apply (Hpush (mkPair k v :: r)); [by constructor|done|done].
  - destruct Hf as (k & r & Er & Hk & Hr). rewrite Er. cbn. rewrite (ref_nonzero _ _ Hk). cbn. wp_steps.
    apply HQ. cbn. by constructor.
Qed.

Lemma wp_load_node_add f fs s i (Q : unit -> loader -> Prop) :
  linked (f :: fs) s -> ref_ok (node_count s.(ld_document)) i ->
  (forall s', linked (advance f :: fs) s' -> s'.(ld_parser) = s.(ld_parser) ->
     s'.(ld_ctx) = s.(ld_ctx) ->
     (forall j, j ∉ s.(ld_ctx).(items) -> node_at j s'.(ld_document) = node_at j s.(ld_document)) ->
     Q tt s') ->
  wp F (yaml_parser_load_node_add i) Q ld_failed s.
Proof.
  intros Hl Hi HQ. unfold yaml_parser_load_node_add, set_node_data. wp_steps.
  pose proof (lk_ctx _ _ Hl) as Hc. destruct (items (ld_ctx s)) as [|j r] eqn:Ec; [by inversion Hc|].
  apply Forall2_cons in Hc as [(x & Hx & Hf) _]. wp_steps. rewrite Hx. cbn [deref]. wp_steps.
  pose proof (node_at_ref _ _ _ Hx) as Hr. unfold ref_ok in Hr.
  assert (forall x', frame_ok (node_count s.(ld_document)) (advance f) x' ->
    Q tt (set_document (set_node j x' s.(ld_document)) s)) as Hset.
  { intros x' Hx'. apply HQ; try done; [by eapply linked_set|]. intros k Hk. cbn.
    apply node_at_set_other; [|lia]. intros ->. apply Hk. by left. }
  destruct (node_data x) as [| |ps sty|ps sty] eqn:En.
  - unfold frame_ok in Hf. rewrite En in Hf. by destruct f.
  - unfold frame_ok in Hf. rewrite En in Hf. by destruct f.
  - wp_step. apply wp_STACK_LIMIT. wp_step. apply wp_LD_PUSH. intros ps' Hps. wp_step. apply Hset.
    unfold frame_ok in *. rewrite En in Hf. destruct f; try done. cbn.
    rewrite (stack_push_items _ _ _ _ Hps). by constructor.
  - wp_step. eapply wp_add_to_pairs; [done|done|done|]. intros ps' Hps. wp_step. by apply Hset.
Qed.

(** The node of a document, whether or not there is a collection around it. *)
Definition advance_top (fs : list frame) : list frame :=
  match fs with [] => [] | f :: r => advance f :: r end.

Lemma wp_link_node fs s i (Q : unit -> loader -> Prop) :
  linked fs s -> ref_ok (node_count s.(ld_document)) i ->
  (forall s', linked (advance_top fs) s' -> s'.(ld_parser) = s.(ld_parser) ->
     s'.(ld_ctx) = s.(ld_ctx) ->
     (forall j, j ∉ s.(ld_ctx).(items) -> node_at j s'.(ld_document) = node_at j s.(ld_document)) ->
     Q tt s') ->
  wp F (yaml_parser_load_node_add i) Q ld_failed s.
Proof.
  destruct fs as [|f fs]; [|apply wp_load_node_add]. intros Hl Hi HQ.
  unfold yaml_parser_load_node_add. wp_steps. pose proof (lk_ctx _ _ Hl) as Hc.
  destruct (items (ld_ctx s)); [|by inversion Hc]. wp_steps. by apply HQ.
Qed.

Lemma wp_push_ctx g fs s i (Q : unit -> loader -> Prop) :
  linked fs s -> in_frame s.(ld_document) g i -> i ∉ s.(ld_ctx).(items) ->
  (forall s', linked (g :: fs) s' -> s'.(ld_parser) = s.(ld_parser) ->
     s'.(ld_document) = s.(ld_document) -> Q tt s') ->
  wp F (push_ctx i) Q ld_failed s.
Proof.
  intros [H1 H2 H3 H4] Hg Hi HQ. unfold push_ctx. wp_step. apply wp_gets. wp_step. apply wp_STACK_LIMIT. wp_step.
  apply wp_LD_PUSH. intros c Hc. wp_step. apply HQ; try done.
  constructor; cbn; rewrite ?(stack_push_items _ _ _ _ Hc); try done; [by constructor|by constructor|].
  intros j x Hx Hj. rewrite not_elem_of_cons in Hj. by eapply H3; [|apply Hj].
Qed.

(** *** The handlers *)

Definition stepped (fs : list frame) (s : loader) (s' : loader) : Prop :=
  linked fs s' /\ s'.(ld_parser) = s.(ld_parser)
  /\ s'.(ld_document).(nodes).(items) <> [].

Lemma node_at_nonempty i d x : node_at i d = Some x -> d.(nodes).(items) <> [].
Proof.
  unfold node_at, document_nodes. intros H E. rewrite E in H. by destruct (0 <? i).
Qed.

Lemma wp_load_scalar fs s anchor tag value len style sm em :
  linked fs s ->
  wp F (yaml_parser_load_scalar anchor tag value len style sm em)
    (fun _ s' => stepped (advance_top fs) s s') ld_failed s.
Proof.
  intros Hl. unfold yaml_parser_load_scalar, limit_nodes. wp_steps. apply wp_STACK_LIMIT. wp_step.
  eapply wp_add_node; [done|done|]. intros s1 i H1 E1 N1 X1 C1. wp_step.
  eapply wp_register_anchor; [done|done|]. intros s2 H2 E2 D2 C2.
  assert (node_at i s2.(ld_document) = Some (NODE_INIT (YAML_SCALAR_NODE value len style)
            (node_tag_or YAML_DEFAULT_SCALAR_TAG tag) sm em)) as X2 by by rewrite D2.
  eapply wp_link_node; [done|by eapply node_at_ref|]. intros s3 H3 E3 C3 O3.
  split_and!; [done|congruence|]. eapply node_at_nonempty. rewrite O3; [exact X2|]. by rewrite C2.
Qed.

(** The start of a collection. *)
Lemma wp_load_collection g fs s anchor n :
  linked fs s -> (forall c, node_ok c n) -> (forall c, frame_ok c g n) ->
  wp F (index ← add_node n; yaml_parser_register_anchor index anchor;;
        yaml_parser_load_node_add index;; push_ctx index)
    (fun _ s' => stepped (g :: advance_top fs) s s') ld_failed s.
Proof.
  intros Hl Hn Hg. wp_step. eapply wp_add_node; [done|done|]. intros s1 i H1 E1 N1 X1 C1. wp_step.
  eapply wp_register_anchor; [done|done|]. intros s2 H2 E2 D2 C2. wp_step.
  assert (node_at i s2.(ld_document) = Some n) as X2 by by rewrite D2.
  eapply wp_link_node; [done|by eapply node_at_ref|]. intros s3 H3 E3 C3 O3.
  assert (node_at i s3.(ld_document) = Some n) as X3 by (rewrite O3; [exact X2|by rewrite C2]).
  eapply (wp_push_ctx g); [done|by exists n|by rewrite C3, C2|]. intros s4 H4 E4 D4.
  split_and!; [done|congruence|]. eapply node_at_nonempty. by rewrite D4.
Qed.

(** The end of a collection, with no key left without a value. *)
Lemma wp_close_node f fs s expected em :
  linked (f :: fs) s -> (f = FSeq /\ expected = is_sequence \/ f = FKey /\ expected = is_mapping) ->
  wp F (close_node expected em) (fun _ s' => stepped fs s s') ld_failed s.
Proof.
  intros [H1 H2 H3 H4] Hf. unfold close_node. wp_step. apply wp_gets.
  destruct (items (ld_ctx s)) as [|i r] eqn:Ec; [by inversion H1|].
  apply Forall2_cons in H1 as [(x & Hx & Hfx) H1]. wp_step. apply wp_gets. wp_step. rewrite Hx.
  cbn [deref]. wp_step. set (d := ld_document s) in *. pose proof (node_at_ref _ _ _ Hx) as Hr. unfold ref_ok in Hr.
  apply NoDup_cons in H2 as [Hni H2].
  assert (expected (node_data x) = true /\ node_ok (node_count d) (with_end_mark em x)) as [-> Hok].
  { unfold frame_ok in Hfx. unfold node_ok. cbn.
    destruct Hf as [[-> ->]|[-> ->]]; destruct (node_data x); by try done. }
  cbn [negb]. wp_steps. split_and!; [|done|].
  - constructor; cbn; fold d; rewrite ?node_count_set; try done.
    + clear - H1 Hni Hr. induction H1 as [|g j gs js (y & Hy & Hg) _ IH]; [constructor|].
      rewrite not_elem_of_cons in Hni. destruct Hni as [Hne Hni]. constructor; [|auto].
      exists y. rewrite node_count_set, node_at_set_other by (done || lia). done.
    + intros j y Hy Hj. destruct (Z.eq_dec j i) as [->|Hne].
      * rewrite (node_at_set_same _ x) in Hy by done. by injection Hy as <-.
      * rewrite node_at_set_other in Hy by (congruence || lia). eapply H3; [done|].
        by rewrite not_elem_of_cons.
  - change ((set_node i (with_end_mark em x) d).(nodes).(items) <> []).
    eapply (node_at_nonempty i). by eapply (node_at_set_same _ x).
Qed.

(** ** The events of a document *)

(** Where the grammar stands in the document, and what has been composed. *)
Definition load_inv (n : nest) (s : loader) : Prop :=
  linked (open_frames n) s
  /\ match n with
     | NDoc [] => s.(ld_document).(nodes).(items) = [] /\ s.(ld_aliases).(items) = []
     | NDoc (_ :: _) | NDocDone => s.(ld_document).(nodes).(items) <> []
     | _ => False
     end.

Lemma load_inv_done fs s s' :
  stepped (map advance fs) s s' -> load_inv (node_done fs) s'.
Proof. intros (H1 & _ & H3). by destruct fs as [|[] fs]. Qed.

Lemma advance_open fs : advance_top (open_frames (NDoc fs)) = map advance fs.
Proof. by destruct fs. Qed.

Lemma node_done_inside fs : node_done fs <> NStream.
Proof. by destruct fs as [|[]]. Qed.

(** After a handler that completes a node. *)
Lemma wp_then_done {A} fs s (m : ld_prog A) (Q : option (bool * yaml_mark_t) -> loader -> Prop) :
  wp F m (fun _ s' => stepped (map advance fs) s s') ld_failed s ->
  (forall s', s'.(ld_parser) = s.(ld_parser) -> load_inv (node_done fs) s' -> Q None s') ->
  wp F (m ;; mret None) Q ld_failed s.
Proof.
  intros Hm HQ. wp_step. eapply wp_mono; [done| |done]. cbv beta. intros a s' H. wp_steps.
  apply HQ; [apply H|by eapply load_inv_done].
Qed.

Lemma wp_load_alias fs s anchor m :
  linked (open_frames (NDoc fs)) s ->
  match fs with
  | [] => s.(ld_document).(nodes).(items) = [] /\ s.(ld_aliases).(items) = []
  | _ :: _ => s.(ld_document).(nodes).(items) <> []
  end ->
  wp F (yaml_parser_load_alias anchor m) (fun _ s' => stepped (map advance fs) s s') ld_failed s.
Proof.
  intros Hl Hn. unfold yaml_parser_load_alias. wp_step. apply wp_gets.
  destruct (find_alias _ _) as [a|] eqn:Ef; [|apply wp_composer_error].
  unfold find_alias in Ef. apply find_some in Ef as [Hin _]. rewrite <- in_rev in Hin.
  pose proof (lk_aliases _ _ Hl) as Ha. rewrite Forall_forall in Ha.
  apply list_elem_of_In in Hin. specialize (Ha a Hin).
  destruct fs as [|f fs]; [destruct Hn as [_ Hn]; rewrite Hn in Hin; by apply elem_of_nil in Hin|].
  destruct (node_at_valid _ _ Ha) as [x Hx].
  eapply wp_link_node; [done|done|]. intros s' H1 H2 H3 _. split_and!; [done|done|].
  pose proof (lk_ctx _ _ H1) as Hc. apply Forall2_cons_inv_l in Hc as (j & r & (y & Hy & _) & _).
  by eapply node_at_nonempty.
Qed.

Lemma wp_load_event n n' ev s :
  load_inv n s -> nest_step n ev.(event_data) = Some n' ->
  wp F (load_event ev)
    (fun x s' => s'.(ld_parser) = s.(ld_parser) /\
       match x with
       | None => load_inv n' s' /\ n' <> NStream
       | Some _ => s' = s /\ n = NDocDone /\ n' = NStream
       end) ld_failed s.
Proof.
  intros [Hl Hn] Hs. unfold load_event.
  destruct (event_data ev) as [| | | |impl|anchor|anchor tag value len pi qi style|anchor tag impl style| |
    anchor tag impl style|] eqn:Ee; cbn in Hs; destruct n as [| |fs| |]; try done.
  - injection Hs as <-. by wp_steps.
  - injection Hs as <-. pose proof (node_done_inside fs).
    eapply wp_then_done; [by apply wp_load_alias|by auto].
  - injection Hs as <-. pose proof (node_done_inside fs). eapply wp_then_done; [|by auto].
    rewrite <- advance_open. by apply wp_load_scalar.
  - injection Hs as <-. unfold yaml_parser_load_sequence, limit_nodes. wp_step. wp_step. wp_step.
    apply wp_gets, wp_STACK_LIMIT.
    eapply wp_mono; [eapply (wp_load_collection FSeq); [done|intros; apply Forall_nil_2..]|cbv beta|done].
    intros [] s' (H1 & H2 & H3). wp_steps. rewrite advance_open in H1. done.
  - destruct fs as [|[] fs]; try done. injection Hs as <-. pose proof (node_done_inside fs).
    eapply wp_then_done; [|by auto]. eapply (wp_close_node FSeq); [exact Hl|by left].
  - injection Hs as <-. unfold yaml_parser_load_mapping, limit_nodes. wp_step. wp_step. wp_step.
    apply wp_gets, wp_STACK_LIMIT.
    eapply wp_mono; [eapply (wp_load_collection FKey); [done|intros; apply Forall_nil_2..]|cbv beta|done].
    intros [] s' (H1 & H2 & H3). wp_steps. rewrite advance_open in H1. done.
  - destruct fs as [|[] fs]; try done. injection Hs as <-. pose proof (node_done_inside fs).
    eapply wp_then_done; [|by auto]. eapply (wp_close_node FKey); [exact Hl|by right].
Qed.

(** A document that is complete is well-formed. *)
Lemma linked_document s : linked [] s -> document_ok s.(ld_document).
Proof.
  intros [H1 _ H3 _]. apply Forall2_nil_inv_l in H1 as E. apply Forall_lookup. intros k x Hx.
  apply (H3 (Z.of_nat k + 1)); [|rewrite E; apply not_elem_of_nil].
  unfold node_at. assert ((0 <? Z.of_nat k + 1) = true) as -> by (apply Z.ltb_lt; lia).
  by replace (Z.to_nat (Z.of_nat k + 1 - 1)) with k by lia.
Qed.
End rules.

(** ** Loading *)

Section load.
Context (F : faults) `{laws : TokenSourceLaws F}.

(** The parser between two calls. *)
Record ready (n : nest) (s : loader) : Prop := mkReady {
  rd_inv : machine_inv n s.(ld_parser);
  rd_source : source_ok s.(ld_parser).(reader) s.(ld_parser).(scanner);
  rd_noerr : s.(ld_parser).(err).(error) = YAML_NO_ERROR
}.

Definition enough (calls fuel : nat) (s : loader) : Prop :=
  F.(may_timeout) \/ budget F s.(ld_parser) < Z.of_nat calls /\ budget F s.(ld_parser) <= Z.of_nat fuel.

(** Some call of the parser has been made. *)
Definition spent (s s' : loader) : Prop :=
  F.(may_timeout) \/ budget F s'.(ld_parser) < budget F s.(ld_parser).

Lemma spent_trans s1 s2 s3 : spent s1 s2 -> spent s2 s3 -> spent s1 s3.
Proof. unfold spent. intros [|] [|]; auto. right. lia. Qed.

Lemma wp_next_event n calls fuel s (Q : yaml_event_t -> loader -> Prop) :
  ready n s -> n <> NEnd -> enough calls fuel s ->
  (forall ev p n', nest_step n ev.(event_data) = Some n' -> ready n' (set_parser p s) ->
     enough calls fuel (set_parser p s) ->
     spent s (set_parser p s) ->
     F.(may_timeout) \/ (Z.to_nat (budget F p) < Z.to_nat (budget F s.(ld_parser)))%nat ->
     Q ev (set_parser p s)) ->
  wp F (on_parser (yaml_parser_parse fuel)) Q ld_failed s.
Proof.
  intros [H1 H2 H3] Hn Hf HQ. apply wp_on_parser.
  pose proof (budget_pos F n _ H1 Hn) as Hb.
  assert (0 <= tokens_left F s.(ld_parser)) by apply pending_nonneg.
  eapply wp_mono; [apply (wp_parse F n); try done| |done].
  { destruct Hf as [|[_ Hf]]; [by left|right; lia]. }
  intros ev p ((n' & Hs & Hi) & He & Hso & Hlt). eapply HQ; [done|..].
  - constructor; try done. cbn. congruence.
  - unfold enough in *. cbn. destruct Hf, Hlt; auto; right; lia.
  - done.
  - destruct Hlt; auto. right. lia.
Qed.

Lemma wp_load_nodes calls fuel s (Q : unit -> loader -> Prop) :
  ready (NDoc []) s -> load_inv (NDoc []) s -> enough calls fuel s ->
  (forall s', ready NStream s' -> spent s s' -> document_ok s'.(ld_document) ->
     s'.(ld_document).(nodes).(items) <> [] -> Q tt s') ->
  wp F (yaml_parser_load_nodes calls fuel) Q ld_failed s.
Proof.
  intros Hr Hl Hf HQ. unfold yaml_parser_load_nodes. wp_step.
  apply (wp_loop F (fun _ q => exists n, ready n q /\ load_inv n q /\ enough calls fuel q
                                        /\ (q = s \/ spent s q))
           (fun _ s => Z.to_nat (budget F s.(ld_parser)))); [|by exists (NDoc []); auto|].
  - clear Hr Hl Hf. intros _ q (n & Hr & Hl & Hf & Hq). wp_step.
    eapply (wp_next_event n); [done|by destruct n, Hl|done|].
    intros ev p n' Hs Hr' Hf' Hsp Hlt. wp_step.
    assert (spent s (set_parser p q)) as Hsq by (destruct Hq as [->|Hq]; [done|by eapply spent_trans]).
    assert (load_inv n (set_parser p q)) as Hl' by (destruct Hl as [[] ?]; split; [by constructor|done]).
    eapply wp_mono; [by eapply wp_load_event|cbv beta|done].
    intros [y|] s' [Hp H]; wp_steps.
    + destruct H as (-> & -> & ->). apply HQ.
      * destruct Hr'. by constructor.
      * done.
      * exact (linked_document _ (proj1 Hl')).
      * by destruct Hl' as [_ Hl'].
    + destruct H as [H _]. split; [exists n'; split_and!; try done|].
      * destruct Hr'. constructor; by rewrite Hp.
      * unfold enough in *. by rewrite Hp.
      * right. unfold spent in *. by rewrite Hp.
      * rewrite Hp. done.
  - destruct Hf as [|[Hf _]]; [by left|right].
    pose proof (budget_pos F _ _ (rd_inv _ _ Hr) ltac:(done)).
    assert (0 <= tokens_left F s.(ld_parser)) by apply pending_nonneg. lia.
Qed.

Lemma wp_load_document n n' calls fuel ev s (Q : unit -> loader -> Prop) :
  ready n' s -> nest_step n ev.(event_data) = Some n' -> n = NStream -> n' <> NEnd ->
  enough calls fuel s -> s.(ld_document).(nodes).(items) = [] -> s.(ld_aliases).(items) = [] ->
  (forall s', ready NStream s' -> spent s s' -> document_ok s'.(ld_document) ->
     s'.(ld_document).(nodes).(items) <> [] -> Q tt s') ->
  wp F (yaml_parser_load_document calls fuel ev) Q ld_failed s.
Proof.
  intros Hr Hs -> He Hf Hn Ha HQ. unfold yaml_parser_load_document.
  destruct (event_data ev) eqn:Ee; cbn in Hs; simplify_eq. wp_steps.
  apply wp_load_nodes; [by destruct Hr| |done|done].
  split; [|done]. constructor; cbn; try done; [constructor| |by rewrite Ha].
  intros i x Hx. unfold node_at, document_nodes in Hx. cbn in Hx. rewrite Hn in Hx. by destruct (0 <? i).
Qed.

(** What a successful load leaves: the end of the stream and no node, or a
    well-formed document with a root. *)
Definition loaded (s s' : loader) : Prop :=
  document_ok s'.(ld_document)
  /\ (s'.(ld_document).(nodes).(items) = [] /\ ready NEnd s'
      \/ yaml_document_get_root_node s'.(ld_document) <> None /\ ready NStream s' /\ spent s s').

Lemma root_node d : d.(nodes).(items) <> [] -> yaml_document_get_root_node d <> None.
Proof.
  intros H. unfold yaml_document_get_root_node. rewrite bool_decide_eq_false_2 by done.
  apply not_eq_None_Some, lookup_lt_is_Some. unfold document_nodes. rewrite length_rev.
  destruct (items (nodes d)); [done|cbn; lia].
Qed.

Lemma wp_load_body n calls fuel s :
  ready n s -> enough calls fuel s -> s.(ld_document).(nodes).(items) = [] ->
  (s.(ld_parser).(scanner).(stream_start_produced) = false /\ n = NStart
   \/ s.(ld_parser).(scanner).(stream_start_produced) = true
      /\ (n = NStream \/ n = NEnd /\ s.(ld_parser).(scanner).(stream_end_produced) = true)) ->
  wp F (load_body calls fuel) (fun _ s' => loaded s s') ld_failed s.
Proof.
  intros Hr Hf Hn Hor. unfold load_body. wp_step. apply wp_gets. wp_step.
  assert (forall s', ready NStream s' -> enough calls fuel s' -> s'.(ld_document).(nodes).(items) = [] ->
    s' = s \/ spent s s' ->
    wp F (over ← gets (fun s => s.(ld_parser).(scanner).(stream_end_produced));
          if (over : bool) then mret tt
          else
            ev ← on_parser (yaml_parser_parse fuel);
            match ev.(event_data) with
            | YAML_STREAM_END_EVENT => mret tt
            | _ =>
                modify (set_aliases STACK_INIT);;
                yaml_parser_load_document calls fuel ev;;
                yaml_parser_delete_aliases
            end) (fun _ s' => loaded s s') ld_failed s') as Hmain.
  { clear. intros q Hr Hf Hn Hq. wp_step. apply wp_gets. rewrite (inv_open _ _ (rd_inv _ _ Hr)) by done.
    wp_step. eapply (wp_next_event NStream); [done|done|done|]. intros ev p n' Hs Hr' Hf' Hsp _.
    destruct (event_data ev) eqn:Ee; cbn in Hs; simplify_eq.
    - wp_steps. split; [|by left]. unfold document_ok, document_nodes. cbn. rewrite Hn. constructor.
    - wp_steps. eapply (wp_load_document NStream (NDoc [])); try done; [by destruct Hr'|by rewrite Ee|].
      intros s' H1 H1' H2 H3. unfold yaml_parser_delete_aliases. wp_steps. split; [done|right].
      split; [by apply root_node|]. split; [by destruct H1|].
      assert (spent q s') as Hqs by (eapply (spent_trans q (set_parser p q)); done).
      destruct Hq as [->|Hq]; [done|by eapply spent_trans]. }
  destruct Hor as [[-> ->]|[-> [->|[-> He]]]].
  - wp_step. eapply (wp_next_event NStart); [done|done|done|]. intros ev p n' Hs Hr' Hf' Hsp _.
    destruct (event_data ev) eqn:Ee; cbn in Hs; simplify_eq. wp_step. apply Hmain; auto.
  - wp_step. apply Hmain; auto.
  - wp_step. wp_step. apply wp_gets. rewrite He. wp_step. split; [|by left].
    unfold document_ok, document_nodes. rewrite Hn. constructor.
Qed.

(** A failed load leaves neither nodes nor aliases. *)
Definition unloaded (s' : loader) : Prop :=
  ld_failed s' /\ s'.(ld_document).(nodes).(items) = [] /\ s'.(ld_aliases).(items) = [].

(** Before the stream, between two documents, or behind the stream; the scanner
    tells which. *)
Definition between_documents (n : nest) (s : loader) : Prop :=
  s.(ld_parser).(scanner).(stream_start_produced) = false /\ n = NStart
  \/ s.(ld_parser).(scanner).(stream_start_produced) = true
     /\ (n = NStream \/ n = NEnd /\ s.(ld_parser).(scanner).(stream_end_produced) = true).

Lemma wp_load n calls fuel s :
  ready n s -> enough calls fuel s -> between_documents n s ->
  wp F (yaml_parser_load calls fuel) (fun _ s' => loaded s s') unloaded s.
Proof.
  intros Hr Hf Hb. unfold yaml_parser_load. wp_step. apply wp_modify. wp_step. apply wp_attempt.
  eapply wp_mono; [apply (wp_load_body n); try done; by destruct Hr|..].
  - intros [] s' H. by wp_steps.
  - intros s' H. unfold yaml_parser_delete_aliases. wp_steps. done.
Qed.
End load.

(** ** The start of the stream stays produced *)

Definition ld_kept {A} (m : ld_prog A) : Prop :=
  forall s, wp lax m (fun _ s' => start_kept s.(ld_parser) s'.(ld_parser)) ld_failed s.

Lemma lk_ret {A} (a : A) : ld_kept (mret a).
Proof. intros s. by wp_steps. Qed.
Lemma lk_gets {A} (f : loader -> A) : ld_kept (gets f).
Proof. intros s. by wp_steps. Qed.
Lemma lk_crash {A} : ld_kept (crash : ld_prog A).
Proof. by intros s. Qed.
Lemma lk_modify f : (forall s, (f s).(ld_parser) = s.(ld_parser)) -> ld_kept (modify f).
Proof. intros H s. wp_steps. by rewrite H. Qed.
Lemma lk_bind {A B} (m : ld_prog A) (k : A -> ld_prog B) :
  ld_kept m -> (forall a, ld_kept (k a)) -> ld_kept (m ≫= k).
Proof.
  intros Hm Hk s. wp_step. eapply wp_mono; [apply Hm| |done]. cbv beta. intros a s1 H1.
  eapply wp_mono; [apply Hk| |done]. cbv beta. intros b s2 H2. by transitivity s1.(ld_parser).
Qed.
Lemma lk_loop {L X} fuel (body : L -> ld_prog (L + X)) :
  (forall l, ld_kept (body l)) -> forall l, ld_kept (loop fuel body l).
Proof.
  intros Hb l s. apply (wp_loop lax (fun _ q => start_kept s.(ld_parser) q.(ld_parser)) (fun _ _ => 0%nat));
    [|reflexivity|by left].
  intros l' q H. eapply wp_mono; [apply Hb| |done]. cbv beta. intros r q' H'.
  assert (start_kept s.(ld_parser) q'.(ld_parser)) by by transitivity q.(ld_parser).
  destruct r; [split; [done|by left]|done].
Qed.
Lemma lk_memory_error {A} : ld_kept (@ld_memory_error A).
Proof. intros s. apply wp_ld_memory_error. Qed.
Lemma lk_error {A} msg m : ld_kept (@yaml_parser_set_composer_error A msg m).
Proof. intros s. apply wp_composer_error. Qed.
Lemma lk_error_context {A} c cm msg m : ld_kept (@yaml_parser_set_composer_error_context A c cm msg m).
Proof. intros s. apply wp_composer_error_context. Qed.
Lemma lk_parse fuel : ld_kept (on_parser (yaml_parser_parse (src := scanner_source) fuel)).
Proof. intros s. apply wp_on_parser. eapply wp_mono; [apply sk_parse|done|done]. Qed.

Create HintDb kept.
Ltac kept_step :=
  match goal with
  | |- ld_kept (mret _) => apply lk_ret
  | |- ld_kept (gets _) => apply lk_gets
  | |- ld_kept crash => apply lk_crash
  | |- ld_kept (modify _) => by apply lk_modify
  | |- ld_kept (_ ≫= _) => apply lk_bind; [|intros ?]
  | |- ld_kept (loop _ _ _) => apply lk_loop; intros ?
  | |- ld_kept (match ?x with _ => _ end) => destruct x
  | |- _ => solve [eauto 1 with kept]
  | |- _ => progress cbv beta zeta
  end.
Ltac kept := repeat kept_step.
#[local] Hint Resolve lk_memory_error lk_error lk_error_context lk_parse : kept.

Lemma lk_STACK_LIMIT {A} (x : stack A) : ld_kept (STACK_LIMIT x).
Proof. unfold STACK_LIMIT. kept. Qed.
Lemma lk_LD_PUSH {A} n (x : stack A) v : ld_kept (LD_PUSH n x v).
Proof. unfold LD_PUSH. kept. Qed.
Lemma lk_deref {A} (o : option A) : ld_kept (deref o).
Proof. unfold deref. kept. Qed.
#[local] Hint Resolve lk_STACK_LIMIT lk_LD_PUSH lk_deref : kept.

Lemma lk_add_node n : ld_kept (add_node n).
Proof. unfold add_node. kept. Qed.
Lemma lk_limit_nodes : ld_kept limit_nodes.
Proof. unfold limit_nodes. kept. Qed.
Lemma lk_register_anchor i a : ld_kept (yaml_parser_register_anchor i a).
Proof. unfold yaml_parser_register_anchor. kept. Qed.
Lemma lk_set_node_data i n x : ld_kept (set_node_data i n x).
Proof. unfold set_node_data. kept. Qed.
Lemma lk_add_to_pairs i x : ld_kept (add_to_pairs i x).
Proof. unfold add_to_pairs. kept. Qed.
Lemma lk_push_ctx i : ld_kept (push_ctx i).
Proof. unfold push_ctx. kept. Qed.
Lemma lk_close_node e m : ld_kept (close_node e m).
Proof. unfold close_node. kept. Qed.
#[local] Hint Resolve lk_add_node lk_limit_nodes lk_register_anchor lk_set_node_data lk_add_to_pairs
  lk_push_ctx lk_close_node : kept.

Lemma lk_load_node_add i : ld_kept (yaml_parser_load_node_add i).
Proof. unfold yaml_parser_load_node_add. kept. Qed.
#[local] Hint Resolve lk_load_node_add : kept.

Lemma lk_load_event ev : ld_kept (load_event ev).
Proof.
  unfold load_event, yaml_parser_load_alias, yaml_parser_load_scalar, yaml_parser_load_sequence,
    yaml_parser_load_mapping, yaml_parser_load_sequence_end, yaml_parser_load_mapping_end. kept.
Qed.
#[local] Hint Resolve lk_load_event : kept.

Lemma lk_load_document calls fuel ev :
  ld_kept (yaml_parser_load_document (src := scanner_source) calls fuel ev).
Proof.
  unfold yaml_parser_load_document, yaml_parser_load_nodes. kept.
Qed.
#[local] Hint Resolve lk_load_document : kept.

(** The first load makes the scanner start. *)
Lemma load_starts calls fuel s :
  scanner_ok s.(ld_parser).(reader) s.(ld_parser).(scanner) ->
  s.(ld_parser).(scanner).(stream_start_produced) = true
  \/ s.(ld_parser).(parsing).(state) = YAML_PARSE_STREAM_START_STATE
     /\ parsing_is_over s.(ld_parser) = false ->
  wp lax (yaml_parser_load (src := scanner_source) calls fuel)
    (fun _ s' => s'.(ld_parser).(scanner).(stream_start_produced) = true) (fun _ => True) s.
Proof.
  intros Hok Hs. unfold yaml_parser_load. wp_step. apply wp_modify. wp_step. apply wp_attempt.
  set (s0 := set_document empty_document s).
  apply (wp_mono lax _ (fun _ q => q.(ld_parser).(scanner).(stream_start_produced) = true) _ ld_failed).
  - unfold load_body. wp_step. apply wp_gets. wp_step.
    apply (wp_mono lax _ (fun _ q => q.(ld_parser).(scanner).(stream_start_produced) = true) _ ld_failed);
      [|cbv beta|done].
    + destruct (stream_start_produced (scanner (ld_parser s0))) eqn:Eq; [by wp_steps|].
      destruct Hs as [Hs|[H1 H2]]; [cbn in Eq; congruence|]. wp_step. apply wp_on_parser.
      eapply wp_mono; [by apply stream_start_makes| |done]. cbv beta. intros ev p Hp.
      destruct (event_data ev); by wp_steps.
    + intros [] q Hq. eapply wp_mono; [|intros ? ? H; exact (H Hq)|done].
      match goal with |- wp _ ?m _ _ q => assert (ld_kept m) as H; [|apply H] end.
      unfold yaml_parser_delete_aliases. kept.
  - intros [] q Hq. by wp_steps.
  - intros q _. unfold yaml_parser_delete_aliases. by wp_steps.
Qed.

(** ** All the documents of a stream *)

(** The loop of a client: documents up to the one without a root. *)
Definition load_all (docs calls fuel : nat) : ld_prog (list yaml_document_t) :=
  loop docs (fun acc : list yaml_document_t =>
    yaml_parser_load (src := scanner_source) calls fuel;;
    d ← gets ld_document;
    match yaml_document_get_root_node d with
    | None => mret (inr (rev acc))
    | Some _ => mret (inl (d :: acc))
    end) [].

Lemma wp_strict_and {S A} (m : prog S A) (Q Q' : A -> S -> Prop) E s :
  wp strict m Q E s -> wp lax m Q' (fun _ => True) s ->
  wp strict m (fun a s' => Q a s' /\ Q' a s') E s.
Proof. unfold wp. by destruct (m s). Qed.

Lemma no_root d : d.(nodes).(items) = [] -> yaml_document_get_root_node d = None.
Proof. intros H. unfold yaml_document_get_root_node. by rewrite H. Qed.

(** Between two loads of a client. *)
Definition client_inv (calls fuel : nat) (acc : list yaml_document_t) (s : loader) : Prop :=
  Forall (fun d => document_ok d /\ yaml_document_get_root_node d <> None) acc
  /\ enough strict calls fuel s
  /\ exists n, ready strict n s /\ between_documents n s /\ n <> NEnd.

Lemma inv_start p :
  machine_inv NStart p -> p.(parsing).(state) = YAML_PARSE_STREAM_START_STATE.
Proof.
  intros [H _ _ _ _ _]. destruct (state_frames (state (parsing p))) as [f|] eqn:E.
  - by eapply nest_of_frames in H as (fs & _ & ?).
  - assert (Hl := H). apply nest_of_outside in Hl; [|done]. rewrite Hl in H.
    by destruct (state (parsing p)).
Qed.

Lemma ready_starts n s :
  ready strict n s -> between_documents n s ->
  s.(ld_parser).(scanner).(stream_start_produced) = true
  \/ s.(ld_parser).(parsing).(state) = YAML_PARSE_STREAM_START_STATE
     /\ parsing_is_over s.(ld_parser) = false.
Proof.
  intros Hr [[_ ->]|[H _]]; [right|by left].
  destruct Hr. split; [by apply inv_start|by apply (not_over NStart)].
Qed.

Lemma wp_load_turn calls fuel acc s :
  client_inv calls fuel acc s ->
  wp strict (yaml_parser_load (src := scanner_source) calls fuel)
    (fun _ s' => document_ok s'.(ld_document)
       /\ (yaml_document_get_root_node s'.(ld_document) = None
           \/ client_inv calls fuel (s'.(ld_document) :: acc) s'
              /\ budget strict s'.(ld_parser) < budget strict s.(ld_parser)))
    unloaded s.
Proof.
  intros (Ha & Hf & n & Hr & Hb & _).
  eapply wp_mono; [apply wp_strict_and; [by apply (wp_load strict n)|]| |done].
  { apply load_starts; [apply Hr|by eapply ready_starts]. }
  intros [] s' [[Hd [[Hn _]|(Hroot & Hr' & [Hs|Hs])]] Hst]; [split; [done|left; by apply no_root]|done|].
  split; [done|right]. split; [|done]. split_and!.
  - by constructor.
  - right. destruct Hf as [[]|Hf]. lia.
  - exists NStream. split_and!; [done| |done]. right. by split; [|left].
Qed.

(** ** The theorems *)

(** C21: with any source of tokens that keeps its interface, one call of
    [yaml_parser_load] before, between or behind the documents of a stream
    never trips an assertion of the loader (an end event without its start, a
    parent that is no collection, an index outside the nodes); it fails with an
    error and an empty document, or it returns a document in which every item,
    key and value is the index of a node, and no key is without a value: one
    with a root, the parser being between documents again, or an empty one at
    the end of the stream. *)
Theorem load_sound (F : faults) {src : TokenSource} {laws : TokenSourceLaws F}
    (n : nest) (calls fuel : nat) (s : loader) :
  ready F n s -> enough F calls fuel s -> between_documents n s ->
  wp F (yaml_parser_load calls fuel) (fun _ s' => loaded F s s') unloaded s.
Proof. apply wp_load. Qed.

Lemma load_sound_witness :
  wp strict (yaml_parser_load (src := queue_source) 90 90)
    (fun _ s' => loaded strict (laws := queue_source_laws)
       (fresh_loader (token_parser sample_tokens)) s') unloaded
    (fresh_loader (token_parser sample_tokens)).
Proof.
  apply (load_sound strict (laws := queue_source_laws) NStart 90 90
           (fresh_loader (token_parser sample_tokens))).
  - constructor; [by apply initial_inv|exact I|reflexivity].
  - right. split; [reflexivity|discriminate].
  - left. split; reflexivity.
Defined.

(** C22: on every input of octets the loop that loads all the documents of a
    stream terminates: reader, scanner, parser and loader together fail with an
    error, or yield well-formed documents, each with a root. *)
Theorem load_all_total (bytes : list Z) (fuel : nat) :
  Forall is_octet bytes -> 64 * Z.of_nat (length bytes) + 49 < Z.of_nat fuel ->
  wp strict (load_all fuel fuel fuel)
    (fun ds _ => Forall (fun d => document_ok d /\ yaml_document_get_root_node d <> None) ds)
    unloaded (fresh_loader (yaml_parser_initialize bytes)).
Proof.
  intros Hb Hf. unfold load_all.
  assert (budget strict (yaml_parser_initialize bytes) = 64 * Z.of_nat (length bytes) + 49) as Hbud.
  { unfold budget, tokens_left. cbn [pending scanner_laws]. rewrite initial_pending. cbn. lia. }
  apply (wp_loop strict (client_inv fuel fuel) (fun _ s => Z.to_nat (budget strict s.(ld_parser)))).
  - intros acc s Hi. wp_step. eapply wp_mono; [by apply wp_load_turn| |done]. cbv beta.
    pose proof Hi as (Ha & _ & n & Hr & _ & Hn). pose proof (budget_pos strict n _ (rd_inv _ _ _ Hr) Hn).
    assert (0 <= tokens_left strict s.(ld_parser)) by apply pending_nonneg.
    intros [] s' [Hd Hor]. wp_step. apply wp_gets.
    destruct (yaml_document_get_root_node _) eqn:Er; wp_step.
    + destruct Hor as [|[H1 H2]]; [done|]. split; [done|right]. lia.
    + by apply Forall_rev.
  - split_and!; [constructor|right; cbn; lia|]. exists NStart. split_and!; [|by left|done].
    constructor; [by apply initial_inv| |done]. apply scanner_ok_of; [by apply initial_scan_ok|done].
  - right. cbn. rewrite Hbud. lia.
Qed.

Lemma load_all_total_witness :
  wp strict (load_all 500 500 500)
    (fun ds _ => Forall (fun d => document_ok d /\ yaml_document_get_root_node d <> None) ds)
    unloaded (fresh_loader (yaml_parser_initialize (bytes_of "a: b"))).
Proof. apply (load_all_total (bytes_of "a: b") 500); [apply bytes_of_octets|cbn; lia]. Defined.
