(* ===== verification/YamlCompose.v ===== *)
(** * libyaml: what the loader composes

    A reference definition of composition, by recursion over the tree that the
    events of a document spell: nodes are numbered in preorder, an anchor names
    the node it stands on from its start event on, an alias is the number of
    the node named before.  There is no stack of open collections and no update
    in place.  The theorems show that [yaml_parser_load] computes exactly this
    definition, and fails exactly where it does (or when memory runs out). *)

From Stdlib Require Import ZArith Lia Ascii String.
From stdpp Require Import base list option strings.
From S2P Require Import Prelude YamlData YamlReader YamlParser YamlEvents YamlRefinement.
From S2P Require Import YamlScanner YamlLevels YamlUtf8 YamlTotal YamlDocument YamlLoader.

#[local] Open Scope Z_scope.
#[local] Set Warnings "-register-all".

(** ** Trees of events *)

Inductive event_tree : Type :=
| TAlias (anchor : list Z) (sm em : yaml_mark_t)
| TScalar (anchor tag : option (list Z)) (value : list Z) (len : Z) (plain quoted : bool)
    (style : yaml_scalar_style_t) (sm em : yaml_mark_t)
| TSequence (anchor tag : option (list Z)) (implicit : bool) (style : yaml_sequence_style_t)
    (sm em : yaml_mark_t) (items : list event_tree) (sm' em' : yaml_mark_t)
| TMapping (anchor tag : option (list Z)) (implicit : bool) (style : yaml_mapping_style_t)
    (sm em : yaml_mark_t) (pairs : list (event_tree * event_tree)) (sm' em' : yaml_mark_t).

Section tree_ind.
Variable P : event_tree -> Prop.
Hypothesis Halias : forall a sm em, P (TAlias a sm em).
Hypothesis Hscalar : forall a t v n p q y sm em, P (TScalar a t v n p q y sm em).
Hypothesis Hseq : forall a t i y sm em ts sm' em',
  Forall P ts -> P (TSequence a t i y sm em ts sm' em').
Hypothesis Hmap : forall a t i y sm em kvs sm' em',
  Forall (fun kv => P kv.1 /\ P kv.2) kvs -> P (TMapping a t i y sm em kvs sm' em').

Fixpoint event_tree_ind' (t : event_tree) : P t :=
  match t with
  | TAlias a sm em => Halias a sm em
  | TScalar a t v n p q y sm em => Hscalar a t v n p q y sm em
  | TSequence a t i y sm em ts sm' em' =>
      Hseq a t i y sm em ts sm' em'
        ((fix go ts : Forall P ts :=
            match ts with
            | [] => Forall_nil_2 _
            | t :: r => Forall_cons_2 _ _ _ (event_tree_ind' t) (go r)
            end) ts)
  | TMapping a t i y sm em kvs sm' em' =>
      Hmap a t i y sm em kvs sm' em'
        ((fix go kvs : Forall (fun kv => P kv.1 /\ P kv.2) kvs :=
            match kvs with
            | [] => Forall_nil_2 _
            | kv :: r =>
                Forall_cons_2 _ _ _ (conj (event_tree_ind' kv.1) (event_tree_ind' kv.2)) (go r)
            end) kvs)
  end.
End tree_ind.

(** The events of a node, from its first to its last. *)
Fixpoint events (t : event_tree) : list yaml_event_t :=
  match t with
  | TAlias a sm em => [EVENT_INIT (YAML_ALIAS_EVENT a) sm em]
  | TScalar a t v n p q y sm em => [EVENT_INIT (YAML_SCALAR_EVENT a t v n p q y) sm em]
  | TSequence a t i y sm em ts sm' em' =>
      EVENT_INIT (YAML_SEQUENCE_START_EVENT a t i y) sm em
      :: concat (map events ts) ++ [EVENT_INIT YAML_SEQUENCE_END_EVENT sm' em']
  | TMapping a t i y sm em kvs sm' em' =>
      EVENT_INIT (YAML_MAPPING_START_EVENT a t i y) sm em
      :: concat (map (fun kv => events kv.1 ++ events kv.2) kvs)
      ++ [EVENT_INIT YAML_MAPPING_END_EVENT sm' em']
  end.

(** ** The reference *)

Inductive composed_data : Type :=
| CNone
| CScalar (value : list Z) (len : Z) (style : yaml_scalar_style_t)
| CSequence (refs : list Z) (style : yaml_sequence_style_t)
| CMapping (refs : list (Z * Z)) (style : yaml_mapping_style_t).

Record composed_node : Type := CNode {
  cn_data : composed_data;
  cn_tag : list Z;
  cn_start : yaml_mark_t;
  cn_end : yaml_mark_t
}.

Inductive compose_error : Type :=
| DuplicateAnchor (first second : yaml_mark_t)
| UndefinedAlias (m : yaml_mark_t).

Definition anchors : Type := list yaml_alias_data_t.

Definition named (a : list Z) (A : anchors) : option yaml_alias_data_t :=
  find (fun x => strcmp_eq x.(alias_anchor) a) A.

#[local] Instance sum_bind {E} : MBind (sum E) := fun X Y f m =>
  match m with inl e => inl e | inr x => f x end.

(** The anchor [a] names the node [i]. *)
Definition declare (a : option (list Z)) (i : Z) (m : yaml_mark_t) (A : anchors) :
    compose_error + anchors :=
  match a with
  | None => inr A
  | Some a =>
      match named a A with
      | Some first => inl (DuplicateAnchor first.(alias_mark) m)
      | None => inr (A ++ [mkAlias a i m])
      end
  end.

(** What a node adds to [base] nodes: its nodes, the anchors, its number. *)
Definition composed (X : Type) : Type := compose_error + (list composed_node * anchors * X).

Section compose_children.
Variable compose : event_tree -> Z -> anchors -> composed Z.

Definition compose_items : list event_tree -> Z -> anchors -> composed (list Z) :=
  fix go ts base A :=
    match ts with
    | [] => inr ([], A, [])
    | t :: r =>
        x ← compose t base A;
        y ← go r (base + Z.of_nat (length x.1.1)) x.1.2;
        inr (x.1.1 ++ y.1.1, y.1.2, x.2 :: y.2)
    end.

Definition compose_pairs : list (event_tree * event_tree) -> Z -> anchors -> composed (list (Z * Z)) :=
  fix go kvs base A :=
    match kvs with
    | [] => inr ([], A, [])
    | kv :: r =>
        x ← compose kv.1 base A;
        y ← compose kv.2 (base + Z.of_nat (length x.1.1)) x.1.2;
        z ← go r (base + Z.of_nat (length x.1.1) + Z.of_nat (length y.1.1)) y.1.2;
        inr (x.1.1 ++ y.1.1 ++ z.1.1, z.1.2, (x.2, y.2) :: z.2)
    end.
End compose_children.

Fixpoint compose (t : event_tree) (base : Z) (A : anchors) : composed Z :=
  match t with
  | TAlias a sm _ =>
      match named a A with
      | Some x => inr ([], A, x.(alias_index))
      | None => inl (UndefinedAlias sm)
      end
  | TScalar a tag v n _ _ y sm em =>
      A' ← declare a (base + 1) sm A;
      inr ([CNode (CScalar v n y) (node_tag_or YAML_DEFAULT_SCALAR_TAG tag) sm em], A', base + 1)
  | TSequence a tag _ y sm _ ts _ em =>
      A' ← declare a (base + 1) sm A;
      x ← compose_items compose ts (base + 1) A';
      inr (CNode (CSequence x.2 y) (node_tag_or YAML_DEFAULT_SEQUENCE_TAG tag) sm em :: x.1.1,
           x.1.2, base + 1)
  | TMapping a tag _ y sm _ kvs _ em =>
      A' ← declare a (base + 1) sm A;
      x ← compose_pairs compose kvs (base + 1) A';
      inr (CNode (CMapping x.2 y) (node_tag_or YAML_DEFAULT_MAPPING_TAG tag) sm em :: x.1.1,
           x.1.2, base + 1)
  end.

(** The error object of a failed composition. *)
Definition record_error (e : compose_error) (p : yaml_parser_t) : yaml_parser_t :=
  match e with
  | DuplicateAnchor first second =>
      set_problem_mark second (set_problem (Some "second occurrence"%string)
        (set_context_mark first (set_context (Some "found duplicate anchor; first occurrence"%string)
          (set_error YAML_COMPOSER_ERROR p))))
  | UndefinedAlias m =>
      set_problem_mark m (set_problem (Some "found undefined alias"%string)
        (set_error YAML_COMPOSER_ERROR p))
  end.

(** ** The loader's state as the reference sees it *)

Definition view_pair (x : yaml_node_pair_t) : Z * Z := (x.(pair_key), x.(pair_value)).

Definition view_data (x : yaml_node_data) : composed_data :=
  match x with
  | YAML_NO_NODE => CNone
  | YAML_SCALAR_NODE v n y => CScalar v n y
  | YAML_SEQUENCE_NODE s y => CSequence (rev s.(items)) y
  | YAML_MAPPING_NODE s y => CMapping (map view_pair (rev s.(items))) y
  end.

Definition view_node (n : yaml_node_t) : composed_node :=
  CNode (view_data n.(node_data)) n.(node_tag) n.(node_start_mark) n.(node_end_mark).

Definition view_nodes (d : yaml_document_t) : list composed_node := map view_node (document_nodes d).

(** A document but for its nodes. *)
Definition header (d : yaml_document_t) : yaml_document_t := set_nodes (mkStack [] 0) d.

Record holds (h : yaml_document_t) (p : yaml_parser_t) (N : list composed_node) (A : anchors)
    (C : list Z) (s : loader) : Prop := mkHolds {
  hd_header : header s.(ld_document) = h;
  hd_parser : s.(ld_parser) = p;
  hd_nodes : view_nodes s.(ld_document) = N;
  hd_anchors : rev s.(ld_aliases).(items) = A;
  hd_ctx : s.(ld_ctx).(items) = C;
  hd_pos : Forall (fun a => 0 < a.(alias_index)) A
}.

(** A node becomes an element of a collection. *)
Definition link_data (i : Z) (x : composed_data) : composed_data :=
  match x with
  | CSequence l y => CSequence (l ++ [i]) y
  | CMapping l y =>
      CMapping
        (match rev l with
         | (k, v) :: r => if negb (k =? 0) && (v =? 0) then rev r ++ [(k, i)] else l ++ [(i, 0)]
         | [] => [(i, 0)]
         end) y
  | _ => x
  end.

Definition on_data (f : composed_data -> composed_data) (n : composed_node) : composed_node :=
  CNode (f n.(cn_data)) n.(cn_tag) n.(cn_start) n.(cn_end).

Definition place (i : Z) : nat := Z.to_nat (i - 1).

Definition link (C : list Z) (i : Z) (N : list composed_node) : list composed_node :=
  match C with [] => N | c :: _ => alter (on_data (link_data i)) (place c) N end.

Definition is_collection (x : composed_data) : bool :=
  match x with CSequence _ _ | CMapping _ _ => true | _ => false end.

(** The innermost open collection is one. *)
Definition top_ok (C : list Z) (N : list composed_node) : Prop :=
  match C with
  | [] => True
  | c :: _ => 0 < c /\ exists x, N !! place c = Some x /\ is_collection x.(cn_data) = true
  end.

Definition no_memory (s : loader) : Prop := s.(ld_parser).(err).(error) = YAML_MEMORY_ERROR.

Lemma view_lookup i d :
  0 < i -> view_nodes d !! place i = view_node <$> node_at i d.
Proof.
  intros Hi. unfold view_nodes, node_at, place. rewrite list_lookup_fmap.
  by assert ((0 <? i) = true) as -> by (by apply Z.ltb_lt).
Qed.

Lemma view_length d : Z.of_nat (length (view_nodes d)) = node_count d.
Proof. unfold view_nodes. by rewrite length_fmap, node_count_length. Qed.

Lemma view_set i x d : view_nodes (set_node i x d) = <[place i := view_node x]> (view_nodes d).
Proof. unfold view_nodes. rewrite document_nodes_set. apply list_fmap_insert. Qed.

Lemma header_set i x d : header (set_node i x d) = header d.
Proof. done. Qed.

Lemma insert_alter {X} (f : X -> X) (l : list X) k x :
  l !! k = Some x -> <[k := f x]> l = alter f k l.
Proof.
  intros H. apply list_eq. intros j. destruct (decide (j = k)) as [->|Hne].
  - rewrite list_lookup_alter_eq, H, list_lookup_insert_eq; [done|]. by eapply lookup_lt_Some.
  - by rewrite list_lookup_alter_ne, list_lookup_insert_ne by done.
Qed.

Section primitives.
Context (E : loader -> Prop) (HE : forall s, no_memory s -> E s).
Implicit Types (h : yaml_document_t) (p : yaml_parser_t) (s : loader).

Lemma cp_memory_error {X} (Q : X -> loader -> Prop) s : wp strict ld_memory_error Q E s.
Proof using HE. apply wp_on_parser. unfold memory_error. wp_steps. by apply HE. Qed.

Lemma cp_STACK_LIMIT {X} (x : stack X) (Q : unit -> loader -> Prop) s :
  Q tt s -> wp strict (STACK_LIMIT x) Q E s.
Proof using HE. intros H. unfold STACK_LIMIT. destruct (_ <? _); [by wp_steps|apply cp_memory_error]. Qed.

Lemma cp_LD_PUSH {X} sz (x : stack X) v (Q : stack X -> loader -> Prop) s :
  (forall x', stack_push sz x v = Some x' -> Q x' s) -> wp strict (LD_PUSH sz x v) Q E s.
Proof using HE.
  intros H. unfold LD_PUSH. destruct (stack_push _ _ _); [wp_steps; by apply H|apply cp_memory_error].
Qed.

Lemma cp_add_node h p N A C n (Q : Z -> loader -> Prop) s :
  holds h p N A C s ->
  (forall s', holds h p (N ++ [view_node n]) A C s' -> Q (Z.of_nat (length N) + 1) s') ->
  wp strict (limit_nodes;; add_node n) Q E s.
Proof using HE.
  intros [H1 H2 H3 H4 H5 H6] HQ. unfold limit_nodes, add_node. wp_steps. apply cp_STACK_LIMIT. wp_steps.
  apply cp_LD_PUSH. intros x Hx. wp_steps.
  assert (node_count (set_nodes x s.(ld_document)) = Z.of_nat (length N) + 1) as Hc.
  { rewrite <- H3, view_length. by apply (push_lookup _ _ _ _ Hx). }
  change (node_count (ld_document _)) with (node_count (set_nodes x s.(ld_document))). rewrite Hc. apply HQ.
  constructor; try done. unfold view_nodes. cbn. rewrite (document_nodes_push _ _ _ _ Hx).
  rewrite map_app, <- H3. done.
Qed.

Lemma cp_register h p N A C a i x (Q : unit -> loader -> Prop) s :
  holds h p N A C s -> 0 < i -> N !! place i = Some x ->
  (forall s' A', declare a i x.(cn_start) A = inr A' -> holds h p N A' C s' -> Q tt s') ->
  (forall e s', declare a i x.(cn_start) A = inl e -> s'.(ld_parser) = record_error e p -> E s') ->
  wp strict (yaml_parser_register_anchor i a) Q E s.
Proof using HE.
  intros [H1 H2 H3 H4 H5 H6] Hi Hx HQ HF. unfold yaml_parser_register_anchor.
  destruct a as [a|]; [|wp_steps; by eapply HQ].
  rewrite <- H3, view_lookup in Hx by done. destruct (node_at i s.(ld_document)) as [n|] eqn:En; [|done].
  cbn in Hx. injection Hx as <-. cbn in HQ, HF. wp_steps. rewrite En. cbn [deref]. wp_steps.
  change (find_alias a (ld_aliases s)) with (named a (rev s.(ld_aliases).(items))). rewrite H4.
  destruct (named a A) as [f|] eqn:Ef.
  - apply wp_on_parser. wp_steps. apply (HF _ _ eq_refl). by rewrite <- H2.
  - wp_step. apply cp_LD_PUSH. intros st Hst. wp_steps. eapply HQ; [done|]. constructor; try done.
    + cbn. rewrite (stack_push_items _ _ _ _ Hst). cbn. by rewrite H4.
    + apply Forall_app. split; [done|]. by repeat constructor.
Qed.

Lemma view_add_pair i ps y ps' (s : loader) (Q : stack yaml_node_pair_t -> loader -> Prop) :
  (forall x, view_data (YAML_MAPPING_NODE x y) = link_data i (view_data (YAML_MAPPING_NODE ps y)) -> Q x s) ->
  ps' = ps -> wp strict (add_to_pairs i ps') Q E s.
Proof using HE.
  intros HQ ->. unfold add_to_pairs.
  assert (forall x', stack_push sizeof_pair ps (mkPair i 0) = Some x' ->
            map view_pair (rev x'.(items)) = map view_pair (rev ps.(items)) ++ [(i, 0)]) as Hp.
  { intros x' Hx. rewrite (stack_push_items _ _ _ _ Hx). cbn. by rewrite map_app. }
  cbn in HQ. rewrite <- map_rev, rev_involutive in HQ.
  destruct (items ps) as [|[k v] r] eqn:Ei; cbn in HQ |- *.
  - wp_step. apply cp_STACK_LIMIT, cp_LD_PUSH. intros x' Hx. apply HQ. by rewrite Hp.
  - destruct (negb (k =? 0) && (v =? 0)) eqn:Ev.
    + wp_steps. apply HQ. cbn. by rewrite map_app, map_rev.
    + wp_step. apply cp_STACK_LIMIT, cp_LD_PUSH. intros x' Hx. apply HQ. by rewrite Hp.
Qed.

Lemma cp_link h p N A C i (Q : unit -> loader -> Prop) s :
  holds h p N A C s -> top_ok C N ->
  (forall s', holds h p (link C i N) A C s' -> Q tt s') ->
  wp strict (yaml_parser_load_node_add i) Q E s.
Proof using HE.
  intros Hs Ht HQ. pose proof Hs as [H1 H2 H3 H4 H5 H6].
  unfold yaml_parser_load_node_add, set_node_data. wp_step.
  apply wp_gets. rewrite H5. destruct C as [|c C]; [wp_step; by apply HQ|].
  destruct Ht as (Hc & x & Hx & Hk). rewrite <- H3, view_lookup in Hx by done.
  destruct (node_at c s.(ld_document)) as [n|] eqn:En; [|done]. cbn in Hx. injection Hx as <-.
  wp_steps. rewrite En. cbn [deref]. wp_steps. cbn in Hk.
  assert (forall d, view_data d = link_data i (view_data n.(node_data)) ->
    Q tt (set_document (set_node c (with_data d n) s.(ld_document)) s)) as Hset.
  { intros d Hd. apply HQ. constructor; try done. etransitivity; [apply view_set|].
    unfold view_node at 1. cbn. rewrite Hd, H3. apply (insert_alter (on_data (link_data i)) N (place c) (view_node n)).
    by rewrite <- H3, view_lookup, En. }
  destruct (node_data n) as [| |st y|ps y] eqn:Ed; try done.
  - wp_step. apply cp_STACK_LIMIT. wp_step. apply cp_LD_PUSH. intros st' Hst. wp_step. apply Hset.
    cbn. rewrite (stack_push_items _ _ _ _ Hst). done.
  - wp_step. eapply view_add_pair; [|done]. intros ps' Hps. wp_step. by apply Hset.
Qed.

Lemma cp_push_ctx h p N A C i (Q : unit -> loader -> Prop) s :
  holds h p N A C s -> (forall s', holds h p N A (i :: C) s' -> Q tt s') ->
  wp strict (push_ctx i) Q E s.
Proof using HE.
  intros [H1 H2 H3 H4 H5 H6] HQ. unfold push_ctx. wp_step. apply wp_gets. wp_step. apply cp_STACK_LIMIT.
  wp_step. apply cp_LD_PUSH. intros c Hc. wp_step. apply HQ. constructor; try done. cbn.
  by rewrite (stack_push_items _ _ _ _ Hc), H5.
Qed.

Definition set_end (m : yaml_mark_t) (n : composed_node) : composed_node :=
  CNode n.(cn_data) n.(cn_tag) n.(cn_start) m.

Lemma cp_close h p N A c C em expected x (Q : unit -> loader -> Prop) s :
  holds h p N A (c :: C) s -> 0 < c -> N !! place c = Some x ->
  (forall d, view_data d = x.(cn_data) -> expected d = true) ->
  (forall s', holds h p (alter (set_end em) (place c) N) A C s' -> Q tt s') ->
  wp strict (close_node expected em) Q E s.
Proof using HE.
  intros [H1 H2 H3 H4 H5 H6] Hc Hx Hk HQ. unfold close_node. wp_step. apply wp_gets. rewrite H5.
  assert (Hx' := Hx). rewrite <- H3, view_lookup in Hx' by done.
  destruct (node_at c s.(ld_document)) as [n|] eqn:En; [|done]. cbn in Hx'. injection Hx' as <-.
  wp_steps. rewrite En. cbn [deref]. wp_steps. rewrite Hk by done. cbn [negb]. wp_steps.
  apply HQ. constructor; try done. etransitivity; [apply view_set|]. rewrite H3.
  apply (insert_alter (set_end em) N (place c) (view_node n)). done.
Qed.
End primitives.

(** ** Turns of the loop over the events *)

Section delivery.
Context `{src : TokenSource} (fuel : nat).

(** Successive calls of [yaml_parser_parse] return these events. *)
Inductive delivered : yaml_parser_t -> list yaml_event_t -> yaml_parser_t -> Prop :=
| dv_nil p : delivered p [] p
| dv_cons p ev p1 es p2 :
    yaml_parser_parse fuel p = Ret ev p1 -> delivered p1 es p2 -> delivered p (ev :: es) p2.

Lemma delivered_app p es es' p2 :
  delivered p (es ++ es') p2 -> exists p1, delivered p es p1 /\ delivered p1 es' p2.
Proof.
  revert p. induction es as [|e es IH]; intros p H; cbn in H; [by eauto using dv_nil|].
  inversion H; subst. edestruct IH as (q & ? & ?); [done|]. eauto using dv_cons.
Qed.

(** So many turns of [yaml_parser_load_nodes], none of which ends the document. *)
Fixpoint turns (n : nat) : ld_prog unit :=
  match n with
  | O => mret tt
  | S n' =>
      ev ← on_parser (yaml_parser_parse fuel);
      x ← load_event ev;
      match x with None => turns n' | Some _ => crash end
  end.

Lemma wp_turns_app a b (Q : unit -> loader -> Prop) E s :
  wp strict (turns a) (fun _ s' => wp strict (turns b) Q E s') E s -> wp strict (turns (a + b)) Q E s.
Proof.
  revert s. induction a as [|a IH]; intros s H; [done|]. cbn [turns Nat.add] in *.
  unfold wp, mbind, prog_bind in *. destruct (on_parser _ s) as [ev s1| | |]; try done.
  destruct (load_event ev s1) as [[y|] s2| | |]; try done. by apply IH.
Qed.

Lemma holds_parser h p N A C s p' : holds h p N A C s -> holds h p' N A C (set_parser p' s).
Proof. intros []. by constructor. Qed.

(** One turn, on an event that does not end the document. *)
Lemma wp_turn h p N A C s ev p1 (m : ld_prog unit) (Q : unit -> loader -> Prop) E :
  holds h p N A C s -> yaml_parser_parse fuel p = Ret ev p1 ->
  load_event ev = (m;; mret None) ->
  (forall s', holds h p1 N A C s' -> wp strict m Q E s') ->
  wp strict (turns 1) Q E s.
Proof.
  intros Hs Hp Hev Hm. cbn [turns]. wp_step. apply wp_on_parser. rewrite (hd_parser _ _ _ _ _ _ Hs).
  unfold wp at 1. rewrite Hp. wp_step. rewrite Hev. wp_step.
  eapply wp_mono; [eapply Hm, holds_parser, Hs| |done]. intros [] s' H. by wp_steps.
Qed.

(** ** Simulation *)

Definition simulates (t : event_tree) : Prop :=
  forall h p p' N A C s (Q : unit -> loader -> Prop) (E : loader -> Prop),
  holds h p N A C s -> top_ok C N -> delivered p (events t) p' ->
  (forall s', no_memory s' -> E s') ->
  (forall ns A' i s', compose t (Z.of_nat (length N)) A = inr (ns, A', i) -> 0 < i ->
     holds h p' (link C i N ++ ns) A' C s' -> Q tt s') ->
  (forall e q s', compose t (Z.of_nat (length N)) A = inl e ->
     s'.(ld_parser) = record_error e q -> E s') ->
  wp strict (turns (length (events t))) Q E s.

Lemma named_pos (A : anchors) a x :
  Forall (fun a => 0 < a.(alias_index)) A -> named a A = Some x -> 0 < x.(alias_index).
Proof.
  intros H Hx. apply find_some in Hx as [Hx _]. rewrite Forall_forall in H.
  by apply H, list_elem_of_In.
Qed.

Lemma link_app C i (N M : list composed_node) : top_ok C N -> link C i (N ++ M) = link C i N ++ M.
Proof.
  destruct C as [|c C]; [done|]. intros (_ & x & Hx & _). apply alter_app_l. by eapply lookup_lt_Some.
Qed.

Lemma top_ok_app C (N M : list composed_node) : top_ok C N -> top_ok C (N ++ M).
Proof.
  destruct C as [|c C]; [done|]. intros (Hc & x & Hx & Hk). split; [done|].
  exists x. split; [by apply lookup_app_l_Some|done].
Qed.

Lemma link_length C i N : length (link C i N) = length N.
Proof. destruct C; [done|]. apply length_alter. Qed.

(** The number of the node behind [N], and its place. *)
Definition number (N : list composed_node) : Z := Z.of_nat (length N) + 1.

Lemma place_number (N : list composed_node) : place (number N) = length N.
Proof. unfold place, number. lia. Qed.

Lemma lookup_number N x M : (N ++ x :: M) !! place (number N) = Some x.
Proof. rewrite place_number. apply list_lookup_middle. done. Qed.

Lemma alter_number f N x M : alter f (place (number N)) (N ++ x :: M) = N ++ f x :: M.
Proof. rewrite place_number. replace (length N) with (length N + 0)%nat by lia. by rewrite alter_app_r. Qed.

(** A scalar, or the start of a collection: the node and its anchor; [k] links it. *)
Lemma cp_new_node h p N A C s n a (k : Z -> ld_prog unit) (Q : unit -> loader -> Prop) E :
  holds h p N A C s -> (forall s', no_memory s' -> E s') ->
  (forall A' s', declare a (number N) n.(node_start_mark) A = inr A' ->
     holds h p (N ++ [view_node n]) A' C s' -> wp strict (k (number N)) Q E s') ->
  (forall e s', declare a (number N) n.(node_start_mark) A = inl e ->
     s'.(ld_parser) = record_error e p -> E s') ->
  wp strict (limit_nodes;; index ← add_node n; yaml_parser_register_anchor index a;; k index) Q E s.
Proof.
  intros Hs HE HQ HF.
  assert (wp strict (limit_nodes;; add_node n)
    (fun i s' => wp strict (yaml_parser_register_anchor i a;; k i) Q E s') E s) as H;
    [|clear HQ HF; unfold wp, mbind, prog_bind in *;
      destruct (limit_nodes s) as [[] s1| | |]; try done; by destruct (add_node n s1)].
  eapply cp_add_node; [done|done|]. fold (number N). intros s1 H1. wp_step.
  eapply (cp_register E HE); [done|unfold number; lia|apply (lookup_number N _ [])| |exact HF].
  intros s2 A' HA H2. by eapply HQ.
Qed.

(** A collection that has just been pushed, from its link on. *)
Lemma cp_open h p N A C s x (Q : unit -> loader -> Prop) E :
  holds h p (N ++ [x]) A C s -> top_ok C N -> (forall s', no_memory s' -> E s') ->
  (forall s', holds h p (link C (number N) N ++ [x]) A (number (link C (number N) N) :: C) s' -> Q tt s') ->
  wp strict (yaml_parser_load_node_add (number N);; push_ctx (number N)) Q E s.
Proof.
  intros Hs Ht HE HQ. wp_step. eapply cp_link; [done|done|by apply top_ok_app|].
  intros s1 H1. rewrite link_app in H1 by done. eapply cp_push_ctx; [done|done|].
  assert (number (link C (number N) N) = number N) as En by (unfold number; by rewrite link_length).
  by rewrite En in HQ.
Qed.

Lemma simulates_alias a sm em : simulates (TAlias a sm em).
Proof.
  intros h p p' N A C s Q E Hs Ht Hd HE HQ HF. cbn in Hd. inversion Hd as [|? ? p1 ? ? Hp Hn]; subst.
  inversion Hn; subst. eapply wp_turn; [done|done|reflexivity|]. clear s Hs. intros s Hs.
  cbn in HQ, HF. unfold yaml_parser_load_alias. wp_steps.
  change (find_alias a (ld_aliases s)) with (named a (rev s.(ld_aliases).(items))).
  rewrite (hd_anchors _ _ _ _ _ _ Hs). destruct (named a A) as [x|] eqn:Ex.
  - pose proof (named_pos _ _ _ (hd_pos _ _ _ _ _ _ Hs) Ex). eapply cp_link; [done|done|done|].
    intros s' Hs'. eapply HQ; [done|done|]. by rewrite app_nil_r.
  - apply wp_on_parser. wp_steps. by eapply HF.
Qed.

Lemma simulates_scalar a t v n pi qi y sm em : simulates (TScalar a t v n pi qi y sm em).
Proof.
  intros h p p' N A C s Q E Hs Ht Hd HE HQ HF. cbn in Hd. inversion Hd as [|? ? p1 ? ? Hp Hn]; subst.
  inversion Hn; subst. eapply wp_turn; [done|done|reflexivity|]. clear s Hs. intros s Hs.
  cbn in HQ, HF. eapply cp_new_node; [done|done| |].
  - intros A' s' HA H. cbn in HA. fold (number N) in HQ. rewrite HA in HQ. cbn in HQ.
    eapply cp_link; [done|done|by apply top_ok_app|]. intros s2 H2. rewrite link_app in H2 by done.
    eapply HQ; [done|unfold number; lia|done].
  - intros e s' HA. cbn in HA. fold (number N) in HF. rewrite HA in HF. cbn in HF. by apply HF.
Qed.

(** *** Children *)

Lemma top_ok_collection (N M : list composed_node) x C :
  is_collection x.(cn_data) = true -> top_ok (number N :: C) (N ++ x :: M).
Proof. intros H. split; [unfold number; lia|]. exists x. split; [apply lookup_number|done]. Qed.

Lemma link_collection i N x M C :
  link (number N :: C) i (N ++ x :: M) = N ++ on_data (link_data i) x :: M.
Proof. apply alter_number. Qed.

Lemma simulates_items ts : Forall simulates ts ->
  forall h p p' N M A C s l y tag sm em (Q : unit -> loader -> Prop) (E : loader -> Prop),
  holds h p (N ++ CNode (CSequence l y) tag sm em :: M) A (number N :: C) s ->
  delivered p (concat (map events ts)) p' ->
  (forall s', no_memory s' -> E s') ->
  (forall ns A' js s', compose_items compose ts (number N + Z.of_nat (length M)) A = inr (ns, A', js) ->
     holds h p' (N ++ CNode (CSequence (l ++ js) y) tag sm em :: M ++ ns) A' (number N :: C) s' -> Q tt s') ->
  (forall e q s', compose_items compose ts (number N + Z.of_nat (length M)) A = inl e ->
     s'.(ld_parser) = record_error e q -> E s') ->
  wp strict (turns (length (concat (map events ts)))) Q E s.
Proof.
  induction 1 as [|t ts Ht _ IH]; intros h p p' N M A C s l y tag sm em Q E Hs Hd HE HQ HF; cbn in Hd |- *.
  { inversion Hd; subst. change (Q tt s). eapply HQ; [done|]. by rewrite !app_nil_r. }
  apply delivered_app in Hd as (p1 & Hd1 & Hd2). rewrite length_app. apply wp_turns_app.
  assert (Z.of_nat (length (N ++ CNode (CSequence l y) tag sm em :: M))
          = number N + Z.of_nat (length M)) as Hlen.
  { rewrite length_app. cbn. unfold number. lia. }
  eapply Ht; [done|by apply top_ok_collection|done|done|..]; rewrite Hlen; clear Hlen.
  - intros ns A' i s1 Hc _ H1. cbn in HQ, HF. rewrite Hc in HQ, HF. cbn in HQ, HF.
    rewrite link_collection, <- app_assoc in H1. cbn in H1.
    eapply IH; [exact H1|done|done|..]; rewrite length_app, Nat2Z.inj_add, Z.add_assoc.
    + intros ns' A'' js s2 Hc2 H2. fold compose in Hc2. rewrite Hc2 in HQ. cbn in HQ. eapply HQ; [done|].
      by rewrite <- !app_assoc in H2.
    + intros e q s2 Hc2 H2. rewrite Hc2 in HF. by eapply HF.
  - intros e q s1 Hc H1. cbn in HF. rewrite Hc in HF. by eapply HF.
Qed.

(** No pair waits for its value. *)
Definition complete (l : list (Z * Z)) : Prop := Forall (fun kv => kv.2 <> 0) l.

Lemma link_key l y k : complete l -> link_data k (CMapping l y) = CMapping (l ++ [(k, 0)]) y.
Proof.
  intros H%Forall_rev. unfold link_data. destruct (rev l) as [|[k' v] r] eqn:E.
  - apply (f_equal (@rev _)) in E. rewrite rev_involutive in E. by subst.
  - apply Forall_cons in H as [H _]. cbn in H. apply Z.eqb_neq in H. by rewrite H, andb_false_r.
Qed.

Lemma link_value l y k v :
  0 < k -> link_data v (CMapping (l ++ [(k, 0)]) y) = CMapping (l ++ [(k, v)]) y.
Proof.
  intros H. cbn. rewrite rev_app_distr. cbn. assert ((k =? 0) = false) as -> by lia. cbn.
  by rewrite rev_involutive.
Qed.

Lemma simulates_pairs kvs : Forall (fun kv => simulates kv.1 /\ simulates kv.2) kvs ->
  forall h p p' N M A C s l y tag sm em (Q : unit -> loader -> Prop) (E : loader -> Prop),
  holds h p (N ++ CNode (CMapping l y) tag sm em :: M) A (number N :: C) s -> complete l ->
  delivered p (concat (map (fun kv => events kv.1 ++ events kv.2) kvs)) p' ->
  (forall s', no_memory s' -> E s') ->
  (forall ns A' js s', compose_pairs compose kvs (number N + Z.of_nat (length M)) A = inr (ns, A', js) ->
     holds h p' (N ++ CNode (CMapping (l ++ js) y) tag sm em :: M ++ ns) A' (number N :: C) s' -> Q tt s') ->
  (forall e q s', compose_pairs compose kvs (number N + Z.of_nat (length M)) A = inl e ->
     s'.(ld_parser) = record_error e q -> E s') ->
  wp strict (turns (length (concat (map (fun kv => events kv.1 ++ events kv.2) kvs)))) Q E s.
Proof.
  assert (forall N M x, Z.of_nat (length (N ++ x :: M)) = number N + Z.of_nat (length M)) as Hlen.
  { intros N M x. rewrite length_app. cbn. unfold number. lia. }
  induction 1 as [|[t u] kvs [Ht Hu] _ IH];
    intros h p p' N M A C s l y tag sm em Q E Hs Hl Hd HE HQ HF; cbn in Hd |- *.
  { inversion Hd; subst. change (Q tt s). eapply HQ; [done|]. by rewrite !app_nil_r. }
  cbn in Ht, Hu, HQ, HF. apply delivered_app in Hd as (p2 & Hd & Hd3).
  apply delivered_app in Hd as (p1 & Hd1 & Hd2).
  rewrite !length_app, <- Nat.add_assoc. apply wp_turns_app.
  eapply Ht; [done|by apply top_ok_collection|done|done|..]; rewrite Hlen;
    [|intros e q s1 Hc H1; rewrite Hc in HF; by eapply HF].
  intros ns A1 k s1 Hc Hk H1. rewrite Hc in HQ, HF. cbn in HQ, HF. clear Hc.
  rewrite link_collection, <- app_assoc in H1. unfold on_data in H1. cbn [cn_data cn_tag cn_start cn_end app] in H1.
  rewrite link_key in H1 by done. apply wp_turns_app.
  eapply Hu; [exact H1|by apply top_ok_collection|done|done|..];
    rewrite Hlen, length_app, Nat2Z.inj_add, Z.add_assoc;
    [|intros e q s2 Hc H2; rewrite Hc in HF; by eapply HF].
  intros ns2 A2 v s2 Hc Hv H2. rewrite Hc in HQ, HF. cbn in HQ, HF. clear Hc.
  rewrite link_collection, <- app_assoc in H2. unfold on_data in H2. cbn [cn_data cn_tag cn_start cn_end app] in H2.
  rewrite link_value in H2 by done.
  eapply IH; [exact H2| |done|done|..].
  { apply Forall_app. split; [done|]. constructor; [cbn; lia|done]. }
  all: rewrite !length_app, !Nat2Z.inj_add, !Z.add_assoc.
  - intros ns3 A3 js s3 Hc H3. rewrite Hc in HQ. eapply HQ; [done|]. cbn.
    by rewrite <- !app_assoc in H3.
  - intros e q s3 Hc H3. rewrite Hc in HF. by eapply HF.
Qed.

Lemma delivered_1 p ev p' : delivered p [ev] p' -> yaml_parser_parse fuel p = Ret ev p'.
Proof. intros H. inversion H as [|? ? p1 ? ? Hp Hn]; subst. by inversion Hn; subst. Qed.

(** The elements of a collection whose node is the last so far. *)
Definition fills {X} (x : composed_node) (inner : list yaml_event_t)
    (children : Z -> anchors -> composed X) (fill : X -> composed_data) : Prop :=
  forall h p p' N A C s (Q : unit -> loader -> Prop) (E : loader -> Prop),
  holds h p (N ++ [x]) A (number N :: C) s -> delivered p inner p' ->
  (forall s', no_memory s' -> E s') ->
  (forall ns A' js s', children (number N) A = inr (ns, A', js) ->
     holds h p' (N ++ on_data (fun _ => fill js) x :: ns) A' (number N :: C) s' -> Q tt s') ->
  (forall e q s', children (number N) A = inl e -> s'.(ld_parser) = record_error e q -> E s') ->
  wp strict (turns (length inner)) Q E s.

(** A collection: its node, its elements, its end mark. *)
Lemma cp_collection {X} n a inner (children : Z -> anchors -> composed X) fill expected em ev ev'
    h p p' N A C s (Q : unit -> loader -> Prop) (E : loader -> Prop) :
  load_event ev = ((limit_nodes;; index ← add_node n; yaml_parser_register_anchor index a;;
                    yaml_parser_load_node_add index;; push_ctx index);; mret None) ->
  load_event ev' = (close_node expected em;; mret None) ->
  fills (view_node n) inner children fill ->
  (forall js d, view_data d = fill js -> expected d = true) ->
  holds h p N A C s -> top_ok C N -> delivered p (ev :: inner ++ [ev']) p' ->
  (forall s', no_memory s' -> E s') ->
  let r := match declare a (number N) n.(node_start_mark) A with
           | inl e => inl e
           | inr A' => children (number N) A'
           end in
  (forall ns A' js s', r = inr (ns, A', js) ->
     holds h p' (link C (number N) N ++ set_end em (on_data (fun _ => fill js) (view_node n)) :: ns) A' C s' ->
     Q tt s') ->
  (forall e q s', r = inl e -> s'.(ld_parser) = record_error e q -> E s') ->
  wp strict (turns (length (ev :: inner ++ [ev']))) Q E s.
Proof.
  intros Hev Hev' Hfill Hexp Hs Ht Hd HE r HQ HF. subst r. inversion Hd as [|? ? p1 ? ? Hp Hn]; subst.
  apply delivered_app in Hn as (p2 & Hd2 & Hp2%delivered_1).
  cbn [length]. rewrite length_app. apply (wp_turns_app 1).
  eapply wp_turn; [done|done|done|]. clear s Hs. intros s Hs. eapply cp_new_node; [done|done| |].
  2:{ intros e s' HA. rewrite HA in HF. by apply HF. }
  intros A' s1 HA H1. rewrite HA in HQ, HF. cbn in HQ, HF. clear HA.
  eapply cp_open; [done|done|done|]. intros s2 H2. apply wp_turns_app.
  assert (number (link C (number N) N) = number N) as En by (unfold number; by rewrite link_length).
  set (M := link C (number N) N) in *. clearbody M.
  eapply Hfill; [exact H2|done|done|..]; rewrite En.
  2:{ intros e q s3 Hc H3. by eapply HF. }
  intros ns A2 js s3 Hc H3. eapply wp_turn; [done|done|done|]. clear s3 H3. intros s3 H3.
  rewrite <- En in H3.
  eapply cp_close; [exact HE|exact H3|unfold number; lia|apply lookup_number|by apply Hexp|].
  intros s4 H4. rewrite alter_number in H4. by eapply HQ.
Qed.

Lemma simulates_sequence a t i y sm em ts sm' em' :
  Forall simulates ts -> simulates (TSequence a t i y sm em ts sm' em').
Proof.
  intros Hts h p p' N A C s Q E Hs Ht Hd HE HQ HF. cbn [compose] in HQ, HF.
  eapply (cp_collection _ a _ (compose_items compose ts) (fun js => CSequence js y));
    [reflexivity|reflexivity| |by intros ? []|done|done|done|done|..].
  - clear - Hts. intros h p p' N A C s Q E Hs Hd HE HQ HF.
    eapply (simulates_items ts Hts h p p' N []); [exact Hs|done|done|..]; cbn [length Z.of_nat];
      rewrite Z.add_0_r; done.
  - intros ns A' js s' Hc H. fold (number N) in HQ. cbn [node_start_mark] in Hc.
    destruct (declare _ _ _ _) as [|A1]; [done|]. cbn in Hc, HQ. rewrite Hc in HQ.
    eapply HQ; [done|unfold number; lia|exact H].
  - intros e q s' Hc H. fold (number N) in HF. cbn [node_start_mark] in Hc.
    destruct (declare _ _ _ _) as [|A1]; cbn in Hc, HF; [|rewrite Hc in HF]; simplify_eq; by eapply HF.
Qed.

Lemma simulates_mapping a t i y sm em kvs sm' em' :
  Forall (fun kv => simulates kv.1 /\ simulates kv.2) kvs ->
  simulates (TMapping a t i y sm em kvs sm' em').
Proof.
  intros Hts h p p' N A C s Q E Hs Ht Hd HE HQ HF. cbn [compose] in HQ, HF.
  eapply (cp_collection _ a _ (compose_pairs compose kvs) (fun js => CMapping js y));
    [reflexivity|reflexivity| |by intros ? []|done|done|done|done|..].
  - clear - Hts. intros h p p' N A C s Q E Hs Hd HE HQ HF.
    eapply (simulates_pairs kvs Hts h p p' N []); [exact Hs|constructor|done|done|..];
      cbn [length Z.of_nat]; rewrite Z.add_0_r; done.
  - intros ns A' js s' Hc H. fold (number N) in HQ. cbn [node_start_mark] in Hc.
    destruct (declare _ _ _ _) as [|A1]; [done|]. cbn in Hc, HQ. rewrite Hc in HQ.
    eapply HQ; [done|unfold number; lia|exact H].
  - intros e q s' Hc H. fold (number N) in HF. cbn [node_start_mark] in Hc.
    destruct (declare _ _ _ _) as [|A1]; cbn in Hc, HF; [|rewrite Hc in HF]; simplify_eq; by eapply HF.
Qed.

Lemma simulation t : simulates t.
Proof.
  induction t using event_tree_ind';
    auto using simulates_alias, simulates_scalar, simulates_sequence, simulates_mapping.
Qed.
End delivery.

(** ** Events of the grammar are trees *)

Definition inside (e : yaml_event_data) : bool :=
  match e with
  | YAML_ALIAS_EVENT _ | YAML_SCALAR_EVENT _ _ _ _ _ _ _
  | YAML_SEQUENCE_START_EVENT _ _ _ _ | YAML_SEQUENCE_END_EVENT
  | YAML_MAPPING_START_EVENT _ _ _ _ | YAML_MAPPING_END_EVENT => true
  | _ => false
  end.

(** The event starts a node. *)
Definition opens (e : yaml_event_data) : bool :=
  match e with
  | YAML_SEQUENCE_END_EVENT | YAML_MAPPING_END_EVENT => false
  | _ => inside e
  end.

Definition all_inside (es : list yaml_event_t) : Prop := Forall (fun e => inside e.(event_data) = true) es.
Definition completes (n : nest) (es : list yaml_event_t) : Prop :=
  nest_run n (map event_data es) = Some NDocDone.

Lemma completes_cons n e es :
  completes n (e :: es) -> exists n', nest_step n e.(event_data) = Some n' /\ completes n' es.
Proof. unfold completes. cbn. intros H. by apply bind_Some in H. Qed.

Lemma completes_doc fs es : completes (NDoc fs) es -> exists e r, es = e :: r.
Proof. destruct es; [done|eauto]. Qed.

Definition reads_node (k : nat) : Prop := forall fs e es,
  (length (e :: es) <= k)%nat -> all_inside (e :: es) -> opens e.(event_data) = true ->
  completes (NDoc fs) (e :: es) ->
  exists t rest, e :: es = events t ++ rest /\ (length rest < length (e :: es))%nat
    /\ all_inside rest /\ completes (node_done fs) rest.

Definition reads_items (k : nat) : Prop := forall fs es,
  (length es <= k)%nat -> all_inside es -> completes (NDoc (FSeq :: fs)) es ->
  exists ts sm em rest,
    es = concat (map events ts) ++ EVENT_INIT YAML_SEQUENCE_END_EVENT sm em :: rest
    /\ all_inside rest /\ completes (node_done fs) rest.

Definition reads_pairs (k : nat) : Prop := forall fs es,
  (length es <= k)%nat -> all_inside es -> completes (NDoc (FKey :: fs)) es ->
  exists kvs sm em rest,
    es = concat (map (fun kv => events kv.1 ++ events kv.2) kvs)
         ++ EVENT_INIT YAML_MAPPING_END_EVENT sm em :: rest
    /\ all_inside rest /\ completes (node_done fs) rest.

Lemma all_inside_cons e es : all_inside (e :: es) -> inside e.(event_data) = true /\ all_inside es.
Proof. intros H. by apply Forall_cons in H. Qed.

Lemma reads_node_step k : reads_items k -> reads_pairs k -> reads_node (S k).
Proof.
  intros Hi Hp fs [d sm em] es Hk [_ Ha]%all_inside_cons Ho (n' & Hs & Hc)%completes_cons.
  cbn in Hk, Ho, Hs. destruct d; try done; cbn in Hs; simplify_eq.
  - exists (TAlias anchor sm em), es. split_and!; [done|cbn; lia|done|done].
  - exists (TScalar anchor tag value length plain_implicit quoted_implicit style sm em), es.
    split_and!; [done|cbn; lia|done|done].
  - destruct (Hi fs es ltac:(lia) Ha Hc) as (ts & sm' & em' & rest & -> & Hr & Hcr).
    exists (TSequence anchor tag implicit style sm em ts sm' em'), rest. cbn.
    rewrite <- app_assoc, length_app. split_and!; [done|cbn; lia|done|done].
  - destruct (Hp fs es ltac:(lia) Ha Hc) as (kvs & sm' & em' & rest & -> & Hr & Hcr).
    exists (TMapping anchor tag implicit style sm em kvs sm' em'), rest. cbn.
    rewrite <- app_assoc, length_app. split_and!; [done|cbn; lia|done|done].
Qed.

Lemma reads_items_step k : reads_node (S k) -> reads_items k -> reads_items (S k).
Proof.
  intros Hn Hi fs es Hk Ha Hc. destruct (completes_doc _ _ Hc) as (e & r & ->).
  destruct (opens (event_data e)) eqn:Eo.
  - destruct (Hn _ _ _ Hk Ha Eo Hc) as (t & rest & E & Hl & Hr & Hcr). cbn in Hcr.
    destruct (Hi fs rest ltac:(lia) Hr Hcr) as (ts & sm & em & rest' & -> & Hr' & Hc').
    exists (t :: ts), sm, em, rest'. cbn. rewrite <- app_assoc. by rewrite E.
  - destruct e as [d sm em]. apply all_inside_cons in Ha as [Hd Ha].
    apply completes_cons in Hc as (n' & Hs & Hc). cbn in *.
    destruct d; try done; cbn in Hs; simplify_eq. by exists [], sm, em, r.
Qed.

Lemma reads_pairs_step k : reads_node (S k) -> reads_node k -> reads_pairs k -> reads_pairs (S k).
Proof.
  intros Hn Hn' Hp fs es Hk Ha Hc. destruct (completes_doc _ _ Hc) as (e & r & ->).
  destruct (opens (event_data e)) eqn:Eo.
  - destruct (Hn _ _ _ Hk Ha Eo Hc) as (t & rest & E & Hl & Hr & Hcr). cbn in Hcr.
    destruct (completes_doc _ _ Hcr) as (e2 & r2 & ->).
    assert (opens e2.(event_data) = true) as Eo2.
    { apply completes_cons in Hcr as (n' & Hs & _). apply all_inside_cons in Hr as [Hd _].
      by destruct (event_data e2). }
    destruct (Hn' (FVal :: fs) e2 r2 ltac:(lia) Hr Eo2 Hcr) as (u & rest2 & E2 & Hl2 & Hr2 & Hcr2). cbn in Hcr2.
    destruct (Hp fs rest2 ltac:(lia) Hr2 Hcr2) as (kvs & sm & em & rest' & -> & Hr' & Hc').
    exists ((t, u) :: kvs), sm, em, rest'. rewrite E, E2. cbn. by rewrite <- !app_assoc.
  - destruct e as [d sm em]. apply all_inside_cons in Ha as [Hd Ha].
    apply completes_cons in Hc as (n' & Hs & Hc). cbn in *.
    destruct d; try done; cbn in Hs; simplify_eq. by exists [], sm, em, r.
Qed.

Lemma reads_all k : reads_node k /\ reads_items k /\ reads_pairs k.
Proof.
  induction k as [|k (H1 & H2 & H3)].
  - split_and!; [intros fs e es H; cbn in H; lia|..]; intros fs es H _ Hc;
      destruct (completes_doc _ _ Hc) as (e & r & ->); cbn in H; lia.
  - assert (reads_node (S k)) by by apply reads_node_step.
    split_and!; [done|by apply reads_items_step|by apply reads_pairs_step].
Qed.

(** The events between the start and the end of a document are those of one node. *)
Lemma document_tree es :
  all_inside es -> completes (NDoc []) es -> exists t, es = events t.
Proof.
  intros Ha Hc. destruct (completes_doc _ _ Hc) as (e & r & ->).
  assert (opens e.(event_data) = true) as Ho.
  { apply completes_cons in Hc as (n' & Hs & _). apply all_inside_cons in Ha as [Hd _].
    by destruct (event_data e). }
  destruct (reads_all (length (e :: r))) as (Hn & _ & _).
  destruct (Hn [] e r ltac:(lia) Ha Ho Hc) as (t & rest & E & _ & Hr & Hcr). exists t. rewrite E.
  destruct rest as [|e' rest]; [by rewrite app_nil_r|]. exfalso.
  apply completes_cons in Hcr as (n' & Hs & _). apply all_inside_cons in Hr as [Hd _].
  by destruct (event_data e').
Qed.

(** ** The handlers leave the parser alone *)

Definition same {X} (m : ld_prog X) : Prop :=
  forall s, wp lax m (fun _ s' => s'.(ld_parser) = s.(ld_parser)) (fun _ => True) s.

Lemma same_bind {X Y} (m : ld_prog X) (k : X -> ld_prog Y) :
  same m -> (forall a, same (k a)) -> same (m ≫= k).
Proof.
  intros Hm Hk s. wp_step. eapply wp_mono; [apply Hm| |done]. cbv beta. intros a s1 H1.
  eapply wp_mono; [apply Hk| |done]. cbv beta. congruence.
Qed.

Lemma same_error {X} (m : yaml_prog X) : (forall p, exists p', m p = Err p') -> same (on_parser m).
Proof. intros H s. apply wp_on_parser. destruct (H s.(ld_parser)) as [p' Hp]. unfold wp. by rewrite Hp. Qed.

Ltac same_step :=
  match goal with
  | |- same (_ ≫= _) => apply same_bind; [|intros ?]
  | |- same (match ?x with _ => _ end) => destruct x
  | |- same (on_parser _) => apply same_error; intros ?; eexists; reflexivity
  | |- same (deref ?x) => destruct x; cbn [deref]
  | |- same _ => done
  | |- _ => progress cbv beta zeta
  end.

Lemma same_load_event ev : same (load_event ev).
Proof.
  unfold load_event, yaml_parser_load_alias, yaml_parser_load_scalar, yaml_parser_load_sequence,
    yaml_parser_load_mapping, yaml_parser_load_sequence_end, yaml_parser_load_mapping_end, close_node,
    push_ctx, yaml_parser_load_node_add, yaml_parser_register_anchor, add_to_pairs, set_node_data,
    limit_nodes, add_node, STACK_LIMIT, LD_PUSH, ld_memory_error.
  repeat same_step.
Qed.

Lemma wp_any {S X} (m : prog S X) (Q : X -> S -> Prop) s :
  (forall a s', Q a s') -> wp lax m Q (fun _ => True) s.
Proof. intros H. unfold wp. by destruct (m s). Qed.

(** An event of a node, or the end of the document. *)
Lemma load_event_kind ev s :
  wp lax (load_event ev)
    (fun x _ => match x with
                | None => inside ev.(event_data) = true
                | Some y => ev.(event_data) = YAML_DOCUMENT_END_EVENT y.1
                end) (fun _ => True) s.
Proof.
  unfold load_event. destruct (event_data ev); try done; wp_step; apply wp_any; intros; by wp_steps.
Qed.

(** ** Loading a delivered document *)

Section load_delivered.
Context `{src : TokenSource} (fuel : nat).

Definition nodes_turn : unit -> ld_prog (unit + bool * yaml_mark_t) := fun _ =>
  ev ← on_parser (yaml_parser_parse fuel);
  x ← load_event ev;
  mret (match x with None => inl tt | Some y => inr y end).

Lemma wp_bind_inv {S X Y} F (m : prog S X) (k : X -> prog S Y) Q E s :
  wp F (m ≫= k) Q E s -> wp F m (fun a s' => wp F (k a) Q E s') E s.
Proof. unfold wp, mbind, prog_bind. by destruct (m s). Qed.

Lemma wp_loop_turns n k Q E s :
  wp strict (turns fuel n) (fun _ s' => wp strict (loop k nodes_turn tt) Q E s') E s ->
  wp strict (loop (n + k) nodes_turn tt) Q E s.
Proof.
  revert s. induction n as [|n IH]; intros s H; [done|]. cbn [turns loop Nat.add] in *.
  wp_step. unfold nodes_turn at 1. wp_step. apply wp_bind_inv in H.
  eapply wp_mono; [exact H|cbv beta|done]. intros ev s1 H1. wp_step. apply wp_bind_inv in H1.
  eapply wp_mono; [exact H1|cbv beta|done]. intros [y|] s2 H2; [done|]. wp_steps. by apply IH.
Qed.

(** What a document turned out to be: the composition of its tree. *)
Definition composed_as (t : event_tree) (p : yaml_parser_t) (h : yaml_document_t) (s : loader) : Prop :=
  s.(ld_parser) = p /\ header s.(ld_document) = h
  /\ exists A i, compose t 0 [] = inr (view_nodes s.(ld_document), A, i).

(** Why it failed. *)
Definition not_composed (t : event_tree) (s : loader) : Prop :=
  no_memory s \/ exists e q, compose t 0 [] = inl e /\ s.(ld_parser) = record_error e q.

Lemma wp_nodes_delivered t h p p' s calls ev implicit :
  holds h p [] [] [] s -> delivered fuel p (events t ++ [ev]) p' ->
  ev.(event_data) = YAML_DOCUMENT_END_EVENT implicit -> (length (events t) < calls)%nat ->
  wp strict (yaml_parser_load_nodes calls fuel)
    (fun _ s' => composed_as t p'
       (DOCUMENT_INIT h.(nodes) h.(version_directive) h.(document_tag_directives) h.(start_implicit)
          implicit h.(document_start_mark) ev.(event_end_mark)) s')
    (not_composed t) s.
Proof.
  intros Hs Hd He Hc. apply delivered_app in Hd as (p1 & Hd & Hp%delivered_1).
  unfold yaml_parser_load_nodes. wp_step. fold nodes_turn.
  replace calls with (length (events t) + S (calls - length (events t) - 1))%nat by lia.
  apply wp_loop_turns. eapply (simulation fuel t); [done|done|done|by left|..].
  - intros ns A i s1 Hcm _ H1. cbv beta. cbn [loop]. wp_step. unfold nodes_turn at 1. wp_step. apply wp_on_parser.
    rewrite (hd_parser _ _ _ _ _ _ H1). unfold wp at 1. rewrite Hp. wp_step.
    unfold load_event. rewrite He. wp_steps. destruct H1 as [H1 H2 H3 H4 H5 H6].
    split_and!; [done|by rewrite <- H1|]. exists A, i. cbn in H3.
    change 0 with (Z.of_nat (length (@nil composed_node))). rewrite Hcm. by rewrite <- H3.
  - intros e q s1 Hcm H1. right. by exists e, q.
Qed.

(** The event that a first load takes before the document. *)
Definition preamble (s : loader) (pre : list yaml_event_t) : Prop :=
  if s.(ld_parser).(scanner).(stream_start_produced) then pre = []
  else exists enc sm em, pre = [EVENT_INIT (YAML_STREAM_START_EVENT enc) sm em].

Lemma wp_document_delivered t p p' s calls ev ev' version tags implicit implicit' :
  s.(ld_document).(nodes).(items) = [] -> s.(ld_parser) = p -> s.(ld_aliases).(items) = [] ->
  ev.(event_data) = YAML_DOCUMENT_START_EVENT version tags implicit ->
  ev'.(event_data) = YAML_DOCUMENT_END_EVENT implicit' ->
  delivered fuel p (events t ++ [ev']) p' -> (length (events t) < calls)%nat ->
  wp strict (yaml_parser_load_document calls fuel ev)
    (fun _ s' => composed_as t p'
       (DOCUMENT_INIT (mkStack [] 0) version tags implicit implicit'
          ev.(event_start_mark) ev'.(event_end_mark)) s')
    (not_composed t) s.
Proof.
  intros Hn Hp Ha He He' Hd Hc. unfold yaml_parser_load_document. rewrite He. wp_steps.
  eapply wp_mono; [eapply (wp_nodes_delivered t _ p); [|done|done|done]| |done].
  - constructor; [reflexivity|done| |cbn; by rewrite Ha|done|constructor].
    unfold view_nodes, document_nodes. cbn. by rewrite Hn.
  - by cbn.
Qed.

Lemma wp_load_delivered t s calls pre p1 p' ev ev' version tags implicit implicit' :
  preamble s pre -> delivered fuel s.(ld_parser) pre p1 -> p1.(scanner).(stream_end_produced) = false ->
  ev.(event_data) = YAML_DOCUMENT_START_EVENT version tags implicit ->
  ev'.(event_data) = YAML_DOCUMENT_END_EVENT implicit' ->
  delivered fuel p1 (ev :: events t ++ [ev']) p' -> (length (events t) < calls)%nat ->
  wp strict (yaml_parser_load calls fuel)
    (fun _ s' => composed_as t p'
       (DOCUMENT_INIT (mkStack [] 0) version tags implicit implicit'
          ev.(event_start_mark) ev'.(event_end_mark)) s')
    (fun s' => s'.(ld_document).(nodes).(items) = [] /\ not_composed t s') s.
Proof.
  intros Hpre Hd1 Hend He He' Hd Hc. unfold yaml_parser_load. wp_step. apply wp_modify. wp_step.
  apply wp_attempt. unfold load_body. wp_step. apply wp_gets. wp_step.
  set (s0 := set_document empty_document s).
  apply (wp_mono strict _ (fun _ s' => s' = set_parser p1 s0) _ (fun _ => False)); [|cbv beta|done].
  - unfold preamble in Hpre. cbn. destruct (stream_start_produced _).
    + subst pre. inversion Hd1; subst. wp_steps. by destruct s.
    + destruct Hpre as (enc & sm & em & ->). apply delivered_1 in Hd1. wp_step. apply wp_on_parser.
      cbn. unfold wp at 1. rewrite Hd1. cbn. by wp_steps.
  - intros [] s1 ->. wp_step. apply wp_gets. cbn [ld_parser set_parser]. rewrite Hend.
    inversion Hd as [|? ? p2 ? ? Hp Hd2]; subst. wp_step. apply wp_on_parser. cbn [ld_parser set_parser].
    unfold wp at 1. rewrite Hp, He. wp_step. apply wp_modify. wp_step.
    eapply wp_mono; [by eapply (wp_document_delivered t p2)|..]; unfold yaml_parser_delete_aliases; cbv beta.
    + intros [] s' H. by wp_steps.
    + intros s' H. by wp_steps.
Qed.

(** *** What a load that returns has taken from the parser *)

(** The events of a document, as the parser has returned them. *)
Definition took (calls : nat) (p : yaml_parser_t) : Prop :=
  exists es ev b p', delivered fuel p (es ++ [ev]) p' /\ all_inside es
    /\ ev.(event_data) = YAML_DOCUMENT_END_EVENT b /\ (length es < calls)%nat.

Lemma nodes_took calls s :
  wp lax (loop calls nodes_turn tt) (fun _ _ => took calls s.(ld_parser)) (fun _ => True) s.
Proof.
  revert s. induction calls as [|k IH]; intros s; [done|]. cbn [loop]. wp_step.
  unfold nodes_turn at 1. wp_step. apply wp_on_parser. unfold wp at 1.
  destruct (yaml_parser_parse fuel (ld_parser s)) as [ev p1| | |] eqn:Ep; try done. wp_step.
  eapply wp_mono; [eapply wp_and; [apply same_load_event|apply load_event_kind]|cbv beta|done].
  intros [y|] s1 [H1 H2]; wp_steps.
  - exists [], ev, y.1, p1. cbn. split_and!; [by eauto using dv_cons, dv_nil|constructor|done|lia].
  - eapply wp_mono; [apply IH|cbv beta|done]. intros _ _ (es & ev' & b & p' & Hd & Ha & He & Hl).
    rewrite H1 in Hd. exists (ev :: es), ev', b, p'. cbn.
    split_and!; [by eauto using dv_cons|by constructor|done|lia].
Qed.

(** A load finds the stream ended already, or is told so by the parser. *)
Definition load_ended (s s' : loader) : Prop :=
  s'.(ld_document) = empty_document
  /\ exists pre p1, preamble s pre /\ delivered fuel s.(ld_parser) pre p1
      /\ (p1.(scanner).(stream_end_produced) = true /\ s'.(ld_parser) = p1
          \/ p1.(scanner).(stream_end_produced) = false
             /\ exists ev, ev.(event_data) = YAML_STREAM_END_EVENT
                  /\ yaml_parser_parse fuel p1 = Ret ev s'.(ld_parser)).

(** A load that returns has found the end of the stream, or a document. *)
Definition load_took (calls : nat) (s s' : loader) : Prop :=
  load_ended s s'
  \/ exists pre p1 ev p2 version tags implicit,
      preamble s pre /\ delivered fuel s.(ld_parser) pre p1
      /\ p1.(scanner).(stream_end_produced) = false
      /\ yaml_parser_parse fuel p1 = Ret ev p2
      /\ ev.(event_data) = YAML_DOCUMENT_START_EVENT version tags implicit /\ took calls p2.

Lemma load_takes calls s :
  wp lax (yaml_parser_load calls fuel) (fun _ s' => load_took calls s s') (fun _ => True) s.
Proof.
  unfold yaml_parser_load. wp_step. apply wp_modify. wp_step. apply wp_attempt.
  set (s0 := set_document empty_document s).
  apply (wp_mono lax _ (fun _ s' => load_took calls s s') _ (fun _ => True));
    [|intros [] s' H; by wp_steps|intros; unfold yaml_parser_delete_aliases; by wp_steps].
  unfold load_body. wp_step. apply wp_gets. wp_step.
  apply (wp_mono lax _ (fun _ s' => exists pre p1, preamble s pre /\ delivered fuel s.(ld_parser) pre p1
           /\ s' = set_parser p1 s0) _ (fun _ => True)); [|cbv beta|done].
  - unfold preamble. cbn. destruct (stream_start_produced _).
    + wp_steps. exists [], s.(ld_parser). split_and!; [done|constructor|by destruct s].
    + wp_step. apply wp_on_parser. cbn. unfold wp at 1.
      destruct (yaml_parser_parse fuel (ld_parser s)) as [ev p1| | |] eqn:Ep; try done.
      destruct ev as [[] sm em]; try done. wp_steps.
      eexists _, p1. split_and!; [by eauto|by eauto using dv_cons, dv_nil|done].
  - intros [] s1 (pre & p1 & Hpre & Hd & ->). wp_step. apply wp_gets. cbn [ld_parser set_parser].
    destruct (stream_end_produced _) eqn:Eend.
    { wp_steps. left. split; [done|]. exists pre, p1. auto. }
    wp_step. apply wp_on_parser. cbn [ld_parser set_parser]. unfold wp at 1.
    destruct (yaml_parser_parse fuel p1) as [ev p2| | |] eqn:Ep; try done.
    destruct (event_data ev) eqn:Ee;
      try (wp_step; apply wp_modify; wp_step; unfold yaml_parser_load_document; rewrite Ee; done);
      [wp_steps; left; split; [done|]; exists pre, p1; split; [done|]; split; [done|];
       right; split; [done|]; by exists ev|].
    wp_step. apply wp_modify. wp_step. unfold yaml_parser_load_document. rewrite Ee.
    wp_step. apply wp_modify. wp_step. apply wp_modify.
    unfold yaml_parser_load_nodes. fold nodes_turn. wp_step.
    eapply wp_mono; [apply nodes_took|cbv beta|done]. intros r s2 H2. wp_steps.
    unfold yaml_parser_delete_aliases. wp_steps. right.
    exists pre, p1, ev, p2, version_directive, tag_directives, implicit. done.
Qed.
End load_delivered.

(** ** Every load *)

Section every_load.
Context (F : faults) `{laws : TokenSourceLaws F}.

Definition goes_on (es : list yaml_event_t) : Prop :=
  Forall (fun e => e.(event_data) <> YAML_STREAM_END_EVENT) es.

(** What the parser delivers before the end of the stream follows the grammar. *)
Lemma delivered_run fuel n s es p :
  ready F n s -> n <> NEnd -> F.(may_timeout) \/ budget F s.(ld_parser) <= Z.of_nat fuel ->
  delivered fuel s.(ld_parser) es p -> goes_on es ->
  exists n', nest_run n (map event_data es) = Some n' /\ ready F n' (set_parser p s) /\ n' <> NEnd
    /\ (F.(may_timeout) \/ budget F p <= Z.of_nat fuel).
Proof.
  intros Hr Hn Hf Hd. remember (ld_parser s) as p0 eqn:E0. revert n s E0 Hr Hn Hf.
  induction Hd as [p|p ev p1 es p2 Hp Hd IH]; intros n s -> [H1 H2 H3] Hn Hf Hg.
  { exists n. by split_and!; [|constructor|..]. }
  apply Forall_cons in Hg as [Hev Hg].
  pose proof (wp_parse F n fuel s.(ld_parser) H1 H2 Hn H3) as H.
  pose proof (budget_pos F n _ H1 Hn). assert (0 <= tokens_left F s.(ld_parser)) by apply pending_nonneg.
  unfold wp in H. rewrite Hp in H. destruct H as ((n1 & Hs & Hi) & He & Hso & Hlt).
  { destruct Hf as [|Hf]; [by left|right; lia]. }
  destruct (IH n1 (set_parser p1 s)) as (n' & Hrun & Hr' & Hn' & Hf'); [done|..].
  - constructor; cbn; [done|done|congruence].
  - intros ->. destruct (event_data ev), n as [| |[|[] [|[] ?]]| |]; cbn in Hs; simplify_eq.
  - destruct Hf, Hlt; auto. right. cbn. lia.
  - done.
  - exists n'. cbn. rewrite Hs. cbn. destruct Hr'. by split_and!; [|constructor|..].
Qed.

(** The document of [s'] is the composition of what the parser of [s] delivered. *)
Definition composed_from (fuel : nat) (s s' : loader) : Prop :=
  exists t pre ev ev' version tags implicit implicit',
    preamble s pre
    /\ ev.(event_data) = YAML_DOCUMENT_START_EVENT version tags implicit
    /\ ev'.(event_data) = YAML_DOCUMENT_END_EVENT implicit'
    /\ delivered fuel s.(ld_parser) (pre ++ ev :: events t ++ [ev']) s'.(ld_parser)
    /\ composed_as t s'.(ld_parser)
         (DOCUMENT_INIT (mkStack [] 0) version tags implicit implicit'
            ev.(event_start_mark) ev'.(event_end_mark)) s'.

(** The parser of [s] had delivered the end of the stream, or delivered it now. *)
Definition ended_from (fuel : nat) (s s' : loader) : Prop :=
  s'.(ld_document) = empty_document
  /\ if s.(ld_parser).(scanner).(stream_end_produced) then s'.(ld_parser) = s.(ld_parser)
     else exists pre ev, preamble s pre /\ ev.(event_data) = YAML_STREAM_END_EVENT
            /\ delivered fuel s.(ld_parser) (pre ++ [ev]) s'.(ld_parser).

Lemma delivered_app_2 fuel p es p1 es' p2 :
  delivered fuel p es p1 -> delivered fuel p1 es' p2 -> delivered fuel p (es ++ es') p2.
Proof. induction 1; [done|]. intros. cbn. eapply dv_cons; eauto. Qed.

Lemma preamble_run n s pre :
  between_documents n s -> preamble s pre -> n <> NEnd ->
  nest_run n (map event_data pre) = Some NStream /\ goes_on pre.
Proof.
  unfold preamble. intros [[-> ->]|[-> [->|[-> _]]]] Hpre Hn; [|subst; by split; [|constructor]|done].
  destruct Hpre as (enc & sm & em & ->). split; [done|]. by repeat constructor.
Qed.

Lemma inside_goes_on es : all_inside es -> goes_on es.
Proof. intros H. eapply Forall_impl; [done|]. cbv beta. intros [[] ? ?]; done. Qed.

Lemma took_tree fuel calls n s p1 :
  ready F n (set_parser p1 s) -> n = NDoc [] -> F.(may_timeout) \/ budget F p1 <= Z.of_nat fuel ->
  took fuel calls p1 ->
  exists t ev b p', delivered fuel p1 (events t ++ [ev]) p'
    /\ ev.(event_data) = YAML_DOCUMENT_END_EVENT b /\ (length (events t) < calls)%nat.
Proof.
  intros Hr -> Hf (es & ev & b & p' & Hd & Ha & He & Hl).
  pose proof (delivered_app fuel _ _ _ _ Hd) as (q & Hd1 & Hp%delivered_1).
  destruct (delivered_run fuel _ _ _ _ Hr ltac:(done) Hf Hd1 (inside_goes_on _ Ha))
    as (m & Hm & Hr' & Hn' & Hf').
  assert (delivered fuel (ld_parser (set_parser q (set_parser p1 s))) [ev] p') as Hd2
    by by eapply dv_cons, dv_nil.
  destruct (delivered_run fuel m _ _ _ Hr' Hn' Hf' Hd2) as (m' & Hm' & _).
  { repeat constructor. by rewrite He. }
  cbn in Hm'. rewrite He in Hm'. destruct m; try done.
  destruct (document_tree es Ha Hm) as [t ->]. by exists t, ev, b, p'.
Qed.

(** Before the end, the parser is open before and behind the start of the stream. *)
Lemma preamble_open n fuel s pre p1 :
  ready F n s -> F.(may_timeout) \/ budget F s.(ld_parser) <= Z.of_nat fuel ->
  between_documents n s -> preamble s pre -> delivered fuel s.(ld_parser) pre p1 -> n <> NEnd ->
  s.(ld_parser).(scanner).(stream_end_produced) = false
  /\ p1.(scanner).(stream_end_produced) = false.
Proof.
  intros Hr Hf Hb Hpre Hd Hn. destruct (preamble_run _ _ _ Hb Hpre Hn) as [Hrun Hg].
  destruct (delivered_run fuel n s pre p1 Hr Hn Hf Hd Hg) as (m & Hm & Hr1 & Hn1 & _).
  destruct Hr as [[] _ _], Hr1 as [[] _ _]. cbn in *. auto.
Qed.

Lemma took_ended n fuel s s' :
  ready F n s -> F.(may_timeout) \/ budget F s.(ld_parser) <= Z.of_nat fuel ->
  between_documents n s -> load_ended fuel s s' -> ended_from fuel s s'.
Proof.
  intros Hr Hf Hb (Hdoc & pre & p1 & Hpre & Hd & Hor). split; [done|].
  destruct (decide (n = NEnd)) as [->|Hn].
  - destruct Hb as [[_ ?]|[Hs [?|[_ Hx]]]]; try done. rewrite Hx.
    unfold preamble in Hpre. rewrite Hs in Hpre. subst. inversion Hd; subst.
    destruct Hor as [[_ ?]|[? _]]; congruence.
  - destruct (preamble_open n fuel s pre p1) as [-> Ho]; try done.
    destruct Hor as [[? _]|[_ (ev & He & Hp)]]; [congruence|].
    exists pre, ev. split; [done|]. split; [done|].
    eapply delivered_app_2; [done|]. by eapply dv_cons, dv_nil.
Qed.

Lemma took_composed n calls fuel s s' :
  ready F n s -> enough F calls fuel s -> between_documents n s ->
  yaml_parser_load calls fuel s = Ret tt s' -> load_took fuel calls s s' ->
  ended_from fuel s s' \/ composed_from fuel s s'.
Proof.
  intros Hr Hf Hb Hret [H|(pre & p1 & ev & p2 & version & tags & implicit & Hpre & Hd & Hend & Hp & He & Ht)];
    [left; eapply took_ended; [done| |done..]; by destruct Hf as [|[_ ?]]; auto|].
  destruct (decide (n = NEnd)) as [->|Hn].
  { destruct Hb as [[_ ?]|[Hs [?|[_ Hx]]]]; try done. unfold preamble in Hpre. rewrite Hs in Hpre.
    subst. inversion Hd; subst. congruence. }
  right. destruct (preamble_run _ _ _ Hb Hpre Hn) as [Hrun Hg].
  assert (F.(may_timeout) \/ budget F s.(ld_parser) <= Z.of_nat fuel) as Hf1
    by (destruct Hf as [|[_ ?]]; auto).
  destruct (delivered_run fuel n s pre p1 Hr Hn Hf1 Hd Hg) as (m & Hm & Hr1 & _ & Hf2).
  rewrite Hrun in Hm. injection Hm as <-.
  assert (delivered fuel (ld_parser (set_parser p1 s)) [ev] p2) as Hd1 by by eapply dv_cons, dv_nil.
  destruct (delivered_run fuel NStream _ _ _ Hr1 ltac:(done) Hf2 Hd1) as (m & Hm & Hr2 & _ & Hf3).
  { repeat constructor. by rewrite He. }
  cbn in Hm. rewrite He in Hm. injection Hm as <-.
  destruct (took_tree fuel calls _ _ p2 Hr2 eq_refl Hf3 Ht) as (t & ev' & b & p' & Hd2 & He' & Hl).
  pose proof (wp_load_delivered fuel t s calls pre p1 p' ev ev' version tags implicit b Hpre Hd Hend He He'
    ltac:(by eapply dv_cons) Hl) as H.
  unfold wp in H. rewrite Hret in H. exists t, pre, ev, ev', version, tags, implicit, b.
  assert (s'.(ld_parser) = p') as -> by apply H. split_and!; try done.
  eapply delivered_app_2; [done|]. by eapply dv_cons.
Qed.
End every_load.

(** C23: with any source of tokens that keeps its interface, a load of
    [yaml_parser_load] that returns has found the end of the stream (an empty
    document, and the parser delivered the end of the stream in this load, or
    had delivered it before and is not called), or its document is the
    composition of a tree: the events the parser delivered are the start of a
    document, the events of that one tree, and the end of the document; the
    nodes are those of the reference definition, numbered in preorder, and the
    directives and marks are those of the two events. *)
Theorem load_is_composition (F : faults) {src : TokenSource} {laws : TokenSourceLaws F}
    (n : nest) (calls fuel : nat) (s : loader) :
  ready F n s -> enough F calls fuel s -> between_documents n s ->
  wp F (yaml_parser_load calls fuel)
    (fun _ s' => ended_from fuel s s' \/ composed_from fuel s s') unloaded s.
Proof.
  intros Hr Hf Hb. pose proof (wp_load F n calls fuel s Hr Hf Hb) as H1.
  pose proof (load_takes fuel calls s) as H2. unfold wp in *.
  destruct (yaml_parser_load calls fuel s) as [[] s'| | |] eqn:E; try done.
  by apply (took_composed F n calls).
Qed.

(** A stream without a document. *)
Definition blank_tokens : list yaml_token_t :=
  map (fun d => TOKEN_INIT d mark0 mark0)
    [YAML_STREAM_START_TOKEN YAML_UTF8_ENCODING; YAML_STREAM_END_TOKEN].

Definition load_tokens (ts : list yaml_token_t) : loader :=
  match yaml_parser_load (src := queue_source) 90 90 (fresh_loader (token_parser ts)) with
  | Ret _ s' => s'
  | _ => fresh_loader (token_parser [])
  end.

Lemma sample_loads :
  yaml_parser_load (src := queue_source) 90 90 (fresh_loader (token_parser sample_tokens))
  = Ret tt (load_tokens sample_tokens)
  /\ yaml_parser_load (src := queue_source) 90 90 (fresh_loader (token_parser blank_tokens))
     = Ret tt (load_tokens blank_tokens).
Proof. split; vm_compute; reflexivity. Qed.

(** The second event of the stream without a document is its end. *)
Lemma blank_events : exists e1 e2 p1 p2,
  yaml_parser_parse (src := queue_source) 90 (token_parser blank_tokens) = Ret e1 p1
  /\ yaml_parser_parse (src := queue_source) 90 p1 = Ret e2 p2
  /\ e2.(event_data) = YAML_STREAM_END_EVENT.
Proof. do 4 eexists. split; [vm_compute; reflexivity|]. split; vm_compute; reflexivity. Qed.

Lemma blank_not_composed s' :
  ~ composed_from (src := queue_source) 90 (fresh_loader (token_parser blank_tokens)) s'.
Proof.
  intros (t & pre & ev & ev' & v & tg & i & i' & (enc & sm & em & ->) & He & _ & Hd & _).
  destruct blank_events as (e1 & e2 & p1 & p2 & H1 & H2 & H3). cbn [app] in Hd.
  inversion Hd as [|? ? q1 ? ? Hq1 Hd1]; subst. inversion Hd1 as [|? ? q2 ? ? Hq2 _]; subst.
  change (ld_parser (fresh_loader (token_parser blank_tokens))) with (token_parser blank_tokens) in Hq1.
  congruence.
Qed.

Lemma sample_not_ended :
  ~ ended_from (src := queue_source) 90 (fresh_loader (token_parser sample_tokens))
      (load_tokens sample_tokens).
Proof.
  intros [He _]. assert (length (nodes (ld_document (load_tokens sample_tokens))).(items) = 3)%nat as H
    by (vm_compute; reflexivity). by rewrite He in H.
Qed.

Lemma fresh_ready ts :
  ready strict (laws := queue_source_laws) NStart (fresh_loader (token_parser ts)).
Proof. constructor; [by apply initial_inv|exact I|reflexivity]. Qed.

(** The load of the sample composes a document, the other finds the end. *)
Lemma load_is_composition_witness :
  composed_from (src := queue_source) 90 (fresh_loader (token_parser sample_tokens))
    (load_tokens sample_tokens)
  /\ ended_from (src := queue_source) 90 (fresh_loader (token_parser blank_tokens))
       (load_tokens blank_tokens).
Proof.
  destruct sample_loads as [H1 H2]. split.
  - destruct (wp_result _ _ _ _ _ _ _
      (load_is_composition strict (laws := queue_source_laws) NStart 90 90
         (fresh_loader (token_parser sample_tokens))
         (fresh_ready sample_tokens)
         ltac:(right; split; [reflexivity|discriminate]) ltac:(left; split; reflexivity)) H1)
      as [He|Hc]; [destruct (sample_not_ended He)|exact Hc].
  - destruct (wp_result _ _ _ _ _ _ _
      (load_is_composition strict (laws := queue_source_laws) NStart 90 90
         (fresh_loader (token_parser blank_tokens))
         (fresh_ready blank_tokens)
         ltac:(right; split; [reflexivity|discriminate]) ltac:(left; split; reflexivity)) H2)
      as [He|Hc]; [exact He|destruct (blank_not_composed _ Hc)].
Defined.

(** C24: when the parser delivers the start of a document, the events of a
    tree and the end of the document, [yaml_parser_load] never crashes and
    makes no further call; it returns the composition of the tree if the
    reference definition succeeds, and otherwise fails with the error of that
    definition, a duplicate anchor with both marks or an undefined alias with
    its mark, and no document (or it runs out of memory). *)
Theorem load_composes_document {src : TokenSource} (t : event_tree) (calls fuel : nat) (s : loader)
    (pre : list yaml_event_t) (p1 p' : yaml_parser_t) (ev ev' : yaml_event_t)
    version tags implicit implicit' :
  preamble s pre -> delivered fuel s.(ld_parser) pre p1 -> p1.(scanner).(stream_end_produced) = false ->
  ev.(event_data) = YAML_DOCUMENT_START_EVENT version tags implicit ->
  ev'.(event_data) = YAML_DOCUMENT_END_EVENT implicit' ->
  delivered fuel p1 (ev :: events t ++ [ev']) p' -> (length (events t) < calls)%nat ->
  wp strict (yaml_parser_load calls fuel)
    (fun _ s' => composed_as t p'
       (DOCUMENT_INIT (mkStack [] 0) version tags implicit implicit'
          ev.(event_start_mark) ev'.(event_end_mark)) s')
    (fun s' => s'.(ld_document).(nodes).(items) = [] /\ not_composed t s') s.
Proof. apply wp_load_delivered. Qed.

Definition sample_tree : event_tree :=
  TMapping None None true YAML_FLOW_MAPPING_STYLE mark0 mark0
    [(TScalar None None (bytes_of "k") 1 true false YAML_PLAIN_SCALAR_STYLE mark0 mark0,
      TScalar None None (bytes_of "v") 1 true false YAML_PLAIN_SCALAR_STYLE mark0 mark0)] mark0 mark0.

Definition sample_directives : list yaml_tag_directive_t := [mkTagDirective (bytes_of "!e!") (bytes_of "e:")].

(** So many events, by computation. *)
Fixpoint deliver `{src : TokenSource} (fuel n : nat) (p : yaml_parser_t) :
    option (list yaml_event_t * yaml_parser_t) :=
  match n with
  | O => Some ([], p)
  | S n' =>
      match yaml_parser_parse fuel p with
      | Ret ev p1 => '(es, p2) ← deliver fuel n' p1; Some (ev :: es, p2)
      | _ => None
      end
  end.

Lemma deliver_delivered `{src : TokenSource} fuel n p es p' :
  deliver fuel n p = Some (es, p') -> delivered fuel p es p'.
Proof.
  revert p es. induction n as [|n IH]; intros p es H; cbn in H; [simplify_eq; constructor|].
  destruct (yaml_parser_parse fuel p) as [ev p1| | |] eqn:E; try done.
  apply bind_Some in H as ([es1 p2] & H1 & H2). simplify_eq. eapply dv_cons; eauto.
Qed.

Definition sample_after (n : nat) : yaml_parser_t :=
  match deliver (src := queue_source) 90 n (token_parser sample_tokens) with
  | Some (_, p) => p
  | None => token_parser []
  end.

Lemma load_composes_document_witness :
  wp strict (yaml_parser_load (src := queue_source) 10 90)
    (fun _ s' => composed_as sample_tree (sample_after 7)
       (DOCUMENT_INIT (mkStack [] 0) None sample_directives false true mark0 mark0) s')
    (fun s' => s'.(ld_document).(nodes).(items) = [] /\ not_composed sample_tree s')
    (fresh_loader (token_parser sample_tokens)).
Proof.
  apply (load_composes_document sample_tree 10 90
    (fresh_loader (token_parser sample_tokens))
    [EVENT_INIT (YAML_STREAM_START_EVENT YAML_UTF8_ENCODING) mark0 mark0] (sample_after 1) (sample_after 7)
    (EVENT_INIT (YAML_DOCUMENT_START_EVENT None sample_directives false) mark0 mark0)
    (EVENT_INIT (YAML_DOCUMENT_END_EVENT true) mark0 mark0)).
  - by eexists _, _, _.
  - apply (deliver_delivered 90 1). vm_compute. reflexivity.
  - vm_compute. reflexivity.
  - reflexivity.
  - reflexivity.
  - apply (deliver_delivered 90 6). vm_compute. reflexivity.
  - cbn. lia.
Defined.

(** An anchor, an alias to it, and the document they compose. *)
Example compose_sample :
  let x := TScalar (Some (bytes_of "x")) None (bytes_of "a") 1 true false YAML_PLAIN_SCALAR_STYLE mark0 mark0 in
  compose (TSequence None None true YAML_FLOW_SEQUENCE_STYLE mark0 mark0
             [x; TAlias (bytes_of "x") mark0 mark0] mark0 mark0) 0 []
  = inr ([CNode (CSequence [2; 2] YAML_FLOW_SEQUENCE_STYLE) YAML_DEFAULT_SEQUENCE_TAG mark0 mark0;
          CNode (CScalar (bytes_of "a") 1 YAML_PLAIN_SCALAR_STYLE) YAML_DEFAULT_SCALAR_TAG mark0 mark0],
         [mkAlias (bytes_of "x") 2 mark0], 1)
  /\ compose (TSequence None None true YAML_FLOW_SEQUENCE_STYLE mark0 mark0 [x; x] mark0 mark0) 0 []
     = inl (DuplicateAnchor mark0 mark0).
Proof. by split. Qed.
