(* ===== verification/YamlString.v ===== *)
(** * libyaml: cursors over strings

    [yaml_string_t] of [yaml_private.h] as the emitter uses it: a text with the
    NUL behind it, a position and an end.  The macros that test and move such
    a cursor read at most the NUL; a read behind it is [None], and [&&] and
    [||] are evaluated from left to right with the short cuts of C. *)

From Stdlib Require Import ZArith Lia Ascii String.
From stdpp Require Import base list option strings.
From S2P Require Import Prelude YamlData YamlReader YamlChars.

#[local] Open Scope Z_scope.

Record yaml_string_t : Type := mkString {
  str_text : list Z;
  str_ptr : nat;
  str_end : nat
}.

Definition STRING_ASSIGN (text : list Z) (len : Z) : yaml_string_t :=
  mkString text 0 (Z.to_nat len).

Definition str_at (s : yaml_string_t) (p : nat) : yaml_string_t :=
  mkString s.(str_text) p s.(str_end).

(** ** Conditions *)

Definition andO (a b : option bool) : option bool :=
  x ← a; if (x : bool) then b else Some false.
Definition orO (a b : option bool) : option bool :=
  x ← a; if (x : bool) then Some true else b.

Declare Scope str_scope.
Delimit Scope str_scope with str.
Infix "&&?" := andO (at level 40, left associativity) : str_scope.
Infix "||?" := orO (at level 50, left associativity) : str_scope.
#[local] Open Scope str_scope.

(** ** Tests *)

(** [string.pointer[k]]. *)
Definition str_octet (s : yaml_string_t) (k : nat) : option Z :=
  (s.(str_text) ++ [0]) !! (s.(str_ptr) + k)%nat.

Section tests.
Variable s : yaml_string_t.

Definition str_test (f : Z -> bool) (k : nat) : option bool := b ← str_octet s k; Some (f b).
Definition str_check_at (octet : Z) (k : nat) : option bool := str_test (Z.eqb octet) k.
Definition str_is_space_at (k : nat) : option bool := str_check_at (ch " ") k.
Definition str_is_blank_at (k : nat) : option bool := str_is_space_at k ||? str_check_at 9 k.
Definition str_is_break_at (k : nat) : option bool :=
  str_check_at 13 k
  ||? str_check_at 10 k
  ||? (str_check_at 0xC2 k &&? str_check_at 0x85 (k + 1))
  ||? (str_check_at 0xE2 k &&? str_check_at 0x80 (k + 1) &&? str_check_at 0xA8 (k + 2))
  ||? (str_check_at 0xE2 k &&? str_check_at 0x80 (k + 1) &&? str_check_at 0xA9 (k + 2)).
Definition str_is_blankz_at (k : nat) : option bool :=
  str_is_blank_at k ||? (str_is_break_at k ||? str_check_at 0 k).
Definition str_is_bom : option bool :=
  str_check_at 0xEF 0 &&? str_check_at 0xBB 1 &&? str_check_at 0xBF 2.
Definition str_is_ascii : option bool := str_test (fun b => b <=? 0x7F) 0.
Definition str_is_alpha : option bool := str_test is_alpha 0.

(** The characters that are written as they are. *)
Definition str_is_printable : option bool :=
  str_check_at 0x0A 0
  ||? (str_test (fun b => b >=? 0x20) 0 &&? str_test (fun b => b <=? 0x7E) 0)
  ||? (str_check_at 0xC2 0 &&? str_test (fun b => b >=? 0xA0) 1)
  ||? (str_test (fun b => b >? 0xC2) 0 &&? str_test (fun b => b <? 0xED) 0)
  ||? (str_check_at 0xED 0 &&? str_test (fun b => b <? 0xA0) 1)
  ||? str_check_at 0xEE 0
  ||? (str_check_at 0xEF 0
       &&? option_map negb (str_check_at 0xBB 1 &&? str_check_at 0xBF 2)
       &&? option_map negb
             (str_check_at 0xBF 1 &&? (str_check_at 0xBE 2 ||? str_check_at 0xBF 2))).

Definition str_width_at (k : nat) : option nat :=
  b ← str_octet s k; Some (Z.to_nat (utf8_width b)).

(** [MOVE(string)]. *)
Definition str_move : option yaml_string_t :=
  w ← str_width_at 0; Some (str_at s (s.(str_ptr) + w)).

(** The octets [COPY] takes from the string, and the string behind them. *)
Definition str_copy : option (list Z * yaml_string_t) :=
  w ← str_width_at 0;
  let bs := take w (drop s.(str_ptr) (s.(str_text) ++ [0])) in
  if (length bs =? w)%nat then Some (bs, str_at s (s.(str_ptr) + w)) else None.

(** The value of the character at the cursor, with its width. *)
Definition str_value : option (Z * nat) :=
  b ← str_octet s 0;
  w ← str_width_at 0;
  v ← (fix go (n k : nat) (v : Z) : option Z :=
         match n with
         | O => Some v
         | S n' => c ← str_octet s k; go n' (S k) (Z.shiftl v 6 + Z.land c 0x3F)
         end) (w - 1)%nat 1%nat (utf8_lead b);
  Some (v, w).

Definition str_done : bool := (s.(str_ptr) =? s.(str_end))%nat.
Definition str_first : bool := (s.(str_ptr) =? 0)%nat.
End tests.

(** [do { string.pointer--; } while (string.pointer[0] is a trailing octet)]. *)
Fixpoint str_back (text : list Z) (p : nat) : option nat :=
  match p with
  | O => None
  | S p' =>
      c ← (text ++ [0]) !! p';
      if Z.land c 0xC0 =? 0x80 then str_back text p' else Some p'
  end.
