(* ===== verification/YamlStringSpec.v ===== *)
(** * libyaml: cursors over valid UTF-8

    What the macros of [YamlString] see of a text that is valid UTF-8, with the
    cursor between two characters: every test is decided by the character
    there, and reads no octet behind the NUL; the macros that move take whole
    characters. *)

From Stdlib Require Import ZArith Lia Ascii String.
From stdpp Require Import base list option strings.
From S2P Require Import Prelude YamlData YamlReader YamlChars YamlUtf8 YamlDocument YamlString.

#[local] Open Scope Z_scope.
(** ** Characters *)

Definition break_char (v : Z) : bool :=
  (v =? 13) || (v =? 10) || (v =? 0x85) || (v =? 0x2028) || (v =? 0x2029).
Definition blank_char (v : Z) : bool := (v =? 32) || (v =? 9).
Definition blankz_char (v : Z) : bool := blank_char v || break_char v || (v =? 0).

(** The characters the emitter writes without an escape. *)
Definition printable_char (v : Z) : bool :=
  (v =? 10) || ((0x20 <=? v) && (v <=? 0x7E)) || ((0xA0 <=? v) && (v <=? 0xD7FF))
  || ((0xE000 <=? v) && (v <=? 0xFFFD) && negb (v =? 0xFEFF)).

(** The character [v] stands at [string.pointer + k], the NUL included. *)
Definition char_at (s : yaml_string_t) (k : nat) (v : Z) : Prop :=
  code_value v /\ exists rest, drop (s.(str_ptr) + k) (s.(str_text) ++ [0]) = utf8_encode v ++ rest.

Lemma char_octet s k v j x :
  char_at s k v -> utf8_encode v !! j = Some x -> str_octet s (k + j) = Some x.
Proof.
  intros (_ & rest & Hd) Hx. unfold str_octet.
  replace (str_ptr s + (k + j))%nat with ((str_ptr s + k) + j)%nat by lia.
  rewrite <- lookup_drop, Hd. rewrite lookup_app_l; [done|]. by eapply lookup_lt_Some.
Qed.

(** The octets of a character at the cursor, one case per width. *)
Inductive octets_of (s : yaml_string_t) (k : nat) (v : Z) : Prop :=
| octets_1 : 0 <= v <= 0x7F -> str_octet s k = Some v -> octets_of s k v
| octets_2 x y : v = 64 * x + y -> 2 <= x < 32 -> 0 <= y < 64 ->
    str_octet s k = Some (0xC0 + x) -> str_octet s (k + 1) = Some (0x80 + y) -> octets_of s k v
| octets_3 x y z : v = 4096 * x + 64 * y + z -> 0 <= x < 16 -> 0 <= y < 64 -> 0 <= z < 64 ->
    0x800 <= v -> str_octet s k = Some (0xE0 + x) -> str_octet s (k + 1) = Some (0x80 + y) ->
    str_octet s (k + 2) = Some (0x80 + z) -> octets_of s k v
| octets_4 x : 0x10000 <= v -> 0 <= x < 8 -> str_octet s k = Some (0xF0 + x) -> octets_of s k v.

#[local] Ltac Zify.zify_post_hook ::= Z.to_euclidean_division_equations.

Lemma char_octets s k v : char_at s k v -> octets_of s k v.
Proof.
  intros H. pose proof (fun j x => char_octet s k v j x H) as Ho.
  destruct H as [Hv _]. unfold code_value in Hv. rewrite utf8_encode_eq in Ho.
  destruct (v <=? 0x7F) eqn:C1; [|destruct (v <=? 0x7FF) eqn:C2; [|destruct (v <=? 0xFFFF) eqn:C3]];
    pose proof (Ho 0%nat _ eq_refl) as H0; rewrite Nat.add_0_r in H0.
  - by apply octets_1; [lia|].
  - apply (octets_2 _ _ _ (v / 64) (v mod 64)); try lia; [done|by apply (Ho 1%nat)].
  - apply (octets_3 _ _ _ (v / 4096) (v / 64 mod 64) (v mod 64)); try lia;
      [done|by apply (Ho 1%nat)|by apply (Ho 2%nat)].
  - apply (octets_4 _ _ _ (v / 262144)); try lia. done.
Qed.

Lemma encode_octets v : code_value v -> Forall is_octet (utf8_encode v).
Proof.
  unfold code_value, is_octet. intros Hv. rewrite utf8_encode_eq.
  destruct (v <=? 0x7F) eqn:C1; [|destruct (v <=? 0x7FF) eqn:C2; [|destruct (v <=? 0xFFFF) eqn:C3]];
    rewrite ?Forall_cons, ?Forall_nil; split_and?; try done; lia.
Qed.

#[local] Ltac Zify.zify_post_hook ::= idtac.

(** Evaluate the tests of a macro from the octets, and compare. *)
Ltac decide_tests :=
  change (0 + 1)%nat with 1%nat in *; change (0 + 2)%nat with 2%nat in *;
  repeat match goal with
  | H : str_octet _ _ = Some _ |- _ => rewrite !H
  end; cbn [mbind option_bind option_map];
  repeat match goal with
  | |- context [if ?b then _ else _] => destruct b eqn:?; cbn [mbind option_bind option_map]
  end;
  repeat match goal with
  | H : str_octet _ _ = Some _ |- _ => rewrite !H
  end; cbn [mbind option_bind option_map];
  try (f_equal; lia).

Section tests.
Variables (s : yaml_string_t) (k : nat) (v : Z).
Hypothesis Hc : char_at s k v.

Lemma test_ascii (f : Z -> bool) :
  (forall b, 128 <= b < 256 -> f b = false) ->
  str_test s f k = Some ((v <=? 0x7F) && f v).
Proof.
  intros Hf. unfold str_test.
  destruct (char_octets s k v Hc) as [? H0|? ? ? ? ? H0|? ? ? ? ? ? ? ? H0|? ? ? H0]; rewrite H0; cbn [mbind option_bind];
    apply f_equal; destruct (v <=? 0x7F) eqn:E; try done; try lia; apply Hf; lia.
Qed.

Lemma check_ascii c : 0 <= c <= 0x7F -> str_check_at s c k = Some (v =? c).
Proof.
  intros Hr. unfold str_check_at. rewrite test_ascii by lia. f_equal. lia.
Qed.

Lemma space_at : str_is_space_at s k = Some (v =? 32).
Proof. by apply check_ascii. Qed.

Lemma blank_at : str_is_blank_at s k = Some (blank_char v).
Proof.
  unfold str_is_blank_at, str_is_space_at. rewrite !check_ascii by done. unfold blank_char.
  change (ch " ") with 32. by destruct (v =? 32).
Qed.

Lemma break_at : str_is_break_at s k = Some (break_char v).
Proof.
  unfold str_is_break_at, break_char, str_check_at, str_test, andO, orO.
  destruct (char_octets s k v Hc); decide_tests.
Qed.

Lemma blankz_at : str_is_blankz_at s k = Some (blankz_char v).
Proof.
  unfold str_is_blankz_at. rewrite blank_at, break_at, check_ascii by done. unfold blankz_char.
  cbn. destruct (blank_char v), (break_char v); done.
Qed.

Lemma width_at : str_width_at s k = Some (length (utf8_encode v)).
Proof.
  unfold str_width_at. destruct (encode_shape v (proj1 Hc)) as (b & xs & He & Hw & _).
  pose proof (char_octet s k v 0 b Hc) as Hb. rewrite He, Nat.add_0_r in Hb. rewrite Hb by done.
  cbn. rewrite Hw, He. cbn [length]. rewrite length_map. f_equal. lia.
Qed.
End tests.

Section tests_0.
Variables (s : yaml_string_t) (v : Z).
Hypothesis Hc : char_at s 0 v.

Lemma printable_at : str_is_printable s = Some (printable_char v).
Proof.
  unfold str_is_printable, printable_char, str_check_at, str_test, andO, orO.
  destruct (char_octets s 0 v Hc); decide_tests.
Qed.

Lemma ascii_at : str_is_ascii s = Some (v <=? 0x7F).
Proof.
  unfold str_is_ascii, str_test. destruct (char_octets s 0 v Hc); decide_tests.
Qed.

Lemma bom_at : str_is_bom s = Some (v =? 0xFEFF).
Proof.
  unfold str_is_bom, str_check_at, str_test, andO. destruct (char_octets s 0 v Hc); decide_tests.
Qed.
End tests_0.

(** ** Cursors between characters *)

(** The octets in front of the [i]-th character. *)
Definition offset_of (cs : list Z) (i : nat) : nat := length (utf8_text (take i cs)).

Record cursor (s : yaml_string_t) (cs : list Z) (i : nat) : Prop := mkCursor {
  cursor_text : s.(str_text) = utf8_text cs;
  cursor_codes : Forall code_value cs;
  cursor_end : s.(str_end) = length (utf8_text cs);
  cursor_le : (i <= length cs)%nat;
  cursor_ptr : s.(str_ptr) = offset_of cs i
}.

Lemma utf8_text_cons v cs : utf8_text (v :: cs) = utf8_encode v ++ utf8_text cs.
Proof. done. Qed.

Lemma encode_length v : (1 <= length (utf8_encode v) <= 4)%nat.
Proof. unfold utf8_encode. repeat destruct (_ <=? _); cbn; lia. Qed.

Lemma encode_length_4 v : (v <? 0x10000) = false -> length (utf8_encode v) = 4%nat.
Proof.
  intros Hv. unfold utf8_encode.
  assert ((v <=? 0x7F) = false /\ (v <=? 0x7FF) = false /\ (v <=? 0xFFFF) = false) as (-> & -> & ->)
    by lia.
  done.
Qed.

Lemma offset_S cs i v :
  cs !! i = Some v -> offset_of cs (S i) = (offset_of cs i + length (utf8_encode v))%nat.
Proof.
  intros Hv. unfold offset_of. rewrite (take_S_r cs i v Hv), utf8_text_app, length_app.
  cbn. by rewrite app_nil_r.
Qed.

Lemma offset_all cs : offset_of cs (length cs) = length (utf8_text cs).
Proof. unfold offset_of. by rewrite take_ge. Qed.

Lemma offset_mono cs i j : (i <= j)%nat -> (offset_of cs i <= offset_of cs j)%nat.
Proof.
  intros H. unfold offset_of. replace (take i cs) with (take i (take j cs)).
  { rewrite <- (take_drop i (take j cs)) at 2. rewrite utf8_text_app, length_app. lia. }
  rewrite take_take. f_equal. lia.
Qed.

Lemma text_drop cs i :
  (i <= length cs)%nat -> drop (offset_of cs i) (utf8_text cs ++ [0]) = utf8_text (drop i cs) ++ [0].
Proof.
  intros Hi. rewrite <- (take_drop i cs) at 2. rewrite utf8_text_app, <- app_assoc.
  unfold offset_of. by rewrite drop_app_length.
Qed.

(** The character [j] at or behind the cursor, the NUL behind the last one. *)
Lemma cursor_char s cs i j :
  cursor s cs i -> (i <= j <= length cs)%nat ->
  char_at s (offset_of cs j - offset_of cs i) (nth j cs 0).
Proof.
  intros [Ht Hc _ _ Hp] Hj. unfold char_at. rewrite Ht, Hp.
  pose proof (offset_mono cs i j ltac:(lia)).
  replace (offset_of cs i + (offset_of cs j - offset_of cs i))%nat with (offset_of cs j) by lia.
  rewrite text_drop by lia. destruct (decide (j = length cs)) as [->|Hn].
  - rewrite nth_overflow by lia. split; [unfold code_value; lia|]. exists [].
    by rewrite drop_ge by lia.
  - destruct (lookup_lt_is_Some_2 cs j ltac:(lia)) as [v Hv].
    rewrite (nth_lookup_Some cs j 0 v Hv). split; [by eapply Forall_lookup_1|].
    rewrite (drop_S cs v j Hv). exists (utf8_text (drop (S j) cs) ++ [0]).
    by rewrite utf8_text_cons, app_assoc.
Qed.

Lemma cursor_here s cs i v : cursor s cs i -> cs !! i = Some v -> char_at s 0 v.
Proof.
  intros Hs Hv. pose proof (lookup_lt_Some _ _ _ Hv).
  pose proof (cursor_char s cs i i Hs ltac:(lia)) as H'.
  by rewrite Nat.sub_diag, (nth_lookup_Some cs i 0 v Hv) in H'.
Qed.

Lemma cursor_next s cs i v :
  cursor s cs i -> cs !! i = Some v -> char_at s (length (utf8_encode v)) (nth (S i) cs 0).
Proof.
  intros Hs Hv. pose proof (lookup_lt_Some _ _ _ Hv).
  pose proof (cursor_char s cs i (S i) Hs ltac:(lia)) as H'.
  rewrite (offset_S cs i v Hv) in H'. by replace (_ + _ - _)%nat with (length (utf8_encode v)) in H' by lia.
Qed.

Lemma cursor_done s cs i : cursor s cs i -> str_done s = bool_decide (i = length cs).
Proof.
  intros [_ _ He Hi Hp]. unfold str_done. rewrite He, Hp, <- offset_all.
  case_bool_decide as Hd; [subst; apply Nat.eqb_refl|]. apply Nat.eqb_neq.
  destruct (lookup_lt_is_Some_2 cs i ltac:(lia)) as [v Hv].
  pose proof (offset_S cs i v Hv). pose proof (offset_mono cs (S i) (length cs) ltac:(lia)).
  pose proof (encode_length v). lia.
Qed.

Lemma cursor_first s cs i : cursor s cs i -> str_first s = bool_decide (i = 0%nat).
Proof.
  intros [_ _ He Hi Hp]. unfold str_first. rewrite Hp.
  case_bool_decide as Hd; [by subst|]. apply Nat.eqb_neq. destruct i as [|i]; [done|].
  destruct (lookup_lt_is_Some_2 cs i ltac:(lia)) as [v Hv].
  pose proof (offset_S cs i v Hv). pose proof (encode_length v). lia.
Qed.

Lemma cursor_not_done s cs i :
  cursor s cs i -> str_done s = false -> exists v, cs !! i = Some v /\ code_value v.
Proof.
  intros Hs Hd. rewrite (cursor_done s cs i Hs) in Hd. apply bool_decide_eq_false in Hd.
  pose proof (cursor_le _ _ _ Hs). destruct (lookup_lt_is_Some_2 cs i ltac:(lia)) as [v Hv].
  exists v. split; [done|]. eapply Forall_lookup_1; [|done]. by apply (cursor_codes s cs i).
Qed.

(** The string with the cursor behind the character [v]. *)
Definition str_next (s : yaml_string_t) (v : Z) : yaml_string_t :=
  str_at s (s.(str_ptr) + length (utf8_encode v)).

Lemma cursor_step s cs i v : cursor s cs i -> cs !! i = Some v -> cursor (str_next s v) cs (S i).
Proof.
  intros [Ht Hc He Hi Hp] Hv. pose proof (lookup_lt_Some _ _ _ Hv).
  split; cbn; try done. by rewrite Hp, (offset_S cs i v Hv).
Qed.

Lemma cursor_move s v : char_at s 0 v -> str_move s = Some (str_next s v).
Proof. intros Hc. unfold str_move. by rewrite (width_at s 0 v Hc). Qed.

Lemma cursor_copy s v : char_at s 0 v -> str_copy s = Some (utf8_encode v, str_next s v).
Proof.
  intros Hc. unfold str_copy. rewrite (width_at s 0 v Hc). cbn [mbind option_bind].
  destruct Hc as (_ & rest & Hd). rewrite Nat.add_0_r in Hd. rewrite Hd, take_app_length.
  by rewrite Nat.eqb_refl.
Qed.

Lemma str_value_go s v : char_at s 0 v -> forall xs k a,
  drop k (utf8_encode v) = map (Z.add 0x80) xs -> Forall (fun x => 0 <= x < 64) xs ->
  (fix go (n k : nat) (v : Z) : option Z :=
     match n with
     | O => Some v
     | S n' => c ← str_octet s k; go n' (S k) (Z.shiftl v 6 + Z.land c 0x3F)
     end) (length xs) k a = Some (foldl (fun a x => a * 64 + x) a xs).
Proof.
  intros Hc. induction xs as [|x xs IH]; intros k a Hd Hx; [done|].
  apply Forall_cons in Hx as [Hx Hxs]. cbn [length foldl].
  assert (utf8_encode v !! k = Some (0x80 + x)) as Hk.
  { rewrite <- (Nat.add_0_r k), <- lookup_drop, Hd. done. }
  rewrite (char_octet s 0 v k _ Hc Hk : str_octet s k = _). cbn [mbind option_bind].
  destruct (trail_octet x Hx) as [_ ->]. rewrite Z.shiftl_mul_pow2 by lia. apply IH; [|done].
  replace (S k) with (k + 1)%nat by lia. rewrite <- drop_drop, Hd. done.
Qed.

Lemma cursor_value s v : char_at s 0 v -> str_value s = Some (v, length (utf8_encode v)).
Proof.
  intros Hc. destruct (encode_shape v (proj1 Hc)) as (b & xs & He & Hw & Hx & Hv & _).
  unfold str_value. rewrite (width_at s 0 v Hc).
  pose proof (char_octet s 0 v 0 b Hc) as Hb. rewrite He in Hb. rewrite (Hb eq_refl : str_octet s 0 = _).
  cbn [mbind option_bind]. rewrite He. cbn [length]. rewrite length_map, Nat.sub_succ, Nat.sub_0_r.
  rewrite (str_value_go s v Hc xs 1 (utf8_lead b)); [|by rewrite He|done]. cbn. by rewrite Hv.
Qed.

(** Backwards over the octets of a character. *)
Lemma str_back_char pre b xs post :
  0 <= b < 128 \/ 192 <= b < 256 -> Forall (fun x => 0 <= x < 64) xs ->
  str_back (pre ++ (b :: map (Z.add 0x80) xs) ++ post) (length pre + S (length xs)) = Some (length pre).
Proof.
  intros Hb. revert post. induction xs as [|x xs IH] using rev_ind; intros post Hx.
  - rewrite Nat.add_1_r. cbn [str_back]. rewrite <- app_assoc, lookup_app_r, Nat.sub_diag by done.
    cbn [lookup list_lookup app mbind option_bind map].
    assert ((Z.land b 0xC0 =? 0x80) = false) as ->; [|done].
    assert (is_octet b) as Ho by (unfold is_octet; lia).
    apply Z.eqb_neq. intros E. pose proof (trail_inv b Ho E). lia.
  - apply Forall_app in Hx as [Hx Hlast]. apply Forall_cons in Hlast as [Hlast _].
    rewrite length_app, Nat.add_1_r, <- plus_n_Sm. cbn [str_back].
    assert ((pre ++ (b :: map (Z.add 128) (xs ++ [x])) ++ post)
            = pre ++ (b :: map (Z.add 128) xs) ++ (0x80 + x :: post)) as ->
      by (rewrite map_app; cbn; by rewrite <- app_assoc).
    assert (((pre ++ (b :: map (Z.add 128) xs) ++ (0x80 + x :: post)) ++ [0])
            !! (length pre + S (length xs))%nat = Some (0x80 + x)) as ->.
    { rewrite !app_assoc, <- app_assoc. apply list_lookup_middle.
      rewrite length_app. cbn. by rewrite length_map. }
    cbn [mbind option_bind]. destruct (trail_octet x Hlast) as [-> _]. by apply IH.
Qed.

Lemma cursor_back cs j :
  Forall code_value cs -> (j < length cs)%nat ->
  str_back (utf8_text cs) (offset_of cs (S j)) = Some (offset_of cs j).
Proof.
  intros Hcs Hj. destruct (lookup_lt_is_Some_2 cs j Hj) as [v Hv].
  assert (code_value v) as Hc by (by eapply Forall_lookup_1).
  destruct (encode_shape v Hc) as (b & xs & He & Hw & Hx & _).
  rewrite (offset_S cs j v Hv), He. cbn [length]. rewrite length_map.
  rewrite <- (take_drop_middle cs j v Hv) at 1. rewrite utf8_text_app, utf8_text_cons, He.
  apply str_back_char; [|done].
  pose proof (encode_octets v Hc) as Hb. rewrite He in Hb. apply Forall_cons in Hb as [Hb _].
  pose proof (lead_inv b Hb) as Hl. cbn zeta in Hl. rewrite Hw in Hl.
  pose proof (encode_length v) as Hlen. rewrite He in Hlen. cbn [length] in Hlen.
  rewrite length_map in Hlen. destruct xs as [|? [|? [|? [|]]]]; cbn [length] in Hlen; try lia;
    cbv [Datatypes.length Z.of_nat Pos.of_succ_nat Pos.succ] in Hl; unfold is_octet in Hb; lia.
Qed.
