(* ===== verification/YamlWriter.v ===== *)
(** * libyaml: the emitter object and the writer

    The object [yaml_emitter_t] of [yaml.h] with the grouping of its
    declaration (error handling, writer, emitter; the fields of the dumper are
    in [YamlDumper]), the emitter's part of [api.c], and [writer.c].

    The working buffer is the list of the octets from [start] to [pointer] and
    the raw buffer the octets from [start] to [last]; a write behind the end of
    either block is a [Crash].  A write handler is a function of its data and
    of the octets to write.  Counters of lines and columns are unbounded. *)

From Stdlib Require Import ZArith Lia Ascii String.
From stdpp Require Import base list option strings.
From S2P Require Import Prelude YamlData YamlReader YamlDocument.

#[local] Open Scope Z_scope.

(** ** Data *)

Inductive yaml_break_t : Type :=
| YAML_ANY_BREAK
| YAML_CR_BREAK
| YAML_LN_BREAK
| YAML_CRLN_BREAK.

Inductive yaml_emitter_state_t : Type :=
| YAML_EMIT_STREAM_START_STATE
| YAML_EMIT_FIRST_DOCUMENT_START_STATE
| YAML_EMIT_DOCUMENT_START_STATE
| YAML_EMIT_DOCUMENT_CONTENT_STATE
| YAML_EMIT_DOCUMENT_END_STATE
| YAML_EMIT_FLOW_SEQUENCE_FIRST_ITEM_STATE
| YAML_EMIT_FLOW_SEQUENCE_ITEM_STATE
| YAML_EMIT_FLOW_MAPPING_FIRST_KEY_STATE
| YAML_EMIT_FLOW_MAPPING_KEY_STATE
| YAML_EMIT_FLOW_MAPPING_SIMPLE_VALUE_STATE
| YAML_EMIT_FLOW_MAPPING_VALUE_STATE
| YAML_EMIT_BLOCK_SEQUENCE_FIRST_ITEM_STATE
| YAML_EMIT_BLOCK_SEQUENCE_ITEM_STATE
| YAML_EMIT_BLOCK_MAPPING_FIRST_KEY_STATE
| YAML_EMIT_BLOCK_MAPPING_KEY_STATE
| YAML_EMIT_BLOCK_MAPPING_SIMPLE_VALUE_STATE
| YAML_EMIT_BLOCK_MAPPING_VALUE_STATE
| YAML_EMIT_END_STATE.

#[export] Instance yaml_break_eq_dec : EqDecision yaml_break_t.
Proof. solve_decision. Defined.
#[export] Instance yaml_emitter_state_eq_dec : EqDecision yaml_emitter_state_t.
Proof. solve_decision. Defined.
#[export] Instance yaml_scalar_style_eq_dec : EqDecision yaml_scalar_style_t.
Proof. solve_decision. Defined.
#[export] Instance yaml_sequence_style_eq_dec : EqDecision yaml_sequence_style_t.
Proof. solve_decision. Defined.
#[export] Instance yaml_mapping_style_eq_dec : EqDecision yaml_mapping_style_t.
Proof. solve_decision. Defined.

(** The handler is given its data and the octets, and returns 1 or 0. *)
Definition yaml_write_handler_t (D : Type) : Type := D -> list Z -> bool * D.

Record emitter_error : Type := mkEmError {
  e_error : yaml_error_type_t;
  e_problem : option string
}.

Record emitter_writing (D : Type) : Type := mkWriting {
  output : option (yaml_write_handler_t D * D);
  out_buffer : list Z;
  out_raw : list Z;
  out_encoding : yaml_encoding_t
}.
Arguments mkWriting {D} _ _ _ _.
Arguments output {D} _.
Arguments out_buffer {D} _.
Arguments out_raw {D} _.
Arguments out_encoding {D} _.

Record emitter_layout : Type := mkLayout {
  canonical : bool;
  best_indent : Z;
  best_width : Z;
  unicode : bool;
  line_break : yaml_break_t
}.

Record emitter_machine : Type := mkMachine {
  e_states : stack yaml_emitter_state_t;
  e_state : yaml_emitter_state_t;
  e_events : list yaml_event_t;
  e_indents : stack Z;
  e_tag_directives : stack yaml_tag_directive_t;
  e_indent : Z;
  e_flow_level : Z;
  root_context : bool;
  sequence_context : bool;
  mapping_context : bool;
  simple_key_context : bool
}.

Record emitter_position : Type := mkPosition {
  e_line : Z;
  e_column : Z;
  whitespace : bool;
  indention : bool;
  open_ended : Z
}.

(** A pointer into a NUL-terminated string, and a length. *)
Record anchor_analysis : Type := mkAnchorData {
  ad_anchor : option (list Z);
  ad_length : Z;
  ad_alias : bool
}.

Record tag_analysis : Type := mkTagData {
  tg_handle : option (list Z);
  tg_handle_length : Z;
  tg_suffix : option (list Z);
  tg_suffix_length : Z
}.

Record scalar_analysis : Type := mkScalarData {
  sc_value : option (list Z);
  sc_length : Z;
  multiline : bool;
  flow_plain_allowed : bool;
  block_plain_allowed : bool;
  single_quoted_allowed : bool;
  block_allowed : bool;
  sc_style : yaml_scalar_style_t
}.

Record emitter_analysis : Type := mkAnalysis {
  anchor_data : anchor_analysis;
  tag_data : tag_analysis;
  scalar_data : scalar_analysis
}.

Record yaml_emitter_t (D : Type) : Type := mkEmitter {
  em_err : emitter_error;
  writing : emitter_writing D;
  layout : emitter_layout;
  machine : emitter_machine;
  position : emitter_position;
  analysis : emitter_analysis
}.
Arguments mkEmitter {D} _ _ _ _ _ _.
Arguments em_err {D} _.
Arguments writing {D} _.
Arguments layout {D} _.
Arguments machine {D} _.
Arguments position {D} _.
Arguments analysis {D} _.

(** Routines of libyaml that take the emitter object. *)
Definition eprog (D A : Type) : Type := prog (yaml_emitter_t D) A.

Section emitter.
Context {D : Type}.

(** ** Assignments to the fields of the object *)

Definition set_em_err x (e : yaml_emitter_t D) : yaml_emitter_t D :=
  mkEmitter x e.(writing) e.(layout) e.(machine) e.(position) e.(analysis).
Definition set_writing x (e : yaml_emitter_t D) : yaml_emitter_t D :=
  mkEmitter e.(em_err) x e.(layout) e.(machine) e.(position) e.(analysis).
Definition set_layout x (e : yaml_emitter_t D) : yaml_emitter_t D :=
  mkEmitter e.(em_err) e.(writing) x e.(machine) e.(position) e.(analysis).
Definition set_machine x (e : yaml_emitter_t D) : yaml_emitter_t D :=
  mkEmitter e.(em_err) e.(writing) e.(layout) x e.(position) e.(analysis).
Definition set_position x (e : yaml_emitter_t D) : yaml_emitter_t D :=
  mkEmitter e.(em_err) e.(writing) e.(layout) e.(machine) x e.(analysis).
Definition set_analysis x (e : yaml_emitter_t D) : yaml_emitter_t D :=
  mkEmitter e.(em_err) e.(writing) e.(layout) e.(machine) e.(position) x.

Definition set_e_error v (e : yaml_emitter_t D) : yaml_emitter_t D :=
  let r := e.(em_err) in set_em_err (mkEmError v r.(e_problem)) e.
Definition set_e_problem v (e : yaml_emitter_t D) : yaml_emitter_t D :=
  let r := e.(em_err) in set_em_err (mkEmError r.(e_error) v) e.

Definition set_output v (e : yaml_emitter_t D) : yaml_emitter_t D :=
  let r := e.(writing) in set_writing (mkWriting v r.(out_buffer) r.(out_raw) r.(out_encoding))
    e.
Definition set_out_buffer v (e : yaml_emitter_t D) : yaml_emitter_t D :=
  let r := e.(writing) in set_writing (mkWriting r.(output) v r.(out_raw) r.(out_encoding)) e.
Definition set_out_raw v (e : yaml_emitter_t D) : yaml_emitter_t D :=
  let r := e.(writing) in set_writing (mkWriting r.(output) r.(out_buffer) v r.(out_encoding))
    e.
Definition set_out_encoding v (e : yaml_emitter_t D) : yaml_emitter_t D :=
  let r := e.(writing) in set_writing (mkWriting r.(output) r.(out_buffer) r.(out_raw) v) e.

Definition set_canonical v (e : yaml_emitter_t D) : yaml_emitter_t D :=
  let r := e.(layout) in set_layout (mkLayout v r.(best_indent) r.(best_width) r.(unicode)
    r.(line_break)) e.
Definition set_best_indent v (e : yaml_emitter_t D) : yaml_emitter_t D :=
  let r := e.(layout) in set_layout (mkLayout r.(canonical) v r.(best_width) r.(unicode)
    r.(line_break)) e.
Definition set_best_width v (e : yaml_emitter_t D) : yaml_emitter_t D :=
  let r := e.(layout) in set_layout (mkLayout r.(canonical) r.(best_indent) v r.(unicode)
    r.(line_break)) e.
Definition set_unicode v (e : yaml_emitter_t D) : yaml_emitter_t D :=
  let r := e.(layout) in set_layout (mkLayout r.(canonical) r.(best_indent) r.(best_width) v
    r.(line_break)) e.
Definition set_line_break v (e : yaml_emitter_t D) : yaml_emitter_t D :=
  let r := e.(layout) in set_layout (mkLayout r.(canonical) r.(best_indent) r.(best_width)
    r.(unicode) v) e.

Definition set_e_states v (e : yaml_emitter_t D) : yaml_emitter_t D :=
  let r := e.(machine) in set_machine (mkMachine v r.(e_state) r.(e_events) r.(e_indents)
    r.(e_tag_directives) r.(e_indent) r.(e_flow_level) r.(root_context) r.(sequence_context)
    r.(mapping_context) r.(simple_key_context)) e.
Definition set_e_state v (e : yaml_emitter_t D) : yaml_emitter_t D :=
  let r := e.(machine) in set_machine (mkMachine r.(e_states) v r.(e_events) r.(e_indents)
    r.(e_tag_directives) r.(e_indent) r.(e_flow_level) r.(root_context) r.(sequence_context)
    r.(mapping_context) r.(simple_key_context)) e.
Definition set_e_events v (e : yaml_emitter_t D) : yaml_emitter_t D :=
  let r := e.(machine) in set_machine (mkMachine r.(e_states) r.(e_state) v r.(e_indents)
    r.(e_tag_directives) r.(e_indent) r.(e_flow_level) r.(root_context) r.(sequence_context)
    r.(mapping_context) r.(simple_key_context)) e.
Definition set_e_indents v (e : yaml_emitter_t D) : yaml_emitter_t D :=
  let r := e.(machine) in set_machine (mkMachine r.(e_states) r.(e_state) r.(e_events) v
    r.(e_tag_directives) r.(e_indent) r.(e_flow_level) r.(root_context) r.(sequence_context)
    r.(mapping_context) r.(simple_key_context)) e.
Definition set_e_tag_directives v (e : yaml_emitter_t D) : yaml_emitter_t D :=
  let r := e.(machine) in set_machine (mkMachine r.(e_states) r.(e_state) r.(e_events)
    r.(e_indents) v r.(e_indent) r.(e_flow_level) r.(root_context) r.(sequence_context)
    r.(mapping_context) r.(simple_key_context)) e.
Definition set_e_indent v (e : yaml_emitter_t D) : yaml_emitter_t D :=
  let r := e.(machine) in set_machine (mkMachine r.(e_states) r.(e_state) r.(e_events)
    r.(e_indents) r.(e_tag_directives) v r.(e_flow_level) r.(root_context) r.(sequence_context)
    r.(mapping_context) r.(simple_key_context)) e.
Definition set_e_flow_level v (e : yaml_emitter_t D) : yaml_emitter_t D :=
  let r := e.(machine) in set_machine (mkMachine r.(e_states) r.(e_state) r.(e_events)
    r.(e_indents) r.(e_tag_directives) r.(e_indent) v r.(root_context) r.(sequence_context)
    r.(mapping_context) r.(simple_key_context)) e.
Definition set_root_context v (e : yaml_emitter_t D) : yaml_emitter_t D :=
  let r := e.(machine) in set_machine (mkMachine r.(e_states) r.(e_state) r.(e_events)
    r.(e_indents) r.(e_tag_directives) r.(e_indent) r.(e_flow_level) v r.(sequence_context)
    r.(mapping_context) r.(simple_key_context)) e.
Definition set_sequence_context v (e : yaml_emitter_t D) : yaml_emitter_t D :=
  let r := e.(machine) in set_machine (mkMachine r.(e_states) r.(e_state) r.(e_events)
    r.(e_indents) r.(e_tag_directives) r.(e_indent) r.(e_flow_level) r.(root_context) v
    r.(mapping_context) r.(simple_key_context)) e.
Definition set_mapping_context v (e : yaml_emitter_t D) : yaml_emitter_t D :=
  let r := e.(machine) in set_machine (mkMachine r.(e_states) r.(e_state) r.(e_events)
    r.(e_indents) r.(e_tag_directives) r.(e_indent) r.(e_flow_level) r.(root_context)
    r.(sequence_context) v r.(simple_key_context)) e.
Definition set_simple_key_context v (e : yaml_emitter_t D) : yaml_emitter_t D :=
  let r := e.(machine) in set_machine (mkMachine r.(e_states) r.(e_state) r.(e_events)
    r.(e_indents) r.(e_tag_directives) r.(e_indent) r.(e_flow_level) r.(root_context)
    r.(sequence_context) r.(mapping_context) v) e.

Definition set_e_line v (e : yaml_emitter_t D) : yaml_emitter_t D :=
  let r := e.(position) in set_position (mkPosition v r.(e_column) r.(whitespace) r.(indention)
    r.(open_ended)) e.
Definition set_e_column v (e : yaml_emitter_t D) : yaml_emitter_t D :=
  let r := e.(position) in set_position (mkPosition r.(e_line) v r.(whitespace) r.(indention)
    r.(open_ended)) e.
Definition set_whitespace v (e : yaml_emitter_t D) : yaml_emitter_t D :=
  let r := e.(position) in set_position (mkPosition r.(e_line) r.(e_column) v r.(indention)
    r.(open_ended)) e.
Definition set_indention v (e : yaml_emitter_t D) : yaml_emitter_t D :=
  let r := e.(position) in set_position (mkPosition r.(e_line) r.(e_column) r.(whitespace) v
    r.(open_ended)) e.
Definition set_open_ended v (e : yaml_emitter_t D) : yaml_emitter_t D :=
  let r := e.(position) in set_position (mkPosition r.(e_line) r.(e_column) r.(whitespace)
    r.(indention) v) e.

Definition set_anchor_data v (e : yaml_emitter_t D) : yaml_emitter_t D :=
  let r := e.(analysis) in set_analysis (mkAnalysis v r.(tag_data) r.(scalar_data)) e.
Definition set_tag_data v (e : yaml_emitter_t D) : yaml_emitter_t D :=
  let r := e.(analysis) in set_analysis (mkAnalysis r.(anchor_data) v r.(scalar_data)) e.
Definition set_scalar_data v (e : yaml_emitter_t D) : yaml_emitter_t D :=
  let r := e.(analysis) in set_analysis (mkAnalysis r.(anchor_data) r.(tag_data) v) e.

(** ** Stacks of the emitter *)

Definition e_memory_error {A} : eprog D A := modify (set_e_error YAML_MEMORY_ERROR);; fail.

Section e_stack.
Context {A : Type} (sizeof : Z) (get : emitter_machine -> stack A)
  (set : stack A -> yaml_emitter_t D -> yaml_emitter_t D).

Definition E_PUSH (v : A) : eprog D unit :=
  s ← gets (fun e => get e.(machine));
  match stack_push sizeof s v with
  | Some s' => modify (set s')
  | None => e_memory_error
  end.

Definition E_POP : eprog D A :=
  s ← gets (fun e => get e.(machine));
  match s.(items) with
  | x :: r => modify (set (mkStack r s.(capacity)));; mret x
  | [] => crash
  end.
End e_stack.

Definition push_e_state := E_PUSH sizeof_state e_states set_e_states.
Definition pop_e_state := E_POP e_states set_e_states.
Definition push_e_indent := E_PUSH sizeof_indent e_indents set_e_indents.
Definition pop_e_indent := E_POP e_indents set_e_indents.
Definition push_e_tag_directive :=
  E_PUSH sizeof_tag_directive e_tag_directives set_e_tag_directives.

(** ** The emitter's part of [api.c] *)

Definition OUTPUT_BUFFER_SIZE : Z := 16384.
Definition OUTPUT_RAW_BUFFER_SIZE : Z := OUTPUT_BUFFER_SIZE * 2 + 2.

(** The object after [memset] and the allocation of buffers, stacks and queue. *)
Definition yaml_emitter_initialize : yaml_emitter_t D :=
  mkEmitter (mkEmError YAML_NO_ERROR None)
    (mkWriting None [] [] YAML_ANY_ENCODING)
    (mkLayout false 0 0 false YAML_ANY_BREAK)
    (mkMachine STACK_INIT YAML_EMIT_STREAM_START_STATE [] STACK_INIT STACK_INIT
       0 0 false false false false)
    (mkPosition 0 0 false false 0)
    (mkAnalysis (mkAnchorData None 0 false) (mkTagData None 0 None 0)
       (mkScalarData None 0 false false false false false YAML_ANY_SCALAR_STYLE)).

(** [assert] of a condition on the object. *)
Definition e_assert (c : yaml_emitter_t D -> bool) : eprog D unit :=
  b ← gets c; if (b : bool) then mret tt else crash.

Definition yaml_emitter_set_output (handler : yaml_write_handler_t D) (data : D) : eprog D unit :=
  e_assert (fun e => negb (bool_decide (is_Some e.(writing).(output))));;
  modify (set_output (Some (handler, data))).

Definition yaml_emitter_set_encoding (enc : yaml_encoding_t) : eprog D unit :=
  e_assert (fun e => bool_decide (e.(writing).(out_encoding) = YAML_ANY_ENCODING));;
  modify (set_out_encoding enc).

Definition yaml_emitter_set_canonical (v : Z) : eprog D unit :=
  modify (set_canonical (negb (v =? 0))).

Definition yaml_emitter_set_indent (indent : Z) : eprog D unit :=
  modify (set_best_indent (if (1 <? indent) && (indent <? 10) then indent else 2)).

Definition yaml_emitter_set_width (width : Z) : eprog D unit :=
  modify (set_best_width (if width >=? 0 then width else -1)).

Definition yaml_emitter_set_unicode (v : Z) : eprog D unit :=
  modify (set_unicode (negb (v =? 0))).

Definition yaml_emitter_set_break (b : yaml_break_t) : eprog D unit :=
  modify (set_line_break b).

(** ** [writer.c] *)

Definition yaml_emitter_set_writer_error {A} (msg : string) : eprog D A :=
  modify (set_e_error YAML_WRITER_ERROR);;
  modify (set_e_problem (Some msg));;
  fail.

(** The call of the handler, with its data. *)
Definition call_handler (bytes : list Z) : eprog D bool :=
  o ← gets (fun e => e.(writing).(output));
  match o with
  | None => crash
  | Some (h, d) =>
      let '(ok, d') := h d bytes in
      modify (set_output (Some (h, d')));; mret ok
  end.

(** [for (k = 1; k < width; k++)]: the payload of the trailing octets. *)
Fixpoint recode_trail (n : nat) (rest : list Z) (value : Z) : option Z :=
  match n with
  | O => Some value
  | S n' =>
      match rest with
      | [] => None
      | octet :: rest' => recode_trail n' rest' (Z.shiftl value 6 + Z.land octet 0x3F)
      end
  end.

(** Assignment of an [unsigned int] to an [unsigned char]. *)
Definition to_octet (v : Z) : Z := v mod 256.

(** The octets of a character in the raw buffer, as the code computes them. *)
Definition recode_char (little : bool) (value : Z) : list Z :=
  let unit h l := if little then [to_octet l; to_octet h] else [to_octet h; to_octet l] in
  if value <? 0x10000 then unit (Z.shiftr value 8) (Z.land value 0xFF)
  else
    let value := value - 0x10000 in
    unit (0xD8 + Z.shiftr value 18) (Z.land (Z.shiftr value 10) 0xFF)
    ++ unit (0xDC + Z.land (Z.shiftr value 8) 0xFF) (Z.land value 0xFF).

(** Octets appended at [raw_buffer.last]. *)
Definition put_raw (bs : list Z) : eprog D unit :=
  raw ← gets (fun e => e.(writing).(out_raw));
  if Z.of_nat (length raw + length bs) <=? OUTPUT_RAW_BUFFER_SIZE
  then modify (set_out_raw (raw ++ bs)) else crash.

(** One turn of [while (buffer.pointer != buffer.last)], [rest] being the
    octets from [pointer] to [last]. *)
Definition recode_step (little : bool) (rest : list Z) : eprog D (list Z + unit) :=
  match rest with
  | [] => mret (inr tt)
  | octet :: tail =>
      let width := Z.to_nat (utf8_width octet) in
      value ← deref (recode_trail (width - 1) tail (utf8_lead octet));
      put_raw (recode_char little value);;
      mret (inl (drop width rest))
  end.

(** Every turn adds two octets to the raw buffer, so that the loop ends or
    leaves the block within [OUTPUT_RAW_BUFFER_SIZE / 2] turns. *)
Definition recode (little : bool) (bytes : list Z) : eprog D unit :=
  loop (S (S (Z.to_nat (OUTPUT_RAW_BUFFER_SIZE / 2)))) (recode_step little) bytes.

Definition yaml_emitter_flush : eprog D unit :=
  e_assert (fun e => bool_decide (is_Some e.(writing).(output)));;
  enc ← gets (fun e => e.(writing).(out_encoding));
  e_assert (fun e => negb (bool_decide (enc = YAML_ANY_ENCODING)));;
  bytes ← gets (fun e => e.(writing).(out_buffer));
  if bool_decide (bytes = []) then mret tt
  else if bool_decide (enc = YAML_UTF8_ENCODING) then
    modify (set_out_buffer []);;
    ok ← call_handler bytes;
    if (ok : bool) then mret tt else yaml_emitter_set_writer_error "write error"
  else
    recode (bool_decide (enc = YAML_UTF16LE_ENCODING)) bytes;;
    raw ← gets (fun e => e.(writing).(out_raw));
    ok ← call_handler raw;
    if (ok : bool) then modify (set_out_buffer []);; modify (set_out_raw [])
    else yaml_emitter_set_writer_error "write error".

End emitter.
Arguments yaml_emitter_initialize {D}.

(** ** Output to a string

    The octets written so far stand for the block and for [*size_written]. *)

Record string_output : Type := mkStringOutput { written : list Z; out_size : Z }.

Definition yaml_string_write_handler : yaml_write_handler_t string_output := fun o bytes =>
  let room := o.(out_size) - Z.of_nat (length o.(written)) in
  if room <? Z.of_nat (length bytes) then
    (false, mkStringOutput (o.(written) ++ take (Z.to_nat room) bytes) o.(out_size))
  else (true, mkStringOutput (o.(written) ++ bytes) o.(out_size)).

Definition yaml_emitter_set_output_string (size : Z) : eprog string_output unit :=
  yaml_emitter_set_output yaml_string_write_handler (mkStringOutput [] size).
