(* ===== verification/YamlWriterSpec.v ===== *)
(** * libyaml: what the writer writes

    [yaml_emitter_flush] passes the characters of the working buffer to the
    handler in the output encoding, within its buffers.  The recoding to UTF-16
    is the standard one for the characters of the basic plane; for those
    beyond it the second unit of a surrogate pair is computed with the mask
    [0xFF] in place of [0x03]. *)

From Stdlib Require Import ZArith Lia Ascii String.
From stdpp Require Import base list option strings.
From S2P Require Import Prelude YamlData YamlReader YamlUtf8 YamlDocument YamlWriter YamlString YamlStringSpec.

#[local] Open Scope Z_scope.
#[local] Ltac Zify.zify_post_hook ::= Z.to_euclidean_division_equations.

(** ** Recoding a character *)

Lemma land_ff v : Z.land v 0xFF = v mod 256.
Proof. exact (Z.land_ones v 8 ltac:(lia)). Qed.

Lemma recode_char_eq little v :
  recode_char little v =
  let unit h l := if (little : bool) then [l mod 256; h mod 256] else [h mod 256; l mod 256] in
  if v <? 0x10000 then unit (v / 256) (v mod 256)
  else
    let w := v - 0x10000 in
    unit (0xD8 + w / 262144) (w / 1024 mod 256) ++ unit (0xDC + w / 256 mod 256) (w mod 256).
Proof.
  unfold recode_char, to_octet. rewrite !land_ff.
  rewrite !Z.shiftr_div_pow2 by lia. reflexivity.
Qed.

Lemma recode_char_basic little v :
  0 <= v < 0x10000 -> recode_char little v = utf16_encode little v.
Proof.
  intros Hv. rewrite recode_char_eq. unfold utf16_encode, utf16_unit. cbv zeta.
  assert ((v <? 0x10000) = true) as -> by lia.
  assert (v / 256 mod 256 = v / 256 /\ (v mod 256) mod 256 = v mod 256) as [-> ->] by lia.
  by destruct little.
Qed.

Lemma recode_char_length little v :
  length (recode_char little v) = if v <? 0x10000 then 2%nat else 4%nat.
Proof. rewrite recode_char_eq. cbv zeta. by destruct (v <? 0x10000), little. Qed.

(** The two units of a character beyond the basic plane, as they are written. *)
Lemma recode_char_pair little v :
  0x10000 <= v <= 0x10FFFF ->
  let w := v - 0x10000 in
  recode_char little v =
  utf16_unit little (0xD800 + w / 1024)
  ++ utf16_unit little ((0xDC + w / 256 mod 256) mod 256 * 256 + w mod 256).
Proof.
  intros Hv w. rewrite recode_char_eq. cbv zeta. assert ((v <? 0x10000) = false) as -> by lia.
  fold w. unfold utf16_unit.
  assert ((0xD800 + w / 1024) mod 256 = w / 1024 mod 256
          /\ (0xD800 + w / 1024) / 256 = (0xD8 + w / 262144) mod 256) as [-> ->] by lia.
  assert (((0xDC + w / 256 mod 256) mod 256 * 256 + w mod 256) mod 256 = w mod 256
          /\ ((0xDC + w / 256 mod 256) mod 256 * 256 + w mod 256) / 256
             = (0xDC + w / 256 mod 256) mod 256) as [-> ->] by lia.
  assert ((w / 1024 mod 256) mod 256 = w / 1024 mod 256 /\ (w mod 256) mod 256 = w mod 256)
    as [-> ->] by lia.
  by destruct little.
Qed.

(** A pair of which the second unit is not a low surrogate. *)
Lemma decode_bad_pair little p hi lo rest :
  p.(reader).(raw_buffer) = utf16_unit little hi ++ utf16_unit little lo ++ rest ->
  0xD800 <= hi < 0xDC00 -> 0 <= lo < 0x10000 -> ~ (0xDC00 <= lo < 0xE000) ->
  exists p', decode_utf16 little p = Err p' /\ p'.(err).(error) = YAML_READER_ERROR
    /\ p'.(err).(problem) = Some "expected low surrogate area"%string.
Proof.
  intros Hr Hhi Hlo Hn. unfold decode_utf16, gets, mbind, prog_bind.
  pose proof (utf16_unit_value little hi (raw_buffer (reader p)) 0 _ ltac:(lia) Hr) as Hu.
  rewrite !Nat.add_0_r in Hu.
  assert (drop 2 (raw_buffer (reader p)) = utf16_unit little lo ++ rest) as Hd
    by (rewrite Hr; by destruct little).
  pose proof (utf16_unit_value little lo (raw_buffer (reader p)) 2 rest ltac:(lia) Hd) as Hu2.
  rewrite Hu, Hu2, !land_fc00 by lia.
  assert (Z.of_nat (length (raw_buffer (reader p))) = 4 + Z.of_nat (length rest)) as ->.
  { rewrite Hr, !length_app. destruct little; cbn [utf16_unit length]; lia. }
  assert ((4 + Z.of_nat (length rest) <? 2) = false) as -> by (apply Z.ltb_ge; lia).
  assert ((4 + Z.of_nat (length rest) <? 4) = false) as -> by (apply Z.ltb_ge; lia).
  assert ((hi / 1024 * 1024 =? 0xDC00) = false) as -> by lia.
  assert ((hi / 1024 * 1024 =? 0xD800) = true) as -> by lia.
  assert ((lo / 1024 * 1024 =? 0xDC00) = false) as -> by lia. eexists. done.
Qed.

(** C31: the writer recodes a character beyond the basic plane to its surrogate
    pair exactly when the bits 10 to 15 of its offset are zero; for every other
    one the octets are not UTF-16, and the reader refuses them. *)
Theorem recoded_surrogates (little : bool) (v : Z) (p : yaml_parser_t) (rest : list Z) :
  0x10000 <= v <= 0x10FFFF ->
  p.(reader).(raw_buffer) = recode_char little v ++ rest ->
  if (v - 0x10000) / 1024 mod 64 =? 0 then
    recode_char little v = utf16_encode little v
    /\ decode_utf16 little p = Ret (Some (v, 4)) p
  else
    recode_char little v <> utf16_encode little v
    /\ exists p', decode_utf16 little p = Err p' /\ p'.(err).(error) = YAML_READER_ERROR
         /\ p'.(err).(problem) = Some "expected low surrogate area"%string.
Proof.
  intros Hv Hr. rewrite recode_char_pair in Hr |- * by done. set (w := v - 0x10000) in *.
  set (lo := (0xDC + w / 256 mod 256) mod 256 * 256 + w mod 256) in *.
  assert (utf16_encode little v
          = utf16_unit little (0xD800 + w / 1024) ++ utf16_unit little (0xDC00 + w mod 1024)) as He.
  { unfold utf16_encode. assert ((v <? 0x10000) = false) as -> by lia. done. }
  destruct (w / 1024 mod 64 =? 0) eqn:E.
  - assert (lo = 0xDC00 + w mod 1024) as El by lia. rewrite El in *. rewrite <- He in *.
    split; [done|]. assert (scalar_value v) as Hs by (unfold scalar_value; lia).
    rewrite (decode_encode_utf16 little p v rest Hs Hr), He. by destruct little.
  - assert (0 <= lo < 0x10000 /\ ~ (0xDC00 <= lo < 0xE000)) as [L1 L2] by lia. split.
    + rewrite He. intros [_ H]%app_inj_1; [|by destruct little].
      destruct little; injection H as H1 H2; lia.
    + eapply decode_bad_pair; [by rewrite <- app_assoc in Hr|lia..].
Qed.

(** ** Recoding a buffer *)

Lemma recode_trail_app xs : forall rest v,
  Forall (fun x => 0 <= x < 64) xs ->
  recode_trail (length xs) (map (Z.add 0x80) xs ++ rest) v
  = Some (foldl (fun a x => a * 64 + x) v xs).
Proof.
  induction xs as [|x xs IH]; intros rest v Hx; [done|].
  apply Forall_cons in Hx as [Hx Hxs]. cbn [length recode_trail map app foldl].
  destruct (trail_octet x Hx) as [_ E2]. rewrite E2, Z.shiftl_mul_pow2 by lia. by apply IH.
Qed.

Definition recode_text (little : bool) (cs : list Z) : list Z := concat (map (recode_char little) cs).

Lemma recode_text_length little cs :
  (length (recode_text little cs) <= 2 * length (utf8_text cs))%nat.
Proof.
  unfold recode_text, utf8_text. induction cs as [|v cs IH]; cbn [map concat length]; [lia|].
  rewrite !length_app, recode_char_length. pose proof (encode_length v).
  destruct (v <? 0x10000) eqn:E; [lia|].
  pose proof (encode_length_4 v E). lia.
Qed.

Section recode.
Context {D : Type}.
Implicit Types (e : yaml_emitter_t D).

Lemma recode_step_char little v rest e :
  code_value v ->
  Z.of_nat (length e.(writing).(out_raw)) + 4 <= OUTPUT_RAW_BUFFER_SIZE
  \/ (v < 0x10000 /\ Z.of_nat (length e.(writing).(out_raw)) + 2 <= OUTPUT_RAW_BUFFER_SIZE) ->
  recode_step little (utf8_encode v ++ rest) e
  = Ret (inl rest) (set_out_raw (e.(writing).(out_raw) ++ recode_char little v) e).
Proof.
  intros Hv Hroom. destruct (encode_shape v Hv) as (b & xs & He & Hw & Hx & Hf & _).
  assert (Z.to_nat (utf8_width b) = length (utf8_encode v)) as Hl
    by (rewrite Hw, He; cbn [length]; rewrite length_map; lia).
  assert (utf8_encode v ++ rest = b :: map (Z.add 128) xs ++ rest) as Er by (by rewrite He).
  rewrite Er. unfold recode_step. rewrite Hl.
  assert (length (utf8_encode v) - 1 = length xs)%nat as ->
    by (rewrite He; cbn [length]; rewrite length_map; lia).
  rewrite recode_trail_app, Hf by done. unfold deref, put_raw, gets, mbind, prog_bind, mret, prog_ret.
  rewrite recode_char_length.
  assert ((Z.of_nat (length e.(writing).(out_raw) + (if v <? 0x10000 then 2 else 4))
           <=? OUTPUT_RAW_BUFFER_SIZE) = true) as -> by (clear - Hroom; apply Z.leb_le; destruct (v <? 0x10000) eqn:E; lia).
  unfold modify. by rewrite <- Er, drop_app_length.
Qed.

Lemma recode_loop little : forall rs fuel e,
  Forall code_value rs -> (length rs < fuel)%nat ->
  Z.of_nat (length e.(writing).(out_raw)) + 2 * Z.of_nat (length (utf8_text rs)) <= OUTPUT_RAW_BUFFER_SIZE ->
  loop fuel (recode_step little) (utf8_text rs) e
  = Ret tt (set_out_raw (e.(writing).(out_raw) ++ recode_text little rs) e).
Proof.
  induction rs as [|v rs IH]; intros fuel e Hc Hf Hroom; (destruct fuel as [|fuel]; [cbn in Hf; lia|]).
  - cbn. rewrite app_nil_r. by destruct e as [? [] ? ? ? ?].
  - apply Forall_cons in Hc as [Hv Hc]. cbn [loop]. rewrite utf8_text_cons in Hroom |- *.
    rewrite length_app in Hroom.
    pose proof (encode_length v) as Hl. pose proof (encode_length_4 v) as Hl4.
    rewrite (prog_bind_ret _ _ e _ _ (recode_step_char little v (utf8_text rs) e Hv ltac:(lia))).
    cbv beta iota. rewrite IH; [|done|cbn in Hf; lia|].
    + cbn. rewrite <- app_assoc. by destruct e as [? [] ? ? ? ?].
    + cbn. rewrite length_app, recode_char_length. clear - Hroom Hl Hl4; destruct (v <? 0x10000) eqn:E; [lia|]. rewrite Hl4 in * by done. lia.
Qed.
End recode.
(** U+10400 is written as D801 E000, which is not a pair. *)
Lemma recoded_surrogates_witness :
  let p := set_raw_buffer (recode_char true 0x10400) (yaml_parser_initialize []) in
  recode_char true 0x10400 = [0x01; 0xD8; 0x00; 0xE0]
  /\ exists p', decode_utf16 true p = Err p' /\ p'.(err).(error) = YAML_READER_ERROR.
Proof.
  split; [reflexivity|].
  destruct (recoded_surrogates true 0x10400 (set_raw_buffer (recode_char true 0x10400) (yaml_parser_initialize [])) []
    ltac:(lia) eq_refl) as (_ & p' & H1 & H2 & _).
  exists p'. by split.
Defined.
