(* ===== verification/YamlEmitWrite.v ===== *)
(** * libyaml: the writers of the emitter

    The output macros at the head of [emitter.c] ([FLUSH], [PUT], [PUT_BREAK],
    [WRITE], [WRITE_BREAK]) and its routines [yaml_emitter_write_...], which
    put indentation, indicators, anchors, tags and scalars into the working
    buffer. *)

From Stdlib Require Import ZArith Lia Ascii String.
From stdpp Require Import base list option strings.
From S2P Require Import Prelude YamlData YamlReader YamlChars YamlString YamlWriter.

#[local] Open Scope Z_scope.
#[local] Open Scope str_scope.

Section writers.
Context {D : Type}.
Implicit Types (s : yaml_string_t).

(** ** Output macros *)

Definition FLUSH : eprog D unit :=
  n ← gets (fun e => Z.of_nat (length e.(writing).(out_buffer)));
  if n + 5 <? OUTPUT_BUFFER_SIZE then mret tt else yaml_emitter_flush.

(** [buffer.pointer[0] = ..., buffer.pointer++] for each of the octets. *)
Definition put_octets (bs : list Z) : eprog D unit :=
  b ← gets (fun e => e.(writing).(out_buffer));
  if Z.of_nat (length b + length bs) <=? OUTPUT_BUFFER_SIZE
  then modify (set_out_buffer (b ++ bs)) else crash.

Definition next_column : eprog D unit := modify (fun e => set_e_column (e.(position).(e_column) + 1) e).
Definition next_line : eprog D unit :=
  modify (set_e_column 0);; modify (fun e => set_e_line (e.(position).(e_line) + 1) e).

Definition PUT (value : Z) : eprog D unit :=
  FLUSH;; put_octets [to_octet value];; next_column.

Definition put (c : ascii) : eprog D unit := PUT (ch c).

Definition break_octets (b : yaml_break_t) : list Z :=
  match b with
  | YAML_CR_BREAK => [13]
  | YAML_LN_BREAK => [10]
  | YAML_CRLN_BREAK => [13; 10]
  | YAML_ANY_BREAK => []
  end.

Definition PUT_BREAK : eprog D unit :=
  FLUSH;;
  b ← gets (fun e => e.(layout).(line_break));
  put_octets (break_octets b);;
  next_line.

Definition WRITE s : eprog D yaml_string_t :=
  FLUSH;;
  '(bs, s') ← deref (str_copy s);
  put_octets bs;;
  next_column;;
  mret s'.

(** The result of the inner [PUT_BREAK] is not tested. *)
Definition WRITE_BREAK s : eprog D yaml_string_t :=
  FLUSH;;
  lf ← deref (str_check_at s 10 0);
  if (lf : bool) then attempt PUT_BREAK;; mret (str_at s (S s.(str_ptr)))
  else
    '(bs, s') ← deref (str_copy s);
    put_octets bs;;
    next_line;;
    mret s'.

Definition set_flags (w i : bool) : eprog D unit :=
  modify (set_whitespace w);; modify (set_indention i).

(** [while (string.pointer != string.end)] with further locals: a turn moves
    the cursor, or reads behind the NUL when it is past the end. *)
Definition str_loop {L} s (l : L) (turn : yaml_string_t -> L -> eprog D (yaml_string_t * L)) :
    eprog D L :=
  loop (length s.(str_text) + 2) (fun '(s, l) =>
    if str_done s then mret (inr l) else r ← turn s l; mret (inl r)) (s, l).

(** [while (string.pointer != string.end) { if (!WRITE(emitter, string)) return 0; }] *)
Definition write_all s : eprog D unit :=
  str_loop s tt (fun s _ => s' ← WRITE s; mret (s', tt)).

(** ** Marks of the layout *)

Definition yaml_emitter_write_bom : eprog D unit :=
  FLUSH;; put_octets [0xEF; 0xBB; 0xBF].

Definition yaml_emitter_write_indent : eprog D unit :=
  ind ← gets (fun e => let i := e.(machine).(e_indent) in if i >=? 0 then i else 0);
  pos ← gets position;
  (if negb pos.(indention) || (pos.(e_column) >? ind)
      || ((pos.(e_column) =? ind) && negb pos.(whitespace))
   then PUT_BREAK else mret tt);;
  n ← gets (fun e => S (Z.to_nat (ind - e.(position).(e_column))));
  while n (gets (fun e => e.(position).(e_column) <? ind)) (put " ");;
  set_flags true true.

Definition yaml_emitter_write_indicator (indicator : list Z)
    (need_whitespace is_whitespace is_indention : bool) : eprog D unit :=
  let s := STRING_ASSIGN indicator (Z.of_nat (length indicator)) in
  w ← gets (fun e => e.(position).(whitespace));
  (if need_whitespace && negb w then put " " else mret tt);;
  write_all s;;
  modify (set_whitespace is_whitespace);;
  modify (fun e => set_indention (e.(position).(indention) && is_indention) e).

Definition yaml_emitter_write_anchor (value : list Z) (len : Z) : eprog D unit :=
  write_all (STRING_ASSIGN value len);;
  set_flags false false.

Definition yaml_emitter_write_tag_handle (value : list Z) (len : Z) : eprog D unit :=
  w ← gets (fun e => e.(position).(whitespace));
  (if negb w then put " " else mret tt);;
  write_all (STRING_ASSIGN value len);;
  set_flags false false.

(** A hexadecimal digit, in capitals. *)
Definition hex_digit (v : Z) : Z := v + (if v <? 10 then ch "0" else ch "A" - 10).

(** The characters of a URI that need no escape. *)
Definition is_uri_char (c : Z) : bool :=
  is_alpha c || existsb (Z.eqb c)
    (map ch [";"; "/"; "?"; ":"; "@"; "&"; "="; "+"; "$"; ","; "_"; "."; "~"; "*"; "'"; "(";
             ")"; "["; "]"]%char).

(** [while (width--)]: each octet as [%XX]. *)
Fixpoint write_escapes (width : nat) s : eprog D yaml_string_t :=
  match width with
  | O => mret s
  | S n =>
      value ← deref (str_octet s 0);
      put "%";;
      PUT (hex_digit (Z.shiftr value 4));;
      PUT (hex_digit (Z.land value 0x0F));;
      write_escapes n (str_at s (S s.(str_ptr)))
  end.

Definition yaml_emitter_write_tag_content (value : list Z) (len : Z) (need_whitespace : bool) :
    eprog D unit :=
  w ← gets (fun e => e.(position).(whitespace));
  (if need_whitespace && negb w then put " " else mret tt);;
  str_loop (STRING_ASSIGN value len) tt (fun s _ =>
    plain ← deref (str_test s is_uri_char 0);
    if (plain : bool) then s' ← WRITE s; mret (s', tt)
    else n ← deref (str_width_at s 0); s' ← write_escapes n s; mret (s', tt));;
  set_flags false false.

(** ** Scalars *)

(** [emitter->column > emitter->best_width]. *)
Definition too_wide : eprog D bool :=
  gets (fun e => e.(position).(e_column) >? e.(layout).(best_width)).

(** A line break of a plain or single-quoted scalar: the first of a group is
    written twice when it is a line feed. *)
Definition write_folded_break s (breaks : bool) : eprog D yaml_string_t :=
  lf ← deref (str_check_at s 10 0);
  (if negb breaks && lf then PUT_BREAK else mret tt);;
  s' ← WRITE_BREAK s;
  modify (set_indention true);;
  mret s'.

Definition yaml_emitter_write_plain_scalar (value : list Z) (len : Z) (allow_breaks : bool) :
    eprog D unit :=
  w ← gets (fun e => e.(position).(whitespace));
  flow ← gets (fun e => e.(machine).(e_flow_level));
  (if negb w && (negb (len =? 0) || negb (flow =? 0)) then put " " else mret tt);;
  str_loop (L := bool * bool) (STRING_ASSIGN value len) (false, false) (fun s '(spaces, breaks) =>
    space ← deref (str_is_space_at s 0);
    if (space : bool) then
      wide ← too_wide;
      fold ← deref (Some (allow_breaks && negb spaces && wide)
                    &&? option_map negb (str_is_space_at s 1));
      s' ← (if (fold : bool) then yaml_emitter_write_indent;; deref (str_move s) else WRITE s);
      mret (s', (true, breaks))
    else
      brk ← deref (str_is_break_at s 0);
      if (brk : bool) then
        s' ← write_folded_break s breaks;
        mret (s', (spaces, true))
      else
        (if breaks then yaml_emitter_write_indent else mret tt);;
        s' ← WRITE s;
        modify (set_indention false);;
        mret (s', (false, false)));;
  set_flags false false.

(** [string.pointer != string.start && string.pointer != string.end - 1]. *)
Definition str_inner s : bool :=
  negb (str_first s) && negb (s.(str_ptr) =? s.(str_end) - 1)%nat.

Definition yaml_emitter_write_single_quoted_scalar (value : list Z) (len : Z)
    (allow_breaks : bool) : eprog D unit :=
  yaml_emitter_write_indicator [ch "'"] true false false;;
  '(_, breaks) ← str_loop (L := bool * bool) (STRING_ASSIGN value len) (false, false) (fun s '(spaces, breaks) =>
    space ← deref (str_is_space_at s 0);
    if (space : bool) then
      wide ← too_wide;
      fold ← deref (Some (allow_breaks && negb spaces && wide && str_inner s)
                    &&? option_map negb (str_is_space_at s 1));
      s' ← (if (fold : bool) then yaml_emitter_write_indent;; deref (str_move s) else WRITE s);
      mret (s', (true, breaks))
    else
      brk ← deref (str_is_break_at s 0);
      if (brk : bool) then
        s' ← write_folded_break s breaks;
        mret (s', (spaces, true))
      else
        (if breaks then yaml_emitter_write_indent else mret tt);;
        quote ← deref (str_check_at s (ch "'") 0);
        (if (quote : bool) then put "'" else mret tt);;
        s' ← WRITE s;
        modify (set_indention false);;
        mret (s', (false, false)));
  (if (breaks : bool) then yaml_emitter_write_indent else mret tt);;
  yaml_emitter_write_indicator [ch "'"] false false false;;
  set_flags false false.

(** The characters with an escape of their own. *)
Definition short_escape (value : Z) : option ascii :=
  match value with
  | 0x00 => Some "0" | 0x07 => Some "a" | 0x08 => Some "b" | 0x09 => Some "t"
  | 0x0A => Some "n" | 0x0B => Some "v" | 0x0C => Some "f" | 0x0D => Some "r"
  | 0x1B => Some "e" | 0x22 => Some "034" | 0x5C => Some "\" | 0x85 => Some "N"
  | 0xA0 => Some "_" | 0x2028 => Some "L" | 0x2029 => Some "P"
  | _ => None
  end%char.

(** [for (k = (width-1)*4; k >= 0; k -= 4)]. *)
Fixpoint write_hex (width : nat) (value : Z) : eprog D unit :=
  match width with
  | O => mret tt
  | S n =>
      PUT (hex_digit (Z.land (Z.shiftr value (4 * Z.of_nat n)) 0x0F));;
      write_hex n value
  end.

Definition write_escape (value : Z) : eprog D unit :=
  put "\";;
  match short_escape value with
  | Some c => put c
  | None =>
      if value <=? 0xFF then put "x";; write_hex 2 value
      else if value <=? 0xFFFF then put "u";; write_hex 4 value
      else put "U";; write_hex 8 value
  end.

Definition yaml_emitter_write_double_quoted_scalar (value : list Z) (len : Z)
    (allow_breaks : bool) : eprog D unit :=
  yaml_emitter_write_indicator [ch "034"] true false false;;
  str_loop (STRING_ASSIGN value len) false (fun s spaces =>
    uni ← gets (fun e => e.(layout).(unicode));
    escape ← deref (option_map negb (str_is_printable s)
                    ||? (Some (negb uni) &&? option_map negb (str_is_ascii s))
                    ||? str_is_bom s ||? str_is_break_at s 0
                    ||? str_check_at s (ch "034") 0 ||? str_check_at s (ch "\") 0);
    if (escape : bool) then
      '(v, w) ← deref (str_value s);
      write_escape v;;
      mret (str_at s (s.(str_ptr) + w), false)
    else
      space ← deref (str_is_space_at s 0);
      if (space : bool) then
        wide ← too_wide;
        s' ← (if allow_breaks && negb spaces && wide && str_inner s then
                yaml_emitter_write_indent;;
                next ← deref (str_is_space_at s 1);
                (if (next : bool) then put "\" else mret tt);;
                deref (str_move s)
              else WRITE s);
        mret (s', true)
      else s' ← WRITE s; mret (s', false));;
  yaml_emitter_write_indicator [ch "034"] false false false;;
  set_flags false false.

(** The chomping indicator and the flag [open_ended] for a text. *)
Definition chomp_hint s : option (option ascii * Z) :=
  if (s.(str_end) =? 0)%nat then Some (Some "-", 0)%char
  else
    p ← str_back s.(str_text) s.(str_end);
    brk ← str_is_break_at (str_at s p) 0;
    if negb brk then Some (Some "-", 0)%char
    else if (p =? 0)%nat then Some (Some "+", 2)%char
    else
      q ← str_back s.(str_text) p;
      brk ← str_is_break_at (str_at s q) 0;
      Some (if (brk : bool) then (Some "+", 2)%char else (None, 0)).

Definition yaml_emitter_write_block_scalar_hints s : eprog D unit :=
  lead ← deref (str_is_space_at s 0 ||? str_is_break_at s 0);
  (if (lead : bool) then
     n ← gets (fun e => e.(layout).(best_indent));
     yaml_emitter_write_indicator [to_octet (ch "0" + n)] false false false
   else mret tt);;
  modify (set_open_ended 0);;
  '(hint, open) ← deref (chomp_hint s);
  (if open =? 2 then modify (set_open_ended 2) else mret tt);;
  match hint with
  | Some c => yaml_emitter_write_indicator [ch c] false false false
  | None => mret tt
  end.

Definition yaml_emitter_write_literal_scalar (value : list Z) (len : Z) : eprog D unit :=
  let s := STRING_ASSIGN value len in
  yaml_emitter_write_indicator [ch "|"] true false false;;
  yaml_emitter_write_block_scalar_hints s;;
  PUT_BREAK;;
  modify (set_indention true);;
  modify (set_whitespace true);;
  str_loop s true (fun s breaks =>
    brk ← deref (str_is_break_at s 0);
    if (brk : bool) then
      s' ← WRITE_BREAK s;
      modify (set_indention true);;
      mret (s', true)
    else
      (if breaks then yaml_emitter_write_indent else mret tt);;
      s' ← WRITE s;
      modify (set_indention false);;
      mret (s', false));;
  mret tt.

(** [while (IS_BREAK_AT(string, k)) k += WIDTH_AT(string, k)]. *)
Fixpoint skip_breaks (fuel : nat) s (k : nat) : option nat :=
  match fuel with
  | O => None
  | S n =>
      brk ← str_is_break_at s k;
      if (brk : bool) then w ← str_width_at s k; skip_breaks n s (k + w) else Some k
  end.

Definition yaml_emitter_write_folded_scalar (value : list Z) (len : Z) : eprog D unit :=
  let s := STRING_ASSIGN value len in
  yaml_emitter_write_indicator [ch ">"] true false false;;
  yaml_emitter_write_block_scalar_hints s;;
  PUT_BREAK;;
  modify (set_indention true);;
  modify (set_whitespace true);;
  str_loop (L := bool * bool) s (true, true) (fun s '(breaks, leading_spaces) =>
    brk ← deref (str_is_break_at s 0);
    if (brk : bool) then
      lf ← deref (str_check_at s 10 0);
      (if negb breaks && negb leading_spaces && lf then
         k ← deref (skip_breaks (length s.(str_text) + 2) s 0);
         z ← deref (str_is_blankz_at s k);
         if (z : bool) then mret tt else PUT_BREAK
       else mret tt);;
      s' ← WRITE_BREAK s;
      modify (set_indention true);;
      mret (s', (true, leading_spaces))
    else
      lead ← (if breaks then
                yaml_emitter_write_indent;;
                deref (str_is_blank_at s 0)
              else mret leading_spaces);
      wide ← too_wide;
      fold ← deref (Some (negb breaks) &&? str_is_space_at s 0
                    &&? option_map negb (str_is_space_at s 1) &&? Some wide);
      s' ← (if (fold : bool) then yaml_emitter_write_indent;; deref (str_move s) else WRITE s);
      modify (set_indention false);;
      mret (s', (false, lead)));;
  mret tt.

End writers.
