(* ===== verification/YamlEmitText.v ===== *)
(** * libyaml: the text the emitter has written

    [holds e cs]: the characters [cs] have been written through the emitter
    [e], some of them passed to the handler in the output encoding and the
    others still in the working buffer.  The output macros and the routines
    [yaml_emitter_write_...] extend this text, never leave their buffers, and
    fail only with a writer error.  All the characters written belong to the
    basic plane and are characters that the reader of libyaml accepts. *)

From Stdlib Require Import ZArith Lia Ascii String.
From stdpp Require Import base list option strings.
From S2P Require Import Prelude YamlData YamlReader YamlChars YamlUtf8 YamlDocument YamlString YamlStringSpec YamlWriter YamlWriterSpec YamlEmitWrite.

#[local] Open Scope Z_scope.

Lemma wp_bind_known {S A B} F (m : prog S A) (k : A -> prog S B) Q E s a s' :
  m s = Ret a s' -> wp F (m ≫= k) Q E s -> wp F (k a) Q E s'.
Proof. unfold wp, mbind, prog_bind. by intros ->. Qed.

(** A character the emitter writes as it is. *)
Definition out_char (v : Z) : Prop := allowed_char v = true /\ v <= 0xFFFF.

(** What a handler promises: after a success its data has the octets at the end. *)
Class Collects {D : Type} (h : yaml_write_handler_t D) (sofar : D -> list Z) : Prop :=
  collects : forall d bs d', h d bs = (true, d') -> sofar d' = sofar d ++ bs.

#[export] Instance string_collects : Collects yaml_string_write_handler written.
Proof.
  intros d bs d'. unfold yaml_string_write_handler. destruct (_ <? _); [done|]. by intros [= <-].
Qed.

Lemma out_char_code v : out_char v -> code_value v.
Proof. unfold out_char, allowed_char, code_value. lia. Qed.

Lemma out_codes cs : Forall out_char cs -> Forall code_value cs.
Proof. intros H. eapply Forall_impl; [exact H|]. apply out_char_code. Qed.

Lemma recode_basic little cs :
  Forall out_char cs -> recode_text little cs = concat (map (utf16_encode little) cs).
Proof.
  intros H. unfold recode_text. f_equal. apply map_ext_in. intros v Hv.
  apply list_elem_of_In in Hv. apply recode_char_basic.
  pose proof (proj1 (Forall_forall _ _) H v Hv) as [H1 H2]. unfold allowed_char in H1. lia.
Qed.

Lemma printable_out v : printable_char v = true -> out_char v.
Proof. unfold printable_char, out_char, allowed_char. lia. Qed.

Lemma out_ascii c : 0x20 <= c <= 0x7E -> out_char c.
Proof. unfold out_char, allowed_char. lia. Qed.

Section text.
Context {D : Type} (h : yaml_write_handler_t D) (sofar : D -> list Z) {col : Collects h sofar}.
Implicit Types (e : yaml_emitter_t D) (cs : list Z).

Record holds e cs : Prop := mkHolds {
  holds_chars : Forall out_char cs;
  holds_encoding : e.(writing).(out_encoding) <> YAML_ANY_ENCODING;
  holds_raw : e.(writing).(out_raw) = [];
  holds_room : Z.of_nat (length e.(writing).(out_buffer)) <= OUTPUT_BUFFER_SIZE;
  holds_split : exists dn rs d, cs = dn ++ rs
    /\ e.(writing).(output) = Some (h, d)
    /\ sofar d = raw_text e.(writing).(out_encoding) dn
    /\ e.(writing).(out_buffer) = utf8_text rs
}.

(** Only the writer's fields and the position have changed. *)
Definition moved e e' : Prop :=
  e'.(em_err) = e.(em_err) /\ e'.(layout) = e.(layout) /\ e'.(machine) = e.(machine)
  /\ e'.(analysis) = e.(analysis) /\ e'.(writing).(out_encoding) = e.(writing).(out_encoding).

#[export] Instance moved_preorder : PreOrder moved.
Proof.
  split; [done|]. unfold moved. intros a b c Hab Hbc. intuition congruence.
Qed.

(** The emitter has recorded that the handler failed. *)
Definition write_failed e : Prop := e.(em_err).(e_error) = YAML_WRITER_ERROR.

Lemma raw_text_app enc a b : raw_text enc (a ++ b) = raw_text enc a ++ raw_text enc b.
Proof. unfold raw_text. by rewrite map_app, concat_app. Qed.

Lemma chars_le_octets cs : (length cs <= length (utf8_text cs))%nat.
Proof. exact (raw_text_length YAML_UTF8_ENCODING cs). Qed.

Lemma utf8_text_nil cs : utf8_text cs = [] -> cs = [].
Proof. intros H. pose proof (chars_le_octets cs) as Hl. rewrite H in Hl. destruct cs; [done|cbn in Hl; lia]. Qed.

(** ** Flushing *)

Lemma wp_call_handler bytes (Q : bool -> yaml_emitter_t D -> Prop) E e d :
  e.(writing).(output) = Some (h, d) ->
  (forall ok d', h d bytes = (ok, d') -> Q ok (set_output (Some (h, d')) e)) ->
  wp strict (call_handler bytes) Q E e.
Proof.
  intros Ho HQ. unfold call_handler. wp_steps. rewrite Ho.
  destruct (h d bytes) as [ok d'] eqn:Eh. wp_steps. by apply HQ.
Qed.

Lemma wp_flush e cs :
  holds e cs ->
  wp strict yaml_emitter_flush
    (fun _ e' => holds e' cs /\ e'.(writing).(out_buffer) = [] /\ moved e e'
                 /\ e'.(position) = e.(position)) write_failed e.
Proof.
  intros [Hc He Hr Hroom (dn & rs & d & -> & Ho & Hs & Hb)]. unfold yaml_emitter_flush, e_assert.
  wp_steps. rewrite Ho. rewrite bool_decide_eq_true_2 by done. wp_steps.
  rewrite bool_decide_eq_false_2 by done. cbn [negb]. wp_steps.
  apply Forall_app in Hc as [Hdn Hrs].
  case_bool_decide as Hnil.
  { wp_steps. split_and!; try done. split; try done; [by apply Forall_app|]. eauto 10. }
  case_bool_decide as Henc; wp_steps.
  - eapply wp_call_handler; [done|]. intros [] d' Hh; wp_steps; [|done].
    split_and!; try done. split; cbn; try done; [by apply Forall_app|].
    exists (dn ++ rs), [], d'. rewrite app_nil_r. split_and!; try done.
    by rewrite (collects _ _ _ Hh), raw_text_app, <- Hs, Hb, Henc.
  - set (little := bool_decide (out_encoding (writing e) = YAML_UTF16LE_ENCODING)).
    assert (recode little (out_buffer (writing e)) e
            = Ret tt (set_out_raw (recode_text little rs) e)) as Hrec.
    { unfold recode. rewrite Hb, recode_loop.
      - by rewrite Hr.
      - by apply out_codes.
      - pose proof (chars_le_octets rs) as Hl. rewrite Hb in Hroom.
        unfold OUTPUT_BUFFER_SIZE in Hroom. unfold OUTPUT_RAW_BUFFER_SIZE, OUTPUT_BUFFER_SIZE.
        change (Z.to_nat ((16384 * 2 + 2) / 2)) with (Z.to_nat 16385). lia.
      - rewrite Hr. rewrite Hb in Hroom. unfold OUTPUT_RAW_BUFFER_SIZE. cbn [length]. lia. }
    eapply wp_known; [exact Hrec|]. wp_steps. cbn [writing out_raw set_out_raw set_writing].
    eapply wp_call_handler; [done|]. intros [] d' Hh; wp_steps; [|done].
    split_and!; try done. split; cbn; try done; [by apply Forall_app|].
    exists (dn ++ rs), [], d'. rewrite app_nil_r. split_and!; try done.
    rewrite (collects _ _ _ Hh), raw_text_app, <- Hs, recode_basic by done.
    unfold raw_text, little. by destruct (out_encoding (writing e)).
Qed.

(** ** Output macros *)

(** There is room for a character and more in the working buffer. *)
Definition has_room e : Prop := Z.of_nat (length e.(writing).(out_buffer)) + 5 < OUTPUT_BUFFER_SIZE.

Lemma wp_FLUSH e cs :
  holds e cs ->
  wp strict FLUSH
    (fun _ e' => holds e' cs /\ has_room e' /\ moved e e' /\ e'.(position) = e.(position))
    write_failed e.
Proof.
  intros He. unfold FLUSH. wp_steps. destruct (_ <? _) eqn:E.
  - wp_steps. split_and!; try done. unfold has_room. lia.
  - eapply wp_mono; [by apply wp_flush| |done]. intros _ e' (H1 & H2 & H3 & H4). cbv beta.
    split_and!; try done. unfold has_room. rewrite H2. by cbn.
Qed.

Lemma FLUSH_room e : has_room e -> FLUSH e = Ret tt e.
Proof.
  intros H. unfold FLUSH, has_room in *. unfold gets, mbind, prog_bind.
  by assert ((Z.of_nat (length e.(writing).(out_buffer)) + 5 <? OUTPUT_BUFFER_SIZE) = true) as -> by lia.
Qed.

Lemma wp_put_octets e cs t E :
  holds e cs -> has_room e -> Forall out_char t -> (length (utf8_text t) <= 5)%nat ->
  wp strict (put_octets (utf8_text t))
    (fun _ e' => holds e' (cs ++ t) /\ moved e e' /\ e'.(position) = e.(position)) E e.
Proof.
  intros [Hc He Hr Hroom (dn & rs & d & -> & Ho & Hs & Hb)] Hroom' Ht Hl. unfold has_room in Hroom'.
  unfold put_octets. wp_steps.
  assert ((Z.of_nat (length (out_buffer (writing e)) + length (utf8_text t)) <=? OUTPUT_BUFFER_SIZE)
          = true) as -> by (apply Z.leb_le; lia).
  wp_steps. split_and!; try done. split; cbn; try done.
  - by apply Forall_app.
  - rewrite length_app. unfold OUTPUT_BUFFER_SIZE in *. lia.
  - exists dn, (rs ++ t), d. rewrite app_assoc, utf8_text_app, Hb. by split_and!.
Qed.

(** The position after a character, and after a line break. *)
Definition past_char (p : emitter_position) : emitter_position :=
  mkPosition p.(e_line) (p.(e_column) + 1) p.(whitespace) p.(indention) p.(open_ended).
Definition past_line (p : emitter_position) : emitter_position :=
  mkPosition (p.(e_line) + 1) 0 p.(whitespace) p.(indention) p.(open_ended).

Lemma holds_position e cs p : holds e cs -> holds (set_position p e) cs.
Proof. intros []. by split. Qed.

Lemma wp_put_char e cs v bs E :
  holds e cs -> has_room e -> out_char v -> bs = utf8_encode v ->
  wp strict (put_octets bs)
    (fun _ e' => holds e' (cs ++ [v]) /\ moved e e' /\ e'.(position) = e.(position)) E e.
Proof.
  intros He Hroom Hv ->.
  replace (utf8_encode v) with (utf8_text [v]) by (cbn; apply app_nil_r).
  apply wp_put_octets; try done; [by apply Forall_singleton|].
  cbn. rewrite app_nil_r. pose proof (encode_length v). lia.
Qed.

Lemma utf8_encode_ascii c : 0 <= c <= 0x7F -> utf8_encode c = [c].
Proof. intros H. unfold utf8_encode. by assert ((c <=? 0x7F) = true) as -> by lia. Qed.

Lemma wp_PUT e cs c :
  holds e cs -> 0x20 <= c <= 0x7E ->
  wp strict (PUT c)
    (fun _ e' => holds e' (cs ++ [c]) /\ moved e e' /\ e'.(position) = past_char e.(position))
    write_failed e.
Proof.
  intros He Hc. unfold PUT, next_column. apply wp_bind. eapply wp_mono; [by apply wp_FLUSH| |done].
  intros _ e1 (H1 & H2 & H3 & H4). cbv beta. wp_steps.
  eapply wp_mono; [apply (wp_put_char e1 cs c); try done; [by apply out_ascii|]| |done].
  - unfold to_octet. rewrite utf8_encode_ascii, Z.mod_small by lia. done.
  - intros _ e2 (G1 & G2 & G3). cbv beta. wp_steps.
    split_and!; [by apply holds_position|by etrans|]. cbn. by rewrite G3, H4.
Qed.

(** The characters of the line break in use. *)
Lemma wp_PUT_BREAK_room e cs E :
  holds e cs -> has_room e ->
  wp strict PUT_BREAK
    (fun _ e' => holds e' (cs ++ break_octets e.(layout).(line_break)) /\ moved e e'
                 /\ e'.(position) = past_line e.(position)) E e.
Proof.
  intros He Hroom. unfold PUT_BREAK. apply wp_bind. eapply wp_known; [by apply FLUSH_room|].
  wp_steps. set (b := break_octets _).
  assert (utf8_text b = b /\ Forall out_char b /\ (length b <= 5)%nat) as (Hb1 & Hb2 & Hb3).
  { unfold b. destruct (line_break (layout e)); cbn; (split; [done|]); split; try lia;
      rewrite ?Forall_cons, Forall_nil; unfold out_char, allowed_char; cbn; lia. }
  rewrite <- Hb1 at 1.
  eapply wp_mono; [apply (wp_put_octets e cs b); try done; by rewrite Hb1| |done].
  intros _ e' (H1 & H2 & H3). cbv beta. unfold next_line. wp_steps.
  split_and!; [exact (holds_position _ _ (past_line (position e')) H1)|done|]. cbn. by rewrite H3.
Qed.

Lemma wp_PUT_BREAK e cs :
  holds e cs ->
  wp strict PUT_BREAK
    (fun _ e' => holds e' (cs ++ break_octets e.(layout).(line_break)) /\ moved e e'
                 /\ e'.(position) = past_line e.(position)) write_failed e.
Proof.
  intros He. pose proof (wp_FLUSH e cs He) as HF. unfold PUT_BREAK. unfold wp in HF.
  apply wp_bind. unfold wp at 1. destruct (FLUSH e) as [[] e1|e1| |] eqn:EF; try done.
  destruct HF as (H1 & H2 & H3 & H4).
  pose proof (wp_PUT_BREAK_room e1 cs write_failed H1 H2) as HB. unfold PUT_BREAK in HB.
  apply wp_bind_known with (a := tt) (s' := e1) in HB; [|by apply FLUSH_room].
  eapply wp_mono; [exact HB| |done]. intros _ e2 (G1 & G2 & G3). cbv beta.
  split_and!; [|by etrans|by rewrite G3, H4].
  destruct H3 as (_ & Hl & _). by rewrite <- Hl.
Qed.
End text.
