(* ===== verification/YamlEmitSafe.v ===== *)
(** * libyaml: the writers of the emitter are safe

    Each routine [yaml_emitter_write_...], called on a valid text, returns or
    fails with a writer error: its loop ends, it reads no octet behind the NUL
    of the text, and it writes within the buffer.  Scalars that are written
    as they are consist of characters the reader accepts; the others are
    escaped.  Of the emitter only the output and the position change. *)

From Stdlib Require Import ZArith Lia Ascii String.
From stdpp Require Import base list option strings.
From S2P Require Import Prelude YamlData YamlReader YamlChars YamlUtf8 YamlDocument YamlString YamlStringSpec YamlWriter YamlWriterSpec YamlEmitWrite YamlEmitText.

#[local] Open Scope Z_scope.

Lemma utf8_text_ascii l : Forall (fun c => 0x20 <= c <= 0x7E) l -> utf8_text l = l.
Proof.
  induction 1 as [|c l Hc _ IH]; [done|]. rewrite utf8_text_cons, IH, utf8_encode_ascii by lia. done.
Qed.

Lemma orO_some a b : orO (Some a) (Some b) = Some (a || b).
Proof. by destruct a. Qed.

Lemma alpha_graph c : is_alpha c = true -> 0x20 <= c <= 0x7E.
Proof.
  unfold is_alpha, is_digit. change (ch "0") with 48. change (ch "9") with 57.
  change (ch "A") with 65. change (ch "Z") with 90. change (ch "a") with 97.
  change (ch "z") with 122. change (ch "_") with 95. change (ch "-") with 45. lia.
Qed.

(** The characters of tags that are not escaped are printable ASCII. *)
Lemma uri_char_graph c : is_uri_char c = true -> 0x20 <= c <= 0x7E.
Proof.
  unfold is_uri_char. intros [Ha|He]%orb_true_iff.
  - by apply alpha_graph.
  - apply existsb_exists in He as (x & Hin & ->%Z.eqb_eq). revert x Hin.
    refine (proj1 (List.Forall_forall (fun c => 0x20 <= c <= 0x7E) _) _).
    repeat (apply List.Forall_cons; [by split|]). apply List.Forall_nil.
Qed.

Lemma uri_char_ascii b : 128 <= b < 256 -> is_uri_char b = false.
Proof.
  intros Hb. destruct (is_uri_char b) eqn:E; [|done]. pose proof (uri_char_graph b E). lia.
Qed.

(** A loop over a text, one turn per character. *)
Lemma wp_str_loop {D L} cs (I : nat -> L -> yaml_emitter_t D -> Prop) E s l turn e :
  cursor s cs 0 -> I 0%nat l e ->
  (forall s i v l e, cursor s cs i -> cs !! i = Some v -> I i l e ->
     wp strict (turn s l) (fun r e' => r.1 = str_next s v /\ I (S i) r.2 e') E e) ->
  wp strict (str_loop s l turn) (fun l e' => I (length cs) l e') E e.
Proof.
  intros Hs Hl Hturn. unfold str_loop.
  eapply wp_loop with (I := fun x e => exists i, cursor x.1 cs i /\ I i x.2 e)
    (v := fun x _ => (x.1.(str_end) - x.1.(str_ptr))%nat).
  - intros [s1 l1] e1 (i & H2 & H3). cbn in H2, H3 |- *.
    destruct (str_done s1) eqn:Ed.
    { wp_steps. rewrite (cursor_done s1 cs i H2) in Ed. apply bool_decide_eq_true in Ed. by subst. }
    destruct (cursor_not_done s1 cs i H2 Ed) as (v & Hv & _). wp_step.
    eapply wp_mono; [by eapply Hturn| |done]. intros [s2 l2] e2 (G2 & G3). cbn in G2, G3. subst s2.
    wp_steps. cbn. pose proof (cursor_step s1 cs i v H2 Hv) as Hn. split; [by eauto|]. right.
    pose proof (encode_length v). destruct Hn as [_ _ Hend Hle Hptr]. cbn in Hend, Hptr.
    pose proof (offset_mono cs (S i) (length cs) Hle) as Ho. rewrite offset_all in Ho. lia.
  - cbn. eauto.
  - right. cbn. destruct Hs as [Ht _ He' _ _]. rewrite He', Ht. lia.
Qed.

Section safe.
Context {D : Type} (h : yaml_write_handler_t D) (sofar : D -> list Z) {col : Collects h sofar}.
Variable e0 : yaml_emitter_t D.
Implicit Types (e : yaml_emitter_t D) (s : yaml_string_t).

(** Text has been written since [e0], and nothing else was changed. *)
Definition writing_on e : Prop := moved e0 e /\ exists cs, holds h sofar e cs.

(** [m] keeps this and yields a value with [P], or fails with a writer error. *)
Definition safe {A} (m : eprog D A) (P : A -> Prop) : Prop :=
  forall e, writing_on e -> wp strict m (fun a e' => writing_on e' /\ P a) write_failed e.

Lemma safe_mono {A} (m : eprog D A) (P P' : A -> Prop) :
  safe m P -> (forall a, P a -> P' a) -> safe m P'.
Proof.
  intros Hm HP e He. eapply wp_mono; [by apply Hm| |done]. intros a e' [H1 H2]. auto.
Qed.

Lemma safe_ret {A} (a : A) (P : A -> Prop) : P a -> safe (mret a) P.
Proof. intros Ha e He. by wp_steps. Qed.

Lemma safe_bind {A B} (m : eprog D A) (k : A -> eprog D B) (P : A -> Prop) Q :
  safe m P -> (forall a, P a -> safe (k a) Q) -> safe (m ≫= k) Q.
Proof.
  intros Hm Hk e He. apply wp_bind. eapply wp_mono; [by apply Hm| |done].
  intros a e' [H1 H2]. by apply Hk.
Qed.

Lemma safe_gets {A} (f : yaml_emitter_t D -> A) (P : A -> Prop) :
  (forall e, writing_on e -> P (f e)) -> safe (gets f) P.
Proof. intros Hf e He. wp_steps. auto. Qed.

Lemma safe_deref {A} (o : option A) a (P : A -> Prop) : o = Some a -> P a -> safe (deref o) P.
Proof. intros -> Ha. by apply safe_ret. Qed.

Lemma safe_seq {A} (m : eprog D A) {B} (k : eprog D B) Q :
  safe m (fun _ => True) -> safe k Q -> safe (m;; k) Q.
Proof. intros Hm Hk. by eapply safe_bind; [exact Hm|]. Qed.

Lemma safe_read {A B} (f : yaml_emitter_t D -> A) (k : A -> eprog D B) Q :
  (forall a, safe (k a) Q) -> safe (gets f ≫= k) Q.
Proof. intros Hk. eapply safe_bind; [by apply (safe_gets f (fun _ => True))|auto]. Qed.

Lemma safe_when (b : bool) (m : eprog D unit) :
  safe m (fun _ => True) -> safe (if b then m else mret tt) (fun _ => True).
Proof. intros Hm. destruct b; [done|by apply safe_ret]. Qed.

(** A test of the string, whose result is known. *)
Lemma safe_test {A B} (o : option A) a (k : A -> eprog D B) Q :
  o = Some a -> safe (k a) Q -> safe (deref o ≫= k) Q.
Proof. intros -> Hk. eapply safe_bind; [by apply (safe_ret a (eq a))|]. by intros ? <-. Qed.

(** An assignment to the position. *)
Lemma safe_position (f : yaml_emitter_t D -> yaml_emitter_t D) :
  (forall e, exists p, f e = set_position p e) -> safe (modify f) (fun _ => True).
Proof.
  intros Hf e [Hm (cs & Hh)]. wp_steps. destruct (Hf e) as [p ->]. split; [|done]. split; [done|].
  exists cs. destruct Hh. by split.
Qed.

(** A statement that has been shown to extend the text. *)
Lemma safe_wp {A} (m : eprog D A) (P : A -> Prop) :
  (forall e cs, holds h sofar e cs -> moved e0 e ->
     wp strict m (fun a e' => moved e e' /\ P a /\ exists cs', holds h sofar e' cs') write_failed e) ->
  safe m P.
Proof.
  intros Hm e [H1 (cs & H2)]. eapply wp_mono; [by eapply Hm| |done].
  intros a e' (G1 & G2 & G3). split; [|done]. split; [by etrans|done].
Qed.

Lemma safe_PUT c : 0x20 <= c <= 0x7E -> safe (PUT c) (fun _ => True).
Proof.
  intros Hc. apply safe_wp. intros e cs He _.
  eapply wp_mono; [by apply wp_PUT| |done]. intros _ e' (H1 & H2 & _). eauto.
Qed.

Lemma safe_PUT_BREAK : safe PUT_BREAK (fun _ => True).
Proof.
  apply safe_wp. intros e cs He _.
  eapply wp_mono; [by apply wp_PUT_BREAK| |done]. intros _ e' (H1 & H2 & _). eauto.
Qed.

Lemma safe_WRITE s v : char_at s 0 v -> out_char v -> safe (WRITE s) (fun s' => s' = str_next s v).
Proof.
  intros Hs Hv. apply safe_wp. intros e cs He _. unfold WRITE. apply wp_bind.
  eapply wp_mono; [by apply wp_FLUSH| |done]. intros _ e1 (H1 & H2 & H3 & _). cbv beta.
  rewrite (cursor_copy s v Hs). cbn [deref]. wp_steps.
  eapply wp_mono; [by apply (wp_put_char h sofar e1 cs v)| |done].
  intros _ e2 (G1 & G2 & _). cbv beta. unfold next_column. wp_steps.
  split_and!; [by etrans|done|]. eexists. by apply holds_position.
Qed.

Lemma safe_WRITE_BREAK s v :
  char_at s 0 v -> out_char v -> safe (WRITE_BREAK s) (fun s' => s' = str_next s v).
Proof.
  intros Hs Hv. apply safe_wp. intros e cs He _. unfold WRITE_BREAK. apply wp_bind.
  eapply wp_mono; [by apply wp_FLUSH| |done]. intros _ e1 (H1 & H2 & H3 & _). cbv beta.
  rewrite (check_ascii s 0 v Hs) by done. cbn [deref]. wp_steps.
  destruct (v =? 10) eqn:E.
  - apply Z.eqb_eq in E as ->. wp_steps.
    eapply wp_mono; [by apply (wp_PUT_BREAK_room h sofar e1 cs (fun _ => False))| |done].
    intros _ e2 (G1 & G2 & _). cbv beta. wp_steps. split_and!; [by etrans|by rewrite <- Nat.add_1_r|eauto].
  - rewrite (cursor_copy s v Hs). cbn [deref]. wp_steps.
    eapply wp_mono; [by apply (wp_put_char h sofar e1 cs v)| |done].
    intros _ e2 (G1 & G2 & _). cbv beta. unfold next_line. wp_steps.
    split_and!; [by etrans|done|]. eexists. exact (holds_position _ _ _ _ (past_line (position e2)) G1).
Qed.

(** ** Loops over a text *)

Lemma safe_str_loop {L} cs (I : L -> Prop) s l turn :
  cursor s cs 0 -> I l ->
  (forall s i v l, cursor s cs i -> cs !! i = Some v -> I l ->
     safe (turn s l) (fun r => r.1 = str_next s v /\ I r.2)) ->
  safe (str_loop s l turn) I.
Proof.
  intros Hs Hl Hturn e He.
  apply (wp_str_loop cs (fun _ l e => writing_on e /\ I l)); [done|done|].
  intros s1 i v l1 e1 H1 H2 [H3 H4]. eapply wp_mono; [by eapply Hturn| |done].
  intros r e2 (G1 & G2 & G3). auto.
Qed.

Lemma cursor_assign text cs :
  text = utf8_text cs -> Forall code_value cs ->
  cursor (STRING_ASSIGN text (Z.of_nat (length text))) cs 0.
Proof. intros -> Hc. split; try done; cbn; [lia|lia]. Qed.

Lemma safe_write_all s cs :
  cursor s cs 0 -> Forall out_char cs -> safe (write_all s) (fun _ => True).
Proof.
  intros Hs Hc. eapply safe_str_loop; [done|done|]. intros s1 i v [] H1 H2 _.
  eapply safe_bind; [apply (safe_WRITE s1 v)|].
  - by eapply cursor_here.
  - by eapply Forall_lookup_1.
  - intros s2 ->. by apply safe_ret.
Qed.

Lemma safe_write_ascii text :
  Forall (fun c => 0x20 <= c <= 0x7E) text ->
  safe (write_all (STRING_ASSIGN text (Z.of_nat (length text)))) (fun _ => True).
Proof.
  intros Ht. apply (safe_write_all _ text).
  - apply cursor_assign; [symmetry; by apply utf8_text_ascii|].
    eapply Forall_impl; [exact Ht|]. unfold code_value. intros. lia.
  - eapply Forall_impl; [exact Ht|]. apply out_ascii.
Qed.

Lemma safe_set_flags w i : safe (set_flags w i) (fun _ => True).
Proof. eapply safe_bind; [apply safe_position; eauto|]. intros _ _. apply safe_position; eauto. Qed.

Lemma safe_put c : 0x20 <= ch c <= 0x7E -> safe (put c) (fun _ => True).
Proof. apply safe_PUT. Qed.

(** ** Marks of the layout *)

Lemma safe_write_indent : safe yaml_emitter_write_indent (fun _ => True).
Proof.
  unfold yaml_emitter_write_indent.
  apply safe_read. intros ind. apply safe_read. intros pos.
  apply safe_seq; [apply safe_when, safe_PUT_BREAK|].
  intros e He. wp_steps.
  eapply wp_mono; [eapply (wp_while strict writing_on
    (fun e => Z.to_nat (ind - e.(position).(e_column)))) with (Q := writing_on)|..].
  - intros e1 H1. wp_steps. destruct (_ <? _) eqn:E; [|done]. destruct H1 as (M1 & cs & M2).
    eapply wp_mono; [by apply (wp_PUT h sofar e1 cs)| |done]. intros _ e2 (G1 & G2 & G3). cbv beta.
    split; [split; [by etrans|eauto]|]. right. rewrite G3. cbn. lia.
  - done.
  - right. lia.
  - intros [] e1 H1; cbv beta in H1. by apply safe_set_flags.
  - done.
Qed.

Lemma safe_write_indicator i nw iw ii :
  Forall (fun c => 0x20 <= c <= 0x7E) i ->
  safe (yaml_emitter_write_indicator i nw iw ii) (fun _ => True).
Proof.
  intros Hi. unfold yaml_emitter_write_indicator.
  apply safe_read. intros w. apply safe_seq; [by apply safe_when, safe_put|].
  apply safe_seq; [by apply safe_write_ascii|].
  apply safe_seq; apply safe_position; eauto.
Qed.

Lemma safe_write_anchor text :
  Forall (fun c => 0x20 <= c <= 0x7E) text ->
  safe (yaml_emitter_write_anchor text (Z.of_nat (length text))) (fun _ => True).
Proof.
  intros Ht. apply safe_seq; [|apply safe_set_flags]. by apply safe_write_ascii.
Qed.

Lemma safe_write_tag_handle text :
  Forall (fun c => 0x20 <= c <= 0x7E) text ->
  safe (yaml_emitter_write_tag_handle text (Z.of_nat (length text))) (fun _ => True).
Proof.
  intros Ht. apply safe_read. intros w. apply safe_seq; [by apply safe_when, safe_put|].
  apply safe_seq; [|apply safe_set_flags]. by apply safe_write_ascii.
Qed.

Lemma hex_digit_ascii v : 0 <= v < 16 -> 0x20 <= hex_digit v <= 0x7E.
Proof. intros Hv. unfold hex_digit. change (ch "0") with 48. change (ch "A") with 65. destruct (_ <? _) eqn:E; lia. Qed.

Lemma safe_write_escapes n : forall s,
  (forall k, (k < n)%nat -> exists x, str_octet s k = Some x /\ is_octet x) ->
  safe (write_escapes n s) (fun s' => s' = str_at s (s.(str_ptr) + n)).
Proof.
  induction n as [|n IH]; intros s Hs; cbn [write_escapes].
  { apply safe_ret. rewrite Nat.add_0_r. by destruct s. }
  destruct (Hs 0%nat ltac:(lia)) as (x & Hx & Ho). unfold is_octet in Ho.
  eapply safe_test; [exact Hx|]. apply safe_seq; [by apply safe_put|].
  apply safe_seq.
  { apply safe_PUT, hex_digit_ascii. rewrite Z.shiftr_div_pow2 by lia. change (2 ^ 4) with 16.
    split; [apply Z.div_pos; lia|apply Z.div_lt_upper_bound; lia]. }
  apply safe_seq.
  { apply safe_PUT, hex_digit_ascii. change 0x0F with (Z.ones 4). rewrite Z.land_ones by lia.
    apply Z.mod_pos_bound. lia. }
  eapply safe_mono; [apply IH|].
  - intros k Hk. destruct (Hs (S k) ltac:(lia)) as (y & Hy & Hy'). exists y. split; [|done].
    unfold str_octet in *. cbn. by replace (S (str_ptr s + k)) with (str_ptr s + S k)%nat by lia.
  - cbn. intros s' ->. unfold str_at. cbn. f_equal. lia.
Qed.

Lemma safe_write_tag_content text cs nw :
  text = utf8_text cs -> Forall code_value cs ->
  safe (yaml_emitter_write_tag_content text (Z.of_nat (length text)) nw) (fun _ => True).
Proof.
  intros Ht Hc. apply safe_read. intros w. apply safe_seq; [by apply safe_when, safe_put|].
  apply safe_seq; [|apply safe_set_flags].
  eapply (safe_str_loop cs (fun _ => True)); [by apply cursor_assign|done|].
  intros s i v [] Hs Hv _. pose proof (cursor_here s cs i v Hs Hv) as Hch.
  eapply safe_test; [by apply (test_ascii s 0 v Hch), uri_char_ascii|].
  destruct ((v <=? 0x7F) && is_uri_char v) eqn:Eu.
  - eapply safe_bind; [apply (safe_WRITE s v Hch)|].
    + apply andb_true_iff in Eu as [_ Eu]. apply out_ascii. by apply uri_char_graph.
    + intros s' ->. by apply safe_ret.
  - eapply safe_test; [by apply (width_at s 0 v)|].
    eapply safe_bind; [apply safe_write_escapes|].
    + intros k Hk. destruct (lookup_lt_is_Some_2 _ _ Hk) as [x Hx]. exists x. split.
      * by apply (char_octet s 0 v k x Hch Hx).
      * eapply Forall_lookup_1; [apply encode_octets; by destruct Hch|done].
    + intros s' ->. by apply safe_ret.
Qed.

(** ** Scalars *)

(** The test for a space behind a space. *)
Lemma fold_test s cs i b :
  cursor s cs i -> cs !! i = Some 32 ->
  exists x, andO (Some b) (option_map negb (str_is_space_at s 1)) = Some x.
Proof.
  intros Hs Hv. pose proof (cursor_next s cs i 32 Hs Hv) as Hn.
  rewrite (space_at s 1 _ Hn). destruct b; cbn; eauto.
Qed.

Lemma safe_fold_or_write s v (fold : bool) :
  char_at s 0 v -> out_char v ->
  safe (if fold then yaml_emitter_write_indent;; deref (str_move s) else WRITE s)
    (fun s' => s' = str_next s v).
Proof.
  intros Hs Hv. destruct fold; [|by apply safe_WRITE].
  apply safe_seq; [apply safe_write_indent|]. by apply safe_deref with (str_next s v); [apply cursor_move|].
Qed.

Lemma safe_write_folded_break s v breaks :
  char_at s 0 v -> out_char v -> safe (write_folded_break s breaks) (fun s' => s' = str_next s v).
Proof.
  intros Hs Hv. unfold write_folded_break.
  eapply safe_test; [by apply (check_ascii s 0 v Hs)|].
  apply safe_seq; [apply safe_when, safe_PUT_BREAK|].
  eapply safe_bind; [by apply (safe_WRITE_BREAK s v)|]. intros s' ->.
  apply safe_seq; [apply safe_position; eauto|]. by apply safe_ret.
Qed.

(** A character that is neither a space nor a break, behind its indentation. *)
Lemma safe_write_plain_char s v {L} (l : L) :
  char_at s 0 v -> out_char v ->
  safe (s' ← WRITE s; modify (set_indention false);; mret (s', l))
    (fun r => r.1 = str_next s v /\ True).
Proof.
  intros Hs Hv. eapply safe_bind; [by apply (safe_WRITE s v)|]. intros s' ->.
  apply safe_seq; [apply safe_position; eauto|]. by apply safe_ret.
Qed.

Section plain_text.
Variables (text cs : list Z).
Hypotheses (Ht : text = utf8_text cs) (Hc : Forall out_char cs).

Lemma plain_cursor : cursor (STRING_ASSIGN text (Z.of_nat (length text))) cs 0.
Proof. apply cursor_assign; [done|by apply out_codes]. Qed.

Lemma safe_write_plain allow :
  safe (yaml_emitter_write_plain_scalar text (Z.of_nat (length text)) allow) (fun _ => True).
Proof.
  apply safe_read. intros w. apply safe_read. intros flow.
  apply safe_seq; [by apply safe_when, safe_put|]. apply safe_seq; [|apply safe_set_flags].
  eapply (safe_str_loop cs (fun _ => True)); [apply plain_cursor|done|].
  intros s i v [spaces breaks] Hs Hv _. pose proof (cursor_here s cs i v Hs Hv) as Hch.
  assert (out_char v) as Ho by (by eapply Forall_lookup_1).
  eapply safe_test; [by apply (space_at s 0 v)|]. destruct (v =? 32) eqn:Esp.
  - apply Z.eqb_eq in Esp as ->. apply safe_read. intros wide.
    destruct (fold_test s cs i (allow && negb spaces && wide) Hs Hv) as [fold Hf].
    eapply safe_test; [exact Hf|]. eapply safe_bind; [by apply (safe_fold_or_write s 32)|].
    intros s' ->. by apply safe_ret.
  - eapply safe_test; [by apply (break_at s 0 v)|]. destruct (break_char v).
    + eapply safe_bind; [by apply (safe_write_folded_break s v)|]. intros s' ->. by apply safe_ret.
    + apply safe_seq; [apply safe_when, safe_write_indent|]. by apply safe_write_plain_char.
Qed.

Lemma safe_write_single_quoted allow :
  safe (yaml_emitter_write_single_quoted_scalar text (Z.of_nat (length text)) allow) (fun _ => True).
Proof.
  apply safe_seq; [apply safe_write_indicator; by repeat constructor|].
  eapply safe_bind; [eapply (safe_str_loop cs (fun _ => True)); [apply plain_cursor|done|]|].
  - intros s i v [spaces breaks] Hs Hv _. pose proof (cursor_here s cs i v Hs Hv) as Hch.
    assert (out_char v) as Ho by (by eapply Forall_lookup_1).
    eapply safe_test; [by apply (space_at s 0 v)|]. destruct (v =? 32) eqn:Esp.
    + apply Z.eqb_eq in Esp as ->. apply safe_read. intros wide.
      destruct (fold_test s cs i (allow && negb spaces && wide && str_inner s) Hs Hv) as [fold Hf].
      eapply safe_test; [exact Hf|]. eapply safe_bind; [by apply (safe_fold_or_write s 32)|].
      intros s' ->. by apply safe_ret.
    + eapply safe_test; [by apply (break_at s 0 v)|]. destruct (break_char v).
      * eapply safe_bind; [by apply (safe_write_folded_break s v)|]. intros s' ->. by apply safe_ret.
      * apply safe_seq; [apply safe_when, safe_write_indent|].
        eapply safe_test; [by apply (check_ascii s 0 v Hch)|].
        apply safe_seq; [by apply safe_when, safe_put|]. by apply safe_write_plain_char.
  - intros [spaces breaks] _. apply safe_seq; [apply safe_when, safe_write_indent|].
    apply safe_seq; [apply safe_write_indicator; by repeat constructor|apply safe_set_flags].
Qed.

(** *** Block scalars *)

Lemma chomp_hint_defined : exists x, chomp_hint (STRING_ASSIGN text (Z.of_nat (length text))) = Some x
  /\ match x.1 with Some c => 0x20 <= ch c <= 0x7E | None => True end.
Proof.
  assert (Forall code_value cs) as Hcode by (by apply out_codes).
  assert (forall j, (j <= length cs)%nat ->
    cursor (str_at (STRING_ASSIGN text (Z.of_nat (length text))) (offset_of cs j)) cs j) as Hat.
  { intros j Hj. split; cbn; try done. rewrite Ht. lia. }
  unfold chomp_hint. cbn [str_end str_text STRING_ASSIGN]. rewrite Nat2Z.id.
  destruct (length text =? 0)%nat eqn:E0; [eexists; split; [done|by split]|].
  assert (exists n, length cs = S n) as [n Hn].
  { destruct cs; [|by eexists]. rewrite Ht in E0. done. }
  assert (str_back text (length text) = Some (offset_of cs n)) as Hback.
  { rewrite Ht, <- offset_all, Hn. apply cursor_back; [done|lia]. }
  rewrite Hback. cbn [mbind option_bind].
  pose proof (cursor_char _ cs n n (Hat n ltac:(lia)) ltac:(lia)) as H1. rewrite Nat.sub_diag in H1.
  change (STRING_ASSIGN text (Z.of_nat (length text)))
    with (mkString text 0 (Z.to_nat (Z.of_nat (length text)))) in *.
  rewrite (break_at _ 0 _ H1). cbn [mbind option_bind].
  destruct (break_char _); cbn [negb]; [|eexists; split; [done|by split]].
  destruct (offset_of cs n =? 0)%nat eqn:E1; [eexists; split; [done|by split]|].
  assert (exists m, n = S m) as [m ->] by (destruct n; [done|by eexists]).
  rewrite Ht, (cursor_back cs m Hcode) by lia. cbn [mbind option_bind]. rewrite <- Ht.
  pose proof (cursor_char _ cs m m (Hat m ltac:(lia)) ltac:(lia)) as H2. rewrite Nat.sub_diag in H2.
  rewrite (break_at _ 0 _ H2). cbn [mbind option_bind].
  eexists; split; [done|]. destruct (break_char _); [by split|done].
Qed.

Hypothesis Hindent : 2 <= e0.(layout).(best_indent) <= 9.

Lemma safe_write_hints :
  safe (yaml_emitter_write_block_scalar_hints (STRING_ASSIGN text (Z.of_nat (length text))))
    (fun _ => True).
Proof.
  unfold yaml_emitter_write_block_scalar_hints.
  pose proof (cursor_char _ cs 0 0 plain_cursor ltac:(lia)) as H0. rewrite Nat.sub_diag in H0.
  eapply safe_test; [by rewrite (space_at _ 0 _ H0), (break_at _ 0 _ H0), orO_some|].
  apply safe_seq.
  { apply safe_when. eapply safe_bind.
    - apply (safe_gets _ (fun n => n = e0.(layout).(best_indent))). intros e [(_ & -> & _) _]. done.
    - intros n ->. apply safe_write_indicator. apply Forall_singleton. unfold to_octet.
      change (ch "0") with 48. rewrite Z.mod_small by lia. lia. }
  apply safe_seq; [apply safe_position; eauto|].
  destruct chomp_hint_defined as ([hint open] & Hh & Hascii). eapply safe_test; [exact Hh|].
  apply safe_seq; [apply safe_when, safe_position; eauto|].
  destruct hint; [|by apply safe_ret]. apply safe_write_indicator. by apply Forall_singleton.
Qed.

Lemma safe_block_head i :
  Forall (fun c => 0x20 <= c <= 0x7E) i -> forall k Q, safe k Q ->
  safe (yaml_emitter_write_indicator i true false false;;
        yaml_emitter_write_block_scalar_hints (STRING_ASSIGN text (Z.of_nat (length text)));;
        PUT_BREAK;; modify (set_indention true);; modify (set_whitespace true);; k) (Q : unit -> Prop).
Proof.
  intros Hi k Q Hk. apply safe_seq; [by apply safe_write_indicator|].
  apply safe_seq; [apply safe_write_hints|]. apply safe_seq; [apply safe_PUT_BREAK|].
  apply safe_seq; [apply safe_position; eauto|]. by apply safe_seq; [apply safe_position; eauto|].
Qed.

Lemma safe_write_literal :
  safe (yaml_emitter_write_literal_scalar text (Z.of_nat (length text))) (fun _ => True).
Proof.
  apply safe_block_head; [by repeat constructor|]. apply safe_seq; [|by apply safe_ret].
  eapply (safe_str_loop cs (fun _ => True)); [apply plain_cursor|done|].
  intros s i v breaks Hs Hv _. pose proof (cursor_here s cs i v Hs Hv) as Hch.
  assert (out_char v) as Ho by (by eapply Forall_lookup_1).
  eapply safe_test; [by apply (break_at s 0 v)|]. destruct (break_char v).
  - eapply safe_bind; [by apply (safe_WRITE_BREAK s v)|]. intros s' ->.
    apply safe_seq; [apply safe_position; eauto|]. by apply safe_ret.
  - apply safe_seq; [apply safe_when, safe_write_indent|]. by apply safe_write_plain_char.
Qed.

Lemma skip_breaks_defined s i : cursor s cs i -> forall fuel j,
  (i <= j <= length cs)%nat -> (length cs - j < fuel)%nat ->
  exists j', (i <= j' <= length cs)%nat
    /\ skip_breaks fuel s (offset_of cs j - offset_of cs i) = Some (offset_of cs j' - offset_of cs i)%nat.
Proof.
  intros Hs. induction fuel as [|fuel IH]; intros j Hj Hf; [lia|]. cbn [skip_breaks].
  pose proof (cursor_char s cs i j Hs Hj) as Hch. rewrite (break_at _ _ _ Hch). cbn [mbind option_bind].
  destruct (break_char (nth j cs 0)) eqn:Eb; [|by exists j].
  assert (j < length cs)%nat as Hlt.
  { destruct (decide (j < length cs)%nat); [done|]. by rewrite nth_overflow in Eb by lia. }
  destruct (lookup_lt_is_Some_2 cs j Hlt) as [v Hv]. rewrite (nth_lookup_Some cs j 0 v Hv) in Hch.
  rewrite (width_at _ _ _ Hch). cbn [mbind option_bind].
  destruct (IH (S j) ltac:(lia) ltac:(lia)) as (j' & H1 & H2). exists j'. split; [done|].
  rewrite <- H2. f_equal. rewrite (offset_S cs j v Hv).
  pose proof (offset_mono cs i j ltac:(lia)). lia.
Qed.

Lemma safe_write_folded :
  safe (yaml_emitter_write_folded_scalar text (Z.of_nat (length text))) (fun _ => True).
Proof.
  apply safe_block_head; [by repeat constructor|]. apply safe_seq; [|by apply safe_ret].
  eapply (safe_str_loop cs (fun _ => True)); [apply plain_cursor|done|].
  intros s i v [breaks leading] Hs Hv _. pose proof (cursor_here s cs i v Hs Hv) as Hch.
  assert (out_char v) as Ho by (by eapply Forall_lookup_1).
  eapply safe_test; [by apply (break_at s 0 v)|]. destruct (break_char v).
  - eapply safe_test; [by apply (check_ascii s 0 v)|]. apply safe_seq.
    { apply safe_when. pose proof (cursor_le _ _ _ Hs).
      destruct (skip_breaks_defined s i Hs (length (str_text s) + 2) i ltac:(lia)) as (j & Hj & Hk).
      { rewrite (cursor_text _ _ _ Hs). pose proof (chars_le_octets cs). lia. }
      rewrite Nat.sub_diag in Hk. eapply safe_test; [exact Hk|].
      eapply safe_test; [apply (blankz_at s _ _ (cursor_char s cs i j Hs Hj))|].
      destruct (blankz_char _); [by apply safe_ret|apply safe_PUT_BREAK]. }
    eapply safe_bind; [by apply (safe_WRITE_BREAK s v)|]. intros s' ->.
    apply safe_seq; [apply safe_position; eauto|]. by apply safe_ret.
  - eapply safe_bind.
    { instantiate (1 := fun _ => True). destruct breaks; [|by apply safe_ret].
      apply safe_seq; [apply safe_write_indent|].
      by eapply safe_deref; [apply (blank_at s 0 v)|]. }
    intros lead _. apply safe_read. intros wide.
    assert (exists fold, (Some (negb breaks) &&? str_is_space_at s 0
              &&? option_map negb (str_is_space_at s 1) &&? Some wide)%str = Some fold) as [fold Hf].
    { rewrite (space_at s 0 v Hch). destruct breaks; cbn; [eauto|].
      destruct (v =? 32) eqn:Esp; cbn; [|eauto]. apply Z.eqb_eq in Esp as ->.
      rewrite (space_at s 1 _ (cursor_next s cs i 32 Hs Hv)). cbn.
      destruct (_ =? 32); cbn; eauto. }
    eapply safe_test; [exact Hf|]. eapply safe_bind; [by apply (safe_fold_or_write s v)|].
    intros s' ->. apply safe_seq; [apply safe_position; eauto|]. by apply safe_ret.
Qed.
End plain_text.

(** *** Double-quoted scalars *)

Lemma safe_write_hex n v : safe (write_hex n v) (fun _ => True).
Proof.
  induction n as [|n IH]; cbn [write_hex]; [by apply safe_ret|].
  apply safe_seq; [|done]. apply safe_PUT, hex_digit_ascii.
  change 0x0F with (Z.ones 4). rewrite Z.land_ones by lia. apply Z.mod_pos_bound. lia.
Qed.

Lemma short_escape_ascii v c : short_escape v = Some c -> 0x20 <= ch c <= 0x7E.
Proof.
  unfold short_escape. intros H.
  repeat match type of H with
  | match ?x with _ => _ end = _ => destruct x; try discriminate
  end; injection H as <-; by split.
Qed.

Lemma safe_write_escape v : safe (write_escape v) (fun _ => True).
Proof.
  apply safe_seq; [by apply safe_put|].
  destruct (short_escape v) as [c|] eqn:Es; [by eapply safe_put, short_escape_ascii|].
  destruct (v <=? 0xFF); [|destruct (v <=? 0xFFFF)];
    (apply safe_seq; [by apply safe_put|apply safe_write_hex]).
Qed.

Lemma safe_write_double_quoted text cs allow :
  text = utf8_text cs -> Forall code_value cs ->
  safe (yaml_emitter_write_double_quoted_scalar text (Z.of_nat (length text)) allow) (fun _ => True).
Proof.
  intros Ht Hc. apply safe_seq; [apply safe_write_indicator; by repeat constructor|].
  apply safe_seq; [|apply safe_seq; [apply safe_write_indicator; by repeat constructor|apply safe_set_flags]].
  eapply (safe_str_loop cs (fun _ => True)); [by apply cursor_assign|done|].
  intros s i v spaces Hs Hv _. pose proof (cursor_here s cs i v Hs Hv) as Hch.
  apply safe_read. intros uni. set (escape := (_ ||? _)%str).
  assert (exists b, escape = Some b /\ (b = false -> printable_char v = true)) as (b & Hb & Hp).
  { unfold escape. rewrite (printable_at s v Hch), (ascii_at s v Hch), (bom_at s v Hch),
      (break_at s 0 v Hch), !(check_ascii s 0 v Hch) by done.
    destruct (printable_char v), uni, (v <=? 0x7F), (v =? 0xFEFF), (break_char v), (v =? ch "034");
      cbn; by eexists. }
  eapply safe_test; [exact Hb|]. destruct b.
  - eapply safe_test; [by apply cursor_value|].
    apply safe_seq; [apply safe_write_escape|]. by apply safe_ret.
  - assert (out_char v) as Ho by (by apply printable_out, Hp).
    eapply safe_test; [by apply (space_at s 0 v)|]. destruct (v =? 32) eqn:Esp.
    + apply Z.eqb_eq in Esp as ->. apply safe_read. intros wide. eapply safe_bind.
      { instantiate (1 := fun s' => s' = str_next s 32). destruct (_ && _); [|by apply safe_WRITE].
        apply safe_seq; [apply safe_write_indent|].
        eapply safe_test; [apply (space_at s 1 _ (cursor_next s cs i 32 Hs Hv))|].
        apply safe_seq; [by apply safe_when, safe_put|].
        by eapply safe_deref; [apply cursor_move|]. }
      intros s' ->. by apply safe_ret.
    + eapply safe_bind; [by apply (safe_WRITE s v)|]. intros s' ->. by apply safe_ret.
Qed.
End safe.
