(* ===== verification/YamlQuoteWrite.v ===== *)
(** * libyaml: what the emitter writes for a double-quoted scalar

    The exact text of the output macros and of the writing routines for
    indicators, indentation and escapes, and from these: the text that
    [yaml_emitter_write_double_quoted_scalar] puts between its quotes spells
    the scalar, in the sense of [quoted], whether or not lines are folded and
    characters escaped. *)

From Stdlib Require Import ZArith Lia ZifyNat ZifyBool Ascii String.
From stdpp Require Import base list option strings.
From S2P Require Import Prelude YamlData YamlReader YamlChars YamlScanner YamlCursor YamlText YamlQuoted.
From S2P Require Import YamlUtf8 YamlDocument YamlString YamlStringSpec YamlWriter YamlWriterSpec YamlEmitWrite YamlEmitText YamlEmitSafe.

#[local] Open Scope Z_scope.

(** ** Escapes *)

(** What [write_hex] writes. *)
Fixpoint hex_text (width : nat) (value : Z) : list Z :=
  match width with
  | O => []
  | S n => hex_digit (Z.land (Z.shiftr value (4 * Z.of_nat n)) 0x0F) :: hex_text n value
  end.

Definition hex_escape (v : Z) : list Z :=
  if v <=? 0xFF then ch "x" :: hex_text 2 v
  else if v <=? 0xFFFF then ch "u" :: hex_text 4 v
  else ch "U" :: hex_text 8 v.

(** What [write_escape] writes behind the backslash. *)
Definition escape_chars (v : Z) : list Z :=
  match short_escape v with Some c => [ch c] | None => hex_escape v end.

Lemma hex_digit_range v : 0 <= Z.land v 0x0F < 16.
Proof. change 0x0F with (Z.ones 4). rewrite Z.land_ones by lia. apply Z.mod_pos_bound. lia. Qed.

Lemma hex_digit_value d : 0 <= d < 16 -> is_hex (hex_digit d) = true /\ as_hex (hex_digit d) = d.
Proof.
  intros Hd. pose proof (below_forall 16 (fun d => is_hex (hex_digit d) && (as_hex (hex_digit d) =? d))
    eq_refl d Hd) as H. cbv beta in H. lia.
Qed.

Lemma hex_text_length n v : length (hex_text n v) = n.
Proof. induction n as [|n IH]; cbn; [done|by rewrite IH]. Qed.

Lemma hex_text_digits n v : Forall (fun d => is_hex d = true) (hex_text n v).
Proof.
  induction n as [|n IH]; cbn [hex_text]; constructor; [|done]. apply hex_digit_value, hex_digit_range.
Qed.

Lemma hex_text_value n v : 0 <= v -> forall a,
  foldl (fun a d => Z.shiftl a 4 + as_hex d) a (hex_text n v) = a * 16 ^ Z.of_nat n + v mod 16 ^ Z.of_nat n.
Proof.
  intros Hv. induction n as [|n IH]; intros a; cbn [hex_text foldl].
  { rewrite Z.mod_1_r. cbn. lia. }
  rewrite IH. destruct (hex_digit_value _ (hex_digit_range (Z.shiftr v (4 * Z.of_nat n)))) as [_ ->].
  change 0x0F with (Z.ones 4). rewrite Z.land_ones, Z.shiftr_div_pow2, Z.shiftl_mul_pow2 by lia.
  rewrite Z.pow_mul_r by lia. change (2 ^ 4) with 16. rewrite Nat2Z.inj_succ, Z.pow_succ_r by lia.
  set (b := 16 ^ Z.of_nat n). assert (0 < b) by (apply Z.pow_pos_nonneg; lia).
  rewrite (Z.mul_comm 16 b), (Z.rem_mul_r v b 16) by lia. lia.
Qed.

Lemma short_escape_read v c : short_escape v = Some c -> escape_of (ch c) = Some (inl (utf8_encode v)).
Proof.
  unfold short_escape. intros H.
  repeat match type of H with
  | match ?x with _ => _ end = _ => destruct x; try discriminate
  end; injection H as <-; reflexivity.
Qed.

(** The scanner reads an escape back. *)
Lemma escape_chars_read v : scalar_value v -> escape_text (escape_chars v) v.
Proof.
  intros Hv. unfold escape_chars. destruct (short_escape v) as [c|] eqn:E.
  { apply escape_short. by apply short_escape_read. }
  unfold hex_escape. pose proof Hv as [Hr _].
  assert (forall n, 0 <= v < 16 ^ Z.of_nat n -> hex_value (hex_text n v) = v) as Hx.
  { intros n Hn. unfold hex_value. rewrite hex_text_value by lia. rewrite Z.mod_small; lia. }
  destruct (v <=? 0xFF) eqn:E1; [|destruct (v <=? 0xFFFF) eqn:E2];
    (eapply escape_hex; [reflexivity|by rewrite hex_text_length|apply hex_text_digits|apply Hx; cbn; lia|done]).
Qed.

(** ** The text written *)

Section write.
Context {D : Type} (h : yaml_write_handler_t D) (sofar : D -> list Z) {col : Collects h sofar}.
Context (e0 : yaml_emitter_t D) (base : list Z).
Implicit Types (e : yaml_emitter_t D) (s : yaml_string_t) (T : list Z).

(** [T] has been written since [e0], behind the text [base]. *)
Definition wrote T e : Prop := moved e0 e /\ holds h sofar e (base ++ T).

Definition column e : Z := e.(position).(e_column).

(** [k] characters further on the same line. *)
Definition along (k : Z) e e' : Prop :=
  e'.(position).(indention) = e.(position).(indention)
  /\ e'.(position).(whitespace) = e.(position).(whitespace) /\ column e' = column e + k.

Lemma wrote_PUT T e c (Q : unit -> yaml_emitter_t D -> Prop) :
  wrote T e -> 0x20 <= c <= 0x7E ->
  (forall e', wrote (T ++ [c]) e' -> along 1 e e' -> Q tt e') -> wp strict (PUT c) Q write_failed e.
Proof.
  intros [H1 H2] Hc HQ. eapply wp_mono; [by apply (wp_PUT h sofar e (base ++ T) c)| |done].
  intros [] e' (G1 & G2 & G3). apply HQ.
  - split; [by etrans|by rewrite app_assoc].
  - unfold along, column. by rewrite G3.
Qed.

Lemma wrote_WRITE T e s v (Q : yaml_string_t -> yaml_emitter_t D -> Prop) :
  wrote T e -> char_at s 0 v -> out_char v ->
  (forall e', wrote (T ++ [v]) e' -> along 1 e e' -> Q (str_next s v) e') ->
  wp strict (WRITE s) Q write_failed e.
Proof.
  intros [H1 H2] Hs Hv HQ. unfold WRITE, next_column. apply wp_bind.
  eapply wp_mono; [by apply wp_FLUSH| |done]. intros [] e1 (G1 & G2 & G3 & G4). cbv beta.
  rewrite (cursor_copy s v Hs). cbn [deref]. wp_steps.
  eapply wp_mono; [by apply (wp_put_char h sofar e1 (base ++ T) v)| |done].
  intros [] e2 (F1 & F2 & F3). cbv beta. wp_steps. apply HQ.
  - split; [by etrans; [exact H1|etrans]|]. rewrite app_assoc. by apply holds_position.
  - unfold along, column. cbn. by rewrite F3, G4.
Qed.

Lemma wrote_PUT_BREAK T e (Q : unit -> yaml_emitter_t D -> Prop) :
  wrote T e ->
  (forall e', wrote (T ++ break_octets e0.(layout).(line_break)) e' -> column e' = 0 -> Q tt e') ->
  wp strict PUT_BREAK Q write_failed e.
Proof.
  intros [H1 H2] HQ. eapply wp_mono; [by apply wp_PUT_BREAK| |done].
  intros [] e' (G1 & G2 & G3). apply HQ; [|unfold column; by rewrite G3].
  split; [by etrans|]. rewrite app_assoc. destruct H1 as (_ & Hl & _). by rewrite Hl in G1.
Qed.

Lemma wrote_position T e p : wrote T e -> wrote T (set_position p e).
Proof. intros [H1 H2]. split; [done|by apply holds_position]. Qed.

Lemma along_trans i j k e1 e2 e3 : along i e1 e2 -> along j e2 e3 -> k = i + j -> along k e1 e3.
Proof. unfold along. intros (-> & -> & ->) (-> & -> & ->) ->. split_and!; [done|done|lia]. Qed.

Lemma wrote_hex n : forall T e v (Q : unit -> yaml_emitter_t D -> Prop),
  wrote T e ->
  (forall e', wrote (T ++ hex_text n v) e' -> along (Z.of_nat n) e e' -> Q tt e') ->
  wp strict (write_hex n v) Q write_failed e.
Proof.
  induction n as [|n IH]; intros T e v Q He HQ; cbn [write_hex].
  { wp_steps. apply HQ; [by rewrite app_nil_r|]. unfold along. split_and!; [done|done|lia]. }
  wp_step. eapply wrote_PUT; [exact He|apply hex_digit_ascii, hex_digit_range|]. intros e1 H1 A1.
  eapply IH; [exact H1|]. intros e2 H2 A2. apply HQ; [by rewrite <- app_assoc in H2|].
  eapply along_trans; [done|done|lia].
Qed.

Lemma wrote_escape T e v (Q : unit -> yaml_emitter_t D -> Prop) :
  wrote T e ->
  (forall e' k, wrote (T ++ BACKSLASH :: escape_chars v) e' -> along (1 + k) e e' -> 0 <= k -> Q tt e') ->
  wp strict (write_escape v) Q write_failed e.
Proof.
  intros He HQ. unfold write_escape. wp_step. eapply wrote_PUT; [exact He|by split|].
  change (ch "\") with BACKSLASH. intros e1 H1 A1. unfold escape_chars in HQ.
  destruct (short_escape v) as [c|] eqn:Es.
  { eapply wrote_PUT; [exact H1|by eapply short_escape_ascii|]. intros e2 H2 A2.
    apply (HQ e2 1); [by rewrite <- app_assoc in H2|by eapply along_trans|lia]. }
  assert (forall c n, 0x20 <= ch c <= 0x7E -> hex_escape v = ch c :: hex_text n v ->
            wp strict (put c;; write_hex n v) Q write_failed e1) as Hx.
  { intros c n Hc Hh. wp_step. eapply wrote_PUT; [exact H1|done|]. intros e2 H2 A2.
    eapply wrote_hex; [exact H2|]. intros e3 H3 A3. apply (HQ e3 (1 + Z.of_nat n)); [|..].
    - rewrite Hh. by rewrite <- !app_assoc in H3.
    - eapply along_trans; [exact A1|by eapply along_trans|done].
    - lia. }
  unfold hex_escape in Hx.
  destruct (v <=? 0xFF); [|destruct (v <=? 0xFFFF)]; apply Hx; done.
Qed.

(** An indicator, with a space in front of it where one is needed. *)
Definition gap (need : bool) e : list Z := if need && negb e.(position).(whitespace) then [32] else [].

Lemma wrote_all T e i (Q : unit -> yaml_emitter_t D -> Prop) :
  wrote T e -> Forall (fun c => 0x20 <= c <= 0x7E) i ->
  (forall e', wrote (T ++ i) e' -> along (Z.of_nat (length i)) e e' -> Q tt e') ->
  wp strict (write_all (STRING_ASSIGN i (Z.of_nat (length i)))) Q write_failed e.
Proof.
  intros He Hi HQ. eapply wp_mono; [eapply (wp_str_loop i
    (fun k _ e' => wrote (T ++ take k i) e' /\ along (Z.of_nat k) e e'))| |done].
  - apply cursor_assign; [symmetry; by apply utf8_text_ascii|].
    eapply Forall_impl; [exact Hi|]. unfold code_value. intros. lia.
  - rewrite app_nil_r. split; [done|]. unfold along. split_and!; [done|done|lia].
  - intros s k v [] e1 Hs Hv [H1 A1]. wp_step.
    eapply wrote_WRITE; [exact H1|by eapply cursor_here|eapply out_ascii, (Forall_lookup_1 _ _ _ _ Hi Hv)|].
    intros e2 H2 A2. wp_steps. split; [done|]. split; [|eapply along_trans; [done|done|lia]].
    by rewrite (take_S_r i k v Hv), app_assoc.
  - intros [] e' [H1 H2]. rewrite firstn_all in H1. by apply HQ.
Qed.

Lemma wrote_indicator T e i need ws ind (Q : unit -> yaml_emitter_t D -> Prop) :
  wrote T e -> Forall (fun c => 0x20 <= c <= 0x7E) i ->
  (forall e', wrote (T ++ gap need e ++ i) e' -> e'.(position).(whitespace) = ws ->
     e'.(position).(indention) = e.(position).(indention) && ind ->
     column e' = column e + Z.of_nat (length (gap need e ++ i)) -> Q tt e') ->
  wp strict (yaml_emitter_write_indicator i need ws ind) Q write_failed e.
Proof.
  intros He Hi HQ. unfold yaml_emitter_write_indicator. wp_step. wp_step. cbv beta.
  assert (forall e1, wrote (T ++ gap need e) e1 -> along (Z.of_nat (length (gap need e))) e e1 ->
    wp strict (write_all (STRING_ASSIGN i (Z.of_nat (length i)));;
      modify (set_whitespace ws);;
      modify (fun e => set_indention (e.(position).(indention) && ind) e)) Q write_failed e1) as Hrest.
  { intros e1 H1 A1. wp_step. eapply wrote_all; [exact H1|done|]. intros e2 H2 A2. wp_steps.
    pose proof (along_trans _ _ _ _ _ _ A1 A2 eq_refl) as (A3 & _ & A4).
    apply HQ; [|done|cbn; by rewrite A3|unfold column in *; cbn; rewrite A4, length_app; lia].
    rewrite <- app_assoc in H2. by apply wrote_position, wrote_position. }
  unfold gap in Hrest |- *. wp_step. destruct (need && _).
  - eapply wrote_PUT; [exact He|by split|]. intros e1 H1 A1. by apply Hrest.
  - apply wp_ret. apply Hrest; [by rewrite app_nil_r|]. unfold along. split_and!; [done|done|cbn; lia].
Qed.

(** A new line, indented. *)
Definition line_start : list Z :=
  break_octets e0.(layout).(line_break) ++ replicate (Z.to_nat e0.(machine).(e_indent)) 32.

Lemma while_S {S'} n (c : prog S' bool) (b : prog S' unit) :
  while (S n) c b = (x ← c; if (x : bool) then (b;; while n c b) else mret tt).
Proof. done. Qed.

Lemma wrote_pad n : forall T e (Q : unit -> yaml_emitter_t D -> Prop),
  wrote T e -> Z.of_nat n = e0.(machine).(e_indent) - column e ->
  (forall e', wrote (T ++ replicate n 32) e' -> column e' = e0.(machine).(e_indent) -> Q tt e') ->
  wp strict (while (S n) (gets (fun e => e.(position).(e_column) <? e0.(machine).(e_indent))) (put " "))
    Q write_failed e.
Proof.
  induction n as [|n IH]; intros T e Q He Hn HQ; rewrite while_S; wp_step; wp_step; cbv beta;
    fold (column e).
  - assert ((column e <? e0.(machine).(e_indent)) = false) as -> by lia. wp_steps.
    apply HQ; [by rewrite app_nil_r|lia].
  - assert ((column e <? e0.(machine).(e_indent)) = true) as -> by lia. wp_step.
    eapply wrote_PUT; [exact He|by split|]. intros e1 H1 (_ & _ & A1).
    eapply IH; [exact H1|lia|]. intros e2 H2 C2. apply HQ; [|done].
    change (ch " ") with 32 in H2. by rewrite <- app_assoc in H2.
Qed.

Lemma wrote_indent T e (Q : unit -> yaml_emitter_t D -> Prop) :
  wrote T e -> 0 <= e0.(machine).(e_indent) ->
  (e.(position).(indention) = false \/ e0.(machine).(e_indent) < column e) ->
  (forall e', wrote (T ++ line_start) e' -> column e' = e0.(machine).(e_indent) ->
     e'.(position).(whitespace) = true -> Q tt e') ->
  wp strict yaml_emitter_write_indent Q write_failed e.
Proof.
  intros He Hi Hp HQ. unfold yaml_emitter_write_indent. wp_step. wp_step. cbv beta.
  pose proof He as [(_ & _ & Hm & _) _]. rewrite Hm.
  assert ((e0.(machine).(e_indent) >=? 0) = true) as -> by lia. wp_step. wp_step. cbv beta. wp_step.
  assert (negb (indention (position e)) || (e_column (position e) >? e_indent (machine e0))
    || ((e_column (position e) =? e_indent (machine e0)) && negb (whitespace (position e))) = true) as ->.
  { destruct Hp as [-> |Hp]; [done|]. unfold column in Hp.
    assert ((e_column (position e) >? e_indent (machine e0)) = true) as -> by lia. by rewrite orb_true_r. }
  eapply wrote_PUT_BREAK; [exact He|]. intros e1 H1 C1. wp_step. wp_step. cbv beta. wp_step.
  fold (column e1). rewrite C1, Z.sub_0_r.
  eapply wrote_pad; [exact H1|lia|]. intros e2 H2 C2. unfold set_flags. wp_steps. apply HQ; [|done|done].
  unfold line_start. rewrite app_assoc. by apply wrote_position, wrote_position.
Qed.

(** ** The double-quoted scalar *)

Context (cs : list Z).

(** [T] spells the characters in front of the [i]-th one, whatever follows:
    any continuation; or, behind a fold, one that does not begin with a blank;
    or, behind a fold and a backslash, the space that is next. *)
Inductive opens (i : nat) (T : list Z) : bool -> Prop :=
| opens_any spaces :
    (forall w v, quoted spaces w v -> quoted false (T ++ w) (take i cs ++ v)) -> opens i T spaces
| opens_solid c :
    cs !! i = Some c -> c <> 32 ->
    (forall w v, solid w -> quoted false w v -> quoted false (T ++ w) (take i cs ++ v)) ->
    opens i T true
| opens_escaped :
    cs !! i = Some 32 ->
    (forall w v, quoted false w v -> quoted false (T ++ 32 :: w) (take i cs ++ 32 :: v)) ->
    opens i T true.

Lemma quoted_weaken b w v : quoted true w v -> quoted b w v.
Proof. intros H. inversion H; subst; by constructor. Qed.

Lemma take_snoc i c (v : list Z) : cs !! i = Some c -> take (S i) cs ++ v = take i cs ++ c :: v.
Proof. intros H. by rewrite (take_S_r cs i c H), <- app_assoc. Qed.

(** A character written as it is, or an escape. *)
Lemma opens_piece i T spaces c piece :
  opens i T spaces -> cs !! i = Some c -> c <> 32 ->
  (forall b w v, quoted false w v -> quoted b (piece ++ w) (c :: v)) ->
  (forall w, solid (piece ++ w)) -> opens (S i) (T ++ piece) false.
Proof.
  intros Ho Hc Hne Hq Hs. apply opens_any. intros w v Hw. rewrite <- app_assoc, (take_snoc i c v Hc).
  destruct Ho as [spaces H|c' _ _ H|Hc' _]; [by apply H, Hq|apply H; [apply Hs|by apply Hq]|congruence].
Qed.

(** A space written as it is. *)
Lemma opens_space i T spaces :
  opens i T spaces -> cs !! i = Some 32 -> opens (S i) (T ++ [32]) true.
Proof.
  intros Ho Hc. apply opens_any. intros w v Hw. rewrite <- app_assoc, (take_snoc i 32 v Hc).
  destruct Ho as [spaces H|c' Hc' Hn _|_ H]; [apply H; by constructor|congruence|].
  apply H. by apply quoted_weaken.
Qed.

(** A space at which the line is folded. *)
Lemma opens_fold i T c :
  opens i T false -> cs !! i = Some 32 -> cs !! S i = Some c ->
  e0.(layout).(line_break) <> YAML_ANY_BREAK -> 0 < e0.(machine).(e_indent) ->
  opens (S i) (T ++ line_start ++ (if c =? 32 then [BACKSLASH] else [])) true.
Proof.
  intros Ho Hc Hn Hbr Hi. inversion Ho as [? H|? ? ? ?|]; subst.
  assert (exists k, Z.to_nat e0.(machine).(e_indent) = S k) as [k Hk].
  { exists (pred (Z.to_nat (e0.(machine).(e_indent)))). lia. }
  assert (forall w v, solid w -> quoted false w v -> quoted false (T ++ line_start ++ w) (take (S i) cs ++ v)) as Hf.
  { intros w v Hs Hw. rewrite (take_snoc i 32 v Hc). apply H. unfold line_start. rewrite Hk, <- app_assoc.
    apply quoted_fold; [|done|done]. unfold line_end, break_octets.
    destruct (line_break (layout e0)); [done|by right; right|by left|by right; left]. }
  destruct (c =? 32) eqn:E.
  - apply Z.eqb_eq in E as ->. apply opens_escaped; [done|]. intros w v Hw.
    rewrite <- !app_assoc. apply Hf; [done|]. apply (quoted_escape false 32 [32]); [|done].
    by apply escape_short.
  - apply Z.eqb_neq in E. eapply opens_solid; [done|done|]. intros w v Hs Hw.
    rewrite app_nil_r, <- app_assoc. by apply Hf.
Qed.

Lemma opens_end T spaces : opens (length cs) T spaces -> quoted false T cs.
Proof.
  intros [? H|c Hc _ _|Hc _].
  - specialize (H [] [] (quoted_nil _)). by rewrite !app_nil_r, firstn_all in H.
  - apply lookup_lt_Some in Hc. lia.
  - apply lookup_lt_Some in Hc. lia.
Qed.

(** A line is not broken twice in a row: after a fold something is written in
    front of the next one. *)
Definition laid (spaces : bool) e : Prop :=
  e.(position).(indention) = false
  \/ (if spaces then e0.(machine).(e_indent) <= column e else e0.(machine).(e_indent) < column e).

Lemma laid_along k spaces spaces' e e' : along k e e' -> 0 < k -> laid spaces e -> laid spaces' e'.
Proof.
  intros (H1 & _ & H2) Hk [H|H]; [left; congruence|]. right. destruct spaces, spaces'; lia.
Qed.

Lemma inner_next s i : cursor s cs i -> cs !! i = Some 32 -> str_inner s = true -> exists c, cs !! S i = Some c.
Proof.
  intros Hs Hc Hin. apply lookup_lt_is_Some_2. apply andb_true_iff in Hin as [_ Hin%negb_true_iff%Nat.eqb_neq].
  pose proof (lookup_lt_Some _ _ _ Hc). destruct (decide (S i = length cs)) as [E|]; [|lia].
  exfalso. apply Hin. destruct Hs as [_ _ -> _ ->].
  rewrite <- offset_all, <- E, (offset_S cs i 32 Hc). cbn. lia.
Qed.

(** One turn of the loop over the text, on a character that is escaped. *)
Definition escape_test s (uni : bool) : option bool :=
  (option_map negb (str_is_printable s)
   ||? (Some (negb uni) &&? option_map negb (str_is_ascii s))
   ||? str_is_bom s ||? str_is_break_at s 0
   ||? str_check_at s (ch "034") 0 ||? str_check_at s (ch "\") 0)%str.

Lemma escape_test_value s uni v : char_at s 0 v -> exists b, escape_test s uni = Some b
  /\ (b = false -> printable_char v = true /\ (v = 32 \/ word_char v = true)) /\ (v = 32 -> b = false).
Proof.
  intros Hch. unfold escape_test.
  rewrite (printable_at s v Hch), (ascii_at s v Hch), (bom_at s v Hch),
      (break_at s 0 v Hch), !(check_ascii s 0 v Hch) by done.
  exists (negb (printable_char v) || (negb uni && negb (v <=? 0x7F)) || (v =? 0xFEFF) || break_char v
          || (v =? 34) || (v =? 92)). split_and!.
  - change (ch "034") with 34. change (ch "\") with 92.
    destruct (printable_char v), uni, (v <=? 0x7F), (v =? 0xFEFF), (break_char v), (v =? 34); reflexivity.
  - intros H. apply orb_false_iff in H as [[[[[H1 _]%orb_false_iff _]%orb_false_iff H2]%orb_false_iff
      H3]%orb_false_iff H4]. apply negb_false_iff in H1. split; [done|].
    destruct (v =? 32) eqn:E; [left; lia|right]. unfold word_char, QUOTE, BACKSLASH.
    destruct (printable_out v H1) as [-> _]. rewrite H3, H4, !andb_true_r, andb_true_l.
    apply negb_true_iff. unfold c_blankz, c_blank, c_breakz.
    change (c_break v) with (break_char v). rewrite H2. change (ch " ") with 32.
    unfold printable_char in H1. lia.
  - intros ->. by rewrite andb_false_r.
Qed.

Definition scalar_step (allow : bool) s (spaces : bool) : eprog D (yaml_string_t * bool) :=
  uni ← gets (fun e => e.(layout).(unicode));
  escape ← deref (escape_test s uni);
  if (escape : bool) then
    '(v, w) ← deref (str_value s);
    write_escape v;;
    mret (str_at s (s.(str_ptr) + w), false)
  else
    space ← deref (str_is_space_at s 0);
    if (space : bool) then
      wide ← too_wide;
      s' ← (if allow && negb spaces && wide && str_inner s then
              yaml_emitter_write_indent;;
              next ← deref (str_is_space_at s 1);
              (if (next : bool) then put "\" else mret tt);;
              deref (str_move s)
            else WRITE s);
      mret (s', true)
    else s' ← WRITE s; mret (s', false).

Definition inside (T0 : list Z) (i : nat) (spaces : bool) e : Prop :=
  laid spaces e /\ exists T, wrote (T0 ++ T) e /\ opens i T spaces.

Context (Hbreak : e0.(layout).(line_break) <> YAML_ANY_BREAK) (Hindent : 0 < e0.(machine).(e_indent)).

Lemma wrote_fold T e s i :
  wrote T e -> laid false e -> cursor s cs i -> cs !! i = Some 32 -> str_inner s = true ->
  wp strict (yaml_emitter_write_indent;;
             next ← deref (str_is_space_at s 1);
             (if (next : bool) then put "\" else mret tt);;
             deref (str_move s))
    (fun s' e' => s' = str_next s 32 /\ laid true e' /\ exists c, cs !! S i = Some c
       /\ wrote (T ++ line_start ++ (if c =? 32 then [BACKSLASH] else [])) e') write_failed e.
Proof.
  intros He Hl Hs Hc Hin. destruct (inner_next s i Hs Hc Hin) as [c Hn]. wp_step.
  eapply wrote_indent; [exact He|lia|exact Hl|]. intros e1 H1 C1 _.
  pose proof (cursor_next s cs i 32 Hs Hc) as Hch. rewrite (nth_lookup_Some cs (S i) 0 c Hn) in Hch.
  rewrite (space_at s 1 c Hch). cbn [deref]. wp_step. wp_step. cbv beta. wp_step.
  pose proof (cursor_here s cs i 32 Hs Hc) as Hhere.
  assert (forall e2, laid true e2 -> wrote (T ++ line_start ++ (if c =? 32 then [BACKSLASH] else [])) e2 ->
    wp strict (deref (str_move s)) (fun s' e' => s' = str_next s 32 /\ laid true e' /\ exists c, cs !! S i = Some c
       /\ wrote (T ++ line_start ++ (if c =? 32 then [BACKSLASH] else [])) e') write_failed e2) as Hend.
  { intros e2 Hl2 H2. rewrite (cursor_move s 32 Hhere). cbn [deref]. wp_steps. eauto 10. }
  destruct (c =? 32).
  - eapply wrote_PUT; [exact H1|by split|]. intros e2 H2 A2. apply Hend; [|by rewrite app_assoc].
    right. destruct A2 as (_ & _ & A2). lia.
  - apply wp_ret. apply Hend; [right; lia|by rewrite app_nil_r].
Qed.

Lemma wrote_scalar_step allow T0 s i v spaces e :
  Forall scalar_value cs -> cursor s cs i -> cs !! i = Some v -> inside T0 i spaces e ->
  wp strict (scalar_step allow s spaces)
    (fun r e' => r.1 = str_next s v /\ inside T0 (S i) r.2 e') write_failed e.
Proof.
  intros Hcs Hs Hv (Hl & T & He & Ho). pose proof (cursor_here s cs i v Hs Hv) as Hch.
  unfold scalar_step. wp_step. wp_step. cbv beta.
  destruct (escape_test_value s (unicode (layout e)) v Hch) as (b & -> & Hb & Hsp).
  cbn [deref]. wp_step. wp_step. cbv beta. destruct b.
  - rewrite (cursor_value s v Hch). cbn [deref]. wp_step. wp_step. cbv beta. wp_step.
    eapply wrote_escape; [exact He|]. intros e1 k H1 A1 Hk. wp_steps. split; [done|].
    split; [eapply laid_along; [done|lia|done]|]. exists (T ++ BACKSLASH :: escape_chars v).
    split; [by rewrite app_assoc|]. eapply opens_piece; [done|done|by intros ->; specialize (Hsp eq_refl)| |done].
    intros b w u Hw. apply quoted_escape; [|done]. apply escape_chars_read. by eapply Forall_lookup_1.
  - destruct (Hb eq_refl) as [Hp Hcase]. rewrite (space_at s 0 v Hch). cbn [deref]. wp_step. wp_step. cbv beta.
    destruct (v =? 32) eqn:E32.
    + apply Z.eqb_eq in E32 as ->. unfold too_wide. wp_step. wp_step. cbv beta. wp_step.
      destruct (_ && str_inner s) eqn:Ef.
      * apply andb_true_iff in Ef as [Ef Hin].
        assert (spaces = false) as -> by (destruct allow, spaces; done).
        eapply wp_mono; [by eapply wrote_fold| |done].
        intros s' e1 (-> & Hl1 & c & Hn & H1). wp_steps. split; [done|]. split; [done|].
        exists (T ++ line_start ++ (if c =? 32 then [BACKSLASH] else [])).
        split; [by rewrite app_assoc|]. by apply opens_fold.
      * eapply wrote_WRITE; [exact He|done|by apply printable_out|]. intros e1 H1 A1. wp_steps.
        split; [done|]. split; [by eapply laid_along|]. exists (T ++ [32]).
        split; [by rewrite app_assoc|by eapply opens_space].
    + wp_step. eapply wrote_WRITE; [exact He|done|by apply printable_out|]. intros e1 H1 A1. wp_steps.
      split; [done|]. split; [by eapply laid_along|]. exists (T ++ [v]). split; [by rewrite app_assoc|].
      destruct Hcase as [->|Hw]; [done|].
      eapply opens_piece; [done|done|lia|by intros b w u; constructor|]. intros w. cbn.
      by apply word_char_facts.
Qed.

Lemma wrote_double_quoted allow T e :
  Forall scalar_value cs -> wrote T e ->
  wp strict (yaml_emitter_write_double_quoted_scalar (utf8_text cs) (Z.of_nat (length (utf8_text cs))) allow)
    (fun _ e' => exists w, quoted false w cs /\ wrote (T ++ gap true e ++ QUOTE :: w ++ [QUOTE]) e')
    write_failed e.
Proof.
  intros Hcs He. unfold yaml_emitter_write_double_quoted_scalar. wp_step.
  eapply wrote_indicator; [exact He|by repeat constructor|]. intros e1 H1 _ Hi1 _. wp_step.
  eapply wp_mono; [eapply (wp_str_loop cs (inside (T ++ gap true e ++ [QUOTE])))| |done].
  - apply cursor_assign; [done|]. eapply Forall_impl; [exact Hcs|].
    unfold scalar_value, code_value. intros. lia.
  - split; [left; rewrite Hi1; apply andb_false_r|]. exists []. rewrite app_nil_r.
    split; [done|]. by apply opens_any.
  - intros s i v spaces e2 Hs Hv Hin. by apply (wrote_scalar_step allow).
  - intros spaces e2 (_ & T2 & H2 & Ho). wp_step.
    eapply wrote_indicator; [exact H2|by repeat constructor|]. intros e3 H3 _ _ _. unfold set_flags. wp_steps.
    exists T2. split; [by eapply opens_end|]. apply wrote_position, wrote_position.
    cbn [gap andb app] in H3. rewrite <- !app_assoc in H3. exact H3.
Qed.
End write.
