(* ===== verification/YamlQuoteTrip.v ===== *)
(** * libyaml: a double-quoted scalar from the emitter to the scanner

    What the emitter writes for a text in double quotes, the scanner of the
    same library reads back as exactly this text, for every text of Unicode
    characters, whatever is escaped and wherever lines are folded, and however
    the octets are encoded and cut into buffers on their way. *)

From Stdlib Require Import ZArith Lia ZifyNat ZifyBool Ascii String.
From stdpp Require Import base list option strings.
From S2P Require Import Prelude YamlData YamlReader YamlChars YamlScanner YamlFrame YamlUtf8 YamlBuffer YamlCursor YamlText YamlTotal YamlDelivery YamlQuoted.
From S2P Require Import YamlWriter YamlEmitWrite YamlEmitText YamlQuoteWrite.

#[local] Open Scope Z_scope.

(** ** The round trip *)

(** What the scanner does at the opening quote of [text]. *)
Definition scans_as (text value : list Z) : Prop :=
  forall rest p, spells (text ++ rest) p -> cursor 1 p ->
  wp strict (yaml_parser_scan_flow_scalar false)
    (fun t q => t.(token_data) = YAML_SCALAR_TOKEN value (Z.of_nat (length value))
                                   YAML_DOUBLE_QUOTED_SCALAR_STYLE
                /\ spells rest q /\ reader_only p q) never p.

Lemma quoted_scans b w v : quoted b w v -> scans_as (QUOTE :: w ++ [QUOTE]) (utf8_text v).
Proof.
  intros Hq rest p Hs Hc. cbn in Hs. rewrite <- app_assoc in Hs. by eapply run_scan_flow_scalar.
Qed.

(** C2: Round trip of double-quoted scalars: on a text of Unicode characters
    [yaml_emitter_write_double_quoted_scalar] returns, unless the handler
    fails; it has then written, behind what was there and a space where one is
    needed, a text that [yaml_parser_scan_flow_scalar], at its first character
    in any input, turns into the token of this scalar, consuming exactly the
    text; it neither fails nor touches the parser beyond its reader. *)
Theorem double_quoted_roundtrip {D} (h : yaml_write_handler_t D) (sofar : D -> list Z)
    {col : Collects h sofar} (e : yaml_emitter_t D) (base cs : list Z) (allow_breaks : bool) :
  holds h sofar e base -> e.(layout).(line_break) <> YAML_ANY_BREAK -> 0 < e.(machine).(e_indent) ->
  Forall scalar_value cs ->
  wp strict (yaml_emitter_write_double_quoted_scalar (utf8_text cs)
               (Z.of_nat (length (utf8_text cs))) allow_breaks)
    (fun _ e' => exists text,
       holds h sofar e' (base ++ (if e.(position).(whitespace) then [] else [32]) ++ text)
       /\ moved e e' /\ scans_as text (utf8_text cs))
    write_failed e.
Proof.
  intros He Hb Hi Hcs.
  eapply wp_mono; [apply (wrote_double_quoted h sofar e base cs Hb Hi allow_breaks [] e Hcs)| |done].
  - split; [done|]. by rewrite app_nil_r.
  - intros _ e' (w & Hq & Hm & Hh). exists (QUOTE :: w ++ [QUOTE]). split_and!.
    + unfold gap in Hh. by destruct (whitespace (position e)).
    + done.
    + by eapply quoted_scans.
Qed.

(** ** A concrete trip *)

(** A quote, a letter beyond ASCII that is written as it is, blanks at which a
    line is folded, a control character, and one beyond the basic plane. *)
Definition trip_chars : list Z := [0x22; 0xE9; 0x20; 0x61; 0x20; 0x20; 0x62; 0x07; 0x1F600].

(** What is written for it in lines of five characters. *)
Definition trip_octets : list Z :=
  [0x22; 0x5C; 0x22; 0xC3; 0xA9; 0x20; 0x61; 0x0A; 0x20; 0x20; 0x5C; 0x20; 0x62]
  ++ bytes_of "\a\U0001F600" ++ [0x22].

Definition trip_emitter : yaml_emitter_t string_output :=
  set_position (mkPosition 0 0 true true 0) (set_unicode true (set_line_break YAML_LN_BREAK
    (set_best_width 5 (set_e_indent 2 (set_out_encoding YAML_UTF8_ENCODING
      (set_output (Some (yaml_string_write_handler, mkStringOutput [] 1000)) yaml_emitter_initialize)))))).

Definition trip_write : prog (yaml_emitter_t string_output) unit :=
  yaml_emitter_write_double_quoted_scalar (utf8_text trip_chars) (Z.of_nat (length (utf8_text trip_chars))) true.

Definition trip_scan : yaml_prog yaml_token_t := CACHE 1;; yaml_parser_scan_flow_scalar false.

Lemma trip_holds : holds yaml_string_write_handler written trip_emitter [].
Proof. constructor; [apply Forall_nil_2|done|done|done|]. by exists [], [], (mkStringOutput [] 1000). Qed.

Lemma trip_writes : exists e', trip_write trip_emitter = Ret tt e'
  /\ e'.(writing).(out_buffer) = trip_octets /\ e'.(writing).(out_encoding) = YAML_UTF8_ENCODING
  /\ e'.(writing).(output) = Some (yaml_string_write_handler, mkStringOutput [] 1000).
Proof. eexists. split; [vm_compute; reflexivity|]. split_and!; reflexivity. Qed.

(** Octets that spell a text which scans are scanned. *)
Lemma scans_opened text value :
  scans_as text value -> Forall text_char text -> Z.of_nat (length (utf8_text text)) < 1000 ->
  exists t q, trip_scan (yaml_parser_initialize (octets_of_text YAML_UTF8_ENCODING true text)) = Ret t q
    /\ t.(token_data) = YAML_SCALAR_TOKEN value (Z.of_nat (length value)) YAML_DOUBLE_QUOTED_SCALAR_STYLE.
Proof.
  intros Hs Ht Hl. set (p := yaml_parser_initialize _).
  assert (spells (text ++ []) p) as Hp.
  { rewrite app_nil_r. apply opened_spells; [by split|done|]. unfold octets_of_text. rewrite length_app.
    change (raw_text YAML_UTF8_ENCODING text) with (utf8_text text). cbn. unfold MAX_FILE_SIZE. lia. }
  assert (wp strict trip_scan (fun t _ => t.(token_data) = YAML_SCALAR_TOKEN value (Z.of_nat (length value))
    YAML_DOUBLE_QUOTED_SCALAR_STYLE) never p) as H.
  { unfold trip_scan. wp_step. eapply run_CACHE; [by apply at_text_start|done|]. intros q Hq _.
    eapply wp_mono; [apply (Hs []); apply Hq| |done]. by intros t r (? & _). }
  unfold wp in H. destruct (trip_scan p) as [t q| | |]; [|done..]. by exists t, q.
Qed.

(** What was written, in the words of the theorem, is what is in the buffer. *)
Lemma trip_reads :
  wp strict trip_write (fun _ e' => exists text,
    holds yaml_string_write_handler written e'
      ([] ++ (if trip_emitter.(position).(whitespace) then [] else [32]) ++ text)
    /\ moved trip_emitter e' /\ scans_as text (utf8_text trip_chars)) write_failed trip_emitter ->
  exists t q, trip_scan (yaml_parser_initialize (utf8_encode 0xFEFF ++ trip_octets)) = Ret t q
    /\ t.(token_data) = YAML_SCALAR_TOKEN (utf8_text trip_chars)
         (Z.of_nat (length (utf8_text trip_chars))) YAML_DOUBLE_QUOTED_SCALAR_STYLE.
Proof.
  intros H. destruct trip_writes as (e' & Hw & Hb & He & Ho).
  pose proof (wp_result _ _ _ _ _ _ _ H Hw) as (text & [Hc _ _ _ Hs] & _ & Ht). cbn [app] in Hc, Hs.
  change (whitespace (position trip_emitter)) with true in Hc, Hs. cbn [app] in Hc, Hs.
  destruct Hs as (dn & rs & d & Htx & Hd1 & Hd2 & Hd3). rewrite Ho in Hd1. injection Hd1 as Hd1.
  rewrite He, <- Hd1 in Hd2. cbn [written] in Hd2. rewrite Hb in Hd3.
  assert (utf8_text text = trip_octets) as Hu.
  { rewrite Htx, utf8_text_app, <- Hd3. change (utf8_text dn) with (raw_text YAML_UTF8_ENCODING dn).
    by rewrite <- Hd2. }
  destruct (scans_opened text _ Ht) as (t & q & H1 & H2).
  - eapply Forall_impl; [exact Hc|]. intros c Hcc. exact (proj1 Hcc).
  - by rewrite Hu.
  - exists t, q. split; [|exact H2]. rewrite <- Hu.
    assert (octets_of_text YAML_UTF8_ENCODING true text = utf8_encode 0xFEFF ++ utf8_text text) as E by reflexivity.
    rewrite E in H1. exact H1.
Qed.

Lemma double_quoted_roundtrip_witness :
  exists t q, trip_scan (yaml_parser_initialize (utf8_encode 0xFEFF ++ trip_octets)) = Ret t q
    /\ t.(token_data) = YAML_SCALAR_TOKEN (utf8_text trip_chars)
         (Z.of_nat (length (utf8_text trip_chars))) YAML_DOUBLE_QUOTED_SCALAR_STYLE.
Proof.
  apply trip_reads.
  apply (double_quoted_roundtrip yaml_string_write_handler written trip_emitter [] trip_chars true).
  - exact trip_holds.
  - discriminate.
  - reflexivity.
  - repeat (apply Forall_cons_2; [unfold scalar_value; lia|]). apply Forall_nil_2.
Defined.
