(* ===== verification/YamlEmitter.v ===== *)
(** * libyaml: the emitter

    The rest of [emitter.c]: the queue of events and the look-ahead of
    [yaml_emitter_emit], the analysis of an event's anchor, tag and scalar, the
    choice of a scalar style, and the state machine
    [yaml_emitter_state_machine] with one routine per state.  The event passed
    to these routines is the head of the queue. *)

From Stdlib Require Import ZArith Lia Ascii String.
From stdpp Require Import base list option strings.
From S2P Require Import Prelude YamlData YamlReader YamlChars YamlString YamlWriter YamlEmitWrite.

#[local] Open Scope Z_scope.
#[local] Open Scope str_scope.

(** ** Look-ahead *)

Definition event_level (ev : yaml_event_data) : Z :=
  match ev with
  | YAML_STREAM_START_EVENT _ | YAML_DOCUMENT_START_EVENT _ _ _
  | YAML_SEQUENCE_START_EVENT _ _ _ _ | YAML_MAPPING_START_EVENT _ _ _ _ => 1
  | YAML_STREAM_END_EVENT | YAML_DOCUMENT_END_EVENT _
  | YAML_SEQUENCE_END_EVENT | YAML_MAPPING_END_EVENT => -1
  | _ => 0
  end.

(** Does the level come back to 0 within the queue? *)
Fixpoint level_closes (level : Z) (evs : list yaml_event_t) : bool :=
  match evs with
  | [] => false
  | ev :: r =>
      let level := level + event_level ev.(event_data) in
      (level =? 0) || level_closes level r
  end.

Definition need_more_events (evs : list yaml_event_t) : bool :=
  match evs with
  | [] => true
  | ev :: _ =>
      let wait accumulate :=
        if Z.of_nat (length evs) >? accumulate then false else negb (level_closes 0 evs) in
      match ev.(event_data) with
      | YAML_DOCUMENT_START_EVENT _ _ _ => wait 1
      | YAML_SEQUENCE_START_EVENT _ _ _ _ => wait 2
      | YAML_MAPPING_START_EVENT _ _ _ _ => wait 3
      | _ => false
      end
  end.

Section emitter.
Context {D : Type}.
Implicit Types (ev : yaml_event_data).

Definition yaml_emitter_set_emitter_error {A} (msg : string) : eprog D A :=
  modify (set_e_error YAML_EMITTER_ERROR);;
  modify (set_e_problem (Some msg));;
  fail.

Definition yaml_emitter_need_more_events : eprog D bool :=
  gets (fun e => need_more_events e.(machine).(e_events)).

(** ** Directives and indentation *)

(** The directives from [start] to [top]. *)
Definition emitted_directives (e : yaml_emitter_t D) : list yaml_tag_directive_t :=
  rev e.(machine).(e_tag_directives).(items).

Definition yaml_emitter_append_tag_directive (value : yaml_tag_directive_t)
    (allow_duplicates : bool) : eprog D unit :=
  ds ← gets emitted_directives;
  if existsb (fun d => strcmp_eq value.(td_handle) d.(td_handle)) ds then
    if allow_duplicates then mret tt
    else yaml_emitter_set_emitter_error "duplicate %TAG directive"
  else push_e_tag_directive (mkTagDirective (cstr value.(td_handle)) (cstr value.(td_prefix))).

Definition yaml_emitter_increase_indent (flow indentless : bool) : eprog D unit :=
  i ← gets (fun e => e.(machine).(e_indent));
  push_e_indent i;;
  best ← gets (fun e => e.(layout).(best_indent));
  if i <? 0 then modify (set_e_indent (if flow then best else 0))
  else if negb indentless then modify (set_e_indent (i + best))
  else mret tt.

(** ** Analysis *)

Definition yaml_emitter_analyze_version_directive (v : yaml_version_directive_t) : eprog D unit :=
  if negb (v.(major) =? 1) || (negb (v.(minor) =? 1) && negb (v.(minor) =? 2))
  then yaml_emitter_set_emitter_error "incompatible %YAML directive" else mret tt.

(** The characters of a string up to an end, each tested as in
    [while (p < end) { if (!IS_ALPHA(string)) error; MOVE(string); }]. *)
Definition all_alpha (s : yaml_string_t) (last : nat) (msg : string) : eprog D unit :=
  loop (length s.(str_text) + 2) (fun s =>
    if (last <=? s.(str_ptr))%nat then mret (inr tt)
    else
      a ← deref (str_is_alpha s);
      if (a : bool) then s' ← deref (str_move s); mret (inl s')
      else yaml_emitter_set_emitter_error msg) s.

Definition yaml_emitter_analyze_tag_directive (d : yaml_tag_directive_t) : eprog D unit :=
  let handle := cstr d.(td_handle) in
  let prefix := cstr d.(td_prefix) in
  match handle with
  | [] => yaml_emitter_set_emitter_error "tag handle must not be empty"
  | c :: _ =>
      if negb (c =? ch "!") then
        yaml_emitter_set_emitter_error "tag handle must start with '!'"
      else if negb (bool_decide (last handle = Some (ch "!"))) then
        yaml_emitter_set_emitter_error "tag handle must end with '!'"
      else
        all_alpha (mkString handle 1 (length handle)) (length handle - 1)
          "tag handle must contain alphanumerical characters only";;
        if bool_decide (prefix = []) then
          yaml_emitter_set_emitter_error "tag prefix must not be empty"
        else mret tt
  end.

(** [while (p != end)] instead of [p < end]: the same, since a letter has
    width 1. *)
Definition yaml_emitter_analyze_anchor (anchor : list Z) (alias : bool) : eprog D unit :=
  let text := cstr anchor in
  let n := Z.of_nat (length text) in
  if bool_decide (text = []) then
    yaml_emitter_set_emitter_error
      (if alias then "alias value must not be empty" else "anchor value must not be empty")
  else
    all_alpha (STRING_ASSIGN text n) (length text)
      (if alias then "alias value must contain alphanumerical characters only"
       else "anchor value must contain alphanumerical characters only");;
    modify (set_anchor_data (mkAnchorData (Some text) n alias)).

Definition yaml_emitter_analyze_tag (tag : list Z) : eprog D unit :=
  let text := cstr tag in
  if bool_decide (text = []) then yaml_emitter_set_emitter_error "tag value must not be empty"
  else
    ds ← gets emitted_directives;
    match find (fun d =>
      let prefix := cstr d.(td_prefix) in
      (length prefix <? length text)%nat && bool_decide (take (length prefix) text = prefix)) ds with
    | Some d =>
        let n := length (cstr d.(td_prefix)) in
        modify (set_tag_data (mkTagData
          (Some (cstr d.(td_handle))) (Z.of_nat (length (cstr d.(td_handle))))
          (Some (drop n text)) (Z.of_nat (length text - n))))
    | None =>
        modify (fun e =>
          let t := e.(analysis).(tag_data) in
          set_tag_data (mkTagData t.(tg_handle) t.(tg_handle_length)
            (Some text) (Z.of_nat (length text))) e)
    end.

(** The locals of [yaml_emitter_analyze_scalar]. *)
Record scalar_flags : Type := mkFlags {
  block_indicators : bool;
  flow_indicators : bool;
  line_breaks : bool;
  special_characters : bool;
  leading_space : bool;
  leading_break : bool;
  trailing_space : bool;
  trailing_break : bool;
  break_space : bool;
  space_break : bool;
  preceded_by_whitespace : bool;
  followed_by_whitespace : bool;
  previous_space : bool;
  previous_break : bool
}.

Definition one_of (c : Z) (cs : list ascii) : bool := existsb (Z.eqb c) (map ch cs).

(** Indicators at the head of the scalar and behind it: for the flow and for
    the block context. *)
Definition indicators (first : bool) (c : Z) (preceded followed : bool) : bool * bool :=
  if first then
    let any := one_of c ["#"; ","; "["; "]"; "{"; "}"; "&"; "*"; "!"; "|"; ">"; "'"; "034"; "%";
                         "@"; "`"]%char in
    let key := one_of c ["?"; ":"]%char in
    let dash := (c =? ch "-") && followed in
    (any || key || dash, any || (key && followed) || dash)
  else
    let any := one_of c [","; "?"; "["; "]"; "{"; "}"]%char in
    let colon := c =? ch ":" in
    let hash := (c =? ch "#") && preceded in
    (any || colon || hash, (colon && followed) || hash).

Definition analyze_turn (uni : bool) (s : yaml_string_t) (f : scalar_flags) :
    option (yaml_string_t * scalar_flags) :=
  c ← str_octet s 0;
  let first := str_first s in
  let '(fl, bl) := indicators first c f.(preceded_by_whitespace) f.(followed_by_whitespace) in
  special ← option_map negb (str_is_printable s)
            ||? (option_map negb (str_is_ascii s) &&? Some (negb uni));
  brk ← str_is_break_at s 0;
  w ← str_width_at s 0;
  space ← str_is_space_at s 0;
  preceded ← str_is_blankz_at s 0;
  s' ← str_move s;
  followed ← (if str_done s' then Some f.(followed_by_whitespace)
              else w' ← str_width_at s' 0; str_is_blankz_at s' w');
  let last := (s.(str_ptr) + w =? s.(str_end))%nat in
  let brk' := negb space && brk in
  Some (s', mkFlags
    (f.(block_indicators) || bl) (f.(flow_indicators) || fl)
    (f.(line_breaks) || brk) (f.(special_characters) || special)
    (f.(leading_space) || (space && first)) (f.(leading_break) || (brk' && first))
    (f.(trailing_space) || (space && last)) (f.(trailing_break) || (brk' && last))
    (f.(break_space) || (space && f.(previous_break)))
    (f.(space_break) || (brk' && f.(previous_space)))
    preceded followed space brk').

(** What the flags allow, as in the assignments at the end of the routine. *)
Definition scalar_verdict (value : list Z) (len : Z) (f : scalar_flags) (style : yaml_scalar_style_t) :
    scalar_analysis :=
  let edge := f.(leading_space) || f.(leading_break) || f.(trailing_space) || f.(trailing_break) in
  let odd := f.(space_break) || f.(special_characters) in
  let plain := negb (edge || f.(break_space) || odd || f.(line_breaks)) in
  mkScalarData (Some value) len f.(line_breaks)
    (plain && negb f.(flow_indicators))
    (plain && negb f.(block_indicators))
    (negb (f.(break_space) || odd))
    (negb (f.(trailing_space) || odd))
    style.

Definition flags0 (document_mark followed : bool) : scalar_flags :=
  mkFlags document_mark document_mark false false false false false false false false
    true followed false false.

Definition yaml_emitter_analyze_scalar (value : list Z) (len : Z) : eprog D unit :=
  let s := STRING_ASSIGN value len in
  style ← gets (fun e => e.(analysis).(scalar_data).(sc_style));
  if (s.(str_end) =? 0)%nat then
    modify (set_scalar_data (mkScalarData (Some value) len false false true true false style))
  else
    uni ← gets (fun e => e.(layout).(unicode));
    dashes ← deref (
      (str_check_at s (ch "-") 0 &&? str_check_at s (ch "-") 1 &&? str_check_at s (ch "-") 2)
      ||? (str_check_at s (ch ".") 0 &&? str_check_at s (ch ".") 1 &&? str_check_at s (ch ".") 2));
    followed ← deref (w ← str_width_at s 0; str_is_blankz_at s w);
    f ← str_loop s (flags0 dashes followed) (fun s f => deref (analyze_turn uni s f));
    modify (set_scalar_data (scalar_verdict value len f style)).

Definition optional {A} (o : option A) (m : A -> eprog D unit) : eprog D unit :=
  match o with Some a => m a | None => mret tt end.

Definition yaml_emitter_analyze_event ev : eprog D unit :=
  modify (fun e => set_anchor_data (mkAnchorData None 0 e.(analysis).(anchor_data).(ad_alias)) e);;
  modify (set_tag_data (mkTagData None 0 None 0));;
  modify (fun e =>
    let d := e.(analysis).(scalar_data) in
    set_scalar_data (mkScalarData None 0 d.(multiline) d.(flow_plain_allowed)
      d.(block_plain_allowed) d.(single_quoted_allowed) d.(block_allowed) d.(sc_style)) e);;
  canon ← gets (fun e => e.(layout).(canonical));
  let tagged (tag : option (list Z)) (implicit : bool) : eprog D unit :=
    optional tag (fun t => if canon || negb implicit then yaml_emitter_analyze_tag t else mret tt) in
  match ev with
  | YAML_ALIAS_EVENT anchor => yaml_emitter_analyze_anchor anchor true
  | YAML_SCALAR_EVENT anchor tag value len plain_implicit quoted_implicit _ =>
      optional anchor (fun a => yaml_emitter_analyze_anchor a false);;
      tagged tag (plain_implicit || quoted_implicit);;
      yaml_emitter_analyze_scalar value len
  | YAML_SEQUENCE_START_EVENT anchor tag implicit _
  | YAML_MAPPING_START_EVENT anchor tag implicit _ =>
      optional anchor (fun a => yaml_emitter_analyze_anchor a false);;
      tagged tag implicit
  | _ => mret tt
  end.

(** ** Choices *)

Definition yaml_emitter_check_empty_document : bool := false.

Definition is_empty_sequence (evs : list yaml_event_t) : bool :=
  match evs with
  | a :: b :: _ =>
      match a.(event_data), b.(event_data) with
      | YAML_SEQUENCE_START_EVENT _ _ _ _, YAML_SEQUENCE_END_EVENT => true
      | _, _ => false
      end
  | _ => false
  end.

Definition is_empty_mapping (evs : list yaml_event_t) : bool :=
  match evs with
  | a :: b :: _ =>
      match a.(event_data), b.(event_data) with
      | YAML_MAPPING_START_EVENT _ _ _ _, YAML_MAPPING_END_EVENT => true
      | _, _ => false
      end
  | _ => false
  end.

Definition yaml_emitter_check_empty_sequence : eprog D bool :=
  gets (fun e => is_empty_sequence e.(machine).(e_events)).
Definition yaml_emitter_check_empty_mapping : eprog D bool :=
  gets (fun e => is_empty_mapping e.(machine).(e_events)).

Definition yaml_emitter_check_simple_key : eprog D bool :=
  evs ← gets (fun e => e.(machine).(e_events));
  a ← gets analysis;
  let tag := a.(tag_data).(tg_handle_length) + a.(tag_data).(tg_suffix_length) in
  let anchor := a.(anchor_data).(ad_length) in
  match evs with
  | [] => crash
  | head :: _ =>
      mret (match head.(event_data) with
      | YAML_ALIAS_EVENT _ => anchor <=? 128
      | YAML_SCALAR_EVENT _ _ _ _ _ _ _ =>
          negb a.(scalar_data).(multiline) && (anchor + tag + a.(scalar_data).(sc_length) <=? 128)
      | YAML_SEQUENCE_START_EVENT _ _ _ _ => is_empty_sequence evs && (anchor + tag <=? 128)
      | YAML_MAPPING_START_EVENT _ _ _ _ => is_empty_mapping evs && (anchor + tag <=? 128)
      | _ => false
      end)
  end.

(** The style of a scalar from the style asked for, the context and the
    analysis: the assignments to [style] in their order. *)
Definition scalar_style (style : yaml_scalar_style_t) (canon flow simple_key no_tag plain_implicit : bool)
    (d : scalar_analysis) : yaml_scalar_style_t :=
  let style := if bool_decide (style = YAML_ANY_SCALAR_STYLE) then YAML_PLAIN_SCALAR_STYLE else style in
  let style := if canon then YAML_DOUBLE_QUOTED_SCALAR_STYLE else style in
  let style := if simple_key && d.(multiline) then YAML_DOUBLE_QUOTED_SCALAR_STYLE else style in
  let style :=
    if bool_decide (style = YAML_PLAIN_SCALAR_STYLE)
       && ((flow && negb d.(flow_plain_allowed)) || (negb flow && negb d.(block_plain_allowed))
           || ((d.(sc_length) =? 0) && (flow || simple_key))
           || (no_tag && negb plain_implicit))
    then YAML_SINGLE_QUOTED_SCALAR_STYLE else style in
  let style :=
    if bool_decide (style = YAML_SINGLE_QUOTED_SCALAR_STYLE) && negb d.(single_quoted_allowed)
    then YAML_DOUBLE_QUOTED_SCALAR_STYLE else style in
  if bool_decide (style = YAML_LITERAL_SCALAR_STYLE \/ style = YAML_FOLDED_SCALAR_STYLE)
     && (negb d.(block_allowed) || flow || simple_key)
  then YAML_DOUBLE_QUOTED_SCALAR_STYLE else style.

Definition set_sc_style (style : yaml_scalar_style_t) (e : yaml_emitter_t D) : yaml_emitter_t D :=
  let d := e.(analysis).(scalar_data) in
  set_scalar_data (mkScalarData d.(sc_value) d.(sc_length) d.(multiline) d.(flow_plain_allowed)
    d.(block_plain_allowed) d.(single_quoted_allowed) d.(block_allowed) style) e.

Definition yaml_emitter_select_scalar_style (style : yaml_scalar_style_t)
    (plain_implicit quoted_implicit : bool) : eprog D unit :=
  e ← gets id;
  let t := e.(analysis).(tag_data) in
  let no_tag := bool_decide (t.(tg_handle) = None) && bool_decide (t.(tg_suffix) = None) in
  if no_tag && negb plain_implicit && negb quoted_implicit then
    yaml_emitter_set_emitter_error "neither tag nor implicit flags are specified"
  else
    let style := scalar_style style e.(layout).(canonical) (negb (e.(machine).(e_flow_level) =? 0))
                   e.(machine).(simple_key_context) no_tag plain_implicit
                   e.(analysis).(scalar_data) in
    (if no_tag && negb quoted_implicit && negb (bool_decide (style = YAML_PLAIN_SCALAR_STYLE)) then
       modify (set_tag_data (mkTagData (Some [ch "!"]) 1 t.(tg_suffix) t.(tg_suffix_length)))
     else mret tt);;
    modify (set_sc_style style).

(** ** Writing what was analysed *)

Definition indicator (i : string) (need_whitespace is_whitespace is_indention : bool) : eprog D unit :=
  yaml_emitter_write_indicator (bytes_of i) need_whitespace is_whitespace is_indention.

Definition yaml_emitter_process_anchor : eprog D unit :=
  a ← gets (fun e => e.(analysis).(anchor_data));
  optional a.(ad_anchor) (fun text =>
    indicator (if a.(ad_alias) then "*" else "&") true false false;;
    yaml_emitter_write_anchor text a.(ad_length)).

Definition yaml_emitter_process_tag : eprog D unit :=
  t ← gets (fun e => e.(analysis).(tag_data));
  match t.(tg_handle), t.(tg_suffix) with
  | None, None => mret tt
  | Some handle, suffix =>
      yaml_emitter_write_tag_handle handle t.(tg_handle_length);;
      optional suffix (fun s => yaml_emitter_write_tag_content s t.(tg_suffix_length) false)
  | None, Some suffix =>
      indicator "!<" true false false;;
      yaml_emitter_write_tag_content suffix t.(tg_suffix_length) false;;
      indicator ">" false false false
  end.

Definition yaml_emitter_process_scalar : eprog D unit :=
  d ← gets (fun e => e.(analysis).(scalar_data));
  allow_breaks ← gets (fun e => negb e.(machine).(simple_key_context));
  value ← deref d.(sc_value);
  match d.(sc_style) with
  | YAML_PLAIN_SCALAR_STYLE => yaml_emitter_write_plain_scalar value d.(sc_length) allow_breaks
  | YAML_SINGLE_QUOTED_SCALAR_STYLE =>
      yaml_emitter_write_single_quoted_scalar value d.(sc_length) allow_breaks
  | YAML_DOUBLE_QUOTED_SCALAR_STYLE =>
      yaml_emitter_write_double_quoted_scalar value d.(sc_length) allow_breaks
  | YAML_LITERAL_SCALAR_STYLE => yaml_emitter_write_literal_scalar value d.(sc_length)
  | YAML_FOLDED_SCALAR_STYLE => yaml_emitter_write_folded_scalar value d.(sc_length)
  | YAML_ANY_SCALAR_STYLE => fail
  end.

(** ** The state machine *)

Definition set_next_state : eprog D unit := s ← pop_e_state; modify (set_e_state s).
Definition restore_indent : eprog D unit := i ← pop_e_indent; modify (set_e_indent i).
Definition add_flow_level (n : Z) : eprog D unit :=
  modify (fun e => set_e_flow_level (e.(machine).(e_flow_level) + n) e).

Definition yaml_emitter_emit_stream_start ev : eprog D unit :=
  modify (set_open_ended 0);;
  match ev with
  | YAML_STREAM_START_EVENT enc =>
      modify (fun e =>
        if bool_decide (e.(writing).(out_encoding) = YAML_ANY_ENCODING) then set_out_encoding enc e else e);;
      modify (fun e =>
        if bool_decide (e.(writing).(out_encoding) = YAML_ANY_ENCODING)
        then set_out_encoding YAML_UTF8_ENCODING e else e);;
      modify (fun e =>
        if (e.(layout).(best_indent) <? 2) || (e.(layout).(best_indent) >? 9)
        then set_best_indent 2 e else e);;
      modify (fun e =>
        if (e.(layout).(best_width) >=? 0)
           && (e.(layout).(best_width) <=? e.(layout).(best_indent) * 2)
        then set_best_width 80 e else e);;
      modify (fun e => if e.(layout).(best_width) <? 0 then set_best_width INT_MAX e else e);;
      modify (fun e =>
        if bool_decide (e.(layout).(line_break) = YAML_ANY_BREAK)
        then set_line_break YAML_LN_BREAK e else e);;
      modify (set_e_indent (-1));;
      modify (set_e_line 0);;
      modify (set_e_column 0);;
      set_flags true true;;
      enc ← gets (fun e => e.(writing).(out_encoding));
      (if bool_decide (enc = YAML_UTF8_ENCODING) then mret tt else yaml_emitter_write_bom);;
      modify (set_e_state YAML_EMIT_FIRST_DOCUMENT_START_STATE)
  | _ => yaml_emitter_set_emitter_error "expected STREAM-START"
  end.

Definition default_tag_directives : list yaml_tag_directive_t :=
  [mkTagDirective (bytes_of "!") (bytes_of "!");
   mkTagDirective (bytes_of "!!") (bytes_of "tag:yaml.org,2002:")].

Fixpoint for_each {A} (l : list A) (m : A -> eprog D unit) : eprog D unit :=
  match l with
  | [] => mret tt
  | a :: r => m a;; for_each r m
  end.

Definition write_version (v : yaml_version_directive_t) : eprog D unit :=
  indicator "%YAML" true false false;;
  indicator (if v.(minor) =? 1 then "1.1" else "1.2") true false false;;
  yaml_emitter_write_indent.

Definition write_tag_directive (d : yaml_tag_directive_t) : eprog D unit :=
  indicator "%TAG" true false false;;
  yaml_emitter_write_tag_handle (cstr d.(td_handle)) (Z.of_nat (length (cstr d.(td_handle))));;
  yaml_emitter_write_tag_content (cstr d.(td_prefix)) (Z.of_nat (length (cstr d.(td_prefix)))) true;;
  yaml_emitter_write_indent.

Definition yaml_emitter_emit_document_start ev (first : bool) : eprog D unit :=
  match ev with
  | YAML_DOCUMENT_START_EVENT version tags implicit =>
      optional version yaml_emitter_analyze_version_directive;;
      for_each tags (fun d =>
        yaml_emitter_analyze_tag_directive d;; yaml_emitter_append_tag_directive d false);;
      for_each default_tag_directives (fun d => yaml_emitter_append_tag_directive d true);;
      canon ← gets (fun e => e.(layout).(canonical));
      open ← gets (fun e => e.(position).(open_ended));
      let directives := bool_decide (is_Some version) || negb (bool_decide (tags = [])) in
      (if directives && negb (open =? 0) then
         indicator "..." true false false;; yaml_emitter_write_indent
       else mret tt);;
      modify (set_open_ended 0);;
      optional version write_version;;
      for_each tags write_tag_directive;;
      let implicit := implicit && first && negb canon && negb directives
                      && negb yaml_emitter_check_empty_document in
      (if implicit then mret tt
       else
         yaml_emitter_write_indent;;
         indicator "---" true false false;;
         if canon then yaml_emitter_write_indent else mret tt);;
      modify (set_e_state YAML_EMIT_DOCUMENT_CONTENT_STATE);;
      modify (set_open_ended 0)
  | YAML_STREAM_END_EVENT =>
      open ← gets (fun e => e.(position).(open_ended));
      (if open =? 2 then
         indicator "..." true false false;;
         modify (set_open_ended 0);;
         yaml_emitter_write_indent
       else mret tt);;
      yaml_emitter_flush;;
      modify (set_e_state YAML_EMIT_END_STATE)
  | _ => yaml_emitter_set_emitter_error "expected DOCUMENT-START or STREAM-END"
  end.

Definition yaml_emitter_emit_document_end ev : eprog D unit :=
  match ev with
  | YAML_DOCUMENT_END_EVENT implicit =>
      yaml_emitter_write_indent;;
      (if negb implicit then
         indicator "..." true false false;;
         modify (set_open_ended 0);;
         yaml_emitter_write_indent
       else
         modify (fun e => if e.(position).(open_ended) =? 0 then set_open_ended 1 e else e));;
      yaml_emitter_flush;;
      modify (set_e_state YAML_EMIT_DOCUMENT_START_STATE);;
      modify (fun e => set_e_tag_directives (mkStack [] e.(machine).(e_tag_directives).(capacity)) e)
  | _ => yaml_emitter_set_emitter_error "expected DOCUMENT-END"
  end.

(** *** Nodes *)

Definition yaml_emitter_emit_alias : eprog D unit :=
  yaml_emitter_process_anchor;;
  simple ← gets (fun e => e.(machine).(simple_key_context));
  (if (simple : bool) then put " " else mret tt);;
  set_next_state.

Definition yaml_emitter_emit_scalar (style : yaml_scalar_style_t)
    (plain_implicit quoted_implicit : bool) : eprog D unit :=
  yaml_emitter_select_scalar_style style plain_implicit quoted_implicit;;
  yaml_emitter_process_anchor;;
  yaml_emitter_process_tag;;
  yaml_emitter_increase_indent true false;;
  yaml_emitter_process_scalar;;
  restore_indent;;
  set_next_state.

(** Is a collection written in the flow style? *)
Definition in_flow (asked empty : bool) : eprog D bool :=
  gets (fun e => negb (e.(machine).(e_flow_level) =? 0) || e.(layout).(canonical) || asked || empty).

Definition yaml_emitter_emit_sequence_start (style : yaml_sequence_style_t) : eprog D unit :=
  yaml_emitter_process_anchor;;
  yaml_emitter_process_tag;;
  empty ← yaml_emitter_check_empty_sequence;
  flow ← in_flow (bool_decide (style = YAML_FLOW_SEQUENCE_STYLE)) empty;
  modify (set_e_state (if (flow : bool) then YAML_EMIT_FLOW_SEQUENCE_FIRST_ITEM_STATE
                       else YAML_EMIT_BLOCK_SEQUENCE_FIRST_ITEM_STATE)).

Definition yaml_emitter_emit_mapping_start (style : yaml_mapping_style_t) : eprog D unit :=
  yaml_emitter_process_anchor;;
  yaml_emitter_process_tag;;
  empty ← yaml_emitter_check_empty_mapping;
  flow ← in_flow (bool_decide (style = YAML_FLOW_MAPPING_STYLE)) empty;
  modify (set_e_state (if (flow : bool) then YAML_EMIT_FLOW_MAPPING_FIRST_KEY_STATE
                       else YAML_EMIT_BLOCK_MAPPING_FIRST_KEY_STATE)).

Definition yaml_emitter_emit_node ev (root sequence mapping simple_key : bool) : eprog D unit :=
  modify (set_root_context root);;
  modify (set_sequence_context sequence);;
  modify (set_mapping_context mapping);;
  modify (set_simple_key_context simple_key);;
  match ev with
  | YAML_ALIAS_EVENT _ => yaml_emitter_emit_alias
  | YAML_SCALAR_EVENT _ _ _ _ plain_implicit quoted_implicit style =>
      yaml_emitter_emit_scalar style plain_implicit quoted_implicit
  | YAML_SEQUENCE_START_EVENT _ _ _ style => yaml_emitter_emit_sequence_start style
  | YAML_MAPPING_START_EVENT _ _ _ style => yaml_emitter_emit_mapping_start style
  | _ => yaml_emitter_set_emitter_error
           "expected SCALAR, SEQUENCE-START, MAPPING-START, or ALIAS"
  end.

Definition yaml_emitter_emit_document_content ev : eprog D unit :=
  push_e_state YAML_EMIT_DOCUMENT_END_STATE;;
  yaml_emitter_emit_node ev true false false false.

(** *** Flow collections *)

(** The head of a flow collection. *)
Definition open_flow (bracket : string) : eprog D unit :=
  indicator bracket true true false;;
  yaml_emitter_increase_indent true false;;
  add_flow_level 1.

(** The end of a flow collection. *)
Definition close_flow (bracket : string) (first : bool) : eprog D unit :=
  add_flow_level (-1);;
  restore_indent;;
  canon ← gets (fun e => e.(layout).(canonical));
  (if canon && negb first then
     indicator "," false false false;; yaml_emitter_write_indent
   else mret tt);;
  indicator bracket false false false;;
  set_next_state.

(** [if (canonical || column > best_width) write_indent]. *)
Definition wrap_flow : eprog D unit :=
  canon ← gets (fun e => e.(layout).(canonical));
  wide ← too_wide;
  if canon || wide then yaml_emitter_write_indent else mret tt.

Definition is_sequence_end ev : bool :=
  match ev with YAML_SEQUENCE_END_EVENT => true | _ => false end.
Definition is_mapping_end ev : bool :=
  match ev with YAML_MAPPING_END_EVENT => true | _ => false end.

Definition yaml_emitter_emit_flow_sequence_item ev (first : bool) : eprog D unit :=
  (if first then open_flow "[" else mret tt);;
  if is_sequence_end ev then close_flow "]" first
  else
    (if negb first then indicator "," false false false else mret tt);;
    wrap_flow;;
    push_e_state YAML_EMIT_FLOW_SEQUENCE_ITEM_STATE;;
    yaml_emitter_emit_node ev false true false false.

Definition yaml_emitter_emit_flow_mapping_key ev (first : bool) : eprog D unit :=
  (if first then open_flow "{" else mret tt);;
  if is_mapping_end ev then close_flow "}" first
  else
    (if negb first then indicator "," false false false else mret tt);;
    wrap_flow;;
    canon ← gets (fun e => e.(layout).(canonical));
    simple ← (if (canon : bool) then mret false else yaml_emitter_check_simple_key);
    if (simple : bool) then
      push_e_state YAML_EMIT_FLOW_MAPPING_SIMPLE_VALUE_STATE;;
      yaml_emitter_emit_node ev false false true true
    else
      indicator "?" true false false;;
      push_e_state YAML_EMIT_FLOW_MAPPING_VALUE_STATE;;
      yaml_emitter_emit_node ev false false true false.

Definition yaml_emitter_emit_flow_mapping_value ev (simple : bool) : eprog D unit :=
  (if simple then indicator ":" false false false
   else wrap_flow;; indicator ":" true false false);;
  push_e_state YAML_EMIT_FLOW_MAPPING_KEY_STATE;;
  yaml_emitter_emit_node ev false false true false.

(** *** Block collections *)

Definition yaml_emitter_emit_block_sequence_item ev (first : bool) : eprog D unit :=
  (if first then
     indentless ← gets (fun e => e.(machine).(mapping_context) && negb e.(position).(indention));
     yaml_emitter_increase_indent false indentless
   else mret tt);;
  if is_sequence_end ev then restore_indent;; set_next_state
  else
    yaml_emitter_write_indent;;
    indicator "-" true false true;;
    push_e_state YAML_EMIT_BLOCK_SEQUENCE_ITEM_STATE;;
    yaml_emitter_emit_node ev false true false false.

Definition yaml_emitter_emit_block_mapping_key ev (first : bool) : eprog D unit :=
  (if first then yaml_emitter_increase_indent false false else mret tt);;
  if is_mapping_end ev then restore_indent;; set_next_state
  else
    yaml_emitter_write_indent;;
    simple ← yaml_emitter_check_simple_key;
    if (simple : bool) then
      push_e_state YAML_EMIT_BLOCK_MAPPING_SIMPLE_VALUE_STATE;;
      yaml_emitter_emit_node ev false false true true
    else
      indicator "?" true false true;;
      push_e_state YAML_EMIT_BLOCK_MAPPING_VALUE_STATE;;
      yaml_emitter_emit_node ev false false true false.

Definition yaml_emitter_emit_block_mapping_value ev (simple : bool) : eprog D unit :=
  (if simple then indicator ":" false false false
   else yaml_emitter_write_indent;; indicator ":" true false true);;
  push_e_state YAML_EMIT_BLOCK_MAPPING_KEY_STATE;;
  yaml_emitter_emit_node ev false false true false.

(** *** Dispatch *)

Definition yaml_emitter_state_machine ev : eprog D unit :=
  s ← gets (fun e => e.(machine).(e_state));
  match s with
  | YAML_EMIT_STREAM_START_STATE => yaml_emitter_emit_stream_start ev
  | YAML_EMIT_FIRST_DOCUMENT_START_STATE => yaml_emitter_emit_document_start ev true
  | YAML_EMIT_DOCUMENT_START_STATE => yaml_emitter_emit_document_start ev false
  | YAML_EMIT_DOCUMENT_CONTENT_STATE => yaml_emitter_emit_document_content ev
  | YAML_EMIT_DOCUMENT_END_STATE => yaml_emitter_emit_document_end ev
  | YAML_EMIT_FLOW_SEQUENCE_FIRST_ITEM_STATE => yaml_emitter_emit_flow_sequence_item ev true
  | YAML_EMIT_FLOW_SEQUENCE_ITEM_STATE => yaml_emitter_emit_flow_sequence_item ev false
  | YAML_EMIT_FLOW_MAPPING_FIRST_KEY_STATE => yaml_emitter_emit_flow_mapping_key ev true
  | YAML_EMIT_FLOW_MAPPING_KEY_STATE => yaml_emitter_emit_flow_mapping_key ev false
  | YAML_EMIT_FLOW_MAPPING_SIMPLE_VALUE_STATE => yaml_emitter_emit_flow_mapping_value ev true
  | YAML_EMIT_FLOW_MAPPING_VALUE_STATE => yaml_emitter_emit_flow_mapping_value ev false
  | YAML_EMIT_BLOCK_SEQUENCE_FIRST_ITEM_STATE => yaml_emitter_emit_block_sequence_item ev true
  | YAML_EMIT_BLOCK_SEQUENCE_ITEM_STATE => yaml_emitter_emit_block_sequence_item ev false
  | YAML_EMIT_BLOCK_MAPPING_FIRST_KEY_STATE => yaml_emitter_emit_block_mapping_key ev true
  | YAML_EMIT_BLOCK_MAPPING_KEY_STATE => yaml_emitter_emit_block_mapping_key ev false
  | YAML_EMIT_BLOCK_MAPPING_SIMPLE_VALUE_STATE => yaml_emitter_emit_block_mapping_value ev true
  | YAML_EMIT_BLOCK_MAPPING_VALUE_STATE => yaml_emitter_emit_block_mapping_value ev false
  | YAML_EMIT_END_STATE =>
      yaml_emitter_set_emitter_error "expected nothing after STREAM-END"
  end.

(** [DEQUEUE]. *)
Definition dequeue_event : eprog D unit :=
  modify (fun e => set_e_events (tail e.(machine).(e_events)) e).

(** Analyse the event at the head of the queue, pass it to the machine, and
    take it off. *)
Definition emit_head : eprog D unit :=
  evs ← gets (fun e => e.(machine).(e_events));
  match evs with
  | [] => crash
  | head :: _ =>
      yaml_emitter_analyze_event head.(event_data);;
      yaml_emitter_state_machine head.(event_data);;
      dequeue_event
  end.

(** Every turn takes an event off the queue. *)
Definition yaml_emitter_emit (event : yaml_event_t) : eprog D unit :=
  modify (fun e => set_e_events (e.(machine).(e_events) ++ [event]) e);;
  n ← gets (fun e => S (length e.(machine).(e_events)));
  while n (more ← yaml_emitter_need_more_events; mret (negb more)) emit_head.

End emitter.
