(* ===== verification/YamlEmitAnalysis.v ===== *)
(** * libyaml: what the emitter makes of an event

    The routines [yaml_emitter_analyze_...] accept exactly the anchors, tags,
    scalars and directives described by [acceptable]; what they leave in the
    object is fit for the writers, and a scalar that may be written without
    quotes, in single quotes or as a block consists of printable characters. *)

From Stdlib Require Import ZArith Lia Ascii String.
From stdpp Require Import base list option strings.
From S2P Require Import Prelude YamlData YamlReader YamlChars YamlUtf8 YamlDocument YamlString YamlStringSpec YamlWriter YamlWriterSpec YamlEmitWrite YamlEmitText YamlEmitSafe YamlEmitter.

#[local] Open Scope Z_scope.

(** ** Valid texts *)

(** A C string that is valid UTF-8. *)
Definition valid_text (l : list Z) : Prop := exists cs, l = utf8_text cs /\ Forall code_value cs.

Definition graph_text (l : list Z) : Prop := Forall (fun c => 0x20 <= c <= 0x7E) l.

Lemma alpha_graph_text l : forallb is_alpha l = true -> graph_text l.
Proof.
  intros H. apply List.Forall_forall. intros c Hc. apply alpha_graph.
  rewrite forallb_forall in H. auto.
Qed.

Lemma graph_decided l :
  forallb (fun c => (0x20 <=? c) && (c <=? 0x7E)) l = true -> graph_text l.
Proof.
  intros H. apply List.Forall_forall. intros c Hc. rewrite forallb_forall in H.
  specialize (H c Hc). lia.
Qed.

Lemma graph_valid l : graph_text l -> valid_text l.
Proof.
  intros H. exists l. split; [symmetry; by apply utf8_text_ascii|].
  eapply Forall_impl; [exact H|]. unfold code_value. intros. lia.
Qed.

(** Behind a valid prefix the rest is valid. *)
Lemma valid_text_drop text prefix :
  valid_text text -> valid_text prefix -> take (length prefix) text = prefix ->
  valid_text (drop (length prefix) text).
Proof.
  intros (cs & -> & Hcs) (ps & -> & Hps) Ht.
  assert (utf8_text cs = utf8_text ps ++ drop (length (utf8_text ps)) (utf8_text cs)) as E
    by (rewrite <- Ht at 1; by rewrite take_drop).
  revert E. generalize (drop (length (utf8_text ps)) (utf8_text cs)) as rest. clear Ht.
  revert cs Hcs. induction Hps as [|p ps Hp _ IH]; intros cs Hcs rest E; [by exists cs|].
  rewrite utf8_text_cons, <- app_assoc in E.
  destruct cs as [|c cs]; [destruct (encode_shape p Hp) as (b & xs & He & _); by rewrite He in E|].
  apply Forall_cons in Hcs as [Hc Hcs]. apply (IH cs Hcs rest).
  pose proof (check_char_encode c (utf8_text cs) Hc) as E1. rewrite <- utf8_text_cons, E in E1.
  rewrite (check_char_encode p _ Hp) in E1. by injection E1.
Qed.

(** Three equal ASCII octets: the tests stop at the NUL. *)
Lemma check_three s cs x :
  cursor s cs 0 -> 0 < x <= 0x7F ->
  exists b, andO (andO (str_check_at s x 0) (str_check_at s x 1)) (str_check_at s x 2) = Some b.
Proof.
  intros Hs Hx.
  assert (forall i, (i <= length cs)%nat -> offset_of cs i = i ->
    str_check_at s x i = Some (nth i cs 0 =? x)
    /\ ((nth i cs 0 =? x) = true -> (S i <= length cs)%nat /\ offset_of cs (S i) = S i)) as Hstep.
  { intros i Hi Ho. pose proof (cursor_char s cs 0 i Hs ltac:(lia)) as Hch. rewrite Ho in Hch.
    change (offset_of cs 0) with 0%nat in Hch. rewrite Nat.sub_0_r in Hch.
    split; [apply (check_ascii s i _ Hch); lia|]. intros Hn%Z.eqb_eq.
    destruct (decide (i < length cs)%nat) as [Hlt|]; [|rewrite nth_overflow in Hn by lia; lia].
    destruct (lookup_lt_is_Some_2 cs i Hlt) as [v Hv]. rewrite (nth_lookup_Some cs i 0 v Hv) in Hn.
    rewrite (offset_S cs i v Hv), Hn, utf8_encode_ascii by lia. cbn. lia. }
  destruct (Hstep 0%nat ltac:(lia) eq_refl) as [-> H0]. destruct (nth 0 cs 0 =? x); [|cbn; eauto].
  destruct (H0 eq_refl) as [L1 O1]. destruct (Hstep 1%nat L1 O1) as [-> H1].
  destruct (nth 1 cs 0 =? x); [|cbn; eauto].
  destruct (H1 eq_refl) as [L2 O2]. destruct (Hstep 2%nat L2 O2) as [-> _]. cbn. eauto.
Qed.

(** The events the initialisers of [api.c] make: their texts are valid UTF-8,
    and the length of a scalar is that of its value. *)
Definition event_ok (ev : yaml_event_data) : Prop :=
  let tag_ok t := match t with Some t => valid_text (cstr t) | None => True end in
  match ev with
  | YAML_DOCUMENT_START_EVENT _ tags _ => Forall (fun d => valid_text (cstr d.(td_prefix))) tags
  | YAML_SCALAR_EVENT _ tag value len _ _ _ =>
      tag_ok tag /\ valid_text value /\ len = Z.of_nat (length value)
  | YAML_SEQUENCE_START_EVENT _ tag _ _ | YAML_MAPPING_START_EVENT _ tag _ _ => tag_ok tag
  | _ => True
  end.

(** ** What is accepted *)

Definition anchor_fine (a : list Z) : bool :=
  negb (bool_decide (cstr a = [])) && forallb is_alpha (cstr a).
Definition anchor_opt_fine (a : option (list Z)) : bool :=
  match a with Some a => anchor_fine a | None => true end.
Definition tag_fine (used : bool) (t : option (list Z)) : bool :=
  match t with Some t => negb used || negb (bool_decide (cstr t = [])) | None => true end.

Definition handle_fine (l : list Z) : bool :=
  match l with
  | [] => false
  | c :: _ => (c =? ch "!") && bool_decide (last l = Some (ch "!"))
              && forallb is_alpha (take (length l - 2) (tail l))
  end.
Definition directive_fine (d : yaml_tag_directive_t) : bool :=
  handle_fine (cstr d.(td_handle)) && negb (bool_decide (cstr d.(td_prefix) = [])).
Definition handles (ds : list yaml_tag_directive_t) : list (list Z) := map (fun d => cstr d.(td_handle)) ds.
Definition version_fine (v : option yaml_version_directive_t) : bool :=
  match v with
  | Some v => (v.(major) =? 1) && ((v.(minor) =? 1) || (v.(minor) =? 2))
  | None => true
  end.

(** The tag of a node is looked at in canonical mode, or if it is not implicit. *)
Definition tag_used (canon : bool) (ev : yaml_event_data) : bool :=
  match ev with
  | YAML_SCALAR_EVENT _ t _ _ pi qi _ => bool_decide (is_Some t) && (canon || negb (pi || qi))
  | YAML_SEQUENCE_START_EVENT _ t implicit _ | YAML_MAPPING_START_EVENT _ t implicit _ =>
      bool_decide (is_Some t) && (canon || negb implicit)
  | _ => false
  end.

Definition node_fine (canon : bool) (ev : yaml_event_data) : bool :=
  match ev with
  | YAML_ALIAS_EVENT a => anchor_fine a
  | YAML_SCALAR_EVENT a t _ _ _ _ _
  | YAML_SEQUENCE_START_EVENT a t _ _ | YAML_MAPPING_START_EVENT a t _ _ =>
      anchor_opt_fine a && tag_fine (tag_used canon ev) t
  | _ => true
  end.

Definition acceptable (canon : bool) (ev : yaml_event_data) : bool :=
  node_fine canon ev &&
  match ev with
  | YAML_SCALAR_EVENT _ t _ _ pi qi _ => pi || qi || bool_decide (is_Some t)
  | YAML_DOCUMENT_START_EVENT v tags _ =>
      version_fine v && forallb directive_fine tags && bool_decide (NoDup (handles tags))
  | _ => true
  end.

(** ** What the analysis leaves *)

Definition anchor_ok (a : anchor_analysis) : Prop :=
  match a.(ad_anchor) with
  | Some text => graph_text text /\ a.(ad_length) = Z.of_nat (length text)
  | None => True
  end.

Definition tag_ok (t : tag_analysis) : Prop :=
  match t.(tg_handle) with
  | Some text => graph_text text /\ t.(tg_handle_length) = Z.of_nat (length text)
  | None => True
  end
  /\ match t.(tg_suffix) with
     | Some text => valid_text text /\ t.(tg_suffix_length) = Z.of_nat (length text)
     | None => True
     end.

Definition no_tag (t : tag_analysis) : bool :=
  bool_decide (t.(tg_handle) = None) && bool_decide (t.(tg_suffix) = None).

(** The text of a scalar; it is printable if a style other than double quotes
    is allowed. *)
Definition scalar_ok (d : scalar_analysis) : Prop := exists text cs,
  d.(sc_value) = Some text /\ text = utf8_text cs /\ Forall code_value cs
  /\ d.(sc_length) = Z.of_nat (length text)
  /\ (d.(flow_plain_allowed) || d.(block_plain_allowed) || d.(single_quoted_allowed)
      || d.(block_allowed) = true -> Forall (fun v => printable_char v = true) cs).

(** What is left after the event [ev]. *)
Definition analysis_ok (canon : bool) (ev : yaml_event_data) (a : emitter_analysis) : Prop :=
  anchor_ok a.(anchor_data) /\ tag_ok a.(tag_data) /\ no_tag a.(tag_data) = negb (tag_used canon ev)
  /\ match ev with YAML_SCALAR_EVENT _ _ _ _ _ _ _ => scalar_ok a.(scalar_data) | _ => True end.

Definition directives_ok (ds : list yaml_tag_directive_t) : Prop :=
  Forall (fun d => graph_text (cstr d.(td_handle)) /\ valid_text (cstr d.(td_prefix))) ds.

Definition refused {D} (e : yaml_emitter_t D) : Prop := e.(em_err).(e_error) = YAML_EMITTER_ERROR.

Lemma wp_bind_3 {S A B C} F (m : prog S A) (k : A -> prog S C) (m' : prog S B) Q E s :
  wp F ((m' ;; m) ≫= k) Q E s -> wp F (m' ;; (m ≫= k)) Q E s.
Proof. unfold wp, mbind, prog_bind. by destruct (m' s). Qed.

Section analysis.
Context {D : Type}.
Implicit Types (e : yaml_emitter_t D).

Lemma wp_emitter_error {A} msg (Q : A -> yaml_emitter_t D -> Prop) (E : yaml_emitter_t D -> Prop) e :
  (forall e', refused e' -> E e') -> wp strict (yaml_emitter_set_emitter_error msg) Q E e.
Proof. intros HE. unfold yaml_emitter_set_emitter_error. wp_steps. by apply HE. Qed.

(** The loop over the characters from [p] to [n]. *)
Lemma wp_all_alpha text p n stop msg e :
  (p <= n <= length text)%nat ->
  wp strict (all_alpha (mkString text p stop) n msg)
    (fun _ e' => e' = e /\ forallb is_alpha (take (n - p) (drop p text)) = true)
    (fun e' => refused e' /\ forallb is_alpha (take (n - p) (drop p text)) = false) e.
Proof.
  intros Hp. unfold all_alpha.
  eapply wp_loop with
    (I := fun s e' => e' = e /\ exists q, s = mkString text q stop /\ (p <= q <= n)%nat
            /\ forallb is_alpha (take (q - p) (drop p text)) = true)
    (v := fun s _ => (n - s.(str_ptr))%nat).
  - intros s e1 (-> & q & -> & Hq & Hall). cbn [str_ptr].
    destruct (n <=? q)%nat eqn:En.
    { wp_steps. split; [done|]. apply Nat.leb_le in En. by replace n with q by lia. }
    apply Nat.leb_gt in En. destruct (lookup_lt_is_Some_2 text q ltac:(lia)) as [c Hc].
    assert (str_octet (mkString text q stop) 0 = Some c) as Ho.
    { unfold str_octet. cbn. rewrite Nat.add_0_r, lookup_app_l by lia. done. }
    unfold str_is_alpha, str_test. rewrite Ho. cbn [mbind option_bind deref]. wp_steps.
    assert (forall m, (q < m)%nat -> take (m - p) (drop p text)
            = take (q - p) (drop p text) ++ c :: take (m - S q) (drop (S q) text)) as Hsplit.
    { intros m Hm. rewrite <- (take_drop (q - p) (drop p text)) at 1.
      rewrite take_app_ge by (rewrite length_take; lia). rewrite length_take, length_drop.
      rewrite drop_drop. replace (p + (q - p))%nat with q by lia. f_equal.
      rewrite (drop_S text c q Hc).
      replace (m - p - min (q - p) (length text - p))%nat with (S (m - S q)) by lia. done. }
    destruct (is_alpha c) eqn:Ea; wp_steps.
    + unfold str_move, str_width_at. rewrite Ho. cbn [mbind option_bind deref].
      assert (utf8_width c = 1) as Hw by (destruct (lead_1 c) as [? _]; [pose proof (alpha_graph c Ea); lia|done]).
      rewrite Hw. change (Z.to_nat 1) with 1%nat. wp_steps. split; [|right; cbn; lia].
      split; [done|]. exists (q + 1)%nat. split; [done|]. split; [lia|].
      rewrite (Hsplit (q + 1)%nat) by lia. rewrite forallb_app, Hall.
      replace (q + 1 - S q)%nat with 0%nat by lia. cbn. by rewrite Ea.
    + apply wp_emitter_error. intros e' He'. split; [done|].
      rewrite (Hsplit n) by lia. rewrite forallb_app, Hall. cbn. by rewrite Ea.
  - split; [done|]. exists p. rewrite Nat.sub_diag. split_and!; try done; lia.
  - right. cbn. lia.
Qed.

Lemma wp_analyze_anchor a alias e :
  wp strict (yaml_emitter_analyze_anchor a alias)
    (fun _ e' => anchor_fine a = true
       /\ exists x, e' = set_anchor_data x e /\ anchor_ok x)
    (fun e' => refused e' /\ anchor_fine a = false) e.
Proof.
  unfold yaml_emitter_analyze_anchor, anchor_fine. set (text := cstr a).
  case_bool_decide as Hnil; cbn [negb andb]; [by apply wp_emitter_error|].
  wp_step. unfold STRING_ASSIGN.
  eapply wp_mono; [apply (wp_all_alpha text 0 (length text)); lia|..]; cbv beta.
  - intros _ e' (-> & Ha). rewrite drop_0, Nat.sub_0_r, take_ge in Ha by done. wp_steps.
    split; [done|]. eexists. split; [done|]. split; [by apply alpha_graph_text|done].
  - intros e' (He & Ha). by rewrite drop_0, Nat.sub_0_r, take_ge in Ha by done.
Qed.

Lemma wp_analyze_tag tag e :
  valid_text (cstr tag) -> directives_ok (emitted_directives e) ->
  e.(analysis).(tag_data).(tg_handle) = None ->
  wp strict (yaml_emitter_analyze_tag tag)
    (fun _ e' => cstr tag <> []
       /\ exists t, e' = set_tag_data t e /\ tag_ok t /\ no_tag t = false)
    (fun e' => refused e' /\ cstr tag = []) e.
Proof.
  intros Hv Hds Hh. unfold yaml_emitter_analyze_tag.
  case_bool_decide as Hnil; [by apply wp_emitter_error|]. wp_steps.
  destruct (find _ _) as [d|] eqn:Ef; wp_steps; (split; [done|]); (eexists; split; [done|]).
  - apply find_some in Ef as [Hin [Hlt%Nat.ltb_lt Ht%bool_decide_eq_true]%andb_true_iff].
    apply list_elem_of_In in Hin. pose proof (proj1 (Forall_forall _ _) Hds d Hin) as [G1 G2].
    split; [|done]. split; cbn; [done|]. split; [by eapply valid_text_drop|].
    rewrite length_drop. done.
  - split; [|cbn; apply andb_false_r]. split; cbn; [by rewrite Hh|done].
Qed.

(** *** Scalars *)

Lemma analyze_turn_spec uni s cs i v f :
  cursor s cs i -> cs !! i = Some v ->
  exists f', analyze_turn uni s f = Some (str_next s v, f')
    /\ (f'.(special_characters) = false ->
        f.(special_characters) = false /\ printable_char v = true).
Proof.
  intros Hs Hv. pose proof (cursor_here s cs i v Hs Hv) as Hch. unfold analyze_turn.
  assert (exists c, str_octet s 0 = Some c) as [c ->].
  { destruct (char_octets s 0 v Hch); eauto. }
  cbn [mbind option_bind].
  destruct (indicators _ _ _ _) as [fl bl].
  rewrite (printable_at s v Hch), (ascii_at s v Hch), (break_at s 0 v Hch), (width_at s 0 v Hch),
    (space_at s 0 v Hch), (blankz_at s 0 v Hch), (cursor_move s v Hch). cbn [option_map].
  assert (exists b, andO (Some (negb (v <=? 0x7F))) (Some (negb uni)) = Some b) as [b ->]
    by (destruct (v <=? 0x7F); cbn; eauto).
  rewrite orO_some. cbn [mbind option_bind].
  assert (exists x, (if str_done (str_next s v) then Some f.(followed_by_whitespace)
           else w' ← str_width_at (str_next s v) 0; str_is_blankz_at (str_next s v) w') = Some x) as [x ->].
  { pose proof (cursor_step s cs i v Hs Hv) as Hn.
    destruct (str_done (str_next s v)) eqn:Ed; [eauto|].
    destruct (cursor_not_done _ cs _ Hn Ed) as (v' & Hv' & _).
    rewrite (width_at _ 0 v' (cursor_here _ cs _ v' Hn Hv')). cbn [mbind option_bind].
    rewrite (blankz_at _ _ _ (cursor_next _ cs _ v' Hn Hv')). eauto. }
  cbn [mbind option_bind]. eexists. split; [done|]. cbn.
  intros [H1 H2]%orb_false_iff. split; [done|]. by destruct (printable_char v).
Qed.

Lemma wp_analyze_scalar value len cs e E :
  value = utf8_text cs -> Forall code_value cs -> len = Z.of_nat (length value) ->
  wp strict (yaml_emitter_analyze_scalar value len)
    (fun _ e' => exists d, e' = set_scalar_data d e /\ scalar_ok d) E e.
Proof.
  intros Hv Hc ->. unfold yaml_emitter_analyze_scalar. set (s := STRING_ASSIGN value _). wp_steps.
  assert (cursor s cs 0) as Hs by (by apply cursor_assign).
  destruct (str_end s =? 0)%nat eqn:E0.
  { apply Nat.eqb_eq in E0. unfold s in E0. cbn in E0. rewrite Nat2Z.id in E0.
    assert (cs = []) as -> by (apply utf8_text_nil; rewrite <- Hv; by destruct value).
    wp_steps. eexists. split; [done|]. exists value, []. by split_and!. }
  assert (exists c cs', cs = c :: cs') as (c & cs' & Ecs).
  { destruct cs; [|eauto]. unfold s in E0. by rewrite Hv in E0. }
  assert (cs !! 0%nat = Some c) as H0 by (by rewrite Ecs).
  pose proof (cursor_here s cs 0 c Hs H0) as Hch.
  wp_steps.
  assert (forall x, 0 < x <= 0x7F -> exists b,
    andO (andO (str_check_at s x 0) (str_check_at s x 1)) (str_check_at s x 2) = Some b) as Hthree.
  { intros x Hx. by apply (check_three s cs x). }
  destruct (Hthree (ch "-") ltac:(by split)) as [b1 ->].
  destruct (Hthree (ch ".") ltac:(by split)) as [b2 ->]. rewrite orO_some. cbn [deref]. wp_steps.
  rewrite (width_at s 0 c Hch). cbn [mbind option_bind].
  rewrite (blankz_at s _ _ (cursor_next s cs 0 c Hs H0)). cbn [deref]. wp_steps.
  eapply wp_mono; [apply (wp_str_loop cs (fun i f e' => e' = e
    /\ (f.(special_characters) = false -> Forall (fun v => printable_char v = true) (take i cs))))
    |..]; [done|..|done].
  - cbn. split; [done|]. intros _. apply Forall_nil_2.
  - intros s1 i v f e1 H1 H2 (-> & H3).
    destruct (analyze_turn_spec (unicode (layout e)) s1 cs i v f H1 H2) as (f' & -> & Hf). cbn [deref]. wp_steps.
    split; [done|]. split; [done|]. intros (G1 & G2)%Hf. rewrite (take_S_r cs i v H2).
    apply Forall_app. split; [auto|by apply Forall_singleton].
  - intros f e1 (-> & Hf). cbv beta. wp_steps. rewrite take_ge in Hf by done.
    eexists. split; [done|]. exists value, cs. split_and!; try done. cbn.
    intros Hany. apply Hf. destruct (special_characters f); [|done].
    rewrite !orb_true_r in Hany. cbn in Hany. done.
Qed.

(** *** Events *)

(** Only the analysis has changed, to [a]. *)
Definition analysed e (a : emitter_analysis) : yaml_emitter_t D := set_analysis a e.

Lemma wp_optional_anchor a e :
  wp strict (optional a (fun a => yaml_emitter_analyze_anchor a false))
    (fun _ e' => anchor_opt_fine a = true
       /\ exists x, e' = set_anchor_data x e
            /\ (anchor_ok e.(analysis).(anchor_data) -> anchor_ok x))
    (fun e' => refused e' /\ anchor_opt_fine a = false) e.
Proof.
  destruct a as [a|]; cbn [optional anchor_opt_fine].
  - eapply wp_mono; [apply wp_analyze_anchor| |done]. intros _ e' (H1 & x & H2 & H3). eauto.
  - wp_steps. split; [done|]. exists e.(analysis).(anchor_data). split; [|done].
    by destruct e as [? ? ? ? ? []].
Qed.

Lemma wp_optional_tag (t : option (list Z)) (used : bool) e :
  (match t with Some t => valid_text (cstr t) | None => True end) ->
  directives_ok (emitted_directives e) -> e.(analysis).(tag_data) = mkTagData None 0 None 0 ->
  wp strict (optional t (fun t => if used then yaml_emitter_analyze_tag t else mret tt))
    (fun _ e' => tag_fine (bool_decide (is_Some t) && used) t = true
       /\ exists x, e' = set_tag_data x e /\ tag_ok x
            /\ no_tag x = negb (bool_decide (is_Some t) && used))
    (fun e' => refused e' /\ tag_fine (bool_decide (is_Some t) && used) t = false) e.
Proof.
  intros Hv Hds Ht.
  assert (e = set_tag_data (mkTagData None 0 None 0) e) as Hid
    by (rewrite <- Ht; by destruct e as [? ? ? ? ? []]).
  destruct t as [t|]; cbn [optional tag_fine].
  2:{ wp_steps. rewrite bool_decide_eq_false_2 by (by intros [? ?]). split; [done|].
      exists (mkTagData None 0 None 0). by split_and!. }
  rewrite bool_decide_eq_true_2 by done. cbn [andb]. destruct used; cbn [negb orb].
  - eapply wp_mono; [apply wp_analyze_tag; [done|done|by rewrite Ht]|..]; cbv beta.
    + intros _ e' (H1 & x & H2 & H3 & H4). rewrite bool_decide_eq_false_2 by done. eauto.
    + intros e' (H1 & H2). by rewrite bool_decide_eq_true_2.
  - wp_steps. split; [done|]. exists (mkTagData None 0 None 0). by split_and!.
Qed.

Lemma wp_analyze_event ev e :
  event_ok ev -> directives_ok (emitted_directives e) ->
  wp strict (yaml_emitter_analyze_event ev)
    (fun _ e' => node_fine e.(layout).(canonical) ev = true
       /\ exists a, e' = set_analysis a e /\ analysis_ok e.(layout).(canonical) ev a)
    (fun e' => refused e' /\ node_fine e.(layout).(canonical) ev = false) e.
Proof.
  intros Hev Hds. unfold yaml_emitter_analyze_event. wp_steps.
  set (e1 := set_scalar_data _ _). cbn [canonical layout] in *.
  change (canonical (layout e1)) with (canonical (layout e)). set (canon := canonical (layout e)).
  assert (emitted_directives e1 = emitted_directives e) as Hd1 by done.
  assert (exists a, e1 = set_analysis a e /\ anchor_ok a.(anchor_data)
    /\ a.(tag_data) = mkTagData None 0 None 0) as (a & -> & Ha & Ht) by (eexists; by split_and!).
  clearbody canon. rewrite <- Hd1 in Hds. clear Hd1.
  assert (forall anchor t (used : bool),
    (match t with Some t => valid_text (cstr t) | None => True end) ->
    wp strict (optional anchor (fun a => yaml_emitter_analyze_anchor a false);;
               optional t (fun t => if used then yaml_emitter_analyze_tag t else mret tt))
      (fun _ e' => anchor_opt_fine anchor && tag_fine (bool_decide (is_Some t) && used) t = true
         /\ exists a', e' = set_analysis a' e /\ anchor_ok a'.(anchor_data) /\ tag_ok a'.(tag_data)
              /\ no_tag a'.(tag_data) = negb (bool_decide (is_Some t) && used))
      (fun e' => refused e' /\ anchor_opt_fine anchor && tag_fine (bool_decide (is_Some t) && used) t = false)
      (set_analysis a e)) as Hnode.
  { intros anchor t used Hv. apply wp_bind. eapply wp_mono; [apply wp_optional_anchor|..]; cbv beta.
    - intros _ e2 (-> & x & -> & Hx). cbn [andb].
      eapply wp_mono; [apply (wp_optional_tag t used); [done|done|exact Ht]|..|done]; cbv beta.
      intros _ e3 (-> & y & -> & Hy & Hn). split; [done|].
      exists (mkAnalysis x y a.(scalar_data)). cbn. split_and!; try done. by apply Hx.
    - intros e2 (H1 & ->). done. }
  destruct ev; cbn [node_fine tag_used] in *;
    try (wp_steps; (split; [done|]); exists a; split; [done|]; unfold analysis_ok; rewrite ?Ht; by split_and!).
  - eapply wp_mono; [apply wp_analyze_anchor| |done]. intros _ e2 (H1 & x & -> & Hx). split; [done|].
    exists (mkAnalysis x a.(tag_data) a.(scalar_data)). split; [done|]. unfold analysis_ok. cbn. rewrite Ht. by split_and!.
  - destruct Hev as (Hv & (cs & Hcs & Hcode) & Hlen).
    apply (wp_bind_3 strict _ (fun _ : unit => yaml_emitter_analyze_scalar value length)).
    apply wp_bind. eapply wp_mono; [by apply (Hnode anchor tag _ Hv)| |done].
    intros _ e2 (-> & a2 & -> & H1 & H2 & H3). cbv beta.
    eapply wp_mono; [by apply (wp_analyze_scalar value length cs _ (fun _ => False))| |done].
    intros _ e3 (d & -> & Hd). split; [done|].
    exists (mkAnalysis a2.(anchor_data) a2.(tag_data) d). by split_and!.
  - eapply wp_mono; [apply (Hnode anchor tag (canon || negb implicit) Hev)| |done].
    intros _ e2 (H0 & a2 & -> & H1 & H2 & H3). split; [done|]. exists a2. by split_and!.
  - eapply wp_mono; [apply (Hnode anchor tag (canon || negb implicit) Hev)| |done].
    intros _ e2 (H0 & a2 & -> & H1 & H2 & H3). split; [done|]. exists a2. by split_and!.
Qed.
End analysis.
