(* ===== verification/YamlEventMake.v ===== *)
(** * libyaml: making events ([api.c])

    The functions with which an application makes the events it passes to the
    emitter: they copy their texts, and refuse a text that is not UTF-8.  What
    they make is fit for the emitter ([event_ok]), and they fail for no other
    reason than a bad text or a stack of directives that cannot grow. *)

From Stdlib Require Import ZArith Lia Ascii String.
From stdpp Require Import base list option strings.
From S2P Require Import Prelude YamlData YamlReader YamlUtf8 YamlDocument YamlString YamlWriter YamlEmitWrite YamlEmitSafe YamlEmitter YamlEmitAnalysis.

#[local] Open Scope Z_scope.

(** ** The operations *)

(** They write to the event object only when they succeed. *)
Definition event_prog : Type -> Type := prog yaml_event_t.

Definition init_event (x : yaml_event_data) : event_prog unit :=
  modify (fun _ => EVENT_INIT x mark0 mark0).

(** The test and the copy of a text that may be NULL. *)
Definition copy_text (t : option (list Z)) : event_prog (option (list Z)) :=
  match t with
  | None => mret None
  | Some t => if negb (yaml_check_utf8 (cstr t)) then fail else mret (Some (cstr t))
  end.

Definition yaml_stream_start_event_initialize (encoding : yaml_encoding_t) : event_prog unit :=
  init_event (YAML_STREAM_START_EVENT encoding).

Definition yaml_stream_end_event_initialize : event_prog unit := init_event YAML_STREAM_END_EVENT.

Definition yaml_document_start_event_initialize (version : option yaml_version_directive_t)
    (tags : list yaml_tag_directive_t) (implicit : bool) : event_prog unit :=
  match copy_directives tags STACK_INIT with
  | None => fail
  | Some s => init_event (YAML_DOCUMENT_START_EVENT version (rev s.(items)) implicit)
  end.

Definition yaml_document_end_event_initialize (implicit : bool) : event_prog unit :=
  init_event (YAML_DOCUMENT_END_EVENT implicit).

Definition yaml_alias_event_initialize (anchor : list Z) : event_prog unit :=
  if negb (yaml_check_utf8 (cstr anchor)) then fail else init_event (YAML_ALIAS_EVENT (cstr anchor)).

(** [value] is the block that the pointer points to, up to its end: a length
    behind it reads outside. *)
Definition yaml_scalar_event_initialize (anchor tag : option (list Z)) (value : list Z) (len : Z)
    (plain_implicit quoted_implicit : bool) (style : yaml_scalar_style_t) : event_prog unit :=
  anchor_copy ← copy_text anchor;
  tag_copy ← copy_text tag;
  let len := if len <? 0 then Z.of_nat (length (cstr value)) else len in
  if Z.of_nat (length value) <? len then crash
  else
    let text := take (Z.to_nat len) value in
    if negb (yaml_check_utf8 text) then fail
    else init_event (YAML_SCALAR_EVENT anchor_copy tag_copy text len plain_implicit quoted_implicit style).

Definition yaml_sequence_start_event_initialize (anchor tag : option (list Z)) (implicit : bool)
    (style : yaml_sequence_style_t) : event_prog unit :=
  anchor_copy ← copy_text anchor;
  tag_copy ← copy_text tag;
  init_event (YAML_SEQUENCE_START_EVENT anchor_copy tag_copy implicit style).

Definition yaml_sequence_end_event_initialize : event_prog unit := init_event YAML_SEQUENCE_END_EVENT.

Definition yaml_mapping_start_event_initialize (anchor tag : option (list Z)) (implicit : bool)
    (style : yaml_mapping_style_t) : event_prog unit :=
  anchor_copy ← copy_text anchor;
  tag_copy ← copy_text tag;
  init_event (YAML_MAPPING_START_EVENT anchor_copy tag_copy implicit style).

Definition yaml_mapping_end_event_initialize : event_prog unit := init_event YAML_MAPPING_END_EVENT.

(** [memset(event, 0, sizeof(yaml_event_t))], behind the releases. *)
Definition yaml_event_delete : event_prog unit := modify (fun _ => no_event).

(** ** Requests

    The event an application asks for, as data: its texts are as they stand in
    memory, with whatever follows their NUL. *)

Definition initialize (want : yaml_event_data) : event_prog unit :=
  match want with
  | YAML_NO_EVENT => yaml_event_delete
  | YAML_STREAM_START_EVENT enc => yaml_stream_start_event_initialize enc
  | YAML_STREAM_END_EVENT => yaml_stream_end_event_initialize
  | YAML_DOCUMENT_START_EVENT v tags implicit => yaml_document_start_event_initialize v tags implicit
  | YAML_DOCUMENT_END_EVENT implicit => yaml_document_end_event_initialize implicit
  | YAML_ALIAS_EVENT a => yaml_alias_event_initialize a
  | YAML_SCALAR_EVENT a t v n p q y => yaml_scalar_event_initialize a t v n p q y
  | YAML_SEQUENCE_START_EVENT a t i y => yaml_sequence_start_event_initialize a t i y
  | YAML_SEQUENCE_END_EVENT => yaml_sequence_end_event_initialize
  | YAML_MAPPING_START_EVENT a t i y => yaml_mapping_start_event_initialize a t i y
  | YAML_MAPPING_END_EVENT => yaml_mapping_end_event_initialize
  end.

(** The number of octets of the value that is asked for. *)
Definition asked_length (value : list Z) (len : Z) : Z :=
  if len <? 0 then Z.of_nat (length (cstr value)) else len.

(** The texts of a request. *)
Definition request_texts (want : yaml_event_data) : list (list Z) :=
  let opt (t : option (list Z)) := match t with Some t => [cstr t] | None => [] end in
  match want with
  | YAML_DOCUMENT_START_EVENT _ tags _ =>
      concat (map (fun d => [cstr d.(td_handle); cstr d.(td_prefix)]) tags)
  | YAML_ALIAS_EVENT a => [cstr a]
  | YAML_SCALAR_EVENT a t v n _ _ _ => opt a ++ opt t ++ [take (Z.to_nat (asked_length v n)) v]
  | YAML_SEQUENCE_START_EVENT a t _ _ | YAML_MAPPING_START_EVENT a t _ _ => opt a ++ opt t
  | _ => []
  end.

Definition request_fits (want : yaml_event_data) : bool :=
  match want with
  | YAML_SCALAR_EVENT _ _ v n _ _ _ => asked_length v n <=? Z.of_nat (length v)
  | _ => true
  end.

(** The event with its texts copied. *)
Definition copied (want : yaml_event_data) : yaml_event_data :=
  let opt := option_map cstr in
  match want with
  | YAML_DOCUMENT_START_EVENT v tags i =>
      YAML_DOCUMENT_START_EVENT v (map (fun d => mkTagDirective (cstr d.(td_handle)) (cstr d.(td_prefix))) tags) i
  | YAML_ALIAS_EVENT a => YAML_ALIAS_EVENT (cstr a)
  | YAML_SCALAR_EVENT a t v n p q y =>
      YAML_SCALAR_EVENT (opt a) (opt t) (take (Z.to_nat (asked_length v n)) v) (asked_length v n) p q y
  | YAML_SEQUENCE_START_EVENT a t i y => YAML_SEQUENCE_START_EVENT (opt a) (opt t) i y
  | YAML_MAPPING_START_EVENT a t i y => YAML_MAPPING_START_EVENT (opt a) (opt t) i y
  | _ => want
  end.

(** ** Correctness *)

Lemma valid_checked l : Forall is_octet l -> yaml_check_utf8 l = true <-> valid_text l.
Proof.
  intros Ho. unfold valid_text. split.
  - intros H. destruct (check_chars_inv _ _ Ho H) as (vs & Hv & ->). by exists vs.
  - intros (vs & -> & Hv). by apply check_chars_text.
Qed.

Definition octets (l : list Z) : bool := forallb (fun b => (0 <=? b) && (b <? 256)) l.

Lemma octets_octets l : octets l = true -> Forall is_octet l.
Proof.
  unfold octets. rewrite forallb_forall. intros H. apply List.Forall_forall. intros b Hb.
  specialize (H b Hb). unfold is_octet. lia.
Qed.

Lemma octets_decided ls : forallb octets ls = true -> Forall (Forall is_octet) ls.
Proof. rewrite forallb_forall. intros H. apply List.Forall_forall. intros l Hl. by apply octets_octets, H. Qed.

(** The copies of the directives: all of them, or one of the texts is bad, or
    the block has reached its limit. *)
Lemma copy_directives_spec ds : forall s,
  match copy_directives ds s with
  | Some s' => rev s'.(items) = rev s.(items)
                 ++ map (fun d => mkTagDirective (cstr d.(td_handle)) (cstr d.(td_prefix))) ds
               /\ Forall (fun d => yaml_check_utf8 (cstr d.(td_handle)) = true
                                   /\ yaml_check_utf8 (cstr d.(td_prefix)) = true) ds
  | None => Exists (fun d => yaml_check_utf8 (cstr d.(td_handle)) = false
                             \/ yaml_check_utf8 (cstr d.(td_prefix)) = false) ds
            \/ INT_MAX / 2 <= sizeof_tag_directive * (Z.of_nat (length s.(items)) + Z.of_nat (length ds))
  end.
Proof.
  induction ds as [|d ds IH]; intros s; cbn [copy_directives].
  { cbn. rewrite app_nil_r. done. }
  destruct (yaml_check_utf8 (cstr (td_handle d))) eqn:E1; cbn [negb].
  2:{ left. apply Exists_cons_hd. by left. }
  destruct (yaml_check_utf8 (cstr (td_prefix d))) eqn:E2; cbn [negb].
  2:{ left. apply Exists_cons_hd. by right. }
  destruct (stack_push sizeof_tag_directive s _) as [s1|] eqn:Ep; cbn [mbind option_bind].
  - specialize (IH s1). pose proof (stack_push_items _ _ _ _ Ep) as Hi.
    destruct (copy_directives ds s1) as [s2|].
    + destruct IH as [-> IH2]. rewrite Hi. cbn [rev map]. rewrite <- app_assoc. split; [done|].
      by apply Forall_cons.
    + destruct IH as [IH|IH]; [left; by apply Exists_cons_tl|right].
      rewrite Hi in IH. cbn [length] in *. lia.
  - right. unfold stack_push, yaml_stack_extend in Ep. destruct (_ =? _) eqn:El; [|done].
    destruct (_ >=? _) eqn:Eg; [|done]. unfold sizeof_tag_directive in *. lia.
Qed.

Lemma wp_copy_text t ev :
  (forall x, t = Some x -> Forall is_octet (cstr x)) ->
  wp strict (copy_text t)
    (fun r ev' => ev' = ev /\ r = option_map cstr t /\ forall x, t = Some x -> valid_text (cstr x))
    (fun ev' => ev' = ev /\ exists x, t = Some x /\ ~ valid_text (cstr x)) ev.
Proof.
  intros Ho. unfold copy_text. destruct t as [t|]; [|by wp_steps].
  pose proof (valid_checked _ (Ho t eq_refl)) as Hv.
  destruct (yaml_check_utf8 (cstr t)); cbn [negb]; wp_steps.
  - split_and!; [done|done|]. intros x [= <-]. by apply Hv.
  - split; [done|]. exists t. split; [done|]. intros H. by apply Hv in H.
Qed.

(** The directives, as one. *)
Definition too_many (want : yaml_event_data) : Prop :=
  match want with
  | YAML_DOCUMENT_START_EVENT _ tags _ => INT_MAX / 2 <= sizeof_tag_directive * Z.of_nat (length tags)
  | _ => False
  end.

(** The two texts of a node, and what is done with their copies. *)
Lemma wp_copy_node a t (k : option (list Z) -> option (list Z) -> event_prog unit) Q E ev :
  (forall x, a = Some x -> Forall is_octet (cstr x)) -> (forall x, t = Some x -> Forall is_octet (cstr x)) ->
  ((forall x, a = Some x -> valid_text (cstr x)) -> (forall x, t = Some x -> valid_text (cstr x)) ->
   wp strict (k (option_map cstr a) (option_map cstr t)) Q E ev) ->
  ((exists x, (a = Some x \/ t = Some x) /\ ~ valid_text (cstr x)) -> E ev) ->
  wp strict (a' ← copy_text a; t' ← copy_text t; k a' t') Q E ev.
Proof.
  intros Ha Ht Hk HE. wp_step. eapply wp_mono; [by apply wp_copy_text|..]; cbv beta.
  2:{ intros ev' (-> & x & -> & Hx). apply HE. exists x. auto. }
  intros a' ev' (-> & -> & Va). wp_step. eapply wp_mono; [by apply wp_copy_text|..]; cbv beta.
  2:{ intros ev' (-> & x & -> & Hx). apply HE. exists x. auto. }
  intros t' ev' (-> & -> & Vt). auto.
Qed.

(** A text that may be NULL, in a list of texts. *)
Definition opt_text (t : option (list Z)) : list (list Z) :=
  match t with Some t => [cstr t] | None => [] end.

Lemma opt_text_Forall (P : list Z -> Prop) t : Forall P (opt_text t) <-> forall x, t = Some x -> P (cstr x).
Proof.
  destruct t as [t|]; cbn; rewrite ?Forall_singleton; split; try done; [by intros H x [= <-]|auto].
Qed.

Lemma directive_texts (P : list Z -> Prop) tags :
  Forall P (concat (map (fun d => [cstr d.(td_handle); cstr d.(td_prefix)]) tags))
  <-> Forall (fun d => P (cstr d.(td_handle)) /\ P (cstr d.(td_prefix))) tags.
Proof.
  induction tags as [|d tags IH]; cbn; [done|]. rewrite !Forall_cons, IH. tauto.
Qed.

(** A request with valid texts is fit for the emitter. *)
Lemma copied_ok want :
  Forall valid_text (request_texts want) -> request_fits want = true -> event_ok (copied want).
Proof.
  assert (forall t, Forall valid_text (opt_text t) ->
    match option_map cstr t with Some t => valid_text (cstr t) | None => True end) as Htag.
  { intros [t|] H; [|done]. cbn. rewrite cstr_idem. by apply (opt_text_Forall valid_text (Some t)). }
  intros Hv Hf. destruct want as [|enc| |v tags i|i|a|a t v n p q y|a t i y| |a t i y|];
    cbn [request_texts copied event_ok] in *; try done;
    try (fold (opt_text a) (opt_text t) in Hv; rewrite !Forall_app in Hv).
  - apply directive_texts in Hv. apply Forall_map. eapply Forall_impl; [exact Hv|]. intros d [_ H]. cbn. by rewrite cstr_idem.
  - destruct Hv as (_ & Ht & Hv). rewrite Forall_singleton in Hv. split; [by apply Htag|]. split; [done|].
    apply Z.leb_le in Hf. rewrite length_take.
    assert (0 <= asked_length v n) by (unfold asked_length; destruct (n <? 0) eqn:?; lia). lia.
  - destruct Hv as [_ Hv]. by apply Htag.
  - destruct Hv as [_ Hv]. by apply Htag.
Qed.

(** The start of a collection. *)
Lemma wp_make_collection a t (make : option (list Z) -> option (list Z) -> yaml_event_data) ev :
  Forall (Forall is_octet) (opt_text a ++ opt_text t) ->
  wp strict (a' ← copy_text a; t' ← copy_text t; init_event (make a' t'))
    (fun _ ev' => ev' = EVENT_INIT (make (option_map cstr a) (option_map cstr t)) mark0 mark0
       /\ Forall valid_text (opt_text a ++ opt_text t))
    (fun ev' => ev' = ev /\ ~ Forall valid_text (opt_text a ++ opt_text t)) ev.
Proof.
  rewrite !Forall_app, !opt_text_Forall. intros [Ha Ht].
  apply wp_copy_node; [done|done| |].
  - intros Va Vt. unfold init_event. wp_steps. by rewrite !Forall_app, !opt_text_Forall.
  - intros (x & Hx & Hn). split; [done|]. rewrite !Forall_app, !opt_text_Forall. intros (H1 & H2). destruct Hx; eauto.
Qed.


