(* ===== verification/YamlEmitGrammar.v ===== *)
(** * libyaml: the emitter accepts exactly the grammar of events

    The configuration of the state machine of [emitter.c] abstracts to a state
    of the automaton [nest] of [YamlEvents], the one that the parser refines.
    An event whose texts are valid is either processed, and then it is a move
    of the automaton with acceptable data, or refused, and then it is not; the
    only other failures are those of the write handler and of memory. *)

From Stdlib Require Import ZArith Lia Ascii String.
From stdpp Require Import base list option strings.
From S2P Require Import Prelude YamlData YamlReader YamlChars YamlUtf8 YamlDocument YamlEvents YamlString YamlStringSpec YamlWriter YamlWriterSpec YamlEmitWrite YamlEmitText YamlEmitSafe YamlEmitter YamlEmitAnalysis.

#[local] Open Scope Z_scope.

(** ** Abstraction of the configuration *)

(** The collection that a state to return to stands in, before the node that
    is being emitted is complete. *)
Definition cont_frame (s : yaml_emitter_state_t) : option frame :=
  match s with
  | YAML_EMIT_FLOW_SEQUENCE_ITEM_STATE | YAML_EMIT_BLOCK_SEQUENCE_ITEM_STATE => Some FSeq
  | YAML_EMIT_FLOW_MAPPING_SIMPLE_VALUE_STATE | YAML_EMIT_FLOW_MAPPING_VALUE_STATE
  | YAML_EMIT_BLOCK_MAPPING_SIMPLE_VALUE_STATE | YAML_EMIT_BLOCK_MAPPING_VALUE_STATE => Some FKey
  | YAML_EMIT_FLOW_MAPPING_KEY_STATE | YAML_EMIT_BLOCK_MAPPING_KEY_STATE => Some FVal
  | _ => None
  end.

Fixpoint stack_of (l : list yaml_emitter_state_t) : option (list frame) :=
  match l with
  | [] => None
  | [YAML_EMIT_DOCUMENT_END_STATE] => Some []
  | s :: r => f ← cont_frame s; fs ← stack_of r; Some (f :: fs)
  end.

(** The collection the current state stands in. *)
Definition frame_of (s : yaml_emitter_state_t) : option frame :=
  match s with
  | YAML_EMIT_FLOW_SEQUENCE_FIRST_ITEM_STATE | YAML_EMIT_FLOW_SEQUENCE_ITEM_STATE
  | YAML_EMIT_BLOCK_SEQUENCE_FIRST_ITEM_STATE | YAML_EMIT_BLOCK_SEQUENCE_ITEM_STATE => Some FSeq
  | YAML_EMIT_FLOW_MAPPING_FIRST_KEY_STATE | YAML_EMIT_FLOW_MAPPING_KEY_STATE
  | YAML_EMIT_BLOCK_MAPPING_FIRST_KEY_STATE | YAML_EMIT_BLOCK_MAPPING_KEY_STATE => Some FKey
  | YAML_EMIT_FLOW_MAPPING_SIMPLE_VALUE_STATE | YAML_EMIT_FLOW_MAPPING_VALUE_STATE
  | YAML_EMIT_BLOCK_MAPPING_SIMPLE_VALUE_STATE | YAML_EMIT_BLOCK_MAPPING_VALUE_STATE => Some FVal
  | _ => None
  end.

Definition emit_nest (s : yaml_emitter_state_t) (l : list yaml_emitter_state_t) : option nest :=
  match s, l with
  | YAML_EMIT_STREAM_START_STATE, [] => Some NStart
  | YAML_EMIT_FIRST_DOCUMENT_START_STATE, [] | YAML_EMIT_DOCUMENT_START_STATE, [] => Some NStream
  | YAML_EMIT_DOCUMENT_CONTENT_STATE, [] => Some (NDoc [])
  | YAML_EMIT_DOCUMENT_END_STATE, [] => Some NDocDone
  | YAML_EMIT_END_STATE, [] => Some NEnd
  | _, _ => f ← frame_of s; fs ← stack_of l; Some (NDoc (f :: fs))
  end.

(** The state before the first entry of a collection, with no indentation yet. *)
Definition first_state (s : yaml_emitter_state_t) : bool :=
  match s with
  | YAML_EMIT_FLOW_SEQUENCE_FIRST_ITEM_STATE | YAML_EMIT_BLOCK_SEQUENCE_FIRST_ITEM_STATE
  | YAML_EMIT_FLOW_MAPPING_FIRST_KEY_STATE | YAML_EMIT_BLOCK_MAPPING_FIRST_KEY_STATE => true
  | _ => false
  end.

(** The levels of indentation on the stack. *)
Definition levels (s : yaml_emitter_state_t) (n : nest) : nat :=
  match n with
  | NDoc fs => if first_state s then pred (length fs) else length fs
  | _ => 0
  end.

Lemma stack_of_cons s l :
  stack_of (s :: l) =
  if bool_decide (s = YAML_EMIT_DOCUMENT_END_STATE /\ l = []) then Some []
  else f ← cont_frame s; fs ← stack_of l; Some (f :: fs).
Proof. by destruct s, l. Qed.

(** A state that is popped when a node is complete. *)
Lemma stack_pop s l fs :
  stack_of (s :: l) = Some fs ->
  emit_nest s l = Some (node_done fs) /\ levels s (node_done fs) = length fs.
Proof.
  rewrite stack_of_cons. case_bool_decide as Hs; [by destruct Hs as [-> ->]; intros [= <-]|].
  intros (f & Hf & H)%bind_Some. apply bind_Some in H as (fs' & Hfs & [= <-]).
  destruct s; cbn in Hf; try discriminate Hf; injection Hf as <-;
    unfold emit_nest; cbn [frame_of mbind option_bind]; rewrite Hfs; done.
Qed.

Lemma stack_push_frame s c l fs :
  cont_frame c = Some s -> stack_of l = Some fs -> stack_of (c :: l) = Some (s :: fs).
Proof.
  intros Hc Hl. destruct c; cbn in Hc; try discriminate Hc; injection Hc as <-;
    cbn [stack_of]; rewrite ?Hl; done.
Qed.

(** ** Failures *)

Definition out_of_memory {D} (e : yaml_emitter_t D) : Prop := e.(em_err).(e_error) = YAML_MEMORY_ERROR.

(** The handler failed, a stack could not grow, or the event was refused, for
    the reason [P]. *)
Definition fails {D} (P : Prop) (e : yaml_emitter_t D) : Prop :=
  write_failed e \/ out_of_memory e \/ (refused e /\ P).

Lemma fails_mono {D} (P P' : Prop) (e : yaml_emitter_t D) : (P -> P') -> fails P e -> fails P' e.
Proof. unfold fails. tauto. Qed.

Section machine.
Context {D : Type} (h : yaml_write_handler_t D) (sofar : D -> list Z) {col : Collects h sofar}.
Implicit Types (e : yaml_emitter_t D).

Definition good e : Prop := exists cs, holds h sofar e cs.

(** ** Tracking the machine

    Since [e0] the layout, the queue and the directives are as they were; the
    analysis is [A], the states on the stack are [l], and [k] levels of
    indentation are on the other. *)
Record tracks (e0 : yaml_emitter_t D) (A : emitter_analysis) (l : list yaml_emitter_state_t)
    (k : nat) e : Prop := mkTracks {
  tr_good : good e;
  tr_layout : e.(layout) = e0.(layout);
  tr_events : e.(machine).(e_events) = e0.(machine).(e_events);
  tr_directives : e.(machine).(e_tag_directives) = e0.(machine).(e_tag_directives);
  tr_analysis : e.(analysis) = A;
  tr_states : e.(machine).(e_states).(items) = l;
  tr_indents : length e.(machine).(e_indents).(items) = k
}.

Section tracking.
Variables (e0 : yaml_emitter_t D) (A : emitter_analysis).

Lemma track_write P m l k e :
  (safe h sofar e m (fun _ : unit => True)) -> tracks e0 A l k e ->
  wp strict m (fun _ e' => tracks e0 A l k e') (fails P) e.
Proof.
  intros Hm [Hg H1 H2 H3 H4 H5 H6]. eapply wp_mono; [apply Hm; by split| |].
  - intros _ e' [[(M1 & M2 & M3 & M4 & M5) Hg'] _]. by split; rewrite ?M2, ?M3, ?M4.
  - intros e' H. by left.
Qed.

(** Assignments to the other fields of the machine and to the position. *)
Lemma track_assign (f : yaml_emitter_t D -> yaml_emitter_t D) l k e :
  (forall e, (f e).(writing) = e.(writing) /\ (f e).(layout) = e.(layout) /\ (f e).(analysis) = e.(analysis)
     /\ (f e).(machine).(e_events) = e.(machine).(e_events)
     /\ (f e).(machine).(e_tag_directives) = e.(machine).(e_tag_directives)
     /\ (f e).(machine).(e_states) = e.(machine).(e_states)
     /\ (f e).(machine).(e_indents) = e.(machine).(e_indents)) ->
  tracks e0 A l k e -> tracks e0 A l k (f e).
Proof.
  intros Hf [[cs Hg] H1 H2 H3 H4 H5 H6]. destruct (Hf e) as (F1 & F2 & F3 & F4 & F5 & F6 & F7).
  split; try congruence. exists cs. destruct Hg. split; rewrite ?F1; done.
Qed.

Lemma wp_E_PUSH {X} sizeof (get : emitter_machine -> stack X) set v P (Q : unit -> yaml_emitter_t D -> Prop) e :
  (forall s', items s' = v :: items (get e.(machine)) -> Q tt (set s' e)) ->
  wp strict (E_PUSH sizeof get set v) Q (fails P) e.
Proof.
  intros HQ. unfold E_PUSH, e_memory_error. wp_steps.
  destruct (stack_push sizeof (get (machine e)) v) as [s'|] eqn:Ep; wp_steps.
  - apply HQ. by eapply stack_push_items.
  - right. by left.
Qed.

Lemma track_push_state P s l k e :
  tracks e0 A l k e ->
  wp strict (push_e_state s) (fun _ e' => tracks e0 A (s :: l) k e') (fails P) e.
Proof.
  intros [[cs Hg] H1 H2 H3 H4 H5 H6]. apply wp_E_PUSH. intros s' Hs'.
  split; cbn; try done; [|by rewrite Hs', H5]. exists cs. destruct Hg. by split.
Qed.

Lemma track_next_state s l k e P (Q : unit -> yaml_emitter_t D -> Prop) :
  tracks e0 A (s :: l) k e ->
  (forall e', tracks e0 A l k e' -> e'.(machine).(e_state) = s -> Q tt e') ->
  wp strict set_next_state Q (fails P) e.
Proof.
  intros [[cs Hg] H1 H2 H3 H4 H5 H6] HQ. unfold set_next_state, pop_e_state, E_POP. wp_steps.
  rewrite H5. wp_steps. apply HQ; [|done]. split; cbn; try done. exists cs. destruct Hg. by split.
Qed.

Lemma track_increase_indent P flow indentless l k e :
  tracks e0 A l k e ->
  wp strict (yaml_emitter_increase_indent flow indentless) (fun _ e' => tracks e0 A l (S k) e')
    (fails P) e.
Proof.
  intros [[cs Hg] H1 H2 H3 H4 H5 H6]. unfold yaml_emitter_increase_indent. wp_steps.
  apply wp_E_PUSH. intros s' Hs'. wp_steps.
  assert (tracks e0 A l (S k) (set_e_indents s' e)) as Ht.
  { split; cbn; try done; [|by rewrite Hs'; cbn; rewrite H6]. exists cs. destruct Hg. by split. }
  destruct (_ <? 0); [|destruct (negb indentless)]; wp_steps; [| |exact Ht];
    (eapply (track_assign (set_e_indent _)); [|exact Ht]; done).
Qed.

Lemma track_restore_indent P l k e :
  tracks e0 A l (S k) e ->
  wp strict restore_indent (fun _ e' => tracks e0 A l k e') (fails P) e.
Proof.
  intros [[cs Hg] H1 H2 H3 H4 H5 H6]. unfold restore_indent, pop_e_indent, E_POP. wp_steps.
  destruct (items (e_indents (machine e))) as [|i r] eqn:Ei; [done|]. wp_steps.
  split; cbn; try done; [|by injection H6]. exists cs. destruct Hg. by split.
Qed.

(** A statement that writes, followed by others. *)
Lemma track_seq P {X} (m : eprog D unit) (k : eprog D X) Q l n e :
  safe h sofar e m (fun _ => True) -> tracks e0 A l n e ->
  (forall e', tracks e0 A l n e' -> wp strict k Q (fails P) e') ->
  wp strict (m;; k) Q (fails P) e.
Proof.
  intros Hm He Hk. apply wp_bind. eapply wp_mono; [by apply (track_write P)| |done].
  intros [] e' H; cbv beta in H. by apply Hk.
Qed.

Lemma safe_indicator i nw iw ii e :
  forallb (fun c => (0x20 <=? c) && (c <=? 0x7E)) (bytes_of i) = true ->
  safe h sofar e (indicator i nw iw ii) (fun _ => True).
Proof.
  intros Hi. apply safe_write_indicator; [done|]. by apply graph_decided.
Qed.

(** ** Writing what was analysed *)

Lemma track_process_anchor P l k e :
  anchor_ok A.(anchor_data) -> tracks e0 A l k e ->
  wp strict yaml_emitter_process_anchor (fun _ e' => tracks e0 A l k e') (fails P) e.
Proof.
  intros Ha He. unfold yaml_emitter_process_anchor. wp_steps. rewrite (tr_analysis _ _ _ _ _ He).
  unfold anchor_ok in Ha. destruct (ad_anchor (anchor_data A)) as [text|]; cbn [optional]; [|by wp_steps].
  destruct Ha as [Ht ->]. eapply track_seq; [|exact He|].
  - apply safe_indicator. by destruct (ad_alias (anchor_data A)).
  - intros e1 H1. apply track_write; [|done]. by apply safe_write_anchor.
Qed.

Lemma track_process_tag P l k e :
  tag_ok A.(tag_data) -> tracks e0 A l k e ->
  wp strict yaml_emitter_process_tag (fun _ e' => tracks e0 A l k e') (fails P) e.
Proof.
  intros [Hh Hs] He. unfold yaml_emitter_process_tag. wp_steps. rewrite (tr_analysis _ _ _ _ _ He).
  destruct (tg_handle (tag_data A)) as [handle|].
  - destruct Hh as [Hh ->]. eapply track_seq; [by apply safe_write_tag_handle|exact He|].
    intros e1 H1. destruct (tg_suffix (tag_data A)) as [suffix|]; cbn [optional]; [|by wp_steps].
    destruct Hs as [(cs & Ht & Hc) ->]. apply track_write; [|done]. by eapply safe_write_tag_content.
  - destruct (tg_suffix (tag_data A)) as [suffix|]; [|by wp_steps].
    destruct Hs as [(cs & Ht & Hc) ->]. eapply track_seq; [by apply safe_indicator|exact He|].
    intros e1 H1. eapply track_seq; [by eapply safe_write_tag_content|exact H1|].
    intros e2 H2. apply track_write; [by apply safe_indicator|done].
Qed.

(** The style that was chosen is allowed. *)
Definition style_ok (d : scalar_analysis) : Prop :=
  match d.(sc_style) with
  | YAML_ANY_SCALAR_STYLE => False
  | YAML_DOUBLE_QUOTED_SCALAR_STYLE => True
  | _ => d.(flow_plain_allowed) || d.(block_plain_allowed) || d.(single_quoted_allowed)
         || d.(block_allowed) = true
  end.

Lemma track_process_scalar P l k e :
  scalar_ok A.(scalar_data) -> style_ok A.(scalar_data) -> 2 <= e0.(layout).(best_indent) <= 9 ->
  tracks e0 A l k e ->
  wp strict yaml_emitter_process_scalar (fun _ e' => tracks e0 A l k e') (fails P) e.
Proof.
  intros (text & cs & Hv & Ht & Hc & Hlen & Hp) Hstyle Hbest He. unfold yaml_emitter_process_scalar.
  wp_steps. rewrite (tr_analysis _ _ _ _ _ He), Hv, Hlen. cbn [deref]. wp_steps.
  rewrite <- (tr_layout _ _ _ _ _ He) in Hbest. unfold style_ok in Hstyle.
  assert (forall b, b = true -> (b = true -> Forall (fun v => printable_char v = true) cs) ->
    Forall out_char cs) as Hout.
  { intros b Hb HF. eapply Forall_impl; [exact (HF Hb)|]. apply printable_out. }
  destruct (sc_style (scalar_data A)); [done|..]; apply track_write; try done.
  - exact (safe_write_plain h sofar e text cs Ht (Hout _ Hstyle Hp) _).
  - exact (safe_write_single_quoted h sofar e text cs Ht (Hout _ Hstyle Hp) _).
  - by eapply safe_write_double_quoted.
  - exact (safe_write_literal h sofar e text cs Ht (Hout _ Hstyle Hp) Hbest).
  - exact (safe_write_folded h sofar e text cs Ht (Hout _ Hstyle Hp) Hbest).
Qed.
End tracking.

(** *** The choice of a style *)

Lemma scalar_style_ok style canon flow simple nt pi d :
  style_ok (mkScalarData d.(sc_value) d.(sc_length) d.(multiline) d.(flow_plain_allowed)
    d.(block_plain_allowed) d.(single_quoted_allowed) d.(block_allowed)
    (scalar_style style canon flow simple nt pi d)).
Proof.
  unfold style_ok, scalar_style. cbn [sc_style flow_plain_allowed block_plain_allowed
    single_quoted_allowed block_allowed].
  set (s3 := if simple && multiline d then _ else _).
  assert (s3 <> YAML_ANY_SCALAR_STYLE) as H3
    by (unfold s3; destruct style, canon, (simple && multiline d); done).
  clearbody s3. set (c := _ || (nt && negb pi)).
  assert (c = false -> flow_plain_allowed d || block_plain_allowed d = true) as Hc.
  { unfold c. destruct flow, (flow_plain_allowed d), (block_plain_allowed d); done. }
  clearbody c. destruct s3; [done|..]; cbn;
    destruct c; cbn; rewrite ?Hc by done; destruct (single_quoted_allowed d), (block_allowed d); cbn;
    rewrite ?orb_true_r; try done; destruct flow, simple; cbn; rewrite ?orb_true_r; done.
Qed.

Lemma track_select_style e0 A l k e canon a t v len pi qi style :
  let ev := YAML_SCALAR_EVENT a t v len pi qi style in
  analysis_ok canon ev A -> tracks e0 A l k e ->
  wp strict (yaml_emitter_select_scalar_style style pi qi)
    (fun _ e' => (pi || qi || bool_decide (is_Some t)) = true
       /\ exists A', tracks e0 A' l k e' /\ anchor_ok A'.(anchor_data) /\ tag_ok A'.(tag_data)
            /\ scalar_ok A'.(scalar_data) /\ style_ok A'.(scalar_data))
    (fun e' => refused e' /\ (pi || qi || bool_decide (is_Some t)) = false) e.
Proof.
  intros ev Hok He. assert (A = e.(analysis)) as -> by (symmetry; by eapply tr_analysis).
  destruct Hok as (Ha & Ht & Hn & Hs). set (A := e.(analysis)) in *.
  unfold yaml_emitter_select_scalar_style. wp_steps. unfold id. fold A. change (_ && bool_decide (tg_suffix _ = None)) with (no_tag A.(tag_data)).
  rewrite Hn. cbn [tag_used ev].
  destruct (negb (bool_decide (is_Some t) && (canon || negb (pi || qi))) && negb pi && negb qi) eqn:Eno.
  { apply wp_emitter_error. intros e' He'. split; [done|].
    destruct pi, qi, (bool_decide (is_Some t)), canon; done. }
  assert ((pi || qi || bool_decide (is_Some t)) = true) as Hok
    by (destruct pi, qi, (bool_decide (is_Some t)), canon; done).
  set (nt := negb (bool_decide (is_Some t) && (canon || negb (pi || qi)))). set (st := scalar_style _ _ _ _ _ _ _). wp_step.
  assert (forall A1, tracks e0 A1 l k (set_analysis A1 e)) as Htr.
  { intros A1. destruct He as [[cs Hg] H1 H2 H3 H4 H5 H6]. split; try done.
    exists cs. destruct Hg. by split. }
  assert (scalar_ok (mkScalarData A.(scalar_data).(sc_value) A.(scalar_data).(sc_length)
    A.(scalar_data).(multiline) A.(scalar_data).(flow_plain_allowed) A.(scalar_data).(block_plain_allowed)
    A.(scalar_data).(single_quoted_allowed) A.(scalar_data).(block_allowed) st)) as Hs'.
  { destruct Hs as (text & cs & G1 & G2 & G3 & G4 & G5). exists text, cs. by split_and!. }
  destruct (nt && negb qi && negb (bool_decide (st = YAML_PLAIN_SCALAR_STYLE))); wp_steps; (split; [done|]).
  - eexists (mkAnalysis A.(anchor_data) (mkTagData (Some [ch "!"]) 1 A.(tag_data).(tg_suffix)
      A.(tag_data).(tg_suffix_length)) _).
    split; [|split; [exact Ha|split; [|split; [exact Hs'|apply scalar_style_ok]]]].
    + exact (Htr _).
    + destruct Ht as [_ Ht2]. split; cbn; [|done]. split; [|done]. by apply Forall_singleton.
  - eexists (mkAnalysis A.(anchor_data) A.(tag_data) _).
    split; [|split; [exact Ha|split; [exact Ht|split; [exact Hs'|apply scalar_style_ok]]]].
    exact (Htr _).
Qed.

(** ** Nodes *)

(** The part of [acceptable] that is tested when a scalar is emitted. *)
Definition scalar_fine (ev : yaml_event_data) : bool :=
  match ev with
  | YAML_SCALAR_EVENT _ t _ _ pi qi _ => pi || qi || bool_decide (is_Some t)
  | _ => true
  end.

(** The machine has arrived in a configuration of [n]. *)
Definition arrives (e0 : yaml_emitter_t D) (n : nest) e : Prop := exists A l,
  tracks e0 A l (levels e.(machine).(e_state) n) e /\ emit_nest e.(machine).(e_state) l = Some n.

Definition stepped (e0 : yaml_emitter_t D) (n : nest) (ev : yaml_event_data) e : Prop :=
  exists n', nest_step n ev = Some n' /\ scalar_fine ev = true /\ arrives e0 n' e.
Definition unfit (n : nest) (ev : yaml_event_data) : Prop :=
  nest_step n ev = None \/ scalar_fine ev = false.

Section nodes.
Variables (e0 : yaml_emitter_t D) (A : emitter_analysis) (ev : yaml_event_data).
Hypotheses (HA : analysis_ok e0.(layout).(canonical) ev A)
  (Hbest : 2 <= e0.(layout).(best_indent) <= 9).

(** A node is complete: back to the state on the stack. *)
Lemma track_complete P A' l fs n e (Q : unit -> yaml_emitter_t D -> Prop) :
  stack_of l = Some fs -> n = node_done fs -> tracks e0 A' l (length fs) e ->
  (forall e', arrives e0 n e' -> Q tt e') ->
  wp strict set_next_state Q (fails P) e.
Proof.
  intros Hl -> He HQ. destruct l as [|s l]; [done|]. destruct (stack_pop s l fs Hl) as [H1 H2].
  eapply track_next_state; [exact He|]. intros e' H3 H4. apply HQ. exists A', l. rewrite H4. by rewrite H2.
Qed.

(** A collection is opened. *)
Lemma arrives_open A' l fs s f e :
  stack_of l = Some fs -> frame_of s = Some f -> first_state s = true ->
  tracks e0 A' l (length fs) e -> arrives e0 (NDoc (f :: fs)) (set_e_state s e).
Proof.
  intros Hl Hf Hfirst He. exists A', l. cbn [machine set_e_state set_machine e_state levels].
  rewrite Hfirst. split; [by apply (track_assign e0 A' (set_e_state s))|].
  unfold emit_nest. destruct s; try discriminate Hfirst; cbn [frame_of mbind option_bind] in Hf |- *;
    injection Hf as <-; by rewrite Hl.
Qed.

Lemma track_contexts r s m k l n e :
  tracks e0 A l n e ->
  tracks e0 A l n (set_simple_key_context k (set_mapping_context m (set_sequence_context s (set_root_context r e)))).
Proof. intros He. by apply (track_assign e0 A (fun e => set_simple_key_context k (set_mapping_context m (set_sequence_context s (set_root_context r e))))). Qed.

(** The event does not close the collection that is open. *)
Definition not_end (fs : list frame) : Prop :=
  match ev with
  | YAML_SEQUENCE_END_EVENT | YAML_MAPPING_END_EVENT => nest_step (NDoc fs) ev = None
  | _ => True
  end.

Lemma wp_emit_node root sequence mapping simple l fs e :
  stack_of l = Some fs -> not_end fs -> tracks e0 A l (length fs) e ->
  wp strict (yaml_emitter_emit_node ev root sequence mapping simple)
    (fun _ e' => stepped e0 (NDoc fs) ev e') (fails (unfit (NDoc fs) ev)) e.
Proof.
  intros Hl Hend He. unfold yaml_emitter_emit_node. wp_steps. set (e1 := set_simple_key_context _ _).
  assert (tracks e0 A l (length fs) e1) as H1 by (by apply track_contexts). clearbody e1. clear e He.
  destruct HA as (Ha & Ht & Hn & Hs). unfold stepped, unfit, not_end in *.
  destruct ev as [| | | | |a|a t v len pi qi style|a t i style| |a t i style|] eqn:Eev;
    try (apply wp_emitter_error; intros e' He'; right; right; by split; [|left]).
  - unfold yaml_emitter_emit_alias. wp_step.
    eapply wp_mono; [by apply track_process_anchor| |done]. intros [] e2 H2; cbv beta in H2. wp_steps.
    destruct (simple_key_context (machine e2)).
    + eapply wp_mono; [apply track_write; [by apply safe_put|exact H2]| |done].
      intros [] e3 H3; cbv beta in H3. eapply track_complete; [done..|]. intros e4 H4. by eexists.
    + wp_steps. eapply track_complete; [done..|]. intros e4 H4. by eexists.
  - unfold yaml_emitter_emit_scalar. wp_step.
    eapply wp_mono; [by eapply (track_select_style e0 A l _ e1 _ a t v len pi qi style)|..]; cbv beta.
    2:{ intros e' [G1 G2]. right; right. split; [done|]. by right. }
    intros _ e2 (Hok & A' & H2 & G1 & G2 & G3 & G4). wp_step.
    eapply wp_mono; [by apply track_process_anchor| |done]. intros [] e3 H3; cbv beta in H3. wp_step.
    eapply wp_mono; [by apply track_process_tag| |done]. intros [] e4 H4; cbv beta in H4. wp_step.
    eapply wp_mono; [by apply track_increase_indent| |done]. intros [] e5 H5; cbv beta in H5. wp_step.
    eapply wp_mono; [by apply track_process_scalar| |done]. intros [] e6 H6; cbv beta in H6. wp_step.
    eapply wp_mono; [by apply track_restore_indent| |done]. intros [] e7 H7; cbv beta in H7.
    eapply track_complete; [done..|]. intros e8 H8. by eexists.
  - unfold yaml_emitter_emit_sequence_start. wp_step.
    eapply wp_mono; [by apply track_process_anchor| |done]. intros [] e3 H3; cbv beta in H3. wp_step.
    eapply wp_mono; [by apply track_process_tag| |done]. intros [] e4 H4; cbv beta in H4.
    unfold yaml_emitter_check_empty_sequence, in_flow. wp_steps.
    eexists. split; [done|]. split; [done|]. destruct (_ || _); by eapply arrives_open.
  - unfold yaml_emitter_emit_mapping_start. wp_step.
    eapply wp_mono; [by apply track_process_anchor| |done]. intros [] e3 H3; cbv beta in H3. wp_step.
    eapply wp_mono; [by apply track_process_tag| |done]. intros [] e4 H4; cbv beta in H4.
    unfold yaml_emitter_check_empty_mapping, in_flow. wp_steps.
    eexists. split; [done|]. split; [done|]. destruct (_ || _); by eapply arrives_open.
Qed.

(** A node inside a collection, which will go on in the state [c]. *)
Lemma wp_inner_node c f root sequence mapping simple l fs e :
  cont_frame c = Some f -> stack_of l = Some fs -> not_end (f :: fs) -> tracks e0 A l (S (length fs)) e ->
  wp strict (push_e_state c;; yaml_emitter_emit_node ev root sequence mapping simple)
    (fun _ e' => stepped e0 (NDoc (f :: fs)) ev e') (fails (unfit (NDoc (f :: fs)) ev)) e.
Proof.
  intros Hc Hl Hend He. wp_step. eapply wp_mono; [by apply (track_push_state e0 A (unfit (NDoc (f :: fs)) ev) c)| |done].
  intros [] e1 H1; cbv beta in H1. apply (wp_emit_node _ _ _ _ (c :: l)); [by apply stack_push_frame|done..].
Qed.

(** ** Collections *)

(** The statement before the rest of a routine. *)
Lemma track_bind P {X} (m : eprog D unit) (k : eprog D X) Q l n l' n' e :
  wp strict m (fun _ e' => tracks e0 A l' n' e') (fails P) e -> tracks e0 A l n e ->
  (forall e', tracks e0 A l' n' e' -> wp strict k Q (fails P) e') ->
  wp strict (m;; k) Q (fails P) e.
Proof.
  intros Hm He Hk. apply wp_bind. eapply wp_mono; [exact Hm| |done].
  intros [] e' H; cbv beta in H. by apply Hk.
Qed.

Lemma track_when P (b : bool) m l k e :
  safe h sofar e m (fun _ => True) -> tracks e0 A l k e ->
  wp strict (if b then m else mret tt) (fun _ e' => tracks e0 A l k e') (fails P) e.
Proof. intros Hm He. destruct b; [by apply track_write|by wp_steps]. Qed.

Lemma track_flow_level x l k e :
  tracks e0 A l k e -> wp strict (add_flow_level x) (fun _ e' => tracks e0 A l k e') (fun _ => False) e.
Proof.
  intros He. unfold add_flow_level. wp_steps.
  by apply (track_assign e0 A (fun e => set_e_flow_level (e_flow_level (machine e) + x) e)).
Qed.

Lemma track_open_flow P b l k e :
  forallb (fun c => (0x20 <=? c) && (c <=? 0x7E)) (bytes_of b) = true -> tracks e0 A l k e ->
  wp strict (open_flow b) (fun _ e' => tracks e0 A l (S k) e') (fails P) e.
Proof.
  intros Hb He. eapply track_seq; [by apply safe_indicator|exact He|]. intros e1 H1.
  eapply track_bind; [by apply track_increase_indent|exact H1|]. intros e2 H2.
  eapply wp_mono; [by apply track_flow_level|done|done].
Qed.

Lemma track_close_flow P b first l fs n e :
  forallb (fun c => (0x20 <=? c) && (c <=? 0x7E)) (bytes_of b) = true ->
  stack_of l = Some fs -> n = node_done fs -> tracks e0 A l (S (length fs)) e ->
  wp strict (close_flow b first) (fun _ e' => arrives e0 n e') (fails P) e.
Proof.
  intros Hb Hl Hn He. unfold close_flow. wp_step. eapply wp_mono; [by apply track_flow_level| |done].
  intros [] e1 H1; cbv beta in H1.
  eapply track_bind; [by apply track_restore_indent|exact H1|]. intros e2 H2. wp_steps.
  eapply wp_mono; [apply (track_when P _ _ l (length fs))| |done].
  - apply safe_seq; [by apply safe_indicator|by apply safe_write_indent].
  - done.
  - intros [] e3 H3; cbv beta in H3.
    eapply track_seq; [by apply safe_indicator|exact H3|]. intros e4 H4.
    by eapply track_complete.
Qed.

Lemma track_wrap_flow P l k e :
  tracks e0 A l k e -> wp strict wrap_flow (fun _ e' => tracks e0 A l k e') (fails P) e.
Proof.
  intros He. unfold wrap_flow, too_wide. wp_steps. apply track_when; [by apply safe_write_indent|done].
Qed.

Lemma track_simple_key (Q : bool -> yaml_emitter_t D -> Prop) E e :
  e.(machine).(e_events) <> [] -> (forall b, Q b e) ->
  wp strict yaml_emitter_check_simple_key Q E e.
Proof.
  intros Hq HQ. unfold yaml_emitter_check_simple_key. wp_steps.
  destruct (e_events (machine e)); [done|]. wp_steps. apply HQ.
Qed.

Lemma end_of_sequence fs : is_sequence_end ev = true ->
  nest_step (NDoc (FSeq :: fs)) ev = Some (node_done fs) /\ scalar_fine ev = true.
Proof. by destruct ev. Qed.
Lemma end_of_mapping fs : is_mapping_end ev = true ->
  nest_step (NDoc (FKey :: fs)) ev = Some (node_done fs) /\ scalar_fine ev = true.
Proof. by destruct ev. Qed.
Lemma inside_sequence fs : is_sequence_end ev = false -> not_end (FSeq :: fs).
Proof. unfold not_end. by destruct ev. Qed.
Lemma inside_mapping fs : is_mapping_end ev = false -> not_end (FKey :: fs).
Proof. unfold not_end. by destruct ev. Qed.
Lemma inside_value fs : not_end (FVal :: fs).
Proof. unfold not_end. by destruct ev. Qed.

(** The collection ends. *)
Lemma arrives_stepped n n' e :
  nest_step n ev = Some n' /\ scalar_fine ev = true -> arrives e0 n' e -> stepped e0 n ev e.
Proof. intros [H1 H2] H. by exists n'. Qed.

Section entries.
Variables (l : list yaml_emitter_state_t) (fs : list frame) (first : bool) (e : yaml_emitter_t D).
Hypotheses (Hl : stack_of l = Some fs)
  (He : tracks e0 A l (if first then length fs else S (length fs)) e).

Lemma wp_flow_sequence_item :
  wp strict (yaml_emitter_emit_flow_sequence_item ev first)
    (fun _ e' => stepped e0 (NDoc (FSeq :: fs)) ev e') (fails (unfit (NDoc (FSeq :: fs)) ev)) e.
Proof.
  eapply (track_bind _ _ _ _ _ _ l (S (length fs))); [|exact He|].
  { destruct first; [by apply track_open_flow|by wp_steps]. }
  intros e1 H1. destruct (is_sequence_end ev) eqn:Ee.
  - eapply wp_mono; [by eapply track_close_flow| |done]. intros [] e2 H2; cbv beta in H2.
    by eapply arrives_stepped, H2; apply end_of_sequence.
  - eapply track_bind; [apply track_when; [by apply safe_indicator|exact H1]|exact H1|]. intros e2 H2.
    eapply track_bind; [by apply track_wrap_flow|exact H2|]. intros e3 H3.
    by apply (wp_inner_node _ FSeq _ _ _ _ l); [| |apply inside_sequence|].
Qed.

Hypothesis Hevents : e0.(machine).(e_events) <> [].

Lemma tracks_events A' l' k e' : tracks e0 A' l' k e' -> e'.(machine).(e_events) <> [].
Proof. intros H. by rewrite (tr_events _ _ _ _ _ H). Qed.

Lemma wp_emit_flow_mapping_key :
  wp strict (yaml_emitter_emit_flow_mapping_key ev first)
    (fun _ e' => stepped e0 (NDoc (FKey :: fs)) ev e') (fails (unfit (NDoc (FKey :: fs)) ev)) e.
Proof.
  eapply (track_bind _ _ _ _ _ _ l (S (length fs))); [|exact He|].
  { destruct first; [by apply track_open_flow|by wp_steps]. }
  intros e1 H1. destruct (is_mapping_end ev) eqn:Ee.
  - eapply wp_mono; [by eapply track_close_flow| |done]. intros [] e2 H2; cbv beta in H2.
    by eapply arrives_stepped, H2; apply end_of_mapping.
  - eapply track_bind; [apply track_when; [by apply safe_indicator|exact H1]|exact H1|]. intros e2 H2.
    eapply track_bind; [by apply track_wrap_flow|exact H2|]. intros e3 H3. wp_steps.
    assert (forall b : bool, wp strict
      (if b then push_e_state YAML_EMIT_FLOW_MAPPING_SIMPLE_VALUE_STATE;;
                 yaml_emitter_emit_node ev false false true true
       else indicator "?" true false false;;
            push_e_state YAML_EMIT_FLOW_MAPPING_VALUE_STATE;;
            yaml_emitter_emit_node ev false false true false)
      (fun _ e' => stepped e0 (NDoc (FKey :: fs)) ev e') (fails (unfit (NDoc (FKey :: fs)) ev)) e3) as Hnode.
    { intros []; [by apply (wp_inner_node _ FKey _ _ _ _ l); [| |apply inside_mapping|]|].
      eapply track_seq; [by apply safe_indicator|exact H3|]. intros e4 H4.
      by apply (wp_inner_node _ FKey _ _ _ _ l); [| |apply inside_mapping|]. }
    destruct (canonical (layout e3)); [wp_step; exact (Hnode false)|].
    apply track_simple_key; [by eapply tracks_events|]. exact Hnode.
Qed.

Lemma wp_block_sequence_item :
  wp strict (yaml_emitter_emit_block_sequence_item ev first)
    (fun _ e' => stepped e0 (NDoc (FSeq :: fs)) ev e') (fails (unfit (NDoc (FSeq :: fs)) ev)) e.
Proof.
  eapply (track_bind _ _ _ _ _ _ l (S (length fs))); [|exact He|].
  { destruct first; wp_steps; [by apply track_increase_indent|done]. }
  intros e1 H1. destruct (is_sequence_end ev) eqn:Ee.
  - eapply track_bind; [by apply track_restore_indent|exact H1|]. intros e2 H2.
    eapply track_complete; [done..|]. intros e3 H3. by eapply arrives_stepped, H3; apply end_of_sequence.
  - eapply track_seq; [by apply safe_write_indent|exact H1|]. intros e2 H2.
    eapply track_seq; [by apply safe_indicator|exact H2|]. intros e3 H3.
    by apply (wp_inner_node _ FSeq _ _ _ _ l); [| |apply inside_sequence|].
Qed.

Lemma wp_emit_block_mapping_key :
  wp strict (yaml_emitter_emit_block_mapping_key ev first)
    (fun _ e' => stepped e0 (NDoc (FKey :: fs)) ev e') (fails (unfit (NDoc (FKey :: fs)) ev)) e.
Proof.
  eapply (track_bind _ _ _ _ _ _ l (S (length fs))); [|exact He|].
  { destruct first; wp_steps; [by apply track_increase_indent|done]. }
  intros e1 H1. destruct (is_mapping_end ev) eqn:Ee.
  - eapply track_bind; [by apply track_restore_indent|exact H1|]. intros e2 H2.
    eapply track_complete; [done..|]. intros e3 H3. by eapply arrives_stepped, H3; apply end_of_mapping.
  - eapply track_seq; [by apply safe_write_indent|exact H1|]. intros e2 H2. wp_step.
    apply track_simple_key; [by eapply tracks_events|]. intros [].
    + by apply (wp_inner_node _ FKey _ _ _ _ l); [| |apply inside_mapping|].
    + eapply track_seq; [by apply safe_indicator|exact H2|]. intros e3 H3.
      by apply (wp_inner_node _ FKey _ _ _ _ l); [| |apply inside_mapping|].
Qed.
End entries.

Section values.
Variables (l : list yaml_emitter_state_t) (fs : list frame) (simple : bool) (e : yaml_emitter_t D).
Hypotheses (Hl : stack_of l = Some fs) (He : tracks e0 A l (S (length fs)) e).

Lemma wp_emit_flow_mapping_value :
  wp strict (yaml_emitter_emit_flow_mapping_value ev simple)
    (fun _ e' => stepped e0 (NDoc (FVal :: fs)) ev e') (fails (unfit (NDoc (FVal :: fs)) ev)) e.
Proof.
  eapply (track_bind _ _ _ _ _ _ l (S (length fs))); [|exact He|].
  { destruct simple; [apply track_write; [by apply safe_indicator|done]|].
    eapply track_bind; [by apply track_wrap_flow|exact He|]. intros e1 H1.
    apply track_write; [by apply safe_indicator|done]. }
  intros e1 H1. by apply (wp_inner_node _ FVal _ _ _ _ l); [| |apply inside_value|].
Qed.

Lemma wp_emit_block_mapping_value :
  wp strict (yaml_emitter_emit_block_mapping_value ev simple)
    (fun _ e' => stepped e0 (NDoc (FVal :: fs)) ev e') (fails (unfit (NDoc (FVal :: fs)) ev)) e.
Proof.
  eapply (track_bind _ _ _ _ _ _ l (S (length fs))); [|exact He|].
  { destruct simple; [apply track_write; [by apply safe_indicator|done]|].
    eapply track_seq; [by apply safe_write_indent|exact He|]. intros e1 H1.
    apply track_write; [by apply safe_indicator|done]. }
  intros e1 H1. by apply (wp_inner_node _ FVal _ _ _ _ l); [| |apply inside_value|].
Qed.

Lemma wp_emit_document_content e1 :
  tracks e0 A [] 0 e1 ->
  wp strict (yaml_emitter_emit_document_content ev)
    (fun _ e' => stepped e0 (NDoc []) ev e') (fails (unfit (NDoc []) ev)) e1.
Proof.
  intros H1. eapply track_bind; [by apply track_push_state|exact H1|]. intros e2 H2.
  apply (wp_emit_node _ _ _ _ [YAML_EMIT_DOCUMENT_END_STATE] []); [done| |done].
  unfold not_end. by destruct ev.
Qed.
End values.
End nodes.
End machine.
