(* ===== verification/YamlEmitStream.v ===== *)
(** * libyaml: the emitter from the first event to the last

    Directives, the start and the end of documents and of the stream, the
    queue of [yaml_emitter_emit], and the theorems on whole sequences of
    events: whatever is emitted, the calls return or fail with an error that
    is recorded, the events processed so far are a run of the grammar, and the
    octets given to the handler are the characters written, in the output
    encoding, all of them accepted by the reader. *)

From Stdlib Require Import ZArith Lia Ascii String.
From stdpp Require Import base list option strings.
From S2P Require Import Prelude YamlData YamlReader YamlChars YamlUtf8 YamlDocument YamlEvents YamlString YamlStringSpec YamlWriter YamlWriterSpec YamlEmitWrite YamlEmitText YamlEmitSafe YamlEmitter YamlEmitAnalysis YamlEventMake YamlEmitGrammar.

#[local] Open Scope Z_scope.

(** ** Directives *)

(** A directive as it is kept. *)
Definition kept (d : yaml_tag_directive_t) : yaml_tag_directive_t :=
  mkTagDirective (cstr d.(td_handle)) (cstr d.(td_prefix)).

Lemma handles_kept ds : handles (map kept ds) = handles ds.
Proof. unfold handles. rewrite map_map. apply map_ext. intros d. cbn. apply cstr_idem. Qed.

Lemma handle_fine_graph l : handle_fine l = true -> graph_text l.
Proof.
  destruct l as [|c l]; [done|]. cbn [handle_fine]. intros [[Hc%Z.eqb_eq Hlast]%andb_true_iff Ha]%andb_true_iff.
  apply bool_decide_eq_true in Hlast. apply alpha_graph_text in Ha. cbn [tail] in Ha.
  apply Forall_cons. split; [by rewrite Hc|]. destruct l as [|x l0] using rev_ind; [done|].
  rewrite app_comm_cons, last_snoc in Hlast. injection Hlast as ->.
  apply Forall_app. split; [|by apply Forall_singleton].
  cbn [length] in Ha. rewrite length_app in Ha. cbn [length] in Ha.
  replace (S (length l0 + 1) - 2)%nat with (length l0) in Ha by lia. by rewrite take_app_length in Ha.
Qed.

Lemma existsb_handles d ds :
  existsb (fun d' => strcmp_eq d.(td_handle) d'.(td_handle)) ds
  = bool_decide (cstr d.(td_handle) ∈ handles ds).
Proof.
  induction ds as [|x ds IH]; [done|]. cbn [existsb]. rewrite IH. unfold strcmp_eq, handles. cbn [map].
  destruct (bool_decide (cstr (td_handle d) = cstr (td_handle x))) eqn:E.
  - apply bool_decide_eq_true in E. symmetry. apply bool_decide_eq_true. rewrite E. by left.
  - apply bool_decide_eq_false in E. cbn [orb]. apply bool_decide_ext.
    rewrite elem_of_cons. tauto.
Qed.

Section directives.
Context {D : Type}.
Implicit Types (e : yaml_emitter_t D).

Lemma wp_analyze_tag_directive d e :
  wp strict (yaml_emitter_analyze_tag_directive d)
    (fun _ e' => e' = e /\ directive_fine d = true)
    (fun e' => refused e' /\ directive_fine d = false) e.
Proof.
  unfold yaml_emitter_analyze_tag_directive, directive_fine. destruct (cstr (td_handle d)) as [|c r] eqn:Eh.
  { by apply wp_emitter_error. }
  unfold handle_fine. set (handle := c :: r). change (tail handle) with r.
  destruct (c =? ch "!"); cbn [negb andb]; [|by apply wp_emitter_error; intros e' He'].
  destruct (bool_decide (last handle = Some (ch "!"))); cbn [negb andb]; [|by apply wp_emitter_error; intros e' He'].
  assert (wp strict (all_alpha (mkString handle 1 (length handle)) (length handle - 1)
      "tag handle must contain alphanumerical characters only")
    (fun _ e' => e' = e /\ forallb is_alpha (take (length handle - 2) r) = true)
    (fun e' => refused e' /\ forallb is_alpha (take (length handle - 2) r) = false) e) as Hall.
  { destruct r as [|x r]; [by unfold all_alpha; cbn|].
    eapply wp_mono; [apply wp_all_alpha; unfold handle; cbn [length]; lia|..]; cbv beta;
      replace (length handle - 1 - 1)%nat with (length handle - 2)%nat by lia; done. }
  wp_step. eapply wp_mono; [exact Hall|..]; cbv beta.
  - intros _ e' (-> & ->). cbn [andb]. case_bool_decide; [by apply wp_emitter_error|by wp_steps].
  - intros e' (H1 & H2). by rewrite H2.
Qed.

(** The directives [ds] are on the stack of [e], and nothing else has changed
    since [e0]. *)
Definition directives_since (e0 : yaml_emitter_t D) (ds : list yaml_tag_directive_t) e : Prop :=
  exists st, e = set_e_tag_directives st e0 /\ rev st.(items) = ds.

Lemma wp_append_directive e0 ds d allow P e :
  directives_since e0 ds e ->
  wp strict (yaml_emitter_append_tag_directive d allow)
    (fun _ e' => if bool_decide (cstr d.(td_handle) ∈ handles ds)
                 then allow = true /\ directives_since e0 ds e'
                 else directives_since e0 (ds ++ [kept d]) e')
    (fun e' => if bool_decide (cstr d.(td_handle) ∈ handles ds) then refused e' /\ allow = false
               else fails P e') e.
Proof.
  intros (st & -> & Hst). unfold yaml_emitter_append_tag_directive. wp_steps.
  unfold emitted_directives. cbn [machine set_e_tag_directives set_machine e_tag_directives].
  rewrite Hst, existsb_handles. case_bool_decide as Hin.
  - destruct allow; [|by apply wp_emitter_error]. wp_steps. split; [done|]. by exists st.
  - apply wp_E_PUSH. intros s' Hs'. exists s'. split; [done|]. rewrite Hs'. cbn. by rewrite Hst.
Qed.

Lemma wp_tag_directives e0 tags : forall ds e,
  directives_since e0 ds e -> NoDup (handles ds) ->
  wp strict (for_each tags (fun d =>
      yaml_emitter_analyze_tag_directive d;; yaml_emitter_append_tag_directive d false))
    (fun _ e' => forallb directive_fine tags = true /\ NoDup (handles (ds ++ tags))
       /\ directives_since e0 (ds ++ map kept tags) e')
    (fails (~ (forallb directive_fine tags = true /\ NoDup (handles (ds ++ tags))))) e.
Proof.
  induction tags as [|d tags IH]; intros ds e He Hnd; cbn [for_each].
  { wp_steps. rewrite !app_nil_r. by split_and!. }
  wp_step. wp_step. eapply wp_mono; [apply wp_analyze_tag_directive|..]; cbv beta.
  2:{ intros e' (H1 & H2). right; right. split; [done|]. cbn. rewrite H2. by intros [? _]. }
  intros _ e' (-> & Hd). cbn [forallb]. rewrite Hd. cbn [andb].
  eapply wp_mono; [by apply (wp_append_directive e0 ds d false)|..]; cbv beta; case_bool_decide as Hin.
  - by intros _ e' [? ?].
  - intros _ e1 H1.
    assert (handles (ds ++ d :: tags) = handles ((ds ++ [kept d]) ++ tags)) as Hh.
    { unfold handles. rewrite <- app_assoc, !map_app. cbn. by rewrite cstr_idem. }
    eapply wp_mono; [apply (IH (ds ++ [kept d]) e1 H1)|..]; cbv beta.
    + unfold handles. rewrite map_app. cbn. rewrite cstr_idem. apply NoDup_app. split_and!; [done| |apply NoDup_singleton].
      intros x Hx ->%list_elem_of_singleton. done.
    + intros _ e2 (H2 & H3 & H4). rewrite Hh. split_and!; [done|done|]. by rewrite <- app_assoc in H4.
    + intros e2. rewrite Hh. done.
  - intros e' [H1 _]. right; right. split; [done|]. intros [_ Hn].
    unfold handles in Hn. rewrite map_app in Hn. apply NoDup_app in Hn as (_ & Hn & _).
    apply (Hn _ Hin). cbn. by left.
  - intros e' H. exact H.
Qed.

Lemma wp_default_directives e0 ds e :
  directives_since e0 ds e -> directives_ok ds ->
  wp strict (for_each default_tag_directives (fun d => yaml_emitter_append_tag_directive d true))
    (fun _ e' => exists ds', directives_since e0 ds' e' /\ directives_ok ds') (fails False) e.
Proof.
  intros He Hok.
  assert (forall d ds e, directives_since e0 ds e -> directives_ok ds -> In d default_tag_directives ->
    wp strict (yaml_emitter_append_tag_directive d true)
      (fun _ e' => exists ds', directives_since e0 ds' e' /\ directives_ok ds') (fails False) e) as Hone.
  { clear. intros d ds e He Hok Hd.
    eapply wp_mono; [by apply (wp_append_directive e0 ds d true)|..]; cbv beta; case_bool_decide.
    - intros _ e' [_ H']. eauto.
    - intros _ e' H'. eexists. split; [exact H'|]. apply Forall_app. split; [done|]. apply Forall_singleton.
      by destruct Hd as [<-|[<-|[]]]; (split; [|apply graph_valid]); apply graph_decided.
    - by intros e' [_ ?].
    - done. }
  cbn [for_each default_tag_directives]. wp_step.
  eapply wp_mono; [apply (Hone _ ds); [done|done|by left]| |done]. intros _ e1 (ds1 & H1 & H2). wp_step.
  eapply wp_mono; [apply (Hone _ ds1); [done|done|by right; left]| |done]. intros _ e2 (ds2 & H3 & H4).
  wp_steps. eauto.
Qed.
End directives.

(** ** Documents and the stream *)

(** The part of [acceptable] that the machine tests. *)
Definition rest_fine (ev : yaml_event_data) : bool :=
  match ev with
  | YAML_SCALAR_EVENT _ t _ _ pi qi _ => pi || qi || bool_decide (is_Some t)
  | YAML_DOCUMENT_START_EVENT v tags _ =>
      version_fine v && forallb directive_fine tags && bool_decide (NoDup (handles tags))
  | _ => true
  end.

(** An event that is not a move of the grammar. *)
Ltac refuse :=
  lazymatch goal with
  | |- wp _ (yaml_emitter_set_emitter_error _) _ _ _ =>
      apply wp_emitter_error; intros ? ?; right; right; by split; [|left]
  | _ => idtac
  end.

Section stream.
Context {D : Type} (h : yaml_write_handler_t D) (sofar : D -> list Z) {col : Collects h sofar}.
Implicit Types (e : yaml_emitter_t D) (ev : yaml_event_data).

(** The output has been set and nothing has been written. *)
Definition fresh e : Prop :=
  (exists d, e.(writing).(output) = Some (h, d) /\ sofar d = [])
  /\ e.(writing).(out_buffer) = [] /\ e.(writing).(out_raw) = [].

(** The emitter between two events, in the state [n] of the grammar. *)
Record ready (n : nest) e : Prop := mkReady {
  rd_nest : emit_nest e.(machine).(e_state) e.(machine).(e_states).(items) = Some n;
  rd_levels : length e.(machine).(e_indents).(items) = levels e.(machine).(e_state) n;
  rd_directives : directives_ok (emitted_directives e);
  rd_clear : n = NStart \/ n = NStream -> e.(machine).(e_tag_directives).(items) = [];
  rd_output : if bool_decide (n = NStart) then fresh e
              else good h sofar e /\ 2 <= e.(layout).(best_indent) <= 9;
  rd_flushed : n = NEnd -> e.(writing).(out_buffer) = []
}.

Definition advanced (n : nest) ev e e' : Prop :=
  exists n', nest_step n ev = Some n' /\ rest_fine ev = true /\ ready n' e'
    /\ e'.(machine).(e_events) = e.(machine).(e_events)
    /\ e'.(layout).(canonical) = e.(layout).(canonical).
Definition wrong (n : nest) ev : Prop := nest_step n ev = None \/ rest_fine ev = false.

Lemma ready_tracks n e :
  ready n e -> n <> NStart ->
  tracks h sofar e e.(analysis) e.(machine).(e_states).(items) (levels e.(machine).(e_state) n) e
  /\ 2 <= e.(layout).(best_indent) <= 9.
Proof.
  intros [H1 H2 H3 H4 H5 _] Hn. rewrite bool_decide_eq_false_2 in H5 by done. destruct H5 as [H5 H6].
  split; [|done]. by split.
Qed.

Lemma stepped_advanced fs ev e e' :
  ready (NDoc fs) e -> stepped h sofar e (NDoc fs) ev e' -> advanced (NDoc fs) ev e e'.
Proof.
  intros Hr (n' & H1 & H2 & A & l & [G1 G2 G3 G4 G5 G6 G7] & G8). exists n'.
  assert (n' <> NStart /\ n' <> NStream /\ n' <> NEnd) as (N1 & N2 & N3).
  { destruct ev; cbn in H1; try discriminate H1; destruct fs as [|[] ?]; try discriminate H1;
      injection H1 as <-; try done; (destruct fs as [|[] ?]; done). }
  destruct (ready_tracks _ e Hr ltac:(done)) as [_ Hbest].
  split; [done|]. split; [by destruct ev|]. split; [|split; [done|by rewrite G2]].
  split.
  - by rewrite G6.
  - done.
  - unfold emitted_directives. rewrite G4. by apply Hr.
  - by intros [?|?].
  - rewrite bool_decide_eq_false_2 by done. by rewrite G2.
  - done.
Qed.

Lemma unfit_wrong n ev e :
  fails (unfit n ev) e -> fails (D := D) (wrong n ev) e.
Proof.
  apply fails_mono. intros [H|H]; [by left|]. right. by destruct ev.
Qed.

(** Only the encoding, the layout and the position differ. *)
Definition same_core e e' : Prop :=
  e'.(writing).(output) = e.(writing).(output) /\ e'.(writing).(out_buffer) = e.(writing).(out_buffer)
  /\ e'.(writing).(out_raw) = e.(writing).(out_raw) /\ e'.(machine).(e_events) = e.(machine).(e_events)
  /\ e'.(machine).(e_states) = e.(machine).(e_states) /\ e'.(machine).(e_indents) = e.(machine).(e_indents)
  /\ e'.(machine).(e_tag_directives) = e.(machine).(e_tag_directives)
  /\ e'.(layout).(canonical) = e.(layout).(canonical).

(** An assignment with an effect that is all that matters of it. *)
Lemma wp_modify_as (P : yaml_emitter_t D -> Prop) {X} (f : yaml_emitter_t D -> yaml_emitter_t D)
    (k : eprog D X) Q E e :
  P (f e) -> (forall e', P e' -> wp strict k Q E e') -> wp strict (modify f;; k) Q E e.
Proof. intros Hf Hk. wp_steps. by apply Hk. Qed.

Lemma wp_stream_defaults enc {X} (k : eprog D X) Q E e :
  (forall e', same_core e e' -> e'.(writing).(out_encoding) <> YAML_ANY_ENCODING ->
     2 <= e'.(layout).(best_indent) <= 9 -> wp strict k Q E e') ->
  wp strict (
    modify (fun e =>
      if bool_decide (e.(writing).(out_encoding) = YAML_ANY_ENCODING) then set_out_encoding enc e else e);;
    modify (fun e =>
      if bool_decide (e.(writing).(out_encoding) = YAML_ANY_ENCODING)
      then set_out_encoding YAML_UTF8_ENCODING e else e);;
    modify (fun e =>
      if (e.(layout).(best_indent) <? 2) || (e.(layout).(best_indent) >? 9)
      then set_best_indent 2 e else e);;
    modify (fun e =>
      if (e.(layout).(best_width) >=? 0)
         && (e.(layout).(best_width) <=? e.(layout).(best_indent) * 2)
      then set_best_width 80 e else e);;
    modify (fun e => if e.(layout).(best_width) <? 0 then set_best_width INT_MAX e else e);;
    modify (fun e =>
      if bool_decide (e.(layout).(line_break) = YAML_ANY_BREAK)
      then set_line_break YAML_LN_BREAK e else e);;
    modify (set_e_indent (-1));;
    modify (set_e_line 0);;
    modify (set_e_column 0);;
    set_flags true true;;
    k) Q E e.
Proof.
  intros Hk.
  apply (wp_modify_as (same_core e)); [by destruct (bool_decide _)|]. intros e1 H1.
  apply (wp_modify_as (fun e' => same_core e e' /\ e'.(writing).(out_encoding) <> YAML_ANY_ENCODING)).
  { case_bool_decide; [by split|by split]. }
  intros e2 (H2 & G2).
  apply (wp_modify_as (fun e' => same_core e e' /\ e'.(writing).(out_encoding) <> YAML_ANY_ENCODING
    /\ 2 <= e'.(layout).(best_indent) <= 9)).
  { destruct (_ || _) eqn:Eb; split_and!; try done; cbn; lia. }
  clear H1 e1 H2 G2. clear e2. intros e2 H2.
  do 3 (match goal with
  | H : same_core e ?x /\ _ |- wp _ _ _ _ ?x =>
      apply (wp_modify_as (fun e' => same_core e e' /\ e'.(writing).(out_encoding) <> YAML_ANY_ENCODING
        /\ 2 <= e'.(layout).(best_indent) <= 9));
      [first [destruct (_ && _) | destruct (_ <? 0) | destruct (bool_decide _)]; exact H|];
      clear H; clear x; intros ? ?
  end).
  match goal with H : same_core e _ /\ _ |- _ => destruct H as (G1 & G2 & G3) end.
  unfold set_flags. wp_steps. by apply Hk.
Qed.

Lemma wp_emit_stream_start ev e :
  ready NStart e ->
  wp strict (yaml_emitter_emit_stream_start ev)
    (fun _ e' => advanced NStart ev e e') (fails (wrong NStart ev)) e.
Proof.
  intros Hr. pose proof (rd_output _ _ Hr) as (Ho & Hb & Hraw). cbn in Ho, Hb, Hraw.
  unfold yaml_emitter_emit_stream_start. wp_step. wp_step. cbv beta.
  destruct ev; refuse.
  apply wp_stream_defaults. intros e1 (S1 & S2 & S3 & S4 & S5 & S6 & S7 & S8) Henc Hbest. cbn in *.
  destruct Ho as (d & Ho & Hd).
  assert (holds h sofar e1 []) as Hh.
  { split; [done|done|by rewrite S3|by rewrite S2, Hb|]. exists [], [], d. rewrite S1, S2. by split_and!. }
  assert (forall e2, moved e1 e2 -> good h sofar e2 ->
    advanced NStart (YAML_STREAM_START_EVENT encoding) e
      (set_e_state YAML_EMIT_FIRST_DOCUMENT_START_STATE e2)) as Hend.
  { intros e2 (M1 & M2 & M3 & M4 & M5) [cs Hg]. exists NStream. do 2 (split; [done|]).
    destruct Hr as [R1 R2 R3 R4 _ _]. split; [|cbn; rewrite M2, M3; by split].
    assert (e.(machine).(e_states).(items) = []) as Hst.
    { destruct (e_state (machine e)), (items (e_states (machine e))); try done; cbn in R1;
        repeat (apply bind_Some in R1 as (? & ? & R1)); done. }
    split; cbn.
    - by rewrite M3, S5, Hst.
    - rewrite M3, S6, R2. by destruct (e_state (machine e)).
    - unfold emitted_directives in *. cbn. by rewrite M3, S7.
    - intros _. rewrite M3, S7. apply R4. by left.
    - split; [|by rewrite M2]. exists cs. destruct Hg. by split.
    - done. }
  wp_steps. case_bool_decide as Hu.
  - wp_steps. apply Hend; [done|by exists []].
  - unfold yaml_emitter_write_bom. wp_step.
    eapply wp_mono; [by apply wp_FLUSH|..]; [|intros e' ?; by left].
    intros _ e2 (H1 & H2 & H3 & _). cbv beta.
    eapply wp_mono; [by apply (wp_put_char h sofar e2 [] 0xFEFF _ (fun _ => False))| |done].
    intros _ e3 (G1 & G2 & _). cbv beta. wp_steps. apply Hend; [by etrans|by eexists].
Qed.

(** *** Directives and the start of a document *)

Lemma wp_version v e :
  wp strict (optional v yaml_emitter_analyze_version_directive)
    (fun _ e' => e' = e /\ version_fine v = true) (fun e' => refused e' /\ version_fine v = false) e.
Proof.
  destruct v as [v|]; cbn [optional version_fine]; [|by wp_steps].
  unfold yaml_emitter_analyze_version_directive.
  destruct (major v =? 1), (minor v =? 1), (minor v =? 2); cbn;
    first [by wp_steps | by apply wp_emitter_error].
Qed.

Lemma safe_flush e : safe h sofar e yaml_emitter_flush (fun _ => True).
Proof.
  apply safe_wp. intros e1 cs H1 _. eapply wp_mono; [by apply wp_flush| |done].
  intros _ e2 (G1 & _ & G2 & _). eauto.
Qed.

Section document_start.
Variables (e0 : yaml_emitter_t D) (A : emitter_analysis).

Lemma track_write_version P v l k e :
  tracks h sofar e0 A l k e ->
  wp strict (optional v write_version) (fun _ e' => tracks h sofar e0 A l k e') (fails P) e.
Proof.
  intros He. destruct v as [v|]; cbn [optional]; [|by wp_steps].
  apply track_write; [|done]. apply safe_seq; [by apply safe_indicator|].
  apply safe_seq; [apply safe_indicator; by destruct (minor v =? 1)|by apply safe_write_indent].
Qed.

Lemma track_write_directives P tags : forall l k e,
  forallb directive_fine tags = true -> Forall (fun d => valid_text (cstr d.(td_prefix))) tags ->
  tracks h sofar e0 A l k e ->
  wp strict (for_each tags write_tag_directive) (fun _ e' => tracks h sofar e0 A l k e') (fails P) e.
Proof.
  induction tags as [|d tags IH]; intros l k e Hf Hv He; cbn [for_each]; [by wp_steps|].
  cbn in Hf. apply andb_true_iff in Hf as [Hd Hf]. apply Forall_cons in Hv as [(cs & Ht & Hc) Hv].
  apply andb_true_iff in Hd as [Hd _].
  eapply track_seq; [|exact He|intros e' H'; by apply IH].
  apply safe_seq; [by apply safe_indicator|].
  apply safe_seq; [apply safe_write_tag_handle; [done|by apply handle_fine_graph]|].
  apply safe_seq; [by eapply safe_write_tag_content|by apply safe_write_indent].
Qed.

Lemma track_open_ended x l k e :
  tracks h sofar e0 A l k e -> tracks h sofar e0 A l k (set_open_ended x e).
Proof. by apply (track_assign h sofar e0 A (set_open_ended x)). Qed.

(** The directives have been appended; the rest of the routine writes. *)
Lemma wp_document_head P version tags implicit first e :
  forallb directive_fine tags = true -> Forall (fun d => valid_text (cstr d.(td_prefix))) tags ->
  tracks h sofar e0 A [] 0 e ->
  wp strict (
    canon ← gets (fun e => e.(layout).(canonical));
    open ← gets (fun e => e.(position).(open_ended));
    let directives := bool_decide (is_Some version) || negb (bool_decide (tags = [])) in
    (if directives && negb (open =? 0) then
       indicator "..." true false false;; yaml_emitter_write_indent
     else mret tt);;
    modify (set_open_ended 0);;
    optional version write_version;;
    for_each tags write_tag_directive;;
    let implicit := implicit && first && negb canon && negb directives
                    && negb yaml_emitter_check_empty_document in
    (if implicit then mret tt
     else
       yaml_emitter_write_indent;;
       indicator "---" true false false;;
       if canon then yaml_emitter_write_indent else mret tt);;
    modify (set_e_state YAML_EMIT_DOCUMENT_CONTENT_STATE);;
    modify (set_open_ended 0))
    (fun _ e' => tracks h sofar e0 A [] 0 e'
       /\ e'.(machine).(e_state) = YAML_EMIT_DOCUMENT_CONTENT_STATE) (fails P) e.
Proof.
  intros Hf Hv He. wp_steps. set (canon := canonical (layout e)). cbv zeta. wp_step.
  eapply wp_mono; [apply track_when; [|exact He]| |done].
  { apply safe_seq; [by apply safe_indicator|by apply safe_write_indent]. }
  intros [] e1 H1; cbv beta in H1. wp_steps.
  eapply wp_mono; [apply track_write_version, track_open_ended, H1| |done].
  intros [] e2 H2; cbv beta in H2. wp_steps.
  eapply wp_mono; [by apply track_write_directives| |done].
  intros [] e3 H3; cbv beta in H3. wp_steps.
  set (b := implicit && _ && _ && _ && _). clearbody b.
  eapply wp_mono with (Q := fun _ e' => tracks h sofar e0 A [] 0 e') (E := fails P); [|..|done].
  - destruct b; [by wp_steps|]. apply track_write; [|done].
    apply safe_seq; [by apply safe_write_indent|]. apply safe_seq; [by apply safe_indicator|].
    destruct canon; [by apply safe_write_indent|by apply safe_ret].
  - intros [] e4 H4; cbv beta in H4. wp_steps. split; [|done]. apply track_open_ended.
    by apply (track_assign h sofar e0 A (set_e_state YAML_EMIT_DOCUMENT_CONTENT_STATE)).
Qed.
End document_start.

(** The stacks are empty between documents. *)
Lemma between n e :
  ready n e -> n = NStream \/ n = NDocDone ->
  tracks h sofar e e.(analysis) [] 0 e /\ 2 <= e.(layout).(best_indent) <= 9.
Proof.
  intros Hr Hn. destruct (ready_tracks n e Hr ltac:(by destruct Hn as [-> | ->])) as [Ht Hb].
  split; [|done]. pose proof (rd_nest _ _ Hr) as H1.
  assert (items (e_states (machine e)) = [] /\ levels (e_state (machine e)) n = 0%nat) as [E1 E2].
  { split; [|by destruct Hn as [-> | ->]].
    destruct (e_state (machine e)), (items (e_states (machine e))); try done; cbn in H1;
      repeat (apply bind_Some in H1 as (? & ? & H1)); try done;
      injection H1 as <-; by destruct Hn. }
  by rewrite E1, E2 in Ht.
Qed.

Lemma wp_emit_document_start ev first e :
  ready NStream e -> event_ok ev ->
  wp strict (yaml_emitter_emit_document_start ev first)
    (fun _ e' => advanced NStream ev e e') (fails (wrong NStream ev)) e.
Proof.
  intros Hr Hev. destruct (between _ _ Hr ltac:(by left)) as [Ht Hbest].
  unfold yaml_emitter_emit_document_start.
  destruct ev as [| | |version tags implicit| | | | | | |] eqn:Eev;
    refuse.
  - wp_steps. eapply wp_mono; [apply track_when; [|exact Ht]| |done].
    { apply safe_seq; [by apply safe_indicator|].
      apply safe_seq; [by apply safe_position; eauto|by apply safe_write_indent]. }
    intros [] e1 H1; cbv beta in H1. wp_steps.
    destruct H1 as [[cs Hg] T1 T2 T3 T4 T5 T6].
    eapply wp_mono; [by apply wp_flush|..]; [|intros e' ?; by left].
    intros _ e2 (G1 & G2 & (M1 & M2 & M3 & M4 & M5) & _). rewrite <- M3 in T2, T3, T5, T6. rewrite <- M2 in T1.
    clear Hg. rename G1 into Hg. cbv beta. wp_steps. exists NEnd. do 2 (split; [done|]).
    split; [|cbn; by rewrite T2, T1]. split; cbn.
    + by rewrite T5.
    + done.
    + unfold emitted_directives. cbn. rewrite T3. by apply Hr.
    + by intros [|].
    + rewrite T1. split; [|done]. exists cs. destruct Hg. by split.
    + done.
  - cbn in Hev. wp_step.
    eapply wp_mono; [apply wp_version|..]; cbv beta.
    2:{ intros e' [H1 H2]. right; right. split; [done|]. right. cbn. by rewrite H2. }
    intros _ e' (-> & Hver). wp_step.
    assert (directives_since e [] e) as Hs0.
    { exists e.(machine).(e_tag_directives). split; [by destruct e as [? ? ? [] ? ?]|].
      rewrite (rd_clear _ _ Hr) by (by right). done. }
    eapply wp_mono; [apply (wp_tag_directives e tags [] e Hs0); apply NoDup_nil_2|..]; cbv beta.
    2:{ intros e' H'. eapply fails_mono; [|exact H']. intros Hn. right. cbn. rewrite Hver. cbn.
        destruct (forallb directive_fine tags); [|done]. cbn. apply bool_decide_eq_false.
        intros Hnd. apply Hn. by split. }
    intros _ e1 (Hf & Hnd & H1). cbn [app] in Hnd, H1. wp_step.
    eapply wp_mono; [apply (wp_default_directives e (map kept tags) e1 H1)|..]; cbv beta.
    { apply Forall_map. eapply Forall_impl; [apply Forall_and; split; [exact Hev|]|].
      - apply List.Forall_forall. rewrite forallb_forall in Hf. exact Hf.
      - intros d [G1 [G2 _]%andb_true_iff]. unfold kept. cbn. rewrite !cstr_idem. split; [|done].
        by apply handle_fine_graph. }
    2:{ intros e' H'. eapply fails_mono; [|exact H']. done. }
    intros _ e2 (ds & (st & -> & Hst) & Hds).
    eapply wp_mono; [apply (wp_document_head (set_e_tag_directives st e) e.(analysis)); try done|..|done]; cbv beta.
    { destruct Ht as [[cs Hg] T1 T2 T3 T4 T5 T6]. split; try done. exists cs. destruct Hg. by split. }
    intros _ e3 ([[cs Hg] T1 T2 T3 T4 T5 T6] & T7). exists (NDoc []). split; [done|]. split.
    { cbn. rewrite Hver, Hf. cbn. by apply bool_decide_eq_true. }
    split; [|by rewrite T2, T1].
    split.
    + by rewrite T7, T5.
    + by rewrite T7, T6.
    + unfold emitted_directives. rewrite T3. cbn. by rewrite Hst.
    + by intros [|].
    + cbn. rewrite T1. split; [by exists cs|done].
    + done.
Qed.

(** *** The end of a document *)

Lemma wp_emit_document_end ev e :
  ready NDocDone e ->
  wp strict (yaml_emitter_emit_document_end ev)
    (fun _ e' => advanced NDocDone ev e e') (fails (wrong NDocDone ev)) e.
Proof.
  intros Hr. destruct (between _ _ Hr ltac:(by right)) as [Ht Hbest].
  unfold yaml_emitter_emit_document_end. destruct ev; refuse.
  eapply track_seq; [by apply safe_write_indent|exact Ht|]. intros e1 H1.
  eapply track_bind; [|exact H1|].
  { instantiate (1 := 0%nat). instantiate (1 := []). destruct implicit; cbn [negb].
    - wp_steps. by apply (track_assign h sofar e (analysis e) (fun e =>
        if open_ended (position e) =? 0 then set_open_ended 1 e else e)); [intros x; destruct (_ =? 0)|].
    - apply track_write; [|done]. apply safe_seq; [by apply safe_indicator|].
      apply safe_seq; [by apply safe_position; eauto|by apply safe_write_indent]. }
  intros e2 H2. eapply track_seq; [apply safe_flush|exact H2|].
  intros e3 [[cs Hg] T1 T2 T3 T4 T5 T6]. wp_steps. exists NStream. do 2 (split; [done|]).
  split; [|cbn; by rewrite T2, T1]. split; cbn.
  - by rewrite T5.
  - done.
  - apply Forall_nil_2.
  - done.
  - rewrite T1. split; [|done]. exists cs. destruct Hg. by split.
  - done.
Qed.

(** *** One event *)

Lemma emit_nest_doc s f l n :
  emit_nest s l = Some n -> frame_of s = Some f -> exists fs, stack_of l = Some fs /\ n = NDoc (f :: fs).
Proof.
  intros H Hf. destruct s; try discriminate Hf; injection Hf as <-;
    apply bind_Some in H as (? & [= <-] & H); apply bind_Some in H as (fs & Hl & [= <-]); eauto.
Qed.

Lemma emit_nest_base s l n :
  emit_nest s l = Some n -> frame_of s = None ->
  l = [] /\ n = match s with
               | YAML_EMIT_STREAM_START_STATE => NStart
               | YAML_EMIT_FIRST_DOCUMENT_START_STATE | YAML_EMIT_DOCUMENT_START_STATE => NStream
               | YAML_EMIT_DOCUMENT_CONTENT_STATE => NDoc []
               | YAML_EMIT_DOCUMENT_END_STATE => NDocDone
               | _ => NEnd
               end.
Proof.
  intros H Hf. destruct s; try discriminate Hf; destruct l; try discriminate H; by injection H as <-.
Qed.

(** Apply the lemma of a routine for the entries or the values of a collection. *)
Ltac collection lem :=
  match goal with
  | Huse : (forall fs m, _ = NDoc fs -> _ -> _), Hdoc : (forall fs, _ = NDoc fs -> _),
    H1 : emit_nest _ _ = Some _ |- _ =>
      destruct (emit_nest_doc _ _ _ _ H1 eq_refl) as (fs & Hl & ->);
      destruct (Hdoc _ eq_refl) as [Ht Hbest]; apply (Huse _ _ eq_refl);
      eapply lem; [eassumption|eassumption|exact Hl|exact Ht|..]; eassumption
  end.

Lemma wp_emit_state_machine n ev e :
  ready n e -> e.(machine).(e_events) <> [] -> event_ok ev ->
  analysis_ok e.(layout).(canonical) ev e.(analysis) ->
  wp strict (yaml_emitter_state_machine ev)
    (fun _ e' => advanced n ev e e') (fails (wrong n ev)) e.
Proof.
  intros Hr Hq Hev HA. unfold yaml_emitter_state_machine. wp_steps.
  pose proof (rd_nest _ _ Hr) as H1.
  assert (forall fs, n = NDoc fs -> tracks h sofar e (analysis e) (items (e_states (machine e)))
    (levels (e_state (machine e)) n) e /\ 2 <= best_indent (layout e) <= 9) as Hdoc.
  { intros fs ->. by apply ready_tracks. }
  assert (forall fs (m : eprog D unit), n = NDoc fs ->
    wp strict m (fun _ e' => stepped h sofar e (NDoc fs) ev e') (fails (unfit (NDoc fs) ev)) e ->
    wp strict m (fun _ e' => advanced n ev e e') (fails (wrong n ev)) e) as Huse.
  { intros fs m -> Hm. eapply wp_mono; [exact Hm|..]; cbv beta.
    - intros _ e'. by apply stepped_advanced.
    - intros e'. apply unfit_wrong. }
  destruct (e_state (machine e)) eqn:Es.
  - destruct (emit_nest_base _ _ _ H1 eq_refl) as [_ ->]. by apply wp_emit_stream_start.
  - destruct (emit_nest_base _ _ _ H1 eq_refl) as [_ ->]. by apply wp_emit_document_start.
  - destruct (emit_nest_base _ _ _ H1 eq_refl) as [_ ->]. by apply wp_emit_document_start.
  - destruct (emit_nest_base _ _ _ H1 eq_refl) as [El ->]. destruct (Hdoc _ eq_refl) as [Ht Hbest].
    apply (Huse _ _ eq_refl). rewrite El in Ht. by apply wp_emit_document_content with (analysis e).
  - destruct (emit_nest_base _ _ _ H1 eq_refl) as [_ ->]. by apply wp_emit_document_end.
  - collection (wp_flow_sequence_item h sofar e).
  - collection (wp_flow_sequence_item h sofar e).
  - collection (wp_emit_flow_mapping_key h sofar e).
  - collection (wp_emit_flow_mapping_key h sofar e).
  - collection (wp_emit_flow_mapping_value h sofar e).
  - collection (wp_emit_flow_mapping_value h sofar e).
  - collection (wp_block_sequence_item h sofar e).
  - collection (wp_block_sequence_item h sofar e).
  - collection (wp_emit_block_mapping_key h sofar e).
  - collection (wp_emit_block_mapping_key h sofar e).
  - collection (wp_emit_block_mapping_value h sofar e).
  - collection (wp_emit_block_mapping_value h sofar e).
  - destruct (emit_nest_base _ _ _ H1 eq_refl) as [_ ->]. apply wp_emitter_error. intros e' He'.
    right; right. split; [done|]. left. by destruct ev.
Qed.

(** ** The queue *)

Lemma ready_analysis n a e : ready n e -> ready n (set_analysis a e).
Proof.
  intros [H1 H2 H3 H4 H5 H6]. split; try done. case_bool_decide; [done|].
  destruct H5 as [[cs Hg] H5]. split; [|done]. exists cs. destruct Hg. by split.
Qed.

Lemma ready_events n q e : ready n e -> ready n (set_e_events q e).
Proof.
  intros [H1 H2 H3 H4 H5 H6]. split; try done. case_bool_decide; [done|].
  destruct H5 as [[cs Hg] H5]. split; [|done]. exists cs. destruct Hg. by split.
Qed.

Lemma acceptable_parts canon ev : acceptable canon ev = node_fine canon ev && rest_fine ev.
Proof. by destruct ev. Qed.

(** The run of the grammar over events with acceptable data. *)
Fixpoint accepts (canon : bool) (n : nest) (evs : list yaml_event_t) : option nest :=
  match evs with
  | [] => Some n
  | ev :: r =>
      if acceptable canon ev.(event_data) then n' ← nest_step n ev.(event_data); accepts canon n' r
      else None
  end.

Lemma accepts_app canon n a b :
  accepts canon n (a ++ b) = n' ← accepts canon n a; accepts canon n' b.
Proof.
  revert n. induction a as [|ev a IH]; intros n; [done|]. cbn.
  destruct (acceptable canon (event_data ev)); [|done]. destruct (nest_step n (event_data ev)); cbn; auto.
Qed.

Definition events_ok (evs : list yaml_event_t) : Prop := Forall (fun x => event_ok x.(event_data)) evs.

Lemma wp_emit_head n (ev : yaml_event_t) rest e :
  ready n e -> e.(machine).(e_events) = ev :: rest -> event_ok ev.(event_data) ->
  wp strict emit_head
    (fun _ e' => exists n', accepts e.(layout).(canonical) n [ev] = Some n' /\ ready n' e'
       /\ e'.(machine).(e_events) = rest /\ e'.(layout).(canonical) = e.(layout).(canonical))
    (fails (accepts e.(layout).(canonical) n [ev] = None)) e.
Proof.
  intros Hr Hq Hev. unfold emit_head. wp_steps. rewrite Hq. set (canon := canonical (layout e)).
  assert (accepts canon n [ev] = if node_fine canon (event_data ev) && rest_fine (event_data ev)
    then nest_step n (event_data ev) else None) as ->.
  { cbn. rewrite acceptable_parts. destruct (_ && _); [|done]. by destruct (nest_step _ _). }
  wp_step. eapply wp_mono; [apply (wp_analyze_event (event_data ev) e Hev), Hr|..]; cbv beta; fold canon.
  2:{ intros e' [H1 ->]. right; right. by split. }
  intros _ e1 (-> & a & -> & Ha). wp_step.
  eapply wp_mono; [apply (wp_emit_state_machine n (event_data ev)); [by apply ready_analysis|by cbn; rewrite Hq|done|exact Ha]|..]; cbv beta.
  - intros _ e2 (n' & H1 & -> & H2 & H3 & H4). unfold dequeue_event. wp_steps. exists n'.
    cbn [andb]. split; [done|]. split; [by apply ready_events|]. cbn in H3, H4 |- *. by rewrite H3, Hq.
  - intros e2 H2. eapply fails_mono; [|exact H2]. intros [->| ->]; [by destruct (_ && _)|].
    by rewrite andb_false_r.
Qed.

(** From [e] in the state [n], with [q] to be processed. *)
Definition processed (canon : bool) (n : nest) (q : list yaml_event_t) e : Prop :=
  exists before rest n', q = before ++ rest /\ accepts canon n before = Some n' /\ ready n' e
    /\ e.(machine).(e_events) = rest /\ e.(layout).(canonical) = canon.

Lemma wp_emit n (ev : yaml_event_t) e :
  ready n e -> events_ok (e.(machine).(e_events) ++ [ev]) ->
  wp strict (yaml_emitter_emit ev)
    (fun _ e' => processed e.(layout).(canonical) n (e.(machine).(e_events) ++ [ev]) e'
       /\ need_more_events e'.(machine).(e_events) = true)
    (fails (accepts e.(layout).(canonical) n (e.(machine).(e_events) ++ [ev]) = None)) e.
Proof.
  intros Hr Hev. unfold yaml_emitter_emit. wp_steps. set (q := e_events (machine e) ++ [ev]) in *.
  set (canon := canonical (layout e)). set (e1 := set_e_events q e).
  assert (ready n e1) as Hr1 by (by apply ready_events).
  change (e_events (machine e1)) with q.
  eapply (wp_while strict (processed canon n q) (fun e => length e.(machine).(e_events))
    _ _ (fun e' => processed canon n q e' /\ need_more_events e'.(machine).(e_events) = true)).
  - intros e2 (before & rest & n' & Hq & Ha & Hr2 & Hrest & Hcanon).
    unfold yaml_emitter_need_more_events. wp_steps. rewrite Hrest.
    destruct (need_more_events rest) eqn:Em; cbn [negb].
    { split; [by exists before, rest, n'|done]. }
    destruct rest as [|ev2 rest]; [done|].
    eapply wp_mono; [eapply (wp_emit_head n' ev2 rest e2); [done|done|]|..]; cbv beta.
    + unfold events_ok in Hev. rewrite Hq in Hev. apply Forall_app in Hev as [_ Hev].
      by apply Forall_cons in Hev as [? _].
    + rewrite Hcanon. intros _ e3 (n3 & H1 & H2 & H3 & H4). split.
      * exists (before ++ [ev2]), rest, n3. rewrite <- app_assoc, accepts_app, Ha. cbn [mbind option_bind app].
        by split_and!.
      * right. rewrite H3. cbn. lia.
    + rewrite Hcanon. intros e3 H3. eapply fails_mono; [|exact H3]. intros Hn.
      rewrite Hq. change (ev2 :: rest) with ([ev2] ++ rest). rewrite accepts_app, Ha.
      cbn [mbind option_bind]. by rewrite accepts_app, Hn.
  - exists [], q, n. by split_and!.
  - right. cbn. lia.
Qed.

Fixpoint emit_all (evs : list yaml_event_t) : eprog D unit :=
  match evs with
  | [] => mret tt
  | ev :: r => yaml_emitter_emit ev;; emit_all r
  end.

Lemma wp_emit_all evs : forall n e,
  ready n e -> events_ok (e.(machine).(e_events) ++ evs) -> need_more_events e.(machine).(e_events) = true ->
  wp strict (emit_all evs)
    (fun _ e' => processed e.(layout).(canonical) n (e.(machine).(e_events) ++ evs) e'
       /\ need_more_events e'.(machine).(e_events) = true)
    (fails (accepts e.(layout).(canonical) n (e.(machine).(e_events) ++ evs) = None)) e.
Proof.
  induction evs as [|ev evs IH]; intros n e Hr Hev Hmore; cbn [emit_all].
  { wp_steps. split; [|done]. exists [], e.(machine).(e_events), n. rewrite app_nil_r. by split_and!. }
  set (q := e_events (machine e)) in *. set (canon := canonical (layout e)).
  replace (q ++ ev :: evs) with ((q ++ [ev]) ++ evs) in * by (by rewrite <- app_assoc).
  wp_step. eapply wp_mono; [apply (wp_emit n ev e Hr)|..]; cbv beta; fold q canon.
  - by apply Forall_app in Hev as [? _].
  - intros _ e1 ((before & rest & n' & Hq & Ha & Hr1 & Hrest & Hc) & Hm).
    rewrite Hq, <- app_assoc in Hev. apply Forall_app in Hev as [_ Hev].
    eapply wp_mono; [apply (IH n' e1 Hr1); [by rewrite Hrest|done]|..]; cbv beta; rewrite Hrest, Hc.
    + intros _ e2 ((before2 & rest2 & n2 & Hq2 & Ha2 & H2) & Hm2). split; [|done].
      exists (before ++ before2), rest2, n2. rewrite Hq, <- !app_assoc, Hq2. split; [done|].
      rewrite accepts_app, Ha. by split.
    + intros e2 H2. eapply fails_mono; [|exact H2]. intros Hn. rewrite Hq, <- app_assoc, accepts_app, Ha.
      cbn [mbind option_bind]. done.
  - intros e1 H1. eapply fails_mono; [|exact H1]. intros Hn. by rewrite accepts_app, Hn.
Qed.
End stream.

(** ** Whole streams *)

(** How deep a state of the grammar is. *)
Definition nest_depth (n : nest) : Z :=
  match n with
  | NStart | NEnd => 0
  | NStream => 1
  | NDoc fs => 2 + Z.of_nat (length fs)
  | NDocDone => 2
  end.

Lemma nest_step_depth n ev n' :
  nest_step n ev = Some n' -> nest_depth n' = nest_depth n + event_level ev.
Proof.
  destruct ev, n as [| |fs| |]; cbn; try done; try (intros [= <-]; done);
    destruct fs as [|[] fs]; cbn; try done; intros [= <-]; cbn; try lia;
    destruct fs as [|[] fs]; cbn; lia.
Qed.

(** A run that ends lower than it began, at a level above it now, closes. *)
Lemma run_closes canon evs : forall n n' level,
  accepts canon n evs = Some n' -> 0 < level -> level + nest_depth n' - nest_depth n <= 0 ->
  level_closes level evs = true.
Proof.
  induction evs as [|ev evs IH]; intros n n' level Ha Hl Hd; cbn in Ha.
  { injection Ha as <-. lia. }
  destruct (acceptable canon (event_data ev)); [|done].
  apply bind_Some in Ha as (n1 & Hs & Ha). cbn [level_closes].
  pose proof (nest_step_depth _ _ _ Hs) as Hdep.
  assert (-1 <= event_level (event_data ev) <= 1) as Hb by (destruct (event_data ev); cbn; lia).
  destruct (level + event_level (event_data ev) =? 0) eqn:E0; [done|]. cbn [orb].
  apply (IH n1 n'); [done|lia|lia].
Qed.

(** After a complete stream nothing is left in the queue. *)
Lemma complete_run canon n rest :
  accepts canon n rest = Some NEnd -> need_more_events rest = true -> rest = [].
Proof.
  destruct rest as [|ev rest]; [done|]. intros Ha Hm.
  assert (level_closes 0 (ev :: rest) = true -> False) as Hno.
  { intros Hc. cbn [need_more_events] in Hm. cbv zeta in Hm. rewrite Hc in Hm.
    destruct (event_data ev); try done; by destruct (_ >? _). }
  exfalso. apply Hno. cbn in Ha. destruct (acceptable canon (event_data ev)); [|done].
  apply bind_Some in Ha as (n1 & Hs & Ha). cbn [level_closes].
  pose proof (nest_step_depth _ _ _ Hs) as Hdep.
  assert (0 <= nest_depth n) as Hn by (destruct n; cbn; lia).
  destruct (event_data ev) eqn:Ee; cbn [need_more_events] in Hm; rewrite Ee in Hm;
    try discriminate Hm; try done; cbn [event_level] in *;
    (apply (run_closes canon rest n1 NEnd 1); [done|lia|cbn [nest_depth]; lia]).
Qed.

(** The emitter after its initialisation, with any settings and an output that
    has received nothing. *)
Definition configured {D} (h : yaml_write_handler_t D) (sofar : D -> list Z) (e : yaml_emitter_t D) : Prop :=
  e.(machine) = (yaml_emitter_initialize (D := D)).(machine) /\ fresh h sofar e.

Lemma configured_ready {D} (h : yaml_write_handler_t D) sofar e :
  configured h sofar e -> ready h sofar NStart e.
Proof. intros [Hm Hf]. split; unfold emitted_directives; rewrite ?Hm; try done. apply Forall_nil_2. Qed.

(** C7: whatever sequence of events is passed to the emitter, with texts that
    are valid UTF-8, no call crashes or runs for ever.  If the calls succeed,
    the events that have been processed are a run of the grammar that the
    parser refines, with acceptable anchors, tags and directives, and those
    still in the queue are waited for by the look-ahead.  If one fails, then
    the write handler failed, or a stack could not grow, or the sequence is not
    such a run. *)
Theorem emitter_accepts_grammar {D} (h : yaml_write_handler_t D) (sofar : D -> list Z)
    {col : Collects h sofar} (e : yaml_emitter_t D) (evs : list yaml_event_t) :
  configured h sofar e -> events_ok evs ->
  wp strict (emit_all evs)
    (fun _ e' => exists before rest n, evs = before ++ rest
       /\ accepts e.(layout).(canonical) NStart before = Some n
       /\ e'.(machine).(e_events) = rest /\ need_more_events rest = true)
    (fun e' => write_failed e' \/ out_of_memory e'
       \/ refused e' /\ accepts e.(layout).(canonical) NStart evs = None) e.
Proof.
  intros Hc Hev. pose proof Hc as [Hm _].
  eapply wp_mono; [apply (wp_emit_all h sofar evs NStart e)|..]; rewrite ?Hm; cbv beta.
  - by apply configured_ready.
  - done.
  - done.
  - intros _ e' ((before & rest & n & H1 & H2 & H3 & H4 & H5) & H6). exists before, rest, n.
    by rewrite H4 in H6.
  - done.
Qed.

(** What has been given to the handler: a text of characters, all of it. *)
Definition delivered_text {D} (h : yaml_write_handler_t D) (sofar : D -> list Z) (cs : list Z) (d : D)
    (e : yaml_emitter_t D) : Prop :=
  e.(writing).(output) = Some (h, d) /\ e.(writing).(out_buffer) = []
  /\ e.(writing).(out_encoding) <> YAML_ANY_ENCODING
  /\ sofar d = raw_text e.(writing).(out_encoding) cs /\ Forall out_char cs.

Lemma wp_complete_stream {D} (h : yaml_write_handler_t D) (sofar : D -> list Z)
    {col : Collects h sofar} (e : yaml_emitter_t D) (evs : list yaml_event_t) :
  configured h sofar e -> events_ok evs ->
  accepts e.(layout).(canonical) NStart evs = Some NEnd ->
  wp strict (emit_all evs)
    (fun _ e' => e'.(machine).(e_events) = [] /\ exists d cs, delivered_text h sofar cs d e')
    (fun e' => write_failed e' \/ out_of_memory e') e.
Proof.
  intros Hc Hev Hrun. pose proof Hc as [Hm _].
  eapply wp_mono; [apply (wp_emit_all h sofar evs NStart e)|..]; rewrite ?Hm; cbv beta.
  - by apply configured_ready.
  - done.
  - done.
  - cbn [app yaml_emitter_initialize machine e_events].
    intros _ e' ((before & rest & n & H1 & H2 & H3 & H4 & H5) & H6).
    rewrite H1, accepts_app, H2 in Hrun. cbn [mbind option_bind] in Hrun. rewrite H4 in H6.
    assert (rest = []) as -> by (by eapply complete_run). injection Hrun as ->.
    pose proof (rd_flushed _ _ _ _ H3 eq_refl) as Hflush. split; [done|].
    pose proof (rd_output _ _ _ _ H3) as [[cs [Hch Henc _ _ (dn & rs & d & -> & Ho & Hs & Hb)]] _].
    rewrite Hflush in Hb. symmetry in Hb. apply utf8_text_nil in Hb as ->. rewrite app_nil_r in Hch.
    by exists d, dn.
  - cbn [app yaml_emitter_initialize machine e_events]. intros e' [H|[H|[_ H]]]; [by left|by right|congruence].
Qed.

(** The reader takes what has been delivered. *)
Lemma delivered_readable {D} (h : yaml_write_handler_t D) (sofar : D -> list Z) cs d e (p : yaml_parser_t) :
  delivered_text h sofar cs d e ->
  p.(reader).(encoding) = e.(writing).(out_encoding) -> p.(reader).(raw_buffer) = sofar d ->
  decode_raw p = Ret tt (transcoded e.(writing).(out_encoding) cs [] p).
Proof.
  intros (_ & _ & Henc & Hs & Hch) Hp Hraw. unfold decode_raw. run_step.
  rewrite Hraw, Hs. apply decode_loop; try done.
  - eapply Forall_impl; [exact Hch|]. by intros v [? _].
  - by rewrite Hraw.
  - pose proof (raw_text_length (out_encoding (writing e)) cs). lia.
Qed.

(** C14: emitting a complete stream writes a text that the reader accepts: when
    the last call returns, the queue and the buffer are empty, and the octets
    given to the handler are the output encoding of characters that the reader
    decodes, all of them, back into its buffer.  Unless the handler fails or
    memory runs out the calls do return. *)
Theorem emitted_stream_readable {D} (h : yaml_write_handler_t D) (sofar : D -> list Z)
    {col : Collects h sofar} (e : yaml_emitter_t D) (evs : list yaml_event_t) :
  configured h sofar e -> events_ok evs ->
  accepts e.(layout).(canonical) NStart evs = Some NEnd ->
  wp strict (emit_all evs)
    (fun _ e' => e'.(machine).(e_events) = [] /\ e'.(writing).(out_buffer) = []
       /\ exists d cs, e'.(writing).(output) = Some (h, d)
            /\ sofar d = raw_text e'.(writing).(out_encoding) cs
            /\ forall p, p.(reader).(encoding) = e'.(writing).(out_encoding) ->
                 p.(reader).(raw_buffer) = sofar d ->
                 decode_raw p = Ret tt (transcoded e'.(writing).(out_encoding) cs [] p))
    (fun e' => write_failed e' \/ out_of_memory e') e.
Proof.
  intros Hc Hev Hrun. eapply wp_mono; [by apply (wp_complete_stream h sofar e evs)| |done]. cbv beta.
  intros _ e' (H1 & d & cs & Hd). pose proof Hd as (Ho & Hb & _ & Hs & _). split_and!; [done|done|].
  exists d, cs. split_and!; [done|done|]. intros p. by apply (delivered_readable h sofar).
Qed.

(** ** A stream *)

Definition sample_scalar (anchor : option (list Z)) (text : list Z) : yaml_event_data :=
  YAML_SCALAR_EVENT anchor None text (-1) true true YAML_ANY_SCALAR_STYLE.

(** What an application asks for: [{a: &x [é, "1\n2"], ? *x : ""}]. *)
Definition sample_requests : list yaml_event_data :=
  [YAML_STREAM_START_EVENT YAML_UTF8_ENCODING; YAML_DOCUMENT_START_EVENT None [] true;
   YAML_MAPPING_START_EVENT None None true YAML_BLOCK_MAPPING_STYLE;
   sample_scalar None (bytes_of "a");
   YAML_SEQUENCE_START_EVENT (Some (bytes_of "x")) None true YAML_FLOW_SEQUENCE_STYLE;
   sample_scalar None [0xC3; 0xA9]; sample_scalar None [0x31; 0x0A; 0x32];
   YAML_SEQUENCE_END_EVENT;
   YAML_ALIAS_EVENT (bytes_of "x"); sample_scalar None [];
   YAML_MAPPING_END_EVENT; YAML_DOCUMENT_END_EVENT true; YAML_STREAM_END_EVENT].

Definition sample_stream : list yaml_event_t :=
  map (fun want => EVENT_INIT (copied want) mark0 mark0) sample_requests.

Definition sample_emitter : yaml_emitter_t string_output :=
  set_unicode true (set_output (Some (yaml_string_write_handler, mkStringOutput [] 1000)) yaml_emitter_initialize).

Lemma sample_ok : events_ok sample_stream.
Proof.
  apply List.Forall_forall. intros ev Hev. apply in_map_iff in Hev as (want & <- & Hwant).
  assert (forallb octets (request_texts want) && forallb yaml_check_utf8 (request_texts want)
          && request_fits want = true) as H.
  { revert want Hwant. apply List.Forall_forall. repeat (apply Forall_cons_2; [reflexivity|]). apply Forall_nil_2. }
  apply andb_true_iff in H as [[Ho Hv]%andb_true_iff Hf]. apply copied_ok; [|done].
  apply octets_decided in Ho. apply List.Forall_forall. intros t Ht. rewrite List.Forall_forall in Ho.
  rewrite forallb_forall in Hv. apply (valid_checked t); auto.
Qed.

Lemma sample_configured : configured yaml_string_write_handler written sample_emitter.
Proof. split; [done|]. split; [|done]. by eexists. Qed.

(** The calls return, with an object that passes the test; or they fail. *)
Definition returns_with {S} (test : S -> bool) (r : outcome S unit) : bool :=
  match r with Ret _ e => test e | _ => false end.
Definition fails_with {S} (test : S -> bool) (r : outcome S unit) : bool :=
  match r with Err e => test e | _ => false end.

Lemma wp_returned {S} (m : prog S unit) Q E e test :
  wp strict m Q E e -> returns_with test (m e) = true -> exists e', m e = Ret tt e' /\ test e' = true /\ Q tt e'.
Proof. unfold wp. destruct (m e) as [[] e'|e'| |]; try done. cbn. eauto. Qed.

Lemma wp_refused {S} (m : prog S unit) Q E e test :
  wp strict m Q E e -> fails_with test (m e) = true -> exists e', m e = Err e' /\ test e' = true /\ E e'.
Proof. unfold wp. destruct (m e) as [[] e'|e'| |]; try done. cbn. eauto. Qed.

Definition unclosed_stream : list yaml_event_t := take 7 sample_stream ++ drop 8 sample_stream.

Definition sample_text : list Z :=
  bytes_of "a: &x [" ++ [0xC3; 0xA9] ++ bytes_of ", '1" ++ [0x0A; 0x0A]
  ++ bytes_of "    2']" ++ [0x0A] ++ bytes_of "*x :" ++ [0x0A].

Lemma sample_returns :
  returns_with (fun e => bool_decide (out_encoding (writing e) = YAML_UTF8_ENCODING)
    && bool_decide (written <$> (snd <$> (output (writing e))) = Some sample_text))
    (emit_all sample_stream sample_emitter) = true.
Proof. vm_compute. reflexivity. Qed.

Lemma unclosed_fails :
  fails_with (fun e => bool_decide (e_error (em_err e) = YAML_EMITTER_ERROR)) (emit_all unclosed_stream sample_emitter) = true.
Proof. vm_compute. reflexivity. Qed.

Lemma unclosed_ok : events_ok unclosed_stream.
Proof. apply Forall_app. split; [apply Forall_take|apply Forall_drop]; apply sample_ok. Qed.

(** The sample is taken; without the end of its sequence it is refused. *)
Lemma emitter_accepts_grammar_witness :
  (exists e', emit_all sample_stream sample_emitter = Ret tt e'
     /\ exists before rest n, sample_stream = before ++ rest /\ accepts false NStart before = Some n
     /\ e'.(machine).(e_events) = rest /\ need_more_events rest = true)
  /\ exists e', emit_all unclosed_stream sample_emitter = Err e' /\ accepts false NStart unclosed_stream = None.
Proof.
  split.
  - destruct (wp_returned _ _ _ _ _ (emitter_accepts_grammar yaml_string_write_handler written sample_emitter
      sample_stream sample_configured sample_ok) sample_returns) as (e' & H1 & _ & H2).
    exists e'. split; [exact H1|exact H2].
  - destruct (wp_refused _ _ _ _ _ (emitter_accepts_grammar yaml_string_write_handler written sample_emitter
      unclosed_stream sample_configured unclosed_ok) unclosed_fails) as (e' & H1 & H2 & H3).
    exists e'. split; [exact H1|]. apply bool_decide_eq_true in H2.
    destruct H3 as [H3|[H3|[_ H3]]]; [|  |exact H3]; unfold write_failed, out_of_memory in H3; rewrite H2 in H3; discriminate H3.
Defined.

Lemma emitted_stream_readable_witness :
  exists e' d, emit_all sample_stream sample_emitter = Ret tt e'
     /\ e'.(machine).(e_events) = [] /\ e'.(writing).(output) = Some (yaml_string_write_handler, d)
     /\ written d = sample_text
     /\ exists cs, sample_text = raw_text YAML_UTF8_ENCODING cs
     /\ decode_raw (set_raw_buffer sample_text (set_encoding YAML_UTF8_ENCODING (yaml_parser_initialize [])))
        = Ret tt (transcoded YAML_UTF8_ENCODING cs []
            (set_raw_buffer sample_text (set_encoding YAML_UTF8_ENCODING (yaml_parser_initialize [])))).
Proof.
  destruct (wp_returned _ _ _ _ _ (emitted_stream_readable yaml_string_write_handler written sample_emitter
    sample_stream sample_configured sample_ok eq_refl) sample_returns)
    as (e' & H0 & Hr & H1 & _ & d & cs & H2 & H3 & H4).
  apply andb_prop in Hr as [He Ht]. apply bool_decide_eq_true in He. apply bool_decide_eq_true in Ht.
  rewrite H2 in Ht. injection Ht as Ht. rewrite He, Ht in H3. rewrite He, Ht in H4.
  exists e', d. split_and!; [exact H0|exact H1|exact H2|exact Ht|]. exists cs. split; [exact H3|].
  apply H4; reflexivity.
Defined.
