(* ===== verification/YamlDumper.v ===== *)
(** * libyaml: the dumper ([dumper.c])

    [yaml_emitter_dump] turns a document back into events: a first pass counts
    the references to every node and numbers those that are referred to twice,
    a second pass emits the events, an alias for every node it has emitted
    before.  The part of the emitter object that the dumper keeps is a record
    of its own; what takes the events is an interface, [EventSink], which the
    emitter implements with [yaml_emitter_emit]. *)

From Stdlib Require Import ZArith Lia Ascii String.
From stdpp Require Import base list option strings.
From S2P Require Import Prelude YamlData YamlDocument YamlWriter YamlEmitter.

#[local] Open Scope Z_scope.

(** ** Data *)

Record yaml_anchors_t : Type := mkAnchors {
  an_references : Z;
  an_anchor : Z;
  an_serialized : bool
}.

Definition no_anchor : yaml_anchors_t := mkAnchors 0 0 false.

(** What takes events. *)
Class EventSink (K : Type) : Type := emit : yaml_event_t -> prog K unit.

#[export] Instance emitter_sink {D} : EventSink (yaml_emitter_t D) := yaml_emitter_emit.

(** The dumper's fields of [yaml_emitter_t]; the others are [dm_sink].  A NULL
    pointer is [None]. *)
Record dumper (K : Type) : Type := mkDumper {
  dm_sink : K;
  dm_opened : bool;
  dm_closed : bool;
  dm_anchors : option (list yaml_anchors_t);
  dm_last_id : Z;
  dm_document : option yaml_document_t
}.
Arguments mkDumper {K} _ _ _ _ _ _.
Arguments dm_sink {K} _.
Arguments dm_opened {K} _.
Arguments dm_closed {K} _.
Arguments dm_anchors {K} _.
Arguments dm_last_id {K} _.
Arguments dm_document {K} _.

(** ** Anchors *)

(** [sprintf(anchor, "id%03d", anchor_id)]: no more digits than the number has
    binary ones. *)
Definition yaml_emitter_generate_anchor (anchor_id : Z) : list Z :=
  let digits := decimal (S (Z.to_nat (Z.log2 anchor_id))) anchor_id in
  bytes_of "id" ++ replicate (3 - length digits) 48 ++ digits.

Section dumper.
Context {K : Type} `{sink : EventSink K}.

Definition dprog : Type -> Type := prog (dumper K).

Definition set_sink k (s : dumper K) : dumper K :=
  mkDumper k s.(dm_opened) s.(dm_closed) s.(dm_anchors) s.(dm_last_id) s.(dm_document).
Definition set_opened v (s : dumper K) : dumper K :=
  mkDumper s.(dm_sink) v s.(dm_closed) s.(dm_anchors) s.(dm_last_id) s.(dm_document).
Definition set_closed v (s : dumper K) : dumper K :=
  mkDumper s.(dm_sink) s.(dm_opened) v s.(dm_anchors) s.(dm_last_id) s.(dm_document).
Definition set_anchors v (s : dumper K) : dumper K :=
  mkDumper s.(dm_sink) s.(dm_opened) s.(dm_closed) v s.(dm_last_id) s.(dm_document).
Definition set_last_id v (s : dumper K) : dumper K :=
  mkDumper s.(dm_sink) s.(dm_opened) s.(dm_closed) s.(dm_anchors) v s.(dm_document).
Definition set_dumped v (s : dumper K) : dumper K :=
  mkDumper s.(dm_sink) s.(dm_opened) s.(dm_closed) s.(dm_anchors) s.(dm_last_id) v.

(** [yaml_emitter_emit(emitter, &event)], the marks being zero. *)
Definition emit_event (x : yaml_event_data) : dprog unit := fun s =>
  match emit (EVENT_INIT x mark0 mark0) s.(dm_sink) with
  | Ret _ k => Ret tt (set_sink k s)
  | Err k => Err (set_sink k s)
  | Crash => Crash
  | Timeout => Timeout
  end.

(** [emitter->document->nodes.start[index-1]] *)
Definition dumped_node (index : Z) : dprog yaml_node_t :=
  o ← gets dm_document; d ← deref o; deref (node_at index d).

(** [emitter->anchors[index-1]], and an assignment to it. *)
Definition anchors_at (index : Z) : dprog yaml_anchors_t :=
  o ← gets dm_anchors; a ← deref o;
  if 0 <? index then deref (a !! Z.to_nat (index - 1)) else crash.

Definition set_anchors_at (index : Z) (x : yaml_anchors_t) : dprog unit :=
  modify (fun s => set_anchors (<[Z.to_nat (index - 1) := x]> <$> s.(dm_anchors)) s).

(** A loop over the elements of a stack, from its start to its top. *)
Fixpoint each {A} (f : A -> dprog unit) (l : list A) : dprog unit :=
  match l with
  | [] => mret tt
  | x :: r => f x;; each f r
  end.

(** ** Opening and closing *)

Definition yaml_emitter_open : dprog unit :=
  opened ← gets dm_opened;
  if (opened : bool) then crash
  else
    emit_event (YAML_STREAM_START_EVENT YAML_ANY_ENCODING);;
    modify (set_opened true).

Definition yaml_emitter_close : dprog unit :=
  opened ← gets dm_opened;
  if negb opened then crash
  else
    closed ← gets dm_closed;
    if (closed : bool) then mret tt
    else
      emit_event YAML_STREAM_END_EVENT;;
      modify (set_closed true).

(** ** References *)

(** The recursion goes down a chain of nodes that are met for the first time:
    the number of nodes and one more is enough. *)
Fixpoint yaml_emitter_anchor_node (fuel : nat) (index : Z) : dprog unit :=
  match fuel with
  | O => timeout
  | S n =>
      a ← anchors_at index;
      let references := a.(an_references) + 1 in
      set_anchors_at index (mkAnchors references a.(an_anchor) a.(an_serialized));;
      if references =? 1 then
        node ← dumped_node index;
        match node.(node_data) with
        | YAML_SEQUENCE_NODE s _ => each (yaml_emitter_anchor_node n) (rev s.(items))
        | YAML_MAPPING_NODE s _ =>
            each (fun pair => yaml_emitter_anchor_node n pair.(pair_key);;
                              yaml_emitter_anchor_node n pair.(pair_value)) (rev s.(items))
        | _ => mret tt
        end
      else if references =? 2 then
        modify (fun s => set_last_id (s.(dm_last_id) + 1) s);;
        id ← gets dm_last_id;
        a ← anchors_at index;
        set_anchors_at index (mkAnchors a.(an_references) id a.(an_serialized))
      else mret tt
  end.

(** ** Events *)

(** The anchor of an alias that is NULL is dereferenced by the emitter. *)
Definition yaml_emitter_dump_alias (anchor : option (list Z)) : dprog unit :=
  anchor ← deref anchor; emit_event (YAML_ALIAS_EVENT anchor).

Definition yaml_emitter_dump_scalar (tag value : list Z) (len : Z) (style : yaml_scalar_style_t)
    (anchor : option (list Z)) : dprog unit :=
  let implicit := strcmp_eq tag YAML_DEFAULT_SCALAR_TAG in
  emit_event (YAML_SCALAR_EVENT anchor (Some tag) value len implicit implicit style).

Definition yaml_emitter_dump_sequence (dump : Z -> dprog unit) (tag : list Z) (s : stack Z)
    (style : yaml_sequence_style_t) (anchor : option (list Z)) : dprog unit :=
  let implicit := strcmp_eq tag YAML_DEFAULT_SEQUENCE_TAG in
  emit_event (YAML_SEQUENCE_START_EVENT anchor (Some tag) implicit style);;
  each dump (rev s.(items));;
  emit_event YAML_SEQUENCE_END_EVENT.

Definition yaml_emitter_dump_mapping (dump : Z -> dprog unit) (tag : list Z)
    (s : stack yaml_node_pair_t) (style : yaml_mapping_style_t) (anchor : option (list Z)) : dprog unit :=
  let implicit := strcmp_eq tag YAML_DEFAULT_MAPPING_TAG in
  emit_event (YAML_MAPPING_START_EVENT anchor (Some tag) implicit style);;
  each (fun pair => dump pair.(pair_key);; dump pair.(pair_value)) (rev s.(items));;
  emit_event YAML_MAPPING_END_EVENT.

Fixpoint yaml_emitter_dump_node (fuel : nat) (index : Z) : dprog unit :=
  match fuel with
  | O => timeout
  | S n =>
      node ← dumped_node index;
      a ← anchors_at index;
      let anchor := if a.(an_anchor) =? 0 then None else Some (yaml_emitter_generate_anchor a.(an_anchor)) in
      if a.(an_serialized) then yaml_emitter_dump_alias anchor
      else
        set_anchors_at index (mkAnchors a.(an_references) a.(an_anchor) true);;
        match node.(node_data) with
        | YAML_SCALAR_NODE value len style => yaml_emitter_dump_scalar node.(node_tag) value len style anchor
        | YAML_SEQUENCE_NODE s style =>
            yaml_emitter_dump_sequence (yaml_emitter_dump_node n) node.(node_tag) s style anchor
        | YAML_MAPPING_NODE s style =>
            yaml_emitter_dump_mapping (yaml_emitter_dump_node n) node.(node_tag) s style anchor
        | YAML_NO_NODE => crash
        end
  end.

(** ** Documents *)

(** The document is released; with anchors, [anchors[index]] is read for every
    node. *)
Definition yaml_emitter_delete_document_and_anchors : dprog unit :=
  o ← gets dm_anchors;
  match o with
  | None => modify (set_dumped None)
  | Some a =>
      o ← gets dm_document; d ← deref o;
      if Z.of_nat (length a) <? node_count d then crash
      else
        modify (set_anchors None);;
        modify (set_last_id 0);;
        modify (set_dumped None)
  end.

(** The body of [yaml_emitter_dump], up to the clean-up: first the stream is
    opened, then the document is emitted, or the stream closed. *)
Definition dump_document (document : yaml_document_t) : dprog unit :=
  if bool_decide (document.(nodes).(items) = []) then yaml_emitter_close
  else
    opened ← gets dm_opened;
    if negb opened then crash
    else
      let n := length document.(nodes).(items) in
      modify (set_anchors (Some (replicate n no_anchor)));;
      emit_event (YAML_DOCUMENT_START_EVENT document.(version_directive)
        document.(document_tag_directives) document.(start_implicit));;
      yaml_emitter_anchor_node (S n) 1;;
      yaml_emitter_dump_node (S n) 1;;
      emit_event (YAML_DOCUMENT_END_EVENT document.(end_implicit)).

Definition dump_body (document : yaml_document_t) : dprog unit :=
  opened ← gets dm_opened;
  (if (opened : bool) then mret tt else yaml_emitter_open);;
  dump_document document.

Definition yaml_emitter_dump (document : yaml_document_t) : dprog unit :=
  modify (set_dumped (Some document));;
  r ← attempt (dump_body document);
  yaml_emitter_delete_document_and_anchors;;
  match r with Some _ => mret tt | None => fail end.

End dumper.

(** The dumper of an emitter that has just been initialised. *)
Definition new_dumper {K} (k : K) : dumper K := mkDumper k false false None 0 None.
