(* ===== verification/YamlDumpSpec.v ===== *)
(** * libyaml: what the dumper emits

    A document is a graph.  [spells] is the reference: the tree that a walk
    from the root makes of it, in which a node stands where it is met first and
    a reference wherever it is met again.  The anchors are those of the nodes
    that are referred to, numbered in the order of the first reference.  The
    theorem shows that [yaml_emitter_dump] emits the events of this tree, for
    any sink, and no others: the two passes agree, no alias lacks its anchor,
    and the recursion is never deeper than the number of nodes. *)

From Stdlib Require Import ZArith Lia Ascii String.
From stdpp Require Import base list option strings list_numbers sets.
From S2P Require Import Prelude YamlData YamlDocument YamlLoader YamlCompose YamlWriter YamlEmitter YamlDumper.

#[local] Open Scope Z_scope.
#[local] Set Warnings "-register-all,-clear-no-such-hyp".

(** ** Walks *)

Inductive walk : Type :=
| WRef (i : Z)
| WNode (i : Z) (kids : list walk).

Section walk_ind.
Variable P : walk -> Prop.
Hypothesis Href : forall i, P (WRef i).
Hypothesis Hnode : forall i ws, Forall P ws -> P (WNode i ws).

Fixpoint walk_ind' (w : walk) : P w :=
  match w with
  | WRef i => Href i
  | WNode i ws =>
      Hnode i ws
        ((fix go ws : Forall P ws :=
            match ws with
            | [] => Forall_nil_2 _
            | w :: r => Forall_cons_2 _ _ _ (walk_ind' w) (go r)
            end) ws)
  end.
End walk_ind.

Definition target (w : walk) : Z := match w with WRef i | WNode i _ => i end.

(** The nodes met for the first time, and the references to nodes met before. *)
Fixpoint firsts (w : walk) : list Z :=
  match w with
  | WRef _ => []
  | WNode i ws => i :: concat (map firsts ws)
  end.
Fixpoint repeats (w : walk) : list Z :=
  match w with
  | WRef i => [i]
  | WNode _ ws => concat (map repeats ws)
  end.

Definition all_firsts (ws : list walk) : list Z := concat (map firsts ws).
Definition all_repeats (ws : list walk) : list Z := concat (map repeats ws).

Fixpoint height (w : walk) : nat :=
  match w with
  | WRef _ => 1
  | WNode _ ws => S (max_list (map height ws))
  end.

(** The nodes that a node refers to. *)
Definition links (x : yaml_node_data) : list Z :=
  match x with
  | YAML_SEQUENCE_NODE s _ => rev s.(items)
  | YAML_MAPPING_NODE s _ => concat (map (fun p => [p.(pair_key); p.(pair_value)]) (rev s.(items)))
  | _ => []
  end.

Section spelling.
Variable d : yaml_document_t.

(** The walk [w] of [d], when the nodes [seen] have been met. *)
Section spells_list.
Variable spells : list Z -> walk -> Prop.

Definition spells_list : list Z -> list walk -> Prop :=
  fix go seen ws :=
    match ws with
    | [] => True
    | w :: r => spells seen w /\ go (seen ++ firsts w) r
    end.
End spells_list.

Fixpoint spells (seen : list Z) (w : walk) : Prop :=
  match w with
  | WRef i => i ∈ seen
  | WNode i ws =>
      (i ∉ seen)
      /\ (exists n, node_at i d = Some n /\ map target ws = links n.(node_data))
      /\ spells_list spells (seen ++ [i]) ws
  end.

(** The walk, computed. *)
Section unfold_list.
Variable unfold_walk : list Z -> Z -> option walk.

Definition unfold_list : list Z -> list Z -> option (list walk) :=
  fix go seen l :=
    match l with
    | [] => Some []
    | i :: r =>
        w ← unfold_walk seen i;
        ws ← go (seen ++ firsts w) r;
        Some (w :: ws)
    end.
End unfold_list.

Fixpoint unfold_walk (fuel : nat) (seen : list Z) (i : Z) : option walk :=
  match fuel with
  | O => None
  | S f =>
      if bool_decide (i ∈ seen) then Some (WRef i)
      else
        n ← node_at i d;
        ws ← unfold_list (unfold_walk f) (seen ++ [i]) (links n.(node_data));
        Some (WNode i ws)
  end.

(** ** Facts about walks *)

Lemma spells_list_app seen ws ws' :
  spells_list spells seen (ws ++ ws')
  <-> spells_list spells seen ws /\ spells_list spells (seen ++ all_firsts ws) ws'.
Proof.
  revert seen. induction ws as [|w ws IH]; intros seen; cbn; [rewrite app_nil_r; tauto|].
  rewrite IH. unfold all_firsts. cbn. rewrite app_assoc. tauto.
Qed.

(** The nodes met stay distinct. *)
Lemma spells_distinct w : forall seen, spells seen w -> NoDup seen -> NoDup (seen ++ firsts w).
Proof.
  induction w as [i|i ws IH] using walk_ind'; intros seen Hs Hn; cbn in Hs |- *; [by rewrite app_nil_r|].
  destruct Hs as (Hi & _ & Hs).
  assert (NoDup (seen ++ [i])) as Hn'.
  { apply NoDup_app. split_and!; [done| |apply NoDup_singleton]. intros x Hx ->%list_elem_of_singleton. done. }
  rewrite cons_middle, app_assoc. revert Hs Hn'. generalize (seen ++ [i]) as s. clear Hi Hn.
  induction IH as [|w ws Hw _ IH]; intros s Hs Hn; cbn in Hs |- *; [by rewrite app_nil_r|].
  destruct Hs as [Hs1 Hs2]. rewrite app_assoc. apply IH; [done|]. by apply Hw.
Qed.

Lemma spells_valid w : forall seen, spells seen w -> Forall (fun i => ref_ok (node_count d) i) (firsts w).
Proof.
  induction w as [i|i ws IH] using walk_ind'; intros seen Hs; cbn in Hs |- *; [constructor|].
  destruct Hs as (_ & (n & Hn & _) & Hs). apply Forall_cons. split; [by eapply node_at_ref|].
  revert Hs. generalize (seen ++ [i]) as s. induction IH as [|w ws Hw _ IH]; intros s Hs; [constructor|].
  cbn in Hs |- *. destruct Hs as [Hs1 Hs2]. apply Forall_app. split; [by eapply Hw|by eapply IH].
Qed.

(** What is repeated has been met. *)
Lemma repeats_met w : forall seen, spells seen w -> forall i, i ∈ repeats w -> i ∈ seen ++ firsts w.
Proof.
  induction w as [j|j ws IH] using walk_ind'; intros seen Hs i Hi; cbn in Hs, Hi |- *.
  { apply list_elem_of_singleton in Hi as ->. by rewrite app_nil_r. }
  destruct Hs as (_ & _ & Hs). rewrite cons_middle, app_assoc. revert Hs Hi. generalize (seen ++ [j]) as s.
  induction IH as [|w ws Hw _ IH]; intros s Hs Hi; cbn in Hs, Hi |- *; [by apply elem_of_nil in Hi|].
  destruct Hs as [Hs1 Hs2]. rewrite app_assoc. apply elem_of_app in Hi as [Hi|Hi]; [|by apply IH].
  apply elem_of_app. left. by apply Hw.
Qed.

Lemma height_firsts w : (height w <= S (length (firsts w)))%nat.
Proof.
  induction w as [i|i ws IH] using walk_ind'; cbn; [lia|]. apply le_n_S.
  induction IH as [|w ws Hw _ IH]; cbn; [lia|]. rewrite length_app. lia.
Qed.

(** Distinct indices of nodes are no more than there are nodes. *)
Lemma distinct_count l : NoDup l -> Forall (ref_ok (node_count d)) l -> Z.of_nat (length l) <= node_count d.
Proof.
  intros Hn Hv. assert (l ⊆+ seqZ 1 (node_count d)) as Hsub.
  { apply NoDup_submseteq; [done|]. intros i Hi. apply elem_of_seqZ.
    rewrite Forall_forall in Hv. specialize (Hv i Hi). unfold ref_ok in Hv. lia. }
  apply submseteq_length in Hsub. rewrite length_seqZ in Hsub.
  assert (0 <= node_count d) by (unfold node_count; lia). lia.
Qed.

(** The walk from a node is never higher than the number of nodes and one. *)
Lemma spells_height w :
  spells [] w -> (height w <= S (length (nodes d).(items)))%nat.
Proof.
  intros Hs. pose proof (height_firsts w). pose proof (spells_distinct w [] Hs (NoDup_nil_2)) as Hn.
  pose proof (distinct_count _ Hn (spells_valid _ _ Hs)) as Hl. unfold node_count in Hl. cbn [app] in Hl. lia.
Qed.

Lemma links_valid i n : document_ok d -> node_at i d = Some n -> Forall (ref_ok (node_count d)) (links n.(node_data)).
Proof.
  intros Hd Hn. pose proof (document_ok_at _ _ _ Hd Hn) as Ho. unfold node_ok in Ho.
  destruct (node_data n) as [|v l y|s y|s y]; cbn; try constructor.
  - by apply Forall_rev.
  - apply Forall_concat, Forall_map, Forall_rev. eapply Forall_impl; [exact Ho|]. intros p [H1 H2].
    apply Forall_cons. split; [done|by apply Forall_singleton].
Qed.
Lemma unfold_walk_spells : document_ok d -> forall fuel seen i,
  NoDup seen -> Forall (ref_ok (node_count d)) seen -> ref_ok (node_count d) i ->
  node_count d < Z.of_nat (fuel + length seen) ->
  exists w, unfold_walk fuel seen i = Some w /\ spells seen w /\ target w = i.
Proof.
  intros Hd. induction fuel as [|f IH]; intros seen i Hn Hv Hi Hf.
  { pose proof (distinct_count seen Hn Hv). lia. }
  cbn [unfold_walk]. case_bool_decide as Hin; [by exists (WRef i)|].
  destruct (node_at_valid i d Hi) as [n Hni]. rewrite Hni. cbn [mbind option_bind].
  assert (forall l s, NoDup s -> Forall (ref_ok (node_count d)) s -> Forall (ref_ok (node_count d)) l ->
    node_count d < Z.of_nat (f + length s) ->
    exists ws, unfold_list (unfold_walk f) s l = Some ws /\ spells_list spells s ws /\ map target ws = l) as Hl.
  { clear Hn Hv Hf Hin. induction l as [|j l IHl]; intros s Hn Hv Hl Hf; [by exists []|].
    apply Forall_cons in Hl as [Hj Hl]. cbn.
    destruct (IH s j Hn Hv Hj Hf) as (w & -> & Hw & <-). cbn [mbind option_bind].
    destruct (IHl (s ++ firsts w)) as (ws & -> & Hws & <-).
    - by apply spells_distinct.
    - apply Forall_app. split; [done|]. by eapply spells_valid.
    - done.
    - rewrite length_app. lia.
    - cbn. by exists (w :: ws). }
  destruct (Hl (links n.(node_data)) (seen ++ [i])) as (ws & -> & Hws & Ht).
  - apply NoDup_app. split_and!; [done| |apply NoDup_singleton]. by intros x Hx ->%list_elem_of_singleton.
  - apply Forall_app. split; [done|by apply Forall_singleton].
  - by eapply links_valid.
  - rewrite length_app. cbn. lia.
  - exists (WNode i ws). split; [done|]. split; [|done]. cbn. split; [done|]. split; [by exists n|done].
Qed.
End spelling.

(** ** Numbers of anchors *)

(** The distinct elements, in the order of their first occurrence. *)
Fixpoint first_seen (seen l : list Z) : list Z :=
  match l with
  | [] => []
  | i :: r => if bool_decide (i ∈ seen) then first_seen seen r else i :: first_seen (seen ++ [i]) r
  end.

(** The position of an element, from 1; 0 if it is not there. *)
Fixpoint place_in (l : list Z) (i : Z) : Z :=
  match l with
  | [] => 0
  | j :: r => if i =? j then 1 else if place_in r i =? 0 then 0 else 1 + place_in r i
  end.

(** The anchor of a node, when [l] are the references to nodes met before. *)
Definition number (l : list Z) (i : Z) : Z := place_in (first_seen [] l) i.

Lemma first_seen_snoc l x : forall seen,
  first_seen seen (l ++ [x])
  = first_seen seen l ++ (if bool_decide (x ∈ seen ++ l) then [] else [x]).
Proof.
  induction l as [|y l IH]; intros seen; cbn.
  { rewrite app_nil_r. by case_bool_decide. }
  case_bool_decide as Hy; rewrite IH.
  - f_equal. rewrite (bool_decide_ext _ (x ∈ seen ++ y :: l)); [done|]. set_solver.
  - cbn. f_equal. f_equal. rewrite (bool_decide_ext _ (x ∈ seen ++ y :: l)); [done|]. set_solver.
Qed.

Lemma first_seen_elem l i : forall seen, i ∈ first_seen seen l <-> i ∈ l /\ i ∉ seen.
Proof.
  induction l as [|y l IH]; intros seen; cbn; [set_solver|].
  case_bool_decide; rewrite ?elem_of_cons, IH; [set_solver|].
  destruct (decide (i = y)) as [->|]; set_solver.
Qed.

Lemma place_in_pos l i : 0 <= place_in l i.
Proof. induction l as [|j l IH]; cbn; [lia|]. destruct (i =? j), (place_in l i =? 0) eqn:?; lia. Qed.

Lemma place_in_zero l i : place_in l i = 0 <-> i ∉ l.
Proof.
  induction l as [|j l IH]; cbn; [split; [set_solver|done]|].
  pose proof (place_in_pos l i). rewrite not_elem_of_cons, <- IH.
  destruct (i =? j) eqn:E, (place_in l i =? 0) eqn:?; lia.
Qed.

Lemma place_in_app l r i :
  place_in (l ++ r) i
  = if bool_decide (i ∈ l) then place_in l i
    else if bool_decide (i ∈ r) then Z.of_nat (length l) + place_in r i else 0.
Proof.
  induction l as [|j l IH]; cbn [app place_in length].
  { case_bool_decide as H; [by apply elem_of_nil in H|]. case_bool_decide as Hr; [lia|]. by apply place_in_zero. }
  destruct (i =? j) eqn:E; [rewrite bool_decide_eq_true_2 by (assert (i = j) as -> by lia; by left); done|].
  assert (bool_decide (i ∈ j :: l) = bool_decide (i ∈ l)) as ->.
  { apply bool_decide_ext. rewrite elem_of_cons. split; [intros [|]; [lia|done]|auto]. }
  rewrite IH. case_bool_decide as Hl; [done|]. case_bool_decide as Hr; [|done].
  assert (place_in r i <> 0) by (by rewrite place_in_zero; intros ?).
  pose proof (place_in_pos r i). destruct (_ =? 0) eqn:?; lia.
Qed.

Lemma place_in_inj l i j : i ∈ l -> place_in l i = place_in l j -> i = j.
Proof.
  intros Hi. induction l as [|x l IH]; cbn; [by apply elem_of_nil in Hi|].
  pose proof (place_in_pos l i). pose proof (place_in_pos l j).
  apply elem_of_cons in Hi as [->|Hi].
  - rewrite Z.eqb_refl. destruct (j =? x) eqn:E; [lia|]. destruct (place_in l j =? 0) eqn:?; lia.
  - assert (place_in l i <> 0) by (by rewrite place_in_zero; intros ?).
    destruct (i =? x) eqn:E1, (j =? x) eqn:E2, (place_in l i =? 0) eqn:E3, (place_in l j =? 0) eqn:E4; try lia.
    intros Heq. apply IH; [done|lia].
Qed.

Lemma number_elem l i : number l i <> 0 <-> i ∈ l.
Proof.
  unfold number. rewrite place_in_zero. rewrite first_seen_elem.
  split; [|intros H1 H2; apply H2; by split; [|apply not_elem_of_nil]].
  intros H. destruct (decide (i ∈ l)); [done|]. exfalso. apply H. by intros [? _].
Qed.

Lemma anchor_number_inj l i j : i ∈ l -> number l i = number l j -> i = j.
Proof. intros Hi. apply place_in_inj. apply first_seen_elem. split; [done|apply not_elem_of_nil]. Qed.

(** One more reference: nothing changes, or its node gets the next number. *)
Lemma anchor_number_snoc l x i :
  number (l ++ [x]) i
  = if bool_decide (i = x) && negb (bool_decide (x ∈ l)) then Z.of_nat (length (first_seen [] (l ++ [x])))
    else number l i.
Proof.
  unfold number. rewrite !first_seen_snoc. cbn [app].
  destruct (bool_decide (x ∈ l)) eqn:Ex; cbn [negb andb].
  { by rewrite andb_false_r, !app_nil_r. }
  apply bool_decide_eq_false in Ex. rewrite place_in_app, andb_true_r, length_app.
  assert (x ∉ first_seen [] l) as Hx by (rewrite first_seen_elem; tauto).
  destruct (decide (i = x)) as [->|Hne].
  - rewrite bool_decide_eq_false_2, !bool_decide_eq_true_2 by set_solver. cbn. rewrite Z.eqb_refl. lia.
  - rewrite (bool_decide_eq_false_2 (i ∈ [x])), (bool_decide_eq_false_2 (i = x)) by set_solver.
    case_bool_decide as H1; [done|]. symmetry. by apply place_in_zero.
Qed.

(** ** The table of anchors *)

Definition times (l : list Z) (i : Z) : Z := Z.of_nat (length (filter (fun j => j = i) l)).

Lemma times_snoc l x i : times (l ++ [x]) i = times l i + if bool_decide (x = i) then 1 else 0.
Proof.
  unfold times. rewrite filter_app, length_app, filter_cons, filter_nil.
  case_decide; case_bool_decide; try done; cbn; lia.
Qed.

Lemma times_zero l i : times l i = 0 <-> i ∉ l.
Proof.
  induction l as [|j l IH]; [set_solver|]. unfold times in *. rewrite filter_cons, not_elem_of_cons, <- IH.
  case_decide; cbn; split; intros; split_and?; try lia; congruence.
Qed.

Lemma times_pos l i : 0 <= times l i.
Proof. unfold times. lia. Qed.

Section table.
Variable d : yaml_document_t.

(** What is known of a node when [S] have been met, with the repetitions [R],
    and the nodes [T] have been emitted. *)
Definition entry (S R T : list Z) (i : Z) : yaml_anchors_t :=
  mkAnchors ((if bool_decide (i ∈ S) then 1 else 0) + times R i) (number R i) (bool_decide (i ∈ T)).

Definition table (S R T : list Z) : list yaml_anchors_t := entry S R T <$> seqZ 1 (node_count d).

Lemma table_length S R T : Z.of_nat (length (table S R T)) = node_count d.
Proof. unfold table. rewrite length_fmap, length_seqZ. unfold node_count. lia. Qed.

Lemma table_at S R T i :
  ref_ok (node_count d) i -> table S R T !! Z.to_nat (i - 1) = Some (entry S R T i).
Proof.
  unfold ref_ok, table. intros Hi. rewrite list_lookup_fmap, lookup_seqZ_lt by lia. cbn.
  f_equal. f_equal. lia.
Qed.

Lemma table_set S R T S' R' T' i :
  ref_ok (node_count d) i -> (forall j, j <> i -> entry S R T j = entry S' R' T' j) ->
  <[Z.to_nat (i - 1) := entry S' R' T' i]> (table S R T) = table S' R' T'.
Proof.
  unfold ref_ok. intros Hi Hj. apply list_eq. intros n.
  destruct (decide (n = Z.to_nat (i - 1))) as [->|Hn].
  - rewrite list_lookup_insert_eq by (pose proof (table_length S R T); lia). by rewrite table_at.
  - rewrite list_lookup_insert_ne by done. unfold table. rewrite !list_lookup_fmap.
    destruct (seqZ 1 (node_count d) !! n) as [j|] eqn:E; [|done]. cbn. f_equal. apply Hj.
    apply lookup_seqZ in E as [-> E]. lia.
Qed.

Lemma table_start : replicate (length (nodes d).(items)) no_anchor = table [] [] [].
Proof.
  apply list_eq. intros n. unfold table. rewrite list_lookup_fmap. unfold node_count.
  destruct (decide (n < length (items (nodes d)))%nat) as [H|H].
  - rewrite lookup_replicate_2 by done. by rewrite lookup_seqZ_lt by lia.
  - assert (seqZ 1 (Z.of_nat (length (items (nodes d)))) !! n = None) as ->.
    { apply lookup_ge_None_2. rewrite length_seqZ. lia. }
    apply lookup_ge_None_2. rewrite length_replicate. lia.
Qed.
End table.

(** ** The first pass *)

Section passes.
Context {K : Type} `{sink : EventSink K} (d : yaml_document_t) (opened closed : bool).

Lemma each_app {A} (f : A -> dprog (K := K) unit) l l' s : each f (l ++ l') s = (each f l;; each f l') s.
Proof.
  revert s. induction l as [|x l IH]; intros s; [done|]. cbn. unfold mbind, prog_bind.
  destruct (f x s) as [a s1| | |]; [apply IH|done..].
Qed.

Lemma each_pairs {A} (f : Z -> dprog (K := K) unit) (k v : A -> Z) l s :
  each (fun p => f (k p);; f (v p)) l s = each f (concat (map (fun p => [k p; v p]) l)) s.
Proof.
  revert s. induction l as [|x l IH]; intros s; [done|]. cbn. unfold mbind, prog_bind.
  destruct (f (k x) s) as [a s1| | |]; [|done..]. destruct (f (v x) s1) as [a' s2| | |]; [apply IH|done..].
Qed.

Definition counting (k : K) (S R : list Z) : dumper K :=
  mkDumper k opened closed (Some (table d S R [])) (Z.of_nat (length (first_seen [] R))) (Some d).

Lemma anchors_at_counting k S R i :
  ref_ok (node_count d) i -> anchors_at i (counting k S R) = Ret (entry S R [] i) (counting k S R).
Proof.
  intros Hi. unfold anchors_at, counting, mbind, prog_bind, gets. cbn [dm_anchors deref].
  unfold mret, prog_ret. assert ((0 <? i) = true) as -> by (unfold ref_ok in Hi; lia).
  by rewrite table_at.
Qed.

Lemma dumped_node_counting k S R i n :
  node_at i d = Some n -> dumped_node i (counting k S R) = Ret n (counting k S R).
Proof. intros Hn. unfold dumped_node, counting, mbind, prog_bind, gets. cbn. by rewrite Hn. Qed.

(** A node is met for the first time, or again. *)
Lemma count_first k S R i :
  ref_ok (node_count d) i -> i ∉ S -> i ∉ R ->
  set_anchors_at i (mkAnchors (an_references (entry S R [] i) + 1) (an_anchor (entry S R [] i))
    (an_serialized (entry S R [] i))) (counting k S R) = Ret tt (counting k (S ++ [i]) R)
  /\ an_references (entry S R [] i) = 0.
Proof.
  intros Hi Hs Hr. pose proof (proj2 (times_zero R i) Hr) as Ht.
  assert (an_references (entry S R [] i) = 0) as E.
  { cbn. rewrite bool_decide_eq_false_2 by done. lia. }
  split; [|done]. unfold set_anchors_at, modify, counting. cbn [dm_anchors fmap option_fmap option_map]. rewrite E.
  unfold set_anchors. cbn. do 3 f_equal. rewrite <- (table_set d S R [] (S ++ [i]) R [] i Hi).
  - f_equal. unfold entry. rewrite (bool_decide_eq_true_2 (i ∈ S ++ [i])) by set_solver. by rewrite Ht.
  - intros j Hj. unfold entry. do 2 f_equal. rewrite (bool_decide_ext (j ∈ S) (j ∈ S ++ [i])); [done|set_solver].
Qed.

Lemma count_again k S R i n :
  ref_ok (node_count d) i -> i ∈ S -> yaml_emitter_anchor_node (Datatypes.S n) i (counting k S R) = Ret tt (counting k S (R ++ [i])).
Proof.
  intros Hi Hs. cbn [yaml_emitter_anchor_node]. unfold mbind at 1, prog_bind at 1. rewrite anchors_at_counting by done.
  cbv beta zeta. set (r := an_references (entry S R [] i) + 1).
  pose proof (times_pos R i) as Hpos.
  assert (r = 2 + times R i) as Er by (unfold r; cbn; rewrite bool_decide_eq_true_2 by done; lia).
  assert ((r =? 1) = false) as -> by lia.
  assert (forall j, j <> i -> entry S (R ++ [i]) [] j = entry S R [] j) as Hother.
  { intros j Hj. unfold entry. rewrite times_snoc, anchor_number_snoc.
    rewrite (bool_decide_eq_false_2 (i = j)), (bool_decide_eq_false_2 (j = i)) by done. cbn. by rewrite Z.add_0_r. }
  assert (entry S (R ++ [i]) [] i = mkAnchors r (number (R ++ [i]) i) false) as Hnew.
  { unfold entry. rewrite times_snoc, !bool_decide_eq_true_2 by done. f_equal. lia. }
  destruct (decide (i ∈ R)) as [Hin|Hin].
  - assert (times R i <> 0) by (by rewrite times_zero; intros ?). assert ((r =? 2) = false) as -> by lia.
    unfold mbind, prog_bind, set_anchors_at, modify, counting, set_anchors. cbn [dm_anchors fmap option_fmap option_map].
    unfold mret, prog_ret. cbn [dm_sink dm_opened dm_closed dm_last_id dm_document]. f_equal. f_equal.
    + f_equal. rewrite <- (table_set d S R [] S (R ++ [i]) [] i Hi) by (intros; symmetry; by apply Hother).
      f_equal. rewrite Hnew, anchor_number_snoc, (bool_decide_eq_true_2 (i ∈ R)) by done. by rewrite andb_false_r.
    + rewrite first_seen_snoc. cbn [app]. rewrite bool_decide_eq_true_2 by done. by rewrite app_nil_r.
  - assert (times R i = 0) as Ht by (by apply times_zero). assert ((r =? 2) = true) as -> by lia.
    assert (number (R ++ [i]) i = Z.of_nat (length (first_seen [] R)) + 1) as Hnum.
    { rewrite anchor_number_snoc, bool_decide_eq_true_2, bool_decide_eq_false_2 by done. cbn.
      rewrite first_seen_snoc, length_app. cbn [app]. rewrite bool_decide_eq_false_2 by done. cbn. lia. }
    unfold mbind, prog_bind, set_anchors_at, modify, anchors_at, gets, counting, set_anchors, set_last_id.
    cbn [dm_anchors fmap option_fmap option_map]. unfold mbind, prog_bind. cbn [dm_anchors deref].
    unfold mret, prog_ret. assert ((0 <? i) = true) as -> by (unfold ref_ok in Hi; lia).
    rewrite list_lookup_insert_eq by (pose proof (table_length d S R []); unfold ref_ok in Hi; lia).
    cbn [deref]. unfold mret, prog_ret. cbn. f_equal. f_equal.
    + f_equal. rewrite list_insert_insert_eq.
      rewrite <- (table_set d S R [] S (R ++ [i]) [] i Hi) by (intros; symmetry; by apply Hother).
      f_equal. rewrite Hnew. f_equal. lia.
    + rewrite first_seen_snoc, length_app. cbn [app]. rewrite bool_decide_eq_false_2 by done. cbn. lia.
Qed.
(** The first pass over a walk, and over a list of walks. *)
Definition counts (n : nat) (w : walk) : Prop := forall k S R,
  spells d S w -> Forall (fun i => ref_ok (node_count d) i) S -> (forall i, i ∈ R -> i ∈ S) ->
  yaml_emitter_anchor_node n (target w) (counting k S R) = Ret tt (counting k (S ++ firsts w) (R ++ repeats w)).

Lemma counts_list n ws : Forall (counts n) ws -> forall k S R,
  spells_list (spells d) S ws -> Forall (fun i => ref_ok (node_count d) i) S -> (forall i, i ∈ R -> i ∈ S) ->
  each (yaml_emitter_anchor_node n) (map target ws) (counting k S R)
  = Ret tt (counting k (S ++ all_firsts ws) (R ++ all_repeats ws)).
Proof.
  unfold all_firsts, all_repeats.
  induction 1 as [|w ws Hw Hws IH]; intros k S R Hs Hv Hr; cbn; [by rewrite !app_nil_r|].
  cbn in Hs. destruct Hs as [Hs1 Hs2].
  unfold mbind, prog_bind. rewrite Hw by done. rewrite !app_assoc. apply IH; [done| |].
  - apply Forall_app. split; [done|]. by eapply spells_valid.
  - pose proof (repeats_met d w S Hs1) as Hm. intros i [Hi|Hi]%elem_of_app; [apply elem_of_app; left; auto|].
    by apply Hm.
Qed.

Lemma anchor_walk w : forall n, (height w <= n)%nat -> counts n w.
Proof.
  induction w as [i|i ws IH] using walk_ind'; intros [|n] Hn k S R Hs Hv Hr; cbn in Hn; try lia.
  { cbn in Hs. cbn [target firsts repeats]. rewrite app_nil_r. apply count_again; [|done].
    rewrite Forall_forall in Hv. by apply Hv. }
  cbn in Hs. destruct Hs as (Hi & (x & Hx & Hl) & Hs). pose proof (node_at_ref _ _ _ Hx) as Hri.
  assert (i ∉ R) as Hir by auto. destruct (count_first k S R i Hri Hi Hir) as [Hc E].
  cbn [target yaml_emitter_anchor_node firsts repeats]. unfold mbind at 1, prog_bind at 1.
  rewrite anchors_at_counting by done. cbv beta zeta. unfold mbind at 1, prog_bind at 1. rewrite Hc, E.
  change (0 + 1 =? 1) with true. cbv iota. unfold mbind at 1, prog_bind at 1. rewrite (dumped_node_counting _ _ _ _ x Hx).
  assert (each (yaml_emitter_anchor_node n) (links (node_data x)) (counting k (S ++ [i]) R)
    = Ret tt (counting k (S ++ i :: all_firsts ws) (R ++ all_repeats ws))) as Hall.
  { rewrite <- Hl, (cons_middle i S (all_firsts ws)), app_assoc. apply counts_list; [|done| |].
    - clear -IH Hn. induction IH as [|w ws Hw _ IH]; [constructor|]. cbn in Hn.
      apply Forall_cons. split; [apply Hw; lia|apply IH; lia].
    - apply Forall_app. split; [done|]. by apply Forall_singleton.
    - intros j Hj. apply elem_of_app. left. auto. }
  destruct (node_data x) as [|v l y|s y|s y]; cbn [links] in Hall; try exact Hall.
  rewrite each_pairs. exact Hall.
Qed.
End passes.
