(* ===== verification/YamlDumpEvents.v ===== *)
(** * libyaml: the events of a document

    The second pass of the dumper, and the theorem on [yaml_emitter_dump]: on
    any sink it does what emitting the events of the walk does, with the same
    outcome, and leaves the dumper ready for the next document. *)

From Stdlib Require Import ZArith Lia Ascii String.
From stdpp Require Import base list option strings list_numbers sets.
From S2P Require Import Prelude YamlData YamlDocument YamlLoader YamlCompose YamlWriter YamlEmitter YamlDumper YamlDumpSpec.

#[local] Open Scope Z_scope.
#[local] Set Warnings "-clear-no-such-hyp".

(** ** The tree of events of a walk *)

(** The anchor of a node, with the references [R]. *)
Definition anchor_name (R : list Z) (i : Z) : option (list Z) :=
  if number R i =? 0 then None else Some (yaml_emitter_generate_anchor (number R i)).

Fixpoint pair_up {X} (l : list X) : list (X * X) :=
  match l with
  | x :: y :: r => (x, y) :: pair_up r
  | _ => []
  end.

Definition no_tree : event_tree := TAlias [] mark0 mark0.

(** The tree of a node from the trees of those it refers to. *)
Definition node_tree (anchor : option (list Z)) (n : yaml_node_t) (ts : list event_tree) : event_tree :=
  let tag := n.(node_tag) in
  match n.(node_data) with
  | YAML_NO_NODE => no_tree
  | YAML_SCALAR_NODE v len y =>
      let implicit := strcmp_eq tag YAML_DEFAULT_SCALAR_TAG in
      TScalar anchor (Some tag) v len implicit implicit y mark0 mark0
  | YAML_SEQUENCE_NODE _ y =>
      TSequence anchor (Some tag) (strcmp_eq tag YAML_DEFAULT_SEQUENCE_TAG) y mark0 mark0 ts mark0 mark0
  | YAML_MAPPING_NODE _ y =>
      TMapping anchor (Some tag) (strcmp_eq tag YAML_DEFAULT_MAPPING_TAG) y mark0 mark0 (pair_up ts) mark0 mark0
  end.

Fixpoint walk_tree (d : yaml_document_t) (R : list Z) (w : walk) : event_tree :=
  match w with
  | WRef i => TAlias (default [] (anchor_name R i)) mark0 mark0
  | WNode i ws =>
      match node_at i d with
      | Some n => node_tree (anchor_name R i) n (map (walk_tree d R) ws)
      | None => no_tree
      end
  end.

(** The events of a document. *)
Definition document_events (d : yaml_document_t) (w : walk) : list yaml_event_t :=
  EVENT_INIT (YAML_DOCUMENT_START_EVENT d.(version_directive) d.(document_tag_directives) d.(start_implicit)) mark0 mark0
  :: events (walk_tree d (repeats w) w) ++ [EVENT_INIT (YAML_DOCUMENT_END_EVENT d.(end_implicit)) mark0 mark0].

Definition stream_start : yaml_event_t := EVENT_INIT (YAML_STREAM_START_EVENT YAML_ANY_ENCODING) mark0 mark0.
Definition stream_end : yaml_event_t := EVENT_INIT YAML_STREAM_END_EVENT mark0 mark0.

(** ** Emitting a list of events *)

Section second_pass.
Context {K : Type} `{sink : EventSink K}.

Fixpoint emit_each (evs : list yaml_event_t) : prog K unit :=
  match evs with
  | [] => mret tt
  | ev :: r => emit ev;; emit_each r
  end.

Lemma emit_each_app a b k : emit_each (a ++ b) k = (emit_each a;; emit_each b) k.
Proof.
  revert k. induction a as [|ev a IH]; intros k; [done|]. cbn. unfold mbind, prog_bind.
  destruct (emit ev k) as [x k1| | |]; [apply IH|done..].
Qed.

(** The dumper does what the sink does. *)
Definition follows (good : K -> dumper K) (bad : K -> dumper K -> Prop)
    (r : outcome K unit) (r' : outcome (dumper K) unit) : Prop :=
  match r, r' with
  | Ret _ k, Ret _ s => s = good k
  | Err k, Err s => bad k s
  | Crash, Crash | Timeout, Timeout => True
  | _, _ => False
  end.

Lemma follows_bind good1 good2 bad (m1 m2 : prog K unit) (p1 p2 : dprog (K := K) unit) k s :
  follows good1 bad (m1 k) (p1 s) -> (forall k', follows good2 bad (m2 k') (p2 (good1 k'))) ->
  follows good2 bad ((m1;; m2) k) ((p1;; p2) s).
Proof.
  intros H1 H2. unfold mbind, prog_bind. unfold follows in H1 at 1.
  destruct (m1 k) as [[] k'|k'| |], (p1 s) as [[] s'|s'| |]; try done. rewrite H1. apply H2.
Qed.

Lemma follows_weaken good (bad bad' : K -> dumper K -> Prop) r r' :
  (forall k s, bad k s -> bad' k s) -> follows good bad r r' -> follows good bad' r r'.
Proof. intros H. unfold follows. destruct r as [[] ?|?| |], r' as [[] ?|?| |]; auto. Qed.

Section document.
Context (d : yaml_document_t) (opened closed : bool) (S R : list Z) (last : Z).

(** The object when the nodes [T] have been emitted. *)
Definition dumping (T : list Z) (k : K) : dumper K :=
  mkDumper k opened closed (Some (table d S R T)) last (Some d).

Definition interrupted (k : K) (s : dumper K) : Prop := exists T, s = dumping T k.

Definition emits (n : nat) (w : walk) : Prop := forall T k,
  spells d T w -> Forall (fun i => ref_ok (node_count d) i) T -> (forall i, i ∈ repeats w -> i ∈ R) ->
  follows (dumping (T ++ firsts w)) interrupted
    (emit_each (events (walk_tree d R w)) k) (yaml_emitter_dump_node n (target w) (dumping T k)).

Lemma follows_event x T k :
  follows (dumping T) interrupted (emit_each [EVENT_INIT x mark0 mark0] k) (emit_event x (dumping T k)).
Proof.
  cbn. unfold mbind, prog_bind, emit_event. change (dm_sink (dumping T k)) with k.
  destruct (emit _ k) as [[] k'|k'| |]; cbn; try done. by exists T.
Qed.

Lemma dumped_node_dumping i n T k : node_at i d = Some n -> dumped_node i (dumping T k) = Ret n (dumping T k).
Proof. intros Hn. unfold dumped_node, dumping, mbind, prog_bind, gets. cbn. by rewrite Hn. Qed.

Lemma anchors_at_dumping i T k :
  ref_ok (node_count d) i -> anchors_at i (dumping T k) = Ret (entry S R T i) (dumping T k).
Proof.
  intros Hi. unfold anchors_at, dumping, mbind, prog_bind, gets. cbn [dm_anchors deref].
  unfold mret, prog_ret. assert ((0 <? i) = true) as -> by (unfold ref_ok in Hi; lia). by rewrite table_at.
Qed.

(** A node is marked as emitted. *)
Lemma mark_emitted i T k :
  ref_ok (node_count d) i ->
  set_anchors_at i (mkAnchors (an_references (entry S R T i)) (an_anchor (entry S R T i)) true) (dumping T k)
  = Ret tt (dumping (T ++ [i]) k).
Proof.
  intros Hi. unfold set_anchors_at, modify, dumping, set_anchors. cbn. do 3 f_equal.
  rewrite <- (table_set d S R T S R (T ++ [i]) i Hi).
  - f_equal. unfold entry. f_equal. symmetry. apply bool_decide_eq_true_2. set_solver.
  - intros j Hj. unfold entry. f_equal. apply bool_decide_ext. set_solver.
Qed.

Lemma emits_list n ws : Forall (emits n) ws -> forall T k,
  spells_list (spells d) T ws -> Forall (fun i => ref_ok (node_count d) i) T ->
  (forall i, i ∈ all_repeats ws -> i ∈ R) ->
  follows (dumping (T ++ all_firsts ws)) interrupted
    (emit_each (concat (map events (map (walk_tree d R) ws))) k)
    (each (yaml_emitter_dump_node n) (map target ws) (dumping T k)).
Proof.
  unfold all_firsts, all_repeats.
  induction 1 as [|w ws Hw Hws IH]; intros T k Hs Hv Hr; cbn; [by rewrite app_nil_r|].
  cbn in Hs, Hr. destruct Hs as [Hs1 Hs2]. rewrite emit_each_app.
  eapply follows_bind; [apply Hw; [done|done|set_solver]|]. intros k'. rewrite app_assoc. apply IH; [done| |set_solver].
  apply Forall_app. split; [done|]. by eapply spells_valid.
Qed.

(** The trees of the keys and values of a mapping, in pairs. *)
Lemma pair_up_events (l : list yaml_node_pair_t) (ws : list walk) :
  map target ws = concat (map (fun p => [p.(pair_key); p.(pair_value)]) l) ->
  concat (map (fun kv => events kv.1 ++ events kv.2) (pair_up (map (walk_tree d R) ws)))
  = concat (map events (map (walk_tree d R) ws)).
Proof.
  revert ws. induction l as [|p l IH]; intros ws H; [by destruct ws|].
  destruct ws as [|w1 [|w2 ws]]; try discriminate H. cbn in H. injection H as _ _ H. cbn.
  by rewrite (IH ws H), app_assoc.
Qed.

(** A collection: its start, what is inside, its end. *)
Lemma follows_wrapped x y T T' evs body k :
  (forall k, follows (dumping T') interrupted (emit_each evs k) (body (dumping T k))) ->
  follows (dumping T') interrupted (emit_each (EVENT_INIT x mark0 mark0 :: evs ++ [EVENT_INIT y mark0 mark0]) k)
    ((emit_event x;; body;; emit_event y) (dumping T k)).
Proof.
  intros Hb. change (?e :: ?l) with ([e] ++ l) at 1. rewrite emit_each_app.
  eapply follows_bind; [apply follows_event|]. intros k1. rewrite emit_each_app.
  eapply follows_bind; [apply Hb|]. intros k2. apply follows_event.
Qed.

Lemma dump_walk w : document_ok d -> forall n, (height w <= n)%nat -> emits n w.
Proof.
  intros Hd. induction w as [i|i ws IH] using walk_ind'; intros [|n] Hn T k Hs Hv Hr; cbn in Hn; try lia.
  - cbn in Hs. cbn [target yaml_emitter_dump_node firsts walk_tree events]. rewrite app_nil_r.
    assert (ref_ok (node_count d) i) as Hi by (rewrite Forall_forall in Hv; by apply Hv).
    destruct (node_at_valid i d Hi) as [x Hx].
    assert (number R i <> 0) as Hnum by (apply number_elem; apply Hr; cbn; set_solver).
    unfold mbind at 1, prog_bind at 1. rewrite (dumped_node_dumping i x T k Hx).
    unfold mbind at 1, prog_bind at 1. rewrite anchors_at_dumping by done. cbv zeta.
    cbn [entry an_anchor an_serialized]. unfold anchor_name. rewrite bool_decide_eq_true_2 by done.
    assert ((number R i =? 0) = false) as -> by lia. apply follows_event.
  - cbn in Hs. destruct Hs as (Hi & (x & Hx & Hl) & Hs). pose proof (node_at_ref _ _ _ Hx) as Hri.
    cbn [target yaml_emitter_dump_node walk_tree]. rewrite Hx.
    unfold mbind at 1, prog_bind at 1. rewrite (dumped_node_dumping i x T k Hx).
    unfold mbind at 1, prog_bind at 1. rewrite anchors_at_dumping by done. cbv zeta.
    change (an_serialized (entry S R T i)) with (bool_decide (i ∈ T)). rewrite bool_decide_eq_false_2 by done.
    unfold mbind at 1, prog_bind at 1. rewrite mark_emitted by done.
    change (an_anchor (entry S R T i)) with (number R i).
    change (if number R i =? 0 then None else Some (yaml_emitter_generate_anchor (number R i))) with (anchor_name R i).
    assert (forall k, follows (dumping ((T ++ [i]) ++ all_firsts ws)) interrupted
      (emit_each (concat (map events (map (walk_tree d R) ws))) k)
      (each (yaml_emitter_dump_node n) (map target ws) (dumping (T ++ [i]) k))) as Hall.
    { intros k'. apply emits_list; [|done| |done].
      - clear -IH Hn. induction IH as [|w ws Hw _ IH]; [constructor|]. cbn in Hn.
        apply Forall_cons. split; [apply Hw; lia|apply IH; lia].
      - apply Forall_app. split; [done|]. by apply Forall_singleton. }
    cbn [firsts]. rewrite (cons_middle i T (concat (map firsts ws))), app_assoc.
    pose proof (document_ok_at _ _ _ Hd Hx) as Hok. unfold node_ok in Hok. unfold node_tree.
    destruct (node_data x) as [|v l y|st y|st y]; cbn [links] in Hl; [done|..].
    + destruct ws; [|done]. cbn. rewrite app_nil_r. apply follows_event.
    + rewrite Hl in Hall. by apply follows_wrapped.
    + rewrite Hl in Hall. cbn [events]. apply follows_wrapped. intros k'. rewrite each_pairs, (pair_up_events _ _ Hl). apply Hall.
Qed.
End document.

(** ** Documents *)

(** The object when a dump has been interrupted somewhere. *)
Definition stopped (d : yaml_document_t) (closed : bool) (k : K) (s : dumper K) : Prop :=
  exists S R last T, s = dumping d true closed S R last T k.

(** The clean-up. *)
Lemma delete_dumping d opened closed S R last T k :
  yaml_emitter_delete_document_and_anchors (dumping d opened closed S R last T k)
  = Ret tt (mkDumper k opened closed None 0 None).
Proof.
  unfold yaml_emitter_delete_document_and_anchors, dumping, mbind, prog_bind, gets. cbn [dm_anchors dm_document deref].
  unfold mret, prog_ret. assert ((Z.of_nat (length (table d S R T)) <? node_count d) = false) as ->.
  { rewrite table_length. lia. }
  done.
Qed.

(** A document with nodes, when the stream is open. *)
Lemma dump_document_nodes d w closed k :
  document_ok d -> spells d [] w -> target w = 1 -> d.(nodes).(items) <> [] ->
  let last := Z.of_nat (length (first_seen [] (repeats w))) in
  follows (dumping d true closed (firsts w) (repeats w) last (firsts w)) (stopped d closed)
    (emit_each (document_events d w) k) (dump_document d (mkDumper k true closed None 0 (Some d))).
Proof.
  intros Hd Hw Ht Hn last. set (n := S (length (nodes d).(items))).
  pose proof (spells_height d w Hw) as Hh. fold n in Hh.
  unfold dump_document, gets. rewrite bool_decide_eq_false_2 by done.
  unfold mbind at 1, prog_bind at 1. cbn [dm_opened negb]. cbv zeta. fold n.
  unfold mbind at 1, prog_bind at 1, modify. rewrite table_start. unfold document_events.
  change (?e :: ?l) with ([e] ++ l) at 1. rewrite emit_each_app.
  eapply (follows_bind (dumping d true closed [] [] 0 [])).
  { eapply follows_weaken; [|apply (follows_event d true closed [] [] 0)]. intros k' s [T ->]. by eexists _, _, _, _. }
  intros k1. unfold mbind at 1, prog_bind at 1. rewrite <- Ht.
  change (dumping d true closed [] [] 0 [] k1) with (counting d true closed k1 [] []).
  rewrite (anchor_walk d true closed w n Hh k1 [] [] Hw (Forall_nil_2 _)) by (intros i Hi; by apply elem_of_nil in Hi).
  change (counting d true closed k1 ([] ++ firsts w) ([] ++ repeats w))
    with (dumping d true closed (firsts w) (repeats w) last [] k1).
  rewrite emit_each_app. eapply follows_bind.
  - eapply follows_weaken; [|apply (dump_walk d true closed (firsts w) (repeats w) last w Hd n Hh [] k1 Hw (Forall_nil_2 _) (fun i Hi => Hi))].
    intros k' s [T ->]. by eexists _, _, _, _.
  - intros k2. eapply follows_weaken; [|apply follows_event]. intros k' s [T ->]. by eexists _, _, _, _.
Qed.

(** What [yaml_emitter_dump] emits for a document, when the stream has been
    opened, or closed, or not. *)
Definition document_walk (d : yaml_document_t) : walk :=
  default (WRef 1) (unfold_walk d (S (length d.(nodes).(items))) [] 1).

Definition dump_events (opened closed : bool) (d : yaml_document_t) : list yaml_event_t :=
  (if opened then [] else [stream_start])
  ++ (if bool_decide (d.(nodes).(items) = []) then if closed then [] else [stream_end]
      else document_events d (document_walk d)).

Lemma document_walk_spells d :
  document_ok d -> d.(nodes).(items) <> [] -> spells d [] (document_walk d) /\ target (document_walk d) = 1.
Proof.
  intros Hd Hn. destruct (unfold_walk_spells d Hd (S (length d.(nodes).(items))) [] 1) as (w & Hw & H1 & H2).
  - apply NoDup_nil_2.
  - apply Forall_nil_2.
  - unfold ref_ok, node_count. destruct (items (nodes d)); [done|]. cbn. lia.
  - unfold node_count. lia.
  - unfold document_walk. by rewrite Hw.
Qed.

(** The clean-up leaves the dumper idle. *)
Definition idle (k : K) (opened closed : bool) : dumper K := mkDumper k opened closed None 0 None.

Definition cleans (opened closed : bool) (k : K) (s : dumper K) : Prop :=
  yaml_emitter_delete_document_and_anchors s = Ret tt (idle k opened closed).

Lemma stopped_cleans d closed k s : stopped d closed k s -> cleans true closed k s.
Proof. intros (S & R & last & T & ->). apply delete_dumping. Qed.

(** As [follows], with a condition on what is left. *)
Definition ends (good bad : K -> dumper K -> Prop) (r : outcome K unit) (r' : outcome (dumper K) unit) : Prop :=
  match r, r' with
  | Ret _ k, Ret _ s => good k s
  | Err k, Err s => bad k s
  | Crash, Crash | Timeout, Timeout => True
  | _, _ => False
  end.

Lemma follows_ends good (bad G B : K -> dumper K -> Prop) r r' :
  follows good bad r r' -> (forall k, G k (good k)) -> (forall k s, bad k s -> B k s) -> ends G B r r'.
Proof.
  unfold follows, ends. intros H HG HB. destruct r as [[] ?|?| |], r' as [[] ?|?| |]; auto. rewrite H. apply HG.
Qed.

Lemma ends_bind good1 (bad1 G B : K -> dumper K -> Prop) (m1 m2 : prog K unit) (p1 p2 : dprog (K := K) unit) k s :
  follows good1 bad1 (m1 k) (p1 s) -> (forall k s, bad1 k s -> B k s) ->
  (forall k', ends G B (m2 k') (p2 (good1 k'))) -> ends G B ((m1;; m2) k) ((p1;; p2) s).
Proof.
  intros H1 HB H2. unfold mbind, prog_bind. unfold follows in H1.
  destruct (m1 k) as [[] k'|k'| |], (p1 s) as [[] s'|s'| |]; try done; [rewrite H1; apply H2|by apply HB].
Qed.

(** One event of the stream, and the flag that is set behind it. *)
Lemma follows_flag x (f : dumper K -> dumper K) k s :
  s.(dm_sink) = k ->
  follows (fun k' => f (set_sink k' s)) (fun k' s' => s' = set_sink k' s)
    (emit_each [EVENT_INIT x mark0 mark0] k) ((emit_event x;; modify f) s).
Proof.
  intros <-. cbn. unfold mbind, prog_bind, emit_event. by destruct (emit _ _) as [[] k'|k'| |].
Qed.

Lemma dump_document_ends d closed k :
  document_ok d ->
  ends (cleans true (closed || bool_decide (d.(nodes).(items) = []))) (cleans true closed)
    (emit_each (if bool_decide (d.(nodes).(items) = []) then if closed then [] else [stream_end]
                else document_events d (document_walk d)) k)
    (dump_document d (mkDumper k true closed None 0 (Some d))).
Proof.
  intros Hd. case_bool_decide as Hn.
  - unfold dump_document. rewrite bool_decide_eq_true_2 by done. rewrite orb_true_r.
    unfold yaml_emitter_close, gets. unfold mbind at 1, prog_bind at 1. cbn [dm_opened negb].
    unfold mbind at 1, prog_bind at 1. cbn [dm_closed]. destruct closed; [done|].
    eapply follows_ends; [by apply follows_flag|done|]. by intros k' s ->.
  - rewrite orb_false_r. destruct (document_walk_spells d Hd Hn) as [Hs Ht].
    eapply follows_ends; [by apply dump_document_nodes|..].
    + intros k'. apply delete_dumping.
    + intros k' s. apply stopped_cleans.
Qed.

Lemma dump_ends d opened closed k :
  document_ok d ->
  ends (fun k' s => s = idle k' true (closed || bool_decide (d.(nodes).(items) = [])))
    (fun k' s => s = idle k' opened closed \/ s = idle k' true closed)
    (emit_each (dump_events opened closed d) k) (yaml_emitter_dump d (idle k opened closed)).
Proof.
  intros Hd.
  assert (ends (cleans true (closed || bool_decide (d.(nodes).(items) = [])))
    (fun k' s => cleans opened closed k' s \/ cleans true closed k' s)
    (emit_each (dump_events opened closed d) k) (dump_body d (mkDumper k opened closed None 0 (Some d)))) as H.
  { pose proof (fun k => dump_document_ends d closed k Hd) as Hdoc. unfold dump_body, dump_events, gets.
    unfold mbind at 1, prog_bind at 1. cbn [dm_opened]. destruct opened.
    - cbn [app]. unfold mbind at 1, prog_bind at 1, mret at 1, prog_ret at 1.
      specialize (Hdoc k). unfold ends in *. destruct (emit_each _ k) as [[] ?|?| |], (dump_document _ _) as [[] ?|?| |]; auto.
    - rewrite emit_each_app. eapply ends_bind.
      + unfold yaml_emitter_open, gets. unfold mbind at 1, prog_bind at 1. cbn [dm_opened]. by apply follows_flag.
      + intros k' s ->. by left.
      + intros k'. specialize (Hdoc k'). unfold ends in *.
        change (set_opened true _) with (mkDumper k' true closed None 0 (Some d)).
        destruct (emit_each _ k') as [[] ?|?| |], (dump_document _ _) as [[] ?|?| |]; auto. }
  unfold yaml_emitter_dump, idle, modify, set_dumped. unfold mbind at 1, prog_bind at 1.
  cbn [dm_sink dm_opened dm_closed dm_anchors dm_last_id]. unfold mbind at 1, prog_bind at 1, attempt. unfold ends, cleans in H |- *.
  destruct (emit_each _ k) as [[] k'|k'| |], (dump_body _ _) as [[] s|s| |]; try done; unfold mbind, prog_bind.
  - by rewrite H.
  - destruct H as [-> | ->]; [by left|by right].
Qed.
End second_pass.

(** C8: on any sink, [yaml_emitter_dump] of a well-formed document does what
    emitting the events of its walk does, one by one and with the same outcome:
    the stream is opened first unless it is open, a document without nodes
    closes it.  The walk is the reference: nodes where they are met first,
    aliases where they are met again, anchors numbered in the order of the first
    alias.  Success or failure, no anchors and no document are left behind; the
    recursion ends, and no alias is emitted without an anchor. *)
Theorem dump_emits_walk {K : Type} {sink : EventSink K} (d : yaml_document_t) (opened closed : bool) (k : K) :
  document_ok d ->
  (d.(nodes).(items) <> [] -> spells d [] (document_walk d) /\ target (document_walk d) = 1)
  /\ match emit_each (dump_events opened closed d) k with
     | Ret _ k' => yaml_emitter_dump d (idle k opened closed)
                   = Ret tt (idle k' true (closed || bool_decide (d.(nodes).(items) = [])))
     | Err k' => yaml_emitter_dump d (idle k opened closed) = Err (idle k' opened closed)
                 \/ yaml_emitter_dump d (idle k opened closed) = Err (idle k' true closed)
     | Crash => yaml_emitter_dump d (idle k opened closed) = Crash
     | Timeout => yaml_emitter_dump d (idle k opened closed) = Timeout
     end.
Proof.
  intros Hd. split; [by apply document_walk_spells|]. pose proof (dump_ends d opened closed k Hd) as H. unfold ends in H.
  destruct (emit_each _ k) as [[] k'|k'| |], (yaml_emitter_dump _ _) as [[] s|s| |]; try done; [by rewrite H|].
  destruct H as [-> | ->]; auto.
Qed.

(** ** A graph with a shared node and a cycle *)

(** A sink that keeps the events it is given. *)
#[export] Instance log_sink : EventSink (list yaml_event_data) | 50 := fun ev => modify (fun l => l ++ [ev.(event_data)]).

Definition sample_graph : yaml_document_t :=
  set_nodes (mkStack
    [NODE_INIT (YAML_SCALAR_NODE (bytes_of "unreachable") 11 YAML_PLAIN_SCALAR_STYLE) YAML_DEFAULT_SCALAR_TAG mark0 mark0;
     NODE_INIT (YAML_SCALAR_NODE (bytes_of "a") 1 YAML_PLAIN_SCALAR_STYLE) YAML_DEFAULT_SCALAR_TAG mark0 mark0;
     NODE_INIT (YAML_MAPPING_NODE (mkStack [mkPair 3 1] 16) YAML_FLOW_MAPPING_STYLE) YAML_DEFAULT_MAPPING_TAG mark0 mark0;
     NODE_INIT (YAML_SEQUENCE_NODE (mkStack [3; 2] 16) YAML_BLOCK_SEQUENCE_STYLE) YAML_DEFAULT_SEQUENCE_TAG mark0 mark0] 16)
    empty_document.

Lemma sample_graph_ok : document_ok sample_graph.
Proof.
  unfold document_ok. cbn. unfold node_ok, ref_ok. cbn.
  repeat first [apply Forall_nil_2 | apply Forall_cons_2 | split | exact I]; first [done|lia].
Qed.

Lemma dump_emits_walk_witness :
  yaml_emitter_dump sample_graph (idle [] false false)
  = Ret tt (idle
      [YAML_STREAM_START_EVENT YAML_ANY_ENCODING; YAML_DOCUMENT_START_EVENT None [] false;
       YAML_SEQUENCE_START_EVENT (Some (bytes_of "id001")) (Some YAML_DEFAULT_SEQUENCE_TAG) true YAML_BLOCK_SEQUENCE_STYLE;
       YAML_MAPPING_START_EVENT None (Some YAML_DEFAULT_MAPPING_TAG) true YAML_FLOW_MAPPING_STYLE;
       YAML_SCALAR_EVENT (Some (bytes_of "id002")) (Some YAML_DEFAULT_SCALAR_TAG) (bytes_of "a") 1 true true YAML_PLAIN_SCALAR_STYLE;
       YAML_ALIAS_EVENT (bytes_of "id001"); YAML_MAPPING_END_EVENT;
       YAML_ALIAS_EVENT (bytes_of "id002"); YAML_SEQUENCE_END_EVENT; YAML_DOCUMENT_END_EVENT false] true false).
Proof. apply (dump_emits_walk (sink := log_sink) sample_graph false false []). apply sample_graph_ok. Defined.
