(* ===== verification/YamlDumpCompose.v ===== *)
(** * libyaml: dumping and loading again

    Composing the tree of events that the dumper makes of a document gives the
    document back: the same graph, its nodes renumbered in the order in which a
    walk from the root meets them.  Nodes that cannot be reached are gone. *)

From Stdlib Require Import ZArith Lia Ascii String.
From stdpp Require Import base list option strings list_numbers sets.
From S2P Require Import Prelude YamlData YamlChars YamlParser YamlEvents YamlRefinement YamlDocument YamlLoader YamlCompose.
From S2P Require Import YamlWriter YamlEmitter YamlDumper YamlDumpSpec YamlDumpEvents.

#[local] Open Scope Z_scope.
#[local] Set Warnings "-clear-no-such-hyp".

(** ** The text of an anchor *)

Lemma anchor_digits n : 0 <= n ->
  digits_value (drop 2 (yaml_emitter_generate_anchor n)) = n
  /\ Forall (fun c => 48 <= c <= 57) (drop 2 (yaml_emitter_generate_anchor n)).
Proof.
  intros Hn. unfold yaml_emitter_generate_anchor. cbv zeta.
  destruct (decimal_spec (S (Z.to_nat (Z.log2 n))) n) as [H1 H2].
  { split; [done|]. by apply log2_fuel. }
  set (l := decimal (S (Z.to_nat (Z.log2 n))) n) in *. change (drop 2 (bytes_of "id" ++ replicate (3 - length l) 48 ++ l)) with (replicate (3 - length l) 48 ++ l).
  split.
  - unfold digits_value in *. rewrite foldl_app.
    assert (foldl (fun a c => 10 * a + (c - 48)) 0 (replicate (3 - length l) 48) = 0) as ->; [|done].
    generalize (3 - length l)%nat as k. induction k as [|k IH]; [done|]. exact IH.
  - apply Forall_app. split; [|done]. apply Forall_replicate. lia.
Qed.

Lemma anchor_text_inj n m :
  0 <= n -> 0 <= m -> yaml_emitter_generate_anchor n = yaml_emitter_generate_anchor m -> n = m.
Proof.
  intros Hn Hm H. rewrite <- (proj1 (anchor_digits n Hn)), <- (proj1 (anchor_digits m Hm)). by rewrite H.
Qed.

Lemma anchor_text_shape n :
  0 <= n -> exists l, yaml_emitter_generate_anchor n = 105 :: 100 :: l /\ Forall (fun c => 48 <= c <= 57) l.
Proof. intros Hn. eexists. split; [reflexivity|]. apply (anchor_digits n Hn). Qed.

Lemma anchor_text_cstr n : 0 <= n -> cstr (yaml_emitter_generate_anchor n) = yaml_emitter_generate_anchor n.
Proof.
  intros Hn. destruct (anchor_text_shape n Hn) as (l & -> & Hl). apply cstr_no_nul.
  apply Forall_cons; split; [lia|]. apply Forall_cons; split; [lia|].
  eapply Forall_impl; [exact Hl|]. cbv beta. lia.
Qed.

(** ** Positions *)

Lemma place_in_at S i r : i ∉ S -> place_in (S ++ i :: r) i = Z.of_nat (length S) + 1.
Proof.
  intros Hi. rewrite place_in_app, bool_decide_eq_false_2, bool_decide_eq_true_2 by set_solver.
  cbn. by rewrite Z.eqb_refl.
Qed.

Lemma number_nonneg R i : 0 <= number R i.
Proof. apply place_in_pos. Qed.

Lemma find_snoc {X} (f : X -> bool) l x :
  find f (l ++ [x]) = match find f l with Some y => Some y | None => if f x then Some x else None end.
Proof. induction l as [|y l IH]; [done|]. cbn. by destruct (f y). Qed.

(** ** The document that is composed *)

Section compose_walk.
Variables (d : yaml_document_t) (O R : list Z).

(** A node with its references renumbered by their place in [O].  The
    non-specific tag is read as the default one. *)
Definition renumbered_data (x : yaml_node_data) : composed_data :=
  match x with
  | YAML_NO_NODE => CNone
  | YAML_SCALAR_NODE v len y => CScalar v len y
  | YAML_SEQUENCE_NODE s y => CSequence (map (place_in O) (rev s.(items))) y
  | YAML_MAPPING_NODE s y =>
      CMapping (map (fun p => (place_in O p.(pair_key), place_in O p.(pair_value))) (rev s.(items))) y
  end.

Definition default_tag (x : yaml_node_data) : list Z :=
  match x with
  | YAML_SEQUENCE_NODE _ _ => YAML_DEFAULT_SEQUENCE_TAG
  | YAML_MAPPING_NODE _ _ => YAML_DEFAULT_MAPPING_TAG
  | _ => YAML_DEFAULT_SCALAR_TAG
  end.

Definition renumbered (n : yaml_node_t) : composed_node :=
  CNode (renumbered_data n.(node_data)) (node_tag_or (default_tag n.(node_data)) (Some n.(node_tag))) mark0 mark0.

Definition no_node : yaml_node_t := NODE_INIT YAML_NO_NODE [] mark0 mark0.
Definition renumbered_at (i : Z) : composed_node := renumbered (default no_node (node_at i d)).

(** The anchors name the nodes that have been met. *)
Definition names (S : list Z) (A : anchors) : Prop := forall i, number R i <> 0 ->
  named (yaml_emitter_generate_anchor (number R i)) A
  = if bool_decide (i ∈ S) then Some (mkAlias (yaml_emitter_generate_anchor (number R i)) (place_in O i) mark0) else None.

Lemma same_anchor i j :
  number R i <> 0 ->
  strcmp_eq (yaml_emitter_generate_anchor (number R i)) (yaml_emitter_generate_anchor (number R j)) = bool_decide (i = j).
Proof.
  intros Hi. unfold strcmp_eq. rewrite !anchor_text_cstr by apply number_nonneg. apply bool_decide_ext. split; [|by intros ->].
  intros H%anchor_text_inj; [|apply number_nonneg..]. apply (anchor_number_inj R); [by apply number_elem|done].
Qed.

Lemma declare_walk S i A :
  i ∉ S -> place_in O i = Z.of_nat (length S) + 1 -> names S A ->
  exists A', declare (anchor_name R i) (Z.of_nat (length S) + 1) mark0 A = inr A' /\ names (S ++ [i]) A'.
Proof.
  intros Hi Hp HA. unfold anchor_name. destruct (number R i =? 0) eqn:E.
  - exists A. split; [done|]. intros j Hj. rewrite (HA j Hj). assert (j <> i) by (intros ->; lia).
    rewrite (bool_decide_ext (j ∈ S ++ [i]) (j ∈ S)); [done|set_solver].
  - assert (number R i <> 0) as Hn by lia. unfold declare. rewrite (HA i Hn), bool_decide_eq_false_2 by done.
    eexists. split; [done|]. intros j Hj. specialize (HA j Hj). unfold named in *. rewrite find_snoc, HA. cbn [alias_anchor].
    rewrite <- Hp, same_anchor by done. destruct (decide (i = j)) as [->|Hne].
    + rewrite (bool_decide_eq_true_2 (j = j)), (bool_decide_eq_true_2 (j ∈ S ++ [j])), bool_decide_eq_false_2 by set_solver. done.
    + rewrite (bool_decide_eq_false_2 (i = j)), (bool_decide_ext (j ∈ S ++ [i]) (j ∈ S)) by set_solver.
      by case_bool_decide.
Qed.

Definition composes (w : walk) : Prop := forall S A r,
  spells d S w -> O = S ++ firsts w ++ r -> names S A -> (forall i, i ∈ repeats w -> i ∈ R) ->
  exists A', compose (walk_tree d R w) (Z.of_nat (length S)) A
             = inr (map renumbered_at (firsts w), A', place_in O (target w))
             /\ names (S ++ firsts w) A'.

Lemma compose_walks ws : Forall composes ws -> forall S A r,
  spells_list (spells d) S ws -> O = S ++ all_firsts ws ++ r -> names S A -> (forall i, i ∈ all_repeats ws -> i ∈ R) ->
  exists A', compose_items compose (map (walk_tree d R) ws) (Z.of_nat (length S)) A
             = inr (map renumbered_at (all_firsts ws), A', map (place_in O) (map target ws))
             /\ names (S ++ all_firsts ws) A'.
Proof.
  unfold all_firsts, all_repeats.
  induction 1 as [|w ws Hw _ IH]; intros S A r Hs HO HA Hr; cbn in *.
  { exists A. split; [done|]. by rewrite app_nil_r. }
  destruct Hs as [Hs1 Hs2].
  destruct (Hw S A (concat (map firsts ws) ++ r)) as (A1 & E1 & H1); [done|by rewrite HO, <- app_assoc|done|set_solver|].
  destruct (IH (S ++ firsts w) A1 r) as (A2 & E2 & H2); [done|by rewrite HO, <- !app_assoc|done|set_solver|].
  exists A2. rewrite E1. cbn. rewrite length_map. rewrite length_app, Nat2Z.inj_add in E2. rewrite E2. cbn.
  rewrite map_app. split; [done|]. by rewrite app_assoc.
Qed.

(** Pairs are composed as the list of their keys and values is. *)
Lemma compose_pairs_items : forall ts base A ns A' refs,
  Nat.Even (length ts) -> compose_items compose ts base A = inr (ns, A', refs) ->
  compose_pairs compose (pair_up ts) base A = inr (ns, A', pair_up refs).
Proof.
  fix IH 1. intros [|t1 [|t2 ts]] base A ns A' refs He H.
  - cbn in *. by simplify_eq.
  - cbn in He. destruct He as [k Hk]. lia.
  - assert (Nat.Even (length ts)) as He' by (destruct He as [k Hk]; cbn in Hk; exists (k - 1)%nat; lia).
    cbn in H |- *. destruct (compose t1 base A) as [e|[[n1 A1] r1]]; cbn in *; [done|].
    destruct (compose t2 (base + Z.of_nat (length n1)) A1) as [e|[[n2 A2] r2]]; cbn in *; [done|].
    destruct (compose_items compose ts (base + Z.of_nat (length n1) + Z.of_nat (length n2)) A2)
      as [e|[[n3 A3] r3]] eqn:E3; cbn in *; [done|].
    rewrite (IH ts _ _ _ _ _ He' E3). cbn. by simplify_eq.
Qed.

Lemma pair_up_links {X} (f : Z -> X) (l : list yaml_node_pair_t) :
  pair_up (map f (concat (map (fun p => [p.(pair_key); p.(pair_value)]) l)))
  = map (fun p => (f p.(pair_key), f p.(pair_value))) l.
Proof. induction l as [|p l IH]; [done|]. cbn. by rewrite IH. Qed.

Lemma links_even (l : list yaml_node_pair_t) :
  Nat.Even (length (concat (map (fun p => [p.(pair_key); p.(pair_value)]) l))).
Proof. induction l as [|p l [k Hk]]; [by exists 0%nat|]. exists (S k). cbn. lia. Qed.

Lemma compose_walk w : NoDup O -> document_ok d -> composes w.
Proof.
  intros Hnd Hd. induction w as [i|i ws IH] using walk_ind'; intros S A r Hs HO HA Hr; cbn in Hs, HO, Hr;
    cbn [firsts target walk_tree].
  - assert (number R i <> 0) as Hn by (apply number_elem, Hr; set_solver).
    unfold anchor_name. assert ((number R i =? 0) = false) as -> by lia. cbn [default compose]. unfold id.
    rewrite (HA i Hn), bool_decide_eq_true_2 by done. exists A. rewrite app_nil_r. done.
  - destruct Hs as (Hi & (x & Hx & Hl) & Hs).
    assert (place_in O i = Z.of_nat (length S) + 1) as Hp by (rewrite HO; by apply place_in_at).
    destruct (declare_walk S i A Hi Hp HA) as (A1 & E1 & H1).
    destruct (compose_walks ws IH (S ++ [i]) A1 r) as (A2 & E2 & H2); [done|by rewrite HO, <- app_assoc|done|done|].
    rewrite length_app, Nat2Z.inj_add in E2. cbn [length] in E2. rewrite <- (app_assoc S [i]) in H2.
    cbn [map]. unfold renumbered_at at 1. rewrite Hx. cbn [default]. unfold id. rewrite Hl in E2.
    pose proof (document_ok_at _ _ _ Hd Hx) as Hok. unfold node_ok in Hok. unfold node_tree, renumbered.
    destruct (node_data x) as [|v l y|st y|st y]; cbn [links] in Hl, E2; [done|..];
      cbn [compose renumbered_data default_tag]; rewrite E1; cbn.
    + destruct ws; [|done]. cbn in H2. rewrite <- Hp. by exists A1.
    + change (Z.of_nat 1) with 1 in E2. rewrite E2. cbn. rewrite <- Hp. by exists A2.
    + change (Z.of_nat 1) with 1 in E2.
      rewrite (compose_pairs_items _ _ _ _ _ _ ltac:(rewrite length_map, <- (length_map target), Hl; apply links_even) E2).
      cbn. rewrite pair_up_links, <- Hp. by exists A2.
Qed.
End compose_walk.

(** ** What a reader may change *)

(** What matters of an event to the loader: a missing or non-specific tag
    stands for the standard one, and whether a tag may be left out does not
    count.  The emitter leaves out such tags, the parser does not invent them. *)
Definition essence (x : yaml_event_data) : yaml_event_data :=
  match x with
  | YAML_SCALAR_EVENT a t v n _ _ y =>
      YAML_SCALAR_EVENT a (Some (node_tag_or YAML_DEFAULT_SCALAR_TAG t)) v n false false y
  | YAML_SEQUENCE_START_EVENT a t _ y =>
      YAML_SEQUENCE_START_EVENT a (Some (node_tag_or YAML_DEFAULT_SEQUENCE_TAG t)) false y
  | YAML_MAPPING_START_EVENT a t _ y =>
      YAML_MAPPING_START_EVENT a (Some (node_tag_or YAML_DEFAULT_MAPPING_TAG t)) false y
  | _ => x
  end.

Definition event_essence (ev : yaml_event_t) : yaml_event_data := essence ev.(event_data).

(** The tree of such events, without marks. *)
Fixpoint essential_tree (t : event_tree) : event_tree :=
  match t with
  | TAlias a _ _ => TAlias a mark0 mark0
  | TScalar a t v n _ _ y _ _ =>
      TScalar a (Some (node_tag_or YAML_DEFAULT_SCALAR_TAG t)) v n false false y mark0 mark0
  | TSequence a t _ y _ _ ts _ _ =>
      TSequence a (Some (node_tag_or YAML_DEFAULT_SEQUENCE_TAG t)) false y mark0 mark0
        (map essential_tree ts) mark0 mark0
  | TMapping a t _ y _ _ kvs _ _ =>
      TMapping a (Some (node_tag_or YAML_DEFAULT_MAPPING_TAG t)) false y mark0 mark0
        (map (fun kv => (essential_tree kv.1, essential_tree kv.2)) kvs) mark0 mark0
  end.

(** A node, an anchor and an error but for their marks. *)
Definition unmarked (n : composed_node) : composed_node := CNode n.(cn_data) n.(cn_tag) mark0 mark0.

Definition unmarked_anchor (x : yaml_alias_data_t) : yaml_alias_data_t :=
  mkAlias x.(alias_anchor) x.(alias_index) mark0.

Definition unmarked_error (e : compose_error) : compose_error :=
  match e with
  | DuplicateAnchor _ _ => DuplicateAnchor mark0 mark0
  | UndefinedAlias _ => UndefinedAlias mark0
  end.

Definition unmarked_result {X} (r : composed X) : composed X :=
  match r with
  | inl e => inl (unmarked_error e)
  | inr (ns, A, x) => inr (map unmarked ns, map unmarked_anchor A, x)
  end.

Lemma named_unmarked a A : named a (map unmarked_anchor A) = unmarked_anchor <$> named a A.
Proof. unfold named. induction A as [|x A IH]; [done|]. cbn. by destruct (strcmp_eq _ a). Qed.

Lemma declare_unmarked a i m A :
  declare a i mark0 (map unmarked_anchor A)
  = match declare a i m A with
    | inl e => inl (unmarked_error e)
    | inr A' => inr (map unmarked_anchor A')
    end.
Proof.
  destruct a as [a|]; [|done]. cbn. rewrite named_unmarked. destruct (named a A); [done|]. cbn.
  by rewrite map_app.
Qed.

Lemma node_tag_or_again dflt t :
  strcmp_eq dflt (bytes_of "!") = false ->
  node_tag_or dflt (Some (node_tag_or dflt t)) = node_tag_or dflt t.
Proof.
  intros H. unfold node_tag_or. destruct t as [t|]; [|by rewrite H].
  destruct (strcmp_eq t (bytes_of "!")) eqn:E; [by rewrite H|by rewrite E].
Qed.

Definition blind (t : event_tree) : Prop := forall base A,
  compose (essential_tree t) base (map unmarked_anchor A) = unmarked_result (compose t base A).

Lemma compose_items_unmarked ts : Forall blind ts -> forall base A,
  compose_items compose (map essential_tree ts) base (map unmarked_anchor A)
  = unmarked_result (compose_items compose ts base A).
Proof.
  induction 1 as [|t ts Ht _ IH]; intros base A; [done|]. cbn. rewrite Ht.
  destruct (compose t base A) as [e|[[ns A1] x]]; [done|]. cbn. rewrite length_map, IH.
  destruct (compose_items _ _ _ _) as [e|[[ms A2] xs]]; [done|]. cbn. by rewrite map_app.
Qed.

Lemma compose_pairs_unmarked kvs : Forall (fun kv => blind kv.1 /\ blind kv.2) kvs -> forall base A,
  compose_pairs compose (map (fun kv => (essential_tree kv.1, essential_tree kv.2)) kvs) base
    (map unmarked_anchor A)
  = unmarked_result (compose_pairs compose kvs base A).
Proof.
  induction 1 as [|[k v] kvs [Hk Hv] _ IH]; intros base A; [done|]. cbn in *. rewrite Hk.
  destruct (compose k base A) as [e|[[ns A1] x]]; [done|]. cbn. rewrite length_map, Hv.
  destruct (compose v _ _) as [e|[[ms A2] y]]; [done|]. cbn. rewrite length_map, IH.
  destruct (compose_pairs _ _ _ _) as [e|[[ls A3] xs]]; [done|]. cbn. by rewrite !map_app.
Qed.

(** What is composed depends on the essence of the events alone, but for marks. *)
Lemma compose_unmarked t : blind t.
Proof.
  induction t as [a sm em|a t v n p q y sm em|a t i y sm em ts sm' em' IH|a t i y sm em kvs sm' em' IH]
    using event_tree_ind'; intros base A; cbn -[node_tag_or].
  - rewrite named_unmarked. by destruct (named a A).
  - rewrite (declare_unmarked _ _ sm), node_tag_or_again by done. by destruct (declare _ _ _ _).
  - rewrite (declare_unmarked _ _ sm). destruct (declare _ _ _ _) as [e|A']; [done|]. cbn -[node_tag_or].
    rewrite compose_items_unmarked by done. rewrite node_tag_or_again by done. by destruct (compose_items _ _ _ _) as [e|[[ns A1] x]].
  - rewrite (declare_unmarked _ _ sm). destruct (declare _ _ _ _) as [e|A']; [done|]. cbn -[node_tag_or].
    rewrite compose_pairs_unmarked by done. rewrite node_tag_or_again by done. by destruct (compose_pairs _ _ _ _) as [e|[[ns A1] x]].
Qed.

(** Events with the essence of a tree's are those of a tree with its essence. *)
Definition respelled (t : event_tree) : Prop := forall evs,
  map event_essence evs = map event_essence (events t) ->
  exists t', events t' = evs /\ essential_tree t' = essential_tree t.

Lemma respell_items ts : Forall respelled ts -> forall evs,
  map event_essence evs = map event_essence (concat (map events ts)) ->
  exists ts', concat (map events ts') = evs /\ map essential_tree ts' = map essential_tree ts.
Proof.
  induction 1 as [|t ts Ht _ IH]; intros evs H; cbn in H.
  { apply map_eq_nil in H as ->. by exists []. }
  rewrite map_app in H. apply map_eq_app in H as (e1 & e2 & -> & H1 & H2).
  destruct (Ht _ H1) as (t' & <- & Et), (IH _ H2) as (ts' & <- & Es).
  exists (t' :: ts'). cbn. by rewrite Et, Es.
Qed.

Lemma respell_pairs kvs : Forall (fun kv => respelled kv.1 /\ respelled kv.2) kvs -> forall evs,
  map event_essence evs = map event_essence (concat (map (fun kv => events kv.1 ++ events kv.2) kvs)) ->
  exists kvs', concat (map (fun kv => events kv.1 ++ events kv.2) kvs') = evs
    /\ map (fun kv => (essential_tree kv.1, essential_tree kv.2)) kvs'
       = map (fun kv => (essential_tree kv.1, essential_tree kv.2)) kvs.
Proof.
  induction 1 as [|[k v] kvs [Hk Hv] _ IH]; intros evs H; cbn in *.
  { apply map_eq_nil in H as ->. by exists []. }
  rewrite !map_app, <- app_assoc in H. apply map_eq_app in H as (e1 & e2 & -> & H1 & H2).
  apply map_eq_app in H2 as (e3 & e4 & -> & H3 & H4).
  destruct (Hk _ H1) as (k' & <- & Ek), (Hv _ H3) as (v' & <- & Ev), (IH _ H4) as (kvs' & <- & Es).
  exists ((k', v') :: kvs'). cbn. by rewrite Ek, Ev, Es, app_assoc.
Qed.

Lemma respell t : respelled t.
Proof.
  induction t as [a sm em|a t v n p q y sm em|a t i y sm em ts sm' em' IH|a t i y sm em kvs sm' em' IH]
    using event_tree_ind'; intros evs H; cbn in H.
  - destruct evs as [|[d m1 m2] [|? ?]]; try done. cbn in H. destruct d; try done. injection H as ->.
    by exists (TAlias a m1 m2).
  - destruct evs as [|[d m1 m2] [|? ?]]; try done. destruct d as [| | | | | |a' t' v' n' p' q' y'| | | |]; try done.
    exists (TScalar a' t' v' n' p' q' y' m1 m2). split; [done|]. cbn in H |- *. congruence.
  - destruct evs as [|[d m1 m2] evs]; [done|]. cbn in H. injection H as Hd H. rewrite map_app in H.
    apply map_eq_app in H as (e1 & e2 & -> & H1 & H2). destruct e2 as [|[d2 m3 m4] [|? ?]]; try done.
    destruct d2; try done. destruct (respell_items ts IH _ H1) as (ts' & <- & Es).
    destruct d as [| | | | | | |a' t' i' y'| | |]; try done.
    exists (TSequence a' t' i' y' m1 m2 ts' m3 m4). split; [done|]. cbn in Hd |- *. rewrite Es. congruence.
  - destruct evs as [|[d m1 m2] evs]; [done|]. cbn in H. injection H as Hd H. rewrite map_app in H.
    apply map_eq_app in H as (e1 & e2 & -> & H1 & H2). destruct e2 as [|[d2 m3 m4] [|? ?]]; try done.
    destruct d2; try done. destruct (respell_pairs kvs IH _ H1) as (kvs' & <- & Es).
    destruct d as [| | | | | | | | |a' t' i' y'|]; try done.
    exists (TMapping a' t' i' y' m1 m2 kvs' m3 m4). split; [done|]. cbn in Hd |- *. rewrite Es. congruence.
Qed.

(** ** The round trip *)

(** The nodes of a document that can be reached from its root, in the order in
    which a walk meets them. *)
Definition reached (d : yaml_document_t) : list Z := firsts (document_walk d).

(** The tree of the walk, whose events are those of the dump. *)
Definition dumped_tree (d : yaml_document_t) : event_tree := walk_tree d (repeats (document_walk d)) (document_walk d).

(** A node is reached from the root by references. *)
Inductive reachable (d : yaml_document_t) : Z -> Prop :=
| reach_root n : node_at 1 d = Some n -> reachable d 1
| reach_link i j n : reachable d i -> node_at i d = Some n -> j ∈ links n.(node_data) -> reachable d j.

Lemma target_met d w S : spells d S w -> target w ∈ S ++ firsts w.
Proof. destruct w as [i|i ws]; cbn; [by rewrite app_nil_r|]. intros _. set_solver. Qed.

(** A walk meets what it refers to. *)
Lemma walk_closed d w : forall S i j n, spells d S w -> i ∈ firsts w -> node_at i d = Some n ->
  j ∈ links n.(node_data) -> j ∈ S ++ firsts w.
Proof.
  induction w as [k|k ws IH] using walk_ind'; intros S i j n Hs Hi Hn Hj; cbn in Hs, Hi |- *; [by apply elem_of_nil in Hi|].
  destruct Hs as (_ & (x & Hx & Hl) & Hs). rewrite (cons_middle k S), app_assoc.
  apply elem_of_cons in Hi as [->|Hi].
  - rewrite Hx in Hn. injection Hn as <-. rewrite <- Hl in Hj. clear Hl. revert Hs Hj. generalize (S ++ [k]) as T.
    clear IH. induction ws as [|w ws IHw]; intros T Hs Hj; cbn in *; [by apply elem_of_nil in Hj|].
    destruct Hs as [Hs1 Hs2]. rewrite app_assoc. apply elem_of_cons in Hj as [->|Hj]; [|by apply IHw].
    apply elem_of_app. left. by apply (target_met d).
  - revert Hs Hi. generalize (S ++ [k]) as T. clear Hl. induction IH as [|w ws Hw _ IHw]; intros T Hs Hi; cbn in *;
      [by apply elem_of_nil in Hi|]. destruct Hs as [Hs1 Hs2]. rewrite app_assoc.
    apply elem_of_app in Hi as [Hi|Hi]; [|by apply IHw]. apply elem_of_app. left. eauto.
Qed.

(** It meets only what can be reached. *)
Lemma walk_reachable d w : forall S, spells d S w -> reachable d (target w) -> forall i, i ∈ firsts w -> reachable d i.
Proof.
  induction w as [k|k ws IH] using walk_ind'; intros S Hs Hr i Hi; cbn in Hs, Hr, Hi; [by apply elem_of_nil in Hi|].
  apply elem_of_cons in Hi as [->|Hi]; [done|]. destruct Hs as (_ & (x & Hx & Hl) & Hs).
  assert (forall j, j ∈ map target ws -> reachable d j) as Hk by (intros j Hj; rewrite Hl in Hj; by eapply reach_link).
  clear Hl. revert Hs Hi Hk. generalize (S ++ [k]) as T. induction IH as [|w ws Hw _ IHw]; intros T Hs Hi Hk; cbn in *;
    [by apply elem_of_nil in Hi|]. destruct Hs as [Hs1 Hs2].
  apply elem_of_app in Hi as [Hi|Hi]; [|eapply IHw; [done|done|]; intros j Hj; apply Hk; by right].
  apply (Hw T Hs1); [apply Hk; by left|done].
Qed.

(** What is composed from the tree of the walk. *)
Lemma compose_dumped (d : yaml_document_t) :
  document_ok d -> d.(nodes).(items) <> [] ->
  (exists A, compose (dumped_tree d) 0 [] = inr (map (renumbered_at d (reached d)) (reached d), A, 1))
  /\ NoDup (reached d) /\ place_in (reached d) 1 = 1
  /\ (forall i, i ∈ reached d <-> reachable d i).
Proof.
  intros Hd Hn. destruct (document_walk_spells d Hd Hn) as [Hs Ht].
  pose proof (spells_distinct d _ [] Hs (NoDup_nil_2)) as Hnd. cbn [app] in Hnd.
  destruct (node_at_valid 1 d) as [x Hx].
  { unfold ref_ok, node_count. destruct (items (nodes d)); [done|]. cbn. lia. }
  assert (place_in (reached d) 1 = 1) as Hp.
  { unfold reached. rewrite <- Ht. destruct (document_walk d) as [i|i ws]; cbn in Hs; [by apply elem_of_nil in Hs|].
    cbn. by rewrite Z.eqb_refl. }
  split; [|split_and!; [done|done|]].
  - destruct (compose_walk d (reached d) (repeats (document_walk d)) (document_walk d) Hnd Hd [] [] [])
      as (A & HA & _); [done|by rewrite app_nil_r|by intros i Hi|done|].
    rewrite Ht, Hp in HA. by exists A.
  - intros i. split.
    + apply (walk_reachable d _ [] Hs). rewrite Ht. by eapply reach_root.
    + induction 1 as [n H|i j n _ IH H Hj]; [|by eapply (walk_closed d _ [])].
      rewrite <- Ht. by apply (target_met d _ []).
Qed.

(** A tree with the essence of that of the walk composes to the same, but for
    marks. *)
Lemma compose_respelled d t :
  document_ok d -> d.(nodes).(items) <> [] -> essential_tree t = essential_tree (dumped_tree d) ->
  exists ns A, compose t 0 [] = inr (ns, A, 1)
    /\ map unmarked ns = map (renumbered_at d (reached d)) (reached d).
Proof.
  intros Hd Hn Ht. destruct (compose_dumped d Hd Hn) as [[A HA] _].
  pose proof (compose_unmarked t 0 []) as H1. pose proof (compose_unmarked (dumped_tree d) 0 []) as H2.
  rewrite Ht in H1. rewrite H1, HA in H2. destruct (compose t 0 []) as [e|[[ns A'] i]]; [done|].
  cbn in H2. injection H2 as H2 _ ->. exists ns, A'. split; [done|]. rewrite H2, map_map.
  by apply map_ext.
Qed.

(** The sink that keeps the events keeps all of them. *)
Lemma emit_each_log evs l : emit_each (sink := log_sink) evs l = Ret tt (l ++ map event_data evs).
Proof.
  revert l. induction evs as [|ev evs IH]; intros l; cbn; [by rewrite app_nil_r|].
  unfold mbind, prog_bind, emit, log_sink, modify. rewrite IH. by rewrite <- app_assoc.
Qed.

(** What [yaml_emitter_dump] gives to that sink. *)
Lemma dump_logged d opened closed l :
  document_ok d -> d.(nodes).(items) <> [] ->
  yaml_emitter_dump (sink := log_sink) d (idle l opened closed)
  = Ret tt (idle (l ++ (if opened then [] else [YAML_STREAM_START_EVENT YAML_ANY_ENCODING])
                    ++ map event_data (document_events d (document_walk d))) true closed).
Proof.
  intros Hd Hn. pose proof (dump_ends (sink := log_sink) d opened closed l Hd) as H. unfold ends in H.
  rewrite emit_each_log in H. destruct (yaml_emitter_dump _ _) as [[] s|s| |]; try done. rewrite H. f_equal.
  unfold dump_events. rewrite !(bool_decide_eq_false_2 (_ = [])), orb_false_r by done.
  rewrite map_app. by destruct opened.
Qed.

(** The document [d], loaded again by a loader whose parser ends as [p']. *)
Definition loaded_back (d : yaml_document_t) (p' : yaml_parser_t) (s' : loader) : Prop :=
  let d' := s'.(ld_document) in
  s'.(ld_parser) = p'
  /\ d'.(version_directive) = d.(version_directive)
  /\ d'.(document_tag_directives) = d.(document_tag_directives)
  /\ d'.(start_implicit) = d.(start_implicit) /\ d'.(end_implicit) = d.(end_implicit)
  /\ map unmarked (view_nodes d') = map (renumbered_at d (reached d)) (reached d).

(** A load from a parser that delivers the events of the walk. *)
Lemma load_document_events {src : TokenSource} d calls fuel s pre p1 evs p' :
  document_ok d -> d.(nodes).(items) <> [] ->
  preamble s pre -> delivered fuel s.(ld_parser) pre p1 -> p1.(scanner).(stream_end_produced) = false ->
  map event_essence evs = map event_essence (document_events d (document_walk d)) ->
  delivered fuel p1 evs p' -> (length evs <= calls)%nat ->
  wp strict (yaml_parser_load calls fuel) (fun _ s' => loaded_back d p' s')
    (fun s' => s'.(ld_document).(nodes).(items) = [] /\ no_memory s') s.
Proof.
  intros Hd Hn Hpre Hp1 Hend He Hev Hc. unfold document_events in He.
  destruct evs as [|ev evs]; [done|]. cbn in He. injection He as He1 He. rewrite map_app in He.
  apply map_eq_app in He as (e1 & e2 & -> & H1 & H2). destruct e2 as [|ev' [|? ?]]; try done.
  destruct (respell (dumped_tree d) e1 H1) as (t & <- & Ht).
  destruct (compose_respelled d t Hd Hn Ht) as (ns & A & HA & Hns).
  assert (ev.(event_data) = YAML_DOCUMENT_START_EVENT d.(version_directive) d.(document_tag_directives)
            d.(start_implicit)) as Es.
  { unfold event_essence in He1. destruct (event_data ev); cbn in He1; congruence. }
  assert (ev'.(event_data) = YAML_DOCUMENT_END_EVENT d.(end_implicit)) as Ee.
  { unfold event_essence in H2. cbn in H2. destruct (event_data ev'); cbn in H2; congruence. }
  eapply wp_mono.
  { eapply (wp_load_delivered fuel t s calls pre p1 p' ev ev'); try done.
    cbn in Hc. rewrite length_app in Hc. cbn in Hc. lia. }
  - intros [] s' (H3 & H4 & A' & i & H5). rewrite HA in H5. injection H5 as -> _ _.
    unfold header in H4. unfold loaded_back. cbv zeta.
    destruct (ld_document s') as [x1 x2 x3 x4 x5 x6 x7]. cbn in H4. injection H4 as -> -> -> -> _ _.
    done.
  - intros s' (H3 & [H4|(e & q & H4 & _)]); [done|]. by rewrite HA in H4.
Qed.

(** C9: dumping a document and loading what was dumped gives the document
    back.  [yaml_emitter_dump] of a well-formed document with nodes returns, and
    its sink has been given the events [es] (behind the start of the stream,
    unless it was open).  When a parser then delivers events with the essence
    of [es], whatever their marks, [yaml_parser_load] returns a document with
    the directives and flags of the first, and with the nodes that can be
    reached from its root, each with its kind, value, style and tag, in the
    order of the walk and with their references renumbered accordingly; it
    fails only when memory runs out.  No alias is undefined and no anchor
    declared twice, although the graph may share nodes and have cycles; the
    root comes first. *)
Theorem dump_compose_roundtrip (d : yaml_document_t) (l : list yaml_event_data) (opened closed : bool) :
  document_ok d -> d.(nodes).(items) <> [] ->
  exists es,
    yaml_emitter_dump (sink := log_sink) d (idle l opened closed)
    = Ret tt (idle (l ++ (if opened then [] else [YAML_STREAM_START_EVENT YAML_ANY_ENCODING]) ++ es)
                true closed)
    /\ (forall (src : TokenSource) calls fuel s pre p1 evs p',
          preamble s pre -> delivered fuel s.(ld_parser) pre p1 ->
          p1.(scanner).(stream_end_produced) = false ->
          map event_essence evs = map essence es -> delivered fuel p1 evs p' ->
          (length evs <= calls)%nat ->
          wp strict (yaml_parser_load calls fuel) (fun _ s' => loaded_back d p' s')
            (fun s' => s'.(ld_document).(nodes).(items) = [] /\ no_memory s') s)
    /\ NoDup (reached d) /\ place_in (reached d) 1 = 1
    /\ (forall i, i ∈ reached d <-> reachable d i).
Proof.
  intros Hd Hn. exists (map event_data (document_events d (document_walk d))).
  split; [by apply dump_logged|]. split; [|apply (compose_dumped d Hd Hn)].
  intros src calls fuel s pre p1 evs p' Hpre Hp1 Hend He Hev Hc. rewrite map_map in He.
  by eapply load_document_events.
Qed.

(** The graph of the sample as a text of tokens,
    [--- &id001 - {&id002 a: *id001} - *id002 ...]. *)
Definition graph_tokens : list yaml_token_t :=
  map (fun d => TOKEN_INIT d mark0 mark0)
    [YAML_STREAM_START_TOKEN YAML_UTF8_ENCODING; YAML_DOCUMENT_START_TOKEN;
     YAML_ANCHOR_TOKEN (bytes_of "id001"); YAML_BLOCK_SEQUENCE_START_TOKEN; YAML_BLOCK_ENTRY_TOKEN;
     YAML_FLOW_MAPPING_START_TOKEN; YAML_KEY_TOKEN; YAML_ANCHOR_TOKEN (bytes_of "id002");
     YAML_SCALAR_TOKEN (bytes_of "a") 1 YAML_PLAIN_SCALAR_STYLE; YAML_VALUE_TOKEN;
     YAML_ALIAS_TOKEN (bytes_of "id001"); YAML_FLOW_MAPPING_END_TOKEN; YAML_BLOCK_ENTRY_TOKEN;
     YAML_ALIAS_TOKEN (bytes_of "id002"); YAML_BLOCK_END_TOKEN; YAML_DOCUMENT_END_TOKEN;
     YAML_STREAM_END_TOKEN].

(** The parser of these tokens after so many events, and the events. *)
Definition graph_after (n : nat) : yaml_parser_t :=
  match deliver (src := queue_source) 90 n (token_parser graph_tokens) with
  | Some (_, p) => p
  | None => token_parser []
  end.
Definition graph_events : list yaml_event_t :=
  match deliver (src := queue_source) 90 9 (graph_after 1) with Some (es, _) => es | None => [] end.

Lemma graph_delivered :
  delivered (src := queue_source) 90 (token_parser graph_tokens)
    [EVENT_INIT (YAML_STREAM_START_EVENT YAML_UTF8_ENCODING) mark0 mark0] (graph_after 1)
  /\ delivered (src := queue_source) 90 (graph_after 1) graph_events (graph_after 10).
Proof.
  split; [apply (deliver_delivered (src := queue_source) 90 1)
         |apply (deliver_delivered (src := queue_source) 90 9)]; vm_compute; reflexivity.
Qed.

Lemma graph_essence :
  map event_essence graph_events
  = map essence (map event_data (document_events sample_graph (document_walk sample_graph))).
Proof. vm_compute. reflexivity. Qed.

Lemma graph_open : (graph_after 1).(scanner).(stream_end_produced) = false.
Proof. vm_compute. reflexivity. Qed.

(** The shared node and the cycle of the sample come back, the node that cannot
    be reached does not. *)
Lemma dump_compose_roundtrip_witness :
  reached sample_graph = [1; 2; 3]
  /\ map cn_data (map (renumbered_at sample_graph (reached sample_graph)) (reached sample_graph))
     = [CSequence [2; 3] YAML_BLOCK_SEQUENCE_STYLE; CMapping [(3, 1)] YAML_FLOW_MAPPING_STYLE;
        CScalar (bytes_of "a") 1 YAML_PLAIN_SCALAR_STYLE]
  /\ wp strict (yaml_parser_load (src := queue_source) 20 90)
       (fun _ s' => loaded_back sample_graph (graph_after 10) s')
       (fun s' => s'.(ld_document).(nodes).(items) = [] /\ no_memory s')
       (fresh_loader (token_parser graph_tokens)).
Proof.
  split; [reflexivity|]. split; [reflexivity|].
  assert (sample_graph.(nodes).(items) <> []) as Hn by discriminate.
  destruct (dump_compose_roundtrip sample_graph [] true false sample_graph_ok Hn)
    as (es & Hes & Hload & _).
  rewrite (dump_logged sample_graph true false [] sample_graph_ok Hn) in Hes.
  apply (f_equal (fun r => match r with Ret _ s => dm_sink s | _ => [] end)) in Hes. cbn [app dm_sink idle] in Hes.
  apply (Hload queue_source 20%nat 90%nat (fresh_loader (token_parser graph_tokens))
    [EVENT_INIT (YAML_STREAM_START_EVENT YAML_UTF8_ENCODING) mark0 mark0] (graph_after 1) graph_events).
  - by eexists _, _, _.
  - apply graph_delivered.
  - apply graph_open.
  - rewrite <- Hes. apply graph_essence.
  - apply graph_delivered.
  - apply Nat.leb_le. vm_compute. reflexivity.
Defined.
