(* ===== verification/YamlDumpStream.v ===== *)
(** * libyaml: documents as text

    The dumper over the emitter over the writer: opening, dumping documents and
    closing writes a text that the reader accepts, for documents whose texts
    are valid UTF-8 and whose tags and directives are acceptable. *)

From Stdlib Require Import ZArith Lia Ascii String.
From stdpp Require Import base list option strings list_numbers sets.
From S2P Require Import Prelude YamlData YamlReader YamlChars YamlUtf8 YamlDocument YamlEvents YamlLoader YamlCompose YamlWriter YamlEmitText YamlEmitter YamlEmitAnalysis YamlEmitGrammar YamlEmitStream YamlDumper YamlDumpSpec YamlDumpEvents YamlDumpCompose.

#[local] Open Scope Z_scope.
#[local] Set Warnings "-clear-no-such-hyp".

(** ** Trees are nodes of the grammar *)

Definition fine (canon : bool) (ev : yaml_event_t) : Prop :=
  acceptable canon ev.(event_data) = true /\ event_ok ev.(event_data).

Lemma accepts_cons canon n ev evs :
  acceptable canon ev.(event_data) = true ->
  accepts canon n (ev :: evs) = n' ← nest_step n ev.(event_data); accepts canon n' evs.
Proof. intros H. cbn [accepts]. by rewrite H. Qed.

Lemma tree_accepted canon t : forall fs,
  Forall (fun ev => acceptable canon ev.(event_data) = true) (events t) ->
  accepts canon (NDoc fs) (events t) = Some (node_done fs).
Proof.
  induction t as [a sm em|a t v n p q y sm em|a t i y sm em ts sm' em' IH|a t i y sm em kvs sm' em' IH]
    using event_tree_ind'; intros fs Hf; cbn [events] in *.
  - apply Forall_cons in Hf as [H _]. by rewrite accepts_cons.
  - apply Forall_cons in Hf as [H _]. by rewrite accepts_cons.
  - apply Forall_cons in Hf as [H Hf]. rewrite accepts_cons by done. cbn [nest_step event_data mbind option_bind].
    apply Forall_app in Hf as [Hf He]. rewrite accepts_app.
    assert (accepts canon (NDoc (FSeq :: fs)) (concat (map events ts)) = Some (NDoc (FSeq :: fs))) as ->.
    { clear H He. induction IH as [|t0 ts Ht _ IH]; [done|]. cbn in Hf |- *. apply Forall_app in Hf as [Hf1 Hf2].
      rewrite accepts_app, (Ht _ Hf1). cbn. by apply IH. }
    done.
  - apply Forall_cons in Hf as [H Hf]. rewrite accepts_cons by done. cbn [nest_step event_data mbind option_bind].
    apply Forall_app in Hf as [Hf He]. rewrite accepts_app.
    assert (accepts canon (NDoc (FKey :: fs)) (concat (map (fun kv => events kv.1 ++ events kv.2) kvs))
            = Some (NDoc (FKey :: fs))) as ->.
    { clear H He. induction IH as [|kv kvs [Hk Hv] _ IH]; [done|]. cbn in Hf |- *.
      apply Forall_app in Hf as [[Hf1 Hf2]%Forall_app Hf3].
      rewrite !accepts_app, (Hk _ Hf1). cbn [mbind option_bind node_done]. rewrite (Hv _ Hf2). cbn. by apply IH. }
    done.
Qed.

(** ** Documents that can be dumped *)

Definition node_fit (n : yaml_node_t) : Prop :=
  valid_text (cstr n.(node_tag)) /\ cstr n.(node_tag) <> []
  /\ match n.(node_data) with
     | YAML_SCALAR_NODE v len _ => valid_text v /\ len = Z.of_nat (length v)
     | _ => True
     end.

Record document_fit (d : yaml_document_t) : Prop := mkFit {
  fit_ok : document_ok d;
  fit_root : d.(nodes).(items) <> [];
  fit_nodes : Forall node_fit (document_nodes d);
  fit_version : version_fine d.(version_directive) = true;
  fit_directives : forallb directive_fine d.(document_tag_directives) = true;
  fit_handles : NoDup (handles d.(document_tag_directives));
  fit_prefixes : Forall (fun t => valid_text (cstr t.(td_prefix))) d.(document_tag_directives)
}.

Lemma anchor_text_fine n : 0 <= n -> anchor_fine (yaml_emitter_generate_anchor n) = true.
Proof.
  intros Hn. unfold anchor_fine. rewrite anchor_text_cstr by done.
  destruct (anchor_text_shape n Hn) as (l & -> & Hl). cbn. apply forallb_forall. intros c Hc.
  rewrite List.Forall_forall in Hl. specialize (Hl c Hc). unfold is_alpha.
  assert (is_digit c = true) as -> by (unfold is_digit; change (ch "0") with 48; change (ch "9") with 57; lia). done.
Qed.

Lemma anchor_name_fine R i : anchor_opt_fine (anchor_name R i) = true.
Proof.
  unfold anchor_name. destruct (_ =? 0); [done|]. apply anchor_text_fine, number_nonneg.
Qed.

Lemma pair_up_Forall {X} (P : X -> Prop) : forall l, Forall P l -> Forall (fun kv => P kv.1 /\ P kv.2) (pair_up l).
Proof.
  fix IH 1. intros [|x [|y l]] H; [constructor|constructor|]. cbn.
  apply Forall_cons in H as [Hx H]. apply Forall_cons in H as [Hy H]. apply Forall_cons. split; [done|]. by apply IH.
Qed.

(** The events of a node of the document. *)
Lemma node_tree_fine canon R i n ts :
  node_fit n -> n.(node_data) <> YAML_NO_NODE -> Forall (fun t => Forall (fine canon) (events t)) ts ->
  Forall (fine canon) (events (node_tree (anchor_name R i) n ts)).
Proof.
  intros (Ht & Hne & Hd) Hno Hts. pose proof (anchor_name_fine R i) as Ha.
  assert (forall used, tag_fine used (Some n.(node_tag)) = true) as Htag.
  { intros used. cbn. rewrite bool_decide_eq_false_2 by done. by destruct used. }
  unfold node_tree. destruct (node_data n) as [|v l y|s y|s y]; [done|..]; cbn [events].
  - apply Forall_singleton. split; cbn [event_data event_ok].
    + unfold acceptable, node_fine. rewrite Ha, Htag. rewrite (bool_decide_eq_true_2 (is_Some _)) by eauto. by rewrite !orb_true_r.
    + destruct Hd. done.
  - apply Forall_cons. split; [|apply Forall_app; split].
    + split; cbn [event_data event_ok]; [unfold acceptable, node_fine; by rewrite Ha, Htag|done].
    + by apply Forall_concat, Forall_map.
    + by apply Forall_singleton.
  - apply Forall_cons. split; [|apply Forall_app; split].
    + split; cbn [event_data event_ok]; [unfold acceptable, node_fine; by rewrite Ha, Htag|done].
    + apply Forall_concat, Forall_map. eapply Forall_impl; [by apply pair_up_Forall|].
      intros kv [H1 H2]. by apply Forall_app.
    + by apply Forall_singleton.
Qed.

Lemma walk_tree_fine canon d R w : document_fit d -> forall S,
  spells d S w -> (forall i, i ∈ repeats w -> i ∈ R) -> Forall (fine canon) (events (walk_tree d R w)).
Proof.
  intros Hd. induction w as [i|i ws IH] using walk_ind'; intros S Hs Hr; cbn in Hs, Hr; cbn [walk_tree].
  - cbn [events]. apply Forall_singleton. split; [|done]. cbn [event_data]. unfold acceptable, node_fine.
    unfold anchor_name. assert (number R i <> 0) by (apply number_elem, Hr; set_solver).
    assert ((number R i =? 0) = false) as -> by lia. cbn [default]. unfold id.
    by rewrite anchor_text_fine by apply number_nonneg.
  - destruct Hs as (_ & (n & Hn & _) & Hs). rewrite Hn. apply node_tree_fine.
    + pose proof (fit_nodes d Hd) as Hf. unfold node_at in Hn. destruct (0 <? i); [|done].
      rewrite Forall_lookup in Hf. by eapply Hf.
    + pose proof (document_ok_at _ _ _ (fit_ok d Hd) Hn) as Hok. unfold node_ok in Hok. by intros E; rewrite E in Hok.
    + revert Hs Hr. generalize (S ++ [i]) as T. induction IH as [|w ws Hw _ IH]; intros T Hs Hr; cbn in *; [constructor|].
      destruct Hs as [Hs1 Hs2]. apply Forall_cons. split; [eapply Hw; [done|set_solver]|eapply IH; [done|set_solver]].
Qed.

Lemma document_accepted canon d :
  document_fit d ->
  accepts canon NStream (document_events d (document_walk d)) = Some NStream
  /\ events_ok (document_events d (document_walk d)).
Proof.
  intros Hd. destruct (document_walk_spells d (fit_ok d Hd) (fit_root d Hd)) as [Hs _].
  pose proof (walk_tree_fine canon d (repeats (document_walk d)) (document_walk d) Hd [] Hs (fun i Hi => Hi)) as Hf.
  set (t := walk_tree d (repeats (document_walk d)) (document_walk d)) in *.
  assert (acceptable canon (YAML_DOCUMENT_START_EVENT d.(version_directive) d.(document_tag_directives)
    d.(start_implicit)) = true) as Hst.
  { cbn. rewrite (fit_version d Hd), (fit_directives d Hd). rewrite bool_decide_eq_true_2; [done|apply (fit_handles d Hd)]. }
  split.
  - unfold document_events. rewrite accepts_cons by done. cbn [nest_step event_data mbind option_bind].
    rewrite accepts_app. fold t. rewrite tree_accepted; [done|]. eapply Forall_impl; [exact Hf|]. by intros ev [? _].
  - unfold document_events, events_ok. apply Forall_cons. split; [apply (fit_prefixes d Hd)|].
    apply Forall_app. split; [|by apply Forall_singleton]. eapply Forall_impl; [exact Hf|]. by intros ev [_ ?].
Qed.

(** ** A whole stream *)

Definition dump_stream {K} {sink : EventSink K} (docs : list yaml_document_t) : dprog (K := K) unit :=
  yaml_emitter_open;; each yaml_emitter_dump docs;; yaml_emitter_close.

Definition documents_events (docs : list yaml_document_t) : list yaml_event_t :=
  concat (map (fun d => document_events d (document_walk d)) docs).

Definition stream_events (docs : list yaml_document_t) : list yaml_event_t :=
  [stream_start] ++ documents_events docs ++ [stream_end].

Lemma stream_accepted canon docs :
  Forall document_fit docs ->
  accepts canon NStart (stream_events docs) = Some NEnd /\ events_ok (stream_events docs).
Proof.
  intros Hd.
  assert (accepts canon NStream (documents_events docs) = Some NStream /\ events_ok (documents_events docs)) as [H1 H2].
  { induction Hd as [|d docs Hd _ [IH1 IH2]]; [by split; [|apply Forall_nil_2]|].
    destruct (document_accepted canon d Hd) as [Ha Ho]. unfold documents_events in *. cbn [map concat].
    rewrite accepts_app, Ha. split; [done|]. apply Forall_app. by split. }
  split.
  - unfold stream_events. cbn [app]. rewrite accepts_cons by done. cbn [nest_step event_data stream_start mbind option_bind].
    by rewrite accepts_app, H1.
  - apply Forall_cons. split; [done|]. apply Forall_app. split; [done|]. by apply Forall_singleton.
Qed.

(** The dumper over any sink. *)
Lemma dump_all_follows {K} {sink : EventSink K} docs : forall k : K,
  Forall document_fit docs ->
  follows (fun k' => idle k' true false) (fun k' s => s = idle k' true false)
    (emit_each (documents_events docs) k) (each yaml_emitter_dump docs (idle k true false)).
Proof.
  unfold documents_events. intros k Hd. revert k. induction Hd as [|d docs Hd _ IH]; intros k; [done|].
  cbn [map concat each]. rewrite emit_each_app. eapply follows_bind; [|exact IH].
  pose proof (dump_ends d true false k (fit_ok d Hd)) as H. unfold dump_events in H.
  rewrite bool_decide_eq_false_2 in H by apply (fit_root d Hd).
  unfold ends, follows in *. cbn [app orb] in H.
  destruct (emit_each _ k) as [[] ?|?| |], (yaml_emitter_dump d _) as [[] ?|?| |]; try done. by destruct H.
Qed.

Lemma dump_stream_follows {K} {sink : EventSink K} docs (k : K) :
  Forall document_fit docs ->
  follows (fun k' => idle k' true true) (fun k' s => exists o, s = idle k' o false)
    (emit_each (stream_events docs) k) (dump_stream docs (idle k false false)).
Proof.
  intros Hd. unfold stream_events, dump_stream. rewrite emit_each_app.
  eapply (follows_bind (fun k' => idle k' true false)).
  { unfold yaml_emitter_open, gets. unfold mbind at 1, prog_bind at 1. cbn [dm_opened idle].
    eapply follows_weaken; [|by apply (follows_flag _ (set_opened true))]. intros k' s ->. by exists false. }
  intros k1. rewrite emit_each_app. eapply follows_bind.
  { eapply follows_weaken; [|by apply dump_all_follows]. intros k' s ->. by exists true. }
  intros k2. unfold yaml_emitter_close, gets. do 2 (unfold mbind at 1, prog_bind at 1). cbn [dm_opened dm_closed idle negb].
  eapply follows_weaken; [|by apply (follows_flag _ (set_closed true))]. intros k' s ->. by exists true.
Qed.

Lemma emit_each_all {D} evs (e : yaml_emitter_t D) : emit_each evs e = emit_all evs e.
Proof.
  revert e. induction evs as [|ev evs IH]; intros e; [done|]. cbn [emit_each emit_all]. unfold mbind, prog_bind, emit, emitter_sink.
  destruct (yaml_emitter_emit ev e); [apply IH|done..].
Qed.

Lemma wp_follows {K} (good : K -> dumper K) bad (m : prog K unit) (p : dprog (K := K) unit) Q E k s :
  follows good bad (m k) (p s) -> wp strict m Q E k ->
  wp strict p (fun _ s' => exists k', s' = good k' /\ Q tt k') (fun s' => exists k', bad k' s' /\ E k') s.
Proof.
  unfold follows, wp. destruct (m k) as [[] k'|k'| |], (p s) as [[] s'|s'| |]; try done; eauto.
Qed.

(** C28: opening an emitter, dumping any documents that are well formed, have
    valid texts and acceptable directives and no empty tag, and closing it,
    returns unless the write handler fails or a stack cannot grow: the queue and
    the buffer are then empty and the handler has been given, in the output
    encoding, characters that the reader decodes, all of them. *)
Theorem dump_stream_readable {D} (h : yaml_write_handler_t D) (sofar : D -> list Z) {col : Collects h sofar}
    (e : yaml_emitter_t D) (docs : list yaml_document_t) :
  configured h sofar e -> Forall document_fit docs ->
  wp strict (dump_stream docs)
    (fun _ s => exists e' d cs, s = idle e' true true /\ e'.(machine).(e_events) = [] /\ delivered_text h sofar cs d e'
       /\ forall p, p.(reader).(encoding) = e'.(writing).(out_encoding) -> p.(reader).(raw_buffer) = sofar d ->
            decode_raw p = Ret tt (transcoded e'.(writing).(out_encoding) cs [] p))
    (fun s => exists e' o, s = idle e' o false /\ (write_failed e' \/ out_of_memory e')) (new_dumper e).
Proof.
  intros Hc Hd. destruct (stream_accepted e.(layout).(canonical) docs Hd) as [Ha Ho].
  pose proof (wp_complete_stream h sofar e (stream_events docs) Hc Ho Ha) as Hw.
  pose proof (dump_stream_follows docs e Hd) as Hf. rewrite emit_each_all in Hf.
  eapply wp_mono; [exact (wp_follows _ _ _ _ _ _ _ _ Hf Hw)|..]; cbv beta.
  - intros _ s (e' & -> & H1 & d & cs & H2). exists e', d, cs. split_and!; [done|done|done|].
    intros p. by apply (delivered_readable h sofar).
  - intros s (e' & [o ->] & H). by exists e', o.
Qed.

(** A test for nodes in ASCII. *)
Definition ascii_fit (n : yaml_node_t) : bool :=
  let ascii := forallb (fun c => (0x20 <=? c) && (c <=? 0x7E)) in
  ascii (cstr n.(node_tag)) && negb (bool_decide (cstr n.(node_tag) = []))
  && match n.(node_data) with
     | YAML_SCALAR_NODE v len _ => ascii v && (len =? Z.of_nat (length v))
     | _ => true
     end.

Lemma ascii_fits n : ascii_fit n = true -> node_fit n.
Proof.
  unfold ascii_fit, node_fit. intros [[Ht Hne]%andb_true_iff Hd]%andb_true_iff.
  split; [by apply graph_valid, graph_decided|]. apply negb_true_iff, bool_decide_eq_false in Hne. split; [done|].
  destruct (node_data n); try done. apply andb_true_iff in Hd as [Hv Hl]. split; [by apply graph_valid, graph_decided|lia].
Qed.

Lemma sample_graph_fit : document_fit sample_graph.
Proof.
  split; try done.
  - apply sample_graph_ok.
  - apply List.Forall_forall. intros n Hn. apply ascii_fits. revert n Hn. apply forallb_forall. reflexivity.
  - apply NoDup_nil_2.
Qed.

Definition graph_text_written : list Z :=
  bytes_of "--- &id001" ++ [10] ++ bytes_of "- {&id002 a: *id001}" ++ [10] ++ bytes_of "- *id002" ++ [10] ++ bytes_of "..." ++ [10].

Lemma sample_graph_dumps :
  returns_with (fun s => bool_decide (written <$> (snd <$> s.(dm_sink).(writing).(output)) = Some graph_text_written))
    (dump_stream [sample_graph] (new_dumper sample_emitter)) = true.
Proof. vm_compute. reflexivity. Qed.

Lemma dump_stream_readable_witness :
  exists s, dump_stream [sample_graph] (new_dumper sample_emitter) = Ret tt s
    /\ exists e' d cs, s = idle e' true true /\ e'.(machine).(e_events) = []
    /\ delivered_text yaml_string_write_handler written cs d e' /\ written d = graph_text_written.
Proof.
  destruct (wp_returned _ _ _ _ _ (dump_stream_readable yaml_string_write_handler written sample_emitter [sample_graph]
    sample_configured (Forall_cons_2 _ _ _ sample_graph_fit (Forall_nil_2 _))) sample_graph_dumps)
    as (s & H1 & H2 & e' & d & cs & -> & H3 & H4 & _).
  exists (idle e' true true). split; [exact H1|]. exists e', d, cs. split_and!; [reflexivity|exact H3|exact H4|].
  apply bool_decide_eq_true in H2. destruct H4 as [H4 _]. cbn [idle dm_sink] in H2.
  rewrite H4 in H2. injection H2 as H2. exact H2.
Defined.
