(* ===== verification/Sha256.v ===== *)
(** * SHA-256 ([thirdparties/sha256/sha256.c])

    The hash that [LibraryContext::isMatch] feeds with the previous token and
    the url of a library.  The code keeps sixteen words that are at once the
    block being filled with bytes, the block in big-endian order and the window
    of the message schedule; it rotates the indices of its eight working
    variables instead of moving them; and it pads in place.  The reference is
    the definition of FIPS 180-4 on the whole message, with its constants
    computed from the primes.  The machine is little-endian ([SWAP_BYTES]). *)

From Stdlib Require Import ZArith Lia.
From stdpp Require Import base list.
From S2P Require Import Prelude.

#[local] Open Scope Z_scope.

(** ** Words *)

Definition u32 (x : Z) : Z := x mod 2^32.
Definition add32 (x y : Z) : Z := u32 (x + y).
Infix "⊞" := add32 (at level 50, left associativity).

Definition RR (x n : Z) : Z := Z.lor (Z.shiftr x n) (u32 (Z.shiftl x (32 - n))).
Definition S0 (x : Z) : Z := Z.lxor (Z.lxor (RR x 2) (RR x 13)) (RR x 22).
Definition S1 (x : Z) : Z := Z.lxor (Z.lxor (RR x 6) (RR x 11)) (RR x 25).
Definition G0 (x : Z) : Z := Z.lxor (Z.lxor (RR x 7) (RR x 18)) (Z.shiftr x 3).
Definition G1 (x : Z) : Z := Z.lxor (Z.lxor (RR x 17) (RR x 19)) (Z.shiftr x 10).

(** The table [K]. *)
Definition K (i : Z) : Z :=
  match i with
  | 0 => 0x428a2f98 | 1 => 0x71374491 | 2 => 0xb5c0fbcf | 3 => 0xe9b5dba5
  | 4 => 0x3956c25b | 5 => 0x59f111f1 | 6 => 0x923f82a4 | 7 => 0xab1c5ed5
  | 8 => 0xd807aa98 | 9 => 0x12835b01 | 10 => 0x243185be | 11 => 0x550c7dc3
  | 12 => 0x72be5d74 | 13 => 0x80deb1fe | 14 => 0x9bdc06a7 | 15 => 0xc19bf174
  | 16 => 0xe49b69c1 | 17 => 0xefbe4786 | 18 => 0x0fc19dc6 | 19 => 0x240ca1cc
  | 20 => 0x2de92c6f | 21 => 0x4a7484aa | 22 => 0x5cb0a9dc | 23 => 0x76f988da
  | 24 => 0x983e5152 | 25 => 0xa831c66d | 26 => 0xb00327c8 | 27 => 0xbf597fc7
  | 28 => 0xc6e00bf3 | 29 => 0xd5a79147 | 30 => 0x06ca6351 | 31 => 0x14292967
  | 32 => 0x27b70a85 | 33 => 0x2e1b2138 | 34 => 0x4d2c6dfc | 35 => 0x53380d13
  | 36 => 0x650a7354 | 37 => 0x766a0abb | 38 => 0x81c2c92e | 39 => 0x92722c85
  | 40 => 0xa2bfe8a1 | 41 => 0xa81a664b | 42 => 0xc24b8b70 | 43 => 0xc76c51a3
  | 44 => 0xd192e819 | 45 => 0xd6990624 | 46 => 0xf40e3585 | 47 => 0x106aa070
  | 48 => 0x19a4c116 | 49 => 0x1e376c08 | 50 => 0x2748774c | 51 => 0x34b0bcb5
  | 52 => 0x391c0cb3 | 53 => 0x4ed8aa4a | 54 => 0x5b9cca4f | 55 => 0x682e6ff3
  | 56 => 0x748f82ee | 57 => 0x78a5636f | 58 => 0x84c87814 | 59 => 0x8cc70208
  | 60 => 0x90befffa | 61 => 0xa4506ceb | 62 => 0xbef9a3f7 | 63 => 0xc67178f2
  | _ => 0
  end.

(** [p[i]] and [p[i] = v] for a masked index. *)
Definition word (p : list Z) (i : Z) : Z := nth (Z.to_nat i) p 0.
Definition upd (p : list Z) (i v : Z) : list Z := <[Z.to_nat i := v]> p.

(** ** The context *)

Record sha256_context : Type := mkSha256 {
  buf : list Z;
  hash : list Z;
  len_0 : Z;
  len_1 : Z
}.

Definition set_buf b (c : sha256_context) := mkSha256 b c.(hash) c.(len_0) c.(len_1).

(** One word of [_bswapw]. *)
Definition bswap (x : Z) : Z :=
  Z.lor (Z.land (RR x 24) 0x00ff00ff) (Z.land (RR x 8) 0xff00ff00).

(** [while (i--) p[i] = ...]. *)
Fixpoint bswapw (p : list Z) (i : nat) : list Z :=
  match i with
  | O => p
  | S k => bswapw (upd p (Z.of_nat k) (bswap (word p (Z.of_nat k)))) k
  end.

(** The octets of the words in memory. *)
Definition le_bytes (w : Z) : list Z :=
  [Z.land w 255; Z.land (Z.shiftr w 8) 255; Z.land (Z.shiftr w 16) 255; Z.land (Z.shiftr w 24) 255].
Definition le_word (b0 b1 b2 b3 : Z) : Z :=
  Z.lor b0 (Z.lor (Z.shiftl b1 8) (Z.lor (Z.shiftl b2 16) (Z.shiftl b3 24))).
Definition buf_bytes (p : list Z) : list Z := concat (map le_bytes p).
Fixpoint le_words (l : list Z) : list Z :=
  match l with
  | b0 :: b1 :: b2 :: b3 :: r => le_word b0 b1 b2 b3 :: le_words r
  | _ => []
  end.

Definition sha_prog : Type -> Type := prog sha256_context.

(** [MEMCP((char * )ctx->buf + i, &dat[j], l)]: both ranges must be in bounds. *)
Definition memcp (i : Z) (dat : list Z) (j l : Z) : sha_prog unit :=
  c ← gets id;
  let bs := buf_bytes c.(buf) in
  if (Z.of_nat (length dat) <? j + l) || (Z.of_nat (length bs) <? i + l) then crash
  else
    let src := take (Z.to_nat l) (drop (Z.to_nat j) dat) in
    modify (set_buf (le_words (take (Z.to_nat i) bs ++ src ++ drop (Z.to_nat (i + l)) bs))).

(** ** Rounds *)

(** [_rtrf(b, p, i, j)]. *)
Definition rtrf (j : Z) (s : list Z * list Z) (i : Z) : list Z * list Z :=
  let '(b, p) := s in
  let B x := Z.land (u32 (x - i)) 7 in
  let P y := word p (Z.land (i + y) 15) in
  let p' := if j =? 0 then p
            else upd p (Z.land i 15) (word p (Z.land i 15) ⊞ (G1 (P 14) ⊞ P 9 ⊞ G0 (P 1))) in
  let b1 := upd b (B 7)
              (word b (B 7) ⊞ (word p' (Z.land i 15) ⊞ K (i + j) ⊞ S1 (word b (B 4))
               ⊞ Z.lxor (word b (B 6)) (Z.land (word b (B 4)) (Z.lxor (word b (B 5)) (word b (B 6)))))) in
  let b2 := upd b1 (B 3) (word b1 (B 3) ⊞ word b1 (B 7)) in
  let b3 := upd b2 (B 7)
              (word b2 (B 7)
               ⊞ (S0 (word b2 (B 0))
                  ⊞ Z.lor (Z.land (word b2 (B 0)) (word b2 (B 1)))
                          (Z.land (word b2 (B 2)) (Z.lxor (word b2 (B 0)) (word b2 (B 1)))))) in
  (b3, p').

Definition rounds_16 : list Z := [0; 1; 2; 3; 4; 5; 6; 7; 8; 9; 10; 11; 12; 13; 14; 15].

(** The body of the loop of [_hash]. *)
Definition group_rounds (s : list Z * list Z) (j : Z) : list Z * list Z :=
  fold_left (rtrf j) rounds_16 s.

(** [_hash]. *)
Definition hash_block (c : sha256_context) : sha256_context :=
  let '(b, p) := fold_left group_rounds [0; 16; 32; 48] (c.(hash), c.(buf)) in
  mkSha256 p (zip_with add32 c.(hash) b) c.(len_0) c.(len_1).

(** ** The interface *)

Definition sha256_init (c : sha256_context) : sha256_context :=
  mkSha256 c.(buf)
    [0x6a09e667; 0xbb67ae85; 0x3c6ef372; 0xa54ff53a; 0x510e527f; 0x9b05688c; 0x1f83d9ab; 0x5be0cd19]
    0 0.

(** [ctx->len[0] += sz] with its carry. *)
Definition add_length (sz : Z) (c : sha256_context) : sha256_context :=
  let l := c.(len_0) ⊞ sz in
  mkSha256 c.(buf) c.(hash) l (if l <? sz then c.(len_1) ⊞ 1 else c.(len_1)).

(** The locals [j], [l], [sz] and [i] of the loop. *)
Definition sha256_hash (dat : list Z) (sz : Z) : sha_prog unit :=
  i ← gets (fun c => Z.land c.(len_0) 63);
  modify (add_length sz);;
  r ← loop (S (Z.to_nat sz)) (fun '(j, l, sz, i) =>
    if sz >=? l then
      memcp i dat j l;;
      modify (fun c => set_buf (bswapw c.(buf) 16) c);;
      modify hash_block;;
      mret (inl (j ⊞ l, 64, u32 (sz - l), 0))
    else mret (inr (j, sz, i))) (0, 64 - i, sz, i);
  let '(j, sz, i) := r in
  memcp i dat j sz.

(** [while (i < 14) ctx->buf[i++] = 0]. *)
Fixpoint zero_words (k : nat) (i : Z) (p : list Z) : list Z :=
  match k with
  | O => p
  | S k' => if i <? 14 then zero_words k' (i + 1) (upd p i 0) else p
  end.

(** Octet [i] of the result. *)
Definition hash_octet (h : list Z) (i : Z) : Z :=
  Z.shiftr (word h (Z.shiftr i 2)) (Z.shiftl (Z.land (u32 (Z.lnot i)) 3) 3) mod 2^8.

(** The padding bit in the word that holds the end of the message. *)
Definition pad_word (j x : Z) : Z :=
  Z.lor (Z.land x (u32 (Z.shiftl 0xffffff80 j))) (u32 (Z.shiftl 0x80 j)).

(** The result and the context after it; every word of [buf] has been cleared. *)
Definition sha256_done (c : sha256_context) : list Z * sha256_context :=
  let i := Z.land c.(len_0) 63 in
  let j := Z.shiftl (Z.land (u32 (Z.lnot i)) 3) 3 in
  let p := bswapw c.(buf) (Z.to_nat (Z.shiftr (i + 3) 2)) in
  let p := upd p (Z.shiftr i 2) (pad_word j (word p (Z.shiftr i 2))) in
  let c := set_buf p c in
  let '(c, i) :=
    if i <? 56 then (c, Z.shiftr i 2 + 1)
    else
      let x := word c.(buf) 15 in
      (hash_block (set_buf (upd c.(buf) 15 (Z.lxor x (if i <? 60 then x else 0))) c), 0) in
  let p := zero_words 14 i c.(buf) in
  let p := upd p 14 (Z.lor (u32 (Z.shiftl c.(len_1) 3)) (Z.shiftr c.(len_0) 29)) in
  let p := upd p 15 (u32 (Z.shiftl c.(len_0) 3)) in
  let c := hash_block (set_buf p c) in
  (map (hash_octet c.(hash)) (map Z.of_nat (seq 0 32)), set_buf (repeat 0 16) c).

(** The calls of a client, from any context. *)
Definition sha256 (chunks : list (list Z)) : sha_prog (list Z) :=
  modify sha256_init;;
  foldr (fun d k => sha256_hash d (Z.of_nat (length d));; k) (mret tt) chunks;;
  c ← gets id;
  let '(r, c') := sha256_done c in
  modify (fun _ => c');;
  mret r.
