(* ===== verification/Sha256Total.v ===== *)
(** * SHA-256: octets, chunks and padding

    The octets of words in memory, the invariant of a context that has absorbed
    a message, and the theorems on the interface of [sha256.c]. *)

From Stdlib Require Import ZArith Lia String.
From stdpp Require Import base list.
From S2P Require Import Prelude Sha256 Sha256Spec.

#[local] Open Scope Z_scope.

Definition octet (b : Z) : Prop := 0 <= b < 256.
Definition w32 (w : Z) : Prop := 0 <= w < 2^32.

(** ** Bits *)

Lemma octet_bit b n : octet b -> 8 <= n -> Z.testbit b n = false.
Proof. intros H Hn. rewrite <- (Z.mod_small b (2^8)) by done. by apply Z.mod_pow2_bits_high. Qed.

Lemma w32_bit w n : w32 w -> 32 <= n -> Z.testbit w n = false.
Proof. intros H Hn. rewrite <- (Z.mod_small w (2^32)) by done. by apply Z.mod_pow2_bits_high. Qed.

Lemma u32_bit x n : 0 <= n -> Z.testbit (u32 x) n = (n <? 32) && Z.testbit x n.
Proof.
  intros Hn. unfold u32. destruct (n <? 32) eqn:E.
  - apply Z.mod_pow2_bits_low. lia.
  - apply Z.mod_pow2_bits_high. lia.
Qed.

Lemma u32_range x : w32 (u32 x).
Proof. unfold w32, u32. apply Z.mod_pos_bound. lia. Qed.

Ltac region :=
  repeat match goal with
  | |- context [?a <? ?b] =>
      first [replace (a <? b) with true by (symmetry; apply Z.ltb_lt; lia)
            |replace (a <? b) with false by (symmetry; apply Z.ltb_ge; lia)
            |destruct (a <? b) eqn:?]
  end.

Lemma le_word_bit b0 b1 b2 b3 n :
  octet b0 -> octet b1 -> octet b2 -> octet b3 -> 0 <= n ->
  Z.testbit (le_word b0 b1 b2 b3) n
  = if n <? 8 then Z.testbit b0 n else if n <? 16 then Z.testbit b1 (n - 8)
    else if n <? 24 then Z.testbit b2 (n - 16) else if n <? 32 then Z.testbit b3 (n - 24) else false.
Proof.
  intros H0 H1 H2 H3 Hn. unfold le_word. rewrite !Z.lor_spec, !Z.shiftl_spec by done.
  assert (forall b k, octet b -> k < 0 \/ 8 <= k -> Z.testbit b k = false) as Hf.
  { intros b k Hb [Hk|Hk]; [by apply Z.testbit_neg_r|by apply octet_bit]. }
  region; rewrite ?(Hf b0 n), ?(Hf b1 (n - 8)), ?(Hf b2 (n - 16)), ?(Hf b3 (n - 24)) by (done || lia);
    by rewrite ?orb_false_r, ?orb_false_l.
Qed.

Lemma le_word_range b0 b1 b2 b3 :
  octet b0 -> octet b1 -> octet b2 -> octet b3 -> w32 (le_word b0 b1 b2 b3).
Proof.
  intros H0 H1 H2 H3. replace (le_word b0 b1 b2 b3) with (u32 (le_word b0 b1 b2 b3)); [apply u32_range|].
  apply Z.bits_inj'. intros n Hn. rewrite u32_bit, le_word_bit by done. by region.
Qed.

Lemma RR_bit x k n :
  w32 x -> 0 < k < 32 -> 0 <= n ->
  Z.testbit (RR x k) n
  = if n <? 32 - k then Z.testbit x (n + k) else if n <? 32 then Z.testbit x (n + k - 32) else false.
Proof.
  intros Hx Hk Hn. unfold RR. rewrite Z.lor_spec, Z.shiftr_spec, u32_bit, Z.shiftl_spec by done.
  replace (n - (32 - k)) with (n + k - 32) by lia. region.
  - rewrite (Z.testbit_neg_r x (n + k - 32)) by lia. by rewrite andb_false_r, orb_false_r.
  - by rewrite (w32_bit x (n + k)) by (done || lia).
  - by rewrite (w32_bit x (n + k)) by (done || lia).
Qed.

Lemma ones_bit n : 0 <= n -> Z.testbit 255 n = (n <? 8).
Proof. intros Hn. change 255 with (Z.ones 8). by apply Z.testbit_ones_nonneg. Qed.

Lemma bswap_le b0 b1 b2 b3 :
  octet b0 -> octet b1 -> octet b2 -> octet b3 ->
  bswap (le_word b0 b1 b2 b3) = be_word b0 b1 b2 b3.
Proof.
  intros H0 H1 H2 H3. pose proof (le_word_range _ _ _ _ H0 H1 H2 H3) as Hw.
  assert (octet 255 /\ octet 0) as [Ha Hb] by (unfold octet; lia).
  apply Z.bits_inj'. intros n Hn. unfold bswap, be_word.
  change 0x00ff00ff with (le_word 255 0 255 0). change 0xff00ff00 with (le_word 0 255 0 255).
  rewrite Z.lor_spec, !Z.land_spec, !RR_bit by (done || lia).
  rewrite !(le_word_bit 255 0 255 0), !(le_word_bit 0 255 0 255), (le_word_bit b3 b2 b1 b0) by done.
  region; rewrite ?le_word_bit, ?Z.bits_0, ?ones_bit, ?andb_false_r, ?orb_false_r, ?orb_false_l by (done || lia);
    region; rewrite ?andb_true_r, ?andb_false_r, ?orb_false_r, ?orb_false_l; try done; f_equal; lia.
Qed.

Lemma le_bytes_octets w : Forall octet (le_bytes w).
Proof.
  assert (forall x, octet (Z.land x 255)) as H.
  { intros x. change 255 with (Z.ones 8). rewrite Z.land_ones by lia. apply Z.mod_pos_bound. lia. }
  unfold le_bytes. by rewrite !Forall_cons.
Qed.

Lemma le_bytes_word b0 b1 b2 b3 :
  octet b0 -> octet b1 -> octet b2 -> octet b3 -> le_bytes (le_word b0 b1 b2 b3) = [b0; b1; b2; b3].
Proof.
  intros H0 H1 H2 H3. unfold le_bytes.
  assert (forall b k, octet b -> 0 <= k -> (forall n, 0 <= n < 8 ->
    Z.testbit (le_word b0 b1 b2 b3) (n + k) = Z.testbit b n) ->
    Z.land (Z.shiftr (le_word b0 b1 b2 b3) k) 255 = b) as Hk.
  { intros b k Hb Hk H. apply Z.bits_inj'. intros n Hn.
    rewrite Z.land_spec, Z.shiftr_spec, ones_bit by done. region; [rewrite H by lia; by rewrite andb_true_r|].
    rewrite andb_false_r. symmetry. apply octet_bit; [done|lia]. }
  rewrite <- (Hk b0 0) at 5; [|done|lia|].
  - rewrite Z.shiftr_0_r. f_equal. f_equal; [|f_equal; [|f_equal]]; apply Hk; try done; try lia;
      intros n Hn; rewrite le_word_bit by (done || lia); region; f_equal; lia.
  - intros n Hn. rewrite le_word_bit by (done || lia). region. f_equal. lia.
Qed.

Lemma le_word_bytes w : w32 w ->
  le_word (Z.land w 255) (Z.land (Z.shiftr w 8) 255) (Z.land (Z.shiftr w 16) 255)
    (Z.land (Z.shiftr w 24) 255) = w.
Proof.
  intros Hw. pose proof (le_bytes_octets w) as Ho. unfold le_bytes in Ho.
  repeat (apply Forall_cons in Ho as [? Ho]). apply Z.bits_inj'. intros n Hn.
  rewrite le_word_bit by done. region; rewrite ?Z.land_spec, ?Z.shiftr_spec, ?ones_bit by lia; region;
    rewrite ?andb_true_r; try (f_equal; lia). symmetry. apply w32_bit; [done|lia].
Qed.

(** ** Lists of words and octets *)

(** Induction on a list of octets, a word at a time. *)
Lemma words_ind (P : list Z -> Prop) :
  P [] ->
  (forall b0 b1 b2 b3 r, P r -> P (b0 :: b1 :: b2 :: b3 :: r)) ->
  forall k l, length l = (4 * k)%nat -> P l.
Proof.
  intros H0 HS. induction k as [|k IH]; intros l Hl; [by destruct l|].
  destruct l as [|b0 [|b1 [|b2 [|b3 r]]]]; cbn in Hl; try lia. apply HS, IH. lia.
Qed.

Lemma le_words_length k l : length l = (4 * k)%nat -> length (le_words l) = k.
Proof.
  revert l. induction k as [|k IH]; intros l Hl; [by destruct l|].
  destruct l as [|b0 [|b1 [|b2 [|b3 r]]]]; cbn in Hl; try lia. cbn. rewrite IH; lia.
Qed.

Lemma be_words_length k l : length l = (4 * k)%nat -> length (be_words l) = k.
Proof.
  revert l. induction k as [|k IH]; intros l Hl; [by destruct l|].
  destruct l as [|b0 [|b1 [|b2 [|b3 r]]]]; cbn in Hl; try lia. cbn. rewrite IH; lia.
Qed.

Lemma be_words_app k l l' : length l = (4 * k)%nat -> be_words (l ++ l') = be_words l ++ be_words l'.
Proof. revert k l. apply words_ind; [done|]. intros b0 b1 b2 b3 r IH. cbn. by rewrite IH. Qed.

Lemma swap_words k l : Forall octet l -> length l = (4 * k)%nat -> map bswap (le_words l) = be_words l.
Proof.
  intros Ho Hl. revert k l Hl Ho. apply (words_ind (fun l => Forall octet l -> _)); [done|].
  intros b0 b1 b2 b3 r IH Ho. do 4 (apply Forall_cons in Ho as [? Ho]). cbn. by rewrite bswap_le, IH.
Qed.

Lemma le_words_range k l : Forall octet l -> length l = (4 * k)%nat -> Forall w32 (le_words l).
Proof.
  intros Ho Hl. revert k l Hl Ho. apply (words_ind (fun l => Forall octet l -> _)); [constructor|].
  intros b0 b1 b2 b3 r IH Ho. do 4 (apply Forall_cons in Ho as [? Ho]). cbn.
  constructor; [by apply le_word_range|auto].
Qed.

Lemma bytes_of_words k l : Forall octet l -> length l = (4 * k)%nat -> buf_bytes (le_words l) = l.
Proof.
  intros Ho Hl. revert k l Hl Ho. apply (words_ind (fun l => Forall octet l -> _)); [done|].
  intros b0 b1 b2 b3 r IH Ho. do 4 (apply Forall_cons in Ho as [? Ho]).
  unfold buf_bytes in *. cbn [le_words map concat]. by rewrite le_bytes_word, IH.
Qed.

Lemma words_of_bytes p : Forall w32 p -> le_words (buf_bytes p) = p.
Proof.
  induction 1 as [|w p Hw _ IH]; [done|]. unfold buf_bytes in *. cbn [map concat le_bytes app le_words].
  by rewrite le_word_bytes, IH.
Qed.

Lemma buf_bytes_octets p : Forall octet (buf_bytes p).
Proof. induction p as [|w p IH]; [constructor|]. apply Forall_app. split; [apply le_bytes_octets|done]. Qed.

Lemma buf_bytes_length p : length (buf_bytes p) = (4 * length p)%nat.
Proof. induction p as [|w p IH]; [done|]. unfold buf_bytes in *. cbn. lia. Qed.

Lemma word_lookup p k : (k < length p)%nat -> p !! k = Some (word p (Z.of_nat k)).
Proof. intros H. unfold word. rewrite Nat2Z.id, nth_lookup. by destruct (lookup_lt_is_Some_2 p k H) as [x ->]. Qed.

Lemma bswapw_spec k p :
  (k <= length p)%nat -> bswapw p k = map bswap (take k p) ++ drop k p.
Proof.
  revert p. induction k as [|k IH]; intros p Hk; [done|]. cbn [bswapw].
  rewrite IH by (unfold upd; rewrite length_insert; lia). unfold upd. rewrite Nat2Z.id.
  rewrite take_insert_ge by lia. rewrite drop_insert_ge, Nat.sub_diag by lia.
  rewrite (take_S_r p k (word p (Z.of_nat k))) by (apply word_lookup; lia).
  rewrite map_app, <- app_assoc. f_equal. cbn.
  rewrite (drop_S p (word p (Z.of_nat k))) by (apply word_lookup; lia). done.
Qed.

(** ** Whole blocks *)

(** The whole blocks of a message, and what is behind them. *)
Definition whole (m : list Z) : nat := length m / 64.
Definition rest (m : list Z) : list Z := drop (64 * whole m) m.

Lemma rest_length m : length (rest m) = (length m mod 64)%nat.
Proof. unfold rest, whole. rewrite length_drop. pose proof (Nat.div_mod_eq (length m) 64). lia. Qed.

Lemma blocks_S k l : blocks (S k) l = blocks k l ++ [take 64 (drop (64 * k) l)].
Proof.
  revert l. induction k as [|k IH]; intros l; [done|].
  change (blocks (S (S k)) l) with (take 64 l :: blocks (S k) (drop 64 l)). rewrite IH, drop_drop.
  by replace (64 * S k)%nat with (64 + 64 * k)%nat by lia.
Qed.

Lemma blocks_app k l l' : (64 * k <= length l)%nat -> blocks k (l ++ l') = blocks k l.
Proof.
  revert l. induction k as [|k IH]; intros l Hl; [done|]. cbn [blocks].
  rewrite take_app_le, drop_app_le by lia. rewrite IH; [done|]. rewrite length_drop. lia.
Qed.

(** A function of the blocks, from [h] on, as any hash of this family has it. *)
Definition fold_blocks {H} (f : H -> list Z -> H) (h : H) (l : list Z) : H :=
  fold_left f (blocks (whole l) l) h.

(** Octets that complete no block leave the value alone. *)
Lemma fold_partial {H} (f : H -> list Z -> H) h m x :
  (length (rest m) + length x < 64)%nat ->
  fold_blocks f h (m ++ x) = fold_blocks f h m /\ rest (m ++ x) = rest m ++ x.
Proof.
  rewrite rest_length. intros Hx. pose proof (Nat.div_mod_eq (length m) 64) as Hm.
  assert (length (m ++ x) / 64 = length m / 64)%nat as Hw.
  { symmetry. apply (Nat.div_unique _ _ _ (length m mod 64 + length x)); [done|]. rewrite length_app. lia. }
  unfold fold_blocks, rest, whole. rewrite Hw, blocks_app, drop_app_le by lia. done.
Qed.

(** Octets that complete one block. *)
Lemma fold_block {H} (f : H -> list Z -> H) h m x :
  (length (rest m) + length x = 64)%nat ->
  fold_blocks f h (m ++ x) = f (fold_blocks f h m) (rest m ++ x) /\ rest (m ++ x) = [].
Proof.
  intros Hx. pose proof (rest_length m) as Hr. pose proof (Nat.div_mod_eq (length m) 64) as Hm.
  assert (length (m ++ x) / 64 = S (length m / 64))%nat as Hw.
  { symmetry. apply (Nat.div_unique _ _ _ 0); [lia|]. rewrite length_app. lia. }
  unfold fold_blocks, whole. rewrite Hw, blocks_S, fold_left_app, blocks_app by lia. cbn [fold_left].
  rewrite drop_app_le by lia. fold (whole m). fold (rest m). rewrite take_ge by (rewrite length_app; lia).
  split; [done|]. unfold rest, whole. rewrite Hw. apply drop_ge. rewrite length_app. lia.
Qed.

Lemma digest_partial m x :
  (length (rest m) + length x < 64)%nat ->
  digest_of (m ++ x) = digest_of m /\ rest (m ++ x) = rest m ++ x.
Proof. apply (fold_partial process H_std). Qed.

Lemma digest_block m x :
  (length (rest m) + length x = 64)%nat ->
  digest_of (m ++ x) = process (digest_of m) (rest m ++ x) /\ rest (m ++ x) = [].
Proof. apply (fold_block process H_std). Qed.

Lemma digest_length m : length (digest_of m) = 8%nat.
Proof.
  unfold digest_of. generalize (blocks (length m / 64) m). intros bs.
  assert (forall h, length h = 8%nat -> length (fold_left process bs h) = 8%nat) as H; [|by apply H].
  induction bs as [|b bs IH]; intros h Hh; [done|]. apply IH. unfold process, compress.
  rewrite length_zip_with, Hh. done.
Qed.

(** ** A context that has absorbed a message *)

Record absorbed (m : list Z) (c : sha256_context) : Prop := mkAbsorbed {
  ab_hash : c.(hash) = digest_of m;
  ab_buf : length c.(buf) = 16%nat;
  ab_range : Forall w32 c.(buf);
  ab_rest : take (length (rest m)) (buf_bytes c.(buf)) = rest m
}.

Lemma rtrf_range j s i : Forall w32 s.2 -> Forall w32 (rtrf j s i).2.
Proof.
  destruct s as [b p]. intros H. unfold rtrf. cbn [snd] in *. destruct (j =? 0); [done|].
  apply Forall_insert; [done|]. apply u32_range.
Qed.

Lemma hash_block_range c : Forall w32 c.(buf) -> Forall w32 (hash_block c).(buf).
Proof.
  intros H. unfold hash_block.
  assert (forall js s, Forall w32 s.2 -> Forall w32 (fold_left group_rounds js s).2) as Hg.
  { induction js as [|j js IH]; intros s Hs; [done|]. apply IH. unfold group_rounds.
    generalize rounds_16. intros l. revert s Hs.
    induction l as [|i l IHl]; intros s Hs; [done|]. apply IHl. by apply rtrf_range. }
  specialize (Hg [0; 16; 32; 48] (c.(hash), c.(buf)) H). by destruct (fold_left _ _ _).
Qed.

(** [memcp] in bounds. *)
Definition spliced (i : nat) (x : list Z) (c : sha256_context) : sha256_context :=
  set_buf (le_words (take i (buf_bytes c.(buf)) ++ x ++ drop (i + length x) (buf_bytes c.(buf)))) c.

Lemma wp_memcp i dat j l c (Q : unit -> sha256_context -> Prop) E :
  0 <= i -> 0 <= j -> 0 <= l -> j + l <= Z.of_nat (length dat) -> i + l <= 64 -> length c.(buf) = 16%nat ->
  Q tt (spliced (Z.to_nat i) (take (Z.to_nat l) (drop (Z.to_nat j) dat)) c) ->
  wp strict (memcp i dat j l) Q E c.
Proof.
  intros Hi Hj Hl H1 H2 Hb HQ. unfold memcp. wp_step. apply wp_gets. cbv [id].
  rewrite buf_bytes_length, Hb. change (Z.of_nat (4 * 16)) with 64.
  destruct (Z.of_nat (length dat) <? j + l) eqn:E1; [lia|]. destruct (64 <? i + l) eqn:E2; [lia|].
  cbn [orb]. apply wp_modify. unfold spliced in HQ. rewrite length_take, length_drop in HQ.
  replace (Z.to_nat (i + l)) with (Z.to_nat i + Z.to_nat l `min` (length dat - Z.to_nat j))%nat by lia.
  exact HQ.
Qed.

Lemma splice_length i x (bs : list Z) :
  (i + length x <= 64)%nat -> length bs = 64%nat ->
  length (take i bs ++ x ++ drop (i + length x) bs) = 64%nat.
Proof. intros. rewrite !length_app, length_take, length_drop. lia. Qed.

Lemma splice_octets i x bs :
  Forall octet x -> Forall octet bs -> Forall octet (take i bs ++ x ++ drop (i + length x) bs).
Proof. intros. rewrite !Forall_app. auto using Forall_take, Forall_drop. Qed.

(** A block is completed and hashed. *)
Lemma absorb_block m c x :
  absorbed m c -> Forall octet x -> (length (rest m) + length x = 64)%nat ->
  absorbed (m ++ x)
    (hash_block (set_buf (bswapw (spliced (length (rest m)) x c).(buf) 16) (spliced (length (rest m)) x c))).
Proof.
  intros [H1 H2 H3 H4] Hx Hl. destruct (digest_block m x Hl) as [Hd Hr].
  assert (length (buf_bytes (buf c)) = 64%nat) as Hbl by (rewrite buf_bytes_length; lia).
  set (bs := take (length (rest m)) (buf_bytes (buf c)) ++ x
             ++ drop (length (rest m) + length x) (buf_bytes (buf c))).
  assert (bs = rest m ++ x) as Ebs.
  { unfold bs. rewrite H4, drop_ge by lia. by rewrite app_nil_r. }
  assert (Forall octet bs) as Hbs by (apply splice_octets; [done|apply buf_bytes_octets]).
  assert (length bs = (4 * 16)%nat) as Hbn by (apply splice_length; lia).
  assert (buf (spliced (length (rest m)) x c) = le_words bs) as Eb by done. rewrite Eb.
  rewrite bswapw_spec by (rewrite (le_words_length 16); done).
  rewrite take_ge, drop_ge by (rewrite (le_words_length 16); done). rewrite app_nil_r.
  rewrite (swap_words 16) by done.
  set (c' := set_buf (be_words bs) (spliced (length (rest m)) x c)).
  destruct (hash_block_spec c') as (G1 & G2 & G3 & _).
  { change (length (hash c) = 8%nat). rewrite H1. apply digest_length. }
  { change (length (be_words bs) = 16%nat). by apply be_words_length. }
  constructor; [|done| |by rewrite Hr].
  - rewrite G1, Hd, <- Ebs. unfold process. change (hash c') with (hash c).
    change (buf c') with (be_words bs). rewrite H1. reflexivity.
  - apply hash_block_range. cbn. clear - Hbs Hbn.
    revert Hbs. apply (words_ind (fun l => Forall octet l -> Forall w32 (be_words l))) with 16%nat; [constructor| |done].
    intros b0 b1 b2 b3 r IH Ho. do 4 (apply Forall_cons in Ho as [? Ho]). cbn.
    constructor; [by apply le_word_range|auto].
Qed.

(** The last octets of a chunk stay in the buffer. *)
Lemma absorb_partial m c x :
  absorbed m c -> Forall octet x -> (length (rest m) + length x < 64)%nat ->
  absorbed (m ++ x) (spliced (length (rest m)) x c).
Proof.
  intros [H1 H2 H3 H4] Hx Hl. destruct (digest_partial m x Hl) as [Hd Hr].
  assert (length (buf_bytes (buf c)) = 64%nat) as Hbl by (rewrite buf_bytes_length; lia).
  set (bs := take (length (rest m)) (buf_bytes (buf c)) ++ x
             ++ drop (length (rest m) + length x) (buf_bytes (buf c))).
  assert (Forall octet bs) as Hbs by (apply splice_octets; [done|apply buf_bytes_octets]).
  assert (length bs = (4 * 16)%nat) as Hbn by (apply splice_length; lia).
  assert (buf (spliced (length (rest m)) x c) = le_words bs) as Eb by done.
  constructor; rewrite ?Eb.
  - by rewrite Hd, <- H1.
  - by apply le_words_length.
  - by apply (le_words_range 16).
  - rewrite (bytes_of_words 16) by done. unfold bs. rewrite H4, Hr, app_assoc.
    apply take_app_length.
Qed.

(** ** Chunks *)

(** The 64-bit count of octets. *)
Definition counted (n : Z) (c : sha256_context) : Prop :=
  c.(len_0) = n mod 2^32 /\ c.(len_1) = n / 2^32 mod 2^32.

Lemma add_length_counted n sz c :
  0 <= sz < 2^32 -> counted n c -> counted (n + sz) (add_length sz c).
Proof.
  intros Hsz [H0 H1]. unfold counted, add_length, add32, u32. cbn [len_0 len_1]. rewrite H0, H1.
  pose proof (Z.div_mod n (2^32) ltac:(lia)) as Hn. pose proof (Z.mod_pos_bound n (2^32) ltac:(lia)) as Hb.
  rewrite Zplus_mod_idemp_l. split; [done|].
  destruct (Z_lt_le_dec (n mod 2^32 + sz) (2^32)) as [Hc|Hc].
  - assert ((n + sz) mod 2^32 = n mod 2^32 + sz) as Em.
    { symmetry. apply (Z.mod_unique_pos _ _ (n / 2^32)); lia. }
    assert ((n + sz) / 2^32 = n / 2^32) as ->.
    { symmetry. apply (Z.div_unique_pos _ _ _ (n mod 2^32 + sz)); lia. }
    rewrite Em. by assert ((n mod 2^32 + sz <? sz) = false) as -> by lia.
  - assert ((n + sz) mod 2^32 = n mod 2^32 + sz - 2^32) as Em.
    { symmetry. apply (Z.mod_unique_pos _ _ (n / 2^32 + 1)); lia. }
    assert ((n + sz) / 2^32 = n / 2^32 + 1) as ->.
    { symmetry. apply (Z.div_unique_pos _ _ _ (n mod 2^32 + sz - 2^32)); lia. }
    rewrite Em. assert ((n mod 2^32 + sz - 2^32 <? sz) = true) as -> by lia.
    by rewrite Zplus_mod_idemp_l.
Qed.

Lemma low_six_bits x : Z.land x 63 = x mod 64.
Proof. apply (Z.land_ones x 6). lia. Qed.

Lemma counted_rest m c :
  counted (Z.of_nat (length m)) c -> Z.land c.(len_0) 63 = Z.of_nat (length (rest m)).
Proof.
  intros [-> _]. rewrite low_six_bits, rest_length, Nat2Z.inj_mod.
  apply Z.mod_mod_divide. by exists (2^26).
Qed.

Lemma take_add {X} (l : list X) a b : take (a + b) l = take a l ++ take b (drop a l).
Proof. by rewrite take_take_drop. Qed.

(** Where the loop of [sha256_hash] stands. *)
Definition hash_inv (m dat : list Z) (x : Z * Z * Z * Z) (c : sha256_context) : Prop :=
  let '(j, l, sz, i) := x in
  0 <= j /\ 0 <= sz /\ j + sz = Z.of_nat (length dat)
  /\ absorbed (m ++ take (Z.to_nat j) dat) c
  /\ i = Z.of_nat (length (rest (m ++ take (Z.to_nat j) dat))) /\ l = 64 - i
  /\ counted (Z.of_nat (length m) + Z.of_nat (length dat)) c.

Lemma counted_same n c b h : counted n c -> counted n (mkSha256 b h c.(len_0) c.(len_1)).
Proof. done. Qed.

Lemma hash_turn m dat j l sz i c :
  Forall octet dat -> Z.of_nat (length dat) < 2^32 ->
  hash_inv m dat (j, l, sz, i) c -> l <= sz ->
  hash_inv m dat (j ⊞ l, 64, u32 (sz - l), 0)
    (hash_block (set_buf (bswapw (spliced (Z.to_nat i) (take (Z.to_nat l) (drop (Z.to_nat j) dat)) c).(buf) 16)
                   (spliced (Z.to_nat i) (take (Z.to_nat l) (drop (Z.to_nat j) dat)) c)))
  /\ u32 (sz - l) < sz.
Proof.
  intros Ho Hd (Hj & Hsz & Hjs & Ha & Hi & Hl & Hc) Hle.
  assert (length (rest (m ++ take (Z.to_nat j) dat)) < 64)%nat as Hr
    by (rewrite rest_length; apply Nat.mod_upper_bound; lia).
  unfold hash_inv. unfold add32, u32. rewrite !Z.mod_small by lia.
  set (x := take (Z.to_nat l) (drop (Z.to_nat j) dat)).
  assert (length x = Z.to_nat l) as Hx by (unfold x; rewrite length_take, length_drop; lia).
  assert (take (Z.to_nat (j + l)) dat = take (Z.to_nat j) dat ++ x) as ->.
  { rewrite Z2Nat.inj_add by lia. apply take_add. }
  rewrite app_assoc. assert (length (rest (m ++ take (Z.to_nat j) dat)) + length x = 64)%nat as H64 by lia.
  rewrite (proj2 (digest_block _ _ H64)). split; [|lia].
  replace (Z.to_nat i) with (length (rest (m ++ take (Z.to_nat j) dat))) by lia.
  pose proof (absorb_block _ c x Ha ltac:(unfold x; auto using Forall_take, Forall_drop) H64) as Hab.
  split_and!; try lia; try done.
Qed.

Lemma wp_sha256_hash m dat c :
  Forall octet dat -> Z.of_nat (length dat) < 2^32 ->
  absorbed m c -> counted (Z.of_nat (length m)) c ->
  wp strict (sha256_hash dat (Z.of_nat (length dat)))
    (fun _ c' => absorbed (m ++ dat) c' /\ counted (Z.of_nat (length (m ++ dat))) c') (fun _ => False) c.
Proof.
  intros Ho Hd Ha Hc. unfold sha256_hash. wp_step. apply wp_gets. rewrite (counted_rest m) by done.
  wp_step. apply wp_modify. wp_step.
  apply (wp_loop strict (hash_inv m dat) (fun '(j, l, sz, i) _ => Z.to_nat sz)).
  - intros [[[j l] sz] i] c1 Hi. destruct (sz >=? l) eqn:E.
    + destruct (hash_turn m dat j l sz i c1 Ho Hd Hi ltac:(lia)) as [Hi' Hlt].
      destruct Hi as (Hj & Hsz & Hjs & Ha1 & Hi & Hl & Hc1).
      assert (length (rest (m ++ take (Z.to_nat j) dat)) < 64)%nat as Hr
        by (rewrite rest_length; apply Nat.mod_upper_bound; lia).
      wp_step. apply wp_memcp; [lia..|apply (ab_buf _ _ Ha1)|]. wp_step. apply wp_modify. wp_step.
      apply wp_modify. wp_step. split; [exact Hi'|right]. pose proof (u32_range (sz - l)). unfold w32 in *. lia.
    + wp_step. destruct Hi as (Hj & Hsz & Hjs & Ha1 & Hi & Hl & Hc1).
      apply wp_memcp; [lia..|apply (ab_buf _ _ Ha1)|].
      set (x := take (Z.to_nat sz) (drop (Z.to_nat j) dat)).
      assert (length x = Z.to_nat sz) as Hx by (unfold x; rewrite length_take, length_drop; lia).
      assert (m ++ dat = (m ++ take (Z.to_nat j) dat) ++ x) as ->.
      { rewrite <- app_assoc. f_equal. unfold x. rewrite <- take_add, take_ge by lia. done. }
      replace (Z.to_nat i) with (length (rest (m ++ take (Z.to_nat j) dat))) by lia. split.
      * apply absorb_partial; [done|unfold x; auto using Forall_take, Forall_drop|lia].
      * replace (Z.of_nat (length ((m ++ take (Z.to_nat j) dat) ++ x)))
          with (Z.of_nat (length m) + Z.of_nat (length dat)); [done|].
        rewrite !length_app, length_take. lia.
  - unfold hash_inv. rewrite take_0, app_nil_r. split_and!; try lia; try done.
    + by destruct Ha.
    + apply add_length_counted; [lia|done].
  - right. lia.
Qed.

(** ** Padding *)

Lemma absorb_bit x c : Z.lor (Z.land x c) c = c.
Proof.
  apply Z.bits_inj'. intros n Hn. rewrite Z.lor_spec, Z.land_spec.
  by destruct (Z.testbit x n), (Z.testbit c n).
Qed.

Lemma le_word_land a0 a1 a2 a3 b0 b1 b2 b3 :
  octet a0 -> octet a1 -> octet a2 -> octet a3 -> octet b0 -> octet b1 -> octet b2 -> octet b3 ->
  Z.land (le_word a0 a1 a2 a3) (le_word b0 b1 b2 b3)
  = le_word (Z.land a0 b0) (Z.land a1 b1) (Z.land a2 b2) (Z.land a3 b3).
Proof.
  intros. apply Z.bits_inj'. intros n Hn. unfold le_word. rewrite Z.land_spec.
  fold (le_word a0 a1 a2 a3). fold (le_word b0 b1 b2 b3).
  rewrite !le_word_bit, !Z.lor_spec, !Z.shiftl_spec, !Z.land_spec by done.
  assert (forall b k, octet b -> k < 0 \/ 8 <= k -> Z.testbit b k = false) as Hf.
  { intros b k Hb [Hk|Hk]; [by apply Z.testbit_neg_r|by apply octet_bit]. }
  region; rewrite ?(Hf a0 n), ?(Hf a1 (n - 8)), ?(Hf a2 (n - 16)), ?(Hf a3 (n - 24)) by (done || lia);
    by rewrite ?orb_false_r, ?orb_false_l, ?andb_false_l.
Qed.

Lemma le_word_lor a0 a1 a2 a3 b0 b1 b2 b3 :
  Z.lor (le_word a0 a1 a2 a3) (le_word b0 b1 b2 b3)
  = le_word (Z.lor a0 b0) (Z.lor a1 b1) (Z.lor a2 b2) (Z.lor a3 b3).
Proof.
  apply Z.bits_inj'. intros n Hn. unfold le_word. rewrite !Z.lor_spec, !Z.shiftl_spec, !Z.lor_spec by done.
  by destruct (Z.testbit a0 n), (Z.testbit b0 n), (Z.testbit a1 _), (Z.testbit b1 _),
    (Z.testbit a2 _), (Z.testbit b2 _), (Z.testbit a3 _).
Qed.

(** The word that holds the end of the message, after its [s] octets. *)
Lemma pad_word_spec s b0 b1 b2 b3 :
  octet b0 -> octet b1 -> octet b2 -> octet b3 -> (s < 4)%nat ->
  pad_word (Z.shiftl (Z.land (u32 (Z.lnot (Z.of_nat s))) 3) 3) (be_word b0 b1 b2 b3)
  = match take s [b0; b1; b2; b3] ++ 0x80 :: repeat 0 (3 - s) with
    | [c0; c1; c2; c3] => be_word c0 c1 c2 c3
    | _ => 0
    end.
Proof.
  intros H0 H1 H2 H3 Hs. unfold pad_word, be_word.
  assert (octet 0 /\ octet 128 /\ octet 255) as (Ha & Hb & Hc) by (unfold octet; lia).
  assert (forall b, octet b -> Z.land b 255 = b) as Hm.
  { intros b Hb'. change 255 with (Z.ones 8). rewrite Z.land_ones by lia. by apply Z.mod_small. }
  destruct s as [|[|[|[|s]]]]; [..|lia]; cbn [take app repeat Nat.sub].
  - apply absorb_bit.
  - change (u32 (Z.shiftl 0xffffff80 _)) with (le_word 0 0 128 255).
    change (u32 (Z.shiftl 128 _)) with (le_word 0 0 128 0).
    by rewrite le_word_land, le_word_lor, Hm, !Z.land_0_r, absorb_bit, !Z.lor_0_r by done.
  - change (u32 (Z.shiftl 0xffffff80 _)) with (le_word 0 128 255 255).
    change (u32 (Z.shiftl 128 _)) with (le_word 0 128 0 0).
    by rewrite le_word_land, le_word_lor, !Hm, !Z.land_0_r, absorb_bit, !Z.lor_0_r by done.
  - change (u32 (Z.shiftl 0xffffff80 _)) with (le_word 128 255 255 255).
    change (u32 (Z.shiftl 128 _)) with (le_word 128 0 0 0).
    by rewrite le_word_land, le_word_lor, !Hm, absorb_bit, !Z.lor_0_r by done.
Qed.

(** The padding bit does not depend on the word when it starts it. *)
Lemma pad_word_fresh x : pad_word 24 x = be_word 0x80 0 0 0.
Proof. apply absorb_bit. Qed.

Lemma zero_words_spec k i p :
  (Z.to_nat i + k >= 14)%nat -> 0 <= i <= 14 -> length p = 16%nat ->
  zero_words k i p = take (Z.to_nat i) p ++ repeat 0 (14 - Z.to_nat i) ++ drop 14 p.
Proof.
  revert i p. induction k as [|k IH]; intros i p Hk Hi Hp; cbn [zero_words].
  { assert (Z.to_nat i = 14)%nat as -> by lia. cbn [Nat.sub repeat app]. by rewrite take_drop. }
  destruct (i <? 14) eqn:E.
  - rewrite IH by (unfold upd; rewrite ?length_insert; lia). unfold upd.
    rewrite Z2Nat.inj_add by lia. change (Z.to_nat 1) with 1%nat.
    rewrite Nat.add_1_r, (take_S_r _ _ 0) by (apply list_lookup_insert_eq; lia).
    rewrite take_insert_ge, drop_insert_lt by lia. rewrite <- app_assoc. f_equal.
    by replace (14 - Z.to_nat i)%nat with (S (14 - S (Z.to_nat i))) by lia.
  - assert (Z.to_nat i = 14)%nat as -> by lia. cbn [Nat.sub repeat app]. by rewrite take_drop.
Qed.

(** The last two words. *)
Lemma set_length_words p hi lo :
  length p = 16%nat -> upd (upd p 14 hi) 15 lo = take 14 p ++ [hi; lo].
Proof.
  intros Hp. do 17 (destruct p as [|? p]; try done).
Qed.

Lemma be_words_zero k : be_words (repeat 0 (4 * k)) = repeat 0 k.
Proof.
  induction k as [|k IH]; [done|]. replace (4 * S k)%nat with (4 + 4 * k)%nat by lia.
  cbn [repeat Nat.add be_words]. by rewrite IH.
Qed.

Lemma be_words_bytes w : w32 w -> be_words (be_bytes w) = [w].
Proof. intros H. unfold be_bytes, be_word. cbn. unfold be_word. by rewrite le_word_bytes. Qed.

(** The length in bits. *)
Lemma length_words n c :
  counted n c -> 0 <= n < 2^61 ->
  Z.lor (u32 (Z.shiftl c.(len_1) 3)) (Z.shiftr c.(len_0) 29) = 8 * n / 2^32
  /\ u32 (Z.shiftl c.(len_0) 3) = u32 (8 * n) /\ w32 (8 * n / 2^32).
Proof.
  intros [-> ->] Hn. rewrite !Z.shiftl_mul_pow2, Z.shiftr_div_pow2 by lia.
  pose proof (Z.div_mod n (2^32) ltac:(lia)) as Hd. pose proof (Z.mod_pos_bound n (2^32) ltac:(lia)) as Hb.
  set (q := n / 2^32) in *. set (r := n mod 2^32) in *.
  assert (0 <= q < 2^29) as Hq by lia. rewrite (Z.mod_small q) by lia.
  assert (8 * n / 2^32 = q * 8 + r / 2^29) as He.
  { symmetry. apply (Z.div_unique_pos _ _ _ (8 * (r mod 2^29))).
    - pose proof (Z.mod_pos_bound r (2^29) ltac:(lia)). lia.
    - pose proof (Z.div_mod r (2^29) ltac:(lia)). lia. }
  assert (0 <= r / 2^29 < 8) as Hr.
  { split; [apply Z.div_pos; lia|apply Z.div_lt_upper_bound; lia]. }
  split_and!.
  - unfold u32. rewrite (Z.mod_small (q * 2^3)) by lia. rewrite He. change (q * 2^3) with (q * 8).
    assert (Z.land (q * 8) (r / 2^29) = 0) as Hz; [|by rewrite Z.add_nocarry_lxor, Z.lxor_lor by done].
    apply Z.bits_inj'. intros k Hk. rewrite Z.land_spec, Z.bits_0.
    change 8 with (2^3). rewrite Z.mul_pow2_bits by lia.
    destruct (Z_lt_le_dec k 3) as [H|H]; [by rewrite Z.testbit_neg_r by lia|].
    rewrite <- (Z.mod_small (r / 2^29) (2^3)) by lia. rewrite Z.mod_pow2_bits_high by lia.
    apply andb_false_r.
  - unfold u32, r. change (2^3) with 8. rewrite Z.mul_mod_idemp_l by lia. f_equal. lia.
  - unfold w32. rewrite He. lia.
Qed.

Lemma le_words_app k l l' : length l = (4 * k)%nat -> le_words (l ++ l') = le_words l ++ le_words l'.
Proof. revert k l. apply words_ind; [done|]. intros b0 b1 b2 b3 r IH. cbn. by rewrite IH. Qed.

(** The shift of the padding bit depends on the place in its word alone. *)
Lemma pad_shift q s :
  Z.land (u32 (Z.lnot (Z.of_nat (4 * q + s)))) 3 = Z.land (u32 (Z.lnot (Z.of_nat s))) 3.
Proof.
  rewrite !(Z.land_ones _ 2) by lia. unfold u32, Z.lnot.
  assert (2^2 | 2^32) as Hdiv by by exists (2^30). rewrite !Z.mod_mod_divide by done.
  replace (Z.pred (- Z.of_nat (4 * q + s))) with (Z.pred (- Z.of_nat s) + (- Z.of_nat q) * 2^2) by lia.
  by rewrite Z.mod_add by lia.
Qed.

Lemma upd_middle (l : list Z) x l' v : upd (l ++ x :: l') (Z.of_nat (length l)) v = l ++ v :: l'.
Proof. unfold upd. rewrite Nat2Z.id, insert_app_r_alt, Nat.sub_diag by lia. done. Qed.
Lemma word_middle (l : list Z) x l' : word (l ++ x :: l') (Z.of_nat (length l)) = x.
Proof. unfold word. rewrite Nat2Z.id, app_nth2, Nat.sub_diag by lia. done. Qed.

(** The words with the padding bit, made in place. *)
Definition padded (i : Z) (p : list Z) : list Z :=
  let p := bswapw p (Z.to_nat (Z.shiftr (i + 3) 2)) in
  upd p (Z.shiftr i 2)
    (pad_word (Z.shiftl (Z.land (u32 (Z.lnot i)) 3) 3) (word p (Z.shiftr i 2))).

Lemma padded_spec (t0 : list Z) b0 b1 b2 b3 bs q s :
  length t0 = (4 * q)%nat -> (s < 4)%nat -> Forall octet t0 -> Forall octet [b0; b1; b2; b3] ->
  padded (Z.of_nat (4 * q + s)) (le_words t0 ++ le_word b0 b1 b2 b3 :: le_words bs)
  = be_words (t0 ++ take s [b0; b1; b2; b3] ++ 0x80 :: repeat 0 (3 - s)) ++ le_words bs.
Proof.
  intros Hq Hs Ho Hb. assert (length (le_words t0) = q) as Hl by by apply le_words_length.
  assert (length (be_words t0) = q) as Hl' by by apply be_words_length.
  do 4 (apply Forall_cons in Hb as [? Hb]). rewrite (be_words_app q) by done.
  unfold padded. rewrite pad_shift, !Z.shiftr_div_pow2 by lia.
  replace (Z.of_nat (4 * q + s) / 2^2) with (Z.of_nat (length (be_words t0))).
  2:{ rewrite Hl'. apply (Z.div_unique_pos _ _ _ (Z.of_nat s)); lia. }
  destruct s as [|s'].
  - replace (Z.to_nat ((Z.of_nat (4 * q + 0) + 3) / 2^2)) with q.
    2:{ rewrite <- (Nat2Z.id q) at 1. f_equal. apply (Z.div_unique_pos _ _ _ 3); lia. }
    rewrite bswapw_spec by (rewrite length_app; cbn; lia).
    rewrite take_app_le, drop_app_le, take_ge, drop_ge by lia. rewrite (swap_words q) by done. cbn [app].
    rewrite word_middle, upd_middle. change (Z.shiftl _ 3) with 24. rewrite pad_word_fresh, <- app_assoc. done.
  - replace (Z.to_nat ((Z.of_nat (4 * q + S s') + 3) / 2^2)) with (q + 1)%nat.
    2:{ rewrite <- (Nat2Z.id (q + 1)) at 1. f_equal. apply (Z.div_unique_pos _ _ _ (Z.of_nat s')); lia. }
    assert (bswapw (le_words t0 ++ le_word b0 b1 b2 b3 :: le_words bs) (q + 1)
            = be_words t0 ++ be_word b0 b1 b2 b3 :: le_words bs) as ->.
    { rewrite bswapw_spec by (rewrite length_app; cbn; lia). rewrite <- Hl, take_app_add, drop_app_add.
      rewrite map_app, (swap_words q) by done. rewrite <- app_assoc. cbn. by rewrite bswap_le. }
    rewrite word_middle, upd_middle, pad_word_spec by done. rewrite <- app_assoc. f_equal.
    by destruct s' as [|[|[|s']]]; [..|lia].
Qed.

(** The buffer of a context that has absorbed [m], with the padding bit. *)
Lemma padded_absorbed m c :
  absorbed m c ->
  exists tl, padded (Z.of_nat (length (rest m))) c.(buf)
             = be_words (rest m ++ 0x80 :: repeat 0 (3 - length (rest m) mod 4)) ++ tl.
Proof.
  intros [H1 H2 H3 H4]. set (bs := buf_bytes c.(buf)) in *. set (r := length (rest m)) in *.
  assert (r < 64)%nat as Hr by (unfold r; rewrite rest_length; apply Nat.mod_upper_bound; lia).
  assert (length bs = 64%nat) as Hbs by (unfold bs; rewrite buf_bytes_length; lia).
  pose proof (Nat.div_mod_eq r 4) as Hdm. pose proof (Nat.mod_upper_bound r 4 ltac:(lia)) as Hs.
  set (q := (r / 4)%nat) in *. set (s := (r mod 4)%nat) in *.
  assert (Forall octet bs) as Ho by apply buf_bytes_octets.
  rewrite <- (take_drop (4 * q) bs) in Ho. apply Forall_app in Ho as [Ho1 Ho2].
  assert (c.(buf) = le_words (take (4 * q) bs ++ drop (4 * q) bs)) as ->.
  { rewrite take_drop. unfold bs. by rewrite words_of_bytes. }
  rewrite (le_words_app q) by (rewrite length_take; lia).
  assert (length (drop (4 * q) bs) >= 4)%nat as Hd by (rewrite length_drop; lia).
  assert (rest m = take (4 * q) bs ++ take s (drop (4 * q) bs)) as ->.
  { rewrite <- H4, Hdm. apply take_add. }
  destruct (drop (4 * q) bs) as [|b0 [|b1 [|b2 [|b3 bs']]]] eqn:Ed; cbn in Hd; try lia.
  cbn [le_words]. exists (le_words bs'). rewrite Hdm at 1. rewrite padded_spec.
  - rewrite <- app_assoc. do 3 f_equal. destruct s as [|[|[|[|s]]]]; try done. lia.
  - rewrite length_take. lia.
  - done.
  - done.
  - by apply (Forall_take _ 4) in Ho2.
Qed.

Lemma pad_repeat a b : repeat 0 (a + b) = repeat 0 a ++ repeat 0 b :> list Z.
Proof. apply repeat_app. Qed.

Lemma be_bytes_length w : length (be_bytes w) = 4%nat.
Proof. done. Qed.

(** The block that ends with the length. *)
Lemma length_block x k n c :
  counted n c -> 0 <= n < 2^61 -> length x = (4 * k)%nat ->
  be_words (x ++ be_bytes (8 * n / 2^32) ++ be_bytes (u32 (8 * n)))
  = be_words x ++ [Z.lor (u32 (Z.shiftl c.(len_1) 3)) (Z.shiftr c.(len_0) 29); u32 (Z.shiftl c.(len_0) 3)].
Proof.
  intros Hc Hn Hx. destruct (length_words n c Hc Hn) as (-> & -> & Hw).
  rewrite (be_words_app k), (be_words_app 1) by done. rewrite !be_words_bytes by (done || apply u32_range).
  done.
Qed.

(** The result in octets. *)
Lemma hash_octets h :
  length h = 8%nat -> map (hash_octet h) (map Z.of_nat (seq 0 32)) = concat (map be_bytes h).
Proof.
  intros Hh. assert (forall x, Z.land x 255 = x mod 2^8) as Hm by (intros; apply (Z.land_ones _ 8); lia).
  do 9 (destruct h as [|? h]; try done). unfold be_bytes, le_bytes. cbn [map concat rev app].
  rewrite !Hm. reflexivity.
Qed.

(** The zeros, the length and the last block, from word [i] on. *)
Definition finish (i : Z) (c : sha256_context) : sha256_context :=
  hash_block (set_buf
    (upd (upd (zero_words 14 i c.(buf)) 14 (Z.lor (u32 (Z.shiftl c.(len_1) 3)) (Z.shiftr c.(len_0) 29)))
       15 (u32 (Z.shiftl c.(len_0) 3))) c).

Lemma sha256_done_unfold c :
  let i := Z.land c.(len_0) 63 in
  let c1 := set_buf (padded i c.(buf)) c in
  let x := word c1.(buf) 15 in
  let c2 := if i <? 56 then finish (Z.shiftr i 2 + 1) c1
            else finish 0 (hash_block (set_buf (upd c1.(buf) 15 (Z.lxor x (if i <? 60 then x else 0))) c1)) in
  sha256_done c = (map (hash_octet c2.(hash)) (map Z.of_nat (seq 0 32)), set_buf (repeat 0 16) c2).
Proof. unfold sha256_done, finish, padded. by destruct (_ <? 56). Qed.

Lemma finish_spec n c i Y tl :
  counted n c -> 0 <= n < 2^61 -> length c.(hash) = 8%nat -> length c.(buf) = 16%nat ->
  (i <= 14)%nat -> length Y = (4 * i)%nat -> c.(buf) = be_words Y ++ tl ->
  (finish (Z.of_nat i) c).(hash)
  = process c.(hash) (Y ++ repeat 0 (4 * (14 - i)) ++ be_bytes (8 * n / 2^32) ++ be_bytes (u32 (8 * n))).
Proof.
  intros Hc Hn Hh Hb Hi HY Ebuf. unfold finish.
  set (p := upd _ _ _).
  assert (length (be_words Y) = i) as Hl by by apply be_words_length.
  assert (p = be_words (Y ++ repeat 0 (4 * (14 - i)) ++ be_bytes (8 * n / 2^32) ++ be_bytes (u32 (8 * n)))) as Hp.
  { unfold p. rewrite zero_words_spec by lia. rewrite Nat2Z.id, Ebuf, take_app_le, take_ge by lia.
    rewrite set_length_words.
    - rewrite (app_assoc Y), (length_block _ 14 n c Hc Hn) by (rewrite length_app, repeat_length; lia).
      rewrite (be_words_app i), be_words_zero by done. f_equal.
      rewrite app_assoc, take_app_le, take_ge by (rewrite length_app, repeat_length; lia). done.
    - rewrite !length_app, repeat_length, length_drop, <- Ebuf. lia. }
  destruct (hash_block_spec (set_buf p c)) as (-> & _); [done| |by rewrite Hp].
  cbn. rewrite Hp. apply be_words_length. rewrite !length_app, repeat_length, !be_bytes_length. lia.
Qed.

(** The number of zeros behind the padding bit. *)
Lemma pad_zeros m :
  Z.to_nat ((55 - Z.of_nat (length m)) mod 64)
  = (if (length (rest m) <? 56)%nat then 55 - length (rest m) else 119 - length (rest m))%nat.
Proof.
  rewrite rest_length. pose proof (Nat.div_mod_eq (length m) 64) as Hd.
  pose proof (Nat.mod_upper_bound (length m) 64 ltac:(lia)) as Hb.
  set (q := (length m / 64)%nat) in *. set (r := (length m mod 64)%nat) in *.
  destruct (r <? 56)%nat eqn:E.
  - apply Nat.ltb_lt in E. rewrite <- (Nat2Z.id (55 - r)) at 1. f_equal. symmetry.
    apply (Z.mod_unique_pos _ _ (- Z.of_nat q)); lia.
  - apply Nat.ltb_ge in E. rewrite <- (Nat2Z.id (119 - r)) at 1. f_equal. symmetry.
    apply (Z.mod_unique_pos _ _ (- Z.of_nat q - 1)); lia.
Qed.

Lemma pad_split m : exists x, pad m = m ++ x
  /\ x = 0x80 :: repeat 0 (Z.to_nat ((55 - Z.of_nat (length m)) mod 64))
         ++ be_bytes (8 * Z.of_nat (length m) / 2^32) ++ be_bytes (u32 (8 * Z.of_nat (length m))).
Proof. by eexists. Qed.

Lemma shiftr_word r : Z.shiftr (Z.of_nat r) 2 = Z.of_nat (r / 4).
Proof. rewrite Z.shiftr_div_pow2 by lia. by rewrite Nat2Z.inj_div. Qed.

Lemma hash_block_process c blk :
  length c.(hash) = 8%nat -> length blk = (4 * 16)%nat -> c.(buf) = be_words blk ->
  (hash_block c).(hash) = process c.(hash) blk
  /\ length (hash_block c).(hash) = 8%nat /\ length (hash_block c).(buf) = 16%nat
  /\ (hash_block c).(len_0) = c.(len_0) /\ (hash_block c).(len_1) = c.(len_1).
Proof.
  intros H1 H2 H3. unfold process. rewrite <- H3. apply hash_block_spec; [done|].
  rewrite H3. by apply be_words_length.
Qed.

#[local] Strategy opaque [compress process digest_of hash_block finish].

Section closing.
Context (m : list Z) (c : sha256_context).
Context (Ha : absorbed m c) (Hc : counted (Z.of_nat (length m)) c) (Hn : Z.of_nat (length m) < 2^61).
Let r := length (rest m).
Let Y := rest m ++ 0x80 :: repeat 0 (3 - r mod 4).

Lemma Y_length : length Y = (4 * (r / 4 + 1))%nat.
Proof using Type.
  unfold Y. rewrite length_app. cbn [length]. rewrite repeat_length. fold r.
  pose proof (Nat.div_mod_eq r 4). pose proof (Nat.mod_upper_bound r 4 ltac:(lia)). lia.
Qed.

Lemma rest_small : (r < 64)%nat.
Proof using Type. unfold r. rewrite rest_length. apply Nat.mod_upper_bound. lia. Qed.

Lemma hash_length : length c.(hash) = 8%nat.
Proof using Ha. rewrite (ab_hash _ _ Ha). apply digest_length. Qed.

Lemma padded_length : length (padded (Z.of_nat r) c.(buf)) = 16%nat.
Proof using Ha.
  pose proof (ab_buf _ _ Ha) as Hb. pose proof rest_small. unfold padded, upd. rewrite length_insert.
  rewrite bswapw_spec.
  - rewrite length_app, length_map, length_take, length_drop. lia.
  - rewrite Z.shiftr_div_pow2 by lia. assert ((Z.of_nat r + 3) / 2^2 < 17); [|lia].
    apply Z.div_lt_upper_bound; lia.
Qed.

(** The length fits behind the padding bit. *)
Lemma one_block :
  (r < 56)%nat ->
  (finish (Z.shiftr (Z.of_nat r) 2 + 1) (set_buf (padded (Z.of_nat r) c.(buf)) c)).(hash) = digest_of (pad m).
Proof using Ha Hc Hn.
  intros Hr. destruct (padded_absorbed m c Ha) as (tl & Hp). fold r in Hp. fold Y in Hp.
  assert (r / 4 < 14)%nat as Hq by (apply Nat.Div0.div_lt_upper_bound; lia).
  rewrite shiftr_word. replace (Z.of_nat (r / 4) + 1) with (Z.of_nat (r / 4 + 1)) by lia.
  erewrite (finish_spec (Z.of_nat (length m)) _ (r / 4 + 1) Y tl);
    [|exact Hc|lia|exact hash_length|exact padded_length|lia|apply Y_length|exact Hp].
  destruct (pad_split m) as (x & -> & Hx). rewrite pad_zeros in Hx. fold r in Hx.
  assert ((r <? 56)%nat = true) as Ht by (by apply Nat.ltb_lt). rewrite Ht in Hx.
  assert (rest m ++ x = Y ++ repeat 0 (4 * (14 - (r / 4 + 1)))
            ++ be_bytes (8 * Z.of_nat (length m) / 2^32) ++ be_bytes (u32 (8 * Z.of_nat (length m)))) as Hrx.
  { unfold Y. rewrite Hx, <- app_assoc. cbn [app]. do 2 f_equal. rewrite (app_assoc (repeat 0 (3 - r mod 4))), <- repeat_app.
    f_equal. f_equal. pose proof (Nat.div_mod_eq r 4). pose proof (Nat.mod_upper_bound r 4 ltac:(lia)). lia. }
  rewrite <- Hrx. destruct (digest_block m x) as [-> _].
  - fold r. rewrite Hx. cbn [length]. rewrite !length_app, repeat_length, !be_bytes_length. lia.
  - change (hash (set_buf _ c)) with (hash c). by rewrite (ab_hash _ _ Ha).
Qed.

(** The block of the padding bit has no room for the length. *)
Definition cleared : list Z :=
  let p := padded (Z.of_nat r) c.(buf) in
  upd p 15 (Z.lxor (word p 15) (if Z.of_nat r <? 60 then word p 15 else 0)).

Lemma cleared_spec : (56 <= r)%nat -> cleared = be_words (rest m ++ 0x80 :: repeat 0 (63 - r)).
Proof using Ha.
  intros Hr. pose proof rest_small as Hs. pose proof padded_length as Hl.
  destruct (padded_absorbed m c Ha) as (tl & Hp). fold r in Hp. fold Y in Hp.
  pose proof (be_words_length _ _ Y_length) as HY. unfold cleared. rewrite Hp in *. rewrite length_app in Hl.
  pose proof (Nat.div_mod_eq r 4) as Hd. pose proof (Nat.mod_upper_bound r 4 ltac:(lia)).
  assert (rest m ++ 0x80 :: repeat 0 (63 - r) = Y ++ repeat 0 (4 * (15 - r / 4))) as ->.
  { unfold Y. rewrite <- app_assoc. cbn [app]. do 2 f_equal. rewrite <- repeat_app. f_equal. lia. }
  rewrite (be_words_app _ _ _ Y_length), be_words_zero.
  destruct (Z.of_nat r <? 60) eqn:E.
  - assert (r / 4 = 14)%nat as Hq by lia. rewrite Hq in *. destruct tl as [|t [|]]; cbn [length] in Hl; try lia.
    replace 15 with (Z.of_nat (length (be_words Y))) by lia. by rewrite upd_middle, Z.lxor_nilpotent.
  - assert (r / 4 = 15)%nat as Hq by lia. rewrite Hq in *. destruct tl; cbn [length] in Hl; [|lia].
    cbn [Nat.sub repeat]. rewrite app_nil_r, Z.lxor_0_r. unfold upd. apply list_insert_id.
    apply (word_lookup _ 15). lia.
Qed.

Lemma two_blocks :
  (56 <= r)%nat -> (finish 0 (hash_block (set_buf cleared c))).(hash) = digest_of (pad m).
Proof using Ha Hc Hn.
  intros Hr. pose proof rest_small as Hs. set (x1 := 0x80 :: repeat 0 (63 - r)).
  destruct (digest_block m x1) as [Hd1 Hr1].
  { fold r. unfold x1. cbn [length]. rewrite repeat_length. lia. }
  assert (length (rest m ++ x1) = (4 * 16)%nat) as Hx1.
  { rewrite length_app. unfold x1. cbn [length]. rewrite repeat_length. fold r. lia. }
  destruct (hash_block_process (set_buf cleared c) (rest m ++ x1)) as (G1 & G2 & G3 & G4 & G5).
  { exact hash_length. }
  { done. }
  { exact (cleared_spec Hr). }
  set (c1 := hash_block (set_buf cleared c)) in *. clearbody c1. cbn [hash len_0 len_1 set_buf] in *.
  rewrite (ab_hash _ _ Ha), <- Hd1 in G1. change 0 with (Z.of_nat 0) at 1.
  rewrite (finish_spec (Z.of_nat (length m)) c1 0 [] (buf c1));
    [|unfold counted; rewrite G4, G5; exact Hc|lia|exact G2|exact G3|lia|done|done].
  rewrite G1. cbn [app]. destruct (pad_split m) as (x & -> & Hx). rewrite pad_zeros in Hx. fold r in Hx.
  assert ((r <? 56)%nat = false) as Ht by (by apply Nat.ltb_ge). rewrite Ht in Hx.
  set (x2 := repeat 0 (4 * (14 - 0)) ++ be_bytes (8 * Z.of_nat (length m) / 2^32)
             ++ be_bytes (u32 (8 * Z.of_nat (length m)))).
  assert (m ++ x = (m ++ x1) ++ x2) as ->.
  { rewrite <- app_assoc. f_equal. rewrite Hx. unfold x1, x2. cbn [app]. f_equal.
    rewrite (app_assoc (repeat 0 (63 - r))), <- repeat_app. f_equal. f_equal. lia. }
  destruct (digest_block (m ++ x1) x2) as [-> _]; [rewrite Hr1; done|]. by rewrite Hr1.
Qed.

Lemma done_spec :
  (sha256_done c).1 = sha256_std m /\ (sha256_done c).2.(buf) = repeat 0 16.
Proof using Ha Hc Hn.
  pose proof (sha256_done_unfold c) as H. cbn zeta in H. rewrite (counted_rest m c Hc) in H. fold r in H.
  rewrite H. clear H. split; [|done]. cbn [fst]. unfold sha256_std.
  match goal with |- map (hash_octet ?h) _ = _ => assert (h = digest_of (pad m)) as -> end;
    [|apply hash_octets, digest_length].
  destruct (Z.of_nat r <? 56) eqn:E; [apply one_block; lia|apply two_blocks; lia].
Qed.
End closing.

(** ** The theorems *)

Lemma absorbed_init c :
  length c.(buf) = 16%nat -> Forall w32 c.(buf) ->
  absorbed [] (sha256_init c) /\ counted 0 (sha256_init c).
Proof. intros H1 H2. split; [|done]. constructor; [apply table_H|done|done|done]. Qed.

Lemma wp_chunks chunks m c :
  Forall (fun d => Forall octet d /\ Z.of_nat (length d) < 2^32) chunks ->
  absorbed m c -> counted (Z.of_nat (length m)) c ->
  wp strict (foldr (fun d k => sha256_hash d (Z.of_nat (length d));; k) (mret tt) chunks)
    (fun _ c' => absorbed (m ++ concat chunks) c' /\ counted (Z.of_nat (length (m ++ concat chunks))) c')
    (fun _ => False) c.
Proof.
  intros Hd. revert m c. induction Hd as [|d ds [Ho Hl] _ IH]; intros m c Ha Hc; cbn [foldr concat].
  { rewrite app_nil_r. by wp_steps. }
  wp_step. eapply wp_mono; [by apply (wp_sha256_hash m)| |done]. cbv beta. intros [] c1 [H1 H2].
  rewrite app_assoc. by apply IH.
Qed.

(** C25: from any context, [sha256_init], any number of calls of [sha256_hash]
    and [sha256_done] return the SHA-256 digest, as the standard defines it, of
    the concatenation of the chunks; however the message is cut, no octet is
    read or written out of bounds, every loop ends, and the words of the context
    that held the message are cleared. *)
Theorem sha256_correct (chunks : list (list Z)) (c : sha256_context) :
  length c.(buf) = 16%nat -> Forall w32 c.(buf) ->
  Forall (fun d => Forall octet d /\ Z.of_nat (length d) < 2^32) chunks ->
  Z.of_nat (length (concat chunks)) < 2^61 ->
  wp strict (sha256 chunks)
    (fun r c' => r = sha256_std (concat chunks) /\ c'.(buf) = repeat 0 16) (fun _ => False) c.
Proof.
  intros H1 H2 Hd Hn. destruct (absorbed_init c H1 H2) as [Ha Hc]. unfold sha256.
  wp_step. apply wp_modify. wp_step. eapply wp_mono; [by apply (wp_chunks chunks [])| |done].
  cbv beta. cbn [app]. intros [] c1 [H3 H4]. wp_step. apply wp_gets.
  destruct (done_spec _ _ H3 H4 Hn) as [H5 H6]. cbv [id]. destruct (sha256_done c1) as [r c2]. by wp_steps.
Qed.

Lemma sha256_correct_witness :
  wp strict (sha256 [bytes_of "a"; bytes_of "bc"])
    (fun r c' => r = sha256_std (bytes_of "abc") /\ c'.(buf) = repeat 0 16) (fun _ => False)
    (mkSha256 (repeat 7 16) (repeat 7 8) 7 7).
Proof.
  apply (sha256_correct [bytes_of "a"; bytes_of "bc"] (mkSha256 (repeat 7 16) (repeat 7 8) 7 7)).
  - reflexivity.
  - repeat (apply Forall_cons; split; [split; [discriminate|reflexivity]|]). apply Forall_nil_2.
  - apply (Forall_impl (fun d => forallb (fun b => (0 <=? b) && (b <? 256)) d = true /\ (length d < 9)%nat)).
    + by repeat constructor.
    + intros d [Hd Hl]. split; [|lia]. apply Forall_forall. intros b Hb. rewrite forallb_forall in Hd.
      unfold octet. specialize (Hd b ltac:(by apply list_elem_of_In)). lia.
  - reflexivity.
Defined.

Lemma roots_exact t :
  (t < 64)%nat ->
  let x := nth t primes 0 * 2^96 in let r := icbrt 36 0 x in r * r * r <= x < (r + 1) * (r + 1) * (r + 1).
Proof.
  intros Ht. set (ok := fun t => let x := nth t primes 0 * 2^96 in let r := icbrt 36 0 x in
    (r * r * r <=? x) && (x <? (r + 1) * (r + 1) * (r + 1))).
  assert (forallb ok (seq 0 64) = true) as Hall by (vm_compute; reflexivity).
  rewrite forallb_forall in Hall. specialize (Hall t ltac:(apply in_seq; lia)). unfold ok in Hall.
  cbv zeta in Hall. apply andb_true_iff in Hall as [H1 H2]. split; [by apply Z.leb_le|by apply Z.ltb_lt].
Qed.

(** The 64 words of the table [K] are the first 32 bits of the fractional
    parts of the cube roots of the first 64 primes, and [sha256_init] sets the
    hash to those of the square roots of the first eight. *)
Theorem sha256_constants (c : sha256_context) (t : nat) :
  (t < 64)%nat ->
  (exists r, r * r * r <= nth t primes 0 * 2^96 < (r + 1) * (r + 1) * (r + 1) /\ K (Z.of_nat t) = r mod 2^32)
  /\ (sha256_init c).(hash) = map (fun p => Z.sqrt (p * 2^64) mod 2^32) (take 8 primes)
  /\ length primes = 64%nat.
Proof.
  intros Ht. split; [|by rewrite table_H].
  exists (icbrt 36 0 (nth t primes 0 * 2^96)).
  pose proof (roots_exact t Ht) as [H1 H2]. rewrite table_K by done. done.
Qed.

Lemma sha256_constants_witness :
  (exists r, r * r * r <= nth 63 primes 0 * 2^96 < (r + 1) * (r + 1) * (r + 1)
             /\ K (Z.of_nat 63) = r mod 2^32)
  /\ (sha256_init (mkSha256 [] [] 0 0)).(hash) = map (fun p => Z.sqrt (p * 2^64) mod 2^32) (take 8 primes)
  /\ length primes = 64%nat.
Proof. apply (sha256_constants (mkSha256 [] [] 0 0) 63). lia. Defined.
