(* ===== verification/Sha1.v ===== *)
(** * SHA-1 ([thirdparties/sha1/sha1.c])

    The context keeps five words of state, the length in bits as two words with
    a carry, and a buffer of 64 octets.  [SHA1Transform] is unrolled: its 80
    operations rename the five working variables instead of moving them, and
    keep the last sixteen words of the message schedule in the block.  The
    machine is little-endian. *)

From Stdlib Require Import ZArith Lia String.
From stdpp Require Import base list.
From S2P Require Import Prelude Sha256.

#[local] Open Scope Z_scope.

Record SHA1_CTX : Type := mkSha1 {
  sha1_state : list Z;
  count_0 : Z;
  count_1 : Z;
  sha1_buffer : list Z
}.

Definition sha1_prog : Type -> Type := prog SHA1_CTX.

Definition set_sha1_state s (c : SHA1_CTX) := mkSha1 s c.(count_0) c.(count_1) c.(sha1_buffer).
Definition set_sha1_buffer b (c : SHA1_CTX) := mkSha1 c.(sha1_state) c.(count_0) c.(count_1) b.

(** ** One block *)

Definition rol (value bits : Z) : Z := Z.lor (u32 (Z.shiftl value bits)) (Z.shiftr value (32 - bits)).

(** [blk0(i)] and [blk(i)]: the word, which is also put into the block. *)
Definition blk0 (block : list Z) (i : Z) : Z :=
  let x := word block i in
  Z.lor (Z.land (rol x 24) 0xFF00FF00) (Z.land (rol x 8) 0x00FF00FF).
Definition blk (block : list Z) (i : Z) : Z :=
  rol (Z.lxor (Z.lxor (Z.lxor (word block (Z.land (i + 13) 15)) (word block (Z.land (i + 8) 15)))
                      (word block (Z.land (i + 2) 15)))
              (word block (Z.land i 15))) 1.

Inductive sha1_macro : Type := R0 | R1 | R2 | R3 | R4.

(** The function and the constant of a macro. *)
Definition macro_f (r : sha1_macro) (w x y : Z) : Z :=
  match r with
  | R0 | R1 => Z.lxor (Z.land w (Z.lxor x y)) y
  | R2 | R4 => Z.lxor (Z.lxor w x) y
  | R3 => Z.lor (Z.land (Z.lor w x) y) (Z.land w x)
  end.
Definition macro_K (r : sha1_macro) : Z :=
  match r with R0 | R1 => 0x5A827999 | R2 => 0x6ED9EBA1 | R3 => 0x8F1BBCDC | R4 => 0xCA62C1D6 end.

(** [Rk(v, w, x, y, z, i)] on the variables [a] to [e], which have the numbers 0
    to 4, and the block. *)
Definition run_macro (r : sha1_macro) (args : Z * Z * Z * Z * Z) (i : Z) (s : list Z * list Z) :
    list Z * list Z :=
  let '(v, w, x, y, z) := args in
  let '(t, block) := s in
  let m := match r with R0 => blk0 block i | _ => blk block i end in
  let block := upd block (match r with R0 => i | _ => Z.land i 15 end) m in
  let t := upd t z (word t z ⊞ (macro_f r (word t w) (word t x) (word t y) ⊞ m ⊞ macro_K r
                                ⊞ rol (word t v) 5)) in
  let t := upd t w (rol (word t w) 30) in
  (t, block).

(** The arguments of the [i]-th of the unrolled calls: [(a, b, c, d, e)],
    [(e, a, b, c, d)] and so on, in turn. *)
Definition call_args (i : Z) : Z * Z * Z * Z * Z :=
  match i mod 5 with
  | 0 => (0, 1, 2, 3, 4)
  | 1 => (4, 0, 1, 2, 3)
  | 2 => (3, 4, 0, 1, 2)
  | 3 => (2, 3, 4, 0, 1)
  | _ => (1, 2, 3, 4, 0)
  end.

(** The macro of the [i]-th call. *)
Definition call_macro (i : Z) : sha1_macro :=
  if i <? 16 then R0 else if i <? 20 then R1 else if i <? 40 then R2 else if i <? 60 then R3 else R4.

Definition sha1_call (s : list Z * list Z) (i : nat) : list Z * list Z :=
  run_macro (call_macro (Z.of_nat i)) (call_args (Z.of_nat i)) (Z.of_nat i) s.

(** The new state; [buffer] has 64 octets. *)
Definition SHA1Transform (state buffer : list Z) : list Z :=
  let '(t, _) := fold_left sha1_call (seq 0 80) (state, le_words buffer) in
  zip_with add32 state t.

(** ** The interface *)

Definition SHA1Init (c : SHA1_CTX) : SHA1_CTX :=
  mkSha1 [0x67452301; 0xEFCDAB89; 0x98BADCFE; 0x10325476; 0xC3D2E1F0] 0 0 c.(sha1_buffer).

(** [memcpy(&context->buffer[j], &data[i], n)]: both ranges must be in bounds. *)
Definition sha1_memcpy (j : Z) (data : list Z) (i n : Z) : sha1_prog unit :=
  b ← gets sha1_buffer;
  if (Z.of_nat (length data) <? i + n) || (64 <? j + n) then crash
  else modify (set_sha1_buffer
    (take (Z.to_nat j) b ++ take (Z.to_nat n) (drop (Z.to_nat i) data) ++ drop (Z.to_nat (j + n)) b)).

(** [SHA1Transform(context->state, &data[i])]. *)
Definition transform_data (data : list Z) (i : Z) : sha1_prog unit :=
  if Z.of_nat (length data) <? i + 64 then crash
  else modify (fun c => set_sha1_state
         (SHA1Transform c.(sha1_state) (take 64 (drop (Z.to_nat i) data))) c).

(** The length, with the carry from the low to the high word. *)
Definition add_count (len : Z) (c : SHA1_CTX) : SHA1_CTX :=
  let lo := c.(count_0) ⊞ u32 (Z.shiftl len 3) in
  let hi := if lo <? c.(count_0) then c.(count_1) ⊞ 1 else c.(count_1) in
  mkSha1 c.(sha1_state) lo (hi ⊞ Z.shiftr len 29) c.(sha1_buffer).

Definition SHA1Update (data : list Z) (len : Z) : sha1_prog unit :=
  j ← gets count_0;
  modify (add_count len);;
  let j := Z.land (Z.shiftr j 3) 63 in
  if (j ⊞ len) >? 63 then
    let i := 64 - j in
    sha1_memcpy j data 0 i;;
    modify (fun c => set_sha1_state (SHA1Transform c.(sha1_state) c.(sha1_buffer)) c);;
    i ← loop (S (Z.to_nat len)) (fun i =>
      if (i ⊞ 63) <? len then transform_data data i;; mret (inl (i ⊞ 64))
      else mret (inr i)) i;
    sha1_memcpy 0 data i (u32 (len - i))
  else sha1_memcpy j data 0 len.

(** [(word >> ((3 - (i & 3)) * 8)) & 255]. *)
Definition be_octet (w i : Z) : Z := Z.land (Z.shiftr w ((3 - Z.land i 3) * 8)) 255.

Definition finalcount (c : SHA1_CTX) : list Z :=
  map (fun i => be_octet (if i >=? 4 then c.(count_0) else c.(count_1)) i) [0; 1; 2; 3; 4; 5; 6; 7].

Definition sha1_digest (state : list Z) : list Z :=
  map (fun i => be_octet (word state (Z.shiftr i 2)) i) (map Z.of_nat (seq 0 20)).

(** [memset(context, 0, sizeof *context)]. *)
Definition sha1_wiped : SHA1_CTX := mkSha1 (repeat 0 5) 0 0 (repeat 0 64).

Definition SHA1Final : sha1_prog (list Z) :=
  fc ← gets finalcount;
  SHA1Update [0x80] 1;;
  while 65 (gets (fun c => negb (Z.land c.(count_0) 504 =? 448))) (SHA1Update [0] 1);;
  SHA1Update fc 8;;
  digest ← gets (fun c => sha1_digest c.(sha1_state));
  modify (fun _ => sha1_wiped);;
  mret digest.

(** The calls of a client, from any context. *)
Definition sha1_chunks (chunks : list (list Z)) : sha1_prog (list Z) :=
  modify SHA1Init;;
  foldr (fun d k => SHA1Update d (Z.of_nat (length d));; k) (mret tt) chunks;;
  SHA1Final.

(** [SHA1(hash_out, str, len)]: the text octet by octet.  [ii < len] compares
    unsigned integers; the result is the digest with a NUL behind it. *)
Definition SHA1 (str : list Z) (len : Z) : sha1_prog (list Z) :=
  modify SHA1Init;;
  loop (S (Z.to_nat (u32 len))) (fun ii =>
    if ii <? u32 len then
      o ← deref (str !! Z.to_nat ii);
      SHA1Update [o] 1;;
      mret (inl (ii ⊞ 1))
    else mret (inr tt)) 0;;
  digest ← SHA1Final;
  mret (digest ++ [0]).

(** A context with nothing set. *)
Definition sha1_fresh : SHA1_CTX := mkSha1 (repeat 0 5) 0 0 (repeat 0 64).

Example sha1_abc :
  exists c, SHA1 (bytes_of "abc") 3 sha1_fresh
  = Ret ([0xA9; 0x99; 0x3E; 0x36; 0x47; 0x06; 0x81; 0x6A; 0xBA; 0x3E; 0x25; 0x71; 0x78; 0x50; 0xC2; 0x6C;
          0x9C; 0xD0; 0xD8; 0x9D] ++ [0]) c.
Proof. eexists. vm_compute. reflexivity. Qed.
