(* ===== verification/Sha1Spec.v ===== *)
(** * SHA-1: the code computes the standard's function

    A reference definition of SHA-1 on a whole message, after FIPS 180-4 (with
    its four constants from square roots), and the proof that any sequence of
    calls of [SHA1Update] between [SHA1Init] and [SHA1Final] yields the
    reference digest of the concatenated chunks; what goes wrong with chunks of
    nearly 2^32 octets, where the test of the code wraps around. *)

From Stdlib Require Import ZArith Lia ZifyNat ZifyBool String.
From stdpp Require Import base list.
From S2P Require Import Prelude Sha256 Sha256Spec Sha256Total Sha1.

#[local] Open Scope Z_scope.

(** ** The standard *)

Definition Parity (x y z : Z) : Z := Z.lxor (Z.lxor x y) z.

Definition f_std (t : nat) (x y z : Z) : Z :=
  if (t <? 20)%nat then Ch x y z else if (t <? 40)%nat then Parity x y z
  else if (t <? 60)%nat then Maj x y z else Parity x y z.

(** The integer part of [2^30] times the square root of 2, 3, 5 and 10. *)
Definition K1_std (t : nat) : Z :=
  Z.sqrt ((if (t <? 20)%nat then 2 else if (t <? 40)%nat then 3 else if (t <? 60)%nat then 5 else 10) * 2^60).

Definition schedule1_next (w : list Z) : list Z :=
  let t := length w in
  w ++ [rol (Z.lxor (Z.lxor (Z.lxor (at_ w (t - 3)) (at_ w (t - 8))) (at_ w (t - 14))) (at_ w (t - 16))) 1].
Definition schedule1 (m : list Z) : list Z := Nat.iter 64 schedule1_next m.

Record vars1 : Type := mkVars1 { wa : Z; wb : Z; wc : Z; wd : Z; we : Z }.

Definition round1 (w : list Z) (v : vars1) (t : nat) : vars1 :=
  mkVars1 (rol (wa v) 5 ⊞ f_std t (wb v) (wc v) (wd v) ⊞ we v ⊞ K1_std t ⊞ at_ w t)
    (wa v) (rol (wb v) 30) (wc v) (wd v).

Definition vars1_of (h : list Z) : vars1 := mkVars1 (at_ h 0) (at_ h 1) (at_ h 2) (at_ h 3) (at_ h 4).
Definition list1_of (v : vars1) : list Z := [wa v; wb v; wc v; wd v; we v].

Definition process1 (h blk : list Z) : list Z :=
  zip_with add32 h (list1_of (fold_left (round1 (schedule1 (be_words blk))) (seq 0 80) (vars1_of h))).

Definition H1_std : list Z := [0x67452301; 0xEFCDAB89; 0x98BADCFE; 0x10325476; 0xC3D2E1F0].

Definition digest1_of (l : list Z) : list Z := fold_blocks process1 H1_std l.

Definition sha1_std (m : list Z) : list Z := concat (map be_bytes (digest1_of (pad m))).

Example sha1_std_two_blocks :
  sha1_std (bytes_of "abcdbcdecdefdefgefghfghighijhijkijkljklmklmnlmnomnopnopq")
  = [0x84; 0x98; 0x3E; 0x44; 0x1C; 0x3B; 0xD2; 0x6E; 0xBA; 0xAE; 0x4A; 0xA1; 0xF9; 0x51; 0x29; 0xE5;
     0xE5; 0x46; 0x70; 0xF1].
Proof. vm_compute. reflexivity. Qed.

(** ** One call of a macro *)

Lemma macro_f_std i w x y : (i < 80)%nat -> macro_f (call_macro (Z.of_nat i)) w x y = f_std i w x y.
Proof.
  intros Hi. unfold call_macro, f_std.
  assert (Z.lxor (Z.land w (Z.lxor x y)) y = Ch w x y) as Hch by (rewrite Z.lxor_comm; apply ch_code).
  assert (Z.lor (Z.land (Z.lor w x) y) (Z.land w x) = Maj w x y) as Hmaj.
  { apply Z.bits_inj'. intros n Hn. unfold Maj.
    rewrite Z.lor_spec, !Z.lxor_spec, !Z.land_spec, Z.lor_spec.
    by destruct (Z.testbit w n), (Z.testbit x n), (Z.testbit y n). }
  destruct (Z.of_nat i <? 16) eqn:E1, (Z.of_nat i <? 20) eqn:E2, (Z.of_nat i <? 40) eqn:E3,
    (Z.of_nat i <? 60) eqn:E4, (i <? 20)%nat eqn:F2, (i <? 40)%nat eqn:F3, (i <? 60)%nat eqn:F4;
    try lia; done.
Qed.

Lemma macro_K_std i : (i < 80)%nat -> macro_K (call_macro (Z.of_nat i)) = K1_std i.
Proof.
  intros Hi. assert (forallb (fun i => macro_K (call_macro (Z.of_nat i)) =? K1_std i) (seq 0 80) = true) as Hall
    by (vm_compute; reflexivity).
  rewrite forallb_forall in Hall. apply Z.eqb_eq, Hall, in_seq. lia.
Qed.

(** The variables where call [i] finds them. *)
Definition vars1_at (t : list Z) (i : nat) : vars1 :=
  let '(v, w, x, y, z) := call_args (Z.of_nat i) in
  mkVars1 (word t v) (word t w) (word t x) (word t y) (word t z).

(** The word of call [i], and the block behind it. *)
Definition call_word (block : list Z) (i : nat) : Z :=
  match call_macro (Z.of_nat i) with R0 => blk0 block (Z.of_nat i) | _ => blk block (Z.of_nat i) end.
Definition call_block (block : list Z) (i : nat) : list Z :=
  upd block (match call_macro (Z.of_nat i) with R0 => Z.of_nat i | _ => Z.land (Z.of_nat i) 15 end)
    (call_word block i).

Lemma call_args_next i :
  call_args (Z.of_nat (S i)) = let '(v, w, x, y, z) := call_args (Z.of_nat i) in (z, v, w, x, y).
Proof.
  unfold call_args. rewrite Nat2Z.inj_succ, <- Z.add_1_r.
  pose proof (Z.mod_pos_bound (Z.of_nat i) 5 ltac:(lia)) as Hr.
  pose proof (Z.div_mod (Z.of_nat i) 5 ltac:(lia)) as Hd.
  assert ((Z.of_nat i + 1) mod 5 = if Z.of_nat i mod 5 =? 4 then 0 else Z.of_nat i mod 5 + 1) as ->.
  { destruct (_ =? 4) eqn:E.
    - symmetry. apply (Z.mod_unique_pos _ _ (Z.of_nat i / 5 + 1)); lia.
    - symmetry. apply (Z.mod_unique_pos _ _ (Z.of_nat i / 5)); lia. }
  assert (Z.of_nat i mod 5 = 0 \/ Z.of_nat i mod 5 = 1 \/ Z.of_nat i mod 5 = 2 \/ Z.of_nat i mod 5 = 3
          \/ Z.of_nat i mod 5 = 4) as Hcases by lia.
  by destruct Hcases as [-> |[-> |[-> |[-> | ->]]]].
Qed.

Lemma call_args_cases i :
  call_args i = (0, 1, 2, 3, 4) \/ call_args i = (4, 0, 1, 2, 3) \/ call_args i = (3, 4, 0, 1, 2)
  \/ call_args i = (2, 3, 4, 0, 1) \/ call_args i = (1, 2, 3, 4, 0).
Proof. unfold call_args. repeat case_match; auto. Qed.

Lemma sum_code z f m k r : z ⊞ (f ⊞ m ⊞ k ⊞ r) = r ⊞ f ⊞ z ⊞ k ⊞ m.
Proof.
  change (f ⊞ m) with (u32 (f + m)). change (r ⊞ f) with (u32 (r + f)).
  rewrite !add32_l, add32_r. f_equal. ring.
Qed.

Lemma sha1_call_round W t block i :
  (i < 80)%nat -> length t = 5%nat -> call_word block i = at_ W i ->
  let s := sha1_call (t, block) i in
  vars1_at s.1 (S i) = round1 W (vars1_at t i) i /\ length s.1 = 5%nat /\ s.2 = call_block block i.
Proof.
  intros Hi Ht Hw s. unfold s, sha1_call, run_macro, vars1_at, round1. rewrite call_args_next.
  fold (call_word block i). fold (call_block block i).
  destruct (call_args_cases (Z.of_nat i)) as [-> |[-> |[-> |[-> | ->]]]]; cbn [fst snd wa wb wc wd we];
    rewrite <- Hw, <- (macro_K_std i Hi), <- sum_code, <- (macro_f_std i) by done;
    (split_and!; [|unfold upd; by rewrite !length_insert|done]);
    destruct t as [|a [|b [|c [|d [|e [|]]]]]]; done.
Qed.

(** ** The message schedule *)

Lemma length_schedule1_next w : length (schedule1_next w) = S (length w).
Proof. unfold schedule1_next. rewrite length_app. cbn. lia. Qed.

Section schedule1.
Context (m : list Z) (Hm : length m = 16%nat).

Lemma iter1_length n : length (Nat.iter n schedule1_next m) = (16 + n)%nat.
Proof using Hm.
  induction n as [|n IH]; [done|]. change (length (schedule1_next (Nat.iter n schedule1_next m)) = (16 + S n)%nat).
  rewrite length_schedule1_next. lia.
Qed.

Lemma iter1_stable n k t :
  (t < 16 + n)%nat -> at_ (Nat.iter (k + n) schedule1_next m) t = at_ (Nat.iter n schedule1_next m) t.
Proof using Hm.
  intros Ht. induction k as [|k IH]; [done|].
  change (Nat.iter (S k + n) schedule1_next m) with (schedule1_next (Nat.iter (k + n) schedule1_next m)).
  unfold schedule1_next, at_ at 1. rewrite app_nth1; [exact IH|]. rewrite iter1_length. lia.
Qed.

Lemma schedule1_low t : (t < 16)%nat -> at_ (schedule1 m) t = at_ m t.
Proof using Hm. intros Ht. unfold schedule1. by rewrite (iter1_stable 0 64). Qed.

Lemma schedule1_high t :
  (16 <= t < 80)%nat ->
  at_ (schedule1 m) t
  = rol (Z.lxor (Z.lxor (Z.lxor (at_ (schedule1 m) (t - 3)) (at_ (schedule1 m) (t - 8)))
                        (at_ (schedule1 m) (t - 14))) (at_ (schedule1 m) (t - 16))) 1.
Proof using Hm.
  intros Ht. unfold schedule1.
  assert (forall u n, (u < 16 + n)%nat -> (n <= 64)%nat ->
    at_ (Nat.iter 64 schedule1_next m) u = at_ (Nat.iter n schedule1_next m) u) as Hst.
  { intros u n Hu Hn. replace 64%nat with ((64 - n) + n)%nat by lia. by apply iter1_stable. }
  rewrite (Hst t (S (t - 16))) by lia. rewrite !(Hst _ (t - 16)%nat) by lia.
  change (Nat.iter (S (t - 16)) schedule1_next m) with (schedule1_next (Nat.iter (t - 16) schedule1_next m)).
  set (w := Nat.iter (t - 16) schedule1_next m). assert (length w = t) as Hl.
  { unfold w. rewrite iter1_length. lia. }
  unfold schedule1_next, at_ at 1. rewrite Hl, app_nth2 by lia. by replace (t - length w)%nat with 0%nat by lia.
Qed.
End schedule1.

(** ** One block *)

Lemma land_15_nat i : Z.land (Z.of_nat i) 15 = Z.of_nat (i mod 16).
Proof. rewrite land_15. by rewrite Nat2Z.inj_mod. Qed.

Lemma blk0_swap p i : blk0 p i = bswap (word p i).
Proof.
  unfold blk0, bswap, rol, RR. rewrite Z.lor_comm. f_equal; (f_equal; apply Z.lor_comm).
Qed.

Section block.
Context (l : list Z) (Ho : Forall octet l) (Hl : length l = 64%nat).

Definition W1 : list Z := schedule1 (be_words l).

Lemma W1_eq : schedule1 (be_words l) = W1.
Proof. unfold W1. reflexivity. Qed.

Lemma be_block_length : length (be_words l) = 16%nat.
Proof using Hl. by apply be_words_length. Qed.

(** Call [i] finds the sixteen words in front of it, and the octets that have
    not been turned into words. *)
Definition window1 (i : nat) (p : list Z) : Prop :=
  length p = 16%nat
  /\ (forall t, (t < i)%nat -> (i <= t + 16)%nat -> word p (Z.of_nat (t mod 16)) = at_ W1 t)
  /\ (forall t, (i <= t < 16)%nat -> word p (Z.of_nat t) = word (le_words l) (Z.of_nat t)).

Lemma window1_start : window1 0 (le_words l).
Proof using Hl. split_and!; [by apply le_words_length|lia|done]. Qed.

Lemma call_macro_R0 i : (i < 16)%nat -> call_macro (Z.of_nat i) = R0.
Proof. intros H. unfold call_macro. by assert ((Z.of_nat i <? 16) = true) as -> by lia. Qed.
Lemma call_macro_not_R0 i (X : Type) (a b : X) :
  (16 <= i)%nat -> match call_macro (Z.of_nat i) with R0 => a | _ => b end = b.
Proof.
  intros H. unfold call_macro. assert ((Z.of_nat i <? 16) = false) as -> by lia. by repeat case_match.
Qed.

Lemma call_word_std i p : (i < 80)%nat -> window1 i p -> call_word p i = at_ W1 i.
Proof using Ho Hl.
  intros Hi (Hp & Hw & Hr). unfold call_word. destruct (decide (i < 16)%nat) as [H16|H16].
  - rewrite call_macro_R0, blk0_swap, Hr by lia. unfold W1.
    rewrite schedule1_low, <- (swap_words 16 l) by (done || apply be_block_length). unfold word, at_.
    rewrite Nat2Z.id, <- (map_nth bswap). done.
  - rewrite call_macro_not_R0 by lia. 
    pose proof (schedule1_high _ be_block_length i ltac:(lia)) as Hs.
    rewrite W1_eq in Hs. rewrite Hs. clear Hs. unfold blk.
    assert (forall k, (k = 3 \/ k = 8 \/ k = 14 \/ k = 16)%nat ->
      word p (Z.land (Z.of_nat i + Z.of_nat (16 - k)) 15) = at_ W1 (i - k)) as Hk.
    { intros k Hk. rewrite <- Nat2Z.inj_add, land_15_nat, <- Hw by lia. f_equal. f_equal.
      replace (i + (16 - k))%nat with (i - k + 1 * 16)%nat by lia. by rewrite Nat.Div0.mod_add. }
    pose proof (Hk 3%nat ltac:(auto)) as H3. pose proof (Hk 8%nat ltac:(auto)) as H8.
    pose proof (Hk 14%nat ltac:(auto)) as H14. pose proof (Hk 16%nat ltac:(auto)) as H0.
    change (Z.of_nat (16 - 3)) with 13 in H3. change (Z.of_nat (16 - 8)) with 8 in H8.
    change (Z.of_nat (16 - 14)) with 2 in H14. change (Z.of_nat (16 - 16)) with 0 in H0.
    rewrite Z.add_0_r in H0.
    by rewrite H3, H8, H14, H0.
Qed.

Lemma call_block_index i :
  (i < 80)%nat ->
  match call_macro (Z.of_nat i) with R0 => Z.of_nat i | _ => Z.land (Z.of_nat i) 15 end = Z.of_nat (i mod 16).
Proof.
  intros Hi. destruct (decide (i < 16)%nat) as [H16|H16].
  - rewrite call_macro_R0 by done. by rewrite Nat.mod_small.
  - rewrite call_macro_not_R0 by lia. apply land_15_nat.
Qed.

Lemma window1_step i p : (i < 80)%nat -> window1 i p -> window1 (S i) (call_block p i).
Proof using Ho Hl.
  intros Hi Hp. pose proof (call_word_std i p Hi Hp) as Hcw. destruct Hp as (Hp & Hw & Hr).
  unfold call_block. rewrite call_block_index by done.
  pose proof (Nat.mod_upper_bound i 16 ltac:(lia)) as Hb.
  split_and!; [unfold upd; by rewrite length_insert| |].
  - intros t Ht1 Ht2. destruct (decide (t = i)) as [->|Hne].
    + rewrite word_upd_same by lia. done.
    + rewrite word_upd_other; [apply Hw; lia|lia|lia|]. intros E%Nat2Z.inj.
      pose proof (Nat.div_mod_eq t 16). pose proof (Nat.div_mod_eq i 16). lia.
  - intros t Ht. rewrite word_upd_other; [apply Hr; lia|lia|lia|]. rewrite Nat.mod_small by lia. lia.
Qed.

Lemma sha1_calls h n : (n <= 80)%nat -> length h = 5%nat ->
  let s := fold_left sha1_call (seq 0 n) (h, le_words l) in
  length s.1 = 5%nat /\ window1 n s.2
  /\ vars1_at s.1 n = fold_left (round1 W1) (seq 0 n) (vars1_of h).
Proof using Ho Hl.
  intros Hn Hh. cbv zeta. induction n as [|n IH]; [by split; [|split; [apply window1_start|]]|].
  specialize (IH ltac:(lia)). rewrite seq_S, !fold_left_app. cbn [fold_left Nat.add].
  destruct (fold_left sha1_call (seq 0 n) (h, le_words l)) as [t p]. cbn [fst snd] in *.
  destruct IH as (H1 & H2 & H3).
  destruct (sha1_call_round W1 t p n ltac:(lia) H1 (call_word_std n p ltac:(lia) H2)) as (G1 & G2 & G3).
  split; [done|]. split; [rewrite G3; apply window1_step; [lia|done]|by rewrite G1, H3].
Qed.

(** [SHA1Transform] is the compression function of the standard. *)
Lemma transform_spec h : length h = 5%nat -> SHA1Transform h l = process1 h l.
Proof using Ho Hl.
  intros Hh. destruct (sha1_calls h 80 ltac:(lia) Hh) as (H1 & _ & H3). unfold SHA1Transform, process1.
  rewrite W1_eq. destruct (fold_left sha1_call (seq 0 80) (h, le_words l)) as [t p]. cbn [fst snd] in *.
  rewrite <- H3. f_equal. by destruct t as [|? [|? [|? [|? [|? [|]]]]]].
Qed.
End block.

(** ** A context that has absorbed a message *)

Lemma digest1_length m : length (digest1_of m) = 5%nat.
Proof.
  unfold digest1_of, fold_blocks. generalize (blocks (whole m) m). intros bs.
  assert (forall h, length h = 5%nat -> length (fold_left process1 bs h) = 5%nat) as H; [|by apply H].
  induction bs as [|b bs IH]; intros h Hh; [done|]. apply IH. unfold process1.
  rewrite length_zip_with, Hh. done.
Qed.

Record absorbed1 (m : list Z) (c : SHA1_CTX) : Prop := mkAbsorbed1 {
  ab1_state : c.(sha1_state) = digest1_of m;
  ab1_buffer : length c.(sha1_buffer) = 64%nat;
  ab1_rest : take (length (rest m)) c.(sha1_buffer) = rest m;
  ab1_octets : Forall octet m
}.

(** The 64-bit count of bits. *)
Definition counted1 (n : Z) (c : SHA1_CTX) : Prop :=
  c.(count_0) = (8 * n) mod 2^32 /\ c.(count_1) = 8 * n / 2^32 mod 2^32.

Lemma add_count_counted n len c :
  0 <= len < 2^32 -> counted1 n c -> counted1 (n + len) (add_count len c).
Proof.
  intros Hlen [H0 H1]. unfold counted1, add_count, add32, u32. cbn [count_0 count_1]. rewrite H0, H1.
  rewrite Z.shiftl_mul_pow2, Z.shiftr_div_pow2 by lia. change (2^3) with 8. rewrite (Z.mul_comm len 8).
  set (a := 8 * n). replace (8 * (n + len)) with (a + 8 * len) by (unfold a; ring). set (b := 8 * len).
  assert (len / 2^29 = b / 2^32) as ->.
  { unfold b. change (2^32) with (8 * 2^29). by rewrite Z.div_mul_cancel_l by lia. }
  pose proof (Z.div_mod a (2^32) ltac:(lia)) as Ha. pose proof (Z.mod_pos_bound a (2^32) ltac:(lia)) as Hra.
  pose proof (Z.div_mod b (2^32) ltac:(lia)) as Hb. pose proof (Z.mod_pos_bound b (2^32) ltac:(lia)) as Hrb.
  rewrite <- Z.add_mod by lia. split; [done|].
  set (qa := a / 2^32) in *. set (qb := b / 2^32) in *.
  set (ra := a mod 2^32) in *. set (rb := b mod 2^32) in *.
  destruct (Z_lt_le_dec (ra + rb) (2^32)) as [Hc|Hc].
  - assert ((a + b) mod 2^32 = ra + rb) as -> by (symmetry; apply (Z.mod_unique_pos _ _ (qa + qb)); lia).
    assert ((a + b) / 2^32 = qa + qb) as -> by (symmetry; apply (Z.div_unique_pos _ _ _ (ra + rb)); lia).
    assert ((ra + rb <? ra) = false) as -> by lia. by rewrite Zplus_mod_idemp_l.
  - assert ((a + b) mod 2^32 = ra + rb - 2^32) as -> by (symmetry; apply (Z.mod_unique_pos _ _ (qa + qb + 1)); lia).
    assert ((a + b) / 2^32 = qa + qb + 1) as -> by (symmetry; apply (Z.div_unique_pos _ _ _ (ra + rb - 2^32)); lia).
    assert ((ra + rb - 2^32 <? ra) = true) as -> by lia.
    rewrite Zplus_mod_idemp_l, <- Z.add_assoc, Zplus_mod_idemp_l. f_equal. lia.
Qed.

Lemma counted1_rest m c :
  counted1 (Z.of_nat (length m)) c -> Z.land (Z.shiftr c.(count_0) 3) 63 = Z.of_nat (length (rest m)).
Proof.
  intros [-> _]. rewrite low_six_bits, rest_length, Nat2Z.inj_mod, Z.shiftr_div_pow2 by lia.
  set (n := Z.of_nat (length m)). change (2^32) with (8 * 2^29). change (2^3) with 8.
  rewrite Z.mul_mod_distr_l, Z.mul_comm, Z.div_mul by lia.
  apply Z.mod_mod_divide. by exists (2^23).
Qed.

Lemma wp_sha1_memcpy j data i n c (Q : unit -> SHA1_CTX -> Prop) E :
  i + n <= Z.of_nat (length data) -> j + n <= 64 ->
  Q tt (set_sha1_buffer (take (Z.to_nat j) c.(sha1_buffer) ++ take (Z.to_nat n) (drop (Z.to_nat i) data)
                         ++ drop (Z.to_nat (j + n)) c.(sha1_buffer)) c) ->
  wp strict (sha1_memcpy j data i n) Q E c.
Proof.
  intros H1 H2 HQ. unfold sha1_memcpy. wp_steps.
  assert ((Z.of_nat (length data) <? i + n) || (64 <? j + n) = false) as -> by lia. by wp_steps.
Qed.

(** The octets [x] behind those in the buffer. *)
Definition spliced1 (m x : list Z) (c : SHA1_CTX) : list Z :=
  take (length (rest m)) c.(sha1_buffer) ++ x ++ drop (length (rest m) + length x) c.(sha1_buffer).

Lemma spliced1_facts m x c :
  absorbed1 m c -> (length (rest m) + length x <= 64)%nat ->
  length (spliced1 m x c) = 64%nat /\ take (length (rest m) + length x) (spliced1 m x c) = rest m ++ x.
Proof.
  intros [_ Hb Hr _] Hl. unfold spliced1. rewrite Hr. split.
  - rewrite !length_app, length_drop. lia.
  - rewrite app_assoc, take_app_le, take_ge; rewrite ?length_app; lia || done.
Qed.

Lemma absorb1_partial m c x :
  absorbed1 m c -> Forall octet x -> (length (rest m) + length x < 64)%nat ->
  absorbed1 (m ++ x) (set_sha1_buffer (spliced1 m x c) c).
Proof.
  intros Ha Hx Hl. destruct (fold_partial process1 H1_std m x Hl) as [Hd Hr].
  destruct (spliced1_facts m x c Ha ltac:(lia)) as [S1 S2]. destruct Ha as [A1 A2 A3 A4].
  constructor; cbn [sha1_state sha1_buffer set_sha1_buffer]; [|done| |by apply Forall_app].
  - rewrite A1. by symmetry.
  - by rewrite Hr, length_app.
Qed.

Lemma rest_octets m : Forall octet m -> Forall octet (rest m).
Proof. apply Forall_drop. Qed.

Lemma absorb1_block m c x :
  absorbed1 m c -> Forall octet x -> (length (rest m) + length x = 64)%nat ->
  SHA1Transform c.(sha1_state) (spliced1 m x c) = digest1_of (m ++ x) /\ rest (m ++ x) = []
  /\ length (spliced1 m x c) = 64%nat.
Proof.
  intros Ha Hx Hl. destruct (fold_block process1 H1_std m x Hl) as [Hd Hr].
  destruct (spliced1_facts m x c Ha ltac:(lia)) as [S1 S2]. rewrite Hl, take_ge in S2 by lia.
  destruct Ha as [A1 A2 A3 A4]. split_and!; [|done|done]. rewrite S2, A1. rewrite transform_spec.
  - symmetry. exact Hd.
  - apply Forall_app. split; [by apply rest_octets|done].
  - by rewrite length_app.
  - apply digest1_length.
Qed.

(** Where the loop of [SHA1Update] stands: the first [i] octets are absorbed
    and the buffer is empty. *)
Definition update_inv (m data : list Z) (i : Z) (c : SHA1_CTX) : Prop :=
  0 <= i <= Z.of_nat (length data) /\ c.(sha1_state) = digest1_of (m ++ take (Z.to_nat i) data)
  /\ rest (m ++ take (Z.to_nat i) data) = [] /\ length c.(sha1_buffer) = 64%nat
  /\ counted1 (Z.of_nat (length (m ++ data))) c.

Lemma update_turn m data i c :
  Forall octet m -> Forall octet data -> update_inv m data i c -> i + 63 < Z.of_nat (length data) ->
  Z.of_nat (length data) <= 2^32 - 64 ->
  wp strict (transform_data data i;; mret (inl (i ⊞ 64) : Z + Z))
    (fun r c' => r = inl (i + 64) /\ update_inv m data (i + 64) c') (fun _ => False) c.
Proof.
  intros Hm Hd (Hi & Hs & Hr & Hb & Hc) Hlt Hmax. unfold transform_data. wp_step.
  assert ((Z.of_nat (length data) <? i + 64) = false) as -> by lia. wp_steps.
  assert (i ⊞ 64 = i + 64) as -> by (unfold add32, u32; apply Z.mod_small; lia). split; [done|].
  set (x := take 64 (drop (Z.to_nat i) data)).
  assert (length x = 64%nat) as Hx by (unfold x; rewrite length_take, length_drop; lia).
  assert (take (Z.to_nat (i + 64)) data = take (Z.to_nat i) data ++ x) as Ht.
  { replace (Z.to_nat (i + 64)) with (Z.to_nat i + 64)%nat by lia. apply take_add. }
  destruct (fold_block process1 H1_std (m ++ take (Z.to_nat i) data) x) as [H1 H2].
  { rewrite Hr, Hx. done. }
  rewrite <- app_assoc, <- Ht in H1, H2. rewrite Hr, app_nil_l in H1.
  split; [lia|]. cbn. split_and!; try done; [|by destruct Hc..].
  rewrite Hs, transform_spec; [symmetry; exact H1| |done|apply digest1_length].
  by apply Forall_take, Forall_drop.
Qed.

(** What is left of the chunk goes to the front of the buffer. *)
Lemma update_tail m data i c :
  Forall octet m -> Forall octet data -> Z.of_nat (length data) <= 2^32 - 64 ->
  update_inv m data i c -> Z.of_nat (length data) <= i + 63 ->
  wp strict (sha1_memcpy 0 data i (u32 (Z.of_nat (length data) - i)))
    (fun _ c' => absorbed1 (m ++ data) c' /\ counted1 (Z.of_nat (length (m ++ data))) c') (fun _ => False) c.
Proof.
  intros Hm Ho Hmax (Hi1 & Hs & Hr & Hb & Hcc) Hle. set (n := Z.of_nat (length data)) in *.
  assert (u32 (n - i) = n - i) as -> by (unfold u32; apply Z.mod_small; lia).
  assert (absorbed1 (m ++ take (Z.to_nat i) data) c) as Ha2.
  { constructor; [done|done|by rewrite Hr|]. apply Forall_app. split; [done|by apply Forall_take]. }
  assert (take (Z.to_nat (n - i)) (drop (Z.to_nat i) data) = drop (Z.to_nat i) data) as Htl
    by (apply take_ge; rewrite length_drop; lia).
  apply wp_sha1_memcpy; [lia|lia|]. rewrite Htl.
  pose proof (absorb1_partial _ c (drop (Z.to_nat i) data) Ha2) as Hp. unfold spliced1 in Hp.
  rewrite Hr, length_drop in Hp. cbn [length Nat.add] in Hp.
  rewrite <- app_assoc, take_drop in Hp. split; [|exact Hcc].
  replace (Z.to_nat (0 + (n - i))) with (length data - Z.to_nat i)%nat by lia.
  apply Hp; [by apply Forall_drop|lia].
Qed.

Lemma wp_SHA1Update m data c :
  Forall octet data -> Z.of_nat (length data) <= 2^32 - 64 ->
  absorbed1 m c -> counted1 (Z.of_nat (length m)) c ->
  wp strict (SHA1Update data (Z.of_nat (length data)))
    (fun _ c' => absorbed1 (m ++ data) c' /\ counted1 (Z.of_nat (length (m ++ data))) c') (fun _ => False) c.
Proof.
  intros Ho Hmax Ha Hc. unfold SHA1Update. wp_step. wp_step. cbv beta. wp_step. wp_step. cbv beta.
  rewrite (counted1_rest m c Hc). set (n := Z.of_nat (length data)) in *.
  set (j := length (rest m)). set (c1 := add_count n c).
  assert (absorbed1 m c1) as Ha1 by (by destruct Ha; constructor).
  assert (counted1 (Z.of_nat (length (m ++ data))) c1) as Hc1.
  { rewrite length_app, Nat2Z.inj_add. apply add_count_counted; [lia|done]. }
  assert (j < 64)%nat as Hj by (unfold j; rewrite rest_length; apply Nat.mod_upper_bound; lia).
  assert (Z.of_nat j ⊞ n = Z.of_nat j + n) as -> by (unfold add32, u32; apply Z.mod_small; lia).
  destruct (_ >? 63) eqn:Eg.
  - wp_step. apply wp_sha1_memcpy; [lia|lia|]. wp_step. apply wp_modify. cbn [sha1_state sha1_buffer set_sha1_buffer].
    set (x := take (Z.to_nat (64 - Z.of_nat j)) (drop (Z.to_nat 0) data)).
    assert (length x = (64 - j)%nat) as Hx by (unfold x; rewrite length_take, length_drop; lia).
    assert (take (Z.to_nat (Z.of_nat j)) (sha1_buffer c1) ++ x
            ++ drop (Z.to_nat (Z.of_nat j + (64 - Z.of_nat j))) (sha1_buffer c1) = spliced1 m x c1) as ->.
    { unfold spliced1. rewrite Nat2Z.id, Hx. fold j. repeat f_equal. lia. }
    destruct (absorb1_block m c1 x Ha1) as (B1 & B2 & B3); [by apply Forall_take, Forall_drop|fold j; lia|].
    rewrite B1. apply wp_bind.
    apply (wp_mono strict _ (fun i c' => update_inv m data i c' /\ n <= i + 63) _ (fun _ => False));
      [eapply wp_loop with (I := update_inv m data) (v := fun i _ => Z.to_nat (n - i))| |intros ? []].
    + intros i c2 Hi. pose proof Hi as (Hi1 & _). fold n in Hi1.
      assert (i ⊞ 63 = i + 63) as -> by (unfold add32, u32; apply Z.mod_small; lia).
      destruct (i + 63 <? n) eqn:El; [|wp_steps; split; [done|lia]].
      eapply wp_mono; [apply (update_turn m data i c2); [apply Ha|done|done|fold n; lia|done]| |done].
      intros r c3 [-> H3]. split; [done|]. right. fold n in H3. destruct H3 as [H3 _]. lia.
    + assert (take (Z.to_nat (64 - Z.of_nat j)) data = x) as Hxe by (unfold x; by rewrite drop_0).
      unfold update_inv. rewrite Hxe. cbn [sha1_state sha1_buffer set_sha1_buffer set_sha1_state].
      split; [lia|]. split; [reflexivity|]. split; [exact B2|]. split; [exact B3|exact Hc1].
    + right. lia.
    + intros i c2 [Hi Hle]. eapply wp_mono; [by apply (update_tail m data i c2); [apply Ha|..]| |done]. by intros [].
  - apply wp_sha1_memcpy; [lia|lia|].
    assert (take (Z.to_nat n) (drop (Z.to_nat 0) data) = data) as -> by (rewrite drop_0; apply take_ge; lia).
    split; [|exact Hc1].
    pose proof (absorb1_partial m c1 data Ha1 Ho) as Hp. unfold spliced1 in Hp. fold j in Hp.
    replace (Z.to_nat (Z.of_nat j + n)) with (j + length data)%nat by lia. rewrite Nat2Z.id.
    apply Hp. lia.
Qed.

(** ** Padding *)

Lemma sha1_digest_bytes h : length h = 5%nat -> sha1_digest h = concat (map be_bytes h).
Proof. intros Hh. by destruct h as [|? [|? [|? [|? [|? [|]]]]]]. Qed.

Lemma finalcount_bytes n c :
  counted1 n c -> 0 <= n < 2^61 -> finalcount c = be_bytes (8 * n / 2^32) ++ be_bytes (u32 (8 * n)).
Proof.
  intros [H0 H1] Hn. rewrite Z.mod_small in H1.
  - unfold u32. rewrite <- H0, <- H1. reflexivity.
  - split; [apply Z.div_pos; lia|apply Z.div_lt_upper_bound; lia].
Qed.

(** [count[0] & 504] tells how full the last block is. *)
Lemma count_mask n c : counted1 n c -> Z.land c.(count_0) 504 = 8 * (n mod 64).
Proof.
  intros [-> _]. change (2^32) with (8 * 2^29). rewrite Z.mul_mod_distr_l by lia.
  rewrite (Z.mul_comm 8), <- (Z.shiftl_mul_pow2 _ 3) by lia. change 504 with (Z.shiftl 63 3).
  rewrite <- Z.shiftl_land, low_six_bits, Z.shiftl_mul_pow2, Z.mod_mod_divide by (lia || by exists (2^23)).
  lia.
Qed.

(** A context that has absorbed and counted a message. *)
Definition holds1 (m : list Z) (c : SHA1_CTX) : Prop :=
  absorbed1 m c /\ counted1 (Z.of_nat (length m)) c.

Lemma wp_update1 m data n c :
  holds1 m c -> Forall octet data -> n = Z.of_nat (length data) -> n <= 2^32 - 64 ->
  wp strict (SHA1Update data n) (fun _ c' => holds1 (m ++ data) c') (fun _ => False) c.
Proof. intros [H1 H2] Ho -> Hn. by apply wp_SHA1Update. Qed.

Definition pad1_zeros (m : list Z) : nat := Z.to_nat ((55 - Z.of_nat (length m)) mod 64).

Lemma octet_zero : octet 0.
Proof. unfold octet. lia. Qed.

(** The loop that pads with zeros, one by one, up to the place of the length. *)
Lemma wp_pad_loop m c :
  holds1 (m ++ [0x80]) c ->
  wp strict (while 65 (gets (fun c => negb (Z.land c.(count_0) 504 =? 448))) (SHA1Update [0] 1))
    (fun _ c' => holds1 (m ++ [0x80] ++ repeat 0 (pad1_zeros m)) c') (fun _ => False) c.
Proof.
  intros Hc. set (k := pad1_zeros m).
  pose proof (Z.mod_pos_bound (55 - Z.of_nat (length m)) 64 ltac:(lia)) as Hk.
  set (I := fun i c' => (i <= k)%nat /\ holds1 (m ++ [0x80] ++ repeat 0 i) c').
  assert (forall fuel i c', I i c' -> (k - i < fuel)%nat ->
    wp strict (while fuel (gets (fun c => negb (Z.land c.(count_0) 504 =? 448))) (SHA1Update [0] 1))
      (fun _ c' => holds1 (m ++ [0x80] ++ repeat 0 k) c') (fun _ => False) c') as Hloop.
  { induction fuel as [|fuel IH]; intros i c' [Hi [Ha Hn]] Hf; [lia|]. cbn [while]. wp_step. wp_step. cbv beta.
    rewrite (count_mask _ _ Hn).
    assert (length (m ++ [0x80] ++ repeat 0 i) = (length m + (1 + i))%nat) as ->
      by (rewrite !length_app, repeat_length; done).
    pose proof (Z.div_mod (55 - Z.of_nat (length m)) 64 ltac:(lia)) as Hd.
    destruct (decide (i = k)) as [->|Hne].
    - assert (Z.of_nat (length m + (1 + k)) mod 64 = 56) as ->.
      { symmetry. apply (Z.mod_unique_pos _ _ (- ((55 - Z.of_nat (length m)) / 64))); [lia|].
        unfold k, pad1_zeros. lia. }
      cbn [Z.mul Pos.mul Z.eqb Pos.eqb negb]. wp_steps. by split.
    - assert (Z.of_nat (length m + (1 + i)) mod 64 <> 56) as Hx.
      { intros E. apply Hne. pose proof (Z.div_mod (Z.of_nat (length m + (1 + i))) 64 ltac:(lia)) as He.
        unfold k, pad1_zeros in *. lia. }
      assert (negb (8 * (Z.of_nat (length m + (1 + i)) mod 64) =? 448) = true) as -> by lia. wp_step.
      eapply wp_mono; [eapply (wp_update1 (m ++ [0x80] ++ repeat 0 i) [0] 1)| |done].
      + by split.
      + apply Forall_singleton, octet_zero.
      + done.
      + lia.
      + intros [] c2 H2. apply (IH (S i)); [|lia]. split; [lia|].
        rewrite <- !app_assoc, <- (repeat_cons i 0) in H2. exact H2. }
  apply (Hloop 65%nat 0%nat c); [|unfold k, pad1_zeros; lia]. split; [lia|]. exact Hc.
Qed.

(** [SHA1Final] returns the digest of what has been absorbed and clears the context. *)
Lemma wp_SHA1Final m c :
  holds1 m c -> Z.of_nat (length m) < 2^61 ->
  wp strict SHA1Final (fun d c' => d = sha1_std m /\ c' = sha1_wiped) (fun _ => False) c.
Proof.
  intros Hc Hn. unfold SHA1Final. wp_step. wp_step. cbv beta.
  rewrite (finalcount_bytes _ _ (proj2 Hc)) by lia. wp_step.
  eapply wp_mono; [eapply (wp_update1 m [0x80] 1 c Hc); [apply Forall_singleton; unfold octet; lia|done|lia]| |done].
  intros [] c1 H1. wp_step. eapply wp_mono; [by apply (wp_pad_loop m)| |done]. intros [] c2 H2. wp_step.
  eapply wp_mono; [eapply (wp_update1 _ _ 8 c2 H2)| |done].
  - apply Forall_app. split; apply Forall_rev, le_bytes_octets.
  - done.
  - lia.
  - intros [] c3 [[H3 _ _ _] _]. wp_step. wp_step. cbv beta. wp_step. wp_step. cbv beta. wp_step.
    split; [|done]. rewrite H3, sha1_digest_bytes by apply digest1_length.
    unfold sha1_std, pad. by rewrite <- !app_assoc.
Qed.

Lemma SHA1Init_holds c : length c.(sha1_buffer) = 64%nat -> holds1 [] (SHA1Init c).
Proof. intros Hb. split; [by constructor|done]. Qed.

Lemma wp_sha1_chunks chunks : forall m c (Q : unit -> SHA1_CTX -> Prop),
  holds1 m c -> Forall (fun d => Forall octet d /\ Z.of_nat (length d) <= 2^32 - 64) chunks ->
  (forall c', holds1 (m ++ concat chunks) c' -> Q tt c') ->
  wp strict (foldr (fun d k => SHA1Update d (Z.of_nat (length d));; k) (mret tt) chunks) Q (fun _ => False) c.
Proof.
  induction chunks as [|d ds IH]; intros m c Q Hc Hds HQ; cbn [foldr].
  { wp_steps. apply HQ. by rewrite app_nil_r. }
  apply Forall_cons in Hds as [[Hd Hl] Hds]. wp_step.
  eapply wp_mono; [by apply (wp_update1 m d)| |done]. intros [] c1 H1.
  apply (IH (m ++ d)); [done|done|]. intros c' H'. apply HQ. by rewrite <- app_assoc in H'.
Qed.

(** C26: SHA-1 over any chunks: [SHA1Init], any number of calls of [SHA1Update] (on
    chunks of at most 2^32 - 64 octets, less than 2^61 in all) and
    [SHA1Final] return the SHA-1 digest of FIPS 180-4 of the concatenated
    chunks, from any context, without reading or writing out of bounds, and
    clear the context. *)
Theorem sha1_correct (chunks : list (list Z)) (c : SHA1_CTX) :
  length c.(sha1_buffer) = 64%nat ->
  Forall (fun d => Forall octet d /\ Z.of_nat (length d) <= 2^32 - 64) chunks ->
  Z.of_nat (length (concat chunks)) < 2^61 ->
  sha1_chunks chunks c = Ret (sha1_std (concat chunks)) sha1_wiped.
Proof.
  intros Hb Hch Hn.
  assert (wp strict (sha1_chunks chunks) (fun d c' => d = sha1_std (concat chunks) /\ c' = sha1_wiped)
            (fun _ => False) c) as H.
  { unfold sha1_chunks. wp_step. wp_step. wp_step.
    apply (wp_sha1_chunks chunks []); [by apply SHA1Init_holds|done|]. intros c1 H1. by apply wp_SHA1Final. }
  unfold wp in H. destruct (sha1_chunks chunks c) as [d c'| | |]; try done. by destruct H as [-> ->].
Qed.

Lemma sha1_correct_witness :
  sha1_chunks [bytes_of "ab"; []; bytes_of "c"] sha1_fresh = Ret (sha1_std (bytes_of "abc")) sha1_wiped
  /\ exists d, sha1_std (bytes_of "abc") = 0xA9 :: 0x99 :: d.
Proof.
  split; [|eexists; vm_compute; reflexivity].
  apply (sha1_correct [bytes_of "ab"; []; bytes_of "c"] sha1_fresh).
  - reflexivity.
  - repeat (apply Forall_cons_2; [split; [repeat (apply Forall_cons_2; [split; [discriminate|reflexivity]|]);
      apply Forall_nil_2|discriminate]|]). apply Forall_nil_2.
  - reflexivity.
Defined.

(** [SHA1] on a whole text: the digest and a NUL. *)
Lemma SHA1_whole (str : list Z) (len : Z) (c : SHA1_CTX) :
  length c.(sha1_buffer) = 64%nat -> Forall octet str -> 0 <= len <= Z.of_nat (length str) -> len < 2^31 ->
  SHA1 str len c = Ret (sha1_std (take (Z.to_nat len) str) ++ [0]) sha1_wiped.
Proof.
  intros Hb Ho Hl Hmax.
  assert (wp strict (SHA1 str len)
    (fun d c' => d = sha1_std (take (Z.to_nat len) str) ++ [0] /\ c' = sha1_wiped) (fun _ => False) c) as H.
  { unfold SHA1. assert (u32 len = len) as -> by (unfold u32; apply Z.mod_small; lia).
    wp_step. wp_step. wp_step.
    apply (wp_mono strict _ (fun _ c' => holds1 (take (Z.to_nat len) str) c') _ (fun _ => False));
      [eapply wp_loop with (I := fun ii c' => 0 <= ii <= len /\ holds1 (take (Z.to_nat ii) str) c')
         (v := fun ii _ => Z.to_nat (len - ii))| |intros ? []].
    - intros ii c1 [Hi H1]. destruct (ii <? len) eqn:E.
      2:{ wp_steps. by assert (ii = len) as <- by lia. }
      destruct (lookup_lt_is_Some_2 str (Z.to_nat ii) ltac:(lia)) as [o Hlo]. rewrite Hlo. cbn [deref].
      wp_step. wp_step. wp_step. eapply wp_mono; [apply (wp_update1 _ [o] 1 c1 H1)| |done].
      + apply Forall_singleton. by eapply Forall_lookup_1.
      + done.
      + lia.
      + intros [] c2 H2. wp_steps.
        assert (ii ⊞ 1 = ii + 1) as -> by (unfold add32, u32; apply Z.mod_small; lia).
        split; [|right; lia]. split; [lia|]. replace (Z.to_nat (ii + 1)) with (S (Z.to_nat ii)) by lia.
        by rewrite (take_S_r str _ o Hlo).
    - split; [lia|]. by apply SHA1Init_holds.
    - right. lia.
    - intros [] c1 H1. wp_step. eapply wp_mono; [apply (wp_SHA1Final _ c1 H1)| |done].
      + rewrite length_take. lia.
      + intros d c2 [-> ->]. by wp_steps. }
  unfold wp in H. destruct (SHA1 str len c) as [d c'| | |]; try done. by destruct H as [-> ->].
Qed.

(** C29: Chunks of nearly 2^32 octets: [j + len] wraps around in 32 bits, the test
    for a full block fails, and [SHA1Update] copies the whole chunk into the
    buffer of 64 octets. *)
Theorem sha1_update_overflows (m data : list Z) (c : SHA1_CTX) :
  absorbed1 m c -> counted1 (Z.of_nat (length m)) c ->
  2^32 - Z.of_nat (length (rest m)) <= Z.of_nat (length data) < 2^32 ->
  SHA1Update data (Z.of_nat (length data)) c = Crash.
Proof.
  intros Ha Hc Hl. unfold SHA1Update, gets, modify, mbind, prog_bind. rewrite (counted1_rest m c Hc).
  set (n := Z.of_nat (length data)) in *. set (j := Z.of_nat (length (rest m))) in *.
  assert (j < 64) as Hj.
  { unfold j. rewrite rest_length. pose proof (Nat.mod_upper_bound (length m) 64 ltac:(lia)). lia. }
  assert (j ⊞ n = j + n - 2^32) as ->.
  { unfold add32, u32. symmetry. apply (Z.mod_unique_pos _ _ 1); lia. }
  assert ((j + n - 2^32 >? 63) = false) as -> by lia.
  unfold sha1_memcpy, gets, mbind, prog_bind. fold n.
  by assert ((n <? 0 + n) || (64 <? j + n) = true) as -> by lia.
Qed.

Definition after_a : SHA1_CTX := mkSha1 H1_std 8 0 (97 :: repeat 0 63).

Lemma sha1_update_overflows_witness :
  SHA1Update (repeat 0 (Z.to_nat (2^32 - 1))) (2^32 - 1) after_a = Crash.
Proof.
  assert (Z.of_nat (length (repeat 0 (Z.to_nat (2^32 - 1)))) = 2^32 - 1) as Hl
    by (rewrite repeat_length, Z2Nat.id by discriminate; reflexivity).
  rewrite <- Hl at 2. apply (sha1_update_overflows [97] _ after_a).
  - constructor; [reflexivity|reflexivity|reflexivity|]. apply Forall_singleton. split; [discriminate|reflexivity].
  - split; reflexivity.
  - rewrite Hl. split; [discriminate|reflexivity].
Defined.
