(* ===== verification/Bit64.v ===== *)
(** * The base-64 text form of tokens ([thirdparties/bit64], [utils/Bit64.cpp])

    Octets are written as digits of six bits, least significant first, in an
    alphabet of 64 characters that is shuffled on first use.  The sizes of the
    buffers are computed in single-precision floating point. *)

From Stdlib Require Import ZArith Lia Ascii String.
From stdpp Require Import base list.
From S2P Require Import Prelude.

#[local] Open Scope Z_scope.

(** ** The alphabet *)

Definition bit64_SIZE : Z := 64.
Definition bit64_KEY : Z := 32.

(** The global object: empty until the first use; [rev_map] is zeroed. *)
Record bit64_map_t : Type := mkMap {
  c_map : list Z;
  rev_map : list Z
}.

Definition bit64_map : bit64_map_t := mkMap [] (repeat 0 256).

Definition bit_prog : Type -> Type := prog bit64_map_t.

(** The characters from [from] to [end]. *)
Definition range (from : ascii) (n : nat) : list Z := map (fun i => ch from + Z.of_nat i) (seq 0 n).

Definition index_chars : list Z :=
  range "0" 10 ++ range "a" 26 ++ range "A" 26 ++ [ch "_"; ch "-"].

(** The loop that takes the characters in turn: [fuel] is their number. *)
Fixpoint shuffle (fuel : nat) (off : Z) (res : list Z) (m : bit64_map_t) : bit64_map_t :=
  match fuel with
  | O => m
  | S k =>
      match res with
      | [] => m
      | _ :: _ =>
          let off := off mod Z.of_nat (length res) in
          let c := nth (Z.to_nat off) res 0 in
          shuffle k (off + 1) (delete (Z.to_nat off) res)
            (mkMap (m.(c_map) ++ [c])
               (<[Z.to_nat c := Z.of_nat (length m.(c_map)) mod 2^8]> m.(rev_map)))
      end
  end.

Definition bit64_makeIndex (m : bit64_map_t) : bit64_map_t :=
  shuffle (length index_chars) bit64_KEY index_chars m.

(** [if (bit64_map.c_map.size() == 0) bit64_makeIndex()]. *)
Definition need_index : bit_prog unit :=
  m ← gets id;
  match m.(c_map) with [] => modify bit64_makeIndex | _ :: _ => mret tt end.

Definition bit64_hex64 (num : Z) : bit_prog Z :=
  if (0 <=? num) && (num <? bit64_SIZE) then
    need_index;;
    m ← gets id;
    deref (m.(c_map) !! Z.to_nat num)
  else mret 0.

(** The parameter is a [char]: where [char] is signed, an octet above 127 is a
    negative index. *)
Definition bit64_hex64rev (char_is_signed : bool) (c : Z) : bit_prog Z :=
  need_index;;
  m ← gets id;
  if char_is_signed && (128 <=? c) then crash else deref (m.(rev_map) !! Z.to_nat c).

(** ** The codec *)

(** [result[res_len++] = l] in a buffer of [cap] octets. *)
Definition put (cap : Z) (out : list Z) (l : Z) : bit_prog (list Z) :=
  if Z.of_nat (length out) <? cap then mret (out ++ [l]) else crash.

(** A loop over the octets with [int i = 0, t = (int)buffer_length]. *)
Fixpoint for_octets {L} (bs : list Z) (body : Z -> L -> bit_prog L) (l : L) : bit_prog L :=
  match bs with
  | [] => mret l
  | b :: r => l' ← body b l; for_octets r body l'
  end.

Definition int_prefix (bs : list Z) : list Z :=
  take (Z.to_nat (int_of_size (Z.of_nat (length bs)))) bs.

(** The locals [tb], [tmp] and what has been written to [result]. *)
Definition locals : Type := Z * Z * list Z.

Definition encode_digit (cap : Z) (x : locals) : bit_prog locals :=
  let '(tb, tmp, out) := x in
  l ← bit64_hex64 (Z.land tmp (bit64_SIZE - 1));
  out' ← put cap out l;
  mret (tb - 6, Z.shiftr tmp 6, out').

(** [while (tb > limit - 1)], with the digit or octet that each turn writes. *)
Definition drain (limit : Z) (turn : locals -> bit_prog locals) (x : locals) : bit_prog locals :=
  loop (S (Z.to_nat x.1.1)) (fun x : locals =>
    if limit <=? x.1.1 then x' ← turn x; mret (inl x') else mret (inr x)) x.

Definition bit64_encode (buffer : list Z) (cap : Z) : bit_prog (list Z) :=
  x ← for_octets (int_prefix buffer) (fun b '(tb, tmp, out) =>
        drain 6 (encode_digit cap) (tb + 8, Z.lor tmp (Z.shiftl b tb) mod 2^32, out)) (0, 0, []);
  x' ← drain 1 (encode_digit cap) x;
  mret x'.2.

Definition decode_octet (cap : Z) (x : locals) : bit_prog locals :=
  let '(tb, tmp, out) := x in
  out' ← put cap out (Z.land tmp 0xff);
  mret (tb - 8, Z.shiftr tmp 8, out').

(** The last turns write an octet only if it is not 0. *)
Definition decode_last (cap : Z) (x : locals) : bit_prog locals :=
  let '(tb, tmp, out) := x in
  let l := Z.land tmp 0xff in
  out' ← (if 0 <? l then put cap out l else mret out);
  mret (tb - 8, Z.shiftr tmp 8, out').

Definition bit64_decode (char_is_signed : bool) (buffer : list Z) (cap : Z) : bit_prog (list Z) :=
  x ← for_octets (int_prefix buffer) (fun c '(tb, tmp, out) =>
        d ← bit64_hex64rev char_is_signed c;
        drain 8 (decode_octet cap) (tb + 6, Z.lor tmp (Z.shiftl d tb) mod 2^32, out)) (0, 0, []);
  x' ← drain 1 (decode_last cap) x;
  mret x'.2.

(** ** Sizes *)

(** The nearest integer to [p/q], ties to even. *)
Definition round_even (p q : Z) : Z :=
  let f := p / q in
  let r := 2 * (p mod q) in
  if r <? q then f else if q <? r then f + 1 else if Z.even f then f else f + 1.

(** The single-precision number nearest to [p/q >= 2^-64], as a fraction. *)
Definition float32 (x : Z * Z) : Z * Z :=
  let '(p, q) := x in
  if p =? 0 then (0, 1)
  else
    let e := Z.log2 (p * 2^64 / q) - 64 - 23 in
    if 0 <=? e then (round_even p (q * 2^e) * 2^e, 1)
    else (round_even (p * 2^(-e)) q, 2^(-e)).

(** [ceilf(n * a / b)] for literals [a] and [b]. *)
Definition scaled_size (n a b : Z) : Z :=
  let x := float32 (n, 1) in
  let x := float32 (x.1 * a, x.2) in
  let x := float32 (x.1, x.2 * b) in
  - ((- x.1) / x.2).

Definition bit64_encode_size (n : Z) : Z := scaled_size n 4 3.
Definition bit64_decode_size (n : Z) : Z := scaled_size n 3 4.

(** ** [Bit64] *)

(** A string of [n] octets, zeroed, in which the first are overwritten. *)
Definition resized (n : Z) (out : list Z) : list Z := out ++ repeat 0 (Z.to_nat n - length out).

Definition encodeString (str : list Z) : bit_prog (list Z) :=
  let n := bit64_encode_size (Z.of_nat (length str)) in
  out ← bit64_encode str n;
  mret (resized n out).

Definition decodeString (char_is_signed : bool) (str : list Z) : bit_prog (list Z) :=
  let n := bit64_decode_size (Z.of_nat (length str)) in
  out ← bit64_decode char_is_signed str n;
  mret (resized n out).

Example codec_sample :
  (x ← encodeString (bytes_of "abcd"); y ← decodeString true x; mret (x, y)) bit64_map
  = Ret (bytes_of "BOjgNy", bytes_of "abcd" ++ [0]) (bit64_makeIndex bit64_map).
Proof. vm_compute. reflexivity. Qed.
