(* ===== verification/Bit64Codec.v ===== *)
(** * The text form of tokens: round trip and sizes

    Encoding and decoding keep one number: the octets are its digits in base
    256, the characters its digits in base 64. *)

From Stdlib Require Import ZArith Lia Ascii String.
From stdpp Require Import base list.
From S2P Require Import Prelude Sha256Total Bit64.

#[local] Open Scope Z_scope.

(** ** Digits *)

(** The number with these digits, least significant first. *)
Fixpoint number (base : Z) (ds : list Z) : Z :=
  match ds with [] => 0 | d :: r => d + base * number base r end.

Definition digit (base d : Z) : Prop := 0 <= d < base.

Lemma number_app base l l' : number base (l ++ l') = number base l + base ^ Z.of_nat (length l) * number base l'.
Proof.
  induction l as [|d l IH]; [cbn; lia|]. cbn [number app length]. rewrite IH, Nat2Z.inj_succ, Z.pow_succ_r by lia.
  ring.
Qed.

Lemma number_snoc base l d : number base (l ++ [d]) = number base l + base ^ Z.of_nat (length l) * d.
Proof. rewrite number_app. cbn. ring. Qed.

Lemma number_range base l :
  0 < base -> Forall (digit base) l -> 0 <= number base l < base ^ Z.of_nat (length l).
Proof.
  intros Hb. induction 1 as [|d l Hd _ IH]; [cbn; lia|]. cbn [number length]. unfold digit in Hd.
  rewrite Nat2Z.inj_succ, Z.pow_succ_r by lia. nia.
Qed.

(** A number has one representation of a given length. *)
Lemma number_inj base l l' :
  0 < base -> Forall (digit base) l -> Forall (digit base) l' -> length l = length l' ->
  number base l = number base l' -> l = l'.
Proof.
  intros Hb Hl. revert l'. induction Hl as [|d l Hd _ IH]; intros [|d' l'] Hl' Hlen Hn; try done.
  apply Forall_cons in Hl' as [Hd' Hl']. cbn in Hlen, Hn. unfold digit in *.
  assert (number base l = number base l') by nia. f_equal; [nia|]. apply IH; [done|lia|done].
Qed.

(** ** The alphabet *)

Definition index : bit64_map_t := bit64_makeIndex bit64_map.

(** Before or after the first use. *)
Definition map_ok (m : bit64_map_t) : Prop := m = bit64_map \/ m = index.

(** The character of a digit, and the digit of a character. *)
Definition letter (d : Z) : Z := nth (Z.to_nat d) index.(c_map) 0.
Definition reading (c : Z) : Z := nth (Z.to_nat c) index.(rev_map) 0.

Lemma letters d : digit 64 d -> 0 <= letter d < 128 /\ reading (letter d) = d.
Proof.
  intros Hd. assert (forallb (fun d => (0 <=? letter d) && (letter d <? 128) && (reading (letter d) =? d))
    (map Z.of_nat (seq 0 64)) = true) as Hall by (vm_compute; reflexivity).
  rewrite forallb_forall in Hall. unfold digit in Hd.
  assert (In d (map Z.of_nat (seq 0 64))) as Hin.
  { apply in_map_iff. exists (Z.to_nat d). split; [lia|]. apply in_seq. lia. }
  apply Hall, andb_true_iff in Hin as [[H1 H2]%andb_true_iff H3]. lia.
Qed.

Lemma readings c : octet c -> digit 64 (reading c).
Proof.
  intros Hc. assert (forallb (fun c => (0 <=? reading c) && (reading c <? 64)) (map Z.of_nat (seq 0 256)) = true)
    as Hall by (vm_compute; reflexivity).
  rewrite forallb_forall in Hall. unfold octet in Hc.
  assert (In c (map Z.of_nat (seq 0 256))) as Hin.
  { apply in_map_iff. exists (Z.to_nat c). split; [lia|]. apply in_seq. lia. }
  apply Hall, andb_true_iff in Hin as [H1 H2]. unfold digit. lia.
Qed.

(** ** The shift register *)

(** After [n] digits of [a] bits with number [N]: the digits of [b] bits written
    and the [tb] bits kept make up [N]. *)
Record register (a b n N tb tmp : Z) (ds : list Z) : Prop := mkRegister {
  rg_tmp : 0 <= tmp < 2 ^ tb;
  rg_tb : 0 <= tb;
  rg_count : tb + b * Z.of_nat (length ds) = a * n;
  rg_number : number (2 ^ b) ds + 2 ^ (b * Z.of_nat (length ds)) * tmp = N;
  rg_digits : Forall (digit (2 ^ b)) ds
}.

Lemma lor_shift tmp tb x : 0 <= tmp < 2 ^ tb -> 0 <= tb -> Z.lor tmp (Z.shiftl x tb) = tmp + x * 2 ^ tb.
Proof.
  intros Ht Hb. rewrite <- Z.shiftl_mul_pow2 by done.
  assert (Z.land tmp (Z.shiftl x tb) = 0) as H0.
  { apply Z.bits_inj'. intros n Hn. rewrite Z.land_spec, Z.bits_0, Z.shiftl_spec by done.
    destruct (Z_lt_le_dec n tb); [by rewrite (Z.testbit_neg_r x) by lia; apply andb_false_r|].
    rewrite <- (Z.mod_small tmp (2 ^ tb)) by done. by rewrite Z.mod_pow2_bits_high by lia. }
  by rewrite Z.add_nocarry_lxor, Z.lxor_lor by done.
Qed.

Lemma register_push a b n N tb tmp ds x :
  0 < a -> 0 < b -> 0 <= n -> digit (2 ^ a) x -> register a b n N tb tmp ds ->
  register a b (n + 1) (N + 2 ^ (a * n) * x) (tb + a) (Z.lor tmp (Z.shiftl x tb)) ds.
Proof.
  intros Ha Hb Hn Hx [H1 H2 H3 H4 H5]. unfold digit in Hx. rewrite lor_shift by done.
  assert (2 ^ (tb + a) = 2 ^ tb * 2 ^ a) as Hp by (apply Z.pow_add_r; lia).
  constructor; try done; [rewrite Hp; nia|lia|lia|]. rewrite <- H4, <- H3, Z.add_comm, Z.pow_add_r by lia. ring.
Qed.

Lemma register_emit a b n N tb tmp ds :
  0 < a -> 0 < b -> b <= tb -> register a b n N tb tmp ds ->
  register a b n N (tb - b) (Z.shiftr tmp b) (ds ++ [Z.land tmp (2 ^ b - 1)]).
Proof.
  intros Ha Hb Hle [H1 H2 H3 H4 H5]. rewrite Z.shiftr_div_pow2 by lia.
  replace (2 ^ b - 1) with (Z.ones b) by (rewrite Z.ones_equiv; lia). rewrite Z.land_ones by lia.
  pose proof (Z.pow_pos_nonneg 2 b ltac:(lia) ltac:(lia)) as Hp.
  pose proof (Z.div_mod tmp (2 ^ b) ltac:(lia)) as Hd. pose proof (Z.mod_pos_bound tmp (2 ^ b) Hp) as Hm.
  assert (2 ^ tb = 2 ^ b * 2 ^ (tb - b)) as Ht by (rewrite <- Z.pow_add_r by lia; f_equal; lia).
  constructor.
  - split; [apply Z.div_pos; lia|]. apply Z.div_lt_upper_bound; lia.
  - lia.
  - rewrite length_app. cbn. lia.
  - rewrite number_snoc, length_app, <- H4. cbn [length]. rewrite <- Z.pow_mul_r by lia.
    replace (b * Z.of_nat (length ds + 1)) with (b * Z.of_nat (length ds) + b) by lia.
    rewrite Z.pow_add_r by lia. rewrite Hd at 3. ring.
  - apply Forall_app. split; [done|]. by apply Forall_singleton.
Qed.

#[local] Strategy opaque [bit64_makeIndex].

Section codec.
Context (F : faults) (E : bit64_map_t -> Prop).

Lemma wp_need_index m (Q : unit -> bit64_map_t -> Prop) :
  map_ok m -> Q tt index -> wp F need_index Q E m.
Proof.
  intros [-> | ->] HQ; unfold need_index; wp_step; apply wp_gets; cbv [id].
  - change (c_map bit64_map) with (@nil Z). apply wp_modify. fold index. exact HQ.
  - destruct (c_map index) eqn:Ec; [by vm_compute in Ec|]. wp_step. exact HQ.
Qed.

Lemma wp_hex64 m d (Q : Z -> bit64_map_t -> Prop) :
  map_ok m -> digit 64 d -> Q (letter d) index -> wp F (bit64_hex64 d) Q E m.
Proof.
  intros Hm Hd HQ. unfold digit in Hd. unfold bit64_hex64, bit64_SIZE.
  assert ((0 <=? d) && (d <? 64) = true) as -> by lia. wp_step. apply wp_need_index; [done|].
  wp_step. apply wp_gets. cbv [id]. assert (length (c_map index) = 64%nat) as Hl by (vm_compute; reflexivity).
  destruct (lookup_lt_is_Some_2 (c_map index) (Z.to_nat d)) as [x Hx]; [lia|].
  rewrite Hx. cbn [deref]. wp_step. unfold letter in HQ. by rewrite nth_lookup, Hx in HQ.
Qed.

(** A character that does not index the table below its start, or may. *)
Definition safe_char (signed : bool) (c : Z) : Prop := F.(may_crash) \/ (signed = true -> c < 128).

Lemma wp_hex64rev signed m c (Q : Z -> bit64_map_t -> Prop) :
  map_ok m -> octet c -> safe_char signed c -> Q (reading c) index ->
  wp F (bit64_hex64rev signed c) Q E m.
Proof.
  intros Hm Hc Hs HQ. unfold octet in Hc. unfold bit64_hex64rev. wp_step. apply wp_need_index; [done|].
  wp_step. apply wp_gets. cbv [id].
  destruct (signed && (128 <=? c)) eqn:Es.
  { apply wp_crash. apply andb_true_iff in Es as [-> Es]. destruct Hs as [|Hs]; [done|]. specialize (Hs eq_refl). lia. }
  assert (length (rev_map index) = 256%nat) as Hl by (vm_compute; reflexivity).
  destruct (lookup_lt_is_Some_2 (rev_map index) (Z.to_nat c)) as [x Hx]; [lia|].
  rewrite Hx. cbn [deref]. wp_step. unfold reading in HQ. by rewrite nth_lookup, Hx in HQ.
Qed.

(** The buffer has room for [k] octets, or writing past its end may go wrong. *)
Definition room (cap k : Z) : Prop := F.(may_crash) \/ k <= cap.

Lemma wp_put cap out l (Q : list Z -> bit64_map_t -> Prop) m :
  room cap (Z.of_nat (length out) + 1) ->
  (Z.of_nat (length out) + 1 <= cap -> Q (out ++ [l]) m) -> wp F (put cap out l) Q E m.
Proof.
  intros Hr HQ. unfold put. destruct (_ <? cap) eqn:Ec; [wp_step; apply HQ; lia|].
  apply wp_crash. destruct Hr; [done|lia].
Qed.

(** *** Encoding *)

Definition encoding (n N : Z) (cap : Z) (x : locals) (m : bit64_map_t) : Prop :=
  map_ok m /\ exists ds, register 8 6 n N x.1.1 x.1.2 ds /\ x.2 = map letter ds
    /\ Z.of_nat (length ds) <= cap.

Lemma wp_encode_digit cap n N x m :
  encoding n N cap x m -> 6 <= x.1.1 -> room cap (8 * n / 6) ->
  wp F (encode_digit cap x) (fun x' m' => encoding n N cap x' m' /\ x'.1.1 = x.1.1 - 6) E m.
Proof.
  destruct x as [[tb tmp] out]. intros (Hm & ds & Hr & Ho & Hc) Ht Hcap. cbn in Hr, Ho, Ht. subst out.
  unfold encode_digit. wp_step.
  pose proof (register_emit 8 6 _ _ _ _ _ ltac:(lia) ltac:(lia) Ht Hr) as Hr'.
  pose proof (rg_digits _ _ _ _ _ _ _ Hr') as Hd. apply Forall_app in Hd as [_ Hd]. rewrite Forall_singleton in Hd.
  apply wp_hex64; [done|exact Hd|]. wp_step. apply wp_put.
  - destruct Hcap as [|Hcap]; [by left|right]. pose proof (rg_count _ _ _ _ _ _ _ Hr).
    rewrite length_map. assert (Z.of_nat (length ds) + 1 <= 8 * n / 6); [|lia].
    apply Z.div_le_lower_bound; lia.
  - rewrite length_map. intros Hl. wp_step. split; [|done]. split; [by right|].
    eexists. split; [exact Hr'|]. rewrite map_app, length_app. split; [done|]. cbn. lia.
Qed.

Lemma wp_drain_encode cap n N x m (Q : locals -> bit64_map_t -> Prop) :
  encoding n N cap x m -> room cap (8 * n / 6) ->
  (forall x' m', encoding n N cap x' m' -> x'.1.1 < 6 -> Q x' m') ->
  wp F (drain 6 (encode_digit cap) x) Q E m.
Proof.
  intros Hx Hcap HQ. unfold drain.
  apply (wp_loop F (fun x m => encoding n N cap x m) (fun x _ => Z.to_nat x.1.1)); [|done|right; lia].
  clear x m Hx. intros x m Hx. destruct (6 <=? x.1.1) eqn:E6; [|wp_step; apply HQ; [done|lia]].
  wp_step. eapply wp_mono; [apply (wp_encode_digit cap n N); [done|lia|done]| |done]. cbv beta.
  intros x' m' [Hx' Ht]. wp_step. split; [done|right; lia].
Qed.

(** The bits that are left make one more digit. *)
Lemma wp_drain_last cap n N x m (Q : locals -> bit64_map_t -> Prop) :
  encoding n N cap x m -> x.1.1 < 6 -> room cap ((8 * n + 5) / 6) ->
  (forall x' m' ds, map_ok m' -> x'.2 = map letter ds -> Forall (digit 64) ds -> number 64 ds = N ->
     Z.of_nat (length ds) = (8 * n + 5) / 6 -> Z.of_nat (length ds) <= cap -> Q x' m') ->
  wp F (drain 1 (encode_digit cap) x) Q E m.
Proof.
  destruct x as [[tb tmp] out]. intros (Hm & ds & Hr & Ho & Hc) Ht Hcap HQ. cbn in Hr, Ho, Ht. subst out.
  destruct Hr as [H1 H2 H3 H4 H5]. unfold drain. cbn [fst snd].
  assert (Z.of_nat (length ds) = if tb =? 0 then (8 * n + 5) / 6 else (8 * n + 5) / 6 - 1) as Hlen.
  { destruct (tb =? 0) eqn:Etb.
    - apply (Z.div_unique_pos _ _ _ 5); lia.
    - symmetry. rewrite <- H3. replace (tb + 6 * Z.of_nat (length ds) + 5)
        with ((tb - 1) + (Z.of_nat (length ds) + 1) * 6) by lia.
      rewrite Z.div_add, Z.div_small by lia. lia. }
  destruct (1 <=? tb) eqn:E1.
  - assert (exists k, Z.to_nat tb = S k) as [k ->] by (exists (Z.to_nat (tb - 1)); lia).
    cbn [loop]. cbn [fst snd]. rewrite E1. wp_step. wp_step. unfold encode_digit. wp_step.
    assert (Z.land tmp (bit64_SIZE - 1) = tmp) as El.
    { change (bit64_SIZE - 1) with (Z.ones 6). rewrite Z.land_ones by lia. apply Z.mod_small.
      pose proof (Z.pow_le_mono_r 2 tb 6 ltac:(lia) ltac:(lia)). lia. }
    rewrite El. assert (digit 64 tmp) as Hdt.
    { unfold digit. pose proof (Z.pow_le_mono_r 2 tb 6 ltac:(lia) ltac:(lia)). lia. }
    assert ((tb =? 0) = false) as Etb by lia. rewrite Etb in Hlen.
    apply wp_hex64; [done|done|]. wp_step. apply wp_put; rewrite length_map.
    { destruct Hcap; [by left|right; lia]. }
    intros Hl. wp_steps. cbn [fst snd]. assert ((1 <=? tb - 6) = false) as -> by lia. wp_steps.
    eapply (HQ _ _ (ds ++ [tmp])); [by right|cbn; by rewrite map_app|..].
    + apply Forall_app. split; [done|]. by apply Forall_singleton.
    + rewrite number_snoc, <- H4. change 64 with (2 ^ 6) at 2. rewrite <- Z.pow_mul_r by lia. done.
    + rewrite length_app. cbn. lia.
    + rewrite length_app. cbn. lia.
  - assert (tb = 0) as -> by lia. cbn [loop fst snd Z.to_nat]. wp_step. cbn. wp_steps.
    eapply (HQ _ _ ds); try done.
    rewrite <- H4. change (2 ^ 0) with 1 in H1. assert (tmp = 0) as -> by lia. change (2 ^ 6) with 64. ring.
Qed.

Lemma wp_for_octets {L} (I : list Z -> L -> bit64_map_t -> Prop) body bs :
  (forall done b l m, (exists todo, bs = done ++ b :: todo) -> I done l m ->
     wp F (body b l) (fun l' m' => I (done ++ [b]) l' m') E m) ->
  forall l m (Q : L -> bit64_map_t -> Prop), I [] l m -> (forall l' m', I bs l' m' -> Q l' m') ->
  wp F (for_octets bs body l) Q E m.
Proof.
  intros Hbody. assert (forall todo done l m (Q : L -> bit64_map_t -> Prop), bs = done ++ todo -> I done l m ->
    (forall l' m', I bs l' m' -> Q l' m') -> wp F (for_octets todo body l) Q E m) as H;
    [|intros l m Q; by apply (H bs [])].
  induction todo as [|b todo IH]; intros done l m Q Hbs HI HQ; cbn [for_octets].
  - rewrite app_nil_r in Hbs. subst. wp_step. by apply HQ.
  - wp_step. eapply wp_mono; [apply (Hbody done); [by eexists|done]| |done]. cbv beta. intros l' m' HI'.
    apply (IH (done ++ [b])); [by rewrite <- app_assoc|done|done].
Qed.

Lemma int_prefix_all bs : Z.of_nat (length bs) <= INT_MAX -> int_prefix bs = bs.
Proof. intros H. unfold int_prefix. rewrite int_of_size_small by lia. rewrite Nat2Z.id. by apply take_ge. Qed.

Lemma number_grow a done b :
  0 <= a -> number (2 ^ a) (done ++ [b]) = number (2 ^ a) done + 2 ^ (a * Z.of_nat (length done)) * b.
Proof. intros. by rewrite number_snoc, <- Z.pow_mul_r by lia. Qed.

Lemma wp_encode bs cap m (Q : list Z -> bit64_map_t -> Prop) :
  map_ok m -> Forall octet bs -> Z.of_nat (length bs) <= INT_MAX -> 0 <= cap ->
  room cap ((8 * Z.of_nat (length bs) + 5) / 6) ->
  (forall ds m', map_ok m' -> Forall (digit 64) ds -> number 64 ds = number 256 bs ->
     Z.of_nat (length ds) = (8 * Z.of_nat (length bs) + 5) / 6 -> Z.of_nat (length ds) <= cap ->
     Q (map letter ds) m') ->
  wp F (bit64_encode bs cap) Q E m.
Proof.
  intros Hm Ho Hl H0 Hcap HQ. unfold bit64_encode. rewrite int_prefix_all by done. wp_step.
  apply (wp_for_octets (fun done x m => encoding (Z.of_nat (length done)) (number 256 done) cap x m /\ x.1.1 < 6)).
  - intros done b [[tb tmp] out] m1 [todo Hbs] [(Hm1 & ds & Hr & Hout & Hc) Ht]. cbn in Hr, Hout, Ht.
    assert (octet b) as Hb by (rewrite Hbs, Forall_app, Forall_cons in Ho; tauto).
    pose proof (register_push 8 6 _ _ _ _ _ b ltac:(lia) ltac:(lia) (Nat2Z.is_nonneg _) Hb Hr) as Hr'.
    rewrite Z.mod_small.
    2:{ pose proof (rg_tmp _ _ _ _ _ _ _ Hr'). pose proof (Z.pow_le_mono_r 2 (tb + 8) 32 ltac:(lia) ltac:(lia)). lia. }
    eapply (wp_drain_encode cap (Z.of_nat (length (done ++ [b]))) (number 256 (done ++ [b]))).
    + split; [done|]. exists ds. split_and!; [|done|done]. cbn [fst snd].
      replace (Z.of_nat (length (done ++ [b]))) with (Z.of_nat (length done) + 1) by (rewrite length_app; cbn; lia).
      change 256 with (2 ^ 8). rewrite number_grow by lia. exact Hr'.
    + destruct Hcap as [|Hcap]; [by left|right]. etransitivity; [|exact Hcap].
      apply Z.div_le_mono; [lia|]. rewrite Hbs, !length_app. cbn. lia.
    + auto.
  - split; [|done]. split; [done|]. exists []. split_and!; [|done|done]. constructor; cbn; try done; lia.
  - intros x m1 [Hx Ht]. wp_step. eapply wp_drain_last; [done|done|done|].
    intros x' m2 ds Hm2 -> Hd Hn Hlen Hcp. wp_step. by apply HQ.
Qed.

(** *** Decoding *)

Definition decoding (k N : Z) (cap : Z) (x : locals) (m : bit64_map_t) : Prop :=
  map_ok m /\ register 6 8 k N x.1.1 x.1.2 x.2 /\ Z.of_nat (length x.2) <= cap.

Lemma wp_drain_decode cap k N x m (Q : locals -> bit64_map_t -> Prop) :
  decoding k N cap x m -> room cap (6 * k / 8) ->
  (forall x' m', decoding k N cap x' m' -> x'.1.1 < 8 -> Q x' m') ->
  wp F (drain 8 (decode_octet cap) x) Q E m.
Proof.
  intros Hx Hcap HQ. unfold drain.
  apply (wp_loop F (fun x m => decoding k N cap x m) (fun x _ => Z.to_nat x.1.1)); [|done|right; lia].
  clear x m Hx. intros [[tb tmp] out] m (Hm & Hr & Hc). cbn [fst snd] in *.
  destruct (8 <=? tb) eqn:E8; [|wp_step; apply HQ; [done|cbn; lia]].
  pose proof (register_emit 6 8 _ _ _ _ _ ltac:(lia) ltac:(lia) (proj1 (Z.leb_le 8 tb) E8) Hr) as Hr'.
  unfold decode_octet. wp_step. wp_step. apply wp_put.
  - destruct Hcap as [|Hcap]; [by left|right]. pose proof (rg_count _ _ _ _ _ _ _ Hr).
    assert (Z.of_nat (length out) + 1 <= 6 * k / 8); [|lia]. apply Z.div_le_lower_bound; lia.
  - intros Hl. wp_steps. cbn [fst snd]. split; [|right; lia]. split; [done|]. split; [exact Hr'|].
    cbn [snd]. rewrite length_app. cbn. lia.
Qed.

(** The bits that are left make an octet, unless they are all 0. *)
Lemma wp_drain_rest cap k N x m (Q : locals -> bit64_map_t -> Prop) :
  decoding k N cap x m -> x.1.1 < 8 -> room cap ((6 * k + 7) / 8) ->
  (forall x' m' out t, map_ok m' -> x'.2 = out ++ (if t =? 0 then [] else [t]) -> Forall octet out ->
     0 <= t < 2 ^ (6 * k - 8 * Z.of_nat (length out)) -> Z.of_nat (length out) = 6 * k / 8 ->
     number 256 out + 256 ^ Z.of_nat (length out) * t = N -> Q x' m') ->
  wp F (drain 1 (decode_last cap) x) Q E m.
Proof.
  destruct x as [[tb tmp] out]. intros (Hm & Hr & Hc) Ht Hcap HQ. cbn [fst snd] in *.
  destruct Hr as [H1 H2 H3 H4 H5]. unfold drain. cbn [fst snd].
  assert (Z.of_nat (length out) = 6 * k / 8) as Hlen by (apply (Z.div_unique_pos _ _ _ tb); lia).
  assert (number 256 out + 256 ^ Z.of_nat (length out) * tmp = N) as HN.
  { rewrite <- H4. change 256 with (2 ^ 8) at 2. by rewrite <- Z.pow_mul_r by lia. }
  assert (0 <= tmp < 2 ^ (6 * k - 8 * Z.of_nat (length out))) as Hrange.
  { by replace (6 * k - 8 * Z.of_nat (length out)) with tb by lia. }
  destruct (1 <=? tb) eqn:E1.
  - assert (exists j, Z.to_nat tb = S j) as [j ->] by (exists (Z.to_nat (tb - 1)); lia).
    cbn [loop]. cbn [fst snd]. rewrite E1. wp_step. wp_step. unfold decode_last. wp_step.
    assert (Z.land tmp 255 = tmp) as El.
    { change 255 with (Z.ones 8). rewrite Z.land_ones by lia. apply Z.mod_small.
      pose proof (Z.pow_le_mono_r 2 tb 8 ltac:(lia) ltac:(lia)). lia. }
    rewrite El. destruct (0 <? tmp) eqn:E0.
    + apply wp_put.
      { destruct Hcap; [by left|right]. assert (Z.of_nat (length out) + 1 <= (6 * k + 7) / 8); [|lia].
        apply Z.div_le_lower_bound; lia. }
      intros Hl. wp_steps. cbn [fst snd]. assert ((1 <=? tb - 8) = false) as -> by lia. wp_steps.
      eapply (HQ _ _ out tmp); try done. by assert ((tmp =? 0) = false) as -> by lia.
    + wp_steps. cbn [fst snd]. assert ((1 <=? tb - 8) = false) as -> by lia. wp_steps.
      eapply (HQ _ _ out tmp); try done. assert ((tmp =? 0) = true) as -> by lia. by rewrite app_nil_r.
  - assert (tb = 0) as -> by lia. cbn [loop fst snd Z.to_nat]. wp_step. cbn [fst snd]. wp_steps.
    change (2 ^ 0) with 1 in H1. assert (tmp = 0) as -> by lia.
    eapply (HQ _ _ out 0); try done. by rewrite app_nil_r.
Qed.

(** One character. *)
Definition after_char (cap : Z) (done : list Z) (x : locals) (m : bit64_map_t) : Prop :=
  decoding (Z.of_nat (length done)) (number 64 (map reading done)) cap x m /\ x.1.1 < 8.

Lemma wp_decode_one signed cap done c x m :
  after_char cap done x m -> octet c -> safe_char signed c ->
  room cap (6 * Z.of_nat (length (done ++ [c])) / 8) ->
  wp F (let '(tb, tmp, out) := x in
        d ← bit64_hex64rev signed c;
        drain 8 (decode_octet cap) (tb + 6, Z.lor tmp (Z.shiftl d tb) mod 2^32, out))
    (fun x' m' => after_char cap (done ++ [c]) x' m') E m.
Proof.
  destruct x as [[tb tmp] out]. intros [(Hm & Hr & Hc) Ht] Hb Hs Hcap. cbn [fst snd] in *. wp_step.
  apply wp_hex64rev; [done|done|done|].
  pose proof (register_push 6 8 _ _ _ _ _ (reading c) ltac:(lia) ltac:(lia) (Nat2Z.is_nonneg _) (readings c Hb) Hr) as Hr'.
  rewrite Z.mod_small.
  2:{ pose proof (rg_tmp _ _ _ _ _ _ _ Hr'). pose proof (Z.pow_le_mono_r 2 (tb + 6) 32 ltac:(lia) ltac:(lia)). lia. }
  eapply (wp_drain_decode cap (Z.of_nat (length (done ++ [c]))) (number 64 (map reading (done ++ [c]))));
    [|done|done]. split; [by right|]. split; [|done]. cbn [fst snd].
  replace (Z.of_nat (length (done ++ [c]))) with (Z.of_nat (length done) + 1) by (rewrite length_app; cbn; lia).
  rewrite map_app. change 64 with (2 ^ 6). cbn [map]. rewrite number_grow, length_map by lia. exact Hr'.
Qed.

Lemma after_no_char cap m : map_ok m -> 0 <= cap -> after_char cap [] (0, 0, []) m.
Proof. intros. split; [|done]. split; [done|]. split; [|done]. constructor; cbn; try done; lia. Qed.

Lemma wp_decode signed cs cap m (Q : list Z -> bit64_map_t -> Prop) :
  map_ok m -> Forall (fun c => octet c /\ safe_char signed c) cs ->
  Z.of_nat (length cs) <= INT_MAX -> 0 <= cap -> room cap ((6 * Z.of_nat (length cs) + 7) / 8) ->
  (forall out t m', map_ok m' -> Forall octet out ->
     0 <= t < 2 ^ (6 * Z.of_nat (length cs) - 8 * Z.of_nat (length out)) ->
     Z.of_nat (length out) = 6 * Z.of_nat (length cs) / 8 ->
     number 256 out + 256 ^ Z.of_nat (length out) * t = number 64 (map reading cs) ->
     Q (out ++ (if t =? 0 then [] else [t])) m') ->
  wp F (bit64_decode signed cs cap) Q E m.
Proof.
  intros Hm Ho Hl H0 Hcap HQ. unfold bit64_decode. rewrite int_prefix_all by done. wp_step.
  apply (wp_for_octets (after_char cap)); [|by apply after_no_char|].
  - intros done c x m1 [todo Hcs] Hx.
    assert (octet c /\ safe_char signed c) as [Hb Hs] by (rewrite Hcs, Forall_app, Forall_cons in Ho; tauto).
    apply wp_decode_one; [done|done|done|].
    destruct Hcap as [|Hcap]; [by left|right]. etransitivity; [|exact Hcap].
    apply Z.div_le_mono; [lia|]. rewrite Hcs, !length_app. cbn. lia.
  - intros x m1 [Hx Ht]. wp_step. eapply wp_drain_rest; [done|done|done|].
    intros x' m2 out t Hm2 -> Hout Ht' Hlen HN. wp_step. by apply HQ.
Qed.
End codec.

(** ** Sizes *)

Lemma round_even_near p q : 0 < q -> - q <= 2 * (q * round_even p q - p) <= q.
Proof.
  intros Hq. unfold round_even. pose proof (Z.div_mod p q ltac:(lia)). pose proof (Z.mod_pos_bound p q Hq).
  destruct (2 * (p mod q) <? q) eqn:E1; [nia|]. destruct (q <? 2 * (p mod q)) eqn:E2; [nia|].
  destruct (Z.even (p / q)); nia.
Qed.

Lemma round_even_scale c p q : 0 < c -> 0 < q -> round_even (c * p) (c * q) = round_even p q.
Proof.
  intros Hc Hq. unfold round_even. rewrite Z.div_mul_cancel_l, Z.mul_mod_distr_l by lia.
  replace (2 * (c * (p mod q))) with (c * (2 * (p mod q))) by ring.
  assert (forall x y, (c * x <? c * y) = (x <? y)) as Hlt.
  { intros x y. destruct (x <? y) eqn:E; [apply Z.ltb_lt|apply Z.ltb_ge]; nia. }
  by rewrite !Hlt.
Qed.

Lemma float32_scale c p q : 0 < c -> 0 < q -> float32 (c * p, c * q) = float32 (p, q).
Proof.
  intros Hc Hq. unfold float32. assert ((c * p =? 0) = (p =? 0)) as -> by nia.
  destruct (p =? 0); [done|]. rewrite <- Z.mul_assoc, Z.div_mul_cancel_l by lia.
  set (e := Z.log2 _ - 64 - 23). destruct (0 <=? e) eqn:E.
  - rewrite <- Z.mul_assoc, round_even_scale by (done || nia). done.
  - rewrite <- Z.mul_assoc, round_even_scale by done. done.
Qed.

Lemma float32_int n : 0 <= n < 2^24 -> exists c, 0 < c /\ float32 (n, 1) = (c * n, c * 1).
Proof.
  intros Hn. unfold float32. destruct (n =? 0) eqn:E0; [exists 1; split; [lia|f_equal; lia]|].
  rewrite Z.div_1_r, Z.log2_mul_pow2 by lia. replace (64 + Z.log2 n - 64 - 23) with (Z.log2 n - 23) by lia.
  assert (forall a, round_even a 1 = a) as Hr by (intros a; pose proof (round_even_near a 1 ltac:(lia)); lia).
  assert (Z.log2 n < 24) as Hl by (apply Z.log2_lt_pow2; lia). pose proof (Z.log2_nonneg n).
  destruct (0 <=? Z.log2 n - 23) eqn:E.
  - assert (Z.log2 n - 23 = 0) as -> by lia. exists 1. cbn. rewrite Hr. split; [lia|f_equal; lia].
  - exists (2 ^ (- (Z.log2 n - 23))). rewrite Hr. split; [apply Z.pow_pos_nonneg; lia|f_equal; lia].
Qed.

Lemma ceil_float32 p b :
  0 <= p < 2^22 * b -> 0 < b <= 4 -> - ((- (float32 (p, b)).1) / (float32 (p, b)).2) = (p + b - 1) / b.
Proof.
  intros Hp Hb. unfold float32. destruct (p =? 0) eqn:E0.
  { assert (p = 0) as -> by lia. change (0 = (0 + b - 1) / b). symmetry. apply Z.div_small. lia. }
  set (L := Z.log2 (p * 2^64 / b)). assert (L < 86) as HL.
  { unfold L. apply Z.log2_lt_pow2; [apply Z.div_str_pos; lia|]. apply Z.div_lt_upper_bound; lia. }
  assert ((0 <=? L - 64 - 23) = false) as -> by lia. cbn [fst snd]. set (k := - (L - 64 - 23)).
  assert (2 ^ 2 <= 2 ^ k) as Hk by (apply Z.pow_le_mono_r; lia). set (u := 2 ^ k) in *. clearbody u.
  change (2 ^ 2) with 4 in Hk. pose proof (round_even_near (p * u) b ltac:(lia)) as Hm.
  set (m := round_even (p * u) b) in *. clearbody m. clear HL L k.
  pose proof (Z.div_mod p b ltac:(lia)) as Hd. pose proof (Z.mod_pos_bound p b ltac:(lia)) as Hr.
  set (a := p / b) in *. set (r := p mod b) in *. clearbody a r. subst p.
  destruct (Z.eq_dec r 0) as [->|Hne].
  - assert (m = a * u) as -> by nia. rewrite <- Z.mul_opp_l, Z.div_mul by lia.
    apply (Z.div_unique_pos _ _ _ (b - 1)); lia.
  - assert (a * u < m <= (a + 1) * u) as Hmu by nia.
    assert (- m / u = - (a + 1)) as ->.
    { symmetry. apply (Z.div_unique_pos _ _ _ ((a + 1) * u - m)); lia. }
    rewrite Z.opp_involutive. apply (Z.div_unique_pos _ _ _ (r - 1)); lia.
Qed.

Lemma scaled_size_exact n a b :
  0 <= n < 2^24 -> 0 < a -> n * a < 2^24 -> 0 < b <= 4 -> n * a < 2^22 * b ->
  scaled_size n a b = (n * a + b - 1) / b.
Proof.
  intros Hn Ha Hna Hb Hlt. unfold scaled_size. destruct (float32_int n Hn) as (c & Hc & ->). cbn [fst snd].
  rewrite <- Z.mul_assoc, float32_scale by lia. destruct (float32_int (n * a) ltac:(nia)) as (c' & Hc' & ->).
  cbn [fst snd]. rewrite <- Z.mul_assoc, float32_scale, Z.mul_1_l by lia. apply ceil_float32; nia.
Qed.

(** The lengths that encoding and decoding need. *)
Definition encoded_length (n : Z) : Z := (8 * n + 5) / 6.
Definition decoded_room (k : Z) : Z := (6 * k + 7) / 8.

Lemma encode_size_small n : 0 <= n < 3145728 -> bit64_encode_size n = encoded_length n.
Proof.
  intros Hn. unfold bit64_encode_size, encoded_length. rewrite scaled_size_exact by lia.
  pose proof (Z.div_mod (n * 4 + 3 - 1) 3 ltac:(lia)). pose proof (Z.mod_pos_bound (n * 4 + 3 - 1) 3 ltac:(lia)).
  apply (Z.div_unique_pos _ _ _ (2 * ((n * 4 + 3 - 1) mod 3) + 1)); lia.
Qed.

Lemma decode_size_small n : 0 <= n < 5592405 -> bit64_decode_size n = decoded_room n.
Proof.
  intros Hn. unfold bit64_decode_size, decoded_room. rewrite scaled_size_exact by lia.
  pose proof (Z.div_mod (n * 3 + 4 - 1) 4 ltac:(lia)). pose proof (Z.mod_pos_bound (n * 3 + 4 - 1) 4 ltac:(lia)).
  apply (Z.div_unique_pos _ _ _ (2 * ((n * 3 + 4 - 1) mod 4) + 1)); lia.
Qed.

(** ** The theorems *)

Lemma reading_letters ds : Forall (digit 64) ds -> map reading (map letter ds) = ds.
Proof. induction 1 as [|d ds Hd _ IH]; [done|]. cbn. rewrite IH. f_equal. by apply letters. Qed.

Lemma letters_ascii F signed ds :
  Forall (digit 64) ds -> Forall (fun c => octet c /\ safe_char F signed c) (map letter ds).
Proof.
  induction 1 as [|d ds Hd _ IH]; [constructor|]. cbn. constructor; [|done].
  destruct (letters d Hd) as [H _]. split; [unfold octet; lia|right; lia].
Qed.

(** The digits of a text decode to it. *)
Lemma decoded_text (bs ds out : list Z) t :
  Forall octet bs -> Forall octet out -> 0 <= t ->
  Z.of_nat (length ds) = encoded_length (Z.of_nat (length bs)) ->
  Z.of_nat (length out) = 6 * Z.of_nat (length ds) / 8 ->
  number 256 out + 256 ^ Z.of_nat (length out) * t = number 256 bs -> t = 0 /\ out = bs.
Proof.
  intros Hb Ho Ht Hk Hl HN. assert (length out = length bs) as Hlen.
  { apply Nat2Z.inj. rewrite Hl, Hk. unfold encoded_length.
    pose proof (Z.div_mod (8 * Z.of_nat (length bs) + 5) 6 ltac:(lia)).
    pose proof (Z.mod_pos_bound (8 * Z.of_nat (length bs) + 5) 6 ltac:(lia)).
    symmetry. apply (Z.div_unique_pos _ _ _ (5 - (8 * Z.of_nat (length bs) + 5) mod 6)); lia. }
  pose proof (number_range 256 bs ltac:(lia) Hb) as Hr. pose proof (number_range 256 out ltac:(lia) Ho) as Hr'.
  rewrite Hlen in *. assert (t = 0) as -> by nia. split; [done|].
  apply (number_inj 256); try done. lia.
Qed.

Lemma text_octets s : Forall octet (bytes_of s).
Proof.
  unfold bytes_of. induction (list_ascii_of_string s) as [|c l IH]; [constructor|]. constructor; [|done].
  unfold octet, ch. pose proof (N_ascii_bounded c). lia.
Qed.

Definition no_state : bit64_map_t -> Prop := fun _ => False.

(** Lengths whose text form has an [int] number of characters. *)
Lemma encoded_int n : 0 <= n <= 1610612735 -> encoded_length n <= INT_MAX.
Proof. intros Hn. unfold encoded_length, INT_MAX. apply Z.lt_succ_r, Z.div_lt_upper_bound; lia. Qed.

(** C27: decoding inverts encoding: for every text of octets and buffers of the
    sizes they need, [bit64_decode] returns what [bit64_encode] was given,
    whether [char] is signed or not and whether or not the alphabet has been
    made; neither crashes, and every loop ends. *)
Theorem bit64_decode_encode (signed : bool) (bs : list Z) (cap cap' : Z) (m : bit64_map_t) :
  map_ok m -> Forall octet bs -> Z.of_nat (length bs) <= 1610612735 ->
  encoded_length (Z.of_nat (length bs)) <= cap ->
  decoded_room (encoded_length (Z.of_nat (length bs))) <= cap' ->
  wp strict (x ← bit64_encode bs cap; bit64_decode signed x cap')
    (fun r m' => r = bs /\ map_ok m') no_state m.
Proof.
  intros Hm Hb Hn Hc Hc'. pose proof (encoded_int (Z.of_nat (length bs)) ltac:(lia)) as Hi.
  assert (0 <= encoded_length (Z.of_nat (length bs))) as H0 by (apply Z.div_pos; lia).
  assert (0 <= decoded_room (encoded_length (Z.of_nat (length bs)))) as H1 by (apply Z.div_pos; lia).
  wp_step. apply wp_encode; [done|done|unfold INT_MAX; lia|lia|by right|].
  intros ds m1 Hm1 Hd HN Hk _. fold (encoded_length (Z.of_nat (length bs))) in Hk.
  apply wp_decode; [done|by apply letters_ascii|rewrite length_map; lia|lia|right|].
  { rewrite length_map, Hk. exact Hc'. }
  rewrite length_map, reading_letters by done. intros out t m2 Hm2 Ho Ht Hl HN'. rewrite HN in HN'.
  destruct (decoded_text bs ds out t Hb Ho ltac:(lia) Hk Hl HN') as [-> ->]. by rewrite app_nil_r.
Qed.

Lemma bit64_decode_encode_witness :
  wp strict (x ← bit64_encode (bytes_of "abcd") 6; bit64_decode true x 5)
    (fun r m' => r = bytes_of "abcd" /\ map_ok m') no_state bit64_map.
Proof.
  apply (bit64_decode_encode true (bytes_of "abcd") 6 5 bit64_map).
  - by left.
  - apply text_octets.
  - cbn. lia.
  - discriminate.
  - discriminate.
Defined.

(** The sizes computed in single precision are those the loops need, for
    texts of less than 3 MiB to encode and their encodings to decode. *)
Theorem bit64_sizes (n : Z) :
  (0 <= n < 3145728 -> bit64_encode_size n = encoded_length n)
  /\ (0 <= n < 5592405 -> bit64_decode_size n = decoded_room n).
Proof. split; [apply encode_size_small|apply decode_size_small]. Qed.

Lemma bit64_sizes_witness :
  bit64_encode_size 64 = encoded_length 64 /\ bit64_decode_size 86 = decoded_room 86.
Proof. split; [apply (bit64_sizes 64); lia|apply (bit64_sizes 86); lia]. Defined.

(** [Bit64::decodeString] after [Bit64::encodeString] returns the text
    followed by a NUL when its length is not a multiple of 3: the string keeps
    the size of its buffer and not that of the result. *)
Theorem decode_encode_string (signed : bool) (s : list Z) (m : bit64_map_t) :
  map_ok m -> Forall octet s -> Z.of_nat (length s) < 3145728 ->
  wp strict (x ← encodeString s; decodeString signed x)
    (fun r _ => r = s ++ (if Z.of_nat (length s) mod 3 =? 0 then [] else [0])) no_state m.
Proof.
  intros Hm Hs Hn. set (n := Z.of_nat (length s)) in *. assert (0 <= n) as Hn0 by lia.
  assert (encoded_length n < 5592405) as Hk by (apply Z.div_lt_upper_bound; lia).
  assert (0 <= encoded_length n) as H0 by (apply Z.div_pos; lia).
  wp_step. unfold encodeString. fold n. rewrite encode_size_small by lia. wp_step.
  apply wp_encode; [done|done|fold n; unfold INT_MAX; lia|done|by right|].
  fold n. fold (encoded_length n). intros ds m1 Hm1 Hd HN Hl _. wp_step.
  assert (resized (encoded_length n) (map letter ds) = map letter ds) as ->.
  { unfold resized. rewrite length_map. replace (Z.to_nat _ - _)%nat with 0%nat by lia. apply app_nil_r. }
  unfold decodeString. rewrite length_map, Hl, decode_size_small by lia. wp_step.
  apply wp_decode; [done|by apply letters_ascii|rewrite length_map; unfold INT_MAX; lia| |right|].
  { apply Z.div_pos; lia. }
  { by rewrite length_map, Hl. }
  rewrite length_map, reading_letters by done. intros out t m2 Hm2 Ho Ht Hlo HN'. rewrite HN in HN'. wp_step.
  destruct (decoded_text s ds out t Hs Ho ltac:(lia) Hl Hlo HN') as [-> ->]. rewrite app_nil_r.
  unfold resized. f_equal. replace (Z.to_nat (decoded_room (encoded_length n)) - length s)%nat
    with (if n mod 3 =? 0 then 0%nat else 1%nat); [by destruct (_ =? 0)|].
  pose proof (Z.div_mod n 3 ltac:(lia)). pose proof (Z.mod_pos_bound n 3 ltac:(lia)).
  set (a := n / 3) in *. set (r := n mod 3) in *. unfold encoded_length, decoded_room.
  assert ((8 * n + 5) / 6 = 4 * a + (if r =? 0 then 0 else r + 1)) as ->.
  { symmetry. apply (Z.div_unique_pos _ _ _ (8 * n + 5 - 6 * (4 * a + (if r =? 0 then 0 else r + 1)))); [|lia].
    destruct (r =? 0) eqn:E; lia. }
  assert ((6 * (4 * a + (if r =? 0 then 0 else r + 1)) + 7) / 8 = n + (if r =? 0 then 0 else 1)) as ->.
  { symmetry. apply (Z.div_unique_pos _ _ _ (6 * (4 * a + (if r =? 0 then 0 else r + 1)) + 7
      - 8 * (n + (if r =? 0 then 0 else 1)))); [|lia]. destruct (r =? 0) eqn:E; lia. }
  destruct (r =? 0); lia.
Qed.

Lemma decode_encode_string_witness :
  wp strict (x ← encodeString (bytes_of "abcd"); decodeString true x)
    (fun r _ => r = bytes_of "abcd" ++ [0]) no_state bit64_map.
Proof.
  apply (decode_encode_string true (bytes_of "abcd") bit64_map).
  - by left.
  - apply text_octets.
  - cbn. lia.
Defined.

(** A program that can neither return, fail nor run out of fuel crashes. *)
Definition only_crash : faults := mkFaults True False.

Lemma must_crash {S A} (p : prog S A) s : wp only_crash p (fun _ _ => False) (fun _ => False) s -> p s = Crash.
Proof. unfold wp. by destruct (p s). Qed.

(** Single precision is not enough for a text of 6291457 octets: the size
    is one less than the number of characters, and [Bit64::encodeString] writes
    past the end of its string. *)
Theorem encode_string_overflows (s : list Z) (m : bit64_map_t) :
  map_ok m -> Forall octet s -> Z.of_nat (length s) = 6291457 -> encodeString s m = Crash.
Proof.
  intros Hm Hs Hn. apply must_crash. unfold encodeString. rewrite Hn.
  assert (bit64_encode_size 6291457 = 8388609) as -> by (vm_compute; reflexivity). wp_step.
  apply wp_encode; [done|done|unfold INT_MAX; lia|lia|by left|].
  rewrite Hn. change ((8 * 6291457 + 5) / 6) with 8388610. lia.
Qed.

Lemma encode_string_overflows_witness :
  encodeString (repeat 0 (Z.to_nat 6291457)) bit64_map = Crash.
Proof.
  apply (encode_string_overflows (repeat 0 (Z.to_nat 6291457)) bit64_map).
  - by left.
  - apply Forall_forall. intros b Hb. apply list_elem_of_In, repeat_spec in Hb. subst b. unfold octet. lia.
  - rewrite repeat_length. by apply Z2Nat.id.
Defined.

(** Where [char] is signed, [Bit64::decodeString] reads outside [rev_map]
    on every text with an octet above 127. *)
Theorem decode_string_outside (s : list Z) (m : bit64_map_t) :
  map_ok m -> Forall octet s -> Exists (fun c => 128 <= c) s -> Z.of_nat (length s) < 5592405 ->
  decodeString true s m = Crash.
Proof.
  intros Hm Hs Hx Hn. apply must_crash. unfold decodeString. rewrite decode_size_small by lia. wp_step.
  unfold bit64_decode. rewrite int_prefix_all by (unfold INT_MAX; lia). wp_step.
  set (cap := decoded_room _). assert (0 <= cap) as H0 by (apply Z.div_pos; lia). clearbody cap.
  apply (wp_for_octets only_crash _ (fun done x m => after_char cap done x m /\ Forall (fun c => c < 128) done)).
  - intros done c x m1 [todo Hcs] [Hac Ha].
    assert (octet c) as Hb by (rewrite Hcs, Forall_app, Forall_cons in Hs; tauto).
    destruct (Z_lt_le_dec c 128) as [Hlt|Hge].
    + eapply wp_mono; [apply (wp_decode_one only_crash (fun _ => False)); [done|done|right; lia|by left]| |done]. cbv beta.
      intros x' m' Hx'. split; [done|]. apply Forall_app. split; [done|]. by apply Forall_singleton.
    + destruct x as [[tb tmp] out]. wp_step. unfold bit64_hex64rev. wp_step.
      apply wp_need_index; [apply Hac|]. wp_step. apply wp_gets.
      by assert (true && (128 <=? c) = true) as -> by lia.
  - split; [by apply after_no_char|constructor].
  - intros x m1 (_ & Ha). apply Exists_exists in Hx as (c & Hc & Hge).
    rewrite Forall_forall in Ha. specialize (Ha c Hc). lia.
Qed.

Lemma decode_string_outside_witness : decodeString true [ch "a"; 0xe9] bit64_map = Crash.
Proof.
  apply (decode_string_outside [ch "a"; 0xe9] bit64_map).
  - by left.
  - rewrite !Forall_cons. unfold octet. by vm_compute.
  - apply Exists_cons_tl, Exists_cons_hd. lia.
  - cbn. lia.
Defined.

(** ** Decoding as a function *)

(** The first [n] digits of a number. *)
Fixpoint digits_of (base : Z) (n : nat) (N : Z) : list Z :=
  match n with O => [] | S k => N mod base :: digits_of base k (N / base) end.

(** What a text of characters stands for. *)
Definition decoded (cs : list Z) : list Z :=
  let N := number 64 (map reading cs) in
  let n := 6 * Z.of_nat (length cs) / 8 in
  let t := N / 256 ^ n in
  digits_of 256 (Z.to_nat n) N ++ (if t =? 0 then [] else [t]).

Lemma digits_of_number base l t :
  0 < base -> Forall (digit base) l ->
  digits_of base (length l) (number base l + base ^ Z.of_nat (length l) * t) = l.
Proof.
  intros Hb. induction 1 as [|d l Hd _ IH]; [done|]. cbn [digits_of number length]. unfold digit in Hd.
  rewrite Nat2Z.inj_succ, Z.pow_succ_r by lia.
  replace (d + base * number base l + base * base ^ Z.of_nat (length l) * t)
    with (d + (number base l + base ^ Z.of_nat (length l) * t) * base) by ring.
  rewrite Z.mod_add, Z.mod_small, Z.div_add, Z.div_small, Z.add_0_l by lia. by rewrite IH.
Qed.

Lemma decoded_spec cs out t :
  Forall octet out -> 0 <= t -> Z.of_nat (length out) = 6 * Z.of_nat (length cs) / 8 ->
  number 256 out + 256 ^ Z.of_nat (length out) * t = number 64 (map reading cs) ->
  out ++ (if t =? 0 then [] else [t]) = decoded cs.
Proof.
  intros Ho Ht Hl HN. unfold decoded. rewrite <- HN, <- Hl, Nat2Z.id.
  rewrite digits_of_number by (done || lia). pose proof (number_range 256 out ltac:(lia) Ho).
  rewrite Z.add_comm, Z.mul_comm, Z.div_add_l, Z.div_small, Z.add_0_r by lia. done.
Qed.

(** Characters that index the table (unless reading outside it is allowed), and
    a length for which the sizes are exact. *)
Definition readable (F : faults) (signed : bool) (cs : list Z) : Prop :=
  Forall (fun c => octet c /\ safe_char F signed c) cs /\ Z.of_nat (length cs) < 5592405.

Lemma decoded_length cs :
  Forall octet cs ->
  6 * Z.of_nat (length cs) / 8 <= Z.of_nat (length (decoded cs)) <= decoded_room (Z.of_nat (length cs)).
Proof.
  intros Hc. unfold decoded. set (k := Z.of_nat (length cs)). set (n := 6 * k / 8).
  set (t := number 64 (map reading cs) / 256 ^ n).
  assert (forall n N, length (digits_of 256 n N) = n) as Hd by (induction n0; intros; cbn; auto).
  assert (0 <= n) as Hn0 by (apply Z.div_pos; lia).
  rewrite length_app, Hd, Nat2Z.inj_add, Z2Nat.id by done. unfold decoded_room.
  pose proof (Z.div_mod (6 * k) 8 ltac:(lia)) as Hdm. fold n in Hdm.
  pose proof (Z.mod_pos_bound (6 * k) 8 ltac:(lia)).
  destruct (t =? 0) eqn:Et; cbn [length]; split; try lia; apply Z.div_le_lower_bound; try lia.
  destruct (Z.eq_dec ((6 * k) mod 8) 0) as [Hz|Hz]; [|lia]. exfalso.
  assert (t = 0); [|lia]. unfold t. apply Z.div_small.
  assert (Forall (digit 64) (map reading cs)) as Hr.
  { clear - Hc. induction Hc; [constructor|]. constructor; [by apply readings|done]. }
  pose proof (number_range 64 _ ltac:(lia) Hr) as Hn. rewrite length_map in Hn. fold k in Hn.
  replace (256 ^ n) with (64 ^ k); [done|]. change 256 with (2 ^ 8). change 64 with (2 ^ 6).
  rewrite <- !Z.pow_mul_r by lia. f_equal. lia.
Qed.

Lemma wp_decoded F signed cs m (Q : list Z -> bit64_map_t -> Prop) E :
  map_ok m -> readable F signed cs ->
  (forall m', map_ok m' -> Forall octet (decoded cs) -> Q (decoded cs) m') ->
  wp F (bit64_decode signed cs (bit64_decode_size (Z.of_nat (length cs)))) Q E m.
Proof.
  intros Hm [Hc Hl] HQ. rewrite decode_size_small by lia.
  apply wp_decode; [done|done|unfold INT_MAX; lia|apply Z.div_pos; lia|right; done|].
  intros out t m' Hm' Ho Ht Hn HN. pose proof (decoded_spec cs out t Ho ltac:(lia) Hn HN) as Hd. rewrite Hd.
  apply HQ; [done|]. rewrite <- Hd. apply Forall_app. split; [done|]. destruct (t =? 0); [constructor|].
  apply Forall_singleton. split; [lia|]. eapply Z.lt_le_trans; [apply Ht|]. change 256 with (2 ^ 8).
  apply Z.pow_le_mono_r; [lia|]. rewrite Hn. pose proof (Z.div_mod (6 * Z.of_nat (length cs)) 8 ltac:(lia)).
  pose proof (Z.mod_pos_bound (6 * Z.of_nat (length cs)) 8 ltac:(lia)). lia.
Qed.
