(* ===== verification/AppYaml.v ===== *)
(** * retroconfig: the YAML reader of the application ([YAML.cpp], [YAML.h])

    [gs::yaml], the value that [LibraryContext::parseLibrary] reads a library
    description with: a tokenizer over [yaml_parser_parse], three mutually
    recursive routines that build the value, and the accessors.  [YAML::parse],
    the entry for scripts, is a second, separate loop over the same events. *)

From Stdlib Require Import ZArith Lia Ascii String.
From stdpp Require Import base list option strings.
From S2P Require Import Prelude YamlData YamlReader YamlChars YamlScanner YamlParser.
From S2P Require Import YamlEvents YamlRefinement YamlFrame YamlLevels.

#[local] Open Scope Z_scope.
#[local] Set Warnings "-register-all".

(** ** Values *)

Inductive yaml_kind : Type := KNone | KValue | KArray | KMap.

#[export] Instance yaml_kind_eq_dec : EqDecision yaml_kind.
Proof. solve_decision. Defined.

(** The members of class [yaml]; the map in the order of its keys. *)
Inductive yaml : Type := mkYaml {
  y_type : yaml_kind;
  y_value : list Z;
  y_array : list yaml;
  y_map : list (list Z * yaml)
}.

(** The constructors from a type and from a C string. *)
Definition yaml_of_type (t : yaml_kind) : yaml := mkYaml t [] [] [].
Definition yaml_of_cstr (s : list Z) : yaml := mkYaml KValue (cstr s) [] [].

(** The order of [std::map<std::string, ...>]. *)
Fixpoint bytes_lt (a b : list Z) : bool :=
  match a, b with
  | _, [] => false
  | [], _ :: _ => true
  | x :: a', y :: b' => (x <? y) || ((x =? y) && bytes_lt a' b')
  end.

Fixpoint map_set {V} (k : list Z) (v : V) (m : list (list Z * V)) : list (list Z * V) :=
  match m with
  | [] => [(k, v)]
  | (k', v') :: m' =>
      if bool_decide (k = k') then (k, v) :: m'
      else if bytes_lt k k' then (k, v) :: m
      else (k', v') :: map_set k v m'
  end.

Fixpoint map_find {V} (k : list Z) (m : list (list Z * V)) : option V :=
  match m with
  | [] => None
  | (k', v) :: m' => if bool_decide (k = k') then Some v else map_find k m'
  end.

(** [y[key] = v]: the proxy assigns to a map only. *)
Definition yaml_assign (key : list Z) (v y : yaml) : yaml :=
  match y.(y_type) with
  | KMap => mkYaml KMap y.(y_value) y.(y_array) (map_set key v y.(y_map))
  | _ => y
  end.

(** [yaml(y[key])]. *)
Definition yaml_get (key : list Z) (y : yaml) : yaml :=
  match y.(y_type) with
  | KMap => match map_find key y.(y_map) with Some v => v | None => yaml_of_type KNone end
  | _ => yaml_of_type KNone
  end.

(** [y << v]. *)
Definition yaml_push (v y : yaml) : yaml :=
  match y.(y_type) with
  | KArray => mkYaml KArray y.(y_value) (y.(y_array) ++ [v]) y.(y_map)
  | _ => y
  end.

Definition yaml_has (key : list Z) (y : yaml) : bool :=
  match y.(y_type) with
  | KMap => is_some (map_find key y.(y_map))
  | _ => false
  end.

Definition yaml_size (y : yaml) : Z :=
  match y.(y_type) with
  | KArray => Z.of_nat (length y.(y_array))
  | KMap => Z.of_nat (length y.(y_map))
  | _ => 0
  end.

Definition is_map (y : yaml) : bool := bool_decide (y.(y_type) = KMap).
Definition is_array (y : yaml) : bool := bool_decide (y.(y_type) = KArray).

Definition in_set (s : list Z) (l : list string) : bool :=
  existsb (fun x => bool_decide (s = bytes_of x)) l.

Definition true_set : list string := ["y"; "yes"; "true"; "on"; "Y"; "YES"; "TRUE"; "ON"]%string.
Definition false_set : list string := ["n"; "no"; "false"; "off"; "N"; "NO"; "FALSE"; "OFF"]%string.
Definition inf_set : list string := [".inf"; "+.inf"; ".INF"; "+.INF"]%string.
Definition neg_inf_set : list string := ["-.inf"; "-.INF"]%string.
Definition nan_set : list string := [".nan"; ".NAN"]%string.

Definition is_boolean (y : yaml) : bool :=
  match y.(y_type) with
  | KValue => in_set y.(y_value) true_set || in_set y.(y_value) false_set
  | _ => false
  end.

(** The iterators that follow the tests of the three sets are not used. *)
Definition is_number (y : yaml) : bool :=
  match y.(y_type) with
  | KValue => in_set y.(y_value) inf_set || in_set y.(y_value) neg_inf_set
              || in_set y.(y_value) nan_set
  | _ => false
  end.

(** [operator bool] and [operator std::string]. *)
Definition yaml_bool (y : yaml) : bool :=
  match y.(y_type) with
  | KArray => negb (bool_decide (length y.(y_array) = 0%nat))
  | KMap => negb (bool_decide (length y.(y_map) = 0%nat))
  | _ =>
      if in_set y.(y_value) true_set then true
      else if in_set y.(y_value) false_set then false
      else negb (bool_decide (y.(y_value) = []))
  end.

Definition yaml_string (y : yaml) : list Z :=
  match y.(y_type) with KValue => y.(y_value) | _ => [] end.

(** ** The tokenizer *)

Record tokenizer : Type := mkTokenizer {
  tk_parser : yaml_parser_t;
  tk_event : yaml_event_t
}.

Section reading.
Context `{src : TokenSource} (fuel : nat).

(** [next()]: the result of [yaml_parser_parse], which clears the event first. *)
Definition next : prog tokenizer bool := fun tk =>
  match yaml_parser_parse fuel tk.(tk_parser) with
  | Ret ev p => Ret true (mkTokenizer p ev)
  | Err p => Ret false (mkTokenizer p no_event)
  | Crash => Crash
  | Timeout => Timeout
  end.

Definition current : prog tokenizer yaml_event_data := gets (fun tk => tk.(tk_event).(event_data)).

(** [if (current() == YAML_DOCUMENT_END_EVENT || !next()) break;]: [false] to
    leave the loop. *)
Definition goes_on : prog tokenizer bool :=
  e ← current;
  match e with
  | YAML_DOCUMENT_END_EVENT _ => mret false
  | _ => next
  end.

(** ** Building a value

    One unit of [n] is a turn of one of the three loops, or a call. *)
Fixpoint parse_node (n : nat) : prog tokenizer yaml :=
  match n with
  | O => timeout
  | S n' =>
      e ← current;
      match e with
      | YAML_SCALAR_EVENT _ _ v _ _ _ _ => mret (yaml_of_cstr v)
      | YAML_MAPPING_START_EVENT _ _ _ _ => parse_map n' (yaml_of_type KMap)
      | YAML_SEQUENCE_START_EVENT _ _ _ _ => parse_array n' (yaml_of_type KArray)
      | _ =>
          go ← goes_on;
          if (go : bool) then parse_node n' else mret (yaml_of_type KNone)
      end
  end
with parse_map (n : nat) (cur : yaml) : prog tokenizer yaml :=
  match n with
  | O => timeout
  | S n' =>
      e ← current;
      match e with
      | YAML_MAPPING_END_EVENT => mret cur
      | _ =>
          cur ← (match e with
                 | YAML_SCALAR_EVENT _ _ k _ _ _ _ =>
                     _ ← next;
                     v ← parse_node n';
                     mret (yaml_assign (cstr k) v cur)
                 | _ => mret cur
                 end);
          go ← goes_on;
          if (go : bool) then parse_map n' cur else mret cur
      end
  end
with parse_array (n : nat) (cur : yaml) : prog tokenizer yaml :=
  match n with
  | O => timeout
  | S n' =>
      e ← current;
      match e with
      | YAML_SEQUENCE_END_EVENT => mret cur
      | _ =>
          v ← parse_node n';
          go ← goes_on;
          if (go : bool) then parse_array n' (yaml_push v cur) else mret (yaml_push v cur)
      end
  end.

(** The loop of [yaml::parse]. *)
Fixpoint parse_documents (n : nat) (doc : yaml) : prog tokenizer yaml :=
  match n with
  | O => timeout
  | S n' =>
      _ ← next;
      e ← current;
      doc ← (match e with
             | YAML_DOCUMENT_START_EVENT _ _ _ => parse_node n'
             | _ => mret doc
             end);
      e ← current;
      match e with
      | YAML_DOCUMENT_END_EVENT _ => mret doc
      | _ => parse_documents n' doc
      end
  end.

Definition start_tokenizer (p : yaml_parser_t) : tokenizer := mkTokenizer p no_event.

Definition yaml_parse (n : nat) (str : list Z) : outcome tokenizer yaml :=
  parse_documents n (yaml_of_type KNone) (start_tokenizer (yaml_parser_initialize str)).
End reading.

(** ** What a document of mappings spells *)

Inductive ytree : Type :=
| YScalar (s : list Z)
| YMap (kvs : list (list Z * ytree)).

(** The events of a tree; pairs are in the order of the document. *)
Inductive spells : ytree -> list yaml_event_data -> Prop :=
| sp_scalar a t v len pi qi st :
    spells (YScalar (cstr v)) [YAML_SCALAR_EVENT a t v len pi qi st]
| sp_map a t i st kvs es :
    spells_pairs kvs es ->
    spells (YMap kvs) (YAML_MAPPING_START_EVENT a t i st :: es ++ [YAML_MAPPING_END_EVENT])
with spells_pairs : list (list Z * ytree) -> list yaml_event_data -> Prop :=
| sp_nil : spells_pairs [] []
| sp_cons a t k len pi qi st v es kvs es' :
    spells v es -> spells_pairs kvs es' ->
    spells_pairs ((cstr k, v) :: kvs) (YAML_SCALAR_EVENT a t k len pi qi st :: es ++ es').

Scheme spells_mind := Minimality for spells Sort Prop
  with spells_pairs_mind := Minimality for spells_pairs Sort Prop.
Combined Scheme spells_both from spells_mind, spells_pairs_mind.

(** The value of a tree: the last of several equal keys wins. *)
Fixpoint yaml_of (t : ytree) : yaml :=
  match t with
  | YScalar s => mkYaml KValue s [] []
  | YMap kvs =>
      (fix build (kvs : list (list Z * ytree)) (y : yaml) : yaml :=
         match kvs with
         | [] => y
         | (k, v) :: kvs' => build kvs' (yaml_assign k (yaml_of v) y)
         end) kvs (yaml_of_type KMap)
  end.

Definition assign_pairs (kvs : list (list Z * ytree)) (y : yaml) : yaml :=
  foldl (fun y kv => yaml_assign kv.1 (yaml_of kv.2) y) y kvs.

Lemma yaml_of_map kvs : yaml_of (YMap kvs) = assign_pairs kvs (yaml_of_type KMap).
Proof.
  cbn [yaml_of]. unfold assign_pairs. generalize (yaml_of_type KMap).
  induction kvs as [|[k v] kvs IH]; intros y; cbn [foldl]; [done|]. apply IH.
Qed.

(** ** Delivered events *)

(** The tokenizer stands on [e], with the parser [p] behind it. *)
Definition on_event (e : yaml_event_data) (p : yaml_parser_t) (tk : tokenizer) : Prop :=
  tk.(tk_parser) = p /\ tk.(tk_event).(event_data) = e.

Lemma current_on e p tk : on_event e p tk -> current tk = Ret e tk.
Proof. intros [_ <-]. done. Qed.

(** One step of the routines, by what the current event is. *)
Ltac run_current H := etransitivity; [eapply prog_bind_ret, current_on; exact H|]; cbv beta iota.
Ltac run_with H := etransitivity; [eapply prog_bind_ret; exact H|]; cbv beta iota.

Section correct.
Context `{src : TokenSource} (fuel : nat).

(** Successive calls of [yaml_parser_parse] return these events. *)
Inductive delivers : yaml_parser_t -> list yaml_event_data -> yaml_parser_t -> Prop :=
| dl_nil p : delivers p [] p
| dl_cons p ev p1 es p2 :
    yaml_parser_parse fuel p = Ret ev p1 -> delivers p1 es p2 ->
    delivers p (ev.(event_data) :: es) p2.

Lemma delivers_app p es es' p2 :
  delivers p (es ++ es') p2 -> exists p1, delivers p es p1 /\ delivers p1 es' p2.
Proof.
  revert p. induction es as [|e es IH]; intros p H; cbn in H.
  - exists p. split; [constructor|done].
  - inversion H; subst. edestruct IH as (q & H1 & H2); [done|].
    exists q. split; [by econstructor|done].
Qed.

Lemma next_delivers p e es p2 tk :
  tk.(tk_parser) = p -> delivers p (e :: es) p2 ->
  exists p1 tk', next fuel tk = Ret true tk' /\ on_event e p1 tk' /\ delivers p1 es p2.
Proof.
  intros Hp H. inversion H as [|? ev p1 ? ? Hc Hd]; subst. exists p1, (mkTokenizer p1 ev).
  unfold next. rewrite Hc. done.
Qed.

(** A node is read up to its last event. *)
Definition reads_node (t : ytree) (es : list yaml_event_data) : Prop :=
  forall e es0 n p p' tk, es = e :: es0 -> on_event e p tk -> delivers p es0 p' ->
  (length es < n)%nat ->
  exists tk' l, parse_node fuel n tk = Ret (yaml_of t) tk' /\ on_event l p' tk'
    /\ forall b, l <> YAML_DOCUMENT_END_EVENT b.

(** The pairs of a mapping are read up to its end event. *)
Definition reads_pairs (kvs : list (list Z * ytree)) (es : list yaml_event_data) : Prop :=
  forall e es0 n y p p' tk, es ++ [YAML_MAPPING_END_EVENT] = e :: es0 ->
  on_event e p tk -> delivers p es0 p' -> (length es < n)%nat ->
  exists tk', parse_map fuel n y tk = Ret (assign_pairs kvs y) tk'
    /\ on_event YAML_MAPPING_END_EVENT p' tk'.

Lemma goes_on_next e p tk :
  on_event e p tk -> (forall b, e <> YAML_DOCUMENT_END_EVENT b) -> goes_on fuel tk = next fuel tk.
Proof.
  intros H Hn. unfold goes_on. etransitivity; [eapply prog_bind_ret, current_on; done|].
  cbv beta. destruct e; try done. by destruct (Hn implicit).
Qed.

Lemma spells_nonempty t es : spells t es -> exists e es0, es = e :: es0.
Proof. by destruct 1; eauto. Qed.

Lemma reads_scalar a t v len pi qi st :
  reads_node (YScalar (cstr v)) [YAML_SCALAR_EVENT a t v len pi qi st].
Proof.
  intros e es0 n p p' tk [= <- <-] Ht Hd Hn.
  destruct n as [|n]; [cbn in Hn; lia|]. inversion Hd; subst. eexists tk, _.
  split; [|split; [done|done]]. cbn [parse_node]. by run_current Ht.
Qed.

Lemma reads_mapping a t i st kvs es :
  reads_pairs kvs es ->
  reads_node (YMap kvs) (YAML_MAPPING_START_EVENT a t i st :: es ++ [YAML_MAPPING_END_EVENT]).
Proof.
  intros IH e es0 n p p' tk [= <- <-] Ht Hd Hn. destruct n as [|[|n]]; try (cbn in Hn; lia).
  assert (exists e1 es1, es ++ [YAML_MAPPING_END_EVENT] = e1 :: es1) as (e1 & es1 & He)
    by (destruct es; cbn; eauto).
  rewrite He in Hd. destruct (next_delivers p e1 es1 p' tk (proj1 Ht) Hd) as (p1 & tk1 & Hx & H1 & H2).
  cbn [length] in Hn. rewrite length_app in Hn. cbn [length] in Hn.
  destruct (IH e1 es1 n (yaml_of_type KMap) p1 p' tk1 He H1 H2 ltac:(lia)) as (tk' & Hr & Ho).
  exists tk', YAML_MAPPING_END_EVENT. split; [|done].
  rewrite yaml_of_map, <- Hr. rewrite <- (goes_on_next _ _ _ Ht) in Hx by done.
  cbn [parse_node]. run_current Ht. cbn [parse_map]. run_current Ht. run_step. by run_with Hx.
Qed.

Lemma reads_no_pairs : reads_pairs [] [].
Proof.
  intros e es0 n y p p' tk [= <- <-] Ht Hd Hn. destruct n as [|n]; [cbn in Hn; lia|].
  inversion Hd; subst. exists tk. split; [|done]. cbn [parse_map]. by run_current Ht.
Qed.

Lemma reads_pair a t k len pi qi st v es kvs es' :
  spells v es -> reads_node v es -> reads_pairs kvs es' ->
  reads_pairs ((cstr k, v) :: kvs) (YAML_SCALAR_EVENT a t k len pi qi st :: es ++ es').
Proof.
  intros Hv IHv IHp e es0 n y p p' tk He Ht Hd Hn.
  rewrite <- app_comm_cons, <- app_assoc in He. injection He as <- <-.
  destruct (spells_nonempty _ _ Hv) as (ev & es1 & ->).
  destruct n as [|n]; [cbn in Hn; lia|]. cbn [length] in Hn. rewrite length_app in Hn.
  (* the key, then the value *)
  destruct (next_delivers p ev _ p' tk (proj1 Ht) Hd) as (p1 & tk1 & Hx1 & H1 & Hd1).
  apply delivers_app in Hd1 as (p2 & Hd1 & Hd2).
  destruct (IHv ev es1 n p1 p2 tk1 eq_refl H1 Hd1 ltac:(lia)) as (tk2 & l & Hr2 & H2 & Hl).
  (* the next pair or the end *)
  assert (exists e3 es3, es' ++ [YAML_MAPPING_END_EVENT] = e3 :: es3) as (e3 & es3 & He3)
    by (destruct es'; cbn; eauto).
  rewrite He3 in Hd2.
  destruct (next_delivers p2 e3 es3 p' tk2 (proj1 H2) Hd2) as (p3 & tk3 & Hx3 & H3 & Hd3).
  destruct (IHp e3 es3 n (yaml_assign (cstr k) (yaml_of v) y) p3 p' tk3 He3 H3 Hd3
              ltac:(cbn [length] in Hn; lia)) as (tk' & Hr & Ho).
  exists tk'. split; [|done]. rewrite <- (goes_on_next _ _ _ H2) in Hx3 by done.
  change (assign_pairs ((cstr k, v) :: kvs) y)
    with (assign_pairs kvs (yaml_assign (cstr k) (yaml_of v) y)). rewrite <- Hr.
  cbn [parse_map]. run_current Ht. etransitivity.
  { eapply prog_bind_ret. run_with Hx1. run_with Hr2. reflexivity. }
  cbv beta. by run_with Hx3.
Qed.

Lemma reads_correct :
  (forall t es, spells t es -> reads_node t es)
  /\ (forall kvs es, spells_pairs kvs es -> reads_pairs kvs es).
Proof.
  apply spells_both; auto using reads_scalar, reads_mapping, reads_no_pairs, reads_pair.
Qed.

Lemma reads_document t es n p p' enc v td i b doc :
  spells t es ->
  delivers p (YAML_STREAM_START_EVENT enc :: YAML_DOCUMENT_START_EVENT v td i
              :: es ++ [YAML_DOCUMENT_END_EVENT b]) p' ->
  (length es + 3 < n)%nat ->
  exists tk, parse_documents fuel n doc (start_tokenizer p) = Ret (yaml_of t) tk
             /\ tk.(tk_parser) = p'.
Proof.
  intros Hs Hd Hn. destruct n as [|[|[|n]]]; try lia.
  destruct (next_delivers p _ _ p' (start_tokenizer p) eq_refl Hd) as (p1 & tk1 & X1 & H1 & D1).
  destruct (next_delivers p1 _ _ p' tk1 (proj1 H1) D1) as (p2 & tk2 & X2 & H2 & D2).
  destruct (spells_nonempty _ _ Hs) as (e & es0 & ->). rewrite <- app_comm_cons in D2.
  destruct (next_delivers p2 _ _ p' tk2 (proj1 H2) D2) as (p3 & tk3 & X3 & H3 & D3).
  apply delivers_app in D3 as (p4 & D3 & D4).
  destruct (proj1 reads_correct t _ Hs e es0 n p3 p4 tk3 eq_refl H3 D3 ltac:(lia))
    as (tk4 & l & R4 & H4 & Hl).
  destruct (next_delivers p4 _ _ p' tk4 (proj1 H4) D4) as (p5 & tk5 & X5 & H5 & D5).
  inversion D5; subst. exists tk5. split; [|by apply H5].
  rewrite <- (goes_on_next _ _ _ H2) in X3 by done.
  cbn [parse_documents]. run_with X1. run_current H1. run_step. run_current H1.
  run_with X2. run_current H2. etransitivity.
  { eapply prog_bind_ret. cbn [parse_node]. run_current H2. run_with X3. exact R4. }
  cbv beta. run_current H4.
  assert (forall A (x y : A), match l with YAML_DOCUMENT_END_EVENT _ => x | _ => y end = y) as ->
    by (intros; destruct l; try done; by destruct (Hl implicit)).
  cbn [parse_documents]. run_with X5. run_current H5. run_step. by run_current H5.
Qed.
End correct.

(** ** Look-up *)

Lemma find_set_same {V} k (v : V) m : map_find k (map_set k v m) = Some v.
Proof.
  induction m as [|[k' v'] m IH]; cbn.
  - by rewrite bool_decide_eq_true_2.
  - destruct (bool_decide_reflect (k = k')) as [->|Hk]; cbn; [by rewrite bool_decide_eq_true_2|].
    destruct (bytes_lt k k'); cbn; [by rewrite bool_decide_eq_true_2|].
    by rewrite bool_decide_eq_false_2.
Qed.

Lemma find_set_other {V} k k' (v : V) m : k <> k' -> map_find k (map_set k' v m) = map_find k m.
Proof.
  intros Hk. induction m as [|[k1 v1] m IH]; cbn.
  - by rewrite bool_decide_eq_false_2.
  - destruct (bool_decide_reflect (k' = k1)) as [->|Hk']; cbn.
    { by rewrite !bool_decide_eq_false_2. }
    destruct (bytes_lt k' k1); cbn; [by rewrite (bool_decide_eq_false_2 (k = k'))|].
    by rewrite IH.
Qed.

(** The last binding of a key. *)
Fixpoint last_binding (k : list Z) (kvs : list (list Z * ytree)) : option ytree :=
  match kvs with
  | [] => None
  | (k', v) :: kvs' =>
      match last_binding k kvs' with
      | Some v' => Some v'
      | None => if bool_decide (k = k') then Some v else None
      end
  end.

Lemma assign_pairs_type kvs y : y.(y_type) = KMap -> (assign_pairs kvs y).(y_type) = KMap.
Proof.
  revert y. induction kvs as [|[k v] kvs IH]; intros y Hy; [done|].
  apply IH. unfold yaml_assign. by rewrite Hy.
Qed.

Lemma find_assign_pairs k kvs y :
  y.(y_type) = KMap ->
  map_find k (assign_pairs kvs y).(y_map) =
  match last_binding k kvs with Some v => Some (yaml_of v) | None => map_find k y.(y_map) end.
Proof.
  revert y. induction kvs as [|[k' v] kvs IH]; intros y Hy; [done|].
  change (assign_pairs ((k', v) :: kvs) y) with (assign_pairs kvs (yaml_assign k' (yaml_of v) y)).
  assert (y_type (yaml_assign k' (yaml_of v) y) = KMap) by (unfold yaml_assign; by rewrite Hy).
  rewrite IH by done. cbn. destruct (last_binding k kvs); [done|].
  unfold yaml_assign. rewrite Hy. cbn.
  case_bool_decide as E; [subst; by rewrite find_set_same|by rewrite find_set_other].
Qed.

(** ** [YAML::parse], the entry for scripts *)

Inductive variant : Type :=
| VNull
| VString (s : list Z)
| VArray (l : list variant)
| VMap (m : list (list Z * variant)).

Inductive current_type : Type := CNone | CMapping | CSequence.

(** The locals declared inside the loop. *)
Record script_locals : Type := mkLocals {
  currentMap : list (list Z * variant);
  currentArray : list variant;
  currentType : current_type;
  key : list Z
}.

Definition fresh_locals : script_locals := mkLocals [] [] CNone [].

Section script.
Context `{src : TokenSource} (fuel : nat) (variant_str : variant -> list Z).

(** The lambda [send]. *)
Definition send (v : variant) (l : script_locals) : script_locals :=
  match l.(currentType) with
  | CMapping =>
      if bool_decide (l.(key) = []) then
        mkLocals l.(currentMap) l.(currentArray) l.(currentType) (variant_str v)
      else
        mkLocals (map_set l.(key) v l.(currentMap)) l.(currentArray) l.(currentType) l.(key)
  | CSequence => mkLocals l.(currentMap) (l.(currentArray) ++ [v]) l.(currentType) l.(key)
  | CNone => l
  end.

(** The switch on the type of the event: the locals and [result] after it. *)
Definition script_event (e : yaml_event_data) (l : script_locals) (result : variant) :
    script_locals * variant :=
  match e with
  | YAML_DOCUMENT_END_EVENT _ =>
      (l, match l.(currentType) with
          | CMapping => VMap l.(currentMap)
          | CSequence => VArray l.(currentArray)
          | CNone => result
          end)
  | YAML_MAPPING_START_EVENT _ _ _ _ => (mkLocals [] l.(currentArray) CMapping l.(key), result)
  | YAML_MAPPING_END_EVENT => (send (VMap l.(currentMap)) l, result)
  | YAML_SEQUENCE_START_EVENT _ _ _ _ => (mkLocals l.(currentMap) [] CSequence l.(key), result)
  | YAML_SEQUENCE_END_EVENT => (send (VArray l.(currentArray)) l, result)
  | YAML_SCALAR_EVENT _ _ v _ _ _ _ => (send (VString (cstr v)) l, result)
  | _ => (l, result)
  end.

Fixpoint script_loop (n : nat) (result : variant) : yaml_prog variant :=
  match n with
  | O => timeout
  | S n' =>
      r ← attempt (yaml_parser_parse fuel);
      match r with
      | None => mret VNull
      | Some ev =>
          let result := (script_event ev.(event_data) fresh_locals result).2 in
          match ev.(event_data) with
          | YAML_DOCUMENT_END_EVENT _ => mret result
          | _ => script_loop n' result
          end
      end
  end.

Definition script_parse (n : nat) (str : list Z) : outcome yaml_parser_t variant :=
  script_loop n VNull (yaml_parser_initialize str).

Lemma script_event_fresh e result : (script_event e fresh_locals result).2 = result.
Proof. by destruct e. Qed.

Lemma script_loop_null n p v p' : script_loop n VNull p = Ret v p' -> v = VNull.
Proof.
  revert p. induction n as [|n IH]; intros p; [done|]. cbn [script_loop].
  unfold mbind, prog_bind, attempt.
  destruct (yaml_parser_parse fuel p) as [ev q| q | |]; try done; [|by intros [= <-]].
  rewrite script_event_fresh. destruct (event_data ev); try apply IH. by intros [= <-].
Qed.
End script.

(** ** Loops that do not end *)

Section hangs.
Context `{src : TokenSource} (fuel : nat).

Lemma array_diverges n : forall tk a t i st p,
  on_event (YAML_SEQUENCE_START_EVENT a t i st) p tk ->
  parse_node fuel n tk = Timeout /\ forall y, parse_array fuel n y tk = Timeout.
Proof.
  induction n as [|n IH]; intros tk a t i st p H; [done|].
  destruct (IH tk a t i st p H) as [H1 H2]. split; [|intros y]; cbn [parse_node parse_array].
  - etransitivity; [eapply prog_bind_ret, current_on; exact H|]. apply H2.
  - etransitivity; [eapply prog_bind_ret, current_on; exact H|]. cbv beta iota.
    by apply prog_bind_timeout.
Qed.

Lemma documents_hang n : forall doc tk,
  parsing_is_over tk.(tk_parser) = true -> parse_documents fuel n doc tk = Timeout.
Proof.
  induction n as [|n IH]; intros doc tk Ho; [done|]. cbn [parse_documents].
  assert (next fuel tk = Ret true (mkTokenizer tk.(tk_parser) no_event)) as Hx.
  { unfold next. by rewrite (over_is_final fuel _ Ho). }
  etransitivity; [eapply prog_bind_ret; exact Hx|]. cbv beta. run_step. cbv beta iota.
  run_step. run_step. by apply IH.
Qed.

Lemma no_document_hangs n p p' enc doc :
  delivers fuel p [YAML_STREAM_START_EVENT enc; YAML_STREAM_END_EVENT] p' ->
  parsing_is_over p' = true -> parse_documents fuel n doc (start_tokenizer p) = Timeout.
Proof.
  intros Hd Ho. destruct n as [|[|n]]; [done|..];
    destruct (next_delivers fuel p _ _ p' (start_tokenizer p) eq_refl Hd) as (p1 & tk1 & X1 & H1 & D1);
    cbn [parse_documents]; run_with X1; run_current H1; run_step; run_current H1; [done|].
  destruct (next_delivers fuel p1 _ _ p' tk1 (proj1 H1) D1) as (p2 & tk2 & X2 & H2 & D2).
  inversion D2; subst. run_with X2. run_current H2. run_step. run_current H2.
  apply documents_hang. by rewrite (proj1 H2).
Qed.
End hangs.

(** ** The theorems *)

(** The first [k] events of a parser, computed. *)
Fixpoint run_events `{TokenSource} (fuel k : nat) (p : yaml_parser_t) :
    option (list yaml_event_data * yaml_parser_t) :=
  match k with
  | O => Some ([], p)
  | S k' =>
      match yaml_parser_parse fuel p with
      | Ret ev p1 =>
          match run_events fuel k' p1 with
          | Some (es, p2) => Some (ev.(event_data) :: es, p2)
          | None => None
          end
      | _ => None
      end
  end.

Lemma run_delivers `{src : TokenSource} fuel k p es p' :
  run_events fuel k p = Some (es, p') -> delivers fuel p es p'.
Proof.
  revert p es. induction k as [|k IH]; intros p es; cbn.
  - intros [= <- <-]. constructor.
  - destruct (yaml_parser_parse fuel p) as [ev p1| | |] eqn:E; try done.
    destruct (run_events fuel k p1) as [[es1 p2]|] eqn:E1; [|done].
    intros [= <- <-]. econstructor; eauto.
Qed.

(** C13: [yaml::parse] reads a document of nested mappings and scalars
    correctly: if the parser delivers the events of such a tree, the value
    returned is that of the tree (the last of several equal keys wins), and no
    event beyond the end of the document is consumed. *)
Theorem yaml_parse_correct {src : TokenSource} (fuel n : nat) (p p' : yaml_parser_t)
    (t : ytree) (es : list yaml_event_data) enc v td i b doc :
  spells t es ->
  delivers fuel p (YAML_STREAM_START_EVENT enc :: YAML_DOCUMENT_START_EVENT v td i
                   :: es ++ [YAML_DOCUMENT_END_EVENT b]) p' ->
  (length es + 3 < n)%nat ->
  exists tk, parse_documents fuel n doc (start_tokenizer p) = Ret (yaml_of t) tk
             /\ tk.(tk_parser) = p'.
Proof. apply reads_document. Qed.

(** The document [{k: v}] as tokens. *)
Definition small_tokens : list yaml_token_t :=
  map (fun d => TOKEN_INIT d mark0 mark0)
    [YAML_STREAM_START_TOKEN YAML_UTF8_ENCODING; YAML_BLOCK_MAPPING_START_TOKEN; YAML_KEY_TOKEN;
     YAML_SCALAR_TOKEN (bytes_of "k") 1 YAML_PLAIN_SCALAR_STYLE; YAML_VALUE_TOKEN;
     YAML_SCALAR_TOKEN (bytes_of "v") 1 YAML_PLAIN_SCALAR_STYLE; YAML_BLOCK_END_TOKEN;
     YAML_STREAM_END_TOKEN].

Definition small_end : yaml_parser_t :=
  match run_events (H := queue_source) 9 7 (token_parser small_tokens) with
  | Some (_, p) => p
  | None => token_parser []
  end.

Lemma yaml_parse_correct_witness :
  exists tk, parse_documents (src := queue_source) 9 9 (yaml_of_type KNone)
               (start_tokenizer (token_parser small_tokens))
             = Ret (yaml_of (YMap [(bytes_of "k", YScalar (bytes_of "v"))])) tk.
Proof.
  destruct (yaml_parse_correct (src := queue_source) 9 9 (token_parser small_tokens) small_end
    (YMap [(cstr (bytes_of "k"), YScalar (cstr (bytes_of "v")))])
    [YAML_MAPPING_START_EVENT None None true YAML_BLOCK_MAPPING_STYLE;
     YAML_SCALAR_EVENT None None (bytes_of "k") 1 true false YAML_PLAIN_SCALAR_STYLE;
     YAML_SCALAR_EVENT None None (bytes_of "v") 1 true false YAML_PLAIN_SCALAR_STYLE;
     YAML_MAPPING_END_EVENT]
    YAML_UTF8_ENCODING None [] true true (yaml_of_type KNone)) as (tk & H & _).
  - apply (sp_map None None true YAML_BLOCK_MAPPING_STYLE _ [_; _]).
    apply (sp_cons _ _ _ _ _ _ _ _ [_] [] []); [apply sp_scalar|apply sp_nil].
  - apply (run_delivers (src := queue_source) 9 7). vm_compute. reflexivity.
  - cbn. lia.
  - exists tk. exact H.
Defined.

(** What a field of a parsed mapping reads as: [y[key]] is the value of the
    last binding of the key in the document, the empty value if there is none,
    and [has] tells the two cases apart. *)
Theorem yaml_get_last_binding (k : list Z) (kvs : list (list Z * ytree)) :
  yaml_get k (yaml_of (YMap kvs)) =
    match last_binding k kvs with Some v => yaml_of v | None => yaml_of_type KNone end
  /\ yaml_has k (yaml_of (YMap kvs)) = is_some (last_binding k kvs).
Proof.
  rewrite yaml_of_map. unfold yaml_get, yaml_has. rewrite assign_pairs_type by done.
  rewrite find_assign_pairs by done. by destruct (last_binding k kvs).
Qed.

(** C15: on a sequence [yaml::parse_node] never returns: [parse_array] is
    entered on the SEQUENCE-START event and hands it back to [parse_node]
    without taking it, so the two call each other for ever. *)
Theorem parse_sequence_diverges {src : TokenSource} (fuel n : nat) (tk : tokenizer) a t i st :
  tk.(tk_event).(event_data) = YAML_SEQUENCE_START_EVENT a t i st ->
  parse_node fuel n tk = Timeout /\ forall y, parse_array fuel n y tk = Timeout.
Proof. intros H. by apply (array_diverges fuel n tk a t i st tk.(tk_parser)). Qed.

Lemma parse_sequence_diverges_witness :
  parse_node (src := queue_source) 1 1000
    (mkTokenizer (token_parser [])
       (EVENT_INIT (YAML_SEQUENCE_START_EVENT None None true YAML_FLOW_SEQUENCE_STYLE) mark0 mark0))
    = Timeout.
Proof.
  apply (parse_sequence_diverges 1 1000 (mkTokenizer (token_parser [])
    (EVENT_INIT (YAML_SEQUENCE_START_EVENT None None true YAML_FLOW_SEQUENCE_STYLE) mark0 mark0))
    None None true YAML_FLOW_SEQUENCE_STYLE).
  reflexivity.
Defined.

(** C16: [yaml::parse] ignores the result of [next]: once the parser has failed
    or has delivered the end of the stream, its loop runs for ever; on an empty
    input it never returns. *)
Theorem yaml_parse_hangs {src : TokenSource} (fuel n : nat) (doc : yaml) (tk : tokenizer) :
  parsing_is_over tk.(tk_parser) = true -> parse_documents fuel n doc tk = Timeout.
Proof. apply documents_hang. Qed.

Lemma yaml_parse_hangs_witness :
  parse_documents (src := queue_source) 1 1000 (yaml_of_type KNone)
    (start_tokenizer (set_error YAML_PARSER_ERROR (token_parser []))) = Timeout.
Proof. apply (yaml_parse_hangs (src := queue_source) 1 1000). reflexivity. Defined.

(** The empty input, read with the scanner of libyaml. *)
Definition empty_end : yaml_parser_t :=
  match run_events (H := scanner_source) 1 2 (yaml_parser_initialize []) with
  | Some (_, p) => p
  | None => yaml_parser_initialize []
  end.

Example yaml_parse_empty n : yaml_parse (src := scanner_source) 1 n [] = Timeout.
Proof.
  apply (no_document_hangs (src := scanner_source) 1 n _ empty_end YAML_UTF8_ENCODING).
  - apply (run_delivers (src := scanner_source) 1 2). vm_compute. reflexivity.
  - vm_compute. reflexivity.
Qed.

(** [YAML::parse] declares what it accumulates inside its loop, so
    whatever the input is, the only value it ever returns is null. *)
Theorem script_parse_null {src : TokenSource} (fuel n : nat) variant_str (str : list Z) v p' :
  script_parse fuel variant_str n str = Ret v p' -> v = VNull.
Proof. apply script_loop_null. Qed.

Lemma script_parse_null_witness :
  exists p', script_parse (src := scanner_source) 10 (fun _ => []) 10 (bytes_of "a: b")
             = Ret VNull p'.
Proof.
  assert (exists v p', script_parse (src := scanner_source) 10 (fun _ => []) 10 (bytes_of "a: b")
    = Ret v p') as (v & p' & H) by (eexists _, _; vm_compute; reflexivity).
  exists p'. rewrite <- (script_parse_null (src := scanner_source) 10 10 _ _ v p' H). exact H.
Defined.
