(* ===== verification/AppYamlSafe.v ===== *)
(** * The YAML reader of the application is memory safe

    [yaml::parse] on any octets: it may run for ever, but it never reads outside
    a buffer, pops an empty stack or follows a NULL pointer; and what it returns
    does not depend on how many turns its loops are given. *)

From Stdlib Require Import ZArith Lia Ascii String.
From stdpp Require Import base list option strings.
From S2P Require Import Prelude YamlData YamlReader YamlChars YamlScanner YamlParser.
From S2P Require Import YamlEvents YamlRefinement YamlFrame YamlLevels YamlUtf8 YamlBuffer.
From S2P Require Import YamlCursor YamlSafe YamlTotal AppYaml.

#[local] Open Scope Z_scope.

(** Running for ever is allowed, undefined behaviour is not. *)
Definition may_hang : faults := mkFaults False True.

Section safe.
Context {src : TokenSource} {laws : TokenSourceLaws strict} (fuel : nat).

(** A parser that is over, or in order with enough fuel for the events to come. *)
Definition alive (p : yaml_parser_t) : Prop :=
  parsing_is_over p = true
  \/ exists n, machine_inv n p /\ source_ok p.(reader) p.(scanner) /\ budget strict p < Z.of_nat fuel.

Lemma failed_over p : p.(err).(error) <> YAML_NO_ERROR -> parsing_is_over p = true.
Proof. intros H. unfold parsing_is_over. rewrite bool_decide_false by done. cbn. by rewrite orb_true_r. Qed.

Lemma wp_next tk (Q : bool -> tokenizer -> Prop) :
  alive tk.(tk_parser) -> (forall b tk', alive tk'.(tk_parser) -> Q b tk') ->
  wp may_hang (next fuel) Q (fun _ => False) tk.
Proof.
  intros Ha HQ. unfold wp, next. destruct (parsing_is_over (tk_parser tk)) eqn:Ho.
  { rewrite over_is_final by done. by apply HQ; left. }
  destruct Ha as [Ha|(n & Hi & Hs & Hb)]; [congruence|].
  destruct (over_false n _ Hi Ho) as [Hn He]. pose proof (budget_tokens strict (tk_parser tk)) as Ht.
  assert (0 <= tokens_left strict (tk_parser tk)) as H0 by apply pending_nonneg.
  assert (enough_fuel strict fuel (tk_parser tk)) as Hf by (right; lia).
  pose proof (wp_parse strict n fuel _ Hi Hs Hn He Hf) as H. unfold wp in H.
  destruct (yaml_parser_parse fuel (tk_parser tk)) as [ev p|p| |]; [| |done|done].
  - destruct H as ((n' & _ & Hi') & _ & Hs' & Hb'). apply HQ. right. exists n'. split_and!; [done|done|].
    destruct Hb' as [[]|Hb']; cbn. lia.
  - apply HQ. left. by apply failed_over.
Qed.

Lemma wp_current tk (Q : yaml_event_data -> tokenizer -> Prop) :
  (forall e, Q e tk) -> wp may_hang current Q (fun _ => False) tk.
Proof. intros HQ. apply wp_gets, HQ. Qed.

Lemma wp_goes_on tk (Q : bool -> tokenizer -> Prop) :
  alive tk.(tk_parser) -> (forall b tk', alive tk'.(tk_parser) -> Q b tk') ->
  wp may_hang (goes_on fuel) Q (fun _ => False) tk.
Proof.
  intros Ha HQ. unfold goes_on. wp_step. apply wp_current. intros e.
  destruct e; try (by apply wp_next). wp_step. by apply HQ.
Qed.

(** The routine keeps the parser alive. *)
Definition keeps {A} (m : prog tokenizer A) : Prop :=
  forall tk, alive tk.(tk_parser) -> wp may_hang m (fun _ tk' => alive tk'.(tk_parser)) (fun _ => False) tk.

Lemma keeps_bind {A B} (m : prog tokenizer A) (k : A -> prog tokenizer B) :
  keeps m -> (forall a, keeps (k a)) -> keeps (m ≫= k).
Proof.
  intros Hm Hk tk Ha. wp_step. eapply wp_mono; [by apply Hm| |done]. intros a tk' Ha'. by apply Hk.
Qed.
Lemma keeps_ret {A} (a : A) : keeps (mret a).
Proof. by intros tk Ha. Qed.
Lemma keeps_timeout {A} : keeps (timeout (A := A)).
Proof. done. Qed.
Lemma keeps_current : keeps current.
Proof. intros tk Ha. by apply wp_current. Qed.
Lemma keeps_next : keeps (next fuel).
Proof. intros tk Ha. by apply wp_next. Qed.
Lemma keeps_goes_on : keeps (goes_on fuel).
Proof. intros tk Ha. by apply wp_goes_on. Qed.

Ltac keeps_step :=
  match goal with
  | |- keeps (_ ≫= _) => apply keeps_bind; [|intros]
  | |- keeps (mret _) => apply keeps_ret
  | |- keeps timeout => apply keeps_timeout
  | |- keeps current => apply keeps_current
  | |- keeps (next _) => apply keeps_next
  | |- keeps (goes_on _) => apply keeps_goes_on
  | |- keeps (if ?b then _ else _) => destruct b
  | |- keeps (match ?e with _ => _ end) => destruct e
  end.

Lemma keeps_nodes n :
  keeps (parse_node fuel n) /\ (forall y, keeps (parse_map fuel n y)) /\ (forall y, keeps (parse_array fuel n y)).
Proof.
  induction n as [|n (IH1 & IH2 & IH3)]; [by split_and!; intros; apply keeps_timeout|].
  split_and!; [|intros y..]; cbn [parse_node parse_map parse_array]; repeat (keeps_step || apply IH1 || apply IH2 || apply IH3).
Qed.

Lemma keeps_documents n doc : keeps (parse_documents fuel n doc).
Proof.
  revert doc. induction n as [|n IH]; intros doc; cbn [parse_documents];
    repeat (keeps_step || apply (proj1 (keeps_nodes _)) || apply IH).
Qed.
End safe.

(** ** More turns *)

Section more.
Context {src : TokenSource} (fuel : nat).

(** [m'] does what [m] does, unless [m] runs out of turns. *)
Definition extends {A} (m m' : prog tokenizer A) : Prop := forall tk, m tk = Timeout \/ m' tk = m tk.

Lemma extends_refl {A} (m : prog tokenizer A) : extends m m.
Proof. intros tk. by right. Qed.
Lemma extends_timeout {A} (m : prog tokenizer A) : extends timeout m.
Proof. intros tk. by left. Qed.
Lemma extends_bind {A B} (m m' : prog tokenizer A) (k k' : A -> prog tokenizer B) :
  extends m m' -> (forall a, extends (k a) (k' a)) -> extends (m ≫= k) (m' ≫= k').
Proof.
  intros Hm Hk tk. unfold mbind, prog_bind. destruct (Hm tk) as [-> | ->]; [by left|].
  destruct (m tk) as [a tk'| | |]; [apply Hk|by right..].
Qed.

Ltac extends_step :=
  match goal with
  | |- extends timeout _ => apply extends_timeout
  | |- extends (_ ≫= _) (_ ≫= _) => apply extends_bind; [|intros]
  | |- extends (if ?b then _ else _) _ => destruct b
  | |- extends (match ?e with _ => _ end) _ => destruct e
  | |- extends ?m ?m => apply extends_refl
  end.

(** One call or turn of each routine, with what it calls as arguments. *)
Lemma extends_nodes n :
  extends (parse_node fuel n) (parse_node fuel (S n))
  /\ (forall y, extends (parse_map fuel n y) (parse_map fuel (S n) y))
  /\ (forall y, extends (parse_array fuel n y) (parse_array fuel (S n) y)).
Proof.
  induction n as [|n (IH1 & IH2 & IH3)]; [by split_and!; intros; apply extends_timeout|].
  split_and!; [|intros y..]; unfold parse_node, parse_map, parse_array;
    fold (parse_node fuel) (parse_map fuel) (parse_array fuel);
    repeat (extends_step || apply IH1 || apply IH2 || apply IH3).
Qed.

Lemma extends_documents n doc : extends (parse_documents fuel n doc) (parse_documents fuel (S n) doc).
Proof.
  revert doc. induction n as [|n IH]; intros doc; [apply extends_timeout|].
  unfold parse_documents; fold (parse_documents fuel).
  repeat (extends_step || apply (proj1 (extends_nodes _)) || apply IH).
Qed.

Lemma documents_more n m doc tk y tk' :
  (n <= m)%nat -> parse_documents fuel n doc tk = Ret y tk' -> parse_documents fuel m doc tk = Ret y tk'.
Proof.
  induction 1 as [|m _ IH]; [done|]. intros H. specialize (IH H).
  destruct (extends_documents m doc tk) as [Ht|Ht]; congruence.
Qed.
End more.

(** C40: [yaml::parse] is safe on every input: with the fuel that the scanner
    and the parser need, and whatever the octets are, it either returns a value
    or goes on for ever; it never reads outside a buffer, pops an empty stack or
    follows a NULL pointer.  What it returns does not depend on the number of
    turns. *)
Theorem yaml_parse_safe (bytes : list Z) (fuel : nat) :
  Forall is_octet bytes -> 64 * Z.of_nat (length bytes) + 49 < Z.of_nat fuel ->
  (forall n, yaml_parse (src := scanner_source) fuel n bytes = Timeout
     \/ exists y tk, yaml_parse (src := scanner_source) fuel n bytes = Ret y tk)
  /\ (forall n m y tk, (n <= m)%nat -> yaml_parse (src := scanner_source) fuel n bytes = Ret y tk ->
        yaml_parse (src := scanner_source) fuel m bytes = Ret y tk).
Proof.
  intros Hb Hf. split; [|intros n m y tk; apply documents_more].
  intros n. assert (alive (laws := scanner_laws) fuel (yaml_parser_initialize bytes)) as Ha.
  { right. exists NStart. split_and!; [by apply initial_inv|apply scanner_ok_of; [by apply initial_scan_ok|done]|].
    unfold budget, tokens_left. cbn [pending scanner_laws]. rewrite initial_pending. cbn. lia. }
  pose proof (keeps_documents (laws := scanner_laws) fuel n (yaml_of_type KNone)
    (start_tokenizer (yaml_parser_initialize bytes)) Ha) as H. unfold wp in H. unfold yaml_parse.
  destruct (parse_documents _ _ _ _) as [y tk|tk| |]; [by right; exists y, tk|done|done|by left].
Qed.

Lemma yaml_parse_safe_witness :
  (exists y tk, yaml_parse (src := scanner_source) 500 500 (bytes_of "a: b") = Ret y tk)
  /\ yaml_parse (src := scanner_source) 500 500 (bytes_of "[a]") = Timeout.
Proof.
  destruct (yaml_parse_safe (bytes_of "a: b") 500) as [_ H]; [apply bytes_of_octets|cbn; lia|].
  destruct (yaml_parse_safe (bytes_of "[a]") 500) as [H' _]; [apply bytes_of_octets|cbn; lia|].
  split.
  - assert (exists y tk, yaml_parse (src := scanner_source) 500 20 (bytes_of "a: b") = Ret y tk) as (y & tk & E)
      by (eexists _, _; vm_compute; reflexivity).
    exists y, tk. apply (H 20%nat); [lia|exact E].
  - destruct (H' 500%nat) as [E|(y & tk & E)]; [exact E|]. vm_compute in E. discriminate.
Defined.
