(* ===== verification/SharedData.v ===== *)
(** * Paths ([utils/SharedData.cpp])

    [calculatePath] resolves a relative path against a base.  Positions in
    strings are [size_t] values that are stored in [int] variables: the position
    of a character that is not there becomes -1. *)

From Stdlib Require Import ZArith Lia Ascii String.
From stdpp Require Import base list option.
From S2P Require Import Prelude.

#[local] Open Scope Z_scope.

(** ** Strings *)

Definition npos : Z := 2^64 - 1.

(** [s.find(c, 0)] and [s.find_last_of(c)]. *)
Definition find_char (c : Z) (s : list Z) : Z :=
  match list_find (eq c) s with Some (i, _) => Z.of_nat i | None => npos end.
Definition find_last_of (c : Z) (s : list Z) : Z :=
  match list_find (eq c) (reverse s) with
  | Some (i, _) => Z.of_nat (length s) - 1 - Z.of_nat i
  | None => npos
  end.

(** [s.substr(0, n)]: the [int] [n] becomes a [size_t]. *)
Definition prefix (s : list Z) (n : Z) : list Z :=
  let k := n mod 2^64 in if Z.of_nat (length s) <=? k then s else take (Z.to_nat k) s.

(** ** [calculatePath] *)

(** The effect of a segment on [path]. *)
Definition apply_segment (seg path : list Z) : list Z :=
  if bool_decide (seg = []) || bool_decide (seg = bytes_of ".") then path
  else if bool_decide (seg = bytes_of "..") then
    let last := int_of_size (find_last_of (ch "/") path) in
    if last <? 0 then [] else prefix path (last - 1)
  else path ++ [ch "/"] ++ seg.

(** One turn; [start] is never assigned. *)
Definition path_turn (src : list Z) : prog (list Z) (unit + unit) :=
  let e := int_of_size (find_char (ch "/") src) in
  modify (apply_segment (prefix src e));;
  mret (if e <? 0 then inr tt else inl tt).

Definition calculatePath (n : nat) (base_path src : list Z) : outcome (list Z) (list Z) :=
  (loop n (fun _ : unit => path_turn src) tt;;
   path ← gets id;
   mret (match path with
         | c :: _ => if c =? ch "/" then path else ch "/" :: path
         | [] => [ch "/"]
         end)) base_path.

Lemma find_char_none c s : c ∉ s -> find_char c s = npos.
Proof.
  intros H. unfold find_char. destruct (list_find (eq c) s) as [[i x]|] eqn:E; [|done].
  apply list_find_Some in E as (E & <- & _). destruct H. by eapply list_elem_of_lookup_2.
Qed.

Lemma find_char_some c s :
  c ∈ s -> Z.of_nat (length s) <= INT_MAX -> 0 <= int_of_size (find_char c s) < Z.of_nat (length s).
Proof.
  intros H Hl. unfold find_char. destruct (list_find (eq c) s) as [[i x]|] eqn:E.
  - apply list_find_Some in E as (E & _). apply lookup_lt_Some in E. rewrite int_of_size_small by lia. lia.
  - apply list_find_None in E. apply list_elem_of_lookup in H as [i Hi]. by destruct (proj1 (Forall_lookup _ _) E i c Hi).
Qed.

Lemma prefix_whole s : Z.of_nat (length s) < 2^64 -> prefix s (-1) = s.
Proof. intros H. unfold prefix. change (-1 mod 2^64) with npos. unfold npos. cbv zeta.
  by rewrite (proj2 (Z.leb_le _ _)) by lia. Qed.

Lemma find_last_slash c dir name : c ∉ name -> find_last_of c (dir ++ c :: name) = Z.of_nat (length dir).
Proof.
  intros Hn. unfold find_last_of.
  assert (list_find (eq c) (reverse (dir ++ c :: name)) = Some (length name, c)) as ->.
  { apply list_find_Some. rewrite reverse_app, reverse_cons, <- app_assoc. split_and!.
    - rewrite lookup_app_r by (rewrite length_reverse; lia). by rewrite length_reverse, Nat.sub_diag.
    - done.
    - intros k y Hy Hk ->. rewrite lookup_app_l in Hy by (rewrite length_reverse; lia). apply Hn.
      by apply elem_of_reverse, list_elem_of_lookup; eexists. }
  rewrite length_app. cbn [length]. lia.
Qed.

(** The result of a turn that leaves the loop. *)
Lemma calculatePath_once base src path n :
  path_turn src base = Ret (inr tt) path -> head path = Some (ch "/") ->
  calculatePath (S n) base src = Ret path path.
Proof.
  intros Ht Hp. unfold calculatePath. cbn [loop]. unfold mbind, prog_bind. rewrite Ht. cbn.
  destruct path as [|c path]; [done|]. injection Hp as ->. done.
Qed.

(** C39: without a separator in [src] the loop takes one turn: a name is added
    below the base; for [..] the parent directory is returned without its last
    character.  With a separator the loop never ends, since every turn finds the
    same one again. *)
Theorem calculatePath_turns (base src : list Z) :
  Z.of_nat (length src) <= INT_MAX -> Z.of_nat (length base) <= INT_MAX ->
  (ch "/" ∉ src -> src <> [] -> src <> bytes_of "." -> src <> bytes_of ".." -> head base = Some (ch "/") ->
     forall n, calculatePath (S n) base src = Ret (base ++ ch "/" :: src) (base ++ ch "/" :: src))
  /\ (forall dir c name, src = bytes_of ".." -> base = (ch "/" :: dir ++ [c]) ++ ch "/" :: name -> ch "/" ∉ name ->
     forall n, calculatePath (S n) base src = Ret (ch "/" :: dir) (ch "/" :: dir))
  /\ (ch "/" ∈ src -> forall n, calculatePath n base src = Timeout).
Proof.
  intros Hl Hlb. unfold INT_MAX in Hl, Hlb. split_and!.
  - intros Hs H1 H2 H3 Hb n. apply calculatePath_once; [|by destruct base].
    unfold path_turn. rewrite find_char_none by done. change (int_of_size npos) with (-1).
    rewrite prefix_whole by lia. unfold mbind, prog_bind, modify, apply_segment. by rewrite !bool_decide_false.
  - intros dir c name -> -> Hn n. apply calculatePath_once; [|done]. unfold path_turn.
    change (int_of_size (find_char (ch "/") (bytes_of ".."))) with (-1). rewrite prefix_whole by done.
    unfold mbind, prog_bind, modify, apply_segment. cbn [orb]. rewrite find_last_slash by done.
    assert (Z.of_nat (length (ch "/" :: dir ++ [c])) = Z.of_nat (length (ch "/" :: dir)) + 1) as HD
      by (cbn [length]; rewrite length_app; cbn [length]; lia).
    rewrite (length_app (ch "/" :: dir ++ [c])), Nat2Z.inj_add, HD in Hlb.
    rewrite int_of_size_small by (unfold INT_MAX; lia). rewrite HD. f_equal.
    change (bool_decide (bytes_of ".." = []) || bool_decide (bytes_of ".." = bytes_of ".")) with false.
    change (bool_decide (bytes_of ".." = bytes_of "..")) with true. cbv iota zeta.
    assert ((Z.of_nat (length (ch "/" :: dir)) + 1 <? 0) = false) as -> by lia. unfold prefix. cbv zeta.
    rewrite Z.add_simpl_r, Z.mod_small by lia.
    rewrite (proj2 (Z.leb_gt _ _)) by (rewrite (length_app (ch "/" :: dir ++ [c])), Nat2Z.inj_add, HD; lia).
    rewrite Nat2Z.id. change (ch "/" :: dir ++ [c]) with ((ch "/" :: dir) ++ [c]). rewrite <- !app_assoc.
    by rewrite take_app_length.
  - intros Hs n. unfold calculatePath. apply prog_bind_timeout. clear Hlb. revert base.
    induction n as [|n IH]; intros base; [done|]. cbn [loop]. unfold mbind at 1, prog_bind at 1, path_turn at 1.
    pose proof (find_char_some _ _ Hs Hl). unfold mbind, prog_bind. cbn [modify].
    assert ((int_of_size (find_char (ch "/") src) <? 0) = false) as -> by lia. cbn. apply IH.
Qed.

Lemma calculatePath_turns_witness :
  calculatePath 1 (bytes_of "/repo") (bytes_of "a.js") = Ret (bytes_of "/repo/a.js") (bytes_of "/repo/a.js")
  /\ calculatePath 1 (bytes_of "/repo/lib") (bytes_of "..") = Ret (bytes_of "/rep") (bytes_of "/rep")
  /\ calculatePath 1000 (bytes_of "/repo") (bytes_of "lib/a.js") = Timeout.
Proof.
  split; [|split].
  - destruct (calculatePath_turns (bytes_of "/repo") (bytes_of "a.js")) as (H & _ & _); [vm_compute; discriminate..|].
    apply (H ltac:(apply (bool_decide_unpack _); vm_compute; exact I) ltac:(discriminate) ltac:(discriminate)
      ltac:(discriminate) eq_refl 0%nat).
  - destruct (calculatePath_turns (bytes_of "/repo/lib") (bytes_of "..")) as (_ & H & _); [vm_compute; discriminate..|].
    apply (H (bytes_of "rep") (ch "o") (bytes_of "lib")); [reflexivity|reflexivity|].
    apply (bool_decide_unpack _). vm_compute. exact I.
  - destruct (calculatePath_turns (bytes_of "/repo") (bytes_of "lib/a.js")) as (_ & _ & H); [vm_compute; discriminate..|].
    apply H. apply (bool_decide_unpack _). vm_compute. exact I.
Defined.
