(* ===== verification/Database.v ===== *)
(** * The queue of the database ([utils/database/Model.cpp])

    Statements are queued and executed by a timer, or at once by [exce], which
    first executes everything queued before.  The engine ([SQLite::action] over
    sqlite3) is an interface; callbacks are programs that run while the queue is
    being executed. *)

From Stdlib Require Import ZArith Lia.
From stdpp Require Import base list option.
From S2P Require Import Prelude.

(** [action] executes a statement and hands an answer to its callback.  The
    calls of [begin] and [end] around the loop of [checkQueue], which open and
    close the file, are part of it: an engine whose file cannot be opened
    answers every statement with a failure. *)
Class Engine : Type := mkEngine {
  store : Type;
  statement : Type;
  answer : Type;
  action : statement -> store -> answer * store
}.

Section database.
Context `{eng : Engine}.

(** [mtx] is a mutex that is not recursive; [timers] counts the timers that are
    started and have not fired; [executed] records what has been executed. *)
Record database : Type := mkDatabase {
  contents : store;
  queue : list statement;
  wait_action : bool;
  mtx : bool;
  timers : nat;
  executed : list statement
}.

Definition db_prog : Type -> Type := prog database.

Definition set_mtx b (d : database) :=
  mkDatabase d.(contents) d.(queue) d.(wait_action) b d.(timers) d.(executed).
Definition set_queue q (d : database) :=
  mkDatabase d.(contents) q d.(wait_action) d.(mtx) d.(timers) d.(executed).
Definition set_wait b (d : database) :=
  mkDatabase d.(contents) d.(queue) b d.(mtx) d.(timers) d.(executed).
Definition set_timers n (d : database) :=
  mkDatabase d.(contents) d.(queue) d.(wait_action) d.(mtx) n d.(executed).

(** A thread that locks the mutex it holds never goes on. *)
Definition lock : db_prog unit :=
  b ← gets mtx; if (b : bool) then crash else modify (set_mtx true).
Definition unlock : db_prog unit := modify (set_mtx false).

Definition do_action (st : statement) : db_prog answer := fun d =>
  let '(a, c) := action st d.(contents) in
  Ret a (mkDatabase c d.(queue) d.(wait_action) d.(mtx) d.(timers) (d.(executed) ++ [st])).

Context (callback : statement -> answer -> db_prog unit).

Fixpoint run_queue (items : list statement) : db_prog unit :=
  match items with
  | [] => mret tt
  | st :: r => a ← do_action st; callback st a;; run_queue r
  end.

Definition checkQueue : db_prog unit :=
  lock;;
  modify (set_wait false);;
  q ← gets queue;
  (match q with
   | [] => mret tt
   | _ :: _ => run_queue q;; modify (set_queue [])
   end);;
  unlock.

Definition onCheckAction : db_prog unit :=
  w ← gets wait_action;
  if (w : bool) then mret tt
  else modify (set_wait true);; modify (fun d => set_timers (S d.(timers)) d).

Definition exce (st : statement) : db_prog unit :=
  lock;; modify (fun d => set_queue (d.(queue) ++ [st]) d);; unlock;; checkQueue.

Definition queueExce (st : statement) : db_prog unit :=
  lock;; modify (fun d => set_queue (d.(queue) ++ [st]) d);; onCheckAction;; unlock.

(** ** Calls and timers *)

Inductive call : Type := CallExce (st : statement) | CallQueue (st : statement) | TimerFires.

(** A timer that has not been started does not fire. *)
Definition perform_call (c : call) : db_prog unit :=
  match c with
  | CallExce st => exce st
  | CallQueue st => queueExce st
  | TimerFires =>
      n ← gets timers;
      match n with
      | O => mret tt
      | S k => modify (set_timers k);; checkQueue
      end
  end.

Definition perform_calls (cs : list call) : db_prog unit :=
  foldr (fun c k => perform_call c;; k) (mret tt) cs.

Definition issued (c : call) : list statement :=
  match c with CallExce st | CallQueue st => [st] | TimerFires => [] end.

(** The effect of statements, in order. *)
Definition effect (sts : list statement) (c : store) : store := foldl (fun c st => (action st c).2) c sts.

(** From contents [c0], the statements [sts] have been issued; the mutex is free,
    and what is queued will be executed by a timer. *)
Record orderly (c0 : store) (sts : list statement) (d : database) : Prop := mkOrderly {
  or_issued : d.(executed) ++ d.(queue) = sts;
  or_contents : d.(contents) = effect d.(executed) c0;
  or_free : d.(mtx) = false;
  or_timer : d.(wait_action) = true -> 0 < d.(timers);
  or_pending : d.(queue) <> [] -> d.(wait_action) = true
}.

(** Callbacks that leave the database alone. *)
Definition quiet (st : statement) : Prop := forall a d, callback st a d = Ret tt d.

Lemma wp_lock F d (Q : unit -> database -> Prop) E :
  d.(mtx) = false -> Q tt (set_mtx true d) -> wp F lock Q E d.
Proof. intros Hm HQ. unfold lock. wp_step. apply wp_gets. by rewrite Hm. Qed.

Lemma wp_run_queue F items d (Q : unit -> database -> Prop) E :
  Forall quiet items ->
  Q tt (mkDatabase (effect items d.(contents)) d.(queue) d.(wait_action) d.(mtx) d.(timers)
          (d.(executed) ++ items)) ->
  wp F (run_queue items) Q E d.
Proof.
  intros Hq. revert d. induction Hq as [|st items Hst _ IH]; intros d HQ; cbn [run_queue].
  - wp_step. rewrite app_nil_r in HQ. by destruct d.
  - wp_step. unfold wp at 1, do_action. destruct (action st (contents d)) as [a c] eqn:Ea.
    wp_step. unfold wp at 1. rewrite Hst. apply IH. cbn. cbn in HQ. rewrite Ea in HQ. by rewrite <- app_assoc.
Qed.

Lemma wp_checkQueue F c0 sts d (Q : unit -> database -> Prop) E :
  Forall quiet d.(queue) -> d.(executed) ++ d.(queue) = sts -> d.(contents) = effect d.(executed) c0 ->
  d.(mtx) = false ->
  (forall d', orderly c0 sts d' -> d'.(queue) = [] -> d'.(timers) = d.(timers) -> Q tt d') ->
  wp F checkQueue Q E d.
Proof.
  intros Hq Hs Hc Hm HQ. unfold checkQueue, unlock. wp_step. apply wp_lock; [done|].
  wp_step. apply wp_modify. wp_step. apply wp_gets. cbn [queue set_wait set_mtx]. wp_step.
  destruct (queue d) as [|st q] eqn:Eq.
  - wp_step. wp_step. apply HQ; [|exact Eq|done]. constructor; cbn; by rewrite ?Eq.
  - rewrite <- Eq in *. clear st q Eq. wp_step. apply wp_run_queue; [done|]. wp_step. wp_step. apply HQ; [|done|done].
    constructor; cbn; [by rewrite app_nil_r| |done|done|done]. unfold effect. by rewrite foldl_app, Hc.
Qed.

Lemma wp_perform_call c0 sts c d :
  orderly c0 sts d -> Forall quiet sts -> Forall quiet (issued c) ->
  wp strict (perform_call c) (fun _ d' => orderly c0 (sts ++ issued c) d'
    /\ match c with CallExce _ => d'.(queue) = [] | _ => True end) (fun _ => False) d.
Proof.
  intros [H1 H2 H3 H4 H5] Hq Hc. assert (Forall quiet d.(queue)) as Hqq by (subst sts; by apply Forall_app in Hq as [_ ?]).
  destruct c as [st|st|]; cbn [perform_call issued] in *.
  - unfold exce, unlock. wp_step. apply wp_lock; [done|]. wp_step. apply wp_modify. wp_step. wp_step.
    apply (wp_checkQueue _ c0 (sts ++ [st])); cbn; [by apply Forall_app|by rewrite <- H1, app_assoc|done|done|done].
  - unfold queueExce, onCheckAction, unlock. wp_step. apply wp_lock; [done|]. wp_step.
    apply wp_modify. wp_step. wp_step. apply wp_gets. cbn [wait_action set_queue set_mtx].
    destruct (wait_action d) eqn:Ew; wp_steps; (split; [|done]); constructor; cbn; try done; try lia;
      by rewrite <- H1, app_assoc.
  - wp_step. apply wp_gets. rewrite app_nil_r. destruct (timers d) as [|k] eqn:Et.
    + wp_step. split; [|done]. constructor; [done..| |done]. intros Hw. rewrite Et. by apply H4.
    + wp_step. apply wp_modify. apply (wp_checkQueue _ c0 sts); [done..|]. intros d' Hd _ _. by split.
Qed.

Lemma wp_perform_calls c0 sts cs d :
  orderly c0 sts d -> Forall quiet sts -> Forall quiet (concat (map issued cs)) ->
  wp strict (perform_calls cs) (fun _ => orderly c0 (sts ++ concat (map issued cs))) (fun _ => False) d.
Proof.
  revert sts d. induction cs as [|c cs IH]; intros sts d Hd Hq Hc; cbn [perform_calls foldr map concat] in *.
  - wp_step. by rewrite app_nil_r.
  - apply Forall_app in Hc as [Hc Hcs]. wp_step. eapply wp_mono; [by apply wp_perform_call| |done]. cbv beta.
    intros _ d1 [Hd1 _]. rewrite app_assoc. apply IH; [done|by apply Forall_app|done].
Qed.

(** C36: whatever the order of calls of [exce] and [queueExce] and of timers,
    the statements take effect once each and in the order in which they were
    issued: those executed so far and those still in the queue are all those
    issued; and as long as the queue is not empty a timer is pending. *)
Theorem statements_in_order (c0 : store) (cs : list call) (sts : list statement) (d : database) :
  orderly c0 sts d -> Forall quiet sts -> Forall quiet (concat (map issued cs)) ->
  wp strict (perform_calls cs) (fun _ d' =>
      d'.(executed) ++ d'.(queue) = sts ++ concat (map issued cs)
      /\ d'.(contents) = effect d'.(executed) c0
      /\ (d'.(queue) <> [] -> 0 < d'.(timers))) (fun _ => False) d.
Proof.
  intros H1 H2 H3. eapply wp_mono; [by apply wp_perform_calls| |done]. cbv beta. intros _ d' [K1 K2 _ K4 K5]. auto.
Qed.

(** C37: when a call of [exce] returns, or a timer has fired, everything issued
    before has been executed, and nothing is left in the queue: the timer that
    is pending for a statement executes it. *)
Theorem queue_is_drained (c0 : store) (sts : list statement) (d : database) :
  orderly c0 sts d -> Forall quiet sts ->
  (forall st, quiet st ->
     wp strict (perform_call (CallExce st))
       (fun _ d' => d'.(queue) = [] /\ d'.(contents) = effect (sts ++ [st]) c0) (fun _ => False) d)
  /\ (d.(queue) <> [] ->
     wp strict (perform_call TimerFires)
       (fun _ d' => d'.(queue) = [] /\ d'.(contents) = effect sts c0) (fun _ => False) d).
Proof.
  intros Hd Hq. split.
  - intros st Hst. eapply wp_mono; [apply (wp_perform_call c0 sts); [done|done|by apply Forall_singleton]| |done].
    cbv beta. intros _ d' [[K1 K2 _ _ _] Hq']. split; [done|]. rewrite Hq', app_nil_r in K1. by rewrite K2, K1.
  - intros Hn. cbn [perform_call]. destruct Hd as [H1 H2 H3 H4 H5].
    assert (0 < timers d) as Ht by auto. wp_step. apply wp_gets. destruct (timers d) as [|k] eqn:Et; [lia|].
    wp_step. apply wp_modify. apply (wp_checkQueue _ c0 sts); [|done..|].
    + cbn. subst sts. by apply Forall_app in Hq as [_ ?].
    + intros d' [K1 K2 _ _ _] Hq' _. split; [done|]. rewrite Hq', app_nil_r in K1. by rewrite K2, K1.
Qed.

(** C38: a callback that itself issues a statement never returns: it is run
    while the queue is being executed, with the mutex held, and [exce] and
    [queueExce] lock the mutex first. *)
Theorem nested_statement_deadlocks (d : database) (before after : list statement) (st st' : statement) k :
  d.(queue) = before ++ st :: after -> Forall quiet before ->
  (forall a, callback st a = (exce st' ≫= k) \/ callback st a = (queueExce st' ≫= k)) ->
  checkQueue d = Crash.
Proof.
  intros Hq Hb Hcb. destruct (mtx d) eqn:Em; [unfold checkQueue, lock, mbind, prog_bind; cbn; by rewrite Em|].
  assert (wp (mkFaults True False) checkQueue (fun _ _ => False) (fun _ => False) d) as H;
    [|unfold wp in H; by destruct (checkQueue d)].
  unfold checkQueue, unlock. wp_step. apply wp_lock; [done|]. wp_step. apply wp_modify.
  wp_step. apply wp_gets. cbn [queue set_wait set_mtx]. rewrite Hq. wp_step.
  assert (forall r (d : database), d.(mtx) = true ->
    wp (mkFaults True False) (run_queue (before ++ st :: after)) r (fun _ => False) d) as Hrun.
  { clear d Hq Em. intros r. induction Hb as [|x before Hx _ IH]; intros d Hm; cbn [app run_queue]; wp_step;
      unfold wp at 1, do_action; destruct (action _ (contents d)) as [a c]; wp_step.
    - unfold wp at 1. destruct (Hcb a) as [-> | ->]; unfold exce, queueExce, lock, mbind, prog_bind; cbn; by rewrite Hm.
    - unfold wp at 1. rewrite Hx. by apply IH. }
  destruct (before ++ st :: after) eqn:E; [by destruct before|]. rewrite <- E. wp_step. rewrite <- E in Hrun. by apply Hrun.
Qed.
End database.

(** ** Witnesses *)

(** An engine that keeps the statements it is given. *)
#[local] Instance recorder : Engine := mkEngine (list nat) nat unit (fun st c => (tt, c ++ [st])).

Definition silent (st : statement) (a : answer) : db_prog unit := mret tt.

Definition fresh_database : database (eng := recorder) := mkDatabase [] [] false false 0 [].

Lemma fresh_orderly : orderly (eng := recorder) [] [] fresh_database.
Proof. by constructor. Qed.

Lemma silent_quiet sts : Forall (quiet silent) sts.
Proof. by apply Forall_true. Qed.

Definition sample_calls : list (call (eng := recorder)) :=
  [CallQueue (eng := recorder) 1; CallQueue (eng := recorder) 2; CallExce (eng := recorder) 3;
   CallQueue (eng := recorder) 4; TimerFires; CallQueue (eng := recorder) 5].

Lemma statements_in_order_witness :
  wp strict (perform_calls silent sample_calls)
    (fun _ d' => d'.(executed) ++ d'.(queue) = [1; 2; 3; 4; 5]
      /\ d'.(contents) = effect (eng := recorder) d'.(executed) [] /\ (d'.(queue) <> [] -> 0 < d'.(timers)))
    (fun _ => False) fresh_database.
Proof.
  apply (statements_in_order silent [] sample_calls []).
  - apply fresh_orderly.
  - apply silent_quiet.
  - apply silent_quiet.
Defined.

Lemma queue_is_drained_witness :
  wp strict (perform_call silent TimerFires)
    (fun _ d' => d'.(queue) = [] /\ d'.(contents) = effect (eng := recorder) [1; 2] []) (fun _ => False)
    (mkDatabase (eng := recorder) [1] [2] true false 1 [1]).
Proof.
  apply (queue_is_drained silent [] [1; 2] (mkDatabase (eng := recorder) [1] [2] true false 1 [1])).
  - constructor; cbn; try done. lia.
  - apply silent_quiet.
  - discriminate.
Defined.

(** The callback of statement 2 issues statement 9. *)
Definition reissue (st : @statement recorder) (a : answer) : db_prog unit :=
  if Nat.eqb st 2 then queueExce (eng := recorder) 9 ≫= mret else mret tt.

Lemma nested_statement_deadlocks_witness :
  checkQueue reissue (mkDatabase (eng := recorder) [] [1; 2; 3] true false 1 [])
  = Crash.
Proof.
  apply (nested_statement_deadlocks reissue
    (mkDatabase (eng := recorder) [] [1; 2; 3] true false 1 []) [1] [3] 2 9 mret).
  - reflexivity.
  - apply Forall_singleton. intros a d. reflexivity.
  - intros a. right. reflexivity.
Defined.
