(* ===== verification/Sprintf.v ===== *)
(** * Numbers written by [sprintf]

    Integers as text, and the buffers of a fixed size through which they go. *)

From Stdlib Require Import ZArith Lia ZifyNat ZifyBool Ascii String.
From stdpp Require Import base list option strings.
From S2P Require Import Prelude.

#[local] Open Scope Z_scope.

(** [sprintf(str, "%d", n)], [sprintf(str, "%lld", n)] *)
Definition natural (n : Z) : list Z := decimal (S (Z.to_nat (Z.log2 n))) n.
Definition sprintf_d (n : Z) : list Z :=
  if n <? 0 then ch "-" :: natural (- n) else natural n.

(** [char str[cap]; sprintf(str, ...)]: the text and its NUL must fit. *)
Definition sprintf_into (cap : nat) (s : list Z) : option (list Z) :=
  if (length s <? cap)%nat then Some s else None.

(** ** Their length *)

Lemma natural_spec n : 0 <= n -> digits_value (natural n) = n /\ Forall (fun c => 48 <= c <= 57) (natural n).
Proof. intros Hn. apply decimal_spec. split; [done|by apply log2_fuel]. Qed.

Lemma natural_length n k : 0 <= n -> (0 < k)%nat -> (length (natural n) <= k)%nat <-> n < 10 ^ Z.of_nat k.
Proof. intros Hn Hk. apply decimal_length; [|done]. split; [done|by apply log2_fuel]. Qed.

Lemma sprintf_d_length n k : (0 < k)%nat ->
  (length (sprintf_d n) <= S k)%nat <-> - 10 ^ Z.of_nat k < n < 10 ^ Z.of_nat (S k).
Proof.
  intros Hk. unfold sprintf_d. destruct (n <? 0) eqn:E.
  - cbn [length]. rewrite <- Nat.succ_le_mono, natural_length by lia.
    pose proof (Z.pow_pos_nonneg 10 (Z.of_nat (S k))). lia.
  - rewrite natural_length by lia. pose proof (Z.pow_pos_nonneg 10 (Z.of_nat k)). lia.
Qed.

Definition identifier_fits (n : Z) : Prop := - 10 ^ 8 < n < 10 ^ 9.

Lemma identifier_buffer n :
  match sprintf_into 10 (sprintf_d n) with Some _ => identifier_fits n | None => ~ identifier_fits n end.
Proof.
  unfold sprintf_into, identifier_fits. pose proof (sprintf_d_length n 8 ltac:(lia)) as H.
  change (Z.of_nat 8) with 8 in H. change (Z.of_nat 9) with 9 in H.
  destruct (_ <? _)%nat eqn:E; [apply H; lia|]. rewrite <- H. lia.
Qed.

(** A [long long] in [char str[20]]. *)
Definition long_fits (n : Z) : Prop := - 10 ^ 18 < n < 10 ^ 19.

Lemma long_buffer n :
  match sprintf_into 20 (sprintf_d n) with Some _ => long_fits n | None => ~ long_fits n end.
Proof.
  unfold sprintf_into, long_fits. pose proof (sprintf_d_length n 18 ltac:(lia)) as H.
  change (Z.of_nat 18) with 18 in H. change (Z.of_nat 19) with 19 in H.
  destruct (_ <? _)%nat eqn:E; [apply H; lia|]. rewrite <- H. lia.
Qed.
