(* ===== verification/SqlText.v ===== *)
(** * The statements of the database layer ([utils/database/SQLite.cpp])

    The layer describes a table by its fields, keeps the parts of a query in an
    object on which scripts call one method after the other, and turns both into
    the text of statements.  Texts are passed as parameters of a statement,
    numbers are written into it through buffers of a fixed size. *)

From Stdlib Require Import ZArith Lia Ascii String.
From stdpp Require Import base list option strings gmap.
From S2P Require Import Prelude Sprintf.

#[local] Open Scope Z_scope.

(** ** Values *)

(** A [float] or [double]: [m * 2 ^ e] with its sign, an infinity, or no number. *)
Inductive real : Type :=
| Finite (negative : bool) (m e : Z)
| Infinite (negative : bool)
| NaN (negative : bool).

#[export] Instance real_eq_dec : EqDecision real.
Proof. solve_decision. Defined.

(** [n / d] rounded to the nearest integer, and to the even one of two. *)
Definition round_even (n d : Z) : Z :=
  let q := n / d in
  let r := 2 * (n mod d) in
  if (d <? r) || ((d =? r) && Z.odd q) then q + 1 else q.

Definition sign_text (negative : bool) : list Z := if negative then [ch "-"] else [].

(** [m * 2 ^ e] in millionths. *)
Definition millionths (m e : Z) : Z :=
  if 0 <=? e then m * 10 ^ 6 * 2 ^ e else round_even (m * 10 ^ 6) (2 ^ (- e)).

(** [sprintf(str, "%f", f)]: six digits behind the point. *)
Definition sprintf_f (f : real) : list Z :=
  match f with
  | Finite negative m e =>
      let fraction := natural (millionths m e mod 10 ^ 6) in
      sign_text negative ++ natural (millionths m e / 10 ^ 6) ++ [ch "."]
        ++ replicate (6 - length fraction) (ch "0") ++ fraction
  | Infinite negative => sign_text negative ++ bytes_of "inf"
  | NaN negative => sign_text negative ++ bytes_of "nan"
  end.

(** [Variant], as far as queries look at it. *)
Inductive Variant : Type :=
| VNull
| VBool (b : bool)
| VChar (c : Z)
| VInt (n : Z)
| VLong (n : Z)
| VReal (f : real)
| VString (s : list Z).

(** What [Variant::str] writes. *)
Definition shown (v : Variant) : list Z :=
  match v with
  | VNull => []
  | VBool b => if b then bytes_of "true" else bytes_of "false"
  | VChar c => cstr [c]
  | VInt n | VLong n => sprintf_d n
  | VReal f => sprintf_f f
  | VString s => s
  end.

(** [Variant::str]: numbers go through [char str[256]], which [%f] overruns for
    a [double] of more than two hundred and fifty-five characters. *)
Definition str (v : Variant) : option (list Z) :=
  match v with
  | VInt _ | VLong _ | VReal _ => sprintf_into 256 (shown v)
  | _ => Some (shown v)
  end.

(** ** Tables and objects *)

Inductive field_type : Type := Integer | Long | Real | Text | Blob | NoType.

#[export] Instance field_type_eq_dec : EqDecision field_type.
Proof. solve_decision. Defined.

Record Field : Type := mkField {
  field_name : list Z;
  index : bool;
  primary : bool;
  nullable : bool;
  type : field_type
}.

(** The fields are kept in a map from the addresses of their names: [fields]
    is the order of this map, which may be any. *)
Record Table : Type := mkTable {
  cls_name : list Z;
  fields : list Field;
  version : real
}.

(** What a field of an object holds. *)
Inductive member : Type := IntM (n : Z) | LongM (n : Z) | RealM (f : real) | TextM (t : list Z).

#[export] Instance member_eq_dec : EqDecision member.
Proof. solve_decision. Defined.

(** An object of a model class: [changed] of [BaseModel], and its fields. *)
Record model : Type := mkModel {
  m_changed : bool;
  members : gmap (list Z) member
}.

Definition identifier : list Z := bytes_of "identifier".

(** [field->get(model, &v)], where [v] has the given value before. *)
Definition get_int (m : model) (f : list Z) : Z := match m.(members) !! f with Some (IntM n) => n | _ => 0 end.
Definition get_long (m : model) (f : list Z) : Z := match m.(members) !! f with Some (LongM n) => n | _ => 0 end.
Definition get_real (m : model) (f : list Z) : real :=
  match m.(members) !! f with Some (RealM r) => r | _ => Finite false 0 0 end.
Definition get_text (m : model) (f : list Z) : list Z := match m.(members) !! f with Some (TextM t) => t | _ => [] end.

(** [a == b] on floating-point numbers. *)
Definition real_eqb (a b : real) : bool :=
  match a, b with
  | Finite n m e, Finite n' m' e' =>
      let k := Z.min e e' in
      (if n then - m else m) * 2 ^ (e - k) =? (if n' then - m' else m') * 2 ^ (e' - k)
  | Infinite n, Infinite n' => Bool.eqb n n'
  | _, _ => false
  end.

Definition same_member (v : member) (w : option member) : bool :=
  match v, w with
  | RealM a, Some (RealM b) => real_eqb a b
  | RealM _, _ => false
  | _, _ => bool_decide (w = Some v)
  end.

(** The setters of [DEFINE_FIELD] and [DEFINE_STRING]. *)
Definition set_member (f : list Z) (v : member) (m : model) : model :=
  if same_member v (m.(members) !! f) then m else mkModel true (<[f := v]> m.(members)).

Definition done (m : model) : model := mkModel false m.(members).

(** ** Queries *)

(** [SQLQuery] over [Query]; [results] are the objects of the last [find]. *)
Record SQLQuery : Type := mkQuery {
  q_table : Table;
  q_changed : bool;
  sort_asc : bool;
  q_limit : Z;
  q_offset : Z;
  q_results : list model;
  sql_sentence : list Z;
  sort_bys : list Z;
  params : list Variant
}.

Definition new_query (t : Table) : SQLQuery := mkQuery t true true 0 (-1) [] [] [] [].

Definition set_changed b (q : SQLQuery) : SQLQuery :=
  mkQuery q.(q_table) b q.(sort_asc) q.(q_limit) q.(q_offset) q.(q_results) q.(sql_sentence) q.(sort_bys) q.(params).
Definition setSortAsc b (q : SQLQuery) : SQLQuery :=
  mkQuery q.(q_table) q.(q_changed) b q.(q_limit) q.(q_offset) q.(q_results) q.(sql_sentence) q.(sort_bys) q.(params).
Definition limit l (q : SQLQuery) : SQLQuery :=
  mkQuery q.(q_table) q.(q_changed) q.(sort_asc) l q.(q_offset) q.(q_results) q.(sql_sentence) q.(sort_bys) q.(params).
Definition offset o (q : SQLQuery) : SQLQuery :=
  mkQuery q.(q_table) q.(q_changed) q.(sort_asc) q.(q_limit) o q.(q_results) q.(sql_sentence) q.(sort_bys) q.(params).
Definition set_results rs (q : SQLQuery) : SQLQuery :=
  mkQuery q.(q_table) q.(q_changed) q.(sort_asc) q.(q_limit) q.(q_offset) rs q.(sql_sentence) q.(sort_bys) q.(params).
Definition append s (q : SQLQuery) : SQLQuery :=
  mkQuery q.(q_table) q.(q_changed) q.(sort_asc) q.(q_limit) q.(q_offset) q.(q_results) (q.(sql_sentence) ++ s) q.(sort_bys) q.(params).
Definition set_sort_bys s (q : SQLQuery) : SQLQuery :=
  mkQuery q.(q_table) q.(q_changed) q.(sort_asc) q.(q_limit) q.(q_offset) q.(q_results) q.(sql_sentence) s q.(params).
Definition push_param v (q : SQLQuery) : SQLQuery :=
  mkQuery q.(q_table) q.(q_changed) q.(sort_asc) q.(q_limit) q.(q_offset) q.(q_results) q.(sql_sentence) q.(sort_bys) (q.(params) ++ [v]).

(** A text becomes a parameter, any other value is written as it is; [None]
    when that overruns the buffer of [str]. *)
Definition append_value (v : Variant) (q : SQLQuery) : option SQLQuery :=
  match v with
  | VString _ => Some (append [ch "?"] (push_param v q))
  | _ => s ← str v; Some (append s q)
  end.

Definition insertAction (name : list Z) (val : Variant) (action : list Z) (q : SQLQuery) : option SQLQuery :=
  q' ← append_value val (append ([ch " "] ++ name ++ [ch " "] ++ action ++ [ch " "]) q);
  Some (set_changed true (append [ch " "] q')).

Definition equal name val := insertAction name val (bytes_of "=").
Definition greater name val := insertAction name val (bytes_of ">").
Definition less name val := insertAction name val (bytes_of "<").
Definition like name val := insertAction name val (bytes_of "like").

Definition andQ : SQLQuery -> SQLQuery := append (bytes_of " and ").

Definition sortBy (name : list Z) (q : SQLQuery) : SQLQuery :=
  set_sort_bys (q.(sort_bys) ++ (match q.(sort_bys) with [] => [] | _ => [ch ","] end) ++ name) q.

Fixpoint append_values (first : bool) (values : list Variant) (q : SQLQuery) : option SQLQuery :=
  match values with
  | [] => Some q
  | v :: r =>
      q' ← append_value v (if first then q else append [ch ","] q);
      append_values false r q'
  end.

Definition in_array (name : list Z) (values : list Variant) (q : SQLQuery) : option SQLQuery :=
  q' ← append_values true values (append ([ch " "] ++ name ++ [ch " "] ++ bytes_of "in (") q);
  Some (append [ch ")"] q').

Definition in_text (name values : list Z) : SQLQuery -> SQLQuery :=
  append ([ch " "] ++ name ++ [ch " "] ++ bytes_of "in (" ++ values ++ [ch ")"]).

(** Names with commas between them. *)
Fixpoint listed (names : list (list Z)) : list Z :=
  match names with
  | [] => []
  | [n] => n
  | n :: r => n ++ [ch ","] ++ listed r
  end.

Definition where_text (q : SQLQuery) : list Z :=
  match q.(sql_sentence) with [] => [] | _ => bytes_of " WHERE " ++ q.(sql_sentence) end.

Definition order_text (q : SQLQuery) : list Z :=
  match q.(sort_bys) with
  | [] => []
  | _ => bytes_of " ORDER BY " ++ q.(sort_bys) ++ (if q.(sort_asc) then bytes_of " ASC " else bytes_of " DESC ")
  end.

(** The statement of [SQLQuery::find]. *)
Definition find_text (q : SQLQuery) : list Z :=
  bytes_of "SELECT " ++ listed (map field_name q.(q_table).(fields))
  ++ bytes_of " FROM " ++ q.(q_table).(cls_name) ++ where_text q ++ order_text q
  ++ (if 0 <? q.(q_limit) then bytes_of " LIMIT " ++ sprintf_d q.(q_limit) else [])
  ++ (if 0 <=? q.(q_offset) then bytes_of " OFFSET " ++ sprintf_d q.(q_offset) else [])
  ++ [ch ";"].

(** The statement of [SQLQuery::remove]. *)
Definition remove_text (q : SQLQuery) : list Z :=
  bytes_of "DELETE " ++ bytes_of " FROM " ++ q.(q_table).(cls_name) ++ where_text q ++ [ch ";"].

(** ** Storing objects *)

(** A field's value in a statement, and the parameter it needs: the numbers go
    through [char str[20]]. *)
Definition value_text (f : Field) (m : model) : option (list Z * list Variant) :=
  match f.(type) with
  | Integer => s ← sprintf_into 20 (sprintf_d (get_int m f.(field_name))); Some (s, [])
  | Long => s ← sprintf_into 20 (sprintf_d (get_long m f.(field_name))); Some (s, [])
  | Real => s ← sprintf_into 20 (sprintf_f (get_real m f.(field_name))); Some (s, [])
  | Text => Some ([ch "?"], [VString (get_text m f.(field_name))])
  | _ => Some ([], [])
  end.

(** The loop over the fields for INSERT: names, values and parameters. *)
Fixpoint insert_fields (fs : list Field) (m : model) (first : bool) (ss values : list Z) (vs : list Variant) :
    option (list Z * list Z * list Variant) :=
  match fs with
  | [] => Some (ss, values, vs)
  | f :: r =>
      if f.(primary) then insert_fields r m first ss values vs
      else
        let comma := if first then [] else [ch ","] in
        '(s, ps) ← value_text f m;
        insert_fields r m false (ss ++ comma ++ f.(field_name)) (values ++ comma ++ s) (vs ++ ps)
  end.

Definition insert_text (m : model) (t : Table) : option (list Z * list Variant) :=
  '(ss, values, vs) ← insert_fields t.(fields) m true
    (bytes_of "INSERT OR IGNORE INTO " ++ t.(cls_name) ++ bytes_of " (") [] [];
  Some (ss ++ bytes_of ") VALUES (" ++ values ++ bytes_of ");", vs).

(** The loop over the fields for UPDATE. *)
Fixpoint update_fields (fs : list Field) (m : model) (first : bool) (ss : list Z) (vs : list Variant) :
    option (list Z * list Variant) :=
  match fs with
  | [] => Some (ss, vs)
  | f :: r =>
      if f.(primary) then update_fields r m first ss vs
      else
        '(s, ps) ← value_text f m;
        update_fields r m false
          (ss ++ (if first then [] else [ch ","]) ++ f.(field_name) ++ bytes_of " = " ++ s) (vs ++ ps)
  end.

(** The identifier goes through [char istr[10]]. *)
Definition update_text (m : model) (t : Table) : option (list Z * list Variant) :=
  '(ss, vs) ← update_fields t.(fields) m true (bytes_of "UPDATE " ++ t.(cls_name) ++ bytes_of " SET ") [];
  istr ← sprintf_into 10 (sprintf_d (get_int m identifier));
  Some (ss ++ bytes_of " WHERE identifier = " ++ istr ++ [ch ";"], vs).

(** [SQLite::remove] reads the identifier only after its test. *)
Definition delete_text (m : model) (t : Table) : option (list Z) :=
  istr ← sprintf_into 10 (sprintf_d (get_int m identifier));
  Some (bytes_of "DELETE FROM " ++ t.(cls_name) ++ bytes_of " WHERE identifier = " ++ istr ++ [ch ";"]).

(** ** Making tables *)

Definition column_type (f : Field) : option (list Z) :=
  if f.(primary) then Some (bytes_of " INTEGER PRIMARY KEY AUTOINCREMENT")
  else match f.(type) with
  | Integer | Long => Some (bytes_of " INT")
  | Real => Some (bytes_of " REAL")
  | Text => Some (bytes_of " TEXT")
  | _ => None
  end.

Fixpoint create_fields (fs : list Field) (first : bool) (ss : list Z) : option (list Z) :=
  match fs with
  | [] => Some ss
  | f :: r =>
      ty ← column_type f;
      create_fields r false (ss ++ (if first then [] else [ch ","]) ++ f.(field_name) ++ ty
        ++ (if f.(nullable) then [] else bytes_of " NOT NULL"))
  end.

(** The statements that [processTable] queues for the table and its index; none
    for a field that has no type. *)
Definition create_texts (t : Table) : option (list (list Z)) :=
  ss ← create_fields t.(fields) true (bytes_of "CREATE TABLE IF NOT EXISTS " ++ t.(cls_name) ++ bytes_of " (");
  Some [ss ++ bytes_of ");";
        bytes_of "CREATE INDEX IF NOT EXISTS " ++ t.(cls_name) ++ bytes_of "_INDEX ON " ++ t.(cls_name)
          ++ bytes_of " (" ++ listed (map field_name (List.filter index t.(fields))) ++ bytes_of ");"].
