(* ===== verification/SqlRead.v ===== *)
(** * What the statements of the database layer say

    A reference reading of the part of SQL that [SqlText] writes: words and
    signs, then a grammar of statements, then the values of their parameters.
    It is shown that every statement reads as the query or the object it was
    made for, whatever characters the texts hold that are searched or stored,
    and which numbers do not fit the buffers they are written through. *)

From Stdlib Require Import ZArith Lia ZifyNat ZifyBool Ascii String.
From stdpp Require Import base list option strings gmap.
From S2P Require Import Prelude Sprintf SqlText.

#[local] Open Scope Z_scope.

(** ** Words and signs *)

Inductive token : Type := Word (w : list Z) | Sign (c : Z).

#[export] Instance token_eq_dec : EqDecision token.
Proof. solve_decision. Defined.

(** Letters, digits, the underscore, and what numbers need. *)
Definition word_char (c : Z) : bool :=
  ((65 <=? c) && (c <=? 90)) || ((97 <=? c) && (c <=? 122)) || ((48 <=? c) && (c <=? 57))
  || (c =? ch "_") || (c =? ch ".") || (c =? ch "-").

Definition word_token (w : list Z) : list token := match w with [] => [] | _ => [Word w] end.
Definition sign_token (c : Z) : list token := if c =? ch " " then [] else [Sign c].

(** [cur] is the part of a word that has been read. *)
Fixpoint lex (cur : list Z) (s : list Z) : list token :=
  match s with
  | [] => word_token cur
  | c :: r => if word_char c then lex (cur ++ [c]) r else word_token cur ++ sign_token c ++ lex [] r
  end.

(** ** The grammar *)

Inductive comparison : Type := OpEqual | OpGreater | OpLess | OpLike.
Inductive literal : Type := Number (w : list Z) | Placeholder.
Inductive condition (V : Type) : Type :=
| Compare (column : list Z) (op : comparison) (v : V)
| Among (column : list Z) (vs : list V).
Arguments Compare {V} _ _ _.
Arguments Among {V} _ _.

Inductive sql (V : Type) : Type :=
| Select (columns : list (list Z)) (table : list Z) (conditions : list (condition V))
    (order : option (list (list Z) * bool)) (limit offset : option V)
| Delete (table : list Z) (conditions : list (condition V))
| Insert (table : list Z) (columns : list (list Z)) (values : list V)
| Update (table : list Z) (settings : list (list Z * V)) (conditions : list (condition V)).
Arguments Select {V} _ _ _ _ _ _.
Arguments Delete {V} _ _.
Arguments Insert {V} _ _ _.
Arguments Update {V} _ _ _.

Definition kw (s : string) : token := Word (bytes_of s).
Definition sign (c : ascii) : token := Sign (ch c).

(** The keywords of SQLite, but for KEY, which may be the name of a column. *)
Definition reserved : list (list Z) :=
  map bytes_of ["ABORT"; "ACTION"; "ADD"; "AFTER"; "ALL"; "ALTER"; "ALWAYS"; "ANALYZE"; "AND"; "AS"; "ASC"; "ATTACH";
    "AUTOINCREMENT"; "BEFORE"; "BEGIN"; "BETWEEN"; "BY"; "CASCADE"; "CASE"; "CAST"; "CHECK"; "COLLATE"; "COLUMN";
    "COMMIT"; "CONFLICT"; "CONSTRAINT"; "CREATE"; "CROSS"; "CURRENT"; "CURRENT_DATE"; "CURRENT_TIME";
    "CURRENT_TIMESTAMP"; "DATABASE"; "DEFAULT"; "DEFERRABLE"; "DEFERRED"; "DELETE"; "DESC"; "DETACH"; "DISTINCT";
    "DO"; "DROP"; "EACH"; "ELSE"; "END"; "ESCAPE"; "EXCEPT"; "EXCLUDE"; "EXCLUSIVE"; "EXISTS"; "EXPLAIN"; "FAIL";
    "FILTER"; "FIRST"; "FOLLOWING"; "FOR"; "FOREIGN"; "FROM"; "FULL"; "GENERATED"; "GLOB"; "GROUP"; "GROUPS";
    "HAVING"; "IF"; "IGNORE"; "IMMEDIATE"; "IN"; "INDEX"; "INDEXED"; "INITIALLY"; "INNER"; "INSERT"; "INSTEAD";
    "INTERSECT"; "INTO"; "IS"; "ISNULL"; "JOIN"; "LAST"; "LEFT"; "LIKE"; "LIMIT"; "MATCH"; "MATERIALIZED";
    "NATURAL"; "NO"; "NOT"; "NOTHING"; "NOTNULL"; "NULL"; "NULLS"; "OF"; "OFFSET"; "ON"; "OR"; "ORDER"; "OTHERS";
    "OUTER"; "OVER"; "PARTITION"; "PLAN"; "PRAGMA"; "PRECEDING"; "PRIMARY"; "QUERY"; "RAISE"; "RANGE"; "RECURSIVE";
    "REFERENCES"; "REGEXP"; "REINDEX"; "RELEASE"; "RENAME"; "REPLACE"; "RESTRICT"; "RETURNING"; "RIGHT";
    "ROLLBACK"; "ROW"; "ROWS"; "SAVEPOINT"; "SELECT"; "SET"; "TABLE"; "TEMP"; "TEMPORARY"; "THEN"; "TIES"; "TO";
    "TRANSACTION"; "TRIGGER"; "UNBOUNDED"; "UNION"; "UNIQUE"; "UPDATE"; "USING"; "VACUUM"; "VALUES"; "VIEW";
    "VIRTUAL"; "WHEN"; "WHERE"; "WINDOW"; "WITH"; "WITHOUT"].

Definition upper (c : Z) : Z := if (97 <=? c) && (c <=? 122) then c - 32 else c.

(** Letters, digits and the underscore. *)
Definition name_char (c : Z) : bool := word_char c && negb (c =? ch ".") && negb (c =? ch "-").

Definition starts_number (w : list Z) : bool :=
  match w with c :: _ => ((48 <=? c) && (c <=? 57)) || (c =? ch "-") | [] => false end.

(** The name of a table or a column; keywords are known in any case. *)
Definition is_name (w : list Z) : bool :=
  negb (bool_decide (w = [])) && forallb name_char w && negb (starts_number w)
  && negb (bool_decide (map upper w ∈ reserved)).

Definition read_token (t : token) (ts : list token) : option (list token) :=
  match ts with t' :: r => if decide (t' = t) then Some r else None | [] => None end.

Definition read_name (ts : list token) : option (list Z * list token) :=
  match ts with Word w :: r => if is_name w then Some (w, r) else None | _ => None end.

Definition read_literal (ts : list token) : option (literal * list token) :=
  match ts with
  | Word w :: r => if starts_number w then Some (Number w, r) else None
  | Sign c :: r => if c =? ch "?" then Some (Placeholder, r) else None
  | [] => None
  end.

(** One or more items with commas between them. *)
Fixpoint read_items {A} (item : list token -> option (A * list token)) (fuel : nat) (ts : list token) :
    option (list A * list token) :=
  match fuel with
  | O => None
  | S n =>
      '(a, r) ← item ts;
      match read_token (sign ",") r with
      | Some r' => '(l, r2) ← read_items item n r'; Some (a :: l, r2)
      | None => Some ([a], r)
      end
  end.

Definition read_list {A} (item : list token -> option (A * list token)) (ts : list token) : option (list A * list token) :=
  read_items item (length ts) ts.

Definition read_comparison (ts : list token) : option (comparison * list token) :=
  match ts with
  | Sign c :: r =>
      if c =? ch "=" then Some (OpEqual, r) else if c =? ch ">" then Some (OpGreater, r)
      else if c =? ch "<" then Some (OpLess, r) else None
  | Word w :: r => if decide (w = bytes_of "like") then Some (OpLike, r) else None
  | [] => None
  end.

Definition read_condition (ts : list token) : option (condition literal * list token) :=
  '(c, r) ← read_name ts;
  match read_token (kw "in") r with
  | Some r1 =>
      r2 ← read_token (sign "(") r1;
      match read_token (sign ")") r2 with
      | Some r3 => Some (Among c [], r3)
      | None => '(vs, r3) ← read_list read_literal r2; r4 ← read_token (sign ")") r3; Some (Among c vs, r4)
      end
  | None => '(op, r1) ← read_comparison r; '(v, r2) ← read_literal r1; Some (Compare c op v, r2)
  end.

Fixpoint read_conditions (fuel : nat) (ts : list token) : option (list (condition literal) * list token) :=
  match fuel with
  | O => None
  | S n =>
      '(c, r) ← read_condition ts;
      match read_token (kw "and") r with
      | Some r' => '(l, r2) ← read_conditions n r'; Some (c :: l, r2)
      | None => Some ([c], r)
      end
  end.

Definition read_where (ts : list token) : option (list (condition literal) * list token) :=
  match read_token (kw "WHERE") ts with
  | Some r => read_conditions (length r) r
  | None => Some ([], ts)
  end.

Definition read_order (ts : list token) : option (option (list (list Z) * bool) * list token) :=
  match read_token (kw "ORDER") ts with
  | Some r =>
      r1 ← read_token (kw "BY") r;
      '(names, r2) ← read_list read_name r1;
      match read_token (kw "ASC") r2 with
      | Some r3 => Some (Some (names, true), r3)
      | None => r3 ← read_token (kw "DESC") r2; Some (Some (names, false), r3)
      end
  | None => Some (None, ts)
  end.

(** OFFSET is part of LIMIT. *)
Definition read_limit (ts : list token) : option (option literal * option literal * list token) :=
  match read_token (kw "LIMIT") ts with
  | Some r =>
      '(l, r1) ← read_literal r;
      match read_token (kw "OFFSET") r1 with
      | Some r2 => '(o, r3) ← read_literal r2; Some (Some l, Some o, r3)
      | None => Some (Some l, None, r1)
      end
  | None => Some (None, None, ts)
  end.

Definition read_setting (ts : list token) : option (list Z * literal * list token) :=
  '(c, r) ← read_name ts; r1 ← read_token (sign "=") r; '(v, r2) ← read_literal r1; Some (c, v, r2).

(** The end of the statement. *)
Definition closed {A} (a : A) (ts : list token) : option A :=
  if decide (ts = [sign ";"]) then Some a else None.

Definition read_select (ts : list token) : option (sql literal) :=
  '(cols, r) ← read_list read_name ts;
  r1 ← read_token (kw "FROM") r;
  '(t, r2) ← read_name r1;
  '(w, r3) ← read_where r2;
  '(o, r4) ← read_order r3;
  '(l, k, r5) ← read_limit r4;
  closed (Select cols t w o l k) r5.

Definition read_delete (ts : list token) : option (sql literal) :=
  r ← read_token (kw "FROM") ts; '(t, r1) ← read_name r; '(w, r2) ← read_where r1; closed (Delete t w) r2.

Definition read_insert (ts : list token) : option (sql literal) :=
  r ← read_token (kw "OR") ts; r1 ← read_token (kw "IGNORE") r; r2 ← read_token (kw "INTO") r1;
  '(t, r3) ← read_name r2; r4 ← read_token (sign "(") r3; '(cols, r5) ← read_list read_name r4;
  r6 ← read_token (sign ")") r5; r7 ← read_token (kw "VALUES") r6; r8 ← read_token (sign "(") r7;
  '(vs, r9) ← read_list read_literal r8; r10 ← read_token (sign ")") r9;
  closed (Insert t cols vs) r10.

Definition read_update (ts : list token) : option (sql literal) :=
  '(t, r) ← read_name ts; r1 ← read_token (kw "SET") r; '(l, r2) ← read_list read_setting r1;
  '(w, r3) ← read_where r2; closed (Update t l w) r3.

Definition read_statement (ts : list token) : option (sql literal) :=
  match ts with
  | Word w :: r =>
      if decide (w = bytes_of "SELECT") then read_select r
      else if decide (w = bytes_of "DELETE") then read_delete r
      else if decide (w = bytes_of "INSERT") then read_insert r
      else if decide (w = bytes_of "UPDATE") then read_update r
      else None
  | _ => None
  end.

(** ** Parameters *)

(** A value that a statement works with; numbers by their text. *)
Inductive value : Type := NullV | NumV (w : list Z) | RealV (f : real) | TextV (t : list Z).

#[export] Instance value_eq_dec : EqDecision value.
Proof. solve_decision. Defined.

(** What [SQLite::action] binds, one position after the other: a text up to its
    NUL, and nothing for a value of another class. *)
Definition bindings (ps : list Variant) : list value :=
  omap (fun v => match v with
    | VInt n | VLong n => Some (NumV (sprintf_d n))
    | VReal f => Some (RealV f)
    | VString s => Some (TextV (cstr s))
    | _ => None
    end) ps.

(** A placeholder stands for the next binding, and for NULL behind the last. *)
Definition fill_literal (l : literal) (bs : list value) : value * list value :=
  match l, bs with
  | Number w, _ => (NumV w, bs)
  | Placeholder, b :: r => (b, r)
  | Placeholder, [] => (NullV, [])
  end.

Fixpoint fill_all {A B} (fill : A -> list value -> B * list value) (l : list A) (bs : list value) : list B * list value :=
  match l with
  | [] => ([], bs)
  | a :: r => let '(b, bs1) := fill a bs in let '(r', bs2) := fill_all fill r bs1 in (b :: r', bs2)
  end.

Definition fill_condition (c : condition literal) (bs : list value) : condition value * list value :=
  match c with
  | Compare n op l => let '(v, r) := fill_literal l bs in (Compare n op v, r)
  | Among n ls => let '(vs, r) := fill_all fill_literal ls bs in (Among n vs, r)
  end.

Definition fill_option (l : option literal) (bs : list value) : option value * list value :=
  match l with Some l => let '(v, r) := fill_literal l bs in (Some v, r) | None => (None, bs) end.

Definition fill_setting (p : list Z * literal) (bs : list value) : (list Z * value) * list value :=
  let '(v, r) := fill_literal p.2 bs in ((p.1, v), r).

Definition fill_sql (st : sql literal) (bs : list value) : sql value :=
  match st with
  | Select cols t w o l k =>
      let '(w', bs1) := fill_all fill_condition w bs in
      let '(l', bs2) := fill_option l bs1 in
      let '(k', _) := fill_option k bs2 in Select cols t w' o l' k'
  | Delete t w => let '(w', _) := fill_all fill_condition w bs in Delete t w'
  | Insert t cols vs => let '(vs', _) := fill_all fill_literal vs bs in Insert t cols vs'
  | Update t l w =>
      let '(l', bs1) := fill_all fill_setting l bs in
      let '(w', _) := fill_all fill_condition w bs1 in Update t l' w'
  end.

(** The statement that is executed for a text and its parameters. *)
Definition prepared (text : list Z) (ps : list Variant) : option (sql value) :=
  st ← read_statement (lex [] text); Some (fill_sql st (bindings ps)).

(** ** Reading words *)

Definition separated (s : list Z) : Prop := match s with c :: _ => word_char c = false | [] => True end.

Lemma lex_word cur w s : forallb word_char w = true -> lex cur (w ++ s) = lex (cur ++ w) s.
Proof.
  revert cur. induction w as [|c w IH]; intros cur Hw; [by rewrite app_nil_r|].
  cbn in *. apply andb_true_iff in Hw as [-> Hw]. by rewrite IH, <- app_assoc.
Qed.

Lemma lex_stop w s : w <> [] -> separated s -> lex w s = Word w :: lex [] s.
Proof. intros Hw Hs. destruct w; [done|]. destruct s as [|c s]; [done|]. cbn in *. by rewrite Hs. Qed.

Lemma lex_whole w s : w <> [] -> forallb word_char w = true -> separated s -> lex [] (w ++ s) = Word w :: lex [] s.
Proof. intros. rewrite lex_word by done. by apply lex_stop. Qed.

Lemma name_word w : is_name w = true -> w <> [] /\ forallb word_char w = true.
Proof.
  unfold is_name. intros [[[H1 H2]%andb_true_iff _]%andb_true_iff _]%andb_true_iff.
  split; [by case_bool_decide|]. rewrite forallb_forall in H2 |- *. intros c Hc. specialize (H2 c Hc).
  unfold name_char in H2. by apply andb_true_iff in H2 as [[? _]%andb_true_iff _].
Qed.

Lemma lex_name w s : is_name w = true -> separated s -> lex [] (w ++ s) = Word w :: lex [] s.
Proof. intros [? ?]%name_word. by apply lex_whole. Qed.

(** ** Reading numbers *)

Definition is_number (w : list Z) : Prop := starts_number w = true /\ forallb word_char w = true.

Lemma number_word w : is_number w -> w <> [] /\ forallb word_char w = true.
Proof. intros [H1 H2]. by destruct w. Qed.

Lemma digits_word l : Forall (fun c => 48 <= c <= 57) l -> forallb word_char l = true.
Proof. induction 1 as [|c l Hc _ IH]; [done|]. cbn [forallb]. rewrite IH. unfold word_char. lia. Qed.

Lemma natural_nonempty n : natural n <> [].
Proof. unfold natural. cbn [decimal]. destruct (n <? 10); [done|]. intros [_ ?]%app_eq_nil. done. Qed.

Lemma natural_number n s : 0 <= n -> forallb word_char s = true -> is_number (natural n ++ s).
Proof.
  intros Hn Hs. destruct (natural_spec n Hn) as [_ Hd]. split.
  - pose proof (natural_nonempty n). destruct Hd as [|c l Hc _]; [done|]. cbn. lia.
  - rewrite forallb_app, Hs. by rewrite digits_word.
Qed.

Lemma sprintf_d_number n : is_number (sprintf_d n).
Proof.
  unfold sprintf_d. destruct (n <? 0) eqn:E.
  - destruct (natural_spec (- n)) as [_ Hd]; [lia|]. split; [done|]. cbn [forallb]. by rewrite digits_word.
  - rewrite <- (app_nil_r (natural n)). apply natural_number; [lia|done].
Qed.

Lemma millionths_nonneg m e : 0 <= m -> 0 <= millionths m e.
Proof.
  intros Hm. unfold millionths. destruct (0 <=? e) eqn:E.
  - apply Z.mul_nonneg_nonneg; [lia|]. apply Z.pow_nonneg. lia.
  - unfold round_even. assert (0 <= m * 10 ^ 6 / 2 ^ (- e)); [|destruct (_ || _); lia].
    apply Z.div_pos; [lia|]. apply Z.pow_pos_nonneg; lia.
Qed.

Lemma sprintf_f_number b m e : 0 <= m -> is_number (sprintf_f (Finite b m e)).
Proof.
  intros Hm. cbn [sprintf_f]. pose proof (millionths_nonneg m e Hm) as Hk.
  generalize dependent (millionths m e). intros k Hk.
  destruct (natural_spec (k mod 10 ^ 6)) as [_ Hf]; [apply Z.mod_pos_bound; lia|].
  assert (forall n, is_number (natural (k / 10 ^ 6) ++ [ch "."] ++ replicate n (ch "0") ++ natural (k mod 10 ^ 6))) as H.
  { intros n. apply natural_number; [apply Z.div_pos; lia|]. rewrite forallb_app. apply andb_true_iff. split; [done|].
    apply digits_word, Forall_app. split; [|done]. apply Forall_replicate. done. }
  destruct b; cbn [sign_text app]; [|apply H]. destruct (H (6 - length (natural (k mod 10 ^ 6)))%nat) as [_ Hw].
  split; [done|]. cbn [forallb app] in *. exact Hw.
Qed.

Lemma lex_number w s : is_number w -> separated s -> lex [] (w ++ s) = Word w :: lex [] s.
Proof. intros [? ?]%number_word. by apply lex_whole. Qed.

(** ** What a query asks for *)

(** The calls that a script makes on a query. *)
Inductive query_call : Type :=
| CallCompare (op : comparison) (name : list Z) (v : Variant)
| CallIn (name : list Z) (vs : list Variant)
| CallAnd
| CallSortBy (name : list Z)
| CallLimit (l : Z)
| CallOffset (o : Z)
| CallSortAsc (b : bool).

Definition perform_query_call (q : SQLQuery) (c : query_call) : option SQLQuery :=
  match c with
  | CallCompare OpEqual n v => equal n v q
  | CallCompare OpGreater n v => greater n v q
  | CallCompare OpLess n v => less n v q
  | CallCompare OpLike n v => like n v q
  | CallIn n vs => in_array n vs q
  | CallAnd => Some (andQ q)
  | CallSortBy n => Some (sortBy n q)
  | CallLimit l => Some (limit l q)
  | CallOffset o => Some (offset o q)
  | CallSortAsc b => Some (setSortAsc b q)
  end.

(** One call after the other, until a buffer is overrun. *)
Fixpoint perform_query_calls (q : SQLQuery) (calls : list query_call) : option SQLQuery :=
  match calls with
  | [] => Some q
  | c :: r => q' ← perform_query_call q c; perform_query_calls q' r
  end.

(** What the calls ask for: conditions that all have to hold, the order, and
    the part of the results.  Between two conditions there must be one [andQ]. *)
Record asked : Type := mkAsked {
  wanted : list (condition Variant);
  complete : bool;
  sorts : list (list Z);
  ascending : bool;
  at_most : Z;
  from : Z
}.

Definition everything : asked := mkAsked [] false [] true 0 (-1).

Definition add_condition (c : condition Variant) (a : asked) : option asked :=
  if a.(complete) then None
  else Some (mkAsked (a.(wanted) ++ [c]) true a.(sorts) a.(ascending) a.(at_most) a.(from)).

Definition ask (a : asked) (c : query_call) : option asked :=
  match c with
  | CallCompare op n v => add_condition (Compare n op v) a
  | CallIn n vs => add_condition (Among n vs) a
  | CallAnd =>
      if a.(complete) then Some (mkAsked a.(wanted) false a.(sorts) a.(ascending) a.(at_most) a.(from)) else None
  | CallSortBy n => Some (mkAsked a.(wanted) a.(complete) (a.(sorts) ++ [n]) a.(ascending) a.(at_most) a.(from))
  | CallLimit l => Some (mkAsked a.(wanted) a.(complete) a.(sorts) a.(ascending) l a.(from))
  | CallOffset o => Some (mkAsked a.(wanted) a.(complete) a.(sorts) a.(ascending) a.(at_most) o)
  | CallSortAsc b => Some (mkAsked a.(wanted) a.(complete) a.(sorts) b a.(at_most) a.(from))
  end.

Definition asks (calls : list query_call) : option asked :=
  foldl (fun a c => a ≫= fun a => ask a c) (Some everything) calls.

(** No [andQ] is left without its condition. *)
Definition finished (a : asked) : Prop := a.(complete) = true \/ a.(wanted) = [].

(** The values that can be written: texts and numbers. *)
Definition writable (v : Variant) : Prop :=
  match v with VString _ | VInt _ | VLong _ => True | VReal (Finite _ m _) => 0 <= m | _ => False end.

(** An [int], a [long long], a finite number or a text. *)
Definition in_range (v : Variant) : Prop :=
  match v with
  | VInt n => - 2 ^ 31 <= n < 2 ^ 31
  | VLong n => - 2 ^ 63 <= n < 2 ^ 63
  | VReal (Finite _ m _) => 0 <= m
  | VString _ => True
  | _ => False
  end.

Lemma in_range_writable v : in_range v -> writable v.
Proof. by destruct v as [| | | | |[]|]. Qed.

(** The text of a number and its NUL are within a buffer. *)
Definition fits (cap : nat) (v : Variant) : bool :=
  match v with VString _ => true | _ => (length (shown v) <? cap)%nat end.

Definition condition_ok (c : condition Variant) : Prop :=
  match c with
  | Compare n _ v => is_name n = true /\ writable v
  | Among n vs => is_name n = true /\ Forall writable vs
  end.

Definition asked_ok (a : asked) : Prop :=
  Forall condition_ok a.(wanted) /\ Forall (fun n => is_name n = true) a.(sorts).

Definition table_ok (t : Table) : Prop :=
  is_name t.(cls_name) = true /\ t.(fields) <> [] /\ Forall (fun f => is_name f.(field_name) = true) t.(fields).

(** The value that a text or a number stands for. *)
Definition meant (v : Variant) : value := match v with VString s => TextV (cstr s) | _ => NumV (shown v) end.

Definition map_condition {A B} (f : A -> B) (c : condition A) : condition B :=
  match c with Compare n op v => Compare n op (f v) | Among n vs => Among n (map f vs) end.

(** The statement that was asked for. *)
Definition asked_select (t : Table) (a : asked) : sql value :=
  Select (map field_name t.(fields)) t.(cls_name) (map (map_condition meant) a.(wanted))
    (match a.(sorts) with [] => None | l => Some (l, a.(ascending)) end)
    (if 0 <? a.(at_most) then Some (NumV (sprintf_d a.(at_most))) else None)
    (if 0 <=? a.(from) then Some (NumV (sprintf_d a.(from))) else None).

Definition asked_delete (t : Table) (a : asked) : sql value :=
  Delete t.(cls_name) (map (map_condition meant) a.(wanted)).

(** ** The words of a query *)

Definition literal_of (v : Variant) : literal := match v with VString _ => Placeholder | _ => Number (shown v) end.
Definition literal_token (v : Variant) : token := match v with VString _ => sign "?" | _ => Word (shown v) end.
Definition value_sentence (v : Variant) : list Z := match v with VString _ => [ch "?"] | _ => shown v end.
Definition value_params (v : Variant) : list Variant := match v with VString _ => [v] | _ => [] end.

Lemma writable_number v : writable v -> match v with VString _ => True | _ => is_number (shown v) end.
Proof.
  destruct v as [|b|c|n|n|[b m e|b|b]|s]; try done; intros H;
    [apply sprintf_d_number|apply sprintf_d_number|by apply sprintf_f_number].
Qed.

Lemma lex_value v s : writable v -> separated s -> lex [] (value_sentence v ++ s) = literal_token v :: lex [] s.
Proof. intros Hv%writable_number Hs. destruct v; try (by apply lex_number); done. Qed.

Definition op_token (op : comparison) : token :=
  match op with OpEqual => sign "=" | OpGreater => sign ">" | OpLess => sign "<" | OpLike => kw "like" end.
Definition op_text (op : comparison) : list Z :=
  match op with OpEqual => bytes_of "=" | OpGreater => bytes_of ">" | OpLess => bytes_of "<" | OpLike => bytes_of "like" end.

Fixpoint comma_tokens (l : list token) : list token :=
  match l with
  | [] => []
  | [t] => [t]
  | t :: r => t :: sign "," :: comma_tokens r
  end.

Fixpoint joined {A} (sep : list A) (l : list (list A)) : list A :=
  match l with
  | [] => []
  | [x] => x
  | x :: r => x ++ sep ++ joined sep r
  end.

Lemma joined_snoc {A} (sep : list A) l x : l <> [] -> joined sep (l ++ [x]) = joined sep l ++ sep ++ x.
Proof.
  induction l as [|y l IH]; intros Hl; [done|]. destruct l as [|z l]; [done|].
  change (joined sep ((y :: z :: l) ++ [x])) with (y ++ sep ++ joined sep ((z :: l) ++ [x])).
  rewrite IH by done. change (joined sep (y :: z :: l)) with (y ++ sep ++ joined sep (z :: l)).
  by rewrite <- !app_assoc.
Qed.

Lemma listed_joined l : listed l = joined [ch ","] l.
Proof. induction l as [|x l IH]; [done|]. destruct l; [done|]. cbn in *. by rewrite IH. Qed.

Lemma comma_tokens_joined ts : comma_tokens ts = joined [sign ","] (map (fun t => [t]) ts).
Proof. induction ts as [|t ts IH]; [done|]. destruct ts; [done|]. cbn in *. by rewrite IH. Qed.

Lemma lex_items (texts : list (list Z)) (tss : list (list token)) s :
  Forall2 (fun x ts => forall s, separated s -> lex [] (x ++ s) = ts ++ lex [] s) texts tss -> separated s ->
  lex [] (listed texts ++ s) = joined [sign ","] tss ++ lex [] s.
Proof.
  intros H Hs. induction H as [|x ts xs tss Hx H IH]; [done|].
  destruct H as [|x' ts' xs tss Hx' H]; [by apply Hx|].
  change (listed (x :: x' :: xs)) with (x ++ [ch ","] ++ listed (x' :: xs)).
  rewrite <- !app_assoc, Hx by done.
  change (lex [] ([ch ","] ++ listed (x' :: xs) ++ s)) with (sign "," :: lex [] (listed (x' :: xs) ++ s)).
  rewrite IH. change (joined [sign ","] (ts :: ts' :: tss)) with (ts ++ [sign ","] ++ joined [sign ","] (ts' :: tss)).
  by rewrite <- !app_assoc.
Qed.

Lemma lex_listed (texts : list (list Z)) (ts : list token) s :
  Forall2 (fun x t => forall s, separated s -> lex [] (x ++ s) = t :: lex [] s) texts ts -> separated s ->
  lex [] (listed texts ++ s) = comma_tokens ts ++ lex [] s.
Proof.
  intros H Hs. rewrite comma_tokens_joined. apply lex_items; [|done]. induction H; by constructor.
Qed.

Lemma lex_names (names : list (list Z)) s : Forall (fun n => is_name n = true) names -> separated s ->
  lex [] (listed names ++ s) = comma_tokens (map Word names) ++ lex [] s.
Proof.
  intros H Hs. apply lex_listed; [|done]. induction H; constructor; [|done]. intros. by apply lex_name.
Qed.

Definition condition_text (c : condition Variant) : list Z :=
  match c with
  | Compare n op v => [ch " "] ++ n ++ [ch " "] ++ op_text op ++ [ch " "] ++ value_sentence v ++ [ch " "]
  | Among n vs => [ch " "] ++ n ++ [ch " "] ++ bytes_of "in (" ++ listed (map value_sentence vs) ++ [ch ")"]
  end.

Definition condition_tokens (c : condition Variant) : list token :=
  match c with
  | Compare n op v => [Word n; op_token op; literal_token v]
  | Among n vs => [Word n; kw "in"; sign "("] ++ comma_tokens (map literal_token vs) ++ [sign ")"]
  end.

Lemma lex_condition c s : condition_ok c -> lex [] (condition_text c ++ s) = condition_tokens c ++ lex [] s.
Proof.
  destruct c as [n op v|n vs]; intros [Hn Hv]; unfold condition_text; rewrite <- !app_assoc;
    change (lex [] ([ch " "] ++ ?x)) with (lex [] x); rewrite lex_name by done; cbn [condition_tokens app]; f_equal.
  - assert (forall x, lex [] (ch " " :: op_text op ++ ch " " :: x) = op_token op :: lex [] x) as E
      by (intros x; by destruct op).
    rewrite E. f_equal. by apply (lex_value v (ch " " :: s)).
  - change (lex [] (ch " " :: bytes_of "in (" ++ ?x)) with (kw "in" :: sign "(" :: lex [] x). do 2 f_equal.
    rewrite (lex_listed _ (map literal_token vs) (ch ")" :: s)); [by rewrite <- app_assoc| |done].
    induction Hv; constructor; [|done]. intros. by apply lex_value.
Qed.

(** ** From calls to the query *)

Definition condition_params (c : condition Variant) : list Variant :=
  match c with Compare _ _ v => value_params v | Among _ vs => concat (map value_params vs) end.

(** An [andQ] that waits for its condition. *)
Definition waiting (a : asked) : bool := negb a.(complete) && negb (bool_decide (a.(wanted) = [])).

Definition sentence (a : asked) : list Z :=
  joined (bytes_of " and ") (map condition_text a.(wanted)) ++ (if waiting a then bytes_of " and " else []).

Record written (t : Table) (a : asked) (q : SQLQuery) : Prop := mkWritten {
  wr_table : q.(q_table) = t;
  wr_sentence : q.(sql_sentence) = sentence a;
  wr_params : q.(params) = concat (map condition_params a.(wanted));
  wr_sorts : q.(sort_bys) = listed a.(sorts);
  wr_asc : q.(sort_asc) = a.(ascending);
  wr_limit : q.(q_limit) = a.(at_most);
  wr_offset : q.(q_offset) = a.(from);
  wr_complete : a.(complete) = true -> a.(wanted) <> []
}.

(** The effect of a condition on the object. *)
Definition extended (s : list Z) (ps : list Variant) (q : SQLQuery) : SQLQuery :=
  mkQuery q.(q_table) q.(q_changed) q.(sort_asc) q.(q_limit) q.(q_offset) q.(q_results)
    (q.(sql_sentence) ++ s) q.(sort_bys) (q.(params) ++ ps).

Lemma extended_trans s s' ps ps' q : extended s' ps' (extended s ps q) = extended (s ++ s') (ps ++ ps') q.
Proof. unfold extended. cbn. by rewrite !app_assoc. Qed.

Lemma append_extended s q : append s q = extended s [] q.
Proof. unfold extended. by rewrite app_nil_r. Qed.

Lemma str_fits v :
  match v with VString _ | VNull | VBool _ | VChar _ => True
  | _ => str v = if fits 256 v then Some (shown v) else None end.
Proof. by destruct v. Qed.

Lemma append_value_extended v q :
  writable v ->
  append_value v q = if fits 256 v then Some (extended (value_sentence v) (value_params v) q) else None.
Proof.
  intros Hv. pose proof (str_fits v) as Hs.
  destruct v; try done; cbn [append_value]; try (unfold extended, push_param, append; done);
    rewrite Hs; (destruct (fits 256 _); [|done]); cbn [mbind option_bind]; by rewrite append_extended.
Qed.

Lemma append_values_extended first vs q :
  Forall writable vs ->
  append_values first vs q
  = if forallb (fits 256) vs then
      Some (extended ((if first then [] else match vs with [] => [] | _ => [ch ","] end) ++ listed (map value_sentence vs))
              (concat (map value_params vs)) q)
    else None.
Proof.
  intros Hv. revert first q. induction Hv as [|v vs Hv _ IH]; intros first q; cbn [append_values forallb].
  { destruct first, q; unfold extended; cbn; by rewrite !app_nil_r. }
  rewrite append_value_extended by done. destruct (fits 256 v); [|done]. cbn [mbind option_bind andb]. rewrite IH.
  destruct (forallb _ _); [|done]. f_equal.
  assert ((if first then q else append [ch ","] q) = extended (if first then [] else [ch ","]) [] q) as ->.
  { destruct first; [|apply append_extended]. unfold extended. rewrite !app_nil_r. by destruct q. }
  rewrite !extended_trans. f_equal. rewrite <- ?app_assoc. f_equal. destruct vs; [apply app_nil_r|done].
Qed.

(** The values of a condition, and those of all conditions. *)
Definition condition_values {V} (c : condition V) : list V :=
  match c with Compare _ _ v => [v] | Among _ vs => vs end.

Definition asked_values (a : asked) : list Variant := concat (map condition_values a.(wanted)).

Definition condition_fits (c : condition Variant) : bool := forallb (fits 256) (condition_values c).

Lemma compare_extended op n v q :
  writable v ->
  perform_query_call q (CallCompare op n v)
  = if condition_fits (Compare n op v) then
      Some (set_changed true (extended (condition_text (Compare n op v)) (condition_params (Compare n op v)) q))
    else None.
Proof.
  intros Hv. assert (forall x, insertAction n v x q = if fits 256 v then
    Some (set_changed true (extended ([ch " "] ++ n ++ [ch " "] ++ x ++ [ch " "] ++ value_sentence v ++ [ch " "]) (value_params v) q))
    else None) as H.
  { intros x. unfold insertAction. rewrite append_value_extended by done. destruct (fits 256 v); [|done].
    cbn [mbind option_bind]. do 2 f_equal. rewrite !append_extended, !extended_trans.
    f_equal; [by rewrite <- ?app_assoc|by rewrite ?app_nil_r]. }
  unfold condition_fits. cbn [condition_values forallb]. rewrite andb_true_r. by destruct op; apply H.
Qed.

Lemma in_extended n vs q :
  Forall writable vs ->
  perform_query_call q (CallIn n vs)
  = if condition_fits (Among n vs) then
      Some (extended (condition_text (Among n vs)) (condition_params (Among n vs)) q)
    else None.
Proof.
  intros Hv. cbn [perform_query_call]. unfold in_array, condition_fits. rewrite append_values_extended by done.
  cbn [condition_values]. destruct (forallb _ vs); [|done]. cbn [mbind option_bind]. f_equal.
  rewrite !append_extended, !extended_trans. f_equal; [by rewrite <- ?app_assoc|by rewrite ?app_nil_r].
Qed.

(** A condition is added to the object. *)
Lemma written_condition t a a' q c q' :
  written t a q -> add_condition c a = Some a' ->
  q' = extended (condition_text c) (condition_params c) q \/
  q' = set_changed true (extended (condition_text c) (condition_params c) q) -> written t a' q'.
Proof.
  intros [H1 H2 H3 H4 H5 H6 H7 H8] Ha Hq'. unfold add_condition in Ha. destruct (complete a) eqn:Ec; [done|].
  injection Ha as <-.
  assert (sql_sentence q' = sentence a ++ condition_text c /\ params q' = params q ++ condition_params c
    /\ q_table q' = q_table q /\ sort_bys q' = sort_bys q /\ sort_asc q' = sort_asc q
    /\ q_limit q' = q_limit q /\ q_offset q' = q_offset q) as (K1 & K2 & K3 & K4 & K5 & K6 & K7).
  { rewrite <- H2. by destruct Hq' as [-> | ->]. }
  constructor; cbn; try congruence.
  - rewrite K1. unfold sentence, waiting. cbn. rewrite Ec, map_app, app_nil_r. cbn [map].
    destruct (wanted a) as [|w l] eqn:Ew; [done|].
    rewrite joined_snoc by done. rewrite bool_decide_eq_false_2 by done. cbn [negb andb]. by rewrite <- app_assoc.
  - rewrite K2, H3, map_app, concat_app. cbn. by rewrite app_nil_r.
  - intros _. by destruct (wanted a).
Qed.

Lemma listed_nil l : Forall (fun n => is_name n = true) l -> listed l = [] -> l = [].
Proof.
  intros [|n l' Hn _] E; [done|]. exfalso. apply name_word in Hn as [Hn _]. destruct n; [done|]. by destruct l'.
Qed.

(** The condition that a call adds. *)
Definition call_conditions (c : query_call) : list (condition Variant) :=
  match c with
  | CallCompare op n v => [Compare n op v]
  | CallIn n vs => [Among n vs]
  | _ => []
  end.

Lemma written_call t a a' q c :
  written t a q -> Forall (fun n => is_name n = true) a.(sorts) -> Forall condition_ok (call_conditions c) ->
  ask a c = Some a' ->
  match perform_query_call q c with
  | Some q' => forallb condition_fits (call_conditions c) = true /\ written t a' q'
  | None => forallb condition_fits (call_conditions c) = false
  end.
Proof.
  intros Hw Hs Hc Ha. pose proof Hw as [H1 H2 H3 H4 H5 H6 H7 H8]. destruct c as [op n v|n vs| |n|l|o|b]; cbn [ask] in Ha.
  - apply Forall_singleton in Hc as [_ Hv]. rewrite compare_extended by done. cbn [call_conditions forallb].
    rewrite andb_true_r. destruct (condition_fits _); [|done]. split; [done|].
    eapply written_condition; [done|done|by right].
  - apply Forall_singleton in Hc as [_ Hv]. rewrite in_extended by done. cbn [call_conditions forallb].
    rewrite andb_true_r. destruct (condition_fits _); [|done]. split; [done|].
    eapply written_condition; [done|done|by left].
  - split; [done|]. destruct (complete a) eqn:Ec; [|done]. injection Ha as <-. constructor; try done. cbn.
    rewrite H2. unfold sentence, waiting. cbn. rewrite Ec. cbn. rewrite app_nil_r.
    by rewrite bool_decide_eq_false_2 by auto.
  - split; [done|]. injection Ha as <-. constructor; try done. cbn. rewrite H4, !listed_joined.
    destruct (decide (sorts a = [])) as [-> |Hn]; [done|]. rewrite joined_snoc by done.
    destruct (joined _ (sorts a)) eqn:E; [|done]. rewrite <- listed_joined in E. by apply listed_nil in E.
  - split; [done|]. by injection Ha as <-.
  - split; [done|]. by injection Ha as <-.
  - split; [done|]. by injection Ha as <-.
Qed.

(** Calls add conditions and orders behind those that are there. *)
Lemma ask_adds a a' c : ask a c = Some a' ->
  (exists l, a'.(sorts) = a.(sorts) ++ l) /\ a'.(wanted) = a.(wanted) ++ call_conditions c.
Proof.
  destruct c; cbn; unfold add_condition; try destruct (complete a); intros [= <-]; cbn;
    rewrite ?app_nil_r; split; eauto; exists []; by rewrite app_nil_r.
Qed.

Lemma asks_add calls : forall a a', foldl (fun a c => a ≫= fun a => ask a c) (Some a) calls = Some a' ->
  (exists l, a'.(sorts) = a.(sorts) ++ l) /\ a'.(wanted) = a.(wanted) ++ concat (map call_conditions calls).
Proof.
  induction calls as [|c calls IH]; intros a a' H; cbn in H.
  - injection H as <-. split; [exists []|]; by rewrite app_nil_r.
  - destruct (ask a c) as [b|] eqn:E; cbn in H; [|exfalso; clear -H; induction calls; [done|auto]].
    destruct (ask_adds _ _ _ E) as [[l Hl] Hw]. destruct (IH b a' H) as [[l' Hl'] Hw'].
    split; [exists (l ++ l'); by rewrite Hl', Hl, app_assoc|]. by rewrite Hw', Hw, <- app_assoc.
Qed.

(** The object after the calls, unless a value has overrun its buffer. *)
Lemma written_calls t calls : forall a a' q,
  written t a q -> foldl (fun a c => a ≫= fun a => ask a c) (Some a) calls = Some a' ->
  Forall (fun n => is_name n = true) a'.(sorts) -> Forall condition_ok (concat (map call_conditions calls)) ->
  match perform_query_calls q calls with
  | Some q' => forallb condition_fits (concat (map call_conditions calls)) = true /\ written t a' q'
  | None => forallb condition_fits (concat (map call_conditions calls)) = false
  end.
Proof.
  induction calls as [|c calls IH]; intros a a' q Hw H Hs Hc; cbn [foldl perform_query_calls map concat] in *;
    [by injection H as <-|].
  cbn in H. destruct (ask a c) as [b|] eqn:E; [|exfalso; clear -H; induction calls; [done|auto]].
  apply Forall_app in Hc as [Hc Hcs].
  assert (Forall (fun n => is_name n = true) a.(sorts)) as Hsa.
  { destruct (asks_add _ _ _ H) as [[l Hl] _], (ask_adds _ _ _ E) as [[l' Hl'] _].
    rewrite Hl, Hl' in Hs. by apply Forall_app in Hs as [[? _]%Forall_app _]. }
  pose proof (written_call _ _ _ _ _ Hw Hsa Hc E) as H1. rewrite forallb_app.
  destruct (perform_query_call q c) as [q1|]; cbn [mbind option_bind]; [|by rewrite H1].
  destruct H1 as [-> H1]. cbn [andb]. by eapply IH.
Qed.

Lemma written_new t : written t everything (new_query t).
Proof. by constructor. Qed.

(** ** Reading what was written *)

Definition reads_as {A} (item : list token -> option (A * list token)) (a : A) (ts : list token) : Prop :=
  ts <> [] /\ forall r, item (ts ++ r) = Some (a, r).

Lemma read_token_same t r : read_token t (t :: r) = Some r.
Proof. cbn. by rewrite decide_True. Qed.

Definition not_next (t : token) (r : list token) : Prop := read_token t r = None.

Lemma read_items_spec {A} (item : list token -> option (A * list token)) l tss rest :
  Forall2 (reads_as item) l tss -> l <> [] -> not_next (sign ",") rest ->
  forall fuel, (length l <= fuel)%nat -> read_items item fuel (joined [sign ","] tss ++ rest) = Some (l, rest).
Proof.
  intros H Hl Hr. induction H as [|a ts l tss [_ Ha] H IH]; [done|]. intros fuel Hf.
  destruct fuel as [|fuel]; [cbn in Hf; lia|]. destruct H as [|a' ts' l tss Ha' H].
  - cbn [joined read_items]. rewrite Ha. cbn. by rewrite Hr.
  - change (joined [sign ","] (ts :: ts' :: tss)) with (ts ++ [sign ","] ++ joined [sign ","] (ts' :: tss)).
    rewrite <- !app_assoc. cbn [read_items]. rewrite Ha. cbn [mbind option_bind].
    change ([sign ","] ++ ?x) with (sign "," :: x). rewrite read_token_same.
    rewrite IH; [done|done|cbn in *; lia].
Qed.

Lemma joined_length {A} (sep : list A) (tss : list (list A)) :
  Forall (fun ts => ts <> []) tss -> (length tss <= length (joined sep tss))%nat.
Proof.
  induction 1 as [|ts tss Hts H IH]; [done|]. destruct ts; [done|]. destruct H; [cbn; lia|].
  cbn in *. rewrite !length_app in *. cbn in *. lia.
Qed.

Lemma read_list_spec {A} (item : list token -> option (A * list token)) l tss rest :
  Forall2 (reads_as item) l tss -> l <> [] -> not_next (sign ",") rest ->
  read_list item (joined [sign ","] tss ++ rest) = Some (l, rest).
Proof.
  intros H Hl Hr. unfold read_list. apply read_items_spec; [done|done|done|].
  rewrite (Forall2_length _ _ _ H), length_app.
  assert (length tss <= length (joined [sign ","] tss))%nat; [|lia]. apply joined_length.
  clear -H. induction H as [|? ? ? ? []]; by constructor.
Qed.

Lemma read_names_spec names rest :
  Forall (fun n => is_name n = true) names -> names <> [] -> not_next (sign ",") rest ->
  read_list read_name (comma_tokens (map Word names) ++ rest) = Some (names, rest).
Proof.
  intros H Hn Hr. rewrite comma_tokens_joined. apply read_list_spec; [|done|done].
  clear Hn. induction H as [|n l Hname H IH]; constructor; [|done].
  split; [done|]. intros r. cbn. by rewrite Hname.
Qed.

Lemma read_literal_spec v r : writable v -> read_literal (literal_token v :: r) = Some (literal_of v, r).
Proof. intros Hv%writable_number. destruct v; try done; destruct Hv as [H _]; cbn [literal_token literal_of read_literal]; by rewrite H. Qed.

Lemma read_literals_spec vs rest : Forall writable vs -> vs <> [] -> not_next (sign ",") rest ->
  read_list read_literal (comma_tokens (map literal_token vs) ++ rest) = Some (map literal_of vs, rest).
Proof.
  intros H Hn Hr. rewrite comma_tokens_joined. apply read_list_spec; [|by destruct vs|done].
  clear Hn. induction H as [|v l Hv H IH]; constructor; [|done].
  split; [done|]. intros r. by apply read_literal_spec.
Qed.

Lemma comma_tokens_head t ts : exists r, comma_tokens (t :: ts) = t :: r.
Proof. destruct ts; eexists; reflexivity. Qed.

Lemma read_condition_spec c r : condition_ok c ->
  read_condition (condition_tokens c ++ r) = Some (map_condition literal_of c, r).
Proof.
  destruct c as [n op v|n vs]; intros [Hn Hv]; unfold read_condition; cbn [condition_tokens app read_name];
    rewrite Hn; cbn [mbind option_bind].
  - assert (read_token (kw "in") (op_token op :: literal_token v :: r) = None) as -> by (by destruct op).
    assert (read_comparison (op_token op :: literal_token v :: r) = Some (op, literal_token v :: r)) as -> by (by destruct op).
    cbn [mbind option_bind]. by rewrite read_literal_spec.
  - rewrite read_token_same. cbn [mbind option_bind]. rewrite read_token_same. cbn [mbind option_bind].
    destruct vs as [|v vs]; [done|].
    assert (read_token (sign ")") ((comma_tokens (map literal_token (v :: vs)) ++ [sign ")"]) ++ r) = None) as ->.
    { cbn [map]. destruct (comma_tokens_head (literal_token v) (map literal_token vs)) as [x ->]. cbn.
      by rewrite decide_False by (destruct v; done). }
    rewrite <- app_assoc. rewrite read_literals_spec by done. done.
Qed.

Lemma read_conditions_spec cs rest : Forall condition_ok cs -> cs <> [] -> not_next (kw "and") rest ->
  forall fuel, (length cs <= fuel)%nat ->
  read_conditions fuel (joined [kw "and"] (map condition_tokens cs) ++ rest) = Some (map (map_condition literal_of) cs, rest).
Proof.
  intros H Hn Hr. induction H as [|c cs Hc H IH]; [done|]. intros fuel Hf.
  destruct fuel as [|fuel]; [cbn in Hf; lia|]. destruct H as [|c' cs Hc' H].
  - cbn [map joined read_conditions]. rewrite read_condition_spec by done. cbn. by rewrite Hr.
  - change (joined [kw "and"] (map condition_tokens (c :: c' :: cs)))
      with (condition_tokens c ++ [kw "and"] ++ joined [kw "and"] (map condition_tokens (c' :: cs))).
    rewrite <- !app_assoc. cbn [read_conditions]. rewrite read_condition_spec by done. cbn [mbind option_bind].
    change ([kw "and"] ++ ?x) with (kw "and" :: x). rewrite read_token_same.
    rewrite IH; [done|done|cbn in *; lia].
Qed.

(** The conditions of a statement, in words. *)
Definition where_tokens (cs : list (condition Variant)) : list token :=
  match cs with [] => [] | _ => kw "WHERE" :: joined [kw "and"] (map condition_tokens cs) end.

Lemma read_where_spec cs rest : Forall condition_ok cs -> not_next (kw "WHERE") rest -> not_next (kw "and") rest ->
  read_where (where_tokens cs ++ rest) = Some (map (map_condition literal_of) cs, rest).
Proof.
  intros H H1 H2. unfold read_where. destruct cs as [|c cs]; [cbn; by rewrite H1|].
  unfold where_tokens. cbn [app]. rewrite read_token_same.
  apply read_conditions_spec; [done|done|done|]. rewrite length_app.
  pose proof (joined_length [kw "and"] (map condition_tokens (c :: cs))) as Hl. rewrite length_map in Hl.
  assert (Forall (fun ts : list token => ts <> []) (map condition_tokens (c :: cs))) as Hne; [|specialize (Hl Hne); lia].
  clear. induction (c :: cs) as [|x l IH]; constructor; [by destruct x|done].
Qed.

(** ** The words of the whole statement *)

Lemma lex_conditions cs s : Forall condition_ok cs ->
  lex [] (joined (bytes_of " and ") (map condition_text cs) ++ s) = joined [kw "and"] (map condition_tokens cs) ++ lex [] s.
Proof.
  induction 1 as [|c cs Hc H IH]; [done|]. destruct H as [|c' cs Hc' H]; [by apply lex_condition|].
  change (joined (bytes_of " and ") (map condition_text (c :: c' :: cs)))
    with (condition_text c ++ bytes_of " and " ++ joined (bytes_of " and ") (map condition_text (c' :: cs))).
  rewrite <- !app_assoc, lex_condition by done.
  change (lex [] (bytes_of " and " ++ ?x)) with (kw "and" :: lex [] x). rewrite IH.
  change (joined [kw "and"] (map condition_tokens (c :: c' :: cs)))
    with (condition_tokens c ++ [kw "and"] ++ joined [kw "and"] (map condition_tokens (c' :: cs))).
  by rewrite <- !app_assoc.
Qed.

Section read_query.
Context (t : Table) (a : asked) (q : SQLQuery).
Hypothesis (Ht : table_ok t) (Ha : asked_ok a) (Hf : finished a) (Hq : written t a q).

Lemma where_sentence :
  where_text q = match a.(wanted) with [] => [] | cs => bytes_of " WHERE " ++ joined (bytes_of " and ") (map condition_text cs) end.
Proof.
  unfold where_text. rewrite (wr_sentence _ _ _ Hq). unfold sentence.
  assert (waiting a = false) as ->.
  { unfold waiting. destruct Hf as [-> | ->]; [done|]. by rewrite andb_false_r. }
  rewrite app_nil_r. destruct (wanted a) as [|c cs]; [done|].
  assert (exists x, joined (bytes_of " and ") (map condition_text (c :: cs)) = ch " " :: x) as [x ->]; [|done].
  destruct cs; destruct c; eexists; reflexivity.
Qed.

Lemma lex_where s : separated s -> separated (where_text q ++ s) /\ lex [] (where_text q ++ s) = where_tokens a.(wanted) ++ lex [] s.
Proof.
  intros Hs. rewrite where_sentence. destruct Ha as [Hc _]. destruct (wanted a) as [|c cs] eqn:E; [done|].
  split; [done|]. rewrite <- app_assoc. change (lex [] (bytes_of " WHERE " ++ ?x)) with (kw "WHERE" :: lex [] x).
  by rewrite lex_conditions.
Qed.

Definition order_tokens : list token :=
  match a.(sorts) with
  | [] => []
  | l => kw "ORDER" :: kw "BY" :: comma_tokens (map Word l) ++ [kw (if a.(ascending) then "ASC" else "DESC")]
  end.

Lemma lex_order s : separated s -> separated (order_text q ++ s) /\ lex [] (order_text q ++ s) = order_tokens ++ lex [] s.
Proof.
  intros Hs. unfold order_text, order_tokens. rewrite (wr_sorts _ _ _ Hq), (wr_asc _ _ _ Hq). destruct Ha as [_ Hn].
  destruct (sorts a) as [|n l] eqn:E; [done|].
  assert (listed (n :: l) <> []) as Hne by (intros X; by apply listed_nil in X).
  destruct (listed (n :: l)) eqn:El; [done|]. rewrite <- El. clear Hne El. split; [done|]. rewrite <- !app_assoc.
  change (lex [] (bytes_of " ORDER BY " ++ ?x)) with (kw "ORDER" :: kw "BY" :: lex [] x).
  rewrite lex_names; [|done|by destruct (ascending a)]. cbn [app]. do 2 f_equal. rewrite <- app_assoc. f_equal.
  by destruct (ascending a).
Qed.

Definition limit_tokens : list token :=
  (if 0 <? a.(at_most) then [kw "LIMIT"; Word (sprintf_d a.(at_most))] else [])
  ++ (if 0 <=? a.(from) then [kw "OFFSET"; Word (sprintf_d a.(from))] else []).

Definition limit_text : list Z :=
  (if 0 <? q.(q_limit) then bytes_of " LIMIT " ++ sprintf_d q.(q_limit) else [])
  ++ (if 0 <=? q.(q_offset) then bytes_of " OFFSET " ++ sprintf_d q.(q_offset) else []).

Lemma lex_limit s : separated s -> separated (limit_text ++ s) /\ lex [] (limit_text ++ s) = limit_tokens ++ lex [] s.
Proof.
  intros Hs. unfold limit_text, limit_tokens. rewrite (wr_limit _ _ _ Hq), (wr_offset _ _ _ Hq).
  assert (forall x, separated (if 0 <=? from a then bytes_of " OFFSET " ++ x else []) ) as Hsep by (by intros; destruct (_ <=? _)).
  assert (separated ((if 0 <=? from a then bytes_of " OFFSET " ++ sprintf_d (from a) else []) ++ s)
    /\ lex [] ((if 0 <=? from a then bytes_of " OFFSET " ++ sprintf_d (from a) else []) ++ s)
       = (if 0 <=? from a then [kw "OFFSET"; Word (sprintf_d (from a))] else []) ++ lex [] s) as [H1 H2].
  { destruct (0 <=? from a); [|done]. split; [done|]. rewrite <- app_assoc.
    change (lex [] (bytes_of " OFFSET " ++ ?x)) with (kw "OFFSET" :: lex [] x).
    rewrite lex_number; [done|apply sprintf_d_number|done]. }
  rewrite <- !app_assoc. destruct (0 <? at_most a); [|done]. split; [done|]. rewrite <- app_assoc.
  change (lex [] (bytes_of " LIMIT " ++ ?x)) with (kw "LIMIT" :: lex [] x).
  rewrite lex_number; [|apply sprintf_d_number|done]. by rewrite H2.
Qed.

Lemma lex_find :
  lex [] (find_text q) = kw "SELECT" :: comma_tokens (map Word (map field_name t.(fields)))
    ++ kw "FROM" :: Word t.(cls_name) :: where_tokens a.(wanted) ++ order_tokens ++ limit_tokens ++ [sign ";"].
Proof.
  destruct Ht as (Hn & Hne & Hfs). unfold find_text. rewrite (wr_table _ _ _ Hq).
  destruct (lex_limit [ch ";"] eq_refl) as [S1 L1]. destruct (lex_order _ S1) as [S2 L2]. destruct (lex_where _ S2) as [S3 L3].
  change (lex [] (bytes_of "SELECT " ++ ?x)) with (kw "SELECT" :: lex [] x). f_equal.
  rewrite lex_names; [|by apply Forall_map|done]. f_equal.
  change (lex [] (bytes_of " FROM " ++ ?x)) with (kw "FROM" :: lex [] x). f_equal.
  unfold limit_text in S1, L1, S2, L2, S3, L3. rewrite <- app_assoc in S1, L1, S2, L2, S3, L3.
  rewrite lex_name by done. f_equal. by rewrite L3, L2, L1.
Qed.

Lemma lex_remove :
  lex [] (remove_text q) = kw "DELETE" :: kw "FROM" :: Word t.(cls_name) :: where_tokens a.(wanted) ++ [sign ";"].
Proof.
  destruct Ht as (Hn & _ & _). unfold remove_text. rewrite (wr_table _ _ _ Hq).
  destruct (lex_where [ch ";"] eq_refl) as [S1 L1].
  change (lex [] (bytes_of "DELETE " ++ bytes_of " FROM " ++ ?x)) with (kw "DELETE" :: kw "FROM" :: lex [] x).
  do 2 f_equal. rewrite lex_name by done. by rewrite L1.
Qed.
End read_query.

(** ** The values of the parameters *)

Lemma bindings_app ps ps' : bindings (ps ++ ps') = bindings ps ++ bindings ps'.
Proof. unfold bindings. apply omap_app. Qed.

Lemma fill_value v bs : fill_literal (literal_of v) (bindings (value_params v) ++ bs) = (meant v, bs).
Proof. by destruct v. Qed.

Lemma fill_all_spec {A B C} (fill : B -> list value -> C * list value) (f : A -> B) (g : A -> C) (ps : A -> list Variant) :
  (forall a bs, fill (f a) (bindings (ps a) ++ bs) = (g a, bs)) ->
  forall l bs, fill_all fill (map f l) (bindings (concat (map ps l)) ++ bs) = (map g l, bs).
Proof.
  intros H l bs. induction l as [|a l IH]; [done|]. cbn [map concat fill_all].
  by rewrite bindings_app, <- app_assoc, H, IH.
Qed.

Lemma fill_condition_spec c bs :
  fill_condition (map_condition literal_of c) (bindings (condition_params c) ++ bs) = (map_condition meant c, bs).
Proof.
  destruct c as [n op v|n vs]; cbn [map_condition fill_condition condition_params].
  - by rewrite fill_value.
  - by rewrite (fill_all_spec fill_literal literal_of meant value_params fill_value).
Qed.

Lemma fill_conditions cs bs :
  fill_all fill_condition (map (map_condition literal_of) cs) (bindings (concat (map condition_params cs)) ++ bs)
  = (map (map_condition meant) cs, bs).
Proof. apply fill_all_spec, fill_condition_spec. Qed.

(** ** The query that is executed is the query that was asked for *)

Lemma read_order_spec a rest : asked_ok a -> not_next (kw "ORDER") rest ->
  read_order (order_tokens a ++ rest) = Some (match a.(sorts) with [] => None | l => Some (l, a.(ascending)) end, rest).
Proof.
  intros [_ Hn] Hr. unfold read_order, order_tokens. destruct (sorts a) as [|n l] eqn:E; [cbn; by rewrite Hr|].
  cbn [app]. rewrite read_token_same. cbn [mbind option_bind]. rewrite read_token_same. cbn [mbind option_bind].
  rewrite <- app_assoc, read_names_spec; [|done|done|by destruct (ascending a)]. by destruct (ascending a).
Qed.

Lemma read_number n r : read_literal (Word (sprintf_d n) :: r) = Some (Number (sprintf_d n), r).
Proof. cbn [read_literal]. by rewrite (proj1 (sprintf_d_number n)). Qed.

Lemma read_limit_spec a : (0 <= a.(from) -> 0 < a.(at_most)) ->
  read_limit (limit_tokens a ++ [sign ";"])
  = Some (if 0 <? a.(at_most) then Some (Number (sprintf_d a.(at_most))) else None,
          if 0 <=? a.(from) then Some (Number (sprintf_d a.(from))) else None, [sign ";"]).
Proof.
  intros H. unfold read_limit, limit_tokens. destruct (0 <? at_most a) eqn:E1.
  - rewrite <- app_assoc. cbn [app]. rewrite read_token_same. cbn [mbind option_bind].
    rewrite read_number. cbn [mbind option_bind]. destruct (0 <=? from a) eqn:E2; [|done].
    cbn [app]. rewrite read_token_same. cbn [mbind option_bind]. by rewrite read_number.
  - destruct (0 <=? from a) eqn:E2; [lia|done].
Qed.

Lemma limit_next t a : t <> kw "LIMIT" -> t <> kw "OFFSET" -> t <> sign ";" -> not_next t (limit_tokens a ++ [sign ";"]).
Proof.
  intros H1 H2 H3. unfold not_next, limit_tokens.
  destruct (0 <? at_most a), (0 <=? from a); cbn; by rewrite decide_False by done.
Qed.

Lemma order_next t a rest : t <> kw "ORDER" -> not_next t rest -> not_next t (order_tokens a ++ rest).
Proof. intros H1 H2. unfold not_next, order_tokens. destruct (sorts a); [done|]. cbn. by rewrite decide_False by done. Qed.

(** An OFFSET without a LIMIT. *)
Definition stray_offset (a : asked) : bool := (0 <=? a.(from)) && (a.(at_most) <=? 0).

(** What is said of the object after the calls. *)
Definition says_what_was_asked (t : Table) (a : asked) (q : SQLQuery) : Prop :=
  prepared (find_text q) q.(params) = (if stray_offset a then None else Some (asked_select t a))
  /\ prepared (remove_text q) q.(params) = Some (asked_delete t a).

Lemma query_prepared (t : Table) (a : asked) (q : SQLQuery) :
  table_ok t -> finished a -> asked_ok a -> written t a q -> says_what_was_asked t a q.
Proof.
  intros Ht Hf Ha Hw. unfold says_what_was_asked.
  assert (q.(params) = concat (map condition_params a.(wanted)) ++ []) as Hp by (rewrite app_nil_r; apply Hw).
  pose proof Ht as (Hn & Hne & Hfs). pose proof Ha as [Hcs _]. unfold prepared. split.
  - rewrite (lex_find t a q Ht Ha Hf Hw). unfold read_statement, kw at 1. rewrite decide_True by done. unfold read_select.
    rewrite read_names_spec; [|by apply Forall_map|by destruct (fields t)|done]. cbn [mbind option_bind].
    rewrite read_token_same. cbn [mbind option_bind read_name]. rewrite Hn. cbn [mbind option_bind].
    rewrite read_where_spec; [|done|by apply order_next, limit_next|by apply order_next, limit_next]. cbn [mbind option_bind].
    rewrite read_order_spec; [|done|by apply limit_next]. cbn [mbind option_bind].
    destruct (stray_offset a) eqn:Es; unfold stray_offset in Es.
    { unfold read_limit, limit_tokens. assert ((0 <? at_most a) = false) as -> by lia.
      assert ((0 <=? from a) = true) as -> by lia. done. }
    rewrite read_limit_spec by lia. cbn [mbind option_bind]. unfold closed. rewrite decide_True by done.
    cbn [mbind option_bind fill_sql]. f_equal. rewrite Hp, bindings_app, fill_conditions. unfold asked_select.
    by destruct (0 <? at_most a), (0 <=? from a).
  - rewrite (lex_remove t a q Ht Ha Hf Hw). unfold read_statement, kw at 1. rewrite decide_False, decide_True by done.
    unfold read_delete. rewrite read_token_same. cbn [mbind option_bind read_name]. rewrite Hn. cbn [mbind option_bind].
    rewrite read_where_spec by done. cbn [mbind option_bind]. unfold closed. rewrite decide_True by done.
    cbn [mbind option_bind fill_sql]. f_equal. by rewrite Hp, bindings_app, fill_conditions.
Qed.

Lemma forallb_concat_map {A B} (f : A -> list B) (p : B -> bool) l :
  forallb p (concat (map f l)) = forallb (fun a => forallb p (f a)) l.
Proof. induction l as [|a l IH]; [done|]. cbn. by rewrite forallb_app, IH. Qed.

(** The calls succeed when every value fits, and fail otherwise. *)
Lemma query_calls (t : Table) (calls : list query_call) (a : asked) :
  table_ok t -> asks calls = Some a -> finished a -> asked_ok a ->
  if forallb (fits 256) (asked_values a)
  then exists q, perform_query_calls (new_query t) calls = Some q /\ says_what_was_asked t a q
  else perform_query_calls (new_query t) calls = None.
Proof.
  intros Ht Hc Hf Ha. destruct (asks_add _ _ _ Hc) as [_ Hw]. cbn [wanted everything app] in Hw.
  pose proof Ha as [Hcs Hs]. rewrite Hw in Hcs.
  pose proof (written_calls t calls everything a (new_query t) (written_new t) Hc Hs Hcs) as H.
  assert (forallb (fits 256) (asked_values a) = forallb condition_fits (concat (map call_conditions calls))) as ->.
  { unfold asked_values. rewrite <- Hw. apply forallb_concat_map. }
  destruct (perform_query_calls _ _) as [q|]; [|by rewrite H]. destruct H as [-> H].
  exists q. split; [done|]. by apply query_prepared.
Qed.

(** ** Objects *)

(** The fields that are stored: all but the identifier. *)
Definition stored (fs : list Field) : list Field := List.filter (fun f => negb f.(primary)) fs.

Definition member_variant (m : model) (f : Field) : Variant :=
  match f.(type) with
  | Integer => VInt (get_int m f.(field_name))
  | Long => VLong (get_long m f.(field_name))
  | Real => VReal (get_real m f.(field_name))
  | Text => VString (get_text m f.(field_name))
  | _ => VNull
  end.

Definition object_ok (t : Table) (m : model) : Prop :=
  stored t.(fields) <> [] /\ Forall (fun f => in_range (member_variant m f)) (stored t.(fields)).

Lemma value_text_spec m f : in_range (member_variant m f) ->
  value_text f m = if fits 20 (member_variant m f)
    then Some (value_sentence (member_variant m f), value_params (member_variant m f)) else None.
Proof.
  unfold value_text, member_variant, sprintf_into, fits. destruct (type f); cbn [shown]; try done; intros _;
    by destruct (_ <? _)%nat.
Qed.

(** Items that follow others, or come first. *)
Definition comma_list (first : bool) (l : list (list Z)) : list Z :=
  match l with [] => [] | _ => (if first then [] else [ch ","]) ++ listed l end.

Lemma comma_list_cons first x l : comma_list first (x :: l) = (if first then [] else [ch ","]) ++ x ++ comma_list false l.
Proof. destruct l; cbn; [by rewrite app_nil_r|done]. Qed.

Lemma comma_list_true l : comma_list true l = listed l.
Proof. by destruct l. Qed.

Definition all_fit (fs : list Field) (m : model) : bool := forallb (fun f => fits 20 (member_variant m f)) (stored fs).

Lemma insert_fields_spec m fs : Forall (fun f => in_range (member_variant m f)) (stored fs) ->
  forall first ss values vs, insert_fields fs m first ss values vs =
    if all_fit fs m then
      Some (ss ++ comma_list first (map field_name (stored fs)),
            values ++ comma_list first (map (fun f => value_sentence (member_variant m f)) (stored fs)),
            vs ++ concat (map (fun f => value_params (member_variant m f)) (stored fs)))
    else None.
Proof.
  unfold all_fit, stored. induction fs as [|f fs IH]; intros Hr first ss values vs; cbn [List.filter insert_fields] in *.
  { cbn. by rewrite !app_nil_r. }
  destruct (primary f); cbn [negb] in *; [by apply IH|]. apply Forall_cons in Hr as [Hf Hr].
  rewrite value_text_spec by done. cbn [forallb map concat]. destruct (fits 20 _); cbn [mbind option_bind andb]; [|done].
  rewrite IH by done. destruct (forallb _ _); [|done]. rewrite !comma_list_cons, <- !app_assoc. done.
Qed.

Lemma update_fields_spec m fs : Forall (fun f => in_range (member_variant m f)) (stored fs) ->
  forall first ss vs, update_fields fs m first ss vs =
    if all_fit fs m then
      Some (ss ++ comma_list first (map (fun f => f.(field_name) ++ bytes_of " = " ++ value_sentence (member_variant m f)) (stored fs)),
            vs ++ concat (map (fun f => value_params (member_variant m f)) (stored fs)))
    else None.
Proof.
  unfold all_fit, stored. induction fs as [|f fs IH]; intros Hr first ss vs; cbn [List.filter update_fields] in *.
  { cbn. by rewrite !app_nil_r. }
  destruct (primary f); cbn [negb] in *; [by apply IH|]. apply Forall_cons in Hr as [Hf Hr].
  rewrite value_text_spec by done. cbn [forallb map concat]. destruct (fits 20 _); cbn [mbind option_bind andb]; [|done].
  rewrite IH by done. destruct (forallb _ _); [|done]. rewrite !comma_list_cons, <- !app_assoc. done.
Qed.

(** The statements for an object. *)
Definition object_insert (t : Table) (m : model) : sql value :=
  Insert t.(cls_name) (map field_name (stored t.(fields))) (map (fun f => meant (member_variant m f)) (stored t.(fields))).

Definition with_identifier (n : Z) : list (condition value) := [Compare identifier OpEqual (NumV (sprintf_d n))].

Definition object_update (t : Table) (m : model) : sql value :=
  Update t.(cls_name) (map (fun f => (f.(field_name), meant (member_variant m f))) (stored t.(fields)))
    (with_identifier (get_int m identifier)).

Definition object_delete (t : Table) (m : model) : sql value :=
  Delete t.(cls_name) (with_identifier (get_int m identifier)).

Lemma some_pair_inj {A B} (a a' : A) (b b' : B) : Some (a, b) = Some (a', b') -> a = a' /\ b = b'.
Proof. by intros [= -> ->]. Qed.

Section read_object.
Context (t : Table) (m : model).
Hypothesis (Ht : table_ok t) (Hm : object_ok t m).

Lemma stored_names : Forall (fun n => is_name n = true) (map field_name (stored t.(fields))).
Proof.
  destruct Ht as (_ & _ & H). apply Forall_map. unfold stored. induction H as [|f l Hf _ IH]; [constructor|].
  cbn. destruct (primary f); cbn; [done|by constructor].
Qed.

Lemma stored_writable : Forall writable (map (member_variant m) (stored t.(fields))).
Proof. destruct Hm as [_ H]. apply Forall_map. eapply Forall_impl; [exact H|]. intros f. apply in_range_writable. Qed.

Lemma stored_nonempty {A} (f : Field -> A) : map f (stored t.(fields)) <> [].
Proof. destruct Hm as [H _]. by destruct (stored (fields t)). Qed.

Lemma map_stored {A} (f : Variant -> A) :
  map (fun x => f (member_variant m x)) (stored t.(fields)) = map f (map (member_variant m) (stored t.(fields))).
Proof. by rewrite map_map. Qed.

Lemma lex_values vs s : Forall writable vs -> separated s ->
  lex [] (listed (map value_sentence vs) ++ s) = comma_tokens (map literal_token vs) ++ lex [] s.
Proof.
  intros H Hs. apply lex_listed; [|done]. induction H; constructor; [|done]. intros. by apply lex_value.
Qed.

Lemma read_insert_text s ps : insert_text m t = Some (s, ps) -> prepared s ps = Some (object_insert t m).
Proof.
  unfold insert_text. rewrite insert_fields_spec by apply Hm. destruct (all_fit _ _); [|done]. cbn [mbind option_bind]. rewrite !app_nil_l.
  intros [<- <-]%some_pair_inj. rewrite !comma_list_true. unfold prepared, object_insert. pose proof Ht as (Hn & _ & _).
  rewrite !map_stored. set (vs := map (member_variant m) (stored (fields t))).
  assert (Forall writable vs) as Hvs by apply stored_writable.
  rewrite <- !app_assoc.
  change (lex [] (bytes_of "INSERT OR IGNORE INTO " ++ ?x)) with (kw "INSERT" :: kw "OR" :: kw "IGNORE" :: kw "INTO" :: lex [] x).
  rewrite lex_name by done. change (lex [] (bytes_of " (" ++ ?x)) with (sign "(" :: lex [] x).
  rewrite lex_names by (done || apply stored_names).
  change (lex [] (bytes_of ") VALUES (" ++ ?x)) with (sign ")" :: kw "VALUES" :: sign "(" :: lex [] x).
  rewrite lex_values by done. change (lex [] (bytes_of ");")) with [sign ")"; sign ";"].
  unfold read_statement, kw at 1. rewrite !decide_False, decide_True by done. unfold read_insert.
  repeat (rewrite read_token_same; cbn [mbind option_bind]). cbn [read_name]. rewrite Hn. cbn [mbind option_bind].
  rewrite read_token_same. cbn [mbind option_bind].
  rewrite read_names_spec by (done || apply stored_names || apply stored_nonempty). cbn [mbind option_bind].
  repeat (rewrite read_token_same; cbn [mbind option_bind]).
  rewrite read_literals_spec by (done || apply stored_nonempty). cbn [mbind option_bind].
  rewrite read_token_same. cbn [mbind option_bind]. unfold closed. rewrite decide_True by done.
  cbn [mbind option_bind fill_sql]. rewrite <- (app_nil_r (bindings _)).
  by rewrite (fill_all_spec fill_literal literal_of meant value_params fill_value).
Qed.

Lemma read_setting_spec f : is_name f.(field_name) = true -> writable (member_variant m f) ->
  reads_as read_setting (f.(field_name), literal_of (member_variant m f))
    [Word f.(field_name); sign "="; literal_token (member_variant m f)].
Proof.
  intros Hn Hv. split; [done|]. intros r. unfold read_setting. cbn [app read_name]. rewrite Hn. cbn [mbind option_bind].
  rewrite read_token_same. cbn [mbind option_bind]. by rewrite read_literal_spec.
Qed.

Lemma lex_identifier n :
  lex [] (bytes_of " WHERE identifier = " ++ sprintf_d n ++ [ch ";"])
  = kw "WHERE" :: Word identifier :: sign "=" :: Word (sprintf_d n) :: [sign ";"].
Proof.
  change (lex [] (bytes_of " WHERE identifier = " ++ ?x)) with (kw "WHERE" :: Word identifier :: sign "=" :: lex [] x).
  by rewrite lex_number by (done || apply sprintf_d_number).
Qed.

Lemma read_identifier n :
  read_where (kw "WHERE" :: Word identifier :: sign "=" :: Word (sprintf_d n) :: [sign ";"])
  = Some ([Compare identifier OpEqual (Number (sprintf_d n))], [sign ";"]).
Proof.
  apply (read_where_spec [Compare identifier OpEqual (VInt n)] [sign ";"]); [|done|done]. by apply Forall_singleton.
Qed.

Lemma sprintf_into_some cap s x : sprintf_into cap s = Some x -> x = s.
Proof. unfold sprintf_into. destruct (_ <? _)%nat; [|done]. by intros [= ->]. Qed.

Lemma read_update_text s ps : update_text m t = Some (s, ps) -> prepared s ps = Some (object_update t m).
Proof.
  unfold update_text. rewrite update_fields_spec by apply Hm. destruct (all_fit _ _); [|done]. cbn [mbind option_bind].
  rewrite !app_nil_l. destruct (sprintf_into 10 _) as [istr|] eqn:Ei; [|done]. apply sprintf_into_some in Ei as ->.
  cbn [mbind option_bind]. intros [<- <-]%some_pair_inj. rewrite !comma_list_true. unfold prepared, object_update.
  pose proof Ht as (Hn & _ & _). rewrite <- !app_assoc.
  change (lex [] (bytes_of "UPDATE " ++ ?x)) with (kw "UPDATE" :: lex [] x). rewrite lex_name by done.
  change (lex [] (bytes_of " SET " ++ ?x)) with (kw "SET" :: lex [] x).
  set (tss := map (fun f => [Word f.(field_name); sign "="; literal_token (member_variant m f)]) (stored (fields t))).
  assert (Forall (fun f => is_name f.(field_name) = true /\ writable (member_variant m f)) (stored (fields t))) as Hok.
  { pose proof stored_names as H1. pose proof stored_writable as H2. rewrite Forall_map in H1, H2. by apply Forall_and. }
  rewrite (lex_items _ tss); [|subst tss|done].
  2:{ clear -Hok. induction Hok as [|f l [H1 H2] _ IH]; constructor; [|done]. intros s Hs. rewrite <- !app_assoc.
      rewrite lex_name by done. change (lex [] (bytes_of " = " ++ ?x)) with (sign "=" :: lex [] x). by rewrite lex_value. }
  rewrite lex_identifier.
  unfold read_statement, kw at 1. rewrite !decide_False, decide_True by done. unfold read_update.
  cbn [read_name]. rewrite Hn. cbn [mbind option_bind]. rewrite read_token_same. cbn [mbind option_bind].
  rewrite (read_list_spec read_setting (map (fun f => (f.(field_name), literal_of (member_variant m f))) (stored (fields t))));
    [|subst tss; clear -Hok; induction Hok as [|f l [H1 H2] _ IH]; constructor; [by apply read_setting_spec|done]
     |apply stored_nonempty|done].
  cbn [mbind option_bind]. rewrite read_identifier. cbn [mbind option_bind]. unfold closed. rewrite decide_True by done.
  cbn [mbind option_bind fill_sql]. rewrite <- (app_nil_r (bindings _)).
  rewrite (fill_all_spec fill_setting _ (fun f => (f.(field_name), meant (member_variant m f))) (fun f => value_params (member_variant m f))).
  - done.
  - intros f bs. unfold fill_setting. cbn [fst snd]. by rewrite fill_value.
Qed.

Lemma read_delete_text s : delete_text m t = Some s -> prepared s [] = Some (object_delete t m).
Proof.
  unfold delete_text. destruct (sprintf_into 10 _) as [istr|] eqn:Ei; [|done]. apply sprintf_into_some in Ei as ->.
  cbn [mbind option_bind]. intros E. apply (inj Some) in E as <-. unfold prepared, object_delete. pose proof Ht as (Hn & _ & _).
  change (lex [] (bytes_of "DELETE FROM " ++ ?x)) with (kw "DELETE" :: kw "FROM" :: lex [] x). rewrite lex_name by done.
  rewrite lex_identifier. unfold read_statement, kw at 1. rewrite decide_False, decide_True by done.
  unfold read_delete. rewrite read_token_same. cbn [mbind option_bind read_name]. rewrite Hn. cbn [mbind option_bind].
  rewrite read_identifier. cbn [mbind option_bind]. unfold closed. by rewrite decide_True by done.
Qed.
End read_object.

(** ** Numbers and their buffers *)

(** Numbers that fit the buffers of [update]: all of an [int], not all of a
    [long long]; [%f] may need up to forty-seven characters. *)
Definition roomy (v : Variant) : Prop :=
  match v with VLong n => - 10 ^ 18 < n | VReal f => (length (sprintf_f f) < 20)%nat | _ => True end.

Lemma fits_roomy v : in_range v -> fits 20 v = true <-> roomy v.
Proof.
  intros Hv. destruct v as [|b|c|n|n|f|s]; try done; cbn [fits roomy shown in_range] in *; rewrite Nat.ltb_lt; [| |done].
  - split; [done|]. intros _. apply (Nat.le_lt_trans _ 11); [|lia]. apply (sprintf_d_length n 10); [lia|]. cbn in *. lia.
  - rewrite <- (Nat.le_succ_l _ 20), <- Nat.succ_le_mono, (sprintf_d_length n 18) by lia. cbn in *. lia.
Qed.

(** A real number fits the buffer of [Variant::str]: it has at most 248 digits
    in front of the point, 247 behind a sign. *)
Definition real_fits (v : Variant) : Prop :=
  match v with
  | VReal (Finite negative m e) => millionths m e < 10 ^ (if negative then 253 else 254)
  | _ => True
  end.

Lemma sprintf_f_length b m e :
  0 <= m ->
  length (sprintf_f (Finite b m e))
  = ((if b then 1 else 0) + length (natural (millionths m e / 10 ^ 6)) + 7)%nat.
Proof.
  intros Hm. cbn [sprintf_f]. rewrite !length_app, length_replicate.
  pose proof (Z.mod_pos_bound (millionths m e) (10 ^ 6) ltac:(lia)) as Hk.
  assert (length (natural (millionths m e mod 10 ^ 6)) <= 6)%nat by (apply natural_length; lia).
  destruct b; cbn [sign_text length]; lia.
Qed.

Lemma fits_real v : in_range v -> fits 256 v = true <-> real_fits v.
Proof.
  intros Hv. destruct v as [|b|c|n|n|[b m e| |]|s]; try done; cbn [fits real_fits shown in_range] in *;
    rewrite Nat.ltb_lt.
  - split; [done|]. intros _. apply (Nat.le_lt_trans _ 11); [|lia]. apply (sprintf_d_length n 10); [lia|]. cbn in *. lia.
  - split; [done|]. intros _. apply (Nat.le_lt_trans _ 20); [|lia]. apply (sprintf_d_length n 19); [lia|]. cbn in *. lia.
  - rewrite sprintf_f_length by done. pose proof (millionths_nonneg m e Hv) as Hk.
    assert (0 <= millionths m e / 10 ^ 6) as Hq by (apply Z.div_pos; lia).
    assert (forall k, millionths m e / 10 ^ 6 < 10 ^ Z.of_nat k <-> millionths m e < 10 ^ 6 * 10 ^ Z.of_nat k) as Hd.
    { intros k. rewrite <- Z.nle_gt, <- Z.nle_gt. split; intros H1 H2; apply H1.
      - apply Z.div_le_lower_bound; lia.
      - etransitivity; [|apply (Z.mul_div_le _ (10 ^ 6)); lia]. apply Z.mul_le_mono_nonneg_l; lia. }
    destruct b.
    + change (10 ^ 253) with (10 ^ 6 * 10 ^ Z.of_nat 247). rewrite <- Hd, <- natural_length by lia. lia.
    + change (10 ^ 254) with (10 ^ 6 * 10 ^ Z.of_nat 248). rewrite <- Hd, <- natural_length by lia. lia.
Qed.

Lemma all_fit_roomy t m : object_ok t m ->
  all_fit t.(fields) m = true <-> Forall (fun f => roomy (member_variant m f)) (stored t.(fields)).
Proof.
  intros [_ H]. unfold all_fit. induction H as [|f l Hf _ IH]; [done|]. cbn [forallb].
  rewrite andb_true_iff, Forall_cons, IH, fits_roomy by done. done.
Qed.

Lemma all_real_fit vs : Forall in_range vs -> forallb (fits 256) vs = true <-> Forall real_fits vs.
Proof.
  induction 1 as [|v vs Hv _ IH]; [done|]. cbn [forallb]. by rewrite andb_true_iff, Forall_cons, IH, fits_real.
Qed.


(** C18: The statements that [SQLite::update] and [SQLite::remove] make for an object
    are the INSERT of its members, the UPDATE of its members in the row with its
    identifier, and the DELETE of this row.  They are made exactly when the
    numbers fit the buffers they are written through; otherwise [sprintf]
    writes behind the end of [str] or [istr]: for a [long long] of nineteen
    digits with a sign, for a real number of more than nineteen characters, and
    for an identifier of ten characters. *)
Theorem object_statements (t : Table) (m : model) :
  table_ok t -> object_ok t m ->
  let room := Forall (fun f => roomy (member_variant m f)) (stored t.(fields)) in
  let id := identifier_fits (get_int m identifier) in
  match insert_text m t with
  | Some (s, ps) => room /\ prepared s ps = Some (object_insert t m)
  | None => ~ room
  end
  /\ match update_text m t with
     | Some (s, ps) => room /\ id /\ prepared s ps = Some (object_update t m)
     | None => ~ (room /\ id)
     end
  /\ match delete_text m t with
     | Some s => id /\ prepared s [] = Some (object_delete t m)
     | None => ~ id
     end.
Proof.
  intros Ht Hm room id. pose proof (all_fit_roomy t m Hm) as Hfit. fold room in Hfit.
  pose proof (identifier_buffer (get_int m identifier)) as Hid. fold id in Hid.
  pose proof (read_insert_text t m Ht Hm) as R1. pose proof (read_update_text t m Ht Hm) as R2.
  pose proof (read_delete_text t m Ht) as R3. split_and!.
  - unfold insert_text in *. rewrite insert_fields_spec in * by apply Hm. destruct (all_fit _ _).
    + cbn [mbind option_bind] in *. split; [by apply Hfit|by apply R1].
    + cbn. intros H. apply Hfit in H. done.
  - unfold update_text in *. rewrite update_fields_spec in * by apply Hm. destruct (all_fit _ _).
    + cbn [mbind option_bind] in *. destruct (sprintf_into 10 _).
      * split; [by apply Hfit|]. split; [done|by apply R2].
      * intros [_ ?]. done.
    + cbn. intros [H _]. apply Hfit in H. done.
  - unfold delete_text in *. destruct (sprintf_into 10 _); [|done]. split; [done|by apply R3].
Qed.

(** ** Concrete statements *)

(** Fields as [ADD_FILED] makes them. *)
Definition text_field (n : string) (indexed : bool) : Field := mkField (bytes_of n) indexed false true Text.
Definition identifier_field : Field := mkField identifier true true true Integer.

(** A table with numbers. *)
Definition search_table : Table :=
  mkTable (bytes_of "SearchData") [identifier_field; text_field "key" true; mkField (bytes_of "date") true false true Long] (Finite false 0 0).

(** Everything before a date for a key that tries to end the text. *)
Definition sample_query : list query_call :=
  [CallCompare OpEqual (bytes_of "key") (VString (bytes_of "'; DROP TABLE x; --?")); CallSortBy (bytes_of "date"); CallAnd;
   CallCompare OpLess (bytes_of "date") (VLong (-5)); CallSortAsc false; CallLimit 10; CallOffset 20; CallAnd;
   CallIn (bytes_of "key") [VInt 7; VString [97; 0; 98]]].

Definition sample_asked : asked :=
  mkAsked [Compare (bytes_of "key") OpEqual (VString (bytes_of "'; DROP TABLE x; --?"));
           Compare (bytes_of "date") OpLess (VLong (-5)); Among (bytes_of "key") [VInt 7; VString [97; 0; 98]]]
    true [bytes_of "date"] false 10 20.


Definition sample_object (id date : Z) : model :=
  mkModel true (list_to_map [(identifier, IntM id); (bytes_of "key", TextM (bytes_of "a'b")); (bytes_of "date", LongM date)]).

(** An ordinary object; one whose date does not fit; one whose identifier does not. *)
Lemma object_statements_witness :
  (insert_text (sample_object (-1) 12) search_table = Some (bytes_of "INSERT OR IGNORE INTO SearchData (key,date) VALUES (?,12);", [VString (bytes_of "a'b")])
   /\ prepared (bytes_of "INSERT OR IGNORE INTO SearchData (key,date) VALUES (?,12);") [VString (bytes_of "a'b")]
      = Some (Insert (bytes_of "SearchData") [bytes_of "key"; bytes_of "date"] [TextV (bytes_of "a'b"); NumV (bytes_of "12")]))
  /\ insert_text (sample_object (-1) (- 2 ^ 63)) search_table = None
  /\ delete_text (sample_object (10 ^ 9) 12) search_table = None.
Proof.
  assert (table_ok search_table) as Ht.
  { repeat split; try discriminate. repeat (apply Forall_cons_2; [reflexivity|]). apply Forall_nil_2. }
  assert (forall id date, - 2 ^ 63 <= date < 2 ^ 63 -> object_ok search_table (sample_object id date)) as Hm.
  { intros id date Hd. split; [discriminate|]. apply Forall_cons_2; [exact I|]. apply Forall_cons_2; [exact Hd|]. apply Forall_nil_2. }
  split; [|split].
  - destruct (object_statements search_table (sample_object (-1) 12) Ht (Hm (-1) 12 ltac:(lia))) as (H & _).
    assert (insert_text (sample_object (-1) 12) search_table = Some (bytes_of "INSERT OR IGNORE INTO SearchData (key,date) VALUES (?,12);", [VString (bytes_of "a'b")])) as E by (vm_compute; reflexivity).
    rewrite E in H. split; [exact E|exact (proj2 H)].
  - vm_compute. reflexivity.
  - vm_compute. reflexivity.
Defined.
