(* ===== verification/SqlStore.v ===== *)
(** * Objects in the database ([Model.h], [Model.cpp], [SQLite.cpp], [KeyValue.cpp])

    Objects are found, saved and removed through statements that go through the
    queue of [Database] to sqlite3.  The engine is an interface: what it does
    with a statement is given by the reading of [SqlRead], for the statements
    that [KeyValue] needs.  On top of it the table of keys and values is shown
    to be a map, whatever the order of calls and timers, the order of the rows
    and the order in which the fields of a class are listed. *)

From Stdlib Require Import ZArith Lia ZifyNat ZifyBool Ascii String.
From stdpp Require Import base list option strings gmap.
From S2P Require Import Prelude Database Sprintf SqlText SqlRead.

#[local] Open Scope Z_scope.

(** ** The engine *)

(** [sqlite3_open]; a statement that is prepared, bound and stepped to its end,
    with the rows it yields and the last rowid, or [None] when it cannot be
    prepared; and how columns are read. *)
Class Sqlite3 : Type := mkSqlite3 {
  sq_db : Type;
  sq_open : sq_db -> bool;
  sq_run : list Z -> list value -> sq_db -> option (list (list value) * Z * sq_db);
  column_int : value -> Z;
  column_int64 : value -> Z;
  column_double : value -> real;
  column_text : value -> option (list Z)
}.

(** What the callback of a statement does with its results. *)
Inductive callback_kind : Type := NoCallback | Collect (t : Table) | TakeRowid.

Record queue_item : Type := mkItem {
  it_text : list Z;
  it_params : list Variant;
  it_callback : callback_kind
}.

(** What callbacks leave behind for the code that waits for them. *)
Record mailbox : Type := mkMailbox { found : list model; rowid : option Z }.

(** ** From rows to objects *)

Definition default_member (f : Field) : member :=
  match f.(type) with
  | Integer => IntM (if f.(primary) then -1 else 0)
  | Long => LongM 0
  | Real => RealM (Finite false 0 0)
  | _ => TextM []
  end.

(** A new object: its identifier is -1, texts are empty; [changed] is not
    initialised. *)
Definition new_object (t : Table) (junk : bool) : model :=
  mkModel junk (list_to_map (map (fun f => (f.(field_name), default_member f)) t.(fields))).

Section rows.
Context `{Sqlite3}.

(** The fields are set from the columns, in the same order. *)
Fixpoint read_columns (fs : list Field) (row : list value) (m : model) : model :=
  match fs with
  | [] => m
  | f :: r =>
      let v := default NullV (head row) in
      match f.(type) with
      | Integer => read_columns r (tail row) (set_member f.(field_name) (IntM (column_int v)) m)
      | Long => read_columns r (tail row) (set_member f.(field_name) (LongM (column_int64 v)) m)
      | Real => read_columns r (tail row) (set_member f.(field_name) (RealM (column_double v)) m)
      | Text => read_columns r (tail row) (set_member f.(field_name) (TextM (cstr (default [] (column_text v)))) m)
      | _ => read_columns r row m
      end
  end.

Definition read_row (t : Table) (row : list value) : model :=
  done (read_columns t.(fields) row (new_object t false)).

(** [SQLite::action] with its callback.  [find] empties its results before it
    issues the statement, so that they are empty when it fails. *)
Definition SQLite_action (it : queue_item) (s : sq_db * mailbox) : bool * (sq_db * mailbox) :=
  let '(db, mb) := s in
  match (if sq_open db then sq_run it.(it_text) (bindings it.(it_params)) db else None) with
  | Some (rows, id, db') =>
      (true, (db', match it.(it_callback) with
                   | NoCallback => mb
                   | Collect t => mkMailbox (map (read_row t) rows) mb.(rowid)
                   | TakeRowid => mkMailbox mb.(found) (Some id)
                   end))
  | None =>
      (false, (db, match it.(it_callback) with
                   | NoCallback => mb
                   | Collect t => mkMailbox [] mb.(rowid)
                   | TakeRowid => mkMailbox mb.(found) None
                   end))
  end.

#[export] Instance SQLite_engine : Engine := mkEngine (sq_db * mailbox) queue_item bool SQLite_action.

(** None of these callbacks issues a statement. *)
Definition returns_at_once (it : queue_item) (ok : bool) : db_prog unit := mret tt.

(** ** Queries and objects *)

Definition find (q : SQLQuery) : db_prog SQLQuery :=
  exce returns_at_once (mkItem (find_text q) q.(params) (Collect q.(q_table)));;
  d ← gets contents;
  mret (set_results d.2.(found) q).

Definition remove_query (q : SQLQuery) : db_prog unit := queueExce (mkItem (remove_text q) q.(params) NoCallback).

(** [Query::res] *)
Definition res (q : SQLQuery) : db_prog SQLQuery :=
  if q.(q_changed) then q' ← find q; mret (set_changed false q') else mret q.

(** [SQLite::update] *)
Definition update (m : model) (t : Table) : db_prog model :=
  if get_int m identifier =? -1 then
    '(s, vs) ← deref (insert_text m t);
    exce returns_at_once (mkItem s vs TakeRowid);;
    d ← gets contents;
    mret (match d.2.(rowid) with Some i => set_member identifier (IntM (int_of_size i)) m | None => m end)
  else
    '(s, vs) ← deref (update_text m t);
    queueExce (mkItem s vs NoCallback);;
    mret m.

(** [Model::save] *)
Definition save (m : model) (t : Table) : db_prog model := if m.(m_changed) then update m t else mret m.

(** [SQLite::remove] *)
Definition remove (m : model) (t : Table) : db_prog model :=
  s ← deref (delete_text m t);
  queueExce (mkItem s [] NoCallback);;
  mret (set_member identifier (IntM (-1)) m).

(** [Model::find] *)
Definition find_identifier (t : Table) (id : Z) : db_prog (option model) :=
  q ← deref (equal identifier (VInt id) (new_query t));
  q ← res (limit 1 q);
  mret (head q.(q_results)).

(** ** [KeyValue] *)

Definition key_name : list Z := bytes_of "key".
Definition value_name : list Z := bytes_of "value".

Definition KeyValue_fields : list Field := [text_field "value" false; identifier_field; text_field "key" true].

(** The calls on the table that has been registered, with its fields in any order. *)
Definition KeyValue_get (t : Table) (key : list Z) : db_prog (list Z) :=
  q ← deref (equal key_name (VString key) (new_query t));
  q ← res q;
  mret (match q.(q_results) with kv :: _ => get_text kv value_name | [] => [] end).

Definition KeyValue_set (t : Table) (junk : bool) (key value : list Z) : db_prog unit :=
  q ← deref (equal key_name (VString key) (new_query t));
  q ← res q;
  let kv := match q.(q_results) with
            | kv :: _ => kv
            | [] => set_member key_name (TextM key) (new_object t junk)
            end in
  save (set_member value_name (TextM value) kv) t;;
  mret tt.

(** ** The other classes *)

(** [CollectionData::all], [findBy] and [find] *)
Definition all_query (t : Table) (ty : list Z) : option SQLQuery :=
  q ← equal (bytes_of "type") (VString ty) (new_query t); Some (sortBy identifier q).
Definition page_query (t : Table) (ty sort : list Z) (page page_count : Z) : option SQLQuery :=
  q ← equal (bytes_of "type") (VString ty) (new_query t);
  Some (limit page_count (offset (int_of_size (page * page_count)) (sortBy sort q))).
Definition pair_query (t : Table) (ty key : list Z) : option SQLQuery :=
  q ← equal (bytes_of "type") (VString ty) (new_query t); equal key_name (VString key) (andQ q).

Definition CollectionData_all (t : Table) (ty : list Z) : db_prog (list model) :=
  q ← deref (all_query t ty); q ← res q; mret q.(q_results).
Definition CollectionData_findBy (t : Table) (ty sort : list Z) (page page_count : Z) : db_prog (list model) :=
  q ← deref (page_query t ty sort page page_count); q ← res q; mret q.(q_results).
Definition CollectionData_find (t : Table) (ty key : list Z) : db_prog (option model) :=
  q ← deref (pair_query t ty key); q ← res q; mret (head q.(q_results)).

(** [SearchData::insert] *)
Definition SearchData_insert (t : Table) (junk : bool) (key : list Z) (date : Z) : db_prog unit :=
  q ← deref (equal key_name (VString key) (new_query t));
  q ← res q;
  let data := match q.(q_results) with
              | [] => set_member key_name (TextM key) (new_object t junk)
              | m :: _ => m
              end in
  save (set_member (bytes_of "date") (LongM date) data) t;;
  mret tt.

(** [GitLibrary::allLibraries], [findLibrary] and [insertLibrary]; [now] is the time. *)
Definition GitLibrary_allLibraries (t : Table) : db_prog (list model) :=
  q ← res (sortBy (bytes_of "date") (new_query t)); mret q.(q_results).
Definition GitLibrary_findLibrary (t : Table) (url : list Z) : db_prog (option model) :=
  q ← deref (equal (bytes_of "url") (VString url) (new_query t)); q ← res q; mret (head q.(q_results)).
Definition GitLibrary_insertLibrary (t : Table) (junk : bool) (now : Z) (url : list Z) : db_prog bool :=
  q ← deref (equal (bytes_of "url") (VString url) (new_query t));
  q ← res q;
  match q.(q_results) with
  | _ :: _ => mret false
  | [] =>
      save (set_member (bytes_of "date") (LongM now) (set_member (bytes_of "url") (TextM url) (new_object t junk))) t;;
      mret true
  end.
End rows.

(** The queries of [CollectionData] are those of their names: all of a type in
    the order of their identifiers, a page of them in a given order, and the one
    with a key.  A page whose size is not positive is no statement, except for
    a negative start. *)
Theorem collection_queries (t : Table) (ty sort key : list Z) (page n : Z) :
  table_ok t -> is_name sort = true ->
  let start := int_of_size (page * n) in
  let of_type := Compare (bytes_of "type") OpEqual (TextV (cstr ty)) in
  let select := Select (map field_name t.(fields)) t.(cls_name) in
  let said (q : option SQLQuery) := q ≫= fun q => prepared (find_text q) q.(params) in
  said (all_query t ty) = Some (select [of_type] (Some ([identifier], true)) None None)
  /\ said (pair_query t ty key) = Some (select [of_type; Compare key_name OpEqual (TextV (cstr key))] None None None)
  /\ said (page_query t ty sort page n)
     = if (0 <=? start) && (n <=? 0) then None
       else Some (select [of_type] (Some ([sort], true)) (if 0 <? n then Some (NumV (sprintf_d n)) else None)
                    (if 0 <=? start then Some (NumV (sprintf_d start)) else None)).
Proof.
  intros Ht Hs start of_type select said.
  assert (forall cs l, Forall condition_ok cs -> Forall (fun n => is_name n = true) l -> forall k o, asked_ok (mkAsked cs true l true k o)) as Hok by done.
  assert (condition_ok (Compare (bytes_of "type") OpEqual (VString ty))) as Hty by done.
  assert (forall calls a, asks calls = Some a -> finished a -> asked_ok a -> forallb (fits 256) (asked_values a) = true ->
    said (perform_query_calls (new_query t) calls) = if stray_offset a then None else Some (asked_select t a)) as Hsaid.
  { intros calls a H1 H2 H3 H4. pose proof (query_calls t calls a Ht H1 H2 H3) as H. rewrite H4 in H.
    destruct H as (q & -> & H & _). exact H. }
  split_and!.
  - apply (Hsaid [CallCompare OpEqual (bytes_of "type") (VString ty); CallSortBy identifier]
      (mkAsked [Compare (bytes_of "type") OpEqual (VString ty)] true [identifier] true 0 (-1))); [done|by left| |done].
    apply Hok; by apply Forall_singleton.
  - apply (Hsaid [CallCompare OpEqual (bytes_of "type") (VString ty); CallAnd; CallCompare OpEqual key_name (VString key)]
      (mkAsked [Compare (bytes_of "type") OpEqual (VString ty); Compare key_name OpEqual (VString key)] true [] true 0 (-1)));
      [done|by left| |done]. apply Hok; [|apply Forall_nil_2]. apply Forall_cons_2; [done|by apply Forall_singleton].
  - apply (Hsaid [CallCompare OpEqual (bytes_of "type") (VString ty); CallSortBy sort; CallOffset start; CallLimit n]
      (mkAsked [Compare (bytes_of "type") OpEqual (VString ty)] true [sort] true n start)); [done|by left| |done].
    apply Hok; by apply Forall_singleton.
Qed.

Lemma collection_queries_witness :
  let t := mkTable (bytes_of "CollectionData") [text_field "type" true; identifier_field] (Finite false 0 0) in
  (page_query t (bytes_of "a'") (bytes_of "key") 3 20 ≫= fun q => prepared (find_text q) q.(params))
  = Some (Select [bytes_of "type"; identifier] (bytes_of "CollectionData")
      [Compare (bytes_of "type") OpEqual (TextV (bytes_of "a'"))] (Some ([bytes_of "key"], true))
      (Some (NumV (bytes_of "20"))) (Some (NumV (bytes_of "60"))))
  /\ (page_query t (bytes_of "a'") (bytes_of "key") 0 0 ≫= fun q => prepared (find_text q) q.(params)) = None.
Proof.
  intros t. assert (table_ok t) as Ht.
  { repeat split; try discriminate. repeat (apply Forall_cons_2; [reflexivity|]). apply Forall_nil_2. }
  split.
  - apply (collection_queries t (bytes_of "a'") (bytes_of "key") [] 3 20 Ht eq_refl).
  - apply (collection_queries t (bytes_of "a'") (bytes_of "key") [] 0 0 Ht eq_refl).
Defined.

(** ** What sqlite3 promises *)

Abbreviation row := (gmap (list Z) value).

Record table_state : Type := mkState {
  columns : list (list Z);
  table_rows : list row;
  sequence : Z
}.

Definition project (cols : list (list Z)) (r : row) : list value := map (fun c => default NullV (r !! c)) cols.

(** Equality of a column that holds texts with a text. *)
Definition text_equality (tb : table_state) (c : condition value) : Prop :=
  match c with
  | Compare n OpEqual (TextV _) => n ∈ tb.(columns) /\ Forall (fun r => exists x, r !! n = Some (TextV x)) tb.(table_rows)
  | _ => False
  end.

Definition satisfies (cs : list (condition value)) (r : row) : bool :=
  forallb (fun c => match c with Compare n _ v => bool_decide (r !! n = Some v) | Among _ _ => false end) cs.

Definition number (n : Z) : value := NumV (sprintf_d n).

Definition identified (n : Z) (r : row) : bool := bool_decide (r !! identifier = Some (number n)).

(** A file whose tables are known can be opened; the documented behaviour of
    statements on tables whose identifier is
    [INTEGER PRIMARY KEY AUTOINCREMENT]: a SELECT yields the rows that satisfy
    its conditions in any order; an INSERT adds a row with the next identifier;
    an UPDATE of a row changes the columns it names. *)
Class Sqlite3Laws `{Sqlite3} : Type := mkLaws {
  table_of : sq_db -> list Z -> option table_state;
  law_open : forall db name tb, table_of db name = Some tb -> sq_open db = true;
  law_int : forall n, - 2 ^ 63 <= n < 2 ^ 63 -> column_int (number n) = int_of_size n;
  law_text : forall t, column_text (TextV t) = Some t;
  law_select : forall text ps db cols name cs tb,
    prepared text ps = Some (Select cols name cs None None None) -> table_of db name = Some tb ->
    (forall c, c ∈ cols -> c ∈ tb.(columns)) -> Forall (text_equality tb) cs ->
    exists rows id, sq_run text (bindings ps) db = Some (rows, id, db)
      /\ rows ≡ₚ map (project cols) (List.filter (satisfies cs) tb.(table_rows));
  law_insert : forall text ps db cols vs name tb,
    prepared text ps = Some (Insert name cols vs) -> table_of db name = Some tb ->
    NoDup cols -> length cols = length vs -> identifier :: cols ≡ₚ tb.(columns) -> 0 <= tb.(sequence) < 2 ^ 63 - 1 ->
    exists db' rows, sq_run text (bindings ps) db = Some ([], tb.(sequence) + 1, db')
      /\ table_of db' name = Some (mkState tb.(columns) rows (tb.(sequence) + 1))
      /\ rows ≡ₚ <[identifier := number (tb.(sequence) + 1)]> (list_to_map (zip cols vs)) :: tb.(table_rows)
      /\ forall other, other <> name -> table_of db' other = table_of db other;
  law_update : forall text ps db l name n tb,
    prepared text ps = Some (Update name l (with_identifier n)) -> table_of db name = Some tb ->
    NoDup l.*1 -> (forall c, c ∈ l.*1 -> c ∈ tb.(columns) /\ c <> identifier) ->
    exists db' rows id, sq_run text (bindings ps) db = Some ([], id, db')
      /\ table_of db' name = Some (mkState tb.(columns) rows tb.(sequence))
      /\ rows ≡ₚ map (fun r => if identified n r then list_to_map l ∪ r else r) tb.(table_rows)
      /\ forall other, other <> name -> table_of db' other = table_of db other
}.

(** ** The table as a map *)

(** An entry: its identifier, its key and its value. *)
Definition entry : Type := Z * list Z * list Z.
Definition entry_row (e : entry) : row :=
  <[identifier := number e.1.1]> (<[key_name := TextV e.1.2]> (<[value_name := TextV e.2]> ∅)).

Definition c_text (t : list Z) : Prop := cstr t = t.

(** The entries [es] are the contents of the table; the keys are distinct, the
    identifiers as well. *)
Record entries_ok (n : Z) (es : list entry) : Prop := mkEntries {
  en_ids : NoDup (map (fun e => e.1.1) es);
  en_keys : NoDup (map (fun e => e.1.2) es);
  en_range : Forall (fun e => 1 <= e.1.1 <= n /\ c_text e.1.2 /\ c_text e.2) es
}.

Definition value_at (es : list entry) (k : list Z) : list Z :=
  match List.find (fun e => bool_decide (e.1.2 = k)) es with Some e => e.2 | None => [] end.

Definition holds_entries `{Sqlite3Laws} (t : Table) (n : Z) (es : list entry) (db : sq_db) : Prop :=
  exists tb, table_of db t.(cls_name) = Some tb
    /\ tb.(columns) ≡ₚ [identifier; key_name; value_name] /\ tb.(sequence) = n
    /\ tb.(table_rows) ≡ₚ map entry_row es /\ entries_ok n es.

(** The map [f], by the texts of the keys. *)
Definition keeps `{Sqlite3Laws} (t : Table) (n : Z) (f : list Z -> list Z) (db : sq_db) : Prop :=
  exists es, holds_entries t n es db /\ forall k, c_text k -> value_at es k = f k.

(** The table that [KeyValue] registers. *)
Definition KeyValue_table (t : Table) : Prop := t.(cls_name) = bytes_of "KeyValue" /\ t.(fields) ≡ₚ KeyValue_fields.

(** ** Rows and entries *)

Lemma NoDup_map_inj {A B} (f : A -> B) l x y : NoDup (map f l) -> x ∈ l -> y ∈ l -> f x = f y -> x = y.
Proof.
  induction l as [|z l IH]; [by rewrite elem_of_nil|]. cbn. intros [Hn Hd]%NoDup_cons Hx Hy E.
  rewrite elem_of_cons in Hx, Hy. destruct Hx as [-> |Hx], Hy as [-> |Hy]; [done| | |by apply IH];
    exfalso; apply Hn; [rewrite E|rewrite <- E]; by apply list_elem_of_fmap_2.
Qed.

Lemma perm_three {A} (a b c : A) l : l ≡ₚ [a; b; c] ->
  l = [a; b; c] \/ l = [a; c; b] \/ l = [b; a; c] \/ l = [b; c; a] \/ l = [c; a; b] \/ l = [c; b; a].
Proof.
  intros H. assert (forall (x : A) k m, x :: k ≡ₚ m -> exists k1 k2, m = k1 ++ x :: k2 /\ k ≡ₚ k1 ++ k2) as Hc.
  { intros x k m Hp. symmetry in Hp. destruct (Permutation_vs_cons_inv Hp) as (k1 & k2 & ->).
    exists k1, k2. split; [done|]. symmetry in Hp. apply (Permutation_cons_app_inv k1 k2 Hp). }
  symmetry in H. destruct (Hc _ _ _ H) as (l1 & l2 & -> & H2). destruct (Hc _ _ _ H2) as (l3 & l4 & E & H3).
  apply Permutation_singleton_l in H3. destruct l3 as [|? [|]], l4 as [|? [|]]; try done; cbn in H3; injection H3 as ->;
    destruct l1 as [|? [|? [|]]]; cbn in E; simplify_eq; auto 10.
Qed.

Lemma KeyValue_cases t : KeyValue_table t -> let v := text_field "value" false in let k := text_field "key" true in
  t.(fields) = [v; identifier_field; k] \/ t.(fields) = [v; k; identifier_field] \/ t.(fields) = [identifier_field; v; k]
  \/ t.(fields) = [identifier_field; k; v] \/ t.(fields) = [k; v; identifier_field] \/ t.(fields) = [k; identifier_field; v].
Proof. intros [_ H] v k. by apply perm_three. Qed.

Lemma KeyValue_table_ok t : KeyValue_table t -> table_ok t.
Proof.
  intros Ht. pose proof (KeyValue_cases t Ht) as Hc. destruct Ht as [Hn _]. split; [by rewrite Hn|].
  destruct Hc as [->|[->|[->|[->|[->| ->]]]]]; (split; [done|]); repeat (apply Forall_cons_2; [done|]); apply Forall_nil_2.
Qed.

Lemma digits_value_inj n m : 0 <= n -> 0 <= m -> natural n = natural m -> n = m.
Proof. intros Hn Hm H. rewrite <- (proj1 (natural_spec n Hn)), <- (proj1 (natural_spec m Hm)). by rewrite H. Qed.

Lemma natural_not_minus n s : 0 <= n -> natural n <> ch "-" :: s.
Proof.
  intros Hn E. destruct (natural_spec n Hn) as [_ Hd]. rewrite E in Hd. apply Forall_cons in Hd as [Hd _].
  change (ch "-") with 45 in Hd. lia.
Qed.

Lemma number_text_inj n m : number n = number m -> n = m.
Proof.
  unfold number, sprintf_d. intros [= E]. destruct (n <? 0) eqn:E1, (m <? 0) eqn:E2.
  - injection E as E. apply digits_value_inj in E; lia.
  - exfalso. symmetry in E. apply natural_not_minus in E; [done|lia].
  - exfalso. apply natural_not_minus in E; [done|lia].
  - apply digits_value_inj in E; lia.
Qed.

Lemma entry_row_lookup e :
  entry_row e !! identifier = Some (number e.1.1) /\ entry_row e !! key_name = Some (TextV e.1.2)
  /\ entry_row e !! value_name = Some (TextV e.2).
Proof. by unfold entry_row; split_and!; simplify_map_eq. Qed.

(** An object of the class, as the database has it. *)
Record kv_object (m : model) (id : Z) (k v : list Z) : Prop := mkKv {
  kv_id : m.(members) !! identifier = Some (IntM id);
  kv_key : m.(members) !! key_name = Some (TextM k);
  kv_value : m.(members) !! value_name = Some (TextM v)
}.

Lemma set_member_other f g v m : f <> g -> (set_member f v m).(members) !! g = m.(members) !! g.
Proof. intros Hn. unfold set_member. destruct (same_member _ _); [done|]. cbn. by rewrite lookup_insert_ne. Qed.

Lemma set_member_same f v m : match v with RealM _ => False | _ => True end -> (set_member f v m).(members) !! f = Some v.
Proof.
  intros Hv. unfold set_member. destruct (same_member _ _) eqn:E; [|cbn; by rewrite lookup_insert_eq].
  destruct v; try done; cbn in E; by case_bool_decide.
Qed.

Lemma set_text_changed f v m : (set_member f (TextM v) m).(m_changed) = false -> set_member f (TextM v) m = m.
Proof. unfold set_member. by destruct (same_member _ _). Qed.

Section kv.
Context `{Sqlite3Laws}.

Lemma read_entry t e : KeyValue_table t -> 1 <= e.1.1 < 2 ^ 31 -> c_text e.1.2 -> c_text e.2 ->
  let m := read_row t (project (map field_name t.(fields)) (entry_row e)) in
  m.(m_changed) = false /\ kv_object m e.1.1 e.1.2 e.2.
Proof.
  intros Ht Hi Hk Hv m. split; [done|]. destruct (entry_row_lookup e) as (L1 & L2 & L3).
  assert (column_int (number e.1.1) = e.1.1) as C1 by (rewrite law_int by lia; apply int_of_size_small; unfold INT_MAX; lia).
  assert (forall x, c_text x -> cstr (default [] (column_text (TextV x))) = x) as C2 by (intros x Hx; by rewrite law_text).
  subst m. unfold read_row, done, project.
  destruct (KeyValue_cases t Ht) as [E|[E|[E|[E|[E|E]]]]]; rewrite E; clear E;
    cbn [map field_name text_field identifier_field read_columns type head tail];
    change (bytes_of "value") with value_name; change (bytes_of "key") with key_name; rewrite L1, L2, L3;
    cbn [from_option id]; rewrite C1, !C2 by done; constructor; cbn [members];
    repeat first [rewrite set_member_same by done; reflexivity | rewrite set_member_other by done].
Qed.

Lemma filter_perm {A} (p : A -> bool) l k : l ≡ₚ k -> List.filter p l ≡ₚ List.filter p k.
Proof.
  induction 1 as [|x l k _ IH|x y l|l k m _ IH1 _ IH2]; cbn; [done| | |by etrans].
  - destruct (p x); [by rewrite IH|done].
  - destruct (p x), (p y); done || constructor.
Qed.

Definition with_key (k : list Z) (e : entry) : bool := bool_decide (e.1.2 = k).

Lemma filter_rows es k :
  List.filter (satisfies [Compare key_name OpEqual (TextV k)]) (map entry_row es) = map entry_row (List.filter (with_key k) es).
Proof.
  induction es as [|e es IH]; [done|]. cbn [map List.filter]. rewrite IH. unfold satisfies at 1. cbn [forallb].
  change (with_key k e) with (bool_decide (e.1.2 = k)).
  rewrite (proj1 (proj2 (entry_row_lookup e))), andb_true_r.
  rewrite (bool_decide_ext (Some (TextV e.1.2) = Some (TextV k)) (e.1.2 = k)); [by case_bool_decide|naive_solver].
Qed.

(** A key belongs to one entry at most. *)
Lemma filter_key es k : NoDup (map (fun e : entry => e.1.2) es) ->
  List.filter (with_key k) es = match List.find (with_key k) es with Some e => [e] | None => [] end.
Proof.
  induction es as [|e es IH]; [done|]. cbn [map]. intros [Hn Hd]%NoDup_cons. cbn [List.filter List.find].
  change (with_key k e) with (bool_decide (e.1.2 = k)). case_bool_decide as E.
  - f_equal. clear -Hn E. induction es as [|x es IH]; [done|]. cbn in *.
    change (with_key k x) with (bool_decide (x.1.2 = k)). apply not_elem_of_cons in Hn as [Hx Hn]. rewrite bool_decide_eq_false_2 by congruence. auto.
  - by apply IH.
Qed.
(** ** Looking for a key *)

Definition key_query (t : Table) (key : list Z) : SQLQuery :=
  default (new_query t) (equal key_name (VString key) (new_query t)).

Lemma equal_key t key : equal key_name (VString key) (new_query t) = Some (key_query t key).
Proof. done. Qed.
Definition key_item (t : Table) (key : list Z) : queue_item :=
  mkItem (find_text (key_query t key)) (key_query t key).(params) (Collect t).

Lemma key_prepared t key : KeyValue_table t ->
  prepared (key_item t key).(it_text) (key_item t key).(it_params)
  = Some (Select (map field_name t.(fields)) t.(cls_name) [Compare key_name OpEqual (TextV (cstr key))] None None None).
Proof.
  intros Ht. pose proof (query_calls t [CallCompare OpEqual key_name (VString key)]
    (mkAsked [Compare key_name OpEqual (VString key)] true [] true 0 (-1))) as Hk.
  destruct Hk as (q & Hq & Hs & _).
  - by apply KeyValue_table_ok.
  - done.
  - by left.
  - split; [|apply Forall_nil_2]. by apply Forall_singleton.
  - cbn [it_text it_params key_item]. apply (inj Some (key_query t key)) in Hq. rewrite Hq. exact Hs.
Qed.

(** The objects that are found: the one with the key, or none. *)
Definition found_for (es : list entry) (key : list Z) (ms : list model) : Prop :=
  match List.find (with_key (cstr key)) es with
  | Some e => exists m, ms = [m] /\ m.(m_changed) = false /\ kv_object m e.1.1 e.1.2 e.2
  | None => ms = []
  end.

Lemma KeyValue_columns t c : KeyValue_table t -> c ∈ map field_name t.(fields) -> c ∈ [identifier; key_name; value_name].
Proof.
  intros [_ Hf] Hc. rewrite (Permutation_map field_name Hf) in Hc.
  change (map field_name KeyValue_fields) with [value_name; identifier; key_name] in Hc.
  rewrite !elem_of_cons in *. tauto.
Qed.

Lemma select_effect t n es db mb key :
  KeyValue_table t -> holds_entries t n es db -> n < 2 ^ 31 ->
  exists ms, (action (key_item t key) (db, mb)).2 = (db, mkMailbox ms mb.(rowid)) /\ found_for es key ms.
Proof.
  intros Ht (tb & Htb & Hcols & Hseq & Hrows & [Hids Hkeys Hrange]) Hn.
  destruct (law_select _ _ db _ _ _ tb (key_prepared t key Ht) Htb) as (rows & id & Hrun & Hr).
  - intros c Hc%(KeyValue_columns t c Ht). by rewrite Hcols.
  - apply Forall_singleton. split; [rewrite Hcols; rewrite !elem_of_cons; tauto|]. rewrite Hrows. apply Forall_map, Forall_true.
    intros e. eexists. apply entry_row_lookup.
  - cbn [action SQLite_engine]. unfold SQLite_action. rewrite (law_open _ _ _ Htb), Hrun. cbn [snd it_callback key_item].
    eexists. split; [done|]. rewrite (filter_perm _ _ _ Hrows), filter_rows, filter_key in Hr by done. unfold found_for.
    destruct (List.find _ es) as [e|] eqn:Ef.
    + apply Permutation_singleton_r in Hr as ->. eexists. split; [done|].
      apply List.find_some in Ef as [Hin _]. rewrite List.Forall_forall in Hrange. destruct (Hrange e Hin) as (R1 & R2 & R3).
      apply read_entry; [done|lia|done|done].
    + by apply Permutation_nil_r in Hr as ->.
Qed.

Lemma all_quiet sts : Forall (quiet returns_at_once) sts.
Proof. by apply Forall_true. Qed.

(** [exce] executes what is queued, and then its statement. *)
Lemma wp_issue c0 sts it d (Q : unit -> database -> Prop) :
  orderly c0 sts d ->
  (forall d', orderly c0 (sts ++ [it]) d' -> d'.(queue) = [] -> d'.(contents) = (action it (effect sts c0)).2 -> Q tt d') ->
  wp strict (exce returns_at_once it) Q (fun _ => False) d.
Proof.
  intros Hd HQ. eapply wp_mono; [apply (wp_perform_call (eng := SQLite_engine) returns_at_once c0 sts (CallExce it)); [done|apply all_quiet..]| |done].
  intros [] d' [Ho Hq]. apply HQ; [done|done|]. pose proof Ho as [K1 K2 _ _ _]. rewrite Hq, app_nil_r in K1.
  rewrite K2, K1. cbn [issued]. unfold effect. by rewrite foldl_app.
Qed.

Lemma wp_queue c0 sts it d (Q : unit -> database -> Prop) :
  orderly c0 sts d -> (forall d', orderly c0 (sts ++ [it]) d' -> Q tt d') ->
  wp strict (queueExce it) Q (fun _ => False) d.
Proof.
  intros Hd HQ. eapply wp_mono; [apply (wp_perform_call (eng := SQLite_engine) returns_at_once c0 sts (CallQueue it)); [done|apply all_quiet..]| |done].
  intros [] d' [Ho _]. by apply HQ.
Qed.

Lemma effect_snoc sts it c0 : effect (sts ++ [it]) c0 = (action it (effect sts c0)).2.
Proof. unfold effect. by rewrite foldl_app. Qed.

Lemma wp_lookup t n es c0 sts d key (Q : SQLQuery -> database -> Prop) :
  KeyValue_table t -> orderly c0 sts d -> holds_entries t n es (effect sts c0).1 -> n < 2 ^ 31 ->
  (forall q d' sts', orderly c0 sts' d' -> (effect sts' c0).1 = (effect sts c0).1 -> found_for es key q.(q_results) -> Q q d') ->
  wp strict (res (key_query t key)) Q (fun _ => False) d.
Proof.
  intros Ht Hd He Hn HQ. unfold res, find. 
  change (q_changed (key_query t key)) with true. cbv iota. wp_step. wp_step.
  apply (wp_issue c0 sts); [done|]. intros d' Ho _ Hc. wp_steps.
  destruct (effect sts c0) as [db mb] eqn:Ee. cbn [fst] in *.
  destruct (select_effect t n es db mb key Ht He Hn) as (ms & Ha & Hf).
  assert (contents d' = (db, mkMailbox ms mb.(rowid))) as Hcd by exact (eq_trans Hc Ha).
  apply (HQ _ _ _ Ho).
  - rewrite effect_snoc, Ee. exact (f_equal fst Ha).
  - cbn [set_changed set_results q_results]. by rewrite Hcd.
Qed.
(** ** Storing an object *)

Definition value_field : Field := text_field "value" false.
Definition key_field : Field := text_field "key" true.

Lemma KeyValue_stored t : KeyValue_table t ->
  stored t.(fields) = [value_field; key_field] \/ stored t.(fields) = [key_field; value_field].
Proof. intros Ht. destruct (KeyValue_cases t Ht) as [->|[->|[->|[->|[->| ->]]]]]; cbn; auto. Qed.

Lemma kv_variants m id k v : kv_object m id k v ->
  member_variant m value_field = VString v /\ member_variant m key_field = VString k /\ get_int m identifier = id.
Proof.
  intros [H1 H2 H3]. unfold member_variant, get_text, get_int. cbn [type value_field key_field text_field field_name].
  change (bytes_of "value") with value_name. change (bytes_of "key") with key_name. by rewrite H1, H2, H3.
Qed.

Lemma kv_object_ok t m id k v : KeyValue_table t -> kv_object m id k v -> object_ok t m /\ all_fit t.(fields) m = true.
Proof.
  intros Ht Hm. destruct (kv_variants m id k v Hm) as (V1 & V2 & _). unfold object_ok, all_fit.
  destruct (KeyValue_stored t Ht) as [-> | ->]; cbn [forallb]; rewrite V1, V2; (split; [split; [done|]|done]);
    repeat (apply Forall_cons_2; [by rewrite ?V1, ?V2|]); apply Forall_nil_2.
Qed.

Lemma entry_row_insert i k v cols vs :
  (cols, vs) = ([value_name; key_name], [TextV v; TextV k]) \/ (cols, vs) = ([key_name; value_name], [TextV k; TextV v]) ->
  <[identifier := number i]> (list_to_map (zip cols vs)) = entry_row (i, k, v).
Proof.
  intros [[= -> ->]|[= -> ->]]; by unfold entry_row; cbn.
Qed.

Lemma insert_effect t n es db mb m k v :
  KeyValue_table t -> holds_entries t n es db -> 0 <= n < 2 ^ 31 -> kv_object m (-1) k v ->
  List.find (with_key (cstr k)) es = None ->
  exists s ps db' mb', insert_text m t = Some (s, ps)
    /\ (action (mkItem s ps TakeRowid) (db, mb)).2 = (db', mb')
    /\ holds_entries t (n + 1) ((n + 1, cstr k, cstr v) :: es) db'.
Proof.
  intros Ht (tb & Htb & Hcols & Hseq & Hrows & [Hids Hkeys Hrange]) Hn Hm Hno.
  destruct (kv_object_ok t m _ _ _ Ht Hm) as [Hok Hfit]. destruct (kv_variants m _ _ _ Hm) as (V1 & V2 & _).
  assert (exists s ps, insert_text m t = Some (s, ps)) as (s & ps & Hi).
  { unfold insert_text. rewrite insert_fields_spec by apply Hok. rewrite Hfit. eauto. }
  pose proof (read_insert_text t m (KeyValue_table_ok t Ht) Hok s ps Hi) as Hp. unfold object_insert in Hp.
  set (cols := map field_name (stored (fields t))) in Hp. set (vs := map (fun f => meant (member_variant m f)) (stored (fields t))) in Hp.
  assert ((cols, vs) = ([value_name; key_name], [TextV (cstr v); TextV (cstr k)])
    \/ (cols, vs) = ([key_name; value_name], [TextV (cstr k); TextV (cstr v)])) as Hcv.
  { subst cols vs. destruct (KeyValue_stored t Ht) as [-> | ->]; cbn [map]; rewrite V1, V2; auto. }
  destruct (law_insert _ _ db cols vs _ tb Hp Htb) as (db' & rows & Hrun & Htb' & Hr & _).
  - destruct Hcv as [[= -> _]|[= -> _]]; apply (bool_decide_unpack _); vm_compute; done.
  - by destruct Hcv as [[= -> ->]|[= -> ->]].
  - rewrite Hcols. destruct Hcv as [[= -> _]|[= -> _]]; constructor; [constructor|done].
  - lia.
  - exists s, ps, db'. eexists. split; [done|]. split.
    + cbn [action SQLite_engine]. unfold SQLite_action. rewrite (law_open _ _ _ Htb). cbn [it_text it_params]. rewrite Hrun. done.
    + eexists. split; [exact Htb'|]. rewrite Hseq in *. split; [done|]. split; [done|]. split.
      { cbn [table_rows]. rewrite Hr, (entry_row_insert _ (cstr k) (cstr v)) by done. cbn [map]. by constructor. }
      constructor; cbn [map fst snd].
      * apply NoDup_cons. split; [|done]. intros (e & He & Hin)%list_elem_of_fmap.
        rewrite Forall_forall in Hrange. destruct (Hrange e Hin) as (R1 & _). lia.
      * apply NoDup_cons. split; [|done]. intros (e & He & Hin)%list_elem_of_fmap.
        apply list_elem_of_In in Hin. pose proof (List.find_none _ _ Hno e Hin) as Hf.
        unfold with_key in Hf. case_bool_decide; [done|congruence].
      * apply Forall_cons_2; [cbn; split; [lia|split; apply cstr_idem]|].
        eapply Forall_impl; [exact Hrange|]. intros e (R1 & R2). split; [lia|done].
Qed.

(** The entry with an identifier gets another value. *)
Definition replaced (i : Z) (v : list Z) (e : entry) : entry := if e.1.1 =? i then (e.1.1, e.1.2, v) else e.

Lemma replaced_row i k v e l :
  (e.1.1 = i -> e.1.2 = k) ->
  l = [(value_name, TextV v); (key_name, TextV k)] \/ l = [(key_name, TextV k); (value_name, TextV v)] ->
  (if identified i (entry_row e) then list_to_map l ∪ entry_row e else entry_row e) = entry_row (replaced i v e).
Proof.
  intros Hk Hl. unfold identified, replaced. rewrite (proj1 (entry_row_lookup e)). destruct (e.1.1 =? i) eqn:E.
  - apply Z.eqb_eq in E. rewrite bool_decide_eq_true_2 by congruence. rewrite (Hk E).
    apply map_eq. intros x. rewrite lookup_union. unfold entry_row. cbn [fst snd].
    destruct (decide (x = value_name)) as [->|N1]; [by destruct Hl as [-> | ->]|].
    destruct (decide (x = key_name)) as [->|N2]; [by destruct Hl as [-> | ->]|].
    assert ((list_to_map l : row) !! x = None) as ->.
    { destruct Hl as [-> | ->]; cbn; by rewrite !lookup_insert_ne, lookup_empty by done. }
    rewrite left_id by apply _. destruct (decide (x = identifier)) as [->|N3]; [done|].
    by rewrite !lookup_insert_ne by done.
  - apply Z.eqb_neq in E. rewrite bool_decide_eq_false_2; [done|]. intros [= X]. by apply E, number_text_inj; unfold number; rewrite X.
Qed.

Lemma update_effect t n es db mb m e v :
  KeyValue_table t -> holds_entries t n es db -> n < 10 ^ 9 -> e ∈ es -> kv_object m e.1.1 e.1.2 v ->
  exists s ps db' mb', update_text m t = Some (s, ps)
    /\ (action (mkItem s ps NoCallback) (db, mb)).2 = (db', mb')
    /\ holds_entries t n (map (replaced e.1.1 (cstr v)) es) db'.
Proof.
  intros Ht (tb & Htb & Hcols & Hseq & Hrows & [Hids Hkeys Hrange]) Hn He Hm.
  destruct (kv_object_ok t m _ _ _ Ht Hm) as [Hok Hfit]. destruct (kv_variants m _ _ _ Hm) as (V1 & V2 & V3).
  pose proof (proj1 (Forall_forall _ _) Hrange e He) as (R1 & R2 & R3).
  assert (exists s ps, update_text m t = Some (s, ps)) as (s & ps & Hi).
  { unfold update_text. rewrite update_fields_spec by apply Hok. rewrite Hfit. cbn [mbind option_bind].
    pose proof (identifier_buffer (get_int m identifier)) as Hb. unfold identifier_fits in Hb.
    destruct (sprintf_into 10 _); [eauto|]. exfalso. apply Hb. lia. }
  pose proof (read_update_text t m (KeyValue_table_ok t Ht) Hok s ps Hi) as Hp. unfold object_update in Hp. rewrite V3 in Hp.
  set (l := map (fun f => (f.(field_name), meant (member_variant m f))) (stored (fields t))) in Hp.
  assert (l = [(value_name, TextV (cstr v)); (key_name, TextV e.1.2)]
    \/ l = [(key_name, TextV e.1.2); (value_name, TextV (cstr v))]) as Hl.
  { subst l. destruct (KeyValue_stored t Ht) as [-> | ->]; cbn [map]; rewrite V1, V2; cbn [meant]; rewrite R2; auto. }
  destruct (law_update _ _ db l _ _ tb Hp Htb) as (db' & rows & id & Hrun & Htb' & Hr & _).
  - destruct Hl as [-> | ->]; apply (bool_decide_unpack _); vm_compute; done.
  - intros c Hc. assert (c = value_name \/ c = key_name) as Hc' by (destruct Hl as [-> | ->]; cbn in Hc; rewrite !elem_of_cons, elem_of_nil in Hc; tauto).
    rewrite Hcols, !elem_of_cons. split; [tauto|]. by destruct Hc' as [-> | ->].
  - exists s, ps, db', mb. split; [done|]. split.
    + cbn [action SQLite_engine]. unfold SQLite_action. rewrite (law_open _ _ _ Htb). cbn [it_text it_params]. rewrite Hrun. done.
    + eexists. split; [exact Htb'|]. split; [done|]. split; [done|]. split.
      { cbn [table_rows]. rewrite Hr, Hrows, !map_map. erewrite map_ext_in; [done|]. intros x Hx%list_elem_of_In.
        apply replaced_row with (k := e.1.2); [|done]. intros Ex.
        assert (x = e) as ->; [|done]. by apply (NoDup_map_inj (fun e : entry => e.1.1) es). }
      assert (forall x, (replaced e.1.1 (cstr v) x).1 = x.1) as Hf by (intros [[] ]; unfold replaced; cbn; by destruct (_ =? _)).
      constructor; rewrite ?map_map; [by setoid_rewrite Hf|by setoid_rewrite Hf|]. apply Forall_map.
      eapply Forall_impl; [exact Hrange|]. intros x (X1 & X2 & X3). rewrite Hf. split; [done|]. split; [done|].
      unfold replaced. destruct (_ =? _); [apply cstr_idem|done].
Qed.
(** ** Getting and setting *)

Lemma value_at_found es k :
  value_at es k = match List.find (with_key k) es with Some e => e.2 | None => [] end.
Proof. done. Qed.

Lemma value_at_replaced es e k v : NoDup (map (fun e : entry => e.1.2) es) -> NoDup (map (fun e : entry => e.1.1) es) -> e ∈ es ->
  value_at (map (replaced e.1.1 v) es) k = if decide (k = e.1.2) then v else value_at es k.
Proof.
  intros Hk Hi He. rewrite !value_at_found.
  assert (forall l, (forall x, x ∈ l -> x ∈ es) -> match List.find (with_key k) (map (replaced e.1.1 v) l) with Some e => e.2 | None => [] end
    = match List.find (with_key k) l with Some x => if decide (x = e) then v else x.2 | None => [] end) as Hl.
  { induction l as [|x l IH]; intros Hin; [done|]. cbn [map List.find].
    assert (with_key k (replaced e.1.1 v x) = with_key k x) as -> by (unfold with_key, replaced; by destruct (_ =? _)).
    destruct (with_key k x); [|apply IH; intros y Hy; apply Hin; by right].
    unfold replaced. destruct (x.1.1 =? e.1.1) eqn:E.
    - apply Z.eqb_eq in E. rewrite decide_True; [done|]. apply (NoDup_map_inj (fun e : entry => e.1.1) es); auto. apply Hin. by left.
    - apply Z.eqb_neq in E. by rewrite decide_False by congruence. }
  rewrite Hl by done. destruct (List.find (with_key k) es) as [x|] eqn:Ef.
  - apply List.find_some in Ef as [Hx Hw]. unfold with_key in Hw. apply bool_decide_eq_true in Hw. apply list_elem_of_In in Hx.
    destruct (decide (x = e)) as [-> |Hne]; [by rewrite decide_True|]. rewrite decide_False; [done|].
    intros ->. apply Hne. by apply (NoDup_map_inj (fun e : entry => e.1.2) es).
  - rewrite decide_False; [done|]. intros ->. apply list_elem_of_In in He.
    pose proof (List.find_none _ _ Ef e He) as Hf. unfold with_key in Hf. by rewrite bool_decide_eq_true_2 in Hf.
Qed.

Lemma new_object_kv t junk : KeyValue_table t -> kv_object (new_object t junk) (-1) [] [].
Proof.
  intros Ht. unfold new_object. destruct (KeyValue_cases t Ht) as [->|[->|[->|[->|[->| ->]]]]]; by constructor.
Qed.

Lemma wp_get t n es c0 sts d key (Q : list Z -> database -> Prop) :
  KeyValue_table t -> orderly c0 sts d -> holds_entries t n es (effect sts c0).1 -> n < 2 ^ 31 ->
  (forall d' sts', orderly c0 sts' d' -> (effect sts' c0).1 = (effect sts c0).1 -> Q (value_at es (cstr key)) d') ->
  wp strict (KeyValue_get t key) Q (fun _ => False) d.
Proof.
  intros Ht Hd He Hn HQ. unfold KeyValue_get. rewrite equal_key. cbn [deref]. wp_step. apply wp_ret. wp_step. apply (wp_lookup t n es c0 sts); try done.
  intros q d' sts' Ho Heff Hf. wp_step. unfold found_for in Hf. specialize (HQ d' sts' Ho Heff). rewrite value_at_found in HQ.
  destruct (List.find _ es) as [e|].
  - destruct Hf as (m & -> & _ & [_ _ Hv]). unfold get_text. by rewrite Hv.
  - by rewrite Hf.
Qed.

(** The map with another value for a key. *)
Definition put (key value : list Z) (f : list Z -> list Z) : list Z -> list Z :=
  fun k => if decide (k = cstr key) then cstr value else f k.

Lemma keeps_put t n es f key value db :
  holds_entries t n es db -> (forall k, c_text k -> value_at es k = put key value f k) -> keeps t n (put key value f) db.
Proof. intros H1 H2. by exists es. Qed.

Lemma set_value_object m id k w value : kv_object m id k w -> kv_object (set_member value_name (TextM value) m) id k value.
Proof. intros [H1 H2 H3]. constructor; [by rewrite set_member_other|by rewrite set_member_other|by rewrite set_member_same]. Qed.

Definition stored_as (t : Table) (n : Z) (f : list Z -> list Z) c0 (d : database) : Prop :=
  exists sts n', orderly c0 sts d /\ n <= n' <= n + 1 /\ keeps t n' f (effect sts c0).1.

(** A value for a key that has one. *)
Lemma wp_set_old t n es f c0 sts d m e key value :
  KeyValue_table t -> orderly c0 sts d -> holds_entries t n es (effect sts c0).1 -> n < 10 ^ 9 ->
  (forall k, c_text k -> value_at es k = f k) -> List.find (with_key (cstr key)) es = Some e ->
  m.(m_changed) = false -> kv_object m e.1.1 e.1.2 e.2 ->
  wp strict (save (set_member value_name (TextM value) m) t) (fun _ => stored_as t n (put key value f) c0) (fun _ => False) d.
Proof.
  intros Ht Hd He Hn Hf Hfind Hch Hm. pose proof (List.find_some _ _ Hfind) as [Hin Hw].
  unfold with_key in Hw. apply bool_decide_eq_true in Hw. apply list_elem_of_In in Hin.
  pose proof He as (tb & _ & _ & _ & _ & [Hids Hkeys Hrange]).
  pose proof (proj1 (Forall_forall _ _) Hrange e Hin) as (R1 & R2 & R3).
  pose proof (set_value_object m _ _ _ value Hm) as Hm'. unfold save.
  destruct (m_changed (set_member value_name (TextM value) m)) eqn:Ec.
  - unfold update. rewrite (proj2 (proj2 (kv_variants _ _ _ _ Hm'))).
    assert ((e.1.1 =? -1) = false) as -> by lia. destruct (effect sts c0) as [db mb] eqn:Ee. cbn [fst] in He.
    destruct (update_effect t n es db mb _ e value Ht He Hn Hin Hm') as (s & ps & db' & mb' & Hu & Ha & He').
    rewrite Hu. cbn [deref]. wp_step. wp_step. wp_step. apply (wp_queue c0 sts); [done|]. intros d' Ho. wp_step.
    eexists _, n. split; [exact Ho|]. split; [lia|]. rewrite effect_snoc, Ee.
    refine (eq_ind_r (fun s => keeps t n _ s.1) _ Ha). eapply keeps_put; [exact He'|]. intros k Hk.
    rewrite value_at_replaced by done. unfold put. rewrite Hw, Hf by done. done.
  - apply set_text_changed in Ec. wp_step. exists sts, n. split; [done|]. split; [lia|]. eapply keeps_put; [exact He|].
    intros k Hk. unfold put. case_decide as Ek; [|by apply Hf]. rewrite value_at_found, Ek, Hfind.
    destruct Hm as [_ _ H3]. destruct Hm' as [_ _ H4]. rewrite Ec, H3 in H4. injection H4 as <-. by rewrite R3.
Qed.

(** A value for a new key. *)
Lemma wp_set_new t n es f c0 sts d junk key value :
  KeyValue_table t -> orderly c0 sts d -> holds_entries t n es (effect sts c0).1 -> 0 <= n < 2 ^ 31 ->
  (forall k, c_text k -> value_at es k = f k) -> List.find (with_key (cstr key)) es = None ->
  wp strict (save (set_member value_name (TextM value) (set_member key_name (TextM key) (new_object t junk))) t)
    (fun _ => stored_as t n (put key value f) c0) (fun _ => False) d.
Proof.
  intros Ht Hd He Hn Hf Hfind. set (m0 := set_member key_name (TextM key) (new_object t junk)).
  pose proof (new_object_kv t junk Ht) as [N1 N2 N3].
  assert (kv_object m0 (-1) key []) as Hm0.
  { constructor; subst m0; [by rewrite set_member_other|by rewrite set_member_same|by rewrite set_member_other]. }
  pose proof (set_value_object m0 _ _ _ value Hm0) as Hm. unfold save.
  destruct (m_changed (set_member value_name (TextM value) m0)) eqn:Ec.
  - unfold update. rewrite (proj2 (proj2 (kv_variants _ _ _ _ Hm))), Z.eqb_refl.
    destruct (effect sts c0) as [db mb] eqn:Ee. cbn [fst] in He.
    destruct (insert_effect t n es db mb _ key value Ht He Hn Hm Hfind) as (s & ps & db' & mb' & Hi & Ha & He').
    rewrite Hi. cbn [deref]. wp_step. wp_step. wp_step. apply (wp_issue c0 sts); [done|]. intros d' Ho _ _. wp_steps.
    eexists _, (n + 1). split; [exact Ho|]. split; [lia|]. rewrite effect_snoc, Ee.
    refine (eq_ind_r (fun s => keeps t (n + 1) _ s.1) _ Ha). eapply keeps_put; [exact He'|]. intros k Hk.
    rewrite value_at_found. cbn [List.find]. unfold with_key at 1. cbn [fst snd]. unfold put.
    destruct (decide (k = cstr key)) as [-> |Hne]; [by rewrite bool_decide_eq_true_2|].
    rewrite bool_decide_eq_false_2 by congruence. by rewrite <- value_at_found, Hf.
  - apply set_text_changed in Ec. wp_step. exists sts, n. split; [done|]. split; [lia|]. eapply keeps_put; [exact He|].
    intros k Hk. unfold put. case_decide as Ek; [|by apply Hf]. rewrite value_at_found, Ek, Hfind.
    destruct Hm as [_ _ H1]. destruct Hm0 as [_ _ H2]. rewrite Ec, H2 in H1. by injection H1 as <-.
Qed.

Lemma wp_set t n f c0 sts d junk key value :
  KeyValue_table t -> orderly c0 sts d -> keeps t n f (effect sts c0).1 -> 0 <= n < 10 ^ 9 ->
  wp strict (KeyValue_set t junk key value) (fun _ => stored_as t n (put key value f) c0) (fun _ => False) d.
Proof.
  intros Ht Hd (es & He & Hf) Hn. unfold KeyValue_set. rewrite equal_key. cbn [deref]. wp_step. apply wp_ret. wp_step. apply (wp_lookup t n es c0 sts); [done|done|done|lia|].
  intros q d' sts' Ho Heff Hfound. unfold found_for in Hfound. rewrite <- Heff in He. wp_step.
  eapply wp_mono with (E := fun _ => False); [|intros m d2 H2; wp_step; exact H2|done].
  destruct (List.find _ es) as [e|] eqn:Ef.
  - destruct Hfound as (m & -> & Hch & Hm). eapply wp_set_old; try done. lia.
  - rewrite Hfound. eapply wp_set_new; try done. lia.
Qed.
End kv.

(** ** Calls in any order *)

Inductive kv_call : Type :=
| KvGet (key : list Z)
| KvSet (junk : bool) (key value : list Z)
| KvTimer.

(** The results of the calls of [get]; a timer fires now and then. *)
Fixpoint kv_run `{Sqlite3} (t : Table) (cs : list kv_call) : db_prog (list (list Z)) :=
  match cs with
  | [] => mret []
  | KvGet k :: r => v ← KeyValue_get t k; vs ← kv_run t r; mret (v :: vs)
  | KvSet junk k v :: r => KeyValue_set t junk k v;; kv_run t r
  | KvTimer :: r => perform_call returns_at_once TimerFires;; kv_run t r
  end.

(** The same on a map from texts to texts, which has the empty text for keys
    that have not been set. *)
Fixpoint map_run (f : list Z -> list Z) (cs : list kv_call) : list (list Z) :=
  match cs with
  | [] => []
  | KvGet k :: r => f (cstr k) :: map_run f r
  | KvSet _ k v :: r => map_run (put k v f) r
  | KvTimer :: r => map_run f r
  end.

Definition map_after (f : list Z -> list Z) (cs : list kv_call) : list Z -> list Z :=
  foldl (fun f c => match c with KvSet _ k v => put k v f | _ => f end) f cs.

Section refinement.
Context `{Sqlite3Laws}.

Lemma kv_run_spec t c0 cs : KeyValue_table t -> forall n f sts d,
  orderly c0 sts d -> keeps t n f (effect sts c0).1 -> 0 <= n -> n + Z.of_nat (length cs) <= 10 ^ 9 ->
  wp strict (kv_run t cs) (fun vs d' => vs = map_run f cs
      /\ exists sts' n', orderly c0 sts' d' /\ keeps t n' (map_after f cs) (effect sts' c0).1) (fun _ => False) d.
Proof.
  intros Ht. induction cs as [|c cs IH]; intros n f sts d Hd Hk Hn Hl; cbn [kv_run].
  { wp_step. split; [done|]. by exists sts, n. }
  cbn [length] in Hl. destruct c as [k|junk k v|].
  - destruct Hk as (es & He & Hf). wp_step. apply (wp_get t n es c0 sts); [done|done|done|lia|].
    intros d1 sts1 Ho Heff. wp_step. rewrite <- Heff in He. rewrite Hf by apply cstr_idem.
    eapply wp_mono with (E := fun _ => False); [apply (IH n f sts1 d1 Ho); [by exists es|done|lia]| |done].
    intros vs d2 [-> H2]. wp_step. by split.
  - wp_step. eapply wp_mono with (E := fun _ => False); [apply (wp_set t n f c0 sts); [done|done|done|lia]| |done].
    intros _ d1 (sts1 & n' & Ho & Hn' & Hk'). apply (IH n' _ sts1); [done|done|lia|lia].
  - wp_step. eapply wp_mono with (E := fun _ => False);
      [apply (wp_perform_call (eng := SQLite_engine) returns_at_once c0 sts TimerFires); [done|apply all_quiet..]| |done].
    intros _ d1 [Ho _]. cbn [issued] in Ho. rewrite app_nil_r in Ho. apply (IH n _ sts); [done|done|done|lia].
Qed.
End refinement.

(** C3: [KeyValue] is a map: whatever is set and got and in whatever order, with
    timers in between, [get] returns the last value that was set for the key,
    and the empty text before; keys and values count up to their NUL.  No call
    fails, writes behind a buffer or waits for ever; the queue, the table and
    the identifiers of its rows stay in order.  The identifiers must not reach
    ten digits. *)
Theorem keyvalue_is_a_map `{Sqlite3Laws} (t : Table) c0 (cs : list kv_call) n f sts d :
  KeyValue_table t -> orderly c0 sts d -> keeps t n f (effect sts c0).1 ->
  0 <= n -> n + Z.of_nat (length cs) <= 10 ^ 9 ->
  wp strict (kv_run t cs) (fun vs d' => vs = map_run f cs
      /\ exists sts' n', orderly c0 sts' d' /\ keeps t n' (map_after f cs) (effect sts' c0).1) (fun _ => False) d.
Proof. intros Ht Hd Hk Hn Hl. by apply (kv_run_spec t c0 cs Ht n f sts). Qed.

(** ** An engine that follows the reading *)

Definition execute (st : sql value) (db : gmap (list Z) table_state) :
    option (list (list value) * Z * gmap (list Z) table_state) :=
  match st with
  | Select cols name cs _ _ _ =>
      tb ← db !! name;
      Some (map (project cols) (List.filter (satisfies cs) tb.(table_rows)), 0, db)
  | Delete name cs =>
      tb ← db !! name;
      Some ([], 0, <[name := mkState tb.(columns) (List.filter (fun r => negb (satisfies cs r)) tb.(table_rows)) tb.(sequence)]> db)
  | Insert name cols vs =>
      tb ← db !! name;
      let id := tb.(sequence) + 1 in
      Some ([], id, <[name := mkState tb.(columns)
        (<[identifier := number id]> (list_to_map (zip cols vs)) :: tb.(table_rows)) id]> db)
  | Update name l cs =>
      tb ← db !! name;
      Some ([], 0, <[name := mkState tb.(columns)
        (map (fun r => if satisfies cs r then list_to_map l ∪ r else r) tb.(table_rows)) tb.(sequence)]> db)
  end.

Definition number_value (w : list Z) : Z :=
  match w with c :: r => if c =? ch "-" then - digits_value r else digits_value w | [] => 0 end.

#[local] Instance reading_engine : Sqlite3 := {|
  sq_db := gmap (list Z) table_state;
  sq_open := fun _ => true;
  sq_run := fun text bs db => st ← read_statement (lex [] text); execute (fill_sql st bs) db;
  column_int := fun v => match v with NumV w => int_of_size (number_value w) | _ => 0 end;
  column_int64 := fun v => match v with NumV w => number_value w | _ => 0 end;
  column_double := fun v => match v with RealV f => f | _ => Finite false 0 0 end;
  column_text := fun v => match v with TextV t => Some t | NumV w => Some w | _ => None end
|}.

Lemma number_value_spec n : number_value (sprintf_d n) = n.
Proof.
  unfold sprintf_d. destruct (n <? 0) eqn:E.
  - cbn [number_value]. rewrite Z.eqb_refl. destruct (natural_spec (- n)) as [-> _]; lia.
  - destruct (natural_spec n) as [Hv Hd]; [lia|]. pose proof (natural_nonempty n) as Hne. unfold number_value.
    destruct (natural n) as [|c l]; [done|]. apply Forall_cons in Hd as [Hc _].
    assert ((c =? ch "-") = false) as -> by (change (ch "-") with 45; lia). done.
Qed.

Lemma run_prepared (text : list Z) (ps : list Variant) (db : gmap (list Z) table_state) (st : sql value) :
  prepared text ps = Some st -> (st ← read_statement (lex [] text); execute (fill_sql st (bindings ps)) db) = execute st db.
Proof. unfold prepared. destruct (read_statement (lex [] text)); [|done]. cbn. by intros [= ->]. Qed.

Lemma satisfies_identified (n : Z) (r : row) : satisfies (with_identifier n) r = identified n r.
Proof. unfold satisfies, with_identifier, identified, number. cbn [forallb]. by rewrite andb_true_r. Qed.

#[local] Instance reading_laws : Sqlite3Laws.
Proof.
  refine (mkLaws reading_engine (fun (db : gmap (list Z) table_state) name => db !! name) _ _ _ _ _ _).
  - done.
  - intros n _. cbn [column_int reading_engine number]. by rewrite number_value_spec.
  - done.
  - intros text ps db cols name cs tb Hp Ht _ _. cbn [sq_run reading_engine]. rewrite (run_prepared _ _ _ _ Hp).
    cbn [execute]. rewrite Ht. by eexists _, _.
  - intros text ps db cols vs name tb Hp Ht _ _ _ _. cbn [sq_run reading_engine]. rewrite (run_prepared _ _ _ _ Hp).
    cbn [execute]. rewrite Ht. eexists _, _. split; [done|]. split; [apply lookup_insert_eq|]. split; [done|].
    intros other Ho. by apply lookup_insert_ne.
  - intros text ps db l name n tb Hp Ht _ _. cbn [sq_run reading_engine]. rewrite (run_prepared _ _ _ _ Hp).
    cbn [execute]. rewrite Ht. eexists _, _, _. split; [done|]. split; [apply lookup_insert_eq|]. split.
    + erewrite map_ext; [done|]. intros r. cbn beta. by rewrite satisfies_identified.
    + intros other Ho. by apply lookup_insert_ne.
Defined.

(** ** A concrete run *)

Definition sample_kv_table : Table := mkTable (bytes_of "KeyValue") KeyValue_fields (Finite false 1 0).

Definition empty_table : gmap (list Z) table_state :=
  {[ bytes_of "KeyValue" := mkState [identifier; key_name; value_name] [] 0 ]}.

Definition empty_store : sq_db * mailbox := (empty_table, mkMailbox [] None).

Definition sample_database : database (eng := SQLite_engine) := mkDatabase empty_store [] false false 0 [].

(** A quote in the key, a value that is replaced while the statement is still
    queued, a value with a NUL, and a key that is never set. *)
Definition sample_kv : list kv_call :=
  [KvGet (bytes_of "it's"); KvSet false (bytes_of "it's") (bytes_of "one"); KvGet (bytes_of "it's");
   KvSet false (bytes_of "it's") (bytes_of "two"); KvSet true (bytes_of "k") [97; 0; 98]; KvGet (bytes_of "it's"); KvTimer;
   KvGet (bytes_of "k"); KvGet (bytes_of "none")].

Lemma keyvalue_is_a_map_witness :
  wp strict (kv_run sample_kv_table sample_kv)
    (fun vs d' => vs = [[]; bytes_of "one"; bytes_of "two"; bytes_of "a"; []]) (fun _ => False) sample_database.
Proof.
  eapply wp_mono with (E := fun _ => False);
    [apply (keyvalue_is_a_map sample_kv_table empty_store sample_kv 0 (fun _ => []) [] sample_database)| |].
  - split; reflexivity.
  - constructor; try reflexivity; try discriminate. intros Hq. contradiction Hq. reflexivity.
  - exists []. split; [|reflexivity]. exists (mkState [identifier; key_name; value_name] [] 0).
    split; [reflexivity|]. split; [reflexivity|]. split; [reflexivity|]. split; [reflexivity|].
    constructor; [apply NoDup_nil_2|apply NoDup_nil_2|apply Forall_nil_2].
  - lia.
  - vm_compute. intros E. discriminate E.
  - intros vs d' [H _]. rewrite H. reflexivity.
  - intros s H. exact H.
Defined.

(** ** Results that are out of date *)

Lemma append_value_keeps v q q' :
  append_value v q = Some q' -> q'.(q_changed) = q.(q_changed) /\ q'.(q_results) = q.(q_results).
Proof.
  unfold append_value. destruct v as [| | | | | |s]; try (destruct (str _); cbn; [|done]); intros [= <-]; done.
Qed.

Lemma append_values_keep vs : forall first q q',
  append_values first vs q = Some q' -> q'.(q_changed) = q.(q_changed) /\ q'.(q_results) = q.(q_results).
Proof.
  induction vs as [|v vs IH]; intros first q q' E; cbn in E; [by injection E as <-|].
  destruct (append_value v _) as [q2|] eqn:E2; [|done]. cbn in E. apply append_value_keeps in E2 as [H1 H2].
  destruct (IH _ _ _ E) as [-> ->]. rewrite H1, H2. by destruct first.
Qed.

Lemma in_array_keeps n vs q q' :
  in_array n vs q = Some q' -> q'.(q_changed) = q.(q_changed) /\ q'.(q_results) = q.(q_results).
Proof.
  unfold in_array. destruct (append_values _ _ _) as [q1|] eqn:E; [|done]. cbn. intros [= <-].
  exact (append_values_keep _ _ _ _ E).
Qed.

(** The results of a query are kept: after [res] neither [in] nor an order, a
    limit or an offset makes it look again, so that the next call of [res] returns
    the objects of the old query; only a comparison does. *)
Theorem results_are_kept `{Sqlite3} (q q' : SQLQuery) (calls : list query_call) (d : database) :
  q.(q_changed) = false -> Forall (fun c => match c with CallCompare _ _ _ => False | _ => True end) calls ->
  perform_query_calls q calls = Some q' -> res q' d = Ret q' d /\ q'.(q_results) = q.(q_results).
Proof.
  intros Hq Hc Hp. assert (q'.(q_changed) = false /\ q'.(q_results) = q.(q_results)) as [H1 H2].
  { revert q Hq Hp. induction Hc as [|c calls Hc _ IH]; intros q Hq Hp; cbn in Hp; [by injection Hp as <-|].
    destruct (perform_query_call q c) as [q1|] eqn:E; [|done]. cbn in Hp.
    assert (q1.(q_changed) = q.(q_changed) /\ q1.(q_results) = q.(q_results)) as [K1 K2].
    { destruct c as [|n vs| | | | |]; [done|by eapply in_array_keeps|..]; by injection E as <-. }
    rewrite <- K2. apply IH; [congruence|done]. }
  unfold res. by rewrite H1.
Qed.

(** The first object is found; then a condition is added that it does not meet. *)
Definition stale_query : SQLQuery :=
  mkQuery sample_kv_table false true 0 (-1) [new_object sample_kv_table false] [] [] [].

Lemma results_are_kept_witness :
  exists q', perform_query_calls stale_query [CallIn key_name [VString (bytes_of "k")]] = Some q'
    /\ res q' sample_database = Ret q' sample_database
    /\ q'.(sql_sentence) = bytes_of " key in (?)" /\ q'.(q_results) = [new_object sample_kv_table false].
Proof.
  eexists. split; [reflexivity|].
  edestruct (results_are_kept stale_query) as [H1 H2].
  - reflexivity.
  - apply (Forall_singleton _ (CallIn key_name [VString (bytes_of "k")])). exact I.
  - reflexivity.
  - split; [exact H1|]. split; [reflexivity|exact H2].
Defined.
