(* ===== verification/LibraryContext.v ===== *)
(** * The libraries of the application ([LibraryContext.cpp], [GitLibrary.h])

    A library is described by a YAML body whose token is a signature over the
    previous token and the address of the library, so that the bodies of a
    list can only be accepted in the order in which they were signed.  The
    context keeps the accepted libraries in an array of shared objects and in
    a table of the database.

    The signature scheme and the table are used through interfaces: the
    theorems hold for every implementation of the former, and for every
    implementation of the latter that satisfies the laws of its interface. *)

From Stdlib Require Import ZArith Lia Ascii String.
From stdpp Require Import base list option strings gmap.
From S2P Require Import Prelude YamlData YamlParser YamlLevels AppYaml Sha256 Bit64 Sprintf.

#[local] Open Scope Z_scope.

(** ** The interfaces *)

(** The calls of secp256k1, with a context for verification.  The compact form
    of a signature is always 64 octets; its parsing stores a signature that
    does not verify when the octets are out of range. *)
Class Secp256k1 : Type := mkSecp {
  secp_pubkey : Type;
  secp_signature : Type;
  ec_pubkey_parse : list Z -> option secp_pubkey;
  ecdsa_signature_parse_compact : list Z -> secp_signature;
  ecdsa_verify : secp_signature -> list Z -> secp_pubkey -> bool
}.

(** A row of the table of libraries. *)
Record row : Type := mkRow {
  row_url : list Z;
  row_date : Z;
  row_icon : list Z;
  row_title : list Z;
  row_token : list Z
}.

(** The statements of SQL that the application issues for the table; they take
    effect in the order in which they are issued ([Database]).  An insertion is
    executed at once and yields the identifier of the row. *)
Class LibraryTable : Type := mkTable {
  table : Type;
  insert_row : row -> table -> Z * table;
  update_row : Z -> row -> table -> table;
  delete_row : Z -> table -> table
}.

Class LibraryTableLaws `{LibraryTable} : Type := mkTableLaws {
  rows : table -> gmap Z row;
  rows_insert : forall r t i t', insert_row r t = (i, t') ->
    rows t !! i = None /\ 0 < i /\ rows t' = <[i := r]> (rows t);
  rows_update : forall i r t, is_Some (rows t !! i) -> rows (update_row i r t) = <[i := r]> (rows t);
  rows_delete : forall i t, rows (delete_row i t) = delete i (rows t)
}.

(** AUTOINCREMENT: a new row gets the number after the largest one that the
    table has ever had. *)
Class LibrarySequence `{laws : LibraryTableLaws} : Type := mkSequence {
  sequence : table -> Z;
  sequence_rows : forall t i, is_Some (rows t !! i) -> i <= sequence t;
  sequence_insert : forall r t i t', insert_row r t = (i, t') -> i = sequence t + 1 /\ sequence t' = i;
  sequence_update : forall i r t, sequence (update_row i r t) = sequence t;
  sequence_delete : forall i t, sequence (delete_row i t) = sequence t
}.

(** ** The objects *)

Record GitLibrary : Type := mkLib {
  identifier : Z;
  lib_url : list Z;
  lib_date : Z;
  lib_icon : list Z;
  lib_title : list Z;
  lib_token : list Z;
  changed : bool
}.

(** [new GitLibrary]: [date] and [changed] are not initialised. *)
Definition new_library (junk_date : Z) (junk_changed : bool) : GitLibrary :=
  mkLib (-1) [] junk_date [] [] [] junk_changed.

(** The setters note a change only when there is one. *)
Definition setIdentifier (i : Z) (l : GitLibrary) : GitLibrary :=
  if l.(identifier) =? i then l
  else mkLib i l.(lib_url) l.(lib_date) l.(lib_icon) l.(lib_title) l.(lib_token) true.
Definition setUrl (s : list Z) (l : GitLibrary) : GitLibrary :=
  if bool_decide (l.(lib_url) = s) then l
  else mkLib l.(identifier) s l.(lib_date) l.(lib_icon) l.(lib_title) l.(lib_token) true.
Definition setDate (d : Z) (l : GitLibrary) : GitLibrary :=
  if l.(lib_date) =? d then l
  else mkLib l.(identifier) l.(lib_url) d l.(lib_icon) l.(lib_title) l.(lib_token) true.
Definition setIcon (s : list Z) (l : GitLibrary) : GitLibrary :=
  if bool_decide (l.(lib_icon) = s) then l
  else mkLib l.(identifier) l.(lib_url) l.(lib_date) s l.(lib_title) l.(lib_token) true.
Definition setTitle (s : list Z) (l : GitLibrary) : GitLibrary :=
  if bool_decide (l.(lib_title) = s) then l
  else mkLib l.(identifier) l.(lib_url) l.(lib_date) l.(lib_icon) s l.(lib_token) true.
Definition setToken (s : list Z) (l : GitLibrary) : GitLibrary :=
  if bool_decide (l.(lib_token) = s) then l
  else mkLib l.(identifier) l.(lib_url) l.(lib_date) l.(lib_icon) l.(lib_title) s true.

(** The parameters of a statement are bound up to their first NUL. *)
Definition row_of (l : GitLibrary) : row :=
  mkRow (cstr l.(lib_url)) l.(lib_date) (cstr l.(lib_icon)) (cstr l.(lib_title)) (cstr l.(lib_token)).

(** ** The array of the object system *)

(** [_Array::remove] on an array of references without a listener; iterators
    are positions.  [_e] is taken before the loop, and a position at or beyond
    the current end has no element to compare. *)
Definition remove_turn (var e it : nat) : prog (list nat) (nat + unit) :=
  if bool_decide (it = e) then mret (inr tt)
  else
    o ← gets (fun l : list nat => l !! it);
    x ← deref o;
    if bool_decide (var = x) then modify (delete it);; mret (inl (it + 1)%nat)
    else mret (inl (it + 2)%nat).

Definition Array_remove (var : nat) : prog (list nat) unit :=
  e ← gets (length (A := nat));
  loop (S e) (remove_turn var e) 0%nat.

(** ** The context *)

Definition public_key : list Z :=
  [2; 169; 116; 121; 28; 94; 121; 148; 224; 164; 101; 4; 129; 150; 179; 221; 230; 79; 31; 104; 57; 165;
   189; 188; 150; 139; 234; 217; 84; 155; 201; 149; 10].

Section context.
Context `{secp : Secp256k1} `{tbl : LibraryTable}.

(** The objects of the heap by their number, the array [data] of references to
    them, [token], the alphabet of [bit64], and the table. *)
Record library_context : Type := mkContext {
  objects : list GitLibrary;
  data : list nat;
  token : list Z;
  alphabet : bit64_map_t;
  db : table
}.

Definition lib_prog : Type -> Type := prog library_context.

Definition set_objects o (s : library_context) := mkContext o s.(data) s.(token) s.(alphabet) s.(db).
Definition set_data d (s : library_context) := mkContext s.(objects) d s.(token) s.(alphabet) s.(db).
Definition set_token t (s : library_context) := mkContext s.(objects) s.(data) t s.(alphabet) s.(db).
Definition set_alphabet m (s : library_context) := mkContext s.(objects) s.(data) s.(token) m s.(db).
Definition set_db t (s : library_context) := mkContext s.(objects) s.(data) s.(token) s.(alphabet) t.

(** A routine on a part of the state. *)
Definition zoom {S T A} (get : S -> T) (set : T -> S -> S) (p : prog T A) : prog S A := fun s =>
  match p (get s) with
  | Ret a t => Ret a (set t s)
  | Err t => Err (set t s)
  | Crash => Crash
  | Timeout => Timeout
  end.

(** A routine on a local object. *)
Definition local {S T A} (c : T) (p : prog T A) : prog S (A * T) := fun s =>
  match p c with
  | Ret a t => Ret (a, t) s
  | Err t => Err s
  | Crash => Crash
  | Timeout => Timeout
  end.

(** *** Objects *)

Definition get_library (i : nat) : lib_prog GitLibrary := o ← gets (fun s => s.(objects) !! i); deref o.

Definition on_library (i : nat) (f : GitLibrary -> GitLibrary) : lib_prog unit :=
  l ← get_library i; modify (fun s => set_objects (<[i := f l]> s.(objects)) s).

(** [data->push_back(new GitLibrary)]. *)
Definition push_library (l : GitLibrary) : lib_prog nat :=
  i ← gets (fun s => length s.(objects));
  modify (fun s => set_data (s.(data) ++ [i]) (set_objects (s.(objects) ++ [l]) s));;
  mret i.

(** [SQLite::update]: the date goes through [char str[20]], the identifier
    through [char istr[10]]; the identifier of a new row is converted to an
    [int]. *)
Definition update (i : nat) : lib_prog unit :=
  l ← get_library i;
  deref (sprintf_into 20 (sprintf_d l.(lib_date)));;
  if l.(identifier) =? -1 then
    p ← gets (fun s => insert_row (row_of l) s.(db));
    modify (set_db p.2);;
    on_library i (setIdentifier (int_of_size p.1))
  else
    deref (sprintf_into 10 (sprintf_d l.(identifier)));;
    modify (fun s => set_db (update_row l.(identifier) (row_of l) s.(db)) s).

Definition save (i : nat) : lib_prog unit :=
  l ← get_library i;
  if l.(changed) then update i else mret tt.

(** [SQLite::remove], which is all that [Model::remove] does; the identifier
    goes through [char istr[10]]. *)
Definition remove (i : nat) : lib_prog unit :=
  l ← get_library i;
  deref (sprintf_into 10 (sprintf_d l.(identifier)));;
  modify (fun s => set_db (delete_row l.(identifier) s.(db)) s);;
  on_library i (setIdentifier (-1)).

(** *** The operations *)

Fixpoint find_in (url : list Z) (ids : list nat) : lib_prog (option nat) :=
  match ids with
  | [] => mret None
  | i :: r =>
      l ← get_library i;
      if bool_decide (l.(lib_url) = url) then mret (Some i) else find_in url r
  end.

Definition find (url : list Z) : lib_prog (option nat) := ids ← gets data; find_in url ids.

(** [char_is_signed] as in [Bit64]; [junk] is the uninitialised
    [sha256_context] on the stack. *)
Definition isMatch (char_is_signed : bool) (junk : sha256_context) (tok url prev : list Z) : lib_prog bool :=
  let c := sha256_init junk in
  c ← (match prev with
       | [] => mret c
       | _ :: _ =>
           d ← zoom alphabet set_alphabet
                 (bit64_decode char_is_signed prev (bit64_decode_size (Z.of_nat (length prev))));
           x ← local c (sha256_hash d (u32 (Z.of_nat (length d))));
           mret x.2
       end);
  x ← local c (sha256_hash url (u32 (Z.of_nat (length url))));
  let sha256_res := (sha256_done x.2).1 in
  match ec_pubkey_parse public_key with
  | None => mret false
  | Some pubkey =>
      let dec_size := bit64_decode_size (Z.of_nat (length tok)) in
      if negb (dec_size =? 64) && negb (dec_size =? 65) then mret false
      else
        buf ← zoom alphabet set_alphabet (bit64_decode char_is_signed tok dec_size);
        if negb (Z.of_nat (length buf) =? 64) then mret false
        else mret (ecdsa_verify (ecdsa_signature_parse_compact buf) sha256_res pubkey)
  end.

(** What a call finds outside of the context: uninitialised memory and the time. *)
Record surroundings : Type := mkSurroundings {
  sr_signed : bool;
  sr_sha : sha256_context;
  sr_date : Z;
  sr_changed : bool;
  sr_now : Z
}.

(** [yaml::parse(body)], with [fuel] for the parser and [n] turns for its loops. *)
Definition parse_body (fuel n : nat) (body : list Z) : lib_prog yaml := fun s =>
  match yaml_parse (src := scanner_source) fuel n body with
  | Ret y _ => Ret y s
  | Err _ => Err s
  | Crash => Crash
  | Timeout => Timeout
  end.

(** The found library, or a new one in [data]. *)
Definition find_or_new (sr : surroundings) (url : list Z) (init : GitLibrary -> GitLibrary) : lib_prog nat :=
  o ← find url;
  match o with
  | Some i => mret i
  | None => push_library (init (new_library sr.(sr_date) sr.(sr_changed)))
  end.

Definition field (key : string) (y : yaml) : yaml := yaml_get (bytes_of key) y.

(** [parseLibrary] from the parsed body on. *)
Definition accept_library (sr : surroundings) (y_data : yaml) : lib_prog bool :=
  if is_map y_data then
    let tok := yaml_string (field "token" y_data) in
    let url := yaml_string (field "src" y_data) in
    if bool_decide (url = []) || bool_decide (tok = []) then mret false
    else
      prev ← gets token;
      ok ← isMatch sr.(sr_signed) sr.(sr_sha) tok url prev;
      if (ok : bool) then
        modify (set_token tok);;
        (if negb (yaml_bool (field "ignore" y_data)) then
           i ← find_or_new sr url id;
           on_library i (setTitle (yaml_string (field "title" y_data)));;
           on_library i (setDate sr.(sr_now));;
           on_library i (setUrl url);;
           on_library i (setIcon (yaml_string (field "icon" y_data)));;
           on_library i (setToken tok);;
           save i
         else mret tt);;
        mret true
      else mret false
  else mret false.

Definition parseLibrary (sr : surroundings) (fuel n : nat) (body : list Z) : lib_prog bool :=
  y_data ← parse_body fuel n body;
  accept_library sr y_data.

Definition insertLibrary (sr : surroundings) (url : list Z) : lib_prog bool :=
  i ← find_or_new sr url (setUrl url);
  on_library i (setDate sr.(sr_now));;
  save i;;
  mret true.

Definition remove_library_turn (url : list Z) (k : nat) : lib_prog (nat + bool) :=
  o ← gets (fun s => s.(data) !! k);
  match o with
  | None => mret (inr false)
  | Some i =>
      l ← get_library i;
      if bool_decide (l.(lib_url) = url) then
        zoom data set_data (Array_remove i);;
        remove i;;
        mret (inr true)
      else mret (inl (S k))
  end.

Definition removeLibrary (url : list Z) : lib_prog bool :=
  n ← gets (fun s => length s.(data));
  loop (S n) (remove_library_turn url) 0%nat.

Definition reset : lib_prog unit := modify (set_token []).
End context.

Arguments library_context {tbl}.
