(* ===== verification/LibraryStore.v ===== *)
(** * Libraries: signatures, objects and the table

    [isMatch] against a reference definition of a signed address, the entries
    that an array of references shows, the rows that [save] keeps in the table,
    and the removal of a library. *)

From Stdlib Require Import ZArith Lia Ascii String.
From stdpp Require Import base list option strings gmap.
From S2P Require Import Prelude YamlData YamlParser YamlLevels AppYaml Sha256 Sha256Spec Sha256Total.
From S2P Require Import Bit64 Bit64Codec Sprintf LibraryContext.

#[local] Open Scope Z_scope.
#[local] Strategy opaque [bit64_makeIndex].

(** ** Rules *)

Lemma wp_strict {S A} F (p : prog S A) Q E s : wp strict p Q E s -> wp F p Q E s.
Proof. unfold wp. by destruct (p s). Qed.

Lemma wp_zoom {S T A} F (get : S -> T) set (p : prog T A) Q E s :
  wp F p (fun a t => Q a (set t s)) (fun t => E (set t s)) (get s) -> wp F (zoom get set p) Q E s.
Proof. unfold wp, zoom. by destruct (p (get s)). Qed.

Lemma wp_local {S T A} F (c : T) (p : prog T A) Q E (s : S) :
  wp F p (fun a t => Q (a, t) s) (fun _ => E s) c -> wp F (local c p) Q E s.
Proof. unfold wp, local. by destruct (p c). Qed.

(** ** Signatures *)

Section signatures.
Context `{secp : Secp256k1} `{tbl : LibraryTable}.

(** The token decodes to 64 octets that are a signature, by the key of the
    application, of the digest of what the previous token decodes to and the
    address. *)
Definition signed_by_key (tok url prev : list Z) : bool :=
  match ec_pubkey_parse public_key with
  | None => false
  | Some key =>
      (Z.of_nat (length (decoded tok)) =? 64)
      && ecdsa_verify (ecdsa_signature_parse_compact (decoded tok)) (sha256_std (decoded prev ++ url)) key
  end.

Definition sha_ok (c : sha256_context) : Prop := length c.(buf) = 16%nat /\ Forall w32 c.(buf).

Definition url_ok (url : list Z) : Prop := Forall octet url /\ Z.of_nat (length url) < 2^32.

Lemma wp_hash_local F (m d : list Z) c (Q : unit * sha256_context -> library_context -> Prop) E s :
  Forall octet d -> Z.of_nat (length d) < 2^32 -> absorbed m c -> counted (Z.of_nat (length m)) c ->
  (forall c', absorbed (m ++ d) c' -> counted (Z.of_nat (length (m ++ d))) c' -> Q (tt, c') s) ->
  wp F (local c (sha256_hash d (u32 (Z.of_nat (length d))))) Q E s.
Proof.
  intros Ho Hl Ha Hc HQ. unfold u32. rewrite Z.mod_small by lia. apply wp_local, wp_strict.
  eapply wp_mono; [by apply (wp_sha256_hash m)| |done]. cbv beta. intros [] c' [H1 H2]. by apply HQ.
Qed.

Lemma decoded_nil : decoded [] = [].
Proof. reflexivity. Qed.

(** A text decodes to 64 octets only if the size computed from its length is 64
    or 65: the test of the size refuses nothing more. *)
Lemma size_test F signed tok :
  readable F signed tok -> Z.of_nat (length (decoded tok)) = 64 ->
  bit64_decode_size (Z.of_nat (length tok)) = 64 \/ bit64_decode_size (Z.of_nat (length tok)) = 65.
Proof.
  intros [Hc Hl] H64. rewrite decode_size_small by lia.
  assert (Forall octet tok) as Ho by (eapply Forall_impl; [exact Hc|]; by intros ? [? _]).
  pose proof (decoded_length tok Ho) as Hd. rewrite H64 in Hd. unfold decoded_room in *.
  set (k := Z.of_nat (length tok)) in *.
  pose proof (Z.div_mod (6 * k) 8 ltac:(lia)). pose proof (Z.mod_pos_bound (6 * k) 8 ltac:(lia)).
  pose proof (Z.div_mod (6 * k + 7) 8 ltac:(lia)). pose proof (Z.mod_pos_bound (6 * k + 7) 8 ltac:(lia)). lia.
Qed.

Lemma wp_isMatch F sg junk tok url prev (s : library_context) (Q : bool -> library_context -> Prop) E :
  map_ok s.(alphabet) -> sha_ok junk -> readable F sg tok -> readable F sg prev -> url_ok url ->
  (forall m, map_ok m -> Q (signed_by_key tok url prev) (set_alphabet m s)) ->
  wp F (isMatch sg junk tok url prev) Q E s.
Proof.
  intros Hm [Hb Hw] Ht Hp [Hu Hlu] HQ. destruct (absorbed_init junk Hb Hw) as [Ha Hc].
  assert (Z.of_nat (length (decoded prev)) < 2^32) as Hlp.
  { destruct Hp as [Hp Hl]. pose proof (decoded_length prev) as Hd. destruct Hd as [_ Hd].
    { eapply Forall_impl; [exact Hp|]. by intros ? [? _]. }
    assert (decoded_room (Z.of_nat (length prev)) < 2^32); [|lia]. apply Z.div_lt_upper_bound; lia. }
  unfold isMatch. wp_step.
  match goal with |- wp _ _ ?K _ _ => assert (forall c m, map_ok m -> absorbed (decoded prev) c ->
    counted (Z.of_nat (length (decoded prev))) c -> K c (set_alphabet m s)) as Hrest end.
  - clear Hm. intros c m Hm Hac Hcc. wp_step. apply (wp_hash_local F (decoded prev)); [done..|].
    intros c' Hac' Hcc'. cbn [snd].
    assert (Z.of_nat (length (decoded prev ++ url)) < 2^61) as Hn by (rewrite length_app; lia).
    destruct (done_spec _ _ Hac' Hcc' Hn) as [-> _].
    unfold signed_by_key in HQ. destruct (ec_pubkey_parse public_key) as [key|]; [|wp_step; by apply HQ].
    destruct (negb (bit64_decode_size (Z.of_nat (length tok)) =? 64)
      && negb (bit64_decode_size (Z.of_nat (length tok)) =? 65)) eqn:Esz.
    + wp_step. replace false with ((Z.of_nat (length (decoded tok)) =? 64)
        && ecdsa_verify (ecdsa_signature_parse_compact (decoded tok)) (sha256_std (decoded prev ++ url)) key);
        [by apply HQ|].
      apply andb_false_iff. left. apply Z.eqb_neq. intros H64. apply size_test with (1 := Ht) in H64. lia.
    + wp_step. apply wp_zoom. cbn [alphabet set_alphabet]. apply wp_decoded; [done|done|].
      intros m' Hm' _. change (set_alphabet m' (set_alphabet m s)) with (set_alphabet m' s).
      specialize (HQ m' Hm'). destruct (Z.of_nat (length (decoded tok)) =? 64); cbn [negb]; wp_step; exact HQ.
  - clear HQ. destruct prev as [|b prev].
    + wp_step. rewrite decoded_nil in Hrest. replace s with (set_alphabet s.(alphabet) s) by (by destruct s).
      by apply Hrest.
    + wp_step. apply wp_zoom. apply wp_decoded; [done|done|]. intros m Hm' Hdo. wp_step.
      apply (wp_hash_local F []); [done..|]. cbn [app]. intros c Hac Hcc. wp_step. cbn [snd]. by apply Hrest.
Qed.
End signatures.

(** ** [_Array::remove] *)

Lemma remove_turn_eq var e it (l : list nat) :
  remove_turn var e it l =
    if bool_decide (it = e) then Ret (inr tt) l
    else match l !! it with
         | None => Crash
         | Some x => if bool_decide (var = x) then Ret (inl (it + 1)%nat) (delete it l) else Ret (inl (it + 2)%nat) l
         end.
Proof.
  unfold remove_turn. case_bool_decide; [done|]. unfold mbind, prog_bind. cbn. destruct (l !! it); [|done]. cbn.
  by case_bool_decide.
Qed.

(** The turns that find nothing: every second position from [it] on, up to the
    end taken before the loop, which is the present one or the one after it. *)
Lemma remove_nothing var e (l : list nat) fuel it :
  (length l <= e <= length l + 1)%nat -> (forall k, l !! (it + 2 * k)%nat <> Some var) ->
  (e + 1 <= fuel + it)%nat -> (0 < fuel)%nat ->
  loop fuel (remove_turn var e) it l
  = if (it <=? e)%nat && Nat.even (e - it) then Ret tt l else Crash.
Proof.
  intros Hl. revert it. induction fuel as [|fuel IH]; intros it Hk He Hf; [lia|].
  cbn [loop]. unfold mbind, prog_bind. rewrite remove_turn_eq. case_bool_decide as Hit.
  { subst it. rewrite Nat.leb_refl, Nat.sub_diag. done. }
  pose proof (Hk 0%nat) as Hk0. rewrite Nat.mul_0_r, Nat.add_0_r in Hk0.
  destruct (l !! it) as [x|] eqn:Ex.
  - assert (it < length l)%nat as Hlt by (by eapply lookup_lt_Some). rewrite bool_decide_false by congruence.
    rewrite IH by (try lia; intros k; replace (it + 2 + 2 * k)%nat with (it + 2 * S k)%nat by lia; apply Hk).
    destruct (Nat.eq_dec e (S it)) as [-> | Hne].
    + assert ((it + 2 <=? S it)%nat = false) as -> by (apply Nat.leb_gt; lia).
      replace (S it - it)%nat with 1%nat by lia. by rewrite andb_false_r.
    + assert ((it + 2 <=? e)%nat = true) as -> by (apply Nat.leb_le; lia).
      assert ((it <=? e)%nat = true) as -> by (apply Nat.leb_le; lia).
      by replace (e - it)%nat with (S (S (e - (it + 2)))) by lia.
  - assert (length l <= it)%nat as Hge by (by apply lookup_ge_None).
    destruct (it <=? e)%nat eqn:E2; [|done]. apply Nat.leb_le in E2.
    by replace (e - it)%nat with 1%nat by lia.
Qed.

(** The turns before the element. *)
Lemma remove_skips var e (l : list nat) fuel it p :
  NoDup l -> l !! p = Some var -> length l = e -> forall j, (it + 2 * j = p)%nat ->
  loop (fuel + j) (remove_turn var e) it l = loop fuel (remove_turn var e) p l.
Proof.
  intros Hnd Hp He j. revert it. induction j as [|j IH]; intros it Hj.
  { replace it with p by lia. by rewrite Nat.add_0_r. }
  rewrite Nat.add_succ_r. cbn [loop]. unfold mbind, prog_bind. rewrite remove_turn_eq.
  assert (p < e)%nat by (subst e; by eapply lookup_lt_Some). rewrite bool_decide_false by lia.
  destruct (lookup_lt_is_Some_2 l it) as [x Hx]; [lia|]. rewrite Hx.
  rewrite bool_decide_false; [|intros ->; pose proof (NoDup_lookup l it p x Hnd Hx Hp); lia]. apply IH. lia.
Qed.

(** The loop advances twice where nothing matches and compares with the end it
    started with, so it is right only for an element at an even position of an
    array of odd length. *)
Lemma Array_remove_spec (l : list nat) p var :
  NoDup l -> l !! p = Some var ->
  Array_remove var l =
    if Nat.even p then (if Nat.odd (length l) then Ret tt (delete p l) else Crash)
    else (if Nat.even (length l) then Ret tt l else Crash).
Proof.
  intros Hnd Hp. assert (p < length l)%nat as Hlt by (by eapply lookup_lt_Some).
  unfold Array_remove. unfold mbind, prog_bind. cbn [gets]. destruct (Nat.even p) eqn:Ep.
  - pose proof Ep as Ej. apply Nat.even_spec in Ej as [j Hj].
    replace (S (length l)) with (S (length l - j) + j)%nat by lia.
    rewrite (remove_skips var (length l) l _ 0 p) by (done || lia).
    cbn [loop]. unfold mbind, prog_bind. rewrite remove_turn_eq. rewrite bool_decide_false by lia.
    rewrite Hp, bool_decide_true by done.
    assert (length (delete p l) = length l - 1)%nat as Hd by (apply length_delete; eauto).
    assert (forall k, delete p l !! (p + 1 + 2 * k)%nat <> Some var) as Hk.
    { intros k Hk. rewrite list_lookup_delete_ge in Hk by lia. pose proof (NoDup_lookup l _ _ var Hnd Hk Hp). lia. }
    etransitivity; [apply (remove_nothing var (length l) (delete p l)); [lia|exact Hk|lia|lia]|].
    assert ((p + 1 <=? length l)%nat = true) as -> by (apply Nat.leb_le; lia). cbn [andb].
    replace (Nat.even (length l - (p + 1))) with (Nat.odd (length l)); [done|].
    rewrite Nat.even_sub, Nat.even_add, Ep by lia. rewrite <- Nat.negb_even. by destruct (Nat.even (length l)).
  - rewrite remove_nothing; [|lia| |lia|lia].
    + cbn [Nat.leb andb]. by rewrite Nat.sub_0_r.
    + intros k Hk. pose proof (NoDup_lookup l _ _ var Hnd Hk Hp) as <-. rewrite Nat.add_0_l in Ep.
      by rewrite Nat.even_mul in Ep.
Qed.

(** ** The abstract shelf *)

(** The visible fields of a library, and those of a list of references. *)
Definition entry_of (l : GitLibrary) : row :=
  mkRow l.(lib_url) l.(lib_date) l.(lib_icon) l.(lib_title) l.(lib_token).
Definition entries_of (objs : list GitLibrary) (ids : list nat) : list row :=
  omap (fun i => entry_of <$> objs !! i) ids.

Definition has_url (url : list Z) (e : row) : Prop := e.(row_url) = url.
#[export] Instance has_url_dec url e : Decision (has_url url e).
Proof. unfold has_url. apply _. Defined.

(** The first entry with the address is replaced; without one, an entry is added. *)
Definition upsert (url : list Z) (f : option row -> row) (es : list row) : list row :=
  match list_find (has_url url) es with
  | Some (k, e) => <[k := f (Some e)]> es
  | None => es ++ [f None]
  end.

Lemma upsert_urls url f es :
  (forall o, (f o).(row_url) = url) -> NoDup (map row_url es) -> NoDup (map row_url (upsert url f es)).
Proof.
  intros Hf Hnd. unfold upsert. destruct (list_find (has_url url) es) as [[k e]|] eqn:El.
  - apply list_find_Some in El as (Hk & <- & _).
    change (map row_url (<[k := f (Some e)]> es)) with (row_url <$> <[k := f (Some e)]> es).
    rewrite list_fmap_insert, Hf, list_insert_id; [done|]. by rewrite list_lookup_fmap, Hk.
  - apply list_find_None in El. rewrite map_app, NoDup_app. split_and!; [done| |apply NoDup_singleton].
    intros u Hu. cbn. rewrite Hf, list_elem_of_singleton. intros ->.
    apply list_elem_of_fmap in Hu as (e & He & Hin). rewrite Forall_forall in El. by apply (El e Hin).
Qed.

Lemma entries_live objs ids :
  Forall (fun i => is_Some (objs !! i)) ids -> Forall2 (fun i e => entry_of <$> objs !! i = Some e) ids (entries_of objs ids).
Proof.
  induction 1 as [|i ids [l Hl] _ IH]; [constructor|]. cbn. rewrite Hl. cbn. constructor; [by rewrite Hl|done].
Qed.

Lemma entries_lookup objs ids k i l :
  Forall (fun i => is_Some (objs !! i)) ids -> ids !! k = Some i -> objs !! i = Some l ->
  entries_of objs ids !! k = Some (entry_of l).
Proof.
  intros Hf%entries_live Hk Hl. destruct (Forall2_lookup_l _ _ _ _ _ Hf Hk) as (e & He & Hee).
  rewrite Hl in Hee. cbn in Hee. congruence.
Qed.

Lemma entries_insert objs ids k i l :
  NoDup ids -> Forall (fun i => is_Some (objs !! i)) ids -> ids !! k = Some i ->
  entries_of (<[i := l]> objs) ids = <[k := entry_of l]> (entries_of objs ids).
Proof.
  intros Hnd Hf Hk. assert (Forall (fun j => is_Some (<[i := l]> objs !! j)) ids) as Hf'.
  { eapply Forall_impl; [exact Hf|]. intros j. by rewrite !lookup_lt_is_Some, length_insert. }
  pose proof (Forall2_length _ _ _ (entries_live objs ids Hf)) as Hlen.
  pose proof (Forall2_length _ _ _ (entries_live _ ids Hf')) as Hlen'.
  apply list_eq_same_length with (n := length ids); [by rewrite length_insert|lia|].
  intros j x y Hj Hx Hy. destruct (lookup_lt_is_Some_2 ids j Hj) as [i' Hi'].
  assert (is_Some (objs !! i')) as [l' Hl'] by (rewrite Forall_lookup in Hf; by eapply Hf).
  destruct (decide (i' = i)) as [-> | Hne].
  - assert (j = k) as -> by (by eapply NoDup_lookup). rewrite list_lookup_insert_eq in Hy by lia.
    rewrite (entries_lookup _ _ k i l Hf' Hk) in Hx; [congruence|].
    apply list_lookup_insert_eq. by eapply lookup_lt_Some.
  - rewrite list_lookup_insert_ne in Hy by (intros ->; congruence).
    rewrite (entries_lookup _ _ j i' l' Hf' Hi') in Hx by (by rewrite list_lookup_insert_ne).
    rewrite (entries_lookup _ _ j i' l' Hf Hi' Hl') in Hy. congruence.
Qed.

Lemma entries_push objs ids l :
  Forall (fun i => is_Some (objs !! i)) ids ->
  entries_of (objs ++ [l]) (ids ++ [length objs]) = entries_of objs ids ++ [entry_of l].
Proof.
  induction 1 as [|i ids [x Hx] _ IH].
  - cbn. by rewrite lookup_app_r, Nat.sub_diag by done.
  - cbn. rewrite lookup_app_l by (by eapply lookup_lt_Some). rewrite Hx. cbn. f_equal. exact IH.
Qed.

Lemma entries_delete objs ids k :
  Forall (fun i => is_Some (objs !! i)) ids -> entries_of objs (delete k ids) = delete k (entries_of objs ids).
Proof.
  intros Hf. revert k. induction Hf as [|i ids [x Hx] _ IH]; intros k; [done|].
  destruct k as [|k]; cbn; rewrite Hx; cbn; [done|]. f_equal. apply IH.
Qed.

(** ** The table *)

(** What the setters do: nothing, or a change that is noted. *)
Definition touch (l l' : GitLibrary) : Prop :=
  l'.(identifier) = l.(identifier) /\ (l' = l \/ l'.(changed) = true).

#[export] Instance touch_preorder : PreOrder touch.
Proof.
  split; [by split; auto|]. intros l l1 l2 [H1 H2] [H3 H4]. split; [congruence|].
  destruct H4 as [-> | ]; [done|by right].
Qed.

Lemma touch_changed l l' : touch l l' -> l.(changed) = true -> l'.(changed) = true.
Proof. by intros [_ [-> | H]]. Qed.

Lemma touch_setUrl s l : touch l (setUrl s l).
Proof. unfold setUrl. case_bool_decide; split; auto. Qed.
Lemma touch_setDate d l : touch l (setDate d l).
Proof. unfold setDate. destruct (_ =? d); split; auto. Qed.
Lemma touch_setIcon s l : touch l (setIcon s l).
Proof. unfold setIcon. case_bool_decide; split; auto. Qed.
Lemma touch_setTitle s l : touch l (setTitle s l).
Proof. unfold setTitle. case_bool_decide; split; auto. Qed.
Lemma touch_setToken s l : touch l (setToken s l).
Proof. unfold setToken. case_bool_decide; split; auto. Qed.

Create HintDb library.
#[export] Hint Resolve touch_setUrl touch_setDate touch_setIcon touch_setTitle touch_setToken : library.

(** A number that fits its buffer is written. *)
Lemma wp_long {S} F n (Q : list Z -> S -> Prop) E s :
  long_fits n -> (forall x, Q x s) -> wp F (deref (sprintf_into 20 (sprintf_d n))) Q E s.
Proof. intros Hn HQ. pose proof (long_buffer n) as H. destruct (sprintf_into _ _); [by apply wp_ret|done]. Qed.

Lemma wp_identifier {S} F n (Q : list Z -> S -> Prop) E s :
  identifier_fits n -> (forall x, Q x s) -> wp F (deref (sprintf_into 10 (sprintf_d n))) Q E s.
Proof. intros Hn HQ. pose proof (identifier_buffer n) as H. destruct (sprintf_into _ _); [by apply wp_ret|done]. Qed.

#[export] Instance identifier_fits_dec n : Decision (identifier_fits n).
Proof. unfold identifier_fits. apply _. Defined.

Section table.
Context `{tbl : LibraryTable} {laws : LibraryTableLaws} {seq : LibrarySequence}.

(** The row of a library is what the library is. *)
Definition stored (t : table) (l : GitLibrary) : Prop :=
  0 < l.(identifier) /\ rows t !! l.(identifier) = Some (row_of l).

Definition live (s : library_context) : Prop := Forall (fun i => is_Some (s.(objects) !! i)) s.(data).

(** Every library but [i] has its own row. *)
Definition kept (but : nat -> Prop) (s : library_context) : Prop :=
  (forall j l, j ∈ s.(data) -> ~ but j -> s.(objects) !! j = Some l -> stored s.(db) l)
  /\ (forall j k lj lk, j ∈ s.(data) -> k ∈ s.(data) -> ~ but j -> ~ but k ->
        s.(objects) !! j = Some lj -> s.(objects) !! k = Some lk -> lj.(identifier) = lk.(identifier) -> j = k).

(** The library that is being edited. *)
Record draft (i : nat) (s : library_context) (l : GitLibrary) : Prop := mkDraft {
  dr_at : s.(objects) !! i = Some l;
  dr_kept : kept (eq i) s;
  dr_self : l.(identifier) = -1
    \/ (0 < l.(identifier) /\ is_Some (rows s.(db) !! l.(identifier))
        /\ (forall j lj, j ∈ s.(data) -> j <> i -> s.(objects) !! j = Some lj -> lj.(identifier) <> l.(identifier))
        /\ (l.(changed) = true \/ stored s.(db) l))
}.

Lemma set_objects_same s i l : s.(objects) !! i = Some l -> set_objects (<[i := l]> s.(objects)) s = s.
Proof. intros H. destruct s. cbn in *. by rewrite list_insert_id. Qed.

Lemma draft_edit i s l l' : draft i s l -> touch l l' -> draft i (set_objects (<[i := l']> s.(objects)) s) l'.
Proof.
  intros [H1 [H2 H2'] H3] [Hi Ht]. constructor; cbn [objects data db set_objects].
  - apply list_lookup_insert_eq. by eapply lookup_lt_Some.
  - split; cbn [objects data db set_objects].
    + intros j lj Hj Hne. rewrite list_lookup_insert_ne by done. by apply H2.
    + intros j k lj lk Hj Hk Hnj Hnk. rewrite !list_lookup_insert_ne by done. by apply H2'.
  - rewrite Hi. destruct H3 as [H3|(Hp & Hr & Hd & Hc)]; [by left|right]. split_and!; [done|done| |].
    + intros j lj Hj Hne. rewrite list_lookup_insert_ne by done. by apply Hd.
    + destruct Ht as [-> | ]; [done|by left].
Qed.

Lemma draft_found i s l : kept (fun _ => False) s -> i ∈ s.(data) -> s.(objects) !! i = Some l -> draft i s l.
Proof.
  intros [H1 H2] Hi Hl. constructor; [done|split; naive_solver|]. destruct (H1 i l Hi ltac:(tauto) Hl) as [Hp Hr].
  right. split_and!; [done|by eexists| |by right]. intros j lj Hj Hne Hlj Heq. apply Hne.
  by apply (H2 j i lj l); auto.
Qed.

Lemma draft_push s l :
  kept (fun _ => False) s -> live s -> l.(identifier) = -1 ->
  draft (length s.(objects)) (set_data (s.(data) ++ [length s.(objects)]) (set_objects (s.(objects) ++ [l]) s)) l.
Proof.
  intros [H1 H2] Hlive Hid.
  assert (forall j lj, j ∈ s.(data) ++ [length s.(objects)] -> ~ length s.(objects) = j ->
    (s.(objects) ++ [l]) !! j = Some lj -> j ∈ s.(data) /\ s.(objects) !! j = Some lj) as Hold.
  { intros j lj Hj Hne Hlj. apply elem_of_app in Hj as [Hj|Hj]; [|by apply list_elem_of_singleton in Hj].
    split; [done|]. destruct (proj1 (Forall_forall _ _) Hlive j Hj) as [x Hx].
    rewrite lookup_app_l in Hlj by (by eapply lookup_lt_Some). done. }
  constructor; cbn; [by rewrite lookup_app_r, Nat.sub_diag by done| |by left]. split; cbn.
  - intros j lj Hj Hne Hlj. destruct (Hold j lj Hj Hne Hlj). by apply (H1 j); auto.
  - intros j k lj lk Hj Hk Hnj Hnk Hlj Hlk. destruct (Hold j lj Hj Hnj Hlj), (Hold k lk Hk Hnk Hlk).
    apply (H2 j k); auto.
Qed.

(** A row has an identifier that fits, as long as the table has not given out
    larger ones. *)
Lemma row_identifier_fits t i :
  is_Some (rows t !! i) -> 0 < i -> sequence t < 10 ^ 9 -> identifier_fits i.
Proof. intros Hr%sequence_rows Hp Hs. unfold identifier_fits. lia. Qed.

(** [save] gives the library a row of its own. *)
Lemma wp_save F i s l (Q : unit -> library_context -> Prop) E :
  draft i s l -> (l.(identifier) = -1 -> l.(changed) = true) ->
  long_fits l.(lib_date) -> sequence s.(db) + 1 < 10 ^ 9 ->
  (forall l' t, entry_of l' = entry_of l -> sequence t <= sequence s.(db) + 1 ->
     let s' := set_db t (set_objects (<[i := l']> s.(objects)) s) in
     kept (fun _ => False) s' -> Q tt s') ->
  wp F (save i) Q E s.
Proof.
  intros [Hl [H1 H2] Hself] Hnew Hdate Hroom HQ. cbv zeta in HQ. unfold save, get_library. wp_step. wp_step. apply wp_gets.
  rewrite Hl. cbn [deref]. wp_step.
  assert (i < length s.(objects))%nat as Hi by (by eapply lookup_lt_Some).
  assert (forall l' t, entry_of l' = entry_of l -> sequence t <= sequence s.(db) + 1 -> stored t l' ->
    (forall j lj, j ∈ s.(data) -> j <> i -> s.(objects) !! j = Some lj ->
       stored t lj /\ lj.(identifier) <> l'.(identifier)) ->
    Q tt (set_db t (set_objects (<[i := l']> s.(objects)) s))) as Hend.
  { intros l' t He Hseq Hs Ho. apply HQ; [done|done|]. split; cbn.
    - intros j lj Hj _. destruct (decide (j = i)) as [-> | Hne].
      + rewrite list_lookup_insert_eq by done. intros [= <-]. done.
      + rewrite list_lookup_insert_ne by done. intros Hlj. by apply (Ho j).
    - intros j k lj lk Hj Hk _ _. destruct (decide (j = i)) as [-> | Hnj], (decide (k = i)) as [-> | Hnk]; [done|..].
      + rewrite list_lookup_insert_eq, list_lookup_insert_ne by done. intros [= <-] Hlk Heq.
        destruct (Ho k lk Hk Hnk Hlk). congruence.
      + rewrite list_lookup_insert_eq, list_lookup_insert_ne by done. intros Hlj [= <-] Heq.
        destruct (Ho j lj Hj Hnj Hlj). congruence.
      + rewrite !list_lookup_insert_ne by done. apply H2; auto. }
  destruct (changed l) eqn:Ec.
  - unfold update, get_library. wp_step. wp_step. apply wp_gets. rewrite Hl. cbn [deref]. wp_step. wp_step.
    apply wp_long; [done|]. intros _. destruct (identifier l =? -1) eqn:Eid.
    + apply Z.eqb_eq in Eid. wp_step. apply wp_gets. destruct (insert_row (row_of l) (db s)) as [n t] eqn:Ei.
      destruct (rows_insert _ _ _ _ Ei) as (Hf & Hn & Hr), (sequence_insert _ _ _ _ Ei) as [Hn1 Hseq].
      wp_step. apply wp_modify.
      unfold on_library, get_library. wp_step. wp_step. apply wp_gets. cbn [objects set_db snd fst]. rewrite Hl.
      cbn [deref]. wp_step. apply wp_modify. rewrite int_of_size_small by (unfold INT_MAX; lia).
      unfold setIdentifier. assert ((identifier l =? n) = false) as -> by lia.
      apply (Hend _ t); [done|lia| |].
      * split; cbn; [done|]. rewrite Hr, lookup_insert_eq. done.
      * intros j lj Hj Hne Hlj. destruct (H1 j lj Hj ltac:(congruence) Hlj) as [Hp Hrow]. cbn.
        assert (identifier lj <> n) as Hd by congruence. split; [|done]. split; [done|].
        by rewrite Hr, lookup_insert_ne by done.
    + apply Z.eqb_neq in Eid. destruct Hself as [|(Hp & Hr & Hd & _)]; [done|].
      wp_step. apply wp_identifier; [apply (row_identifier_fits (db s)); [done|done|lia]|]. intros _. wp_step.
      pose proof (Hend l (update_row (identifier l) (row_of l) (db s))) as H. rewrite set_objects_same in H by done.
      apply H; [done|rewrite sequence_update; lia| |].
      * split; [done|]. rewrite rows_update by done. by rewrite lookup_insert_eq.
      * intros j lj Hj Hne Hlj. specialize (Hd j lj Hj Hne Hlj). split; [|done].
        destruct (H1 j lj Hj ltac:(congruence) Hlj) as [Hp' Hrow]. split; [done|].
        rewrite rows_update by done. by rewrite lookup_insert_ne.
  - destruct Hself as [Hid|(Hp & Hr & Hd & Hc)]; [specialize (Hnew Hid); congruence|].
    destruct Hc as [|Hs]; [congruence|]. wp_step.
    pose proof (Hend l (db s)) as H. rewrite set_objects_same in H by done.
    replace (set_db (db s) s) with s in H by (by destruct s). apply H; [done|lia|done|]. intros j lj Hj Hne Hlj. split; [|by apply (Hd j)].
    by apply (H1 j); [|congruence|].
Qed.
End table.

(** ** The operations *)

Section operations.
Context `{secp : Secp256k1} `{tbl : LibraryTable} {laws : LibraryTableLaws} {seq : LibrarySequence}.

(** The abstract state: the entries in order, and the token of the last body. *)
Record shelf : Type := mkShelf { sh_entries : list row; sh_token : list Z }.

Definition entries (s : library_context) : list row := entries_of s.(objects) s.(data).
Definition shelf_of (s : library_context) : shelf := mkShelf (entries s) s.(token).

(** The invariant: references are live and distinct, so are the addresses, and
    every library has its own row in the table, which agrees with it. *)
Record stocked (F : faults) (sg : bool) (s : library_context) : Prop := mkStocked {
  sk_alphabet : map_ok s.(alphabet);
  sk_token : readable F sg s.(token);
  sk_data : NoDup s.(data);
  sk_live : live s;
  sk_urls : NoDup (map row_url (entries s));
  sk_kept : kept (fun _ => False) s
}.

Lemma wp_find_in F url ids s (Q : option nat -> library_context -> Prop) E :
  Forall (fun i => is_Some (s.(objects) !! i)) ids ->
  Q (match list_find (has_url url) (entries_of s.(objects) ids) with Some (k, _) => ids !! k | None => None end) s ->
  wp F (find_in url ids) Q E s.
Proof.
  intros Hf. revert Q. induction Hf as [|i ids [l Hl] Hf IH]; intros Q HQ; cbn [find_in]; [by wp_step|].
  unfold get_library. wp_step. wp_step. apply wp_gets. rewrite Hl. cbn [deref]. wp_step.
  cbn in HQ. rewrite Hl in HQ. cbn in HQ. case_bool_decide as Hu.
  - wp_step. by rewrite decide_True in HQ by done.
  - apply IH. rewrite decide_False in HQ by done. unfold entries_of.
    by destruct (list_find _ (omap _ ids)) as [[k e]|].
Qed.

(** The library found or made. *)
Record located (url : list Z) (made : GitLibrary) (s : library_context) (i : nat) (s1 : library_context)
    (l : GitLibrary) (k : nat) : Prop := mkLocated {
  lc_draft : draft i s1 l;
  lc_at : s1.(data) !! k = Some i;
  lc_nodup : NoDup s1.(data);
  lc_live : live s1;
  lc_rest : s1.(token) = s.(token) /\ s1.(alphabet) = s.(alphabet) /\ s1.(db) = s.(db);
  lc_case :
    (list_find (has_url url) (entries s) = Some (k, entry_of l) /\ entries s1 = entries s /\ 0 < l.(identifier))
    \/ (list_find (has_url url) (entries s) = None /\ entries s1 = entries s ++ [entry_of l]
        /\ k = length (entries s) /\ l = made)
}.

Lemma wp_find_or_new F sg sr url init s (Q : nat -> library_context -> Prop) E :
  stocked F sg s -> (forall l, (init l).(identifier) = l.(identifier)) ->
  (forall i s1 l k, located url (init (new_library sr.(sr_date) sr.(sr_changed))) s i s1 l k -> Q i s1) ->
  wp F (find_or_new sr url init) Q E s.
Proof.
  intros [_ _ Hnd Hlive _ Hk] Hinit HQ. unfold find_or_new, find. wp_step. wp_step. apply wp_gets. apply wp_find_in; [done|].
  pose proof (Forall2_length _ _ _ (entries_live _ _ Hlive)) as Hlen.
  destruct (list_find (has_url url) (entries_of (objects s) (data s))) as [[k e]|] eqn:El.
  - pose proof El as El'. apply list_find_Some in El' as (Hke & Hu & _).
    destruct (Forall2_lookup_r _ _ _ _ _ (entries_live _ _ Hlive) Hke) as (i & Hi & He). rewrite Hi. wp_step.
    destruct (objects s !! i) as [l|] eqn:Hl; [|done]. cbn in He. injection He as <-.
    assert (i ∈ data s) as Hin by (eapply list_elem_of_lookup_2; exact Hi).
    apply (HQ i s l k). constructor; [apply draft_found; [exact Hk|exact Hin|exact Hl]|done..|].
    left. split_and!; [done|done|]. apply (proj1 Hk i l); [exact Hin|tauto|exact Hl].
  - unfold push_library. wp_step. apply wp_gets. wp_step. apply wp_modify. wp_step.
    set (l := init _). apply (HQ _ _ l (length (entries s))). unfold entries. rewrite <- Hlen. constructor.
    + apply draft_push; [done|done|]. unfold l. by rewrite Hinit.
    + cbn. rewrite lookup_app_r, Nat.sub_diag by lia. done.
    + cbn. apply NoDup_app. split_and!; [done| |apply NoDup_singleton]. intros j Hj ->%list_elem_of_singleton.
      destruct (proj1 (Forall_forall _ _) Hlive _ Hj) as [x Hx%lookup_lt_Some]. lia.
    + unfold live. cbn. apply Forall_app. split.
      * eapply Forall_impl; [exact Hlive|]. intros j [x Hx]. exists x. by apply lookup_app_l_Some.
      * apply Forall_singleton. rewrite lookup_app_r, Nat.sub_diag by done. by eexists.
    + done.
    + right. split_and!; [done| |done|done]. unfold entries. cbn. by apply entries_push.
Qed.

(** The edited library is saved. *)
Lemma wp_store F sg url made s i s1 l k l' f (Q : unit -> library_context -> Prop) E :
  located url made s i s1 l k -> map_ok s.(alphabet) -> readable F sg s.(token) ->
  NoDup (map row_url (entries s)) -> made.(identifier) = -1 ->
  long_fits l'.(lib_date) -> sequence s.(db) + 1 < 10 ^ 9 ->
  touch l l' -> (l = made -> l'.(changed) = true) -> (forall o, (f o).(row_url) = url) ->
  (list_find (has_url url) (entries s) = Some (k, entry_of l) -> f (Some (entry_of l)) = entry_of l') ->
  (l = made -> f None = entry_of l') ->
  (forall s', stocked F sg s' -> shelf_of s' = mkShelf (upsert url f (entries s)) s.(token) ->
     sequence s'.(db) <= sequence s.(db) + 1 -> Q tt s') ->
  wp F (save i) Q E (set_objects (<[i := l']> s1.(objects)) s1).
Proof.
  intros [Hd Hat Hnd Hlive (Ht & Ha & Hdb) Hcase] Hm Hrd Hu Hmade Hdate Hroom Htouch Hch Hf Hf1 Hf2 HQ.
  eapply wp_save; [by eapply draft_edit| |done|by cbn; rewrite Hdb|].
  { destruct Htouch as [-> _]. intros Hid. apply Hch. destruct Hcase as [(_ & _ & ?)|(_ & _ & _ & ?)]; [lia|done]. }
  cbv zeta. intros l2 t He Hseq Hk. cbn [set_objects objects data db set_db] in *.
  assert (entries (set_db t (set_objects (<[i:=l2]> (<[i:=l']> (objects s1))) (set_objects (<[i:=l']> (objects s1)) s1)))
    = upsert url f (entries s)) as Hes.
  { unfold entries at 1. cbn [set_objects objects data db set_db]. rewrite list_insert_insert_eq.
    rewrite (entries_insert _ _ k) by done. rewrite He. fold (entries s1). unfold upsert.
    destruct Hcase as [(Hfind & -> & _)|(Hfind & -> & -> & Hnew)]; rewrite Hfind.
    - by rewrite Hf1.
    - rewrite Hf2 by done. by rewrite insert_app_r_alt, Nat.sub_diag by done. }
  apply HQ.
  - constructor; [cbn; congruence|cbn; congruence|exact Hnd| |rewrite Hes; by apply upsert_urls|exact Hk].
    unfold live. cbn. eapply Forall_impl; [exact Hlive|]. intros j. by rewrite !lookup_lt_is_Some, !length_insert.
  - unfold shelf_of. rewrite Hes. cbn [token set_db set_objects]. by rewrite Ht.
  - cbn. by rewrite <- Hdb.
Qed.

Lemma wp_edit F i f l (o : list GitLibrary) s (Q : unit -> library_context -> Prop) E :
  (i < length o)%nat -> Q tt (set_objects (<[i := f l]> o) s) ->
  wp F (on_library i f) Q E (set_objects (<[i := l]> o) s).
Proof.
  intros Hi HQ. unfold on_library, get_library. wp_step. wp_step. apply wp_gets. cbn [objects set_objects].
  rewrite list_lookup_insert_eq by done. cbn [deref]. wp_step. wp_step. cbn [objects set_objects].
  by rewrite list_insert_insert_eq.
Qed.

(** *** Removal *)

(** [Model::remove] of the library [i], which is [l]. *)
Definition removed (i : nat) (l : GitLibrary) (s : library_context) : library_context :=
  set_objects (<[i := setIdentifier (-1) l]> s.(objects)) (set_db (delete_row l.(identifier) s.(db)) s).

Definition removal {A} (a : A) (i : nat) (l : GitLibrary) (s : library_context) : outcome library_context A :=
  if decide (identifier_fits l.(identifier)) then Ret a (removed i l s) else Crash.

Lemma remove_eq {A} (a : A) i l s : s.(objects) !! i = Some l -> (remove i;; mret a) s = removal a i l s.
Proof.
  intros Hl. unfold remove, removal, get_library, on_library, get_library, mbind, prog_bind. cbn. rewrite Hl. cbn.
  pose proof (identifier_buffer l.(identifier)) as H. destruct (sprintf_into _ _); cbn.
  - rewrite Hl, decide_True by done. done.
  - by rewrite decide_False.
Qed.

Lemma remove_library_turn_eq url k i l s :
  s.(data) !! k = Some i -> s.(objects) !! i = Some l ->
  remove_library_turn url k s =
    if bool_decide (l.(lib_url) = url) then
      match Array_remove i s.(data) with
      | Ret _ d => removal (inr true) i l (set_data d s)
      | Err d => Err (set_data d s)
      | Crash => Crash
      | Timeout => Timeout
      end
    else Ret (inl (S k)) s.
Proof.
  intros Hk Hl. unfold remove_library_turn, get_library, mbind, prog_bind. cbn. rewrite Hk. cbn. rewrite Hl. cbn.
  case_bool_decide; [|done]. unfold zoom. destruct (Array_remove i (data s)) as [[] d|d| |]; [|done..].
  exact (remove_eq (inr true) i l (set_data d s) Hl).
Qed.

(** The turns before the library. *)
Lemma remove_library_skips url s fuel j k :
  live s -> (k + j <= length s.(data))%nat ->
  (forall q e, (k <= q < k + j)%nat -> entries s !! q = Some e -> ~ has_url url e) ->
  loop (fuel + j) (remove_library_turn url) k s = loop fuel (remove_library_turn url) (k + j)%nat s.
Proof.
  intros Hlive. revert k. induction j as [|j IH]; intros k Hk Hq; [by rewrite !Nat.add_0_r|].
  rewrite Nat.add_succ_r. cbn [loop]. unfold mbind, prog_bind.
  destruct (lookup_lt_is_Some_2 s.(data) k) as [i Hi]; [lia|].
  destruct (proj1 (Forall_lookup _ _) Hlive k i Hi) as [l Hl]. rewrite (remove_library_turn_eq url k i l) by done.
  rewrite bool_decide_false.
  2:{ intros Hu. apply (Hq k (entry_of l)); [lia| |done]. by eapply entries_lookup. }
  rewrite IH by (lia || (intros q e Hqe; apply Hq; lia)). by rewrite Nat.add_succ_comm.
Qed.

Lemma removeLibrary_found F sg url s k e :
  stocked F sg s -> list_find (has_url url) (entries s) = Some (k, e) ->
  exists i l, s.(data) !! k = Some i /\ s.(objects) !! i = Some l /\
  removeLibrary url s =
    match Array_remove i s.(data) with
    | Ret _ d => removal true i l (set_data d s)
    | Err d => Err (set_data d s)
    | Crash => Crash
    | Timeout => Timeout
    end.
Proof.
  intros [_ _ Hnd Hlive _ _] Hf. apply list_find_Some in Hf as (Hk & Hu & Hbefore).
  destruct (Forall2_lookup_r _ _ _ _ _ (entries_live _ _ Hlive) Hk) as (i & Hi & He).
  destruct (objects s !! i) as [l|] eqn:Hl; [|done]. cbn in He. injection He as <-.
  assert (k < length s.(data))%nat as Hlt by (by eapply lookup_lt_Some).
  exists i, l. split_and!; [done|done|]. unfold removeLibrary. unfold mbind, prog_bind. cbn [gets].
  replace (S (length (data s))) with (S (length (data s) - k) + k)%nat by lia.
  rewrite remove_library_skips; [|done|lia|intros q e Hq He; apply (Hbefore q e He); lia].
  cbn [Nat.add loop]. unfold mbind, prog_bind. rewrite (remove_library_turn_eq url k i l) by done.
  rewrite bool_decide_true by done. destruct (Array_remove i (data s)); [|done..].
  unfold removal. by case_decide.
Qed.

Lemma removeLibrary_missing F sg url s :
  stocked F sg s -> list_find (has_url url) (entries s) = None -> removeLibrary url s = Ret false s.
Proof.
  intros [_ _ Hnd Hlive _ _] Hf. apply list_find_None in Hf. unfold removeLibrary. unfold mbind, prog_bind. cbn [gets].
  rewrite <- (Nat.add_1_l (length (data s))). rewrite remove_library_skips; [|done|lia|].
  - cbn [Nat.add loop]. unfold mbind, prog_bind. unfold remove_library_turn at 1, mbind, prog_bind. cbn.
    by rewrite lookup_ge_None_2.
  - intros q e _ He. rewrite Forall_lookup in Hf. by eapply Hf.
Qed.
End operations.
