(* ===== verification/LibraryTrust.v ===== *)
(** * Libraries: the shelf and the chain of signatures

    The operations of [LibraryContext] implement an abstract shelf of entries;
    every token on it is part of a chain of signatures. *)

From Stdlib Require Import ZArith Lia Ascii String.
From stdpp Require Import base list option strings gmap.
From S2P Require Import Prelude YamlData YamlParser YamlLevels AppYaml Sha256 Sha256Spec Sha256Total.
From S2P Require Import Bit64 Bit64Codec Sprintf LibraryContext LibraryStore.

#[local] Open Scope Z_scope.
#[local] Strategy opaque [bit64_makeIndex].

(** ** The operations *)

Section shelf.
Context `{secp : Secp256k1} `{tbl : LibraryTable}.

Inductive operation : Type :=
| OpParse (sr : surroundings) (fuel n : nat) (body : list Z)
| OpInsert (sr : surroundings) (url : list Z)
| OpRemove (url : list Z)
| OpReset.

Definition perform (op : operation) : lib_prog bool :=
  match op with
  | OpParse sr fuel n body => parseLibrary sr fuel n body
  | OpInsert sr url => insertLibrary sr url
  | OpRemove url => removeLibrary url
  | OpReset => reset;; mret true
  end.

Definition parsed (fuel n : nat) (body : list Z) : option yaml :=
  match yaml_parse (src := scanner_source) fuel n body with Ret y _ => Some y | _ => None end.

Definition text (key : string) (y : yaml) : list Z := yaml_string (field key y).

(** A body that is accepted after the token [prev]. *)
Definition accepted (y : yaml) (prev : list Z) : bool :=
  is_map y && negb (bool_decide (text "src" y = []) || bool_decide (text "token" y = []))
  && signed_by_key (text "token" y) (text "src" y) prev.

Definition parsed_entry (now : Z) (y : yaml) : row :=
  mkRow (text "src" y) now (text "icon" y) (text "title" y) (text "token" y).

(** An accepted body becomes an entry, unless it says to be ignored. *)
Definition shelf_accept (now : Z) (y : yaml) (sh : shelf) : bool * shelf :=
  if accepted y sh.(sh_token) then
    (true, mkShelf (if yaml_bool (field "ignore" y) then sh.(sh_entries)
                    else upsert (text "src" y) (fun _ => parsed_entry now y) sh.(sh_entries)) (text "token" y))
  else (false, sh).

Definition dated (url : list Z) (now : Z) (o : option row) : row :=
  match o with
  | Some e => mkRow url now e.(row_icon) e.(row_title) e.(row_token)
  | None => mkRow url now [] [] []
  end.

Definition shelf_remove (url : list Z) (sh : shelf) : bool * shelf :=
  match list_find (has_url url) sh.(sh_entries) with
  | Some (k, _) => (true, mkShelf (delete k sh.(sh_entries)) sh.(sh_token))
  | None => (false, sh)
  end.

Definition shelf_perform (op : operation) (sh : shelf) : bool * shelf :=
  match op with
  | OpParse sr fuel n body =>
      match parsed fuel n body with Some y => shelf_accept sr.(sr_now) y sh | None => (false, sh) end
  | OpInsert sr url => (true, mkShelf (upsert url (dated url sr.(sr_now)) sh.(sh_entries)) sh.(sh_token))
  | OpRemove url => shelf_remove url sh
  | OpReset => (true, mkShelf sh.(sh_entries) [])
  end.

(** The arguments are strings of octets of a size that fits, the platform is
    [sg], and the local [sha256_context] has the size of its type. *)
Definition typed (F : faults) (sg : bool) (op : operation) : Prop :=
  match op with
  | OpParse sr fuel n body =>
      sr.(sr_signed) = sg /\ sha_ok sr.(sr_sha)
      /\ forall y, parsed fuel n body = Some y -> readable F sg (text "token" y) /\ url_ok (text "src" y)
  | _ => True
  end.

(** When an operation does what it should: the body parses, the time fits the
    buffer it is written through, the address is not empty, and a library is
    removed from an even position among an odd number. *)
Definition proper (op : operation) (sh : shelf) : Prop :=
  match op with
  | OpParse sr fuel n body => is_Some (parsed fuel n body) /\ long_fits sr.(sr_now)
  | OpInsert sr url => url <> [] /\ long_fits sr.(sr_now)
  | OpRemove url =>
      match list_find (has_url url) sh.(sh_entries) with
      | Some (k, _) => Nat.even k = true /\ Nat.odd (length sh.(sh_entries)) = true
      | None => True
      end
  | OpReset => True
  end.

Fixpoint perform_all (ops : list operation) : lib_prog (list bool) :=
  match ops with
  | [] => mret []
  | op :: r => b ← perform op; bs ← perform_all r; mret (b :: bs)
  end.

Fixpoint shelf_perform_all (ops : list operation) (sh : shelf) : list bool * shelf :=
  match ops with
  | [] => ([], sh)
  | op :: r =>
      let '(b, sh1) := shelf_perform op sh in
      let '(bs, sh2) := shelf_perform_all r sh1 in (b :: bs, sh2)
  end.

Fixpoint all_proper (ops : list operation) (sh : shelf) : Prop :=
  match ops with
  | [] => True
  | op :: r => proper op sh /\ all_proper r (shelf_perform op sh).2
  end.
End shelf.

(** ** Refinement *)

Section refinement.
Context `{secp : Secp256k1} `{tbl : LibraryTable} {laws : LibraryTableLaws} {seq : LibrarySequence} (sg : bool).
Implicit Types s : library_context.

(** What an operation from a table with [n] identifiers promises. *)
Definition meets (n : Z) (r : bool * shelf) (b : bool) (s' : library_context) : Prop :=
  stocked strict sg s' /\ (b, shelf_of s') = r /\ sequence s'.(db) <= n + 1.

Lemma stocked_alphabet m s : stocked strict sg s -> map_ok m -> stocked strict sg (set_alphabet m s).
Proof. intros [H1 H2 H3 H4 H5 H6] Hm. by constructor. Qed.

Lemma stocked_token t s : stocked strict sg s -> readable strict sg t -> stocked strict sg (set_token t s).
Proof. intros [H1 H2 H3 H4 H5 H6] Hm. by constructor. Qed.

Lemma entry_setters title now url icon tok l :
  entry_of (setToken tok (setIcon icon (setUrl url (setDate now (setTitle title l))))) = mkRow url now icon title tok.
Proof.
  unfold setToken, setIcon, setUrl, setDate, setTitle. repeat case_bool_decide; destruct (_ =? now) eqn:E;
    cbn in *; subst; try apply Z.eqb_eq in E; subst; try done.
Qed.

Lemma date_setters title now url icon tok l :
  (setToken tok (setIcon icon (setUrl url (setDate now (setTitle title l))))).(lib_date) = now.
Proof. exact (f_equal row_date (entry_setters title now url icon tok l)). Qed.

Lemma touch_setters title now url icon tok l :
  touch l (setToken tok (setIcon icon (setUrl url (setDate now (setTitle title l))))).
Proof.
  transitivity (setTitle title l); [auto with library|]. transitivity (setDate now (setTitle title l)); [auto with library|].
  transitivity (setUrl url (setDate now (setTitle title l))); [auto with library|].
  etransitivity; [apply touch_setIcon|apply touch_setToken].
Qed.

Lemma wp_accept sr y s :
  stocked strict sg s -> sr.(sr_signed) = sg -> sha_ok sr.(sr_sha) ->
  readable strict sg (text "token" y) -> url_ok (text "src" y) ->
  long_fits sr.(sr_now) -> sequence s.(db) + 1 < 10 ^ 9 ->
  wp strict (accept_library sr y) (meets (sequence s.(db)) (shelf_accept sr.(sr_now) y (shelf_of s))) (fun _ => False) s.
Proof.
  intros Hs Hsg Hsha Ht Hu Hnow Hroom.
  assert (forall b s', stocked strict sg s' -> sequence s'.(db) = sequence s.(db) ->
    meets (sequence s.(db)) (b, shelf_of s') b s') as Hsame by (intros b s' H1 H2; split; [done|split; [done|lia]]).
  unfold accept_library, shelf_accept, accepted. cbn [sh_token shelf_of sh_entries].
  destruct (is_map y); cbn [andb]; [|wp_step; by apply Hsame]. fold (text "src" y) (text "token" y).
  destruct (bool_decide (text "src" y = []) || bool_decide (text "token" y = [])) eqn:Ee; cbn [andb negb];
    [wp_step; by apply Hsame|].
  apply orb_false_iff in Ee as [Eu%bool_decide_eq_false _]. wp_step. apply wp_gets. wp_step.
  apply wp_isMatch; [apply Hs|done|by rewrite Hsg|rewrite Hsg; apply Hs|done|]. intros m Hm.
  pose proof (stocked_alphabet m s Hs Hm) as Hs1. change (shelf_of s) with (shelf_of (set_alphabet m s)).
  change (token s) with (token (set_alphabet m s)). change (entries s) with (entries (set_alphabet m s)).
  change (db s) with (db (set_alphabet m s)) in *. clear Hm Hs.
  generalize dependent (set_alphabet m s). clear s m. intros s Hroom Hsame Hs.
  destruct (signed_by_key _ _ _); [|wp_step; by apply Hsame]. wp_step. apply wp_modify. wp_step.
  pose proof (stocked_token (text "token" y) s Hs Ht) as Hs1.
  destruct (yaml_bool (field "ignore" y)); cbn [negb].
  { wp_step. wp_step. by apply Hsame. }
  wp_step. eapply wp_find_or_new; [done|done|]. intros i s1 l k Hloc.
  fold (text "title" y) (text "icon" y). set (title := text "title" y). set (icon := text "icon" y).
  assert (i < length s1.(objects))%nat as Hi by (eapply lookup_lt_Some, Hloc).
  rewrite <- (set_objects_same s1 i l) by apply Hloc.
  do 5 (wp_step; apply wp_edit; [done|]).
  eapply (wp_store strict sg (text "src" y) _ _ i s1 l k _ (fun _ => parsed_entry sr.(sr_now) y));
    [exact Hloc|apply Hs|done|apply Hs|done|by rewrite date_setters|done|..].
  - apply touch_setters.
  - intros ->. eapply touch_changed; [etransitivity; [apply touch_setIcon|apply touch_setToken]|].
    unfold setUrl at 1. rewrite bool_decide_false; [done|].
    unfold setDate, setTitle. repeat case_bool_decide; destruct (_ =? _); cbn; congruence.
  - done.
  - intros _. by rewrite entry_setters.
  - intros _. by rewrite entry_setters.
  - intros s' Hs' Hsh Hseq. wp_step. split; [done|]. split; [by rewrite Hsh|done].
Qed.

Lemma wp_insert sr url s :
  stocked strict sg s -> url <> [] -> long_fits sr.(sr_now) -> sequence s.(db) + 1 < 10 ^ 9 ->
  wp strict (insertLibrary sr url)
    (meets (sequence s.(db)) (true, mkShelf (upsert url (dated url sr.(sr_now)) (entries s)) s.(token))) (fun _ => False) s.
Proof.
  intros Hs Hu Hnow Hroom. unfold insertLibrary. wp_step. eapply wp_find_or_new; [done|..].
  { intros l. by apply (touch_setUrl url l). }
  intros i s1 l k Hloc. assert (i < length s1.(objects))%nat as Hi by (eapply lookup_lt_Some, Hloc).
  rewrite <- (set_objects_same s1 i l) by apply Hloc. wp_step. apply wp_edit; [done|]. wp_step.
  assert (entry_of (setDate sr.(sr_now) l) = mkRow l.(lib_url) sr.(sr_now) l.(lib_icon) l.(lib_title) l.(lib_token)) as He.
  { unfold setDate. destruct (_ =? _) eqn:E; [|done]. apply Z.eqb_eq in E. unfold entry_of. by rewrite E. }
  assert (setUrl url (new_library sr.(sr_date) sr.(sr_changed)) = mkLib (-1) url sr.(sr_date) [] [] [] true) as Hnew.
  { unfold setUrl. by rewrite bool_decide_false by (cbn; congruence). }
  eapply (wp_store strict sg url _ _ i s1 l k _ (dated url sr.(sr_now)));
    [exact Hloc|apply Hs|apply Hs|apply Hs|by rewrite Hnew| |done|auto with library|..].
  - change (lib_date (setDate sr.(sr_now) l)) with (row_date (entry_of (setDate sr.(sr_now) l))). by rewrite He.
  - intros ->. eapply touch_changed; [auto with library|]. by rewrite Hnew.
  - by intros [e|].
  - intros Hf. rewrite He. apply list_find_Some in Hf as (_ & Hf & _). cbn. by f_equal.
  - intros ->. rewrite He, Hnew. done.
  - intros s' Hs' Hsh Hseq. wp_step. split; [done|]. split; [by rewrite Hsh|done].
Qed.

(** The state after a removal that took the reference out of the array. *)
Lemma removed_stocked s k i l :
  stocked strict sg s -> s.(data) !! k = Some i -> s.(objects) !! i = Some l ->
  stocked strict sg (removed i l (set_data (delete k s.(data)) s))
  /\ entries (removed i l (set_data (delete k s.(data)) s)) = delete k (entries s).
Proof.
  intros [H1 H2 H3 H4 H5 [H6 H7]] Hk Hl. pose proof (length_delete (data s) k) as Hlen.
  assert (i ∉ delete k s.(data)) as Hi.
  { intros [q Hq]%list_elem_of_lookup. destruct (decide (q < k)%nat);
      [rewrite list_lookup_delete_lt in Hq by lia|rewrite list_lookup_delete_ge in Hq by lia];
      pose proof (NoDup_lookup _ _ _ _ H3 Hq Hk); lia. }
  assert (forall j, j ∈ delete k s.(data) -> j ∈ s.(data) /\ j <> i) as Hold.
  { intros j Hj. split; [by eapply list_elem_of_delete_inv|]. by intros ->. }
  assert (Forall (fun j => is_Some (s.(objects) !! j)) (delete k s.(data))) as Hlive by (by apply Forall_delete).
  assert (entries (removed i l (set_data (delete k s.(data)) s)) = delete k (entries s)) as He.
  { unfold entries, removed. cbn. rewrite <- entries_delete by done.
    unfold entries_of. clear - Hi. induction (delete k (data s)) as [|j d IH]; [done|].
    apply not_elem_of_cons in Hi as [Hj Hi]. cbn. rewrite list_lookup_insert_ne by done. by rewrite IH. }
  split; [|done]. constructor.
  - done.
  - done.
  - eapply sublist_NoDup; [exact H3|apply sublist_delete].
  - unfold live, removed. cbn. eapply Forall_impl; [exact Hlive|]. intros j. by rewrite !lookup_lt_is_Some, length_insert.
  - rewrite He. change (NoDup (row_url <$> delete k (entries s))). rewrite list_fmap_delete.
    eapply sublist_NoDup; [exact H5|apply sublist_delete].
  - split; cbn.
    + intros j lj [Hj Hne]%Hold _. rewrite list_lookup_insert_ne by done. intros Hlj.
      destruct (H6 j lj Hj ltac:(tauto) Hlj) as [Hp Hr]. split; [done|]. rewrite rows_delete, lookup_delete_ne; [done|].
      intros Heq. apply Hne. symmetry. apply (H7 i j l lj); auto. by eapply list_elem_of_lookup_2.
    + intros j q lj lq [Hj Hnj]%Hold [Hq Hnq]%Hold _ _. rewrite !list_lookup_insert_ne by done. apply H7; auto.
Qed.

Lemma wp_remove_library url s :
  stocked strict sg s -> proper (OpRemove url) (shelf_of s) -> sequence s.(db) + 1 < 10 ^ 9 ->
  wp strict (removeLibrary url) (meets (sequence s.(db)) (shelf_remove url (shelf_of s))) (fun _ => False) s.
Proof.
  intros Hs Hp Hroom. revert Hp. cbn [proper shelf_of sh_entries]. unfold shelf_remove. cbn [sh_entries shelf_of].
  destruct (list_find (has_url url) (entries s)) as [[k e]|] eqn:Hf.
  - intros [He Ho]. destruct (removeLibrary_found strict sg url s k e Hs Hf) as (i & l & Hk & Hl & Hrun).
    unfold entries in Ho. rewrite <- (Forall2_length _ _ _ (entries_live _ _ (sk_live _ _ _ Hs))) in Ho.
    rewrite (Array_remove_spec _ k) in Hrun by (done || apply Hs). rewrite He, Ho in Hrun.
    assert (identifier_fits l.(identifier)) as Hfit.
    { destruct (proj1 (sk_kept _ _ _ Hs) i l) as [Hpos Hrow]; [by eapply list_elem_of_lookup_2|tauto|done|].
      apply (row_identifier_fits (db s)); [by rewrite Hrow|done|lia]. }
    unfold removal in Hrun. rewrite decide_True in Hrun by done.
    unfold wp. rewrite Hrun. destruct (removed_stocked s k i l Hs Hk Hl) as [Hs' He'].
    split; [done|]. split; [unfold shelf_of; by rewrite He'|]. cbn. rewrite sequence_delete. lia.
  - intros _. unfold wp. rewrite (removeLibrary_missing strict sg) by done. split; [done|]. split; [done|lia].
Qed.

Lemma wp_perform op s :
  stocked strict sg s -> typed strict sg op -> proper op (shelf_of s) -> sequence s.(db) + 1 < 10 ^ 9 ->
  wp strict (perform op) (meets (sequence s.(db)) (shelf_perform op (shelf_of s))) (fun _ => False) s.
Proof.
  intros Hs Ht Hp Hroom. destruct op as [sr fuel n body|sr url|url|]; cbn [perform shelf_perform].
  - destruct Ht as (H1 & H2 & H3). destruct Hp as [[y Hy] Hnow]. rewrite Hy. destruct (H3 y Hy) as [H4 H5].
    unfold parseLibrary. wp_step. unfold parsed in Hy. unfold wp at 1, parse_body.
    destruct (yaml_parse fuel n body) as [y' tk| | |]; try done. injection Hy as ->. by apply wp_accept.
  - destruct Hp as [Hu Hnow]. by apply wp_insert.
  - by apply wp_remove_library.
  - wp_step. apply wp_modify. wp_step. split; [|split; [done|cbn; lia]].
    apply stocked_token; [done|]. split; [constructor|done].
Qed.

Lemma wp_perform_all ops s :
  stocked strict sg s -> Forall (typed strict sg) ops -> all_proper ops (shelf_of s) ->
  sequence s.(db) + Z.of_nat (length ops) < 10 ^ 9 ->
  wp strict (perform_all ops)
    (fun bs s' => stocked strict sg s' /\ (bs, shelf_of s') = shelf_perform_all ops (shelf_of s)
       /\ sequence s'.(db) <= sequence s.(db) + Z.of_nat (length ops)) (fun _ => False) s.
Proof.
  intros Hs Ht. revert s Hs. induction Ht as [|op ops Hop _ IH]; intros s Hs Hp Hroom; cbn [perform_all length] in *.
  { wp_step. split; [done|]. split; [done|lia]. }
  destruct Hp as [Hp Hr]. wp_step. eapply wp_mono; [apply wp_perform; [done|done|done|lia]| |done].
  cbv beta. intros b s1 (Hs1 & H1 & Hseq).
  wp_step. rewrite <- H1 in Hr. eapply wp_mono; [apply IH; [done|done|lia]| |done].
  cbv beta. intros bs s2 (Hs2 & H2 & Hseq2). wp_step.
  split; [done|]. split; [|lia]. cbn [shelf_perform_all]. rewrite <- H1, <- H2. done.
Qed.
End refinement.

(** ** The chain of signatures *)

Section trust.
Context `{secp : Secp256k1} `{tbl : LibraryTable} (sg : bool).
Implicit Types s : library_context.

(** Tokens that can be reached from the empty one by signatures of the key. *)
Inductive chain : list Z -> Prop :=
| chain_start : chain []
| chain_next prev url tok : chain prev -> signed_by_key tok url prev = true -> chain tok.

(** The library has no token, or it was there from the start, or its token signs
    its address after a token of the chain. *)
Definition vouched (s0 : library_context) (l : GitLibrary) : Prop :=
  l.(lib_token) = []
  \/ (exists l0, l0 ∈ s0.(objects) /\ l0.(lib_url) = l.(lib_url) /\ l0.(lib_token) = l.(lib_token))
  \/ exists prev, chain prev /\ signed_by_key l.(lib_token) l.(lib_url) prev = true.

(** Every object is vouched for, but [i], which satisfies [P]. *)
Record sound_but (s0 : library_context) (i : nat) (P : GitLibrary -> Prop) (s : library_context) : Prop := mkSound {
  so_alphabet : map_ok s.(alphabet);
  so_token : readable lax sg s.(token);
  so_chain : chain s.(token);
  so_objects : forall j l, s.(objects) !! j = Some l -> if decide (j = i) then P l else vouched s0 l
}.
Definition sound (s0 : library_context) (s : library_context) : Prop :=
  forall i, sound_but s0 i (vouched s0) s.

Context (s0 : library_context).

Lemma sound_weaken i (P P' : GitLibrary -> Prop) s :
  sound_but s0 i P s -> (forall l, P l -> P' l) -> sound_but s0 i P' s.
Proof.
  intros [H1 H2 H3 H4] HP. constructor; [done..|]. intros j l Hl. specialize (H4 j l Hl).
  case_decide; auto.
Qed.

Lemma sound_all i s : sound_but s0 i (vouched s0) s -> sound s0 s.
Proof.
  intros [H1 H2 H3 H4] k. constructor; [done..|]. intros j l Hl. specialize (H4 j l Hl).
  by repeat case_decide.
Qed.

Lemma wp_sound_get i P s (Q : GitLibrary -> library_context -> Prop) :
  sound_but s0 i P s -> (forall l, s.(objects) !! i = Some l -> P l -> Q l s) -> wp lax (get_library i) Q (fun _ => True) s.
Proof.
  intros Hs HQ. unfold get_library. wp_step. apply wp_gets. destruct (objects s !! i) as [l|] eqn:Hl; [|done].
  cbn [deref]. wp_step. apply HQ; [done|]. pose proof (so_objects _ _ _ _ Hs i l Hl) as H. by rewrite decide_True in H.
Qed.

Lemma sound_insert i P l s : sound_but s0 i P s -> P l -> sound_but s0 i P (set_objects (<[i := l]> s.(objects)) s).
Proof.
  intros [H1 H2 H3 H4] Hl. constructor; [done..|]. cbn. intros j l' Hj. case_decide as Hd.
  - subst j. rewrite list_lookup_insert_eq in Hj; [congruence|].
    apply lookup_lt_Some in Hj. by rewrite length_insert in Hj.
  - rewrite list_lookup_insert_ne in Hj by done. specialize (H4 j l' Hj). by rewrite decide_False in H4.
Qed.

Lemma wp_sound_edit i (P P' : GitLibrary -> Prop) f s (Q : unit -> library_context -> Prop) :
  sound_but s0 i P s -> (forall l, P l -> P' (f l)) -> (forall s', sound_but s0 i P' s' -> Q tt s') ->
  wp lax (on_library i f) Q (fun _ => True) s.
Proof.
  intros Hs HP HQ. unfold on_library. wp_step. eapply wp_sound_get; [done|]. intros l Hl HPl. wp_step. apply HQ.
  destruct Hs as [H1 H2 H3 H4]. constructor; [done..|]. cbn. intros j l' Hj. destruct (decide (j = i)) as [-> | Hd].
  - rewrite list_lookup_insert_eq in Hj by (by eapply lookup_lt_Some). injection Hj as <-. auto.
  - rewrite list_lookup_insert_ne in Hj by done. specialize (H4 j l' Hj). by rewrite decide_False in H4.
Qed.

Lemma wp_lax_deref {A} (o : option A) (Q : A -> library_context -> Prop) E s :
  (forall a, Q a s) -> wp lax (deref o) Q E s.
Proof. intros HQ. destruct o; [by apply wp_ret|done]. Qed.

Lemma wp_sound_save i (P : GitLibrary -> Prop) s (Q : unit -> library_context -> Prop) :
  sound_but s0 i P s -> (forall n l, P l -> P (setIdentifier n l)) -> (forall s', sound_but s0 i P s' -> Q tt s') ->
  wp lax (save i) Q (fun _ => True) s.
Proof.
  intros Hs HP HQ. unfold save. wp_step. eapply wp_sound_get; [done|]. intros l _ _.
  destruct (changed l); [|wp_step; by apply HQ]. unfold update. wp_step. eapply wp_sound_get; [done|].
  clear l. intros l _ _. wp_step. apply wp_lax_deref. intros _. destruct (identifier l =? -1).
  - wp_step. apply wp_gets. wp_step. apply wp_modify. eapply wp_sound_edit; [|by apply HP|done].
    destruct Hs as [H1 H2 H3 H4]. by constructor.
  - wp_step. apply wp_lax_deref. intros _. wp_step. apply HQ. destruct Hs as [H1 H2 H3 H4]. by constructor.
Qed.

Lemma wp_sound_find_in url ids s (Q : option nat -> library_context -> Prop) :
  (forall o, Q o s) -> wp lax (find_in url ids) Q (fun _ => True) s.
Proof.
  intros HQ. induction ids as [|i ids IH]; cbn [find_in]; [wp_step; apply HQ|]. unfold get_library. wp_step. wp_step.
  apply wp_gets. destruct (objects s !! i) as [l|]; [|done]. cbn [deref]. wp_step. case_bool_decide; [wp_step|]; auto.
Qed.

(** The library found or made has no token that is not vouched for. *)
Lemma wp_sound_find_or_new sr url init s (Q : nat -> library_context -> Prop) :
  sound s0 s -> vouched s0 (init (new_library sr.(sr_date) sr.(sr_changed))) ->
  (forall i s', sound s0 s' -> Q i s') -> wp lax (find_or_new sr url init) Q (fun _ => True) s.
Proof.
  intros Hs Hv HQ. unfold find_or_new, find. wp_step. wp_step. apply wp_gets. apply wp_sound_find_in. intros [i|].
  - wp_step. by apply HQ.
  - unfold push_library. wp_step. apply wp_gets. wp_step. apply wp_modify. wp_step. apply HQ.
    intros i. destruct (Hs i) as [H1 H2 H3 H4]. constructor; [done..|]. cbn. intros j l Hl.
    assert (vouched s0 l); [|by case_decide]. apply lookup_app_Some in Hl as [Hl|[_ Hl]].
    + specialize (H4 j l Hl). by case_decide.
    + apply list_lookup_singleton_Some in Hl as [_ <-]. done.
Qed.

Lemma vouched_setters l : vouched s0 l ->
  (forall n, vouched s0 (setIdentifier n l)) /\ (forall d, vouched s0 (setDate d l)).
Proof.
  intros Hv. split; intros x; [unfold setIdentifier|unfold setDate]; by destruct (_ =? x).
Qed.

Lemma wp_sound_accept sr y s :
  sound s0 s -> sr.(sr_signed) = sg -> sha_ok sr.(sr_sha) ->
  readable lax sg (text "token" y) -> url_ok (text "src" y) ->
  wp lax (accept_library sr y) (fun _ => sound s0) (fun _ => True) s.
Proof.
  intros Hs Hsg Hsha Ht Hu. unfold accept_library. destruct (is_map y); [|by wp_step].
  fold (text "src" y) (text "token" y). destruct (_ || _); [by wp_step|]. wp_step. apply wp_gets. wp_step.
  destruct (Hs 0%nat) as [H1 H2 H3 _]. apply wp_isMatch; [done|done|by rewrite Hsg|by rewrite Hsg|done|]. intros m Hm.
  assert (sound s0 (set_alphabet m s)) as Hs1.
  { intros i. destruct (Hs i) as [K1 K2 K3 K4]. by constructor. }
  destruct (signed_by_key (text "token" y) (text "src" y) (token s)) eqn:Esig; [|by wp_step]. wp_step. apply wp_modify.
  assert (sound s0 (set_token (text "token" y) (set_alphabet m s))) as Hs2.
  { intros i. destruct (Hs i) as [K1 K2 K3 K4]. constructor; [done|done| |done]. cbn. by eapply chain_next. }
  wp_step. destruct (negb _); [|by wp_steps]. wp_step.
  apply wp_sound_find_or_new; [done|by left|]. intros i s1 Hs3.
  set (url := text "src" y) in *. set (tok := text "token" y) in *.
  wp_step. eapply (wp_sound_edit i _ (fun _ => True)); [apply Hs3|done|]. intros s2 Hs4.
  wp_step. eapply (wp_sound_edit i _ (fun _ => True)); [done|done|]. intros s3 Hs5.
  wp_step. eapply (wp_sound_edit i _ (fun l => l.(lib_url) = url)); [done| |].
  { intros l _. unfold setUrl. by case_bool_decide. }
  intros s4 Hs6. wp_step. eapply (wp_sound_edit i _ (fun l => l.(lib_url) = url)); [done| |].
  { intros l Hl. unfold setIcon. by case_bool_decide. }
  intros s5 Hs7. wp_step. eapply (wp_sound_edit i _ (fun l => l.(lib_url) = url /\ l.(lib_token) = tok)); [done| |].
  { intros l Hl. unfold setToken. by case_bool_decide. }
  intros s6 Hs8. eapply wp_sound_save; [done| |].
  { intros n l Hl. unfold setIdentifier. by destruct (_ =? n). }
  intros s7 Hs9. wp_step. apply (sound_all i). eapply sound_weaken; [done|]. intros l [Hlu Hlt].
  right; right. exists (token s). by rewrite Hlu, Hlt.
Qed.

Lemma wp_sound_insert sr url s : sound s0 s -> wp lax (insertLibrary sr url) (fun _ => sound s0) (fun _ => True) s.
Proof.
  intros Hs. unfold insertLibrary. wp_step. apply wp_sound_find_or_new; [done| |].
  { left. unfold setUrl. by case_bool_decide. }
  intros i s1 Hs1. wp_step. eapply (wp_sound_edit i (vouched s0) (vouched s0)); [apply Hs1| |].
  { intros l Hl. by apply vouched_setters. }
  intros s2 Hs2. wp_step. eapply wp_sound_save; [done| |].
  { intros n l Hl. by apply vouched_setters. }
  intros s3 Hs3. wp_step. by eapply sound_all.
Qed.

Lemma wp_sound_remove url s : sound s0 s -> wp lax (removeLibrary url) (fun _ => sound s0) (fun _ => True) s.
Proof.
  intros Hs. unfold removeLibrary. wp_step. apply wp_gets.
  apply (wp_loop lax (fun _ => sound s0) (fun _ _ => 0%nat)); [|done|by left]. clear s Hs. intros k s Hs.
  unfold remove_library_turn. wp_step. apply wp_gets. destruct (data s !! k) as [i|]; [|by wp_step].
  wp_step. eapply wp_sound_get; [apply Hs|]. intros l _ _. case_bool_decide; [|wp_step; split; [done|by left]].
  wp_step. apply wp_zoom. unfold wp at 1. destruct (Array_remove i (data s)) as [[] d|d| |]; [|done..].
  assert (sound s0 (set_data d s)) as Hs1.
  { intros j. destruct (Hs j) as [K1 K2 K3 K4]. by constructor. }
  wp_step. unfold remove. wp_step. eapply wp_sound_get; [apply Hs1|]. intros l' _ _.
  wp_step. apply wp_lax_deref. intros _. wp_step. apply wp_modify.
  eapply (wp_sound_edit i (vouched s0) (vouched s0)).
  - destruct (Hs1 i) as [K1 K2 K3 K4]. by constructor.
  - intros l2 Hl2. by apply vouched_setters.
  - intros s2 Hs2. wp_step. by eapply sound_all.
Qed.

Lemma wp_sound_perform op s : sound s0 s -> typed lax sg op -> wp lax (perform op) (fun _ => sound s0) (fun _ => True) s.
Proof.
  intros Hs Ht. destruct op as [sr fuel n body|sr url|url|]; cbn [perform].
  - destruct Ht as (H1 & H2 & H3). unfold parseLibrary. wp_step. unfold parsed in H3. unfold wp at 1, parse_body.
    destruct (yaml_parse fuel n body) as [y tk| | |]; [|done..]. destruct (H3 y eq_refl). by apply wp_sound_accept.
  - by apply wp_sound_insert.
  - by apply wp_sound_remove.
  - wp_step. apply wp_modify. wp_step. intros i. destruct (Hs i) as [K1 K2 K3 K4].
    constructor; [done|split; [constructor|done]|constructor|done].
Qed.
End trust.

(** ** The theorems *)

Section theorems.
Context `{secp : Secp256k1} `{tbl : LibraryTable}.

(** C32: [isMatch] computes exactly whether the token is a signature of the key
    over what the previous token decodes to and the address: its tests of sizes
    refuse nothing more, the uninitialised [sha256_context] does not matter, and
    it changes nothing but the alphabet. *)
Theorem isMatch_signed (sg : bool) (junk : sha256_context) (tok url prev : list Z) (s : library_context) :
  map_ok s.(alphabet) -> sha_ok junk -> readable strict sg tok -> readable strict sg prev -> url_ok url ->
  wp strict (isMatch sg junk tok url prev)
    (fun b s' => b = signed_by_key tok url prev /\ exists m, map_ok m /\ s' = set_alphabet m s) (fun _ => False) s.
Proof. intros H1 H2 H3 H4 H5. apply wp_isMatch; [done..|]. intros m Hm. split; [done|]. by exists m. Qed.

(** C33: the context implements the shelf: from a state that satisfies the
    invariant, any sequence of calls of [parseLibrary], [insertLibrary],
    [removeLibrary] and [reset] (on bodies that parse, addresses that are not
    empty, at times that fit the buffer of [SQLite::update], and removals from
    an even position among an odd number of libraries) returns, with the
    results and the entries of the abstract shelf, as long as the table has not
    given out identifiers of ten digits, which would overrun the buffers of
    [SQLite::update] and [SQLite::remove]; the invariant holds again, so every
    library has its own row in the table, which agrees with it, and every call
    uses up one identifier at most. *)
Theorem context_refines_shelf {laws : LibraryTableLaws} {seq : LibrarySequence} (sg : bool)
    (ops : list operation) (s : library_context) :
  stocked strict sg s -> Forall (typed strict sg) ops -> all_proper ops (shelf_of s) ->
  sequence s.(db) + Z.of_nat (length ops) < 10 ^ 9 ->
  wp strict (perform_all ops)
    (fun bs s' => stocked strict sg s' /\ (bs, shelf_of s') = shelf_perform_all ops (shelf_of s)
       /\ sequence s'.(db) <= sequence s.(db) + Z.of_nat (length ops)) (fun _ => False) s.
Proof. apply wp_perform_all. Qed.

(** The states that calls which return lead to, whatever they are. *)
Inductive reachable (sg : bool) (s0 : library_context) : library_context -> Prop :=
| reach_start : reachable sg s0 s0
| reach_call s op b s' :
    reachable sg s0 s -> typed lax sg op -> perform op s = Ret b s' -> reachable sg s0 s'.

Lemma reachable_sound sg s0 s :
  map_ok s0.(alphabet) -> s0.(token) = [] -> reachable sg s0 s -> sound sg s0 s.
Proof.
  intros Hm Ht. induction 1 as [|s op b s' _ IH Hop Hrun].
  - intros i. constructor; [done|rewrite Ht; split; [constructor|done]|rewrite Ht; constructor|].
    intros j l Hl. assert (vouched s0 l); [|by case_decide]. right; left. exists l.
    split; [by eapply list_elem_of_lookup_2|done].
  - pose proof (wp_sound_perform sg s0 op s IH Hop) as H. unfold wp in H. by rewrite Hrun in H.
Qed.

(** C34: whatever calls are made and in whatever order, the token of the context
    is part of the chain of signatures that starts with the empty token, and
    every library with a token that was not there at the start is one whose
    token signs its address after a token of the chain. *)
Theorem tokens_are_chained (sg : bool) (s0 s : library_context) :
  map_ok s0.(alphabet) -> s0.(token) = [] -> reachable sg s0 s ->
  chain s.(token) /\ Forall (vouched s0) s.(objects).
Proof.
  intros Hm Ht Hr. pose proof (reachable_sound sg s0 s Hm Ht Hr) as Hs. split; [apply (Hs 0%nat)|].
  apply Forall_lookup. intros j l Hl. destruct (Hs j) as [_ _ _ H]. specialize (H j l Hl). by rewrite decide_True in H.
Qed.

(** C35: what [removeLibrary] does with the library at position [k] of [n]:
    at an even position of an odd number it is removed; at an odd position of an
    even number its row is deleted, the call returns [true] and the library
    stays in the array; otherwise the loop of [_Array::remove] runs past the end
    of the array.  The row is deleted when its identifier has at most nine
    digits; a longer one overruns the buffer of [SQLite::remove]. *)
Theorem removeLibrary_by_position {laws : LibraryTableLaws} (sg : bool) (url : list Z) (s : library_context) k e :
  stocked strict sg s -> list_find (has_url url) (entries s) = Some (k, e) ->
  exists i l, s.(data) !! k = Some i /\ s.(objects) !! i = Some l /\ entry_of l = e /\
  removeLibrary url s =
    if Nat.even k then
      if Nat.odd (length s.(data)) then removal true i l (set_data (delete k s.(data)) s) else Crash
    else if Nat.even (length s.(data)) then removal true i l s else Crash.
Proof.
  intros Hs Hf. destruct (removeLibrary_found strict sg url s k e Hs Hf) as (i & l & Hk & Hl & Hrun).
  exists i, l. split_and!; [done|done| |].
  - apply list_find_Some in Hf as (He & _). unfold entries in He.
    rewrite (entries_lookup _ _ k i l (sk_live _ _ _ Hs) Hk Hl) in He. congruence.
  - rewrite Hrun, (Array_remove_spec _ k) by (done || apply Hs).
    destruct (Nat.even k), (Nat.odd (length (data s))), (Nat.even (length (data s))); try done; by destruct s.
Qed.
End theorems.

(** ** Instances *)

(** A scheme in which a signature starts with the message. *)
#[local] Instance echo_scheme : Secp256k1 :=
  mkSecp (list Z) (list Z) (fun k => Some k) (fun b => b) (fun sig msg _ => bool_decide (take 32 sig = msg)).

(** A table as a finite map with the number of identifiers given out; only rows
    with such identifiers count. *)
#[local] Instance map_table : LibraryTable :=
  mkTable (gmap Z row * nat)
    (fun r t => let i := Z.of_nat t.2 + 1 in (i, (<[i := r]> t.1, S t.2)))
    (fun i r t => (<[i := r]> t.1, t.2))
    (fun i t => (delete i t.1, t.2)).

Definition given_out (n : nat) (p : Z * row) : Prop := 0 < p.1 <= Z.of_nat n.
#[local] Instance given_out_dec n p : Decision (given_out n p).
Proof. unfold given_out. apply _. Defined.

Definition map_rows (t : gmap Z row * nat) : gmap Z row := filter (given_out t.2) t.1.

Lemma map_rows_lookup (m : gmap Z row) n i :
  map_rows (m, n) !! i = if decide (0 < i <= Z.of_nat n) then m !! i else None.
Proof.
  unfold map_rows. cbn. destruct (filter (given_out n) m !! i) as [x|] eqn:E.
  - apply map_lookup_filter_Some in E as [E H]. by rewrite decide_True.
  - apply map_lookup_filter_None in E. case_decide as Hd; [|done]. destruct (m !! i) as [x|] eqn:Ex; [|done].
    destruct E as [E|E]; [done|]. by destruct (E x).
Qed.

#[local] Instance map_table_laws : LibraryTableLaws.
Proof.
  refine (@mkTableLaws map_table map_rows _ _ _).
  - intros r [m n] i t' [= <- <-]. cbn. split_and!; [|lia|].
    + rewrite map_rows_lookup. by rewrite decide_False by lia.
    + apply map_eq. intros j. rewrite map_rows_lookup, !lookup_insert, map_rows_lookup.
      repeat case_decide; try done; lia.
  - intros i r [m n] [x Hx]. cbn. rewrite map_rows_lookup in Hx. case_decide; [|done].
    apply map_eq. intros j. rewrite map_rows_lookup, !lookup_insert, map_rows_lookup. repeat case_decide; try done; lia.
  - intros i [m n]. cbn. apply map_eq. intros j. rewrite map_rows_lookup, !lookup_delete, map_rows_lookup.
    repeat case_decide; done.
Defined.

#[local] Instance map_table_sequence : LibrarySequence.
Proof.
  refine (@mkSequence map_table map_table_laws (fun t => Z.of_nat t.2) _ _ _ _).
  - intros [m n] i [x Hx]. change (map_rows (m, n) !! i = Some x) in Hx. rewrite map_rows_lookup in Hx.
    case_decide; [cbn; lia|done].
  - intros r [m n] i t' [= <- <-]. cbn. lia.
  - done.
  - done.
Defined.

Definition echo_token (url prev : list Z) : list Z :=
  match bit64_encode (sha256_std (decoded prev ++ url) ++ repeat 0 32) 86 bit64_map with Ret t _ => t | _ => [] end.

Definition blank_sha : sha256_context := mkSha256 (repeat 7 16) (repeat 7 8) 7 7.
Definition here : surroundings := mkSurroundings true blank_sha 5 false 100.
Definition empty_context : library_context := mkContext [] [] [] bit64_map (∅, 0%nat).

Definition echo_body (url prev : list Z) : list Z :=
  bytes_of "token: " ++ echo_token url prev ++ [10] ++ bytes_of "src: " ++ url ++ [10].

(** Texts in ASCII are readable on every platform. *)
Definition ascii_text (cs : list Z) : bool :=
  forallb (fun c => (0 <=? c) && (c <? 128)) cs && (Z.of_nat (length cs) <? 5592405).

Lemma ascii_octets cs : ascii_text cs = true -> Forall (fun c => octet c /\ c < 128) cs /\ Z.of_nat (length cs) < 5592405.
Proof.
  intros [H1 H2]%andb_true_iff. split; [|lia]. apply Forall_forall. intros c Hc. rewrite forallb_forall in H1.
  specialize (H1 c ltac:(by apply list_elem_of_In)). unfold octet. lia.
Qed.

Lemma ascii_readable F sg cs : ascii_text cs = true -> readable F sg cs.
Proof.
  intros [H1 H2]%ascii_octets. split; [|done]. eapply Forall_impl; [exact H1|]. intros c [? ?]. split; [done|by right].
Qed.

Lemma ascii_url cs : ascii_text cs = true -> url_ok cs.
Proof. intros [H1 H2]%ascii_octets. split; [|lia]. eapply Forall_impl; [exact H1|]. by intros c [? _]. Qed.

Lemma blank_sha_ok : sha_ok blank_sha.
Proof. split; [done|]. repeat (apply Forall_cons; split; [by vm_compute|]). apply Forall_nil_2. Qed.

Lemma typed_parse F n m body :
  match parsed n m body with Some y => ascii_text (text "token" y) && ascii_text (text "src" y) | None => true end = true ->
  typed F true (OpParse here n m body).
Proof.
  intros H. split_and!; [done|apply blank_sha_ok|]. intros y Hy. rewrite Hy in H. apply andb_true_iff in H as [H1 H2].
  split; [by apply ascii_readable|by apply ascii_url].
Qed.

Lemma empty_stocked : stocked strict true empty_context.
Proof.
  constructor; [by left|split; [constructor|done]|constructor|constructor|constructor|].
  split; cbn; [intros j l Hj|intros j k lj lk Hj]; by apply not_elem_of_nil in Hj.
Qed.

#[local] Instance long_fits_dec n : Decision (long_fits n).
Proof. unfold long_fits. apply _. Defined.

(** A test of [all_proper]. *)
Definition properb (op : operation) (sh : shelf) : bool :=
  match op with
  | OpParse sr fuel n body => is_some (parsed fuel n body) && bool_decide (long_fits sr.(sr_now))
  | OpInsert sr url => negb (bool_decide (url = [])) && bool_decide (long_fits sr.(sr_now))
  | OpRemove url =>
      match list_find (has_url url) sh.(sh_entries) with
      | Some (k, _) => Nat.even k && Nat.odd (length sh.(sh_entries))
      | None => true
      end
  | OpReset => true
  end.

Fixpoint all_properb (ops : list operation) (sh : shelf) : bool :=
  match ops with
  | [] => true
  | op :: r => properb op sh && all_properb r (shelf_perform op sh).2
  end.

Lemma all_properb_sound ops sh : all_properb ops sh = true -> all_proper ops sh.
Proof.
  revert sh. induction ops as [|op ops IH]; intros sh; cbn [all_properb all_proper]; [done|].
  intros [H1 H2]%andb_true_iff. split; [|by apply IH]. destruct op as [sr n m body|sr url|url|]; cbn in *; [|..|done].
  - apply andb_true_iff in H1 as [H1 H3%bool_decide_eq_true]. split; [|done].
    destruct (parsed n m body); [by eexists|done].
  - apply andb_true_iff in H1 as [H1 H3%bool_decide_eq_true]. split; [|done]. intros ->. done.
  - destruct (list_find _ _) as [[k e]|]; [|done]. by apply andb_true_iff in H1.
Qed.

(** *** Witnesses *)

Lemma isMatch_signed_witness :
  wp strict (isMatch true blank_sha (echo_token (bytes_of "u") []) (bytes_of "u") [])
    (fun b s' => b = signed_by_key (echo_token (bytes_of "u") []) (bytes_of "u") []
       /\ exists m, map_ok m /\ s' = set_alphabet m empty_context) (fun _ => False) empty_context
  /\ signed_by_key (echo_token (bytes_of "u") []) (bytes_of "u") [] = true.
Proof.
  split; [|vm_compute; reflexivity].
  apply (isMatch_signed true blank_sha (echo_token (bytes_of "u") []) (bytes_of "u") [] empty_context).
  - by left.
  - apply blank_sha_ok.
  - apply ascii_readable. vm_compute. reflexivity.
  - apply ascii_readable. vm_compute. reflexivity.
  - apply ascii_url. vm_compute. reflexivity.
Defined.

(** Two signed bodies, an address, a removal and a reset. *)
Definition sample_ops : list operation :=
  [OpParse here 1000 1000 (echo_body (bytes_of "u") []);
   OpParse here 1000 1000 (echo_body (bytes_of "v") (echo_token (bytes_of "u") []));
   OpInsert here (bytes_of "w"); OpRemove (bytes_of "u"); OpReset].

Lemma context_refines_shelf_witness :
  wp strict (perform_all sample_ops)
    (fun bs s' => stocked strict true s' /\ (bs, shelf_of s') = shelf_perform_all sample_ops (shelf_of empty_context)
       /\ sequence s'.(db) <= sequence empty_context.(db) + Z.of_nat (length sample_ops)) (fun _ => False) empty_context
  /\ (shelf_perform_all sample_ops (shelf_of empty_context)).1 = [true; true; true; true; true]
  /\ length (sh_entries (shelf_perform_all sample_ops (shelf_of empty_context)).2) = 2%nat.
Proof.
  split; [|split; vm_compute; reflexivity].
  apply (context_refines_shelf true sample_ops empty_context).
  - apply empty_stocked.
  - apply Forall_cons. split; [apply typed_parse; vm_compute; reflexivity|].
    apply Forall_cons. split; [apply typed_parse; vm_compute; reflexivity|]. repeat constructor.
  - apply all_properb_sound. vm_compute. reflexivity.
  - reflexivity.
Defined.

Definition after_body : library_context :=
  match perform (OpParse here 1000 1000 (echo_body (bytes_of "u") [])) empty_context with
  | Ret _ s => s
  | _ => empty_context
  end.

Lemma tokens_are_chained_witness :
  chain after_body.(token) /\ Forall (vouched empty_context) after_body.(objects)
  /\ length after_body.(objects) = 1%nat.
Proof.
  assert (reachable true empty_context after_body) as Hr.
  { apply (reach_call true empty_context empty_context (OpParse here 1000 1000 (echo_body (bytes_of "u") [])) true).
    - apply reach_start.
    - apply typed_parse. vm_compute. reflexivity.
    - vm_compute. reflexivity. }
  destruct (tokens_are_chained true empty_context after_body) as [H1 H2].
  - by left.
  - reflexivity.
  - exact Hr.
  - split; [exact H1|]. split; [exact H2|]. vm_compute. reflexivity.
Defined.

Definition two_libraries : library_context :=
  match perform_all [OpInsert here (bytes_of "u"); OpInsert here (bytes_of "v")] empty_context with
  | Ret _ s => s
  | _ => empty_context
  end.

Lemma two_stocked : stocked strict true two_libraries.
Proof.
  pose proof (wp_perform_all true [OpInsert here (bytes_of "u"); OpInsert here (bytes_of "v")] empty_context
    empty_stocked ltac:(repeat constructor) ltac:(by apply all_properb_sound) ltac:(done)) as H.
  unfold wp in H. unfold two_libraries. by destruct (perform_all _ empty_context) as [bs s'| | |]; [destruct H| | |].
Qed.

Lemma removeLibrary_by_position_witness :
  removeLibrary (bytes_of "u") two_libraries = Crash
  /\ exists s, removeLibrary (bytes_of "v") two_libraries = Ret true s /\ s.(data) = two_libraries.(data).
Proof.
  split.
  - destruct (removeLibrary_by_position true (bytes_of "u") two_libraries 0 (mkRow (bytes_of "u") 100 [] [] []))
      as (i & l & _ & _ & _ & H); [apply two_stocked|vm_compute; reflexivity|]. exact H.
  - destruct (removeLibrary_by_position true (bytes_of "v") two_libraries 1 (mkRow (bytes_of "v") 100 [] [] []))
      as (i & l & Hk & Hl & _ & H); [apply two_stocked|vm_compute; reflexivity|].
    assert (identifier_fits l.(identifier)) as Hfit.
    { assert (Some i = Some 1%nat) as Ei by (rewrite <- Hk; vm_compute; reflexivity). injection Ei as ->.
      assert (option_map identifier (Some l) = Some 2) as El by (rewrite <- Hl; vm_compute; reflexivity).
      injection El as ->. unfold identifier_fits. lia. }
    exists (removed i l two_libraries). split; [|reflexivity]. rewrite H.
    change (removal true i l two_libraries = Ret true (removed i l two_libraries)).
    unfold removal. by rewrite decide_True.
Defined.
